(* ===== verification/_CoqProject ===== *)
-Q . S2P
Prelude.v
Crypto.v
Keys.v
KeyServices.v
Config.v
ConfigFiles.v
BitVec.v
DagMessages.v
Messages.v
Signers.v
Leader.v
Store.v
Proposer.v
Synchronizer.v
Mempool.v
Aggregator.v
AggregatorProps.v
Agreement.v
DagAggregator.v
DagCore.v
DagCertify.v
PrimaryTasks.v
Batching.v
Network.v
NetworkProps.v
WorkerTasks.v
WorkerSync.v
Executor.v
Accounts.v
BenchmarkClient.v
AptosDb.v
Scenario.v
ScenarioLogs.v
Core.v
Boot.v
CoreSteps.v
CoreProps.v
CoreTermination.v
CoreLiveness.v
GoodRound.v
ViewChange.v
ConsensusTasks.v
Replication.v
Safety.v
AggregatorVetted.v
CoreVetted.v
GlobalSafety.v
Instances.v
Witnesses.v
Scripts.v
FastFork.v
DagWitnesses.v
SafetyWitnesses.v
ConfigWitnesses.v
RoundWitnesses.v
