(* ===== verification/Prelude.v ===== *)
(** * A model of smr-hydrangea and what makes it correct

    smr-hydrangea is a state machine replication system in Rust.  Clients send
    transactions to a primary, which packs them into headers; a header with
    enough votes gets a certificate (src/primary).  The consensus core
    (src/hydrangea) is the Hydrangea BFT protocol: the leader of a round proposes
    a block of certificates, nodes vote for it in two phases, two consecutive
    quorum certificates or one fast quorum commit it, and timeouts move a stuck
    round on.  Committed certificates are turned back into transactions and
    executed by the Aptos VM (src/hydrangea/src/committer.rs,
    src/aptos_executor).  src/network carries the messages, src/store keeps the
    data, src/config holds the committee and src/crypto the keys.

    ** How the code is modelled

    Every task of the program is a state (a Record of the fields that change), and
    one function per method, in the order of the source; the arms of its
    [select!] are the constructors of an event type and one function runs an arm.
    Methods that can fail are computations [Exec S E A] (this file): they thread a
    state, and return a value, an error of the source's error type, or the message
    of a panic.  Computations that ran out of fuel have an outcome of their own.
    Unsigned integers wrap around at their width, since the release profile does
    not set overflow-checks.  Messages leave a task as a list of effects in its
    trace.  A channel is the list of what was sent and not received.  Cryptography
    (ed25519, BLS over blsttc, SHA-512), RocksDB, bincode, BCS, base64, the Aptos
    VM and the iteration order of a HashMap are type classes, with classes of laws
    for what the theorems rely on; [Instances] satisfies all of them.

    ** The files

    - [Prelude] (this file): machine integers, outcomes and computations,
      preorder and termination reasoning on them, weights of sets.
    - [Crypto], [Keys], [KeyServices] (src/crypto): digests, signatures, aggregation
      of BLS keys; textual form of keys; key generation and signature services.
    - [Config], [ConfigFiles] (src/config): committee, lookups, thresholds;
      configuration files.  [BitVec]: the bit vectors of signers in certificates.
    - [Boot] (src/node/src/main.rs and the [spawn] functions): which tasks a node
      runs and how they are connected.  [BenchmarkClient]
      (src/node/src/benchmark_client.rs): the load generator.
    - [DagMessages], [DagAggregator], [DagCore], [DagCertify], [PrimaryTasks],
      [Batching] (src/primary): headers, votes and certificates; their aggregation;
      the core of the primary, and how a header gets its certificate; garbage
      collector, helper and payload receiver; the pipeline from client messages to
      headers.
    - [Messages] (src/hydrangea/src/messages.rs), [Signers] (valid shares combine
      to valid aggregates), [Leader], [Aggregator], [Proposer], [Synchronizer],
      [Mempool], [Core] (the files of src/hydrangea of the same names),
      [ConsensusTasks] (consensus.rs, helper.rs, committer.rs), [Replication] (the
      core and the committer together).
    - [Executor], [AptosDb] (database.rs and executor.rs of src/aptos_executor: the
      state and the execution of blocks; genesis, funded accounts, balances),
      [Accounts] (accounts.rs, transaction_builder.rs), [Scenario], [ScenarioLogs]
      (scenarios/three_trader.rs).
    - [Store] (src/store), [Network], [NetworkProps] (src/network), [WorkerTasks],
      [WorkerSync] (src/worker).
    - [AggregatorProps], [Agreement], [CoreSteps], [CoreProps], [CoreTermination],
      [CoreLiveness], [GoodRound], [ViewChange]: the proofs about aggregation and the
      consensus core.
    - [Safety] (the safety argument of the protocol, on records of signed votes and
      timeouts), [AggregatorVetted], [CoreVetted] (every method of the aggregators
      and of the core keeps what it needs), [GlobalSafety] (executions of a
      network of nodes, and their safety).
    - [Instances], [Witnesses], [DagWitnesses], [SafetyWitnesses],
      [RoundWitnesses], [ConfigWitnesses]: concrete parameters, a committee of four
      with one fault, and every theorem with hypotheses at a concrete input.
    - [Scripts], [FastFork]: executions of the network of four that evaluation
      verifies, and two in which a fast commit is lost.

    ** What is shown

    - Agreement: quorum certificates that any two nodes assemble for one round are
      for one block ([Agreement.qcs_agree]); it rests on the intersection of quorums
      ([Config.Quorums]) and on what a [QCMaker] collects ([AggregatorProps]).
    - Voting rules of a node, over all reachable states of its core: no
      equivocation, one commit vote per round, no vote after a timeout, timeouts
      that report the votes, locks, an append-only ledger ([CoreProps]).  They are
      proved on an abstract protocol, the transition system [CoreSteps.step];
      [CoreSteps.handle_event_refines] shows that every handler, whatever its
      outcome, is a sequence of such steps.
    - Safety across rounds ([GlobalSafety]).  In any execution of a network, with
      equivocating leaders, lost, delayed and reordered messages and crashed nodes,
      a ledger whose last block has a slow commit quorum is a prefix of that of
      every node as far, and their committers execute alike when they find the same
      headers in their stores; every vote an honest node signs is justified.  Two limits of this are limits of the code.  Byzantine
      messages are [CoreVetted.authentic]: certificates in them rest on votes and
      timeouts that the honest nodes counted in really signed, and a TC on a view
      change quorum.  The code does not check this: QCs inside messages are not
      verified, and a node that is in the round already votes on a forged TC
      ([CoreProps.forged_tc_gets_vote]).  And the ledger that is extended must end in
      a slow commit.  A commit by any other quorum is on the ledger of every node as
      far too, unless a TC of a fallback proposal has forgotten it
      ([GlobalSafety.forks_need_forgetful_tc]), and the code can make such TCs: the weak certificate that carries a fast commit
      through a timeout is lost when one timeout reports a vote for another block
      ([FastFork.fast_commit_forks]), and a node that commits on a fast certificate
      from a peer does not lock it, so that the block can be lost even if all votes
      of each round are for one block ([FastFork.unlocked_commit_forks]).
    - Progress of a node: it votes for a valid proposal, aggregates valid votes to a
      certificate, and commits on a commit certificate ([CoreProps],
      [AggregatorProps], [CoreLiveness]).  Progress of the network: a round whose
      proposal and votes arrive commits on every correct node, on prepare votes
      alone when a fast quorum of them arrives ([GoodRound]); a round whose timers
      expire ends with a certificate in the hands of the next leader
      ([ViewChange]).  Every vote and timeout in these runs is one that a correct
      node has sent.
    - Every handler returns, unless the parent links of the blocks have a cycle
      ([CoreTermination]).
    - Replication: nodes that committed up to the same block have executed the same
      transactions with the same results, if they find the same headers
      ([Replication]).
    - Executor: a fresh committer's accounts are funded ([ConsensusTasks]), and the
      builders number each account's transactions consecutively ([Accounts],
      [Scenario]).
    - Messages: what the well-formedness checks of QCs, TCs, blocks and proposals
      accept, and that what honest nodes assemble passes them.
    - Leaders: each elector is fair in its own sense ([Leader]).
    - Store and synchronizer: as long as reads succeed nobody who waits for a value or
      a block is forgotten.
    - Data path: client transactions reach headers in order and unchanged, headers
      get exactly one certificate from valid votes, and committed transactions are executed once
      ([Batching], [DagCertify], [ConsensusTasks]).
    - Network: the reliable sender is a queue that survives any sequence of
      connection failures, and delivers messages that fit into a frame
      ([NetworkProps]).
    - Worker: batches are delivered on a quorum of acknowledgements and travel
      unchanged ([WorkerTasks]).
    - Node: every channel of a running node has one receiver and a sender, up to the
      ones named there, the nodes listen where others send to ([Boot]), the load
      generator numbers its transactions consecutively ([BenchmarkClient]),
      signature services answer as direct calls do ([KeyServices]), and
      configuration files round-trip unless more than white space of a longer one
      stays ([ConfigFiles]).
    - Errors: messages by which a peer can stop or mislead a node, and the
      certificate that stops a node after a restart on its data ([CoreLiveness]; all
      theorems about reachable states are about one run of the process).

    ** Fuel

    The walk of [have_all_ancestors] follows parent links, which no check of the code
    keeps from leading to a higher round; it may make [2 ^ 256] passes and more
    ([ancestors_depth], [repeat_pow]), as many as there are digests, so that it runs
    out only where the code goes round in a cycle of hashes; [collect_ancestors]
    gets the number of uncommitted blocks; a vote that completes a QC makes the node
    vote in a higher round for which a proposal is pending, so [handle_vote] gets
    the number of those rounds plus two ([vote_fuel]); a timeout is created at most twice
    in the handling of one ([timeout_fuel] is three); [merge_schedules] uses every
    pair of authorities once ([schedule_fuel]).
    [CoreTermination.handle_event_terminates] shows that no handler runs out.  All
    other recursion is structural.

    ** What is not modelled

    The command line, logging, TCP sockets and the framing codec but for its
    length limit, the runtime and its scheduling, and waiting for other nodes to be online are I/O; files, clocks,
    random numbers and what a connection takes are inputs of the definitions.
    The Aptos types, their BCS, the genesis change set and the virtual machine are
    library code: parameters.
    src/primary/src/header_waiter.rs and src/primary/src/synchronizer.rs are
    commented out of the crate and do not fit its current [Header].  Channels are
    unbounded in the model: a full one only delays its sender. *)
From stdpp Require Export base tactics list gmap fin_maps strings sorting.
From Stdlib Require Export ZArith Lia.
Open Scope Z_scope.

(** [lia] that knows division and remainder by constants. *)
Ltac zlia := Z.to_euclidean_division_equations; lia.

(** ** Machine integers

    The program is built without [overflow-checks], so unsigned arithmetic
    wraps around modulo the width and the amount of a shift is taken modulo
    the width. *)
Module Machine.

Definition u32_wrap (z : Z) : Z := z `mod` 2 ^ 32.
Definition u64_wrap (z : Z) : Z := z `mod` 2 ^ 64.
Definition u128_wrap (z : Z) : Z := z `mod` 2 ^ 128.

Definition u32_add (a b : Z) : Z := u32_wrap (a + b).
Definition u32_sub (a b : Z) : Z := u32_wrap (a - b).
Definition u32_mul (a b : Z) : Z := u32_wrap (a * b).
Definition u64_add (a b : Z) : Z := u64_wrap (a + b).
Definition u64_sub (a b : Z) : Z := u64_wrap (a - b).

(** [u128::MAX], [1u128 << bit] and [!x] on [u128]. *)
Definition u128_max : Z := 2 ^ 128 - 1.
Definition u128_bit (bit : Z) : Z := 2 ^ (bit `mod` 128).
Definition u128_not (x : Z) : Z := u128_max - x.

Definition u32 (z : Z) : Prop := 0 <= z < 2 ^ 32.
Definition u64 (z : Z) : Prop := 0 <= z < 2 ^ 64.

(** [to_le_bytes] / [to_be_bytes] of an [n]-byte unsigned integer. *)
Fixpoint le_bytes (n : nat) (z : Z) : list Z :=
  match n with
  | O => []
  | S n' => z `mod` 256 :: le_bytes n' (z / 256)
  end.
Definition be_bytes (n : nat) (z : Z) : list Z := reverse (le_bytes n z).

Lemma u32_add_small a b : 0 <= a + b < 2 ^ 32 -> u32_add a b = a + b.
Proof. intros. by apply Z.mod_small. Qed.
Lemma u32_sub_small a b : 0 <= a - b < 2 ^ 32 -> u32_sub a b = a - b.
Proof. intros. by apply Z.mod_small. Qed.
Lemma u32_mul_small a b : 0 <= a * b < 2 ^ 32 -> u32_mul a b = a * b.
Proof. intros. by apply Z.mod_small. Qed.
Lemma u64_add_small a b : 0 <= a + b < 2 ^ 64 -> u64_add a b = a + b.
Proof. intros. by apply Z.mod_small. Qed.
Lemma u64_sub_small a b : 0 <= a - b < 2 ^ 64 -> u64_sub a b = a - b.
Proof. intros. by apply Z.mod_small. Qed.
Lemma u64_add_range a b : u64 (u64_add a b).
Proof. apply Z.mod_pos_bound. lia. Qed.
Lemma u64_sub_range a b : u64 (u64_sub a b).
Proof. apply Z.mod_pos_bound. lia. Qed.

Lemma length_le_bytes n z : length (le_bytes n z) = n.
Proof. revert z. induction n as [|n IH]; intros z; simpl; [done|by rewrite IH]. Qed.

Lemma le_bytes_inj n a b :
  0 <= a < 256 ^ Z.of_nat n -> 0 <= b < 256 ^ Z.of_nat n ->
  le_bytes n a = le_bytes n b -> a = b.
Proof.
  revert a b. induction n as [|n IH]; intros a b Ha Hb Heq; [simpl in *; lia|].
  rewrite Nat2Z.inj_succ, Z.pow_succ_r in Ha, Hb by lia.
  simpl in Heq. injection Heq as Hmod Hdiv.
  apply IH in Hdiv; [|split; [apply Z.div_pos; lia|apply Z.div_lt_upper_bound; lia]..].
  rewrite (Z.div_mod a 256), (Z.div_mod b 256) by lia. congruence.
Qed.

End Machine.
Export Machine.

Create HintDb hyd.
#[export] Hint Resolve u64_add_range u64_sub_range : hyd.

(** ** Results, panics and stateful computations

    A fallible operation of the program returns a [Result], may panic
    ([unwrap], [expect], [assert!], slice indexing, division by zero) and, in
    the model, may exhaust the fuel of a loop.  Mutations done before an error
    or a panic remain: the state is returned in every case. *)
Inductive Outcome (E A : Type) : Type :=
| Ok (a : A)
| Err (e : E)
| Panicked (msg : string)
| OutOfFuel.
Arguments Ok {E A} a.
Arguments Err {E A} e.
Arguments Panicked {E A} msg.
Arguments OutOfFuel {E A}.

Definition Exec (S E A : Type) : Type := S -> S * Outcome E A.

Section exec.
Context {S E : Type}.

Definition exec_ret {A} (a : A) : Exec S E A := fun s => (s, Ok a).
Definition exec_bind {A B} (k : A -> Exec S E B) (m : Exec S E A) : Exec S E B :=
  fun s =>
    match m s with
    | (s', Ok a) => k a s'
    | (s', Err e) => (s', Err e)
    | (s', Panicked msg) => (s', Panicked msg)
    | (s', OutOfFuel) => (s', OutOfFuel)
    end.

Definition gets {A} (f : S -> A) : Exec S E A := fun s => (s, Ok (f s)).
Definition modify (f : S -> S) : Exec S E unit := fun s => (f s, Ok tt).
Definition fail {A} (e : E) : Exec S E A := fun s => (s, Err e).
Definition panic {A} (msg : string) : Exec S E A := fun s => (s, Panicked msg).
Definition out_of_fuel {A} : Exec S E A := fun s => (s, OutOfFuel).

(** [ensure!(cond, e)]. *)
Definition ensure (cond : bool) (e : E) : Exec S E unit :=
  if cond then exec_ret tt else fail e.
(** [assert!(cond)]. *)
Definition assert_that (cond : bool) (msg : string) : Exec S E unit :=
  if cond then exec_ret tt else panic msg.
(** [o.expect(msg)]. *)
Definition expect {A} (o : option A) (msg : string) : Exec S E A :=
  match o with Some a => exec_ret a | None => panic msg end.
(** [m?] for a computation that does not touch the state. *)
Definition lift {A} (o : Outcome E A) : Exec S E A := fun s => (s, o).
(** [let _ = m]: an error is dropped, a panic is not. *)
Definition ignore_err {A} (m : Exec S E A) : Exec S E unit :=
  fun s =>
    match m s with
    | (s', Ok _) | (s', Err _) => (s', Ok tt)
    | (s', Panicked msg) => (s', Panicked msg)
    | (s', OutOfFuel) => (s', OutOfFuel)
    end.

(** [m.expect(msg)]: an error becomes a panic. *)
Definition expect_ok {A} (m : Exec S E A) (msg : string) : Exec S E A :=
  fun s => match m s with (s', Err _) => (s', Panicked msg) | r => r end.

End exec.

#[export] Instance exec_mret S E : MRet (Exec S E) := @exec_ret S E.
#[export] Instance exec_mbind S E : MBind (Exec S E) := fun A B k m => exec_bind k m.

(** The same combinators for computations without a state. *)
#[export] Instance outcome_mret E : MRet (Outcome E) := fun _ a => Ok a.
#[export] Instance outcome_mbind E : MBind (Outcome E) := fun A B k m =>
  match m with
  | Ok a => k a
  | Err e => Err e
  | Panicked msg => Panicked msg
  | OutOfFuel => OutOfFuel
  end.
Definition ensure_o {E} (cond : bool) (e : E) : Outcome E unit :=
  if cond then Ok tt else Err e.
Definition expect_o {E A} (o : option A) (msg : string) : Outcome E A :=
  match o with Some a => Ok a | None => Panicked msg end.

(** [HashMap] iteration visits the entries in an unspecified order. *)
Class HashIter := {
  hash_iter : forall {K : Type} `{Countable K} {V : Type}, gmap K V -> list (K * V);
}.
Class HashIterLaws `{HashIter} : Prop := {
  hash_iter_perm : forall K `{Countable K} V (m : gmap K V), hash_iter m ≡ₚ map_to_list m;
}.

(** Run a computation on a part of the state. *)
Definition zoom {S T E A} (get : S -> T) (put : T -> S -> S) (m : Exec T E A) : Exec S E A :=
  fun s => let '(t, o) := m (get s) in (put t s, o).

(** The equations that run a computation. *)
Section run.
Context {S E A B : Type}.
Implicit Types (k : A -> Exec S E B) (s : S).

Lemma run_bind (m : Exec S E A) k s s' a : m s = (s', Ok a) -> (m ≫= k) s = k a s'.
Proof. intros Hm. unfold mbind, exec_mbind, exec_bind. by rewrite Hm. Qed.
Lemma run_bind_Err (m : Exec S E A) k s s' e : m s = (s', Err e) -> (m ≫= k) s = (s', Err e).
Proof. intros Hm. unfold mbind, exec_mbind, exec_bind. by rewrite Hm. Qed.
Lemma run_bind_Panicked (m : Exec S E A) k s s' msg :
  m s = (s', Panicked msg) -> (m ≫= k) s = (s', Panicked msg).
Proof. intros Hm. unfold mbind, exec_mbind, exec_bind. by rewrite Hm. Qed.
Lemma run_ret (a : A) k s : (mret a ≫= k) s = k a s.
Proof. done. Qed.
Lemma run_gets (f : S -> A) k s : (gets f ≫= k) s = k (f s) s.
Proof. done. Qed.
Lemma run_modify f (k : unit -> Exec S E B) s : (modify f ≫= k) s = k tt (f s).
Proof. done. Qed.
Lemma run_lift (a : A) k s : (lift (Ok a) ≫= k) s = k a s.
Proof. done. Qed.
Lemma run_expect (a : A) msg k s : (expect (Some a) msg ≫= k) s = k a s.
Proof. done. Qed.
Lemma run_ensure e (k : unit -> Exec S E B) s : (ensure true e ≫= k) s = k tt s.
Proof. done. Qed.
Lemma run_assert msg (k : unit -> Exec S E B) s : (assert_that true msg ≫= k) s = k tt s.
Proof. done. Qed.
End run.

(** Run the first computations of a sequence as far as they are determined. *)
Ltac run := rewrite ?run_ret, ?run_gets, ?run_modify, ?run_lift, ?run_expect, ?run_ensure, ?run_assert.
Ltac runs := repeat (progress run).

(** ** Loops

    [repeat_pow depth pass after] makes [2 ^ depth] passes, then does [after]; a
    pass gets the rest of the loop as an argument, and what it does not run is not
    evaluated. *)
Fixpoint repeat_pow {A B} (depth : nat) (pass : (A -> B) -> A -> B) (after : A -> B) : A -> B :=
  match depth with
  | O => pass after
  | S depth' => repeat_pow depth' pass (fun a => repeat_pow depth' pass after a)
  end.

Lemma repeat_pow_iter {A B} depth (pass : (A -> B) -> A -> B) after :
  repeat_pow depth pass after = Nat.iter (2 ^ depth) pass after.
Proof.
  revert after. induction depth as [|depth IH]; intros after; [done|].
  cbn [repeat_pow]. rewrite !IH, <-Nat.iter_add. f_equal. simpl. lia.
Qed.
(** A number below a power of two is below that many passes. *)
Lemma below_pow z depth : z < 2 ^ Z.of_nat depth -> (Z.to_nat z < 2 ^ depth)%nat.
Proof.
  intros Hz. destruct (decide (0 <= z)); [|pose proof (Nat.pow_nonzero 2 depth ltac:(lia)); lia].
  apply Nat2Z.inj_lt. rewrite Z2Nat.id, Nat2Z.inj_pow by done. done.
Qed.

(** ** Relational reasoning on computations

    [step_in R m s]: running [m] from [s], whatever its outcome, moves along
    [R].  For a preorder [R] it composes. *)
Definition step_in {S E A} (R : relation S) (m : Exec S E A) (s : S) : Prop :=
  R s (m s).1.
Definition keeps {S E A} (R : relation S) (m : Exec S E A) : Prop :=
  forall s, step_in R m s.

Section step_in.
Context {S E : Type} (R : relation S) `{!PreOrder R}.

Lemma step_in_bind {A B}  (m : Exec S E A) (k : A -> Exec S E B) s :
  step_in R m s ->
  (forall a, (m s).2 = Ok a -> step_in R (k a) (m s).1) ->
  step_in R (m ≫= k) s.
Proof.
  unfold step_in, mbind, exec_mbind, exec_bind. intros Hm Hk.
  destruct (m s) as [s' [a|e|msg|]]; simpl in *; try done.
  etrans; [exact Hm|]. by apply Hk.
Qed.

(** Run a few steps by computation first. *)
Lemma step_in_run {A} (m m' : Exec S E A) s s' :
  m s = m' s' -> R s s' -> step_in R m' s' -> step_in R m s.
Proof. unfold step_in. intros -> Hr Hm. by etrans. Qed.

(** As [step_in_bind], remembering the run and the relation for the rest. *)
Lemma step_in_bind_run {A B} (m : Exec S E A) (k : A -> Exec S E B) s :
  step_in R m s ->
  (forall a s', m s = (s', Ok a) -> R s s' -> step_in R (k a) s') ->
  step_in R (m ≫= k) s.
Proof.
  intros Hm Hk. apply step_in_bind; [exact Hm|]. intros a Ha. apply Hk; [|exact Hm].
  destruct (m s). simpl in *. by subst.
Qed.

Lemma keeps_bind {A B} (m : Exec S E A) (k : A -> Exec S E B) :
  keeps R m -> (forall a, keeps R (k a)) -> keeps R (m ≫= k).
Proof. intros Hm Hk s. apply step_in_bind; [apply Hm|intros; apply Hk]. Qed.

Lemma keeps_ret {A} (a : A) : keeps R (mret a : Exec S E A).
Proof. intros s. unfold step_in. simpl. reflexivity. Qed.
Lemma keeps_gets {A} (f : S -> A) : keeps R (gets f : Exec S E A).
Proof. intros s. unfold step_in. simpl. reflexivity. Qed.
Lemma keeps_fail {A} e : keeps R (fail e : Exec S E A).
Proof. intros s. unfold step_in. simpl. reflexivity. Qed.
Lemma keeps_panic {A} msg : keeps R (panic msg : Exec S E A).
Proof. intros s. unfold step_in. simpl. reflexivity. Qed.
Lemma keeps_out_of_fuel {A} : keeps R (out_of_fuel : Exec S E A).
Proof. intros s. unfold step_in. simpl. reflexivity. Qed.
Lemma keeps_lift {A} (o : Outcome E A) : keeps R (lift o).
Proof. intros s. unfold step_in. simpl. reflexivity. Qed.
Lemma keeps_ensure c e : keeps R (ensure c e : Exec S E unit).
Proof. destruct c; [apply keeps_ret|apply keeps_fail]. Qed.
Lemma keeps_assert c msg : keeps R (assert_that c msg : Exec S E unit).
Proof. destruct c; [apply keeps_ret|apply keeps_panic]. Qed.
Lemma keeps_expect {A} (o : option A) msg : keeps R (expect o msg : Exec S E A).
Proof. destruct o; [apply keeps_ret|apply keeps_panic]. Qed.
Lemma keeps_modify f : (forall s, R s (f s)) -> keeps R (modify f : Exec S E unit).
Proof. intros Hf s. apply Hf. Qed.
Lemma step_in_ignore {A} (m : Exec S E A) s : step_in R m s -> step_in R (ignore_err m) s.
Proof. unfold step_in, ignore_err. by destruct (m s) as [s' []]. Qed.
Lemma keeps_ignore {A} (m : Exec S E A) : keeps R m -> keeps R (ignore_err m).
Proof. intros Hm s. apply step_in_ignore, Hm. Qed.

(** Reading the state exposes what was read to the continuation. *)
Lemma step_in_gets {A B} (f : S -> A) (k : A -> Exec S E B) s :
  step_in R (k (f s)) s -> step_in R (gets f ≫= k) s.
Proof. done. Qed.
Lemma step_in_modify {B} f (k : unit -> Exec S E B) s :
  R s (f s) -> step_in R (k tt) (f s) -> step_in R (modify f ≫= k) s.
Proof. intros Hf Hk. unfold step_in in *. etrans; [exact Hf|exact Hk]. Qed.

End step_in.

#[export] Hint Resolve keeps_ret keeps_gets keeps_fail keeps_panic keeps_out_of_fuel
  keeps_lift keeps_ensure keeps_assert keeps_expect : hyd.

(** ** What a computation returns, whatever the state

    [ends P m]: [m] does not run out of fuel, and a value it returns satisfies
    [P]. *)
Definition ends_o {E A} (P : A -> Prop) (o : Outcome E A) : Prop :=
  match o with
  | Ok a => P a
  | OutOfFuel => False
  | Err _ | Panicked _ => True
  end.
Definition ends {S E A} (P : A -> Prop) (m : Exec S E A) : Prop := forall s, ends_o P (m s).2.

Section ends.
Context {S E A B : Type}.

Lemma ends_o_bind P Q (o : Outcome E A) (k : A -> Outcome E B) :
  ends_o P o -> (forall a, P a -> ends_o Q (k a)) -> ends_o Q (o ≫= k).
Proof. destruct o; simpl; auto. Qed.
Lemma ends_o_expect msg (o : option A) : ends_o (fun _ => True) (expect_o (E := E) o msg).
Proof. by destruct o. Qed.
Lemma ends_o_ensure (c : bool) (e : E) : ends_o (fun _ => c = true) (ensure_o c e).
Proof. by destruct c. Qed.
Lemma ends_bind P Q (m : Exec S E A) (k : A -> Exec S E B) :
  ends P m -> (forall a, P a -> ends Q (k a)) -> ends Q (m ≫= k).
Proof.
  intros Hm Hk s. specialize (Hm s). unfold mbind, exec_mbind, exec_bind.
  destruct (m s) as [s' [a|e|msg|]]; simpl in *; try done. by apply Hk.
Qed.
Lemma ends_ret (P : A -> Prop) a : P a -> ends P (mret a : Exec S E A).
Proof. by intros Ha s. Qed.
Lemma ends_gets (f : S -> A) : ends (fun _ => True) (gets f : Exec S E A).
Proof. by intros s. Qed.
Lemma ends_modify (f : S -> S) : ends (fun _ => True) (modify f : Exec S E unit).
Proof. by intros s. Qed.
Lemma ends_lift P (o : Outcome E A) : ends_o P o -> ends P (lift o : Exec S E A).
Proof. by intros Ho s. Qed.
Lemma ends_expect (o : option A) msg : ends (fun _ => True) (expect o msg : Exec S E A).
Proof. intros s. by destruct o. Qed.
Lemma ends_weaken P Q (m : Exec S E A) : (forall a, P a -> Q a) -> ends P m -> ends Q m.
Proof. intros HPQ Hm s. specialize (Hm s). destruct (m s) as [s' []]; simpl in *; auto. Qed.
End ends.

(** ** Lists *)
Lemma list_filter_ext_in {A} (P Q : A -> Prop) `{!forall x, Decision (P x)}
    `{!forall x, Decision (Q x)} (l : list A) :
  (forall x, x ∈ l -> P x <-> Q x) -> filter P l = filter Q l.
Proof.
  induction l as [|x l IH]; intros HPQ; [done|]. rewrite !filter_cons.
  rewrite IH by (intros y Hy; apply HPQ; by right).
  assert (P x <-> Q x) as Hx by (apply HPQ; left).
  destruct (decide (P x)), (decide (Q x)); tauto.
Qed.

Lemma eq_Permutation {A} (l k : list A) : l = k -> l ≡ₚ k.
Proof. by intros ->. Qed.

Lemma list_filter_id {A} (P : A -> Prop) `{!forall x, Decision (P x)} (l : list A) :
  (forall x, x ∈ l -> P x) -> filter P l = l.
Proof.
  induction l as [|x l IH]; intros HP; [done|].
  rewrite filter_cons_True by (apply HP; left). rewrite IH; [done|]. intros y Hy. apply HP. by right.
Qed.

Lemma sum_list_with_ext {A} (f g : A -> nat) (l : list A) :
  (forall x, x ∈ l -> f x = g x) -> sum_list_with f l = sum_list_with g l.
Proof.
  induction l as [|x l IH]; intros Hfg; [done|]. simpl.
  rewrite (Hfg x) by left. rewrite IH; [done|]. intros y Hy. apply Hfg. by right.
Qed.

Lemma sum_list_with_le {A} (f : A -> nat) (k : nat) (l : list A) :
  (forall x, x ∈ l -> (f x <= k)%nat) -> (sum_list_with f l <= length l * k)%nat.
Proof.
  induction l as [|x l IH]; intros Hf; simpl; [done|].
  assert ((f x <= k)%nat) by (apply Hf; left).
  assert ((sum_list_with f l <= length l * k)%nat); [|lia]. apply IH. intros y Hy. apply Hf. by right.
Qed.

Lemma sum_list_with_const {A} (f : A -> nat) (k : nat) (l : list A) :
  (forall x, x ∈ l -> f x = k) -> sum_list_with f l = (length l * k)%nat.
Proof.
  intros Hf. rewrite (sum_list_with_ext f (fun _ => k)) by done. clear Hf.
  induction l as [|x l IH]; simpl; [done|]. by rewrite IH.
Qed.

(** ** Weights of finite sets *)
Definition set_weight {A} `{Countable A} (w : A -> Z) (X : gset A) : Z :=
  set_fold (fun a acc => w a + acc) 0 X.

Section set_weight.
Context {A : Type} `{Countable A} (w : A -> Z).
Implicit Types X Y : gset A.

Lemma set_weight_empty : set_weight w (∅ : gset A) = 0.
Proof. apply set_fold_empty. Qed.

Lemma set_fold_weight X z :
  set_fold (fun a acc => w a + acc) z X = set_weight w X + z.
Proof.
  unfold set_weight, set_fold. simpl.
  induction (elements X) as [|a l IH]; simpl; [lia|]. rewrite IH. lia.
Qed.

Lemma set_weight_disj_union X Y :
  X ## Y -> set_weight w (X ∪ Y) = set_weight w X + set_weight w Y.
Proof.
  intros Hd. transitivity (set_fold (fun a acc => w a + acc) (set_weight w X) Y).
  - apply (set_fold_disj_union_strong eq); [apply _|intros; lia|done].
  - rewrite set_fold_weight. lia.
Qed.

Lemma set_weight_insert X a : a ∉ X -> set_weight w ({[a]} ∪ X) = w a + set_weight w X.
Proof.
  intros Ha. rewrite set_weight_disj_union by set_solver. f_equal.
  unfold set_weight. rewrite set_fold_singleton. lia.
Qed.

Lemma set_weight_union_inter X Y :
  set_weight w (X ∪ Y) + set_weight w (X ∩ Y) = set_weight w X + set_weight w Y.
Proof.
  assert (X ∪ Y = X ∪ (Y ∖ X)) as ->.
  { apply set_eq. intros a. destruct (decide (a ∈ X)); set_solver. }
  rewrite set_weight_disj_union by set_solver.
  assert (set_weight w Y = set_weight w (Y ∖ X) + set_weight w (X ∩ Y)); [|lia].
  rewrite <-set_weight_disj_union by set_solver. f_equal.
  apply set_eq. intros a. destruct (decide (a ∈ X)); set_solver.
Qed.

Lemma set_weight_nonneg X : (forall a, 0 <= w a) -> 0 <= set_weight w X.
Proof.
  intros Hw. induction X as [|a X Ha IH] using set_ind_L.
  { rewrite set_weight_empty. lia. }
  rewrite set_weight_insert by done. specialize (Hw a). lia.
Qed.

Lemma set_weight_mono X Y : (forall a, 0 <= w a) -> X ⊆ Y -> set_weight w X <= set_weight w Y.
Proof.
  intros Hw Hsub. rewrite (union_difference_L X Y Hsub), set_weight_disj_union by set_solver.
  pose proof (set_weight_nonneg (Y ∖ X) Hw). lia.
Qed.

(** Two sets inside a set of weight at most [n] overlap by the excess of their
    weights over [n]. *)
Lemma set_weight_overlap X Y T n a b :
  (forall x, 0 <= w x) -> X ⊆ T -> Y ⊆ T -> set_weight w T <= n ->
  a <= set_weight w X -> b <= set_weight w Y ->
  a + b - n <= set_weight w (X ∩ Y).
Proof.
  intros Hw HX HY HT Ha Hb.
  pose proof (set_weight_union_inter X Y).
  assert (set_weight w (X ∪ Y) <= set_weight w T) by (apply set_weight_mono; [done|set_solver]).
  lia.
Qed.

(** The weight of a duplicate-free list is that of its set. *)
Definition list_weight (l : list A) : Z := foldr (fun a acc => w a + acc) 0 l.

Lemma list_weight_snoc (l : list A) a : list_weight (l ++ [a]) = list_weight l + w a.
Proof. induction l as [|b l IH]; simpl; lia. Qed.

Lemma list_weight_perm (l k : list A) : l ≡ₚ k -> list_weight l = list_weight k.
Proof. induction 1; simpl; lia. Qed.

Lemma set_weight_list_to_set (l : list A) :
  NoDup l -> set_weight w (list_to_set l) = list_weight l.
Proof.
  induction 1 as [|a l Ha Hnd IH]; simpl; [apply set_weight_empty|].
  rewrite set_weight_insert by (by rewrite elem_of_list_to_set). by rewrite IH.
Qed.

Lemma list_weight_u32 (l : list A) z :
  foldl (fun acc a => u32_add acc (w a)) (u32_wrap z) l = u32_wrap (z + list_weight l).
Proof.
  revert z. induction l as [|a l IH]; intros z; simpl; [by rewrite Z.add_0_r|].
  assert (u32_add (u32_wrap z) (w a) = u32_wrap (z + w a)) as ->.
  { unfold u32_add, u32_wrap. by rewrite Zplus_mod_idemp_l. }
  rewrite IH. f_equal. lia.
Qed.

End set_weight.
