(* ===== verification/Crypto.v ===== *)
(** * Crypto: digests, keys, signatures and BLS key aggregation
    (src/crypto/src/lib.rs)

    [ed25519_dalek] and [blsttc] are not part of the repository: their hash,
    group and verification functions are the fields of the class [Primitives],
    and every definition that uses them takes an instance.  The laws that some
    theorems need (the G2 points form a commutative group, shares verify in
    aggregate) are the classes [G2Laws] and [BlsLaws]. *)
From S2P Require Import Prelude.

(** [pub struct Digest(pub [u8; 32])] *)
Record Digest := mkDigest { digest_bytes : list Z }.
(** [pub struct PublicKey(pub [u8; 32])] *)
Record PublicKey := mkPublicKey { key_bytes : list Z }.
(** [pub struct SecretKey([u8; 64])] *)
Record SecretKey := mkSecretKey { secret_bytes : list Z }.
(** [pub struct Signature { part1: [u8; 32], part2: [u8; 32] }] *)
Record Signature := mkSignature { part1 : list Z; part2 : list Z }.

#[export] Instance Digest_eq_dec : EqDecision Digest.
Proof. solve_decision. Defined.
#[export] Instance PublicKey_eq_dec : EqDecision PublicKey.
Proof. solve_decision. Defined.
#[export] Instance Signature_eq_dec : EqDecision Signature.
Proof. solve_decision. Defined.
#[export] Program Instance Digest_countable : Countable Digest :=
  inj_countable' digest_bytes mkDigest _.
Next Obligation. by intros []. Qed.
#[export] Program Instance PublicKey_countable : Countable PublicKey :=
  inj_countable' key_bytes mkPublicKey _.
Next Obligation. by intros []. Qed.

(** [Default] of the 32-byte arrays. *)
Definition Digest_default : Digest := mkDigest (replicate 32 0).
Definition PublicKey_default : PublicKey := mkPublicKey (replicate 32 0).
Definition Signature_default : Signature := mkSignature (replicate 32 0) (replicate 32 0).

(** The derived lexicographic [Ord] of [PublicKey]. *)
Fixpoint bytes_leb (a b : list Z) : bool :=
  match a, b with
  | [], _ => true
  | _ :: _, [] => false
  | x :: a', y :: b' => (x <? y) || ((x =? y) && bytes_leb a' b')
  end.
Definition key_le (a b : PublicKey) : Prop := bytes_leb (key_bytes a) (key_bytes b) = true.
#[export] Instance key_le_dec : RelDecision key_le.
Proof. intros a b. unfold key_le. apply _. Defined.

(** The functions of [ed25519_dalek] and [blsttc] that the program calls.
    [G1] is the type of [SignatureShareG1], [G2] that of [PublicKeyShareG2]. *)
Class Primitives := {
  sha512 : list Z -> list Z;
  (** [dalek::Keypair::from_bytes(secret)] then [sign]; [None] if the secret
      does not load. *)
  ed_sign : list Z -> list Z -> option (list Z);
  (** [from_bytes] of signature and key, then [verify_strict]. *)
  ed_verify : list Z -> list Z -> list Z -> bool;
  G1 : Type;
  g1_default : G1;
  g1_add : G1 -> G1 -> G1;
  G2 : Type;
  #[global] G2_eq_dec :: EqDecision G2;
  g2_default : G2;
  g2_add : G2 -> G2 -> G2;
  g2_sub : G2 -> G2 -> G2;
  (** [Ord for PublicKeyShareG2] *)
  g2_cmp : G2 -> G2 -> comparison;
  (** [PublicKeyShareG1] *)
  PkG1 : Type;
  BlsSecret : Type;
  (** [SignatureShareG1::new(digest, secret)] *)
  bls_sign : list Z -> BlsSecret -> G1;
  (** [SignatureShareG1::verify_batch(digest, key, sig).is_ok()] *)
  bls_verify : list Z -> G2 -> G1 -> bool;
}.

Section crypto.
Context `{Prim : Primitives}.

(** [Sha512] over the concatenation of the updates, cut to 32 bytes. *)
Definition hash32 (preimage : list Z) : Digest := mkDigest (take 32 (sha512 preimage)).

(** [Signature::new]: [None] is the panic of [expect]. *)
Definition Signature_new (digest : Digest) (secret : SecretKey) : option Signature :=
  sig ← ed_sign (secret_bytes secret) (digest_bytes digest);
  Some (mkSignature (take 32 sig) (take 32 (drop 32 sig))).

Definition Signature_flatten (sig : Signature) : list Z := part1 sig ++ part2 sig.

(** [Signature::verify(digest, public_key).is_ok()] *)
Definition Signature_verify (sig : Signature) (digest : Digest) (pk : PublicKey) : bool :=
  ed_verify (Signature_flatten sig) (digest_bytes digest) (key_bytes pk).

Definition aggregate_sign (agg_sig new_sign : G1) : G1 := g1_add agg_sig new_sign.
Definition aggregate_pubkey (agg_key new_key : G2) : G2 := g2_add agg_key new_key.

(** [remove_pubkeys]: [None] is the panic of an out-of-range index. *)
Fixpoint remove_pubkeys (agg_key : G2) (ids : list nat) (sorted_keys : list G2) : option G2 :=
  match ids with
  | [] => Some agg_key
  | i :: ids' =>
      k ← sorted_keys !! i;
      remove_pubkeys (g2_sub agg_key k) ids' sorted_keys
  end.

(** [combine_keys]: panics on an empty vector ([keys[0]]). *)
Definition combine_keys (keys : list G2) : option G2 :=
  match keys with
  | [] => None
  | k :: ks => Some (foldl g2_add k ks)
  end.

(** [combine_key_from_ids]: panics on an empty [ids] or an id out of range. *)
Definition combine_key_from_ids (ids : list nat) (sorted_keys : list G2) : option G2 :=
  keys ← mapM (fun i => sorted_keys !! i) ids;
  combine_keys keys.

(** [slice::binary_search] of the standard library on a sorted slice: bisection
    of the range [lo, lo + size). *)
Fixpoint binary_search_from (fuel : nat) (keys : list G2) (x : G2) (lo size : nat) : option nat :=
  match fuel with
  | O => None
  | S fuel' =>
      if bool_decide (size = 0%nat) then None
      else
        let mid := (lo + size / 2)%nat in
        match keys !! mid with
        | None => None
        | Some k =>
            match g2_cmp k x with
            | Eq => Some mid
            | Lt => binary_search_from fuel' keys x (S mid) (size - size / 2 - 1)
            | Gt => binary_search_from fuel' keys x lo (size / 2)
            end
        end
  end.
Definition binary_search (keys : list G2) (x : G2) : option nat :=
  binary_search_from (S (length keys)) keys x 0 (length keys).

End crypto.

(** [trait Hash { fn digest(&self) -> Digest }] *)
Class Hash (A : Type) := digest : A -> Digest.

(** What the program relies on of [blsttc]: the points of G2 form a commutative
    group in which subtraction cancels addition, and their [Ord] is a strict
    total order. *)
Class G2Laws `{Prim : Primitives} : Prop := {
  g2_add_assoc : forall a b c, g2_add a (g2_add b c) = g2_add (g2_add a b) c;
  g2_add_comm : forall a b, g2_add a b = g2_add b a;
  g2_sub_add : forall a b, g2_sub (g2_add a b) b = a;
  g2_cmp_eq : forall a b, g2_cmp a b = Eq <-> a = b;
  g2_cmp_antisym : forall a b, g2_cmp b a = CompOpp (g2_cmp a b);
  g2_cmp_trans : forall a b c, g2_cmp a b = Lt -> g2_cmp b c = Lt -> g2_cmp a c = Lt;
}.

(** Pairing-based verification is additive: shares over the same message verify
    in aggregate under the aggregate key. *)
Class BlsLaws `{Prim : Primitives} : Prop := {
  bls_verify_add : forall d a b s t,
    bls_verify d a s = true -> bls_verify d b t = true ->
    bls_verify d (g2_add a b) (g1_add s t) = true;
}.

(** [ed25519]: what a key pair signs, its public key verifies. *)
Definition ed_keypair `{Prim : Primitives} (secret : SecretKey) (pk : PublicKey) : Prop :=
  forall d, exists sig, ed_sign (secret_bytes secret) d = Some sig /\
    length sig = 64%nat /\ ed_verify sig d (key_bytes pk) = true.

(** A strictly sorted vector of keys, as [keys.sort()] leaves one without
    duplicates. *)
Definition keys_sorted `{Prim : Primitives} (keys : list G2) : Prop :=
  StronglySorted (fun a b => g2_cmp a b = Lt) keys.

Section crypto_laws.
Context `{Prim : Primitives} {Laws : G2Laws}.
Implicit Types (keys : list G2) (ids rest : list nat).

Lemma foldl_g2_add_l a b keys : foldl g2_add (g2_add a b) keys = g2_add a (foldl g2_add b keys).
Proof.
  revert b. induction keys as [|k keys IH]; intros b; simpl; [done|].
  by rewrite <-g2_add_assoc, IH.
Qed.

Lemma combine_keys_cons k keys c :
  combine_keys keys = Some c -> combine_keys (k :: keys) = Some (g2_add k c).
Proof.
  destruct keys as [|k' keys]; simpl; [done|]. intros [= <-]. by rewrite foldl_g2_add_l.
Qed.

Lemma combine_keys_is_Some keys : keys <> [] -> is_Some (combine_keys keys).
Proof. destruct keys; [done|]. intros _. by eexists. Qed.

(** The combined key does not depend on the order of the keys. *)
Lemma combine_keys_perm keys keys' :
  keys ≡ₚ keys' -> combine_keys keys = combine_keys keys'.
Proof.
  induction 1 as [|k l l' Hp IH|x y l|l1 l2 l3 _ IH1 _ IH2]; [done| |..].
  - destruct (decide (l = [])) as [->|Hne].
    { apply Permutation_nil_l in Hp as ->. done. }
    destruct (combine_keys_is_Some l Hne) as [c Hc].
    by rewrite !(combine_keys_cons k _ c) by congruence.
  - simpl. by rewrite (g2_add_comm y x).
  - congruence.
Qed.

Lemma remove_pubkeys_keys agg ids keys ks :
  mapM (fun i => keys !! i) ids = Some ks ->
  remove_pubkeys agg ids keys = Some (foldl g2_sub agg ks).
Proof.
  revert agg ks. induction ids as [|i ids IH]; intros agg ks; simpl.
  { by intros [= <-]. }
  intros (k & Hk & (ks' & Hks & [= <-])%bind_Some)%bind_Some.
  rewrite Hk. simpl. by apply IH.
Qed.

Lemma foldl_g2_sub_combined ks keys c a :
  combine_keys keys = Some c -> combine_keys (ks ++ keys) = Some a ->
  foldl g2_sub a ks = c.
Proof.
  intros Hc. revert a. induction ks as [|k ks IH]; intros a Ha; [simpl in *; congruence|].
  change ((k :: ks) ++ keys) with (k :: (ks ++ keys)) in Ha. simpl.
  destruct (combine_keys_is_Some (ks ++ keys)) as [b Hb].
  { intros [-> ->]%app_nil. done. }
  rewrite (combine_keys_cons k _ b Hb) in Ha. injection Ha as <-.
  rewrite g2_add_comm, g2_sub_add. by apply IH.
Qed.

Lemma mapM_lookup_seq keys :
  mapM (fun i => keys !! i) (seq 0 (length keys)) = Some keys.
Proof.
  apply mapM_Some_2, Forall2_same_length_lookup. split; [by rewrite length_seq|].
  intros i j k [-> _]%lookup_seq Hk. exact Hk.
Qed.

Lemma mapM_perm {A B} (f : A -> option B) l l' ks :
  l ≡ₚ l' -> mapM f l = Some ks -> exists ks', mapM f l' = Some ks' /\ ks ≡ₚ ks'.
Proof.
  setoid_rewrite mapM_Some. intros Hp. revert ks.
  induction Hp as [|x l l' _ IH|x y l|l1 l2 l3 _ IH1 _ IH2]; intros ks Hks.
  - exists ks. by split.
  - apply Forall2_cons_inv_l in Hks as (k & ks' & Hk & (ks2 & H2 & Hp2)%IH & ->).
    exists (k :: ks2). split; [by constructor|by constructor].
  - apply Forall2_cons_inv_l in Hks as (k1 & ks1 & Hk1 & Hks1 & ->).
    apply Forall2_cons_inv_l in Hks1 as (k2 & ks2 & Hk2 & Hks2 & ->).
    exists (k2 :: k1 :: ks2). split; [by repeat constructor|constructor].
  - apply IH1 in Hks as (ks2 & (ks3 & H3 & Hp3)%IH2 & Hp2).
    exists ks3. split; [done|by etrans].
Qed.

Lemma mapM_app_inv {A B} (f : A -> option B) l1 l2 ks :
  mapM f (l1 ++ l2) = Some ks ->
  exists ks1 ks2, mapM f l1 = Some ks1 /\ mapM f l2 = Some ks2 /\ ks = ks1 ++ ks2.
Proof. setoid_rewrite mapM_Some. apply Forall2_app_inv_l. Qed.

(** Removing the keys of [ids] from the combined key gives the combined key of
    the other indices. *)
Lemma remove_pubkeys_combine keys agg ids rest :
  combine_keys keys = Some agg ->
  ids ++ rest ≡ₚ seq 0 (length keys) ->
  rest <> [] ->
  exists pk, remove_pubkeys agg ids keys = Some pk /\
             combine_key_from_ids rest keys = Some pk.
Proof.
  intros Hagg Hperm Hrest.
  destruct (mapM_perm (fun i => keys !! i) _ _ _ (symmetry Hperm) (mapM_lookup_seq keys))
    as (ks & Hks & Hp).
  apply mapM_app_inv in Hks as (ks1 & ks2 & H1 & H2 & ->).
  rewrite (combine_keys_perm _ _ Hp) in Hagg.
  destruct (combine_keys_is_Some ks2) as [pk Hpk].
  { intros ->. apply length_mapM in H2. by destruct rest. }
  exists pk. split.
  - rewrite (remove_pubkeys_keys _ _ _ _ H1). f_equal. by eapply foldl_g2_sub_combined.
  - unfold combine_key_from_ids. by rewrite H2.
Qed.

Lemma Signature_new_verify secret pk d :
  ed_keypair secret pk ->
  exists sig, Signature_new d secret = Some sig /\ Signature_verify sig d pk = true.
Proof.
  intros Hkp. destruct (Hkp (digest_bytes d)) as (sig & Hs & Hlen & Hv).
  unfold Signature_new. rewrite Hs. simpl. eexists. split; [done|].
  unfold Signature_verify, Signature_flatten. simpl.
  rewrite (firstn_all2 (drop 32 sig)) by (rewrite length_drop; lia).
  by rewrite take_drop.
Qed.

Lemma g2_cmp_irrefl a : g2_cmp a a <> Lt.
Proof. rewrite (proj2 (g2_cmp_eq a a)) by done. done. Qed.

Lemma keys_sorted_lookup_lt keys i j a b :
  keys_sorted keys -> keys !! i = Some a -> keys !! j = Some b -> (i < j)%nat ->
  g2_cmp a b = Lt.
Proof.
  unfold keys_sorted. intros Hs. revert i j.
  induction Hs as [|k keys _ IH Hall]; intros i j Hi Hj Hlt; [done|].
  destruct i as [|i], j as [|j]; simpl in *; try lia.
  - injection Hi as ->. rewrite Forall_forall in Hall.
    apply Hall, list_elem_of_lookup. by exists j.
  - apply (IH i j); [done..|lia].
Qed.

Lemma keys_sorted_cmp keys i j a b :
  keys_sorted keys -> keys !! i = Some a -> keys !! j = Some b ->
  g2_cmp a b = Nat.compare i j.
Proof.
  intros Hs Hi Hj. destruct (Nat.compare_spec i j) as [->|Hlt|Hlt].
  - apply g2_cmp_eq. congruence.
  - by eapply keys_sorted_lookup_lt.
  - rewrite g2_cmp_antisym, (keys_sorted_lookup_lt keys j i b a) by done. done.
Qed.

Lemma keys_sorted_NoDup keys : keys_sorted keys -> NoDup keys.
Proof.
  intros Hs. apply NoDup_alt. intros i j k Hi Hj.
  pose proof (keys_sorted_cmp keys i j k k Hs Hi Hj) as Hc.
  rewrite (proj2 (g2_cmp_eq k k) eq_refl) in Hc. symmetry in Hc.
  by apply Nat.compare_eq.
Qed.

Lemma binary_search_from_found fuel keys x lo size i :
  keys_sorted keys -> keys !! i = Some x ->
  (lo <= i < lo + size)%nat -> (lo + size <= length keys)%nat -> (size < fuel)%nat ->
  binary_search_from fuel keys x lo size = Some i.
Proof.
  intros Hs Hi. revert lo size. induction fuel as [|fuel IH]; intros lo size Hr Hlen Hf; [lia|].
  cbn [binary_search_from]. rewrite bool_decide_eq_false_2 by lia.
  pose proof (Nat.div_lt size 2) as Hdiv.
  destruct (lookup_lt_is_Some_2 keys (lo + size / 2)) as [k Hk]; [lia|]. rewrite Hk.
  rewrite (keys_sorted_cmp _ _ _ _ _ Hs Hk Hi).
  destruct (Nat.compare_spec (lo + size / 2) i) as [->|Hlt|Hlt]; [done|apply IH; lia..].
Qed.

Lemma binary_search_found keys x i :
  keys_sorted keys -> keys !! i = Some x -> binary_search keys x = Some i.
Proof.
  intros Hs Hi. pose proof (lookup_lt_Some _ _ _ Hi).
  apply binary_search_from_found; [done..|lia|lia|lia].
Qed.

Lemma binary_search_from_sound fuel keys x lo size i :
  binary_search_from fuel keys x lo size = Some i -> keys !! i = Some x.
Proof.
  revert lo size. induction fuel as [|fuel IH]; intros lo size; cbn [binary_search_from]; [done|].
  case_bool_decide; [done|].
  destruct (keys !! (lo + size / 2)%nat) as [k|] eqn:Hk; [|done].
  destruct (g2_cmp k x) eqn:Hc; [|apply IH..].
  intros Hi. injection Hi as <-. apply g2_cmp_eq in Hc as <-. exact Hk.
Qed.

(** [binary_search] returns the unique index of the key, and fails exactly on
    the keys that are not in the vector. *)
Lemma binary_search_spec keys x i :
  keys_sorted keys -> binary_search keys x = Some i <-> keys !! i = Some x.
Proof.
  intros Hs. split; [apply binary_search_from_sound|by apply binary_search_found].
Qed.

End crypto_laws.
