(* ===== verification/Keys.v ===== *)
(** * Keys: the textual form of digests and keys (src/crypto/src/lib.rs)

    The [base64] crate is a parameter.  Slicing past the end of a vector
    panics. *)
From S2P Require Import Prelude Crypto.

Class Base64 := {
  base64_encode : list Z -> string;
  base64_decode : string -> option (list Z);
}.
Class Base64Laws `{Base64} : Prop := {
  base64_decode_encode : forall bytes,
    Forall (fun b => 0 <= b < 256) bytes -> base64_decode (base64_encode bytes) = Some bytes;
}.

Inductive DecodeError := InvalidEncoding.

Section keys.
Context `{B64 : Base64}.

(** [TryFrom<&[u8]> for Digest] *)
Definition Digest_try_from (item : list Z) : option Digest :=
  if bool_decide (length item = 32%nat) then Some (mkDigest item) else None.

(** [Display]: [get(0..16).unwrap()] *)
Definition display16 (text : string) : Outcome DecodeError string :=
  if (16 <=? String.length text)%nat then Ok (String.substring 0 16 text)
  else Panicked "called `Option::unwrap()` on a `None` value".
Definition Digest_display (d : Digest) : Outcome DecodeError string :=
  display16 (base64_encode (digest_bytes d)).

(** [bytes[..n]] *)
Definition slice_to (n : nat) (bytes : list Z) : Outcome DecodeError (list Z) :=
  if (n <=? length bytes)%nat then Ok (take n bytes)
  else Panicked "range end index out of range for slice".

Definition PublicKey_encode_base64 (k : PublicKey) : string := base64_encode (key_bytes k).
Definition PublicKey_decode_base64 (s : string) : Outcome DecodeError PublicKey :=
  bytes ← (match base64_decode s with Some bytes => Ok bytes | None => Err InvalidEncoding end);
  array ← slice_to 32 bytes;
  Ok (mkPublicKey array).
Definition PublicKey_display (k : PublicKey) : Outcome DecodeError string :=
  display16 (PublicKey_encode_base64 k).

Definition SecretKey_encode_base64 (k : SecretKey) : string := base64_encode (secret_bytes k).
Definition SecretKey_decode_base64 (s : string) : Outcome DecodeError SecretKey :=
  bytes ← (match base64_decode s with Some bytes => Ok bytes | None => Err InvalidEncoding end);
  array ← slice_to 64 bytes;
  Ok (mkSecretKey array).

(** [Drop for SecretKey] *)
Definition SecretKey_drop (k : SecretKey) : SecretKey := mkSecretKey (map (fun _ => 0) (secret_bytes k)).

(** The bytes of an array of [n]. *)
Definition byte_array (n : nat) (bytes : list Z) : Prop :=
  length bytes = n /\ Forall (fun b => 0 <= b < 256) bytes.

Lemma slice_to_spec n bytes :
  slice_to n bytes =
    if decide (n <= length bytes)%nat then Ok (take n bytes)
    else Panicked "range end index out of range for slice".
Proof. unfold slice_to. destruct (Nat.leb_spec n (length bytes)); by case_decide; try lia. Qed.

(** The textual form of keys round-trips: decoding what [encode_base64] wrote
    gives the key back; any other text is an error, or a key made of the first
    32 (64) bytes it stands for, or, when it stands for fewer, a panic. *)
Lemma key_base64_roundtrip {Laws : Base64Laws} :
  (forall k, byte_array 32 (key_bytes k) -> PublicKey_decode_base64 (PublicKey_encode_base64 k) = Ok k) /\
  (forall k, byte_array 64 (secret_bytes k) -> SecretKey_decode_base64 (SecretKey_encode_base64 k) = Ok k) /\
  (forall s, match base64_decode s with
             | None => PublicKey_decode_base64 s = Err InvalidEncoding
             | Some bytes =>
                 if decide (32 <= length bytes)%nat
                 then PublicKey_decode_base64 s = Ok (mkPublicKey (take 32 bytes))
                 else exists msg, PublicKey_decode_base64 s = Panicked msg
             end) /\
  (forall s, match base64_decode s with
             | None => SecretKey_decode_base64 s = Err InvalidEncoding
             | Some bytes =>
                 if decide (64 <= length bytes)%nat
                 then SecretKey_decode_base64 s = Ok (mkSecretKey (take 64 bytes))
                 else exists msg, SecretKey_decode_base64 s = Panicked msg
             end).
Proof.
  unfold PublicKey_decode_base64, SecretKey_decode_base64, PublicKey_encode_base64, SecretKey_encode_base64.
  split_and!.
  - intros [bytes] [Hlen Hb]. simpl in *. rewrite (base64_decode_encode _ Hb). simpl.
    rewrite slice_to_spec, decide_True by lia. simpl. by rewrite firstn_all2 by lia.
  - intros [bytes] [Hlen Hb]. simpl in *. rewrite (base64_decode_encode _ Hb). simpl.
    rewrite slice_to_spec, decide_True by lia. simpl. by rewrite firstn_all2 by lia.
  - intros s. destruct (base64_decode s); [|done]. simpl. rewrite slice_to_spec.
    case_decide; [done|by eexists].
  - intros s. destruct (base64_decode s); [|done]. simpl. rewrite slice_to_spec.
    case_decide; [done|by eexists].
Qed.

End keys.
