(* ===== verification/KeyServices.v ===== *)
(** * KeyServices: key generation, batch verification and the signature services
    (src/crypto/src/lib.rs)

    The random number generators, the parsers and the batch verification of
    [ed25519_dalek], the key sets of [blsttc] and [serde_json] are parameters. *)
From stdpp Require Import pretty.
From Stdlib Require Import Ascii.
From S2P Require Import Prelude Crypto Keys.

(** What [ed25519_dalek] and [rand] provide. *)
Class EdKeys := {
  Rng : Type;
  OsRng : Rng;
  (** [Keypair::generate]: the bytes of the public key and of the pair *)
  Keypair_generate : Rng -> (list Z * list Z) * Rng;
  DalekSignature : Type;
  DalekPublicKey : Type;
  DalekSignature_from_bytes : list Z -> option DalekSignature;
  DalekPublicKey_from_bytes : list Z -> option DalekPublicKey;
  dalek_verify_batch : list (list Z) -> list DalekSignature -> list DalekPublicKey -> bool;
}.

(** What [blsttc] and [serde_json] provide. *)
Class BlsKeys := {
  BlsRng : Type;
  SecretKeySet : Type;
  SecretKeySet_random : nat -> BlsRng -> SecretKeySet;
  (** [secret_key_share(id)], and the shares of the public key sets in G2 and
      G1, each in base64 *)
  secret_share_base64 : SecretKeySet -> nat -> string;
  public_g2_base64 : SecretKeySet -> nat -> string;
  public_g1_base64 : SecretKeySet -> nat -> string;
}.

Section serde.
Context `{B64 : Base64}.

(** [Serialize] and [Deserialize] of keys: as strings. *)
Definition PublicKey_serialize (k : PublicKey) : string := PublicKey_encode_base64 k.
Definition PublicKey_deserialize (s : string) : Outcome DecodeError PublicKey := PublicKey_decode_base64 s.
Definition SecretKey_serialize (k : SecretKey) : string := SecretKey_encode_base64 k.
Definition SecretKey_deserialize (s : string) : Outcome DecodeError SecretKey := SecretKey_decode_base64 s.
End serde.

Section ed.
Context `{Ed : EdKeys}.

Definition generate_keypair (csprng : Rng) : (PublicKey * SecretKey) * Rng :=
  let '((public, keypair), csprng') := Keypair_generate csprng in
  ((mkPublicKey public, mkSecretKey keypair), csprng').
Definition generate_production_keypair : PublicKey * SecretKey := (generate_keypair OsRng).1.

(** [Signature::verify_batch(..).is_ok()] *)
Definition Signature_verify_batch (digest : Digest) (votes : list (PublicKey * Signature)) : bool :=
  match mapM (fun '(key, sig) =>
           s ← DalekSignature_from_bytes (Signature_flatten sig);
           k ← DalekPublicKey_from_bytes (key_bytes key);
           Some (digest_bytes digest, s, k)) votes with
  | Some xs => dalek_verify_batch (map (fun x => x.1.1) xs) (map (fun x => x.1.2) xs) (map snd xs)
  | None => false
  end.
End ed.

(** ** The signature services

    [SignatureService] and [BlsSignatureService] are the same task for different
    signatures: it answers the requests of its channel in order.  A failing
    [sign] (the [expect] of [Signature::new]) ends the task. *)
Section service.
Context {D S : Type} (sign : D -> option S).

(** The requests in the channel, each with the oneshot that it waits on, and the
    answers given, newest first. *)
Record Service := mkService {
  sv_alive : bool;
  sv_queue : list (nat * D);
  sv_replies : list (nat * S);
}.
Definition Service_new : Service := mkService true [] [].

(** One iteration of the task. *)
Definition service_step (s : Service) : Service :=
  match sv_queue s with
  | (sender, digest) :: queue =>
      if sv_alive s then
        match sign digest with
        | Some signature => mkService true queue ((sender, signature) :: sv_replies s)
        | None => mkService false queue (sv_replies s)
        end
      else s
  | [] => s
  end.

(** [request_signature]: the first half sends, the second waits. *)
Definition service_request (sender : nat) (digest : D) (s : Service) : Outcome unit Service :=
  if sv_alive s then Ok (mkService true (sv_queue s ++ [(sender, digest)]) (sv_replies s))
  else Panicked "Failed to send message Signature Service".
Definition service_answer (sender : nat) (s : Service) : Outcome unit (option S) :=
  match list_find (fun x => x.1 = sender) (sv_replies s) with
  | Some (_, x) => Ok (Some x.2)
  | None => if sv_alive s then Ok None else Panicked "Failed to receive signature from Signature Service"
  end.

(** The task works its queue off in order. *)
Lemma service_works queue replies :
  (forall x, x ∈ queue -> is_Some (sign x.2)) ->
  exists answers, Forall2 (fun x y => y.1 = x.1 /\ sign x.2 = Some y.2) queue answers /\
    Nat.iter (length queue) service_step (mkService true queue replies) =
      mkService true [] (reverse answers ++ replies).
Proof.
  revert replies. induction queue as [|[sender d] queue IH]; intros replies Hok.
  { exists []. by split. }
  destruct (Hok (sender, d)) as [x Hx]; [left|]. simpl in Hx.
  destruct (IH ((sender, x) :: replies)) as (answers & Hall & Hrun); [intros y Hy; apply Hok; by right|].
  exists ((sender, x) :: answers). split; [by constructor|].
  cbn [length]. rewrite Nat.iter_succ_r. unfold service_step at 2. simpl. rewrite Hx, Hrun.
  by rewrite reverse_cons, <-app_assoc.
Qed.

(** A caller of the service gets what signing its digest directly gives, whatever
    else is in the channel: the core may be modelled with direct calls. *)
Lemma service_is_direct sender digest s s1 :
  sv_alive s = true -> service_request sender digest s = Ok s1 ->
  (forall x, x ∈ sv_queue s -> is_Some (sign x.2) /\ x.1 <> sender) ->
  (forall x, x ∈ sv_replies s -> x.1 <> sender) ->
  is_Some (sign digest) ->
  service_answer sender (Nat.iter (length (sv_queue s1)) service_step s1) = Ok (sign digest).
Proof.
  destruct s as [al queue replies]. cbn [sv_alive sv_queue sv_replies]. intros ->.
  unfold service_request. cbn [sv_alive sv_queue sv_replies]. intros [= <-] Hq Hr [sig Hsig].
  destruct (service_works (queue ++ [(sender, digest)]) replies) as (answers & Hall & Hrun).
  { intros x [Hx| ->%list_elem_of_singleton]%elem_of_app; [by apply Hq|by eexists]. }
  simpl. rewrite Hrun. apply Forall2_app_inv_l in Hall as (as1 & as2 & Hall1 & Hall2 & ->).
  apply Forall2_cons_inv_l in Hall2 as ([id sig'] & as3 & [Hid Hs] & ->%Forall2_nil_inv_l & ->).
  simpl in *. subst id. rewrite reverse_app. unfold service_answer. simpl.
  rewrite decide_True by done. simpl. congruence.
Qed.
End service.

(** The two services. *)
Definition SignatureService_step `{Prim : Primitives} (secret : SecretKey) :=
  service_step (fun digest : Digest => Signature_new digest secret).
Definition BlsSignatureService_step `{Prim : Primitives} (secret : BlsSecret) :=
  service_step (fun digest : list Z => Some (bls_sign digest secret)).
Definition SignatureService_request := @service_request Digest Signature.
Definition BlsSignatureService_request `{Prim : Primitives} (sender : nat) (digest : Digest) :=
  @service_request (list Z) G1 sender (digest_bytes digest).

(** ** Key files *)
Record NodeKeyInfo := mkNodeKeyInfo { nk_nameg2 : string; nk_nameg1 : string; nk_secret : string }.

(** [str::replace] of a character. *)
Fixpoint replace_char (from : Ascii.ascii) (to s : string) : string :=
  match s with
  | EmptyString => EmptyString
  | String c s' => if Ascii.eqb c from then (to ++ replace_char from to s')%string
                   else String c (replace_char from to s')
  end.

Section key_files.
Context `{Bls : BlsKeys} (to_string_pretty : NodeKeyInfo -> string).

Definition node_key_info (sk_set : SecretKeySet) (node_id : nat) : NodeKeyInfo :=
  mkNodeKeyInfo (public_g2_base64 sk_set node_id) (public_g1_base64 sk_set node_id)
    (secret_share_base64 sk_set node_id).

(** [create_bls_key_pairs]: the files it writes, in order. *)
Definition create_bls_key_pairs (rng : BlsRng) (nodes threshold : nat) (path : string)
    : list (string * string) :=
  let sk_set := SecretKeySet_random threshold rng in
  map (fun node_id => (replace_char "x"%char (pretty node_id) path, to_string_pretty (node_key_info sk_set node_id)))
    (seq 0 nodes).

Lemma replace_char_absent c to s :
  c ∉ String.list_ascii_of_string s -> replace_char c to s = s.
Proof.
  induction s as [|d s IH]; simpl; [done|]. rewrite elem_of_cons. intros Hn.
  destruct (Ascii.eqb_spec d c) as [->|_]; [by destruct Hn; left|]. rewrite IH; [done|tauto].
Qed.

(** Every node gets a file; a path without the letter x is overwritten by each of
    them, so that only the keys of the last node are kept. *)
Lemma create_bls_key_pairs_paths rng nodes threshold path i :
  (i < nodes)%nat ->
  (create_bls_key_pairs rng nodes threshold path) !! i =
    Some (replace_char "x"%char (pretty i) path, to_string_pretty (node_key_info (SecretKeySet_random threshold rng) i)).
Proof. intros Hi. unfold create_bls_key_pairs. by rewrite list_lookup_fmap, lookup_seq_lt. Qed.
Lemma create_bls_key_pairs_overwrites rng nodes threshold path file :
  "x"%char ∉ String.list_ascii_of_string path ->
  file ∈ create_bls_key_pairs rng nodes threshold path -> file.1 = path.
Proof.
  intros Hx (i & -> & _)%list_elem_of_fmap. simpl. by apply replace_char_absent.
Qed.
End key_files.
