(* ===== verification/Config.v ===== *)
(** * Config: the committee, its lookups and its quorum thresholds
    (src/config/src/lib.rs)

    The [BTreeMap] of authorities is the list of its entries in key order.
    Module [Quorums] proves what the four thresholds computed by
    [Committee::new] guarantee: how quorums overlap and when they are
    reachable. *)
From S2P Require Import Prelude Crypto.

Abbreviation Stake := Z (only parsing).
Abbreviation WorkerId := Z (only parsing).

(** [std::net::SocketAddr] *)
Record SocketAddr := mkSocketAddr { ip : Z; port : Z }.

Record ConsensusAddresses := mkConsensusAddresses { consensus_to_consensus : SocketAddr }.
Record PrimaryAddresses := mkPrimaryAddresses {
  primary_to_primary : SocketAddr;
  worker_to_primary : SocketAddr;
}.
Record WorkerAddresses := mkWorkerAddresses {
  transactions : SocketAddr;
  worker_to_worker : SocketAddr;
  primary_to_worker : SocketAddr;
}.

Inductive ConfigError :=
| NotInCommittee (name : PublicKey)
| UnknownWorker (id : WorkerId)
| ImportError (file message : string)
| ExportError (file message : string).

Inductive LeaderElectorKind :=
| FailureBestCase
| FailureMidCase
| FailureWorstCase
| FairSuccession
| Simple.

Record Parameters := mkParameters {
  consensus_only : bool;
  timeout_delay : Z;
  header_size : Z;
  max_block_size : nat;
  max_header_delay : Z;
  gc_depth : Z;
  sync_retry_delay : Z;
  sync_retry_nodes : nat;
  batch_size : Z;
  max_batch_delay : Z;
  use_vote_aggregator : bool;
  leader_elector : LeaderElectorKind;
  param_n : Z;
  param_f : Z;
  param_c : Z;
  param_k : Z;
}.

Definition Parameters_default : Parameters := {|
  consensus_only := false;
  timeout_delay := 5000;
  header_size := 1000;
  max_block_size := 1;
  max_header_delay := 100;
  gc_depth := 50;
  sync_retry_delay := 5000;
  sync_retry_nodes := 3;
  batch_size := 500000;
  max_batch_delay := 100;
  use_vote_aggregator := false;
  leader_elector := Simple;
  param_n := 15;
  param_f := 3;
  param_c := 2;
  param_k := 1;
|}.

(** Entries of an ordered map, and [BTreeMap::get]. *)
Fixpoint btree_get {V} (m : list (PublicKey * V)) (k : PublicKey) : option V :=
  match m with
  | [] => None
  | (k', v) :: m' => if decide (k' = k) then Some v else btree_get m' k
  end.

Section committee.
Context `{Prim : Primitives}.

Record Authority := mkAuthority {
  auth_id : Z;
  bls_pubkey_g1 : PkG1;
  bls_pubkey_g2 : G2;
  is_honest : bool;
  auth_stake : Stake;
  auth_consensus : ConsensusAddresses;
  auth_primary : PrimaryAddresses;
  auth_workers : gmap WorkerId WorkerAddresses;
}.

Record Committee := mkCommittee {
  authorities : list (PublicKey * Authority);
  sorted_keys : list G2;
  combined_pubkey : G2;
  comm_n : Z;
  comm_f : Z;
  comm_c : Z;
  comm_k : Z;
  comm_p : Z;
  quorum_threshold : Z;
  slow_commit_threshold : Z;
  fast_commit_threshold : Z;
  view_change_threshold : Z;
}.

(** [keys.sort()] *)
Definition g2_le (a b : G2) : Prop := g2_cmp a b <> Gt.
#[local] Instance g2_le_dec : RelDecision g2_le.
Proof. intros a b. unfold g2_le. destruct (g2_cmp a b); [left|left|right]; congruence. Defined.

Definition sort_keys (keys : list G2) : list G2 := merge_sort g2_le keys.

(** The fields that [Committee::new] computes.  The [f64] quotients are exact
    ([u32] values divided by two): truncation is the floor, [ceil] the
    ceiling. *)
Definition compute_p (c k : Z) : Z := u32_add c k / 2.
Definition compute_quorum_threshold (n f : Z) : Z := (u32_add (u32_add n f) 1 + 1) / 2.
Definition compute_slow_commit_threshold (f c : Z) : Z := u32_add (u32_add (u32_mul 2 f) c) 1.
Definition compute_fast_commit_threshold (n c k : Z) : Z := u32_sub n (compute_p c k).
Definition compute_view_change_threshold (n f c : Z) : Z := u32_sub (u32_sub n f) c.

(** [Committee::new]; [None] is the panic of [combine_keys] on no keys. *)
Definition Committee_new (auths : list (PublicKey * Authority)) (n f c k : Z)
    : option Committee :=
  let keys := sort_keys (map (fun x => bls_pubkey_g2 x.2) auths) in
  combined ← combine_keys keys;
  Some {|
    authorities := auths;
    sorted_keys := keys;
    combined_pubkey := combined;
    comm_n := n;
    comm_f := f;
    comm_c := c;
    comm_k := k;
    comm_p := compute_p c k;
    quorum_threshold := compute_quorum_threshold n f;
    slow_commit_threshold := compute_slow_commit_threshold f c;
    fast_commit_threshold := compute_fast_commit_threshold n c k;
    view_change_threshold := compute_view_change_threshold n f c;
  |}.

Definition get_byzantine_ids (c : Committee) : list PublicKey :=
  map fst (filter (fun x => is_honest x.2 = false) (authorities c)).
Definition get_honest_ids (c : Committee) : list PublicKey :=
  map fst (filter (fun x => is_honest x.2 = true) (authorities c)).

(** [Committee::size] *)
Definition committee_size (c : Committee) : nat := length (authorities c).

(** [Committee::stake]: an unknown authority has no stake. *)
Definition stake (c : Committee) (name : PublicKey) : Stake :=
  match btree_get (authorities c) name with Some x => auth_stake x | None => 0 end.

(** [Committee::id]; [None] is the panic of [unwrap]. *)
Definition committee_id (c : Committee) (name : PublicKey) : option Z :=
  auth_id <$> btree_get (authorities c) name.

Definition others (c : Committee) (myself : PublicKey) : list (PublicKey * Authority) :=
  filter (fun x => x.1 <> myself) (authorities c).
Definition others_stake (c : Committee) (myself : PublicKey) : list (PublicKey * Stake) :=
  map (fun x => (x.1, auth_stake x.2)) (others c myself).

Definition fast_commit_quorum_threshold (c : Committee) : Stake := fast_commit_threshold c.
Definition validity_threshold (c : Committee) : Stake := u32_add (comm_f c) 1.

Definition consensus (c : Committee) (to : PublicKey) : ConfigError + ConsensusAddresses :=
  match btree_get (authorities c) to with
  | Some x => inr (auth_consensus x)
  | None => inl (NotInCommittee to)
  end.

(** Only honest peers are contacted. *)
Definition others_consensus (c : Committee) (myself : PublicKey)
    : list (PublicKey * ConsensusAddresses) :=
  map (fun x => (x.1, auth_consensus x.2))
      (filter (fun x => x.1 <> myself /\ is_honest x.2 = true) (authorities c)).
Definition others_consensus_sockets (c : Committee) (myself : PublicKey) : list SocketAddr :=
  map (fun x => consensus_to_consensus x.2) (others_consensus c myself).

Definition primary (c : Committee) (to : PublicKey) : ConfigError + PrimaryAddresses :=
  match btree_get (authorities c) to with
  | Some x => inr (auth_primary x)
  | None => inl (NotInCommittee to)
  end.
Definition others_primaries (c : Committee) (myself : PublicKey)
    : list (PublicKey * PrimaryAddresses) :=
  map (fun x => (x.1, auth_primary x.2)) (others c myself).

Definition worker (c : Committee) (to : PublicKey) (id : WorkerId)
    : ConfigError + WorkerAddresses :=
  match btree_get (authorities c) to with
  | None => inl (NotInCommittee to)
  | Some x =>
      match auth_workers x !! id with
      | Some w => inr w
      | None => inl (NotInCommittee to)
      end
  end.
Definition our_workers (c : Committee) (myself : PublicKey)
    : ConfigError + list WorkerAddresses :=
  match btree_get (authorities c) myself with
  | None => inl (NotInCommittee myself)
  | Some x => inr (map snd (map_to_list (auth_workers x)))
  end.
Definition others_workers (c : Committee) (myself : PublicKey) (id : WorkerId)
    : list (PublicKey * WorkerAddresses) :=
  omap (fun x => w ← auth_workers x.2 !! id; Some (x.1, w)) (others c myself).

Definition get_public_keys (c : Committee) : list PublicKey := map fst (authorities c).
Definition get_bls_g2_public_keys (c : Committee) : list G2 :=
  map (fun x => bls_pubkey_g2 x.2) (authorities c).
(** [get_bls_public_g1], [get_bls_public_g2]; [None] is the panic of [unwrap]. *)
Definition get_bls_public_g1 (c : Committee) (name : PublicKey) : option PkG1 :=
  bls_pubkey_g1 <$> btree_get (authorities c) name.
Definition get_bls_public_g2 (c : Committee) (name : PublicKey) : option G2 :=
  bls_pubkey_g2 <$> btree_get (authorities c) name.

End committee.

(** ** Lookups *)
Section lookups.
Context `{Prim : Primitives}.
Implicit Types c : Committee.

Lemma btree_get_elem {V} (m : list (PublicKey * V)) name v :
  btree_get m name = Some v -> (name, v) ∈ m.
Proof.
  induction m as [|[k x] m IH]; simpl; [done|].
  case_decide as Hk; [subst; intros [= ->]; left|right; auto].
Qed.

Lemma btree_get_None {V} (m : list (PublicKey * V)) name :
  btree_get m name = None <-> name ∉ map fst m.
Proof.
  induction m as [|[k x] m IH]; simpl; [set_solver|].
  case_decide as Hk; [subst; set_solver|]. rewrite IH. set_solver.
Qed.

Lemma btree_get_Some_In {V} (m : list (PublicKey * V)) name v :
  NoDup (map fst m) -> (name, v) ∈ m -> btree_get m name = Some v.
Proof.
  induction m as [|[k x] m IH]; simpl; [set_solver|].
  intros [Hk Hnd]%NoDup_cons [[= -> ->]|Hin]%elem_of_cons; [by rewrite decide_True|].
  rewrite decide_False; [auto|]. intros ->. apply Hk.
  apply list_elem_of_In, in_map_iff. exists (name, v). split; [done|by apply list_elem_of_In].
Qed.

Lemma stake_pos_get c name : 0 < stake c name -> is_Some (btree_get (authorities c) name).
Proof. unfold stake. destruct (btree_get _ _); [by eexists|lia]. Qed.

Lemma stake_pos_member c name : 0 < stake c name -> name ∈ get_public_keys c.
Proof.
  intros [x Hx]%stake_pos_get. apply btree_get_elem in Hx.
  apply list_elem_of_In, in_map_iff. exists (name, x). split; [done|by apply list_elem_of_In].
Qed.

Lemma get_bls_public_g2_Some c name :
  is_Some (get_bls_public_g2 c name) <-> name ∈ get_public_keys c.
Proof.
  unfold get_bls_public_g2, get_public_keys. rewrite fmap_is_Some.
  destruct (decide (name ∈ map fst (authorities c))) as [Hin|Hin].
  - split; [done|intros _]. apply not_eq_None_Some. rewrite btree_get_None. tauto.
  - split; [|done]. rewrite (proj2 (btree_get_None _ _) Hin). by intros [].
Qed.

End lookups.

(** ** The committee built by [Committee::new] *)
Section committee_new.
Context `{Prim : Primitives} {Laws : G2Laws}.

#[local] Existing Instance g2_le_dec.

#[local] Instance g2_le_total : Total g2_le.
Proof.
  intros a b. unfold g2_le. rewrite (g2_cmp_antisym a b).
  destruct (g2_cmp a b); simpl; [left|left|right]; congruence.
Qed.

#[local] Instance g2_le_trans : Transitive g2_le.
Proof.
  intros a b c Hab Hbc Hac. unfold g2_le in *.
  assert (Hca : g2_cmp c a = Lt) by (by rewrite g2_cmp_antisym, Hac).
  destruct (g2_cmp a b) eqn:Eab; [apply g2_cmp_eq in Eab as ->; congruence| |done].
  apply Hbc. rewrite g2_cmp_antisym, (g2_cmp_trans c a b) by done. done.
Qed.

Lemma sort_keys_perm keys : sort_keys keys ≡ₚ keys.
Proof. apply merge_sort_Permutation. Qed.

Lemma sort_keys_sorted keys : NoDup keys -> keys_sorted (sort_keys keys).
Proof.
  intros Hnd. assert (Hnd' : NoDup (sort_keys keys)) by by rewrite sort_keys_perm.
  pose proof (StronglySorted_merge_sort g2_le keys) as Hs. fold (sort_keys keys) in Hs.
  unfold keys_sorted. induction Hs as [|k l Hs IH Hall]; [constructor|].
  apply NoDup_cons in Hnd' as [Hk Hnd']. constructor; [by apply IH|].
  apply Forall_forall. intros x Hx. rewrite Forall_forall in Hall.
  specialize (Hall x Hx). unfold g2_le in Hall.
  destruct (g2_cmp k x) eqn:Hc; [|done..]. apply g2_cmp_eq in Hc as ->. done.
Qed.

(** What the rest of the system assumes of a committee. *)
Record committee_wf (c : Committee) : Prop := {
  wf_names : NoDup (get_public_keys c);
  wf_sorted : keys_sorted (sorted_keys c);
  wf_keys : sorted_keys c ≡ₚ get_bls_g2_public_keys c;
  wf_combined : combine_keys (sorted_keys c) = Some (combined_pubkey c);
}.

(** C40: [Committee::new] builds a committee that the certificate code can rely
    on: for any non-empty map of authorities with distinct BLS keys it succeeds,
    the key vector is strictly sorted and is a permutation of the authorities'
    keys, and the combined key is the sum of all of them. *)
Theorem Committee_new_wf auths n f c k :
  auths <> [] -> NoDup (map fst auths) -> NoDup (map (fun x => bls_pubkey_g2 x.2) auths) ->
  exists comm, Committee_new auths n f c k = Some comm /\ committee_wf comm /\
               authorities comm = auths.
Proof.
  intros Hne Hnames Hkeys. unfold Committee_new. simpl.
  destruct (combine_keys_is_Some (sort_keys (map (fun x => bls_pubkey_g2 x.2) auths)))
    as [pk Hpk].
  { intros Hnil. apply (f_equal length) in Hnil. rewrite sort_keys_perm in Hnil.
    rewrite length_map in Hnil. by destruct auths. }
  rewrite Hpk. simpl. eexists. split_and!; [done| |done].
  split; simpl; [done|by apply sort_keys_sorted|apply sort_keys_perm|done].
Qed.

End committee_new.

(** ** Quorum arithmetic of [Committee::new] *)
Module Quorums.

(** The resilience condition of the protocol: [f] Byzantine and [c] crashed
    nodes out of [n = 3f + 2c + k + 1], without overflow of [u32]. *)
Record resilient (n f c k : Z) : Prop := {
  res_f : 0 <= f; res_c : 0 <= c; res_k : 0 <= k;
  res_n : n = 3 * f + 2 * c + k + 1;
  res_small : 2 * n < 2 ^ 32;
}.

Section thresholds.
Context (n f c k : Z) (Hres : resilient n f c k).

Lemma compute_p_eq : compute_p c k = (c + k) / 2.
Proof. destruct Hres. unfold compute_p. rewrite u32_add_small by lia. done. Qed.

Lemma compute_quorum_eq : compute_quorum_threshold n f = (n + f + 2) / 2.
Proof.
  destruct Hres. unfold compute_quorum_threshold.
  rewrite (u32_add_small n f), u32_add_small by lia. f_equal. lia.
Qed.

Lemma compute_slow_eq : compute_slow_commit_threshold f c = 2 * f + c + 1.
Proof.
  destruct Hres. unfold compute_slow_commit_threshold.
  rewrite u32_mul_small, (u32_add_small (2 * f) c), u32_add_small by lia. done.
Qed.

Lemma compute_fast_eq : compute_fast_commit_threshold n c k = n - (c + k) / 2.
Proof.
  destruct Hres. unfold compute_fast_commit_threshold. rewrite compute_p_eq.
  rewrite u32_sub_small by zlia. done.
Qed.

Lemma compute_view_change_eq : compute_view_change_threshold n f c = n - f - c.
Proof.
  destruct Hres. unfold compute_view_change_threshold.
  rewrite (u32_sub_small n f), u32_sub_small by lia. done.
Qed.

End thresholds.

Section overlap.
Context `{Prim : Primitives} (comm : Committee) (n f c k : Z).
Context (Hres : resilient n f c k).

(** The committee has the thresholds [Committee::new] computes, authorities
    have non-negative stake, and the total stake is at most [n]. *)
Record configured : Prop := {
  conf_f : comm_f comm = f;
  conf_quorum : quorum_threshold comm = compute_quorum_threshold n f;
  conf_slow : slow_commit_threshold comm = compute_slow_commit_threshold f c;
  conf_fast : fast_commit_threshold comm = compute_fast_commit_threshold n c k;
  conf_view : view_change_threshold comm = compute_view_change_threshold n f c;
  conf_p : comm_p comm = compute_p c k;
  conf_stake : forall name, 0 <= stake comm name;
  conf_total : set_weight (stake comm) (list_to_set (get_public_keys comm)) <= n;
}.

Definition members : gset PublicKey := list_to_set (get_public_keys comm).
Definition weight (X : gset PublicKey) : Z := set_weight (stake comm) X.

Hypothesis Hconf : configured.

Lemma weight_overlap X Y a b :
  X ⊆ members -> Y ⊆ members -> a <= weight X -> b <= weight Y -> a + b - n <= weight (X ∩ Y).
Proof.
  intros HX HY Ha Hb. destruct Hconf.
  by apply set_weight_overlap with (T := members).
Qed.

(** A set that outweighs the Byzantine nodes contains an honest one. *)
Lemma honest_member X B : weight B < weight X -> exists x, x ∈ X /\ x ∉ B.
Proof.
  intros Hlt. destruct (decide (X ⊆ B)) as [Hsub|Hnsub].
  - pose proof (set_weight_mono (stake comm) X B (conf_stake Hconf) Hsub). unfold weight in Hlt. lia.
  - apply not_set_Forall_Exists in Hnsub as (x & Hx & HxB); [by exists x|]. intros x. apply _.
Qed.

Lemma quorum_le_fast : quorum_threshold comm <= fast_commit_quorum_threshold comm.
Proof.
  unfold fast_commit_quorum_threshold. rewrite (conf_quorum Hconf), (conf_fast Hconf),
    (compute_quorum_eq n f c k Hres), (compute_fast_eq n f c k Hres). destruct Hres. zlia.
Qed.

(** Any two prepare quorums share more weight than the Byzantine nodes can
    have: with n = 3f + 2c + k + 1, two sets of authorities that both reach
    [quorum_threshold], as [Committee::new] computes it in [f64] arithmetic,
    overlap in weight at least f + 1. *)
Lemma quorum_overlap X Y :
  X ⊆ members -> Y ⊆ members ->
  quorum_threshold comm <= weight X -> quorum_threshold comm <= weight Y ->
  f + 1 <= weight (X ∩ Y).
Proof.
  intros HX HY HwX HwY. pose proof (weight_overlap X Y _ _ HX HY HwX HwY) as Ho.
  rewrite (conf_quorum Hconf), (compute_quorum_eq n f c k Hres) in Ho.
  destruct Hres. zlia.
Qed.

(** A view change sees every slow commit: a set of authorities that reaches
    [slow_commit_threshold] and one that reaches [view_change_threshold] overlap
    in weight at least f + 1, hence in an honest authority. *)
Lemma slow_commit_view_change_overlap X Y :
  X ⊆ members -> Y ⊆ members ->
  slow_commit_threshold comm <= weight X -> view_change_threshold comm <= weight Y ->
  f + 1 <= weight (X ∩ Y).
Proof.
  intros HX HY HwX HwY. pose proof (weight_overlap X Y _ _ HX HY HwX HwY) as Ho.
  rewrite (conf_slow Hconf), (conf_view Hconf), (compute_slow_eq n f c k Hres),
    (compute_view_change_eq n f c k Hres) in Ho.
  lia.
Qed.

(** A view change sees every fast commit in the form of a weak certificate:
    if a set reaches [fast_commit_quorum_threshold], the honest authorities that
    a set of [view_change_threshold] has in common with it weigh at least
    f + p + 1, the threshold of [TCMaker::check_wqc]. *)
Lemma fast_commit_weak_certificate X Y B :
  X ⊆ members -> Y ⊆ members -> weight B <= f ->
  fast_commit_quorum_threshold comm <= weight X -> view_change_threshold comm <= weight Y ->
  f + comm_p comm + 1 <= weight ((X ∩ Y) ∖ B).
Proof.
  intros HX HY HB HwX HwY. pose proof (weight_overlap X Y _ _ HX HY HwX HwY) as Ho.
  unfold fast_commit_quorum_threshold in *.
  rewrite (conf_fast Hconf), (conf_view Hconf), (compute_fast_eq n f c k Hres),
    (compute_view_change_eq n f c k Hres) in Ho.
  rewrite (conf_p Hconf), (compute_p_eq n f c k Hres).
  assert (weight (X ∩ Y) <= weight ((X ∩ Y) ∖ B) + weight B).
  { unfold weight. rewrite <-set_weight_disj_union by set_solver.
    apply set_weight_mono; [apply (conf_stake Hconf)|].
    intros a Ha. destruct (decide (a ∈ B)); set_solver. }
  destruct Hres. zlia.
Qed.

(** C32: the quorums of one committee intersect where the protocol needs it: with
    n = 3f + 2c + k + 1 and the thresholds that [Committee::new] computes in
    [f64] arithmetic, two prepare quorums, and a slow commit quorum and a view
    change quorum, share weight at least f + 1, hence an honest authority; and
    the honest authorities that a fast commit quorum shares with a view change
    quorum weigh at least f + p + 1, the threshold of [TCMaker::check_wqc], so
    that a view change finds a weak certificate for a block committed fast. *)
Theorem quorums_intersect X Y B :
  X ⊆ members -> Y ⊆ members -> weight B <= f ->
  (quorum_threshold comm <= weight X -> quorum_threshold comm <= weight Y ->
   f + 1 <= weight (X ∩ Y)) /\
  (slow_commit_threshold comm <= weight X -> view_change_threshold comm <= weight Y ->
   f + 1 <= weight (X ∩ Y)) /\
  (fast_commit_quorum_threshold comm <= weight X -> view_change_threshold comm <= weight Y ->
   f + comm_p comm + 1 <= weight ((X ∩ Y) ∖ B)).
Proof.
  intros HX HY HB. split_and!; intros HwX HwY; [by apply quorum_overlap| |].
  - by apply slow_commit_view_change_overlap.
  - by apply fast_commit_weak_certificate.
Qed.

(** The thresholds that [Committee::new] computes are ordered and can be
    reached: validity, slow commit, quorum and view change do not decrease, the
    view change threshold is what the f + c faulty nodes leave, the fast
    threshold is at least a quorum, and none wraps around or exceeds n. *)
Lemma thresholds_ordered :
  validity_threshold comm <= slow_commit_threshold comm <= quorum_threshold comm /\
  quorum_threshold comm <= view_change_threshold comm /\
  view_change_threshold comm = n - f - c /\
  quorum_threshold comm <= fast_commit_quorum_threshold comm <= n.
Proof.
  unfold fast_commit_quorum_threshold, validity_threshold.
  rewrite (conf_f Hconf), (conf_slow Hconf), (conf_view Hconf), (conf_quorum Hconf),
    (conf_fast Hconf), (compute_slow_eq n f c k Hres),
    (compute_view_change_eq n f c k Hres), (compute_quorum_eq n f c k Hres),
    (compute_fast_eq n f c k Hres).
  destruct Hres. rewrite u32_add_small by lia.
  split_and!; zlia.
Qed.

End overlap.
End Quorums.
