(* ===== verification/ConfigFiles.v ===== *)
(** * ConfigFiles: reading and writing configuration files
    (the traits [Import] and [Export], [KeyPair] and [BlsKeyPair] of
    src/config/src/lib.rs)

    A file system is a map from paths to contents, with the errors that the
    operating system reports; [serde_json] is a parameter.  [export] writes through
    a [BufWriter] of the standard library, which is modelled with its capacity. *)
From S2P Require Import Prelude Crypto KeyServices Config.

Abbreviation Bytes := (list Z).

(** [serde_json] for one type. *)
Class Json (A : Type) := {
  to_string_pretty : A -> Bytes;
  from_slice : Bytes -> A + string;
}.
Definition whitespace (b : Z) : bool := existsb (Z.eqb b) [9; 10; 13; 32].
(** A value is read back, from a text followed by white space only. *)
Class JsonLaws (A : Type) `{Json A} : Prop := {
  from_slice_value : forall (x : A) rest,
    forallb whitespace rest = true -> from_slice (to_string_pretty x ++ rest) = inl x;
  from_slice_trailing : forall (x : A) rest,
    forallb whitespace rest = false -> exists msg, from_slice (to_string_pretty x ++ rest) = inr msg;
}.

(** The contents of the files; the error of opening one for reading or writing;
    whether the disk takes what is written to it. *)
Record FileSystem := mkFileSystem {
  fs_files : gmap string Bytes;
  fs_read_error : string -> option string;
  fs_write_error : string -> option string;
  fs_disk_ok : bool;
}.
Definition fs_set (path : string) (content : Bytes) (fs : FileSystem) : FileSystem :=
  mkFileSystem (<[path := content]> (fs_files fs)) (fs_read_error fs) (fs_write_error fs) (fs_disk_ok fs).

Section files.
Context {A : Type} `{J : Json A}.
Implicit Types (fs : FileSystem) (path : string).

(** [Import::import] *)
Definition import (path : string) (fs : FileSystem) : ConfigError + A :=
  match fs_read_error fs path with
  | Some message => inl (ImportError path message)
  | None =>
      match fs_files fs !! path with
      | None => inl (ImportError path "No such file or directory (os error 2)")
      | Some data => match from_slice data with
                     | inl x => inr x
                     | inr message => inl (ImportError path message)
                     end
      end
  end.

(** A [BufWriter] on an open file: the path, the position in the file, the
    buffer. *)
Record BufWriter := mkBufWriter { bw_path : string; bw_pos : nat; bw_buf : Bytes }.
Definition BUF_CAPACITY : nat := Z.to_nat 8192.
#[global] Opaque BUF_CAPACITY.
Abbreviation WriteM := (Exec (BufWriter * FileSystem) string).

(** Writing to the file replaces what is there from the position on. *)
Definition overwrite (pos : nat) (data content : Bytes) : Bytes :=
  take pos content ++ data ++ drop (pos + length data) content.
Definition write_file (data : Bytes) : WriteM unit :=
  '(w, fs) ← gets (fun s => s);
  if bool_decide (data = []) then mret tt
  else if fs_disk_ok fs then
    modify (fun _ => (mkBufWriter (bw_path w) (bw_pos w + length data) (bw_buf w),
      fs_set (bw_path w) (overwrite (bw_pos w) data (default [] (fs_files fs !! bw_path w))) fs))
  else fail "No space left on device (os error 28)".
Definition set_buf (buf : Bytes) (s : BufWriter * FileSystem) : BufWriter * FileSystem :=
  (mkBufWriter (bw_path s.1) (bw_pos s.1) buf, s.2).
Definition flush_buf : WriteM unit :=
  buf ← gets (fun s => bw_buf s.1);
  _ ← write_file buf;
  modify (set_buf []).

(** [BufWriter::write_all] *)
Definition write_all (data : Bytes) : WriteM unit :=
  buf ← gets (fun s => bw_buf s.1);
  if (length data <? BUF_CAPACITY - length buf)%nat then modify (set_buf (buf ++ data))
  else
    _ ← (if (BUF_CAPACITY - length buf <? length data)%nat then flush_buf else mret tt);
    if (BUF_CAPACITY <=? length data)%nat then write_file data
    else modify (fun s => set_buf (bw_buf s.1 ++ data) s).

(** Dropping the writer flushes it and ignores an error. *)
Definition drop_writer : WriteM unit := ignore_err flush_buf.

(** [Export::export]: the file is created or opened as it is, not truncated. *)
Definition export (x : A) (path : string) (fs : FileSystem) : FileSystem * (ConfigError + unit) :=
  match fs_write_error fs path with
  | Some message => (fs, inl (ExportError path message))
  | None =>
      let fs1 := match fs_files fs !! path with Some _ => fs | None => fs_set path [] fs end in
      let '(s, o) := (_ ← write_all (to_string_pretty x); write_all [10]) (mkBufWriter path 0 [], fs1) in
      let fs2 := (drop_writer s).1.2 in
      match o with
      | Ok _ => (fs2, inr tt)
      | Err message => (fs2, inl (ExportError path message))
      | _ => (fs2, inl (ExportError path ""))
      end
  end.

(** ** What is read back *)
Lemma write_file_run data w fs content :
  fs_disk_ok fs = true -> fs_files fs !! bw_path w = Some content ->
  exists fs', write_file data (w, fs) =
      ((mkBufWriter (bw_path w) (bw_pos w + length data) (bw_buf w), fs'), Ok tt) /\
    fs' = fs_set (bw_path w) (overwrite (bw_pos w) data content) fs.
Proof.
  intros Hd Hc. unfold write_file. run. case_bool_decide as Hnil.
  - subst data. exists fs. destruct w as [path pos buf], fs as [files re we ok]. simpl in *. split.
    + by rewrite Nat.add_0_r.
    + unfold fs_set, overwrite. simpl. rewrite Nat.add_0_r, take_drop. f_equal. by rewrite insert_id.
  - rewrite Hd, Hc. by eexists.
Qed.

Lemma drop_writer_fails w fs : fs_disk_ok fs = false -> (drop_writer (w, fs)).1.2 = fs.
Proof.
  intros Hd. unfold drop_writer, ignore_err, flush_buf, write_file, mbind, exec_mbind, exec_bind, gets.
  cbn [fst bw_buf]. case_bool_decide; [done|]. by rewrite Hd.
Qed.
Lemma fs_set_set path a b fs : fs_set path a (fs_set path b fs) = fs_set path a fs.
Proof. unfold fs_set. simpl. by rewrite insert_insert_eq. Qed.
Lemma overwrite_snoc data c content :
  overwrite (length data) [c] (overwrite 0 data content) = overwrite 0 (data ++ [c]) content.
Proof.
  unfold overwrite. simpl. rewrite take_app_length, <-app_assoc, length_app. simpl. f_equal. f_equal.
  rewrite drop_app_add. by rewrite drop_drop.
Qed.

(** When the disk takes the text, the file holds it, a line feed, and what the old
    file had beyond them. *)
Lemma export_run x path fs :
  fs_disk_ok fs = true -> fs_write_error fs path = None ->
  export x path fs =
    (fs_set path (overwrite 0 (to_string_pretty x ++ [10]) (default [] (fs_files fs !! path))) fs, inr tt).
Proof.
  intros Hd Hw. unfold export. rewrite Hw. set (old := default [] (fs_files fs !! path)).
  set (fs1 := match fs_files fs !! path with Some _ => fs | None => fs_set path [] fs end).
  assert (fs_files fs1 !! path = Some old /\ fs_disk_ok fs1 = true /\
               forall c, fs_set path c fs1 = fs_set path c fs) as (Hold & Hok & Hset).
  { unfold fs1, old. destruct (fs_files fs !! path) eqn:Hp; [by rewrite Hp|].
    simpl. rewrite lookup_insert_eq. split_and!; [done..|]. intros c. apply fs_set_set. }
  clearbody fs1 old. set (data := to_string_pretty x). clearbody data.
  (* a last flush of the whole text, or of the line feed *)
  assert (Hdrop : forall pos buf content fs0, fs_disk_ok fs0 = true -> fs_files fs0 !! path = Some content ->
            (drop_writer (mkBufWriter path pos buf, fs0)).1.2 = fs_set path (overwrite pos buf content) fs0).
  { intros pos buf content fs0 H0 Hc. unfold drop_writer, ignore_err, flush_buf. run.
    destruct (write_file_run buf (mkBufWriter path pos buf) fs0 content H0 Hc) as (fs' & Hrun & ->).
    by rewrite (run_bind _ _ _ _ _ Hrun). }
  destruct (Nat.ltb_spec (length data) BUF_CAPACITY) as [Hlt|Hge].
  - assert (Hrun : (_ ← write_all data; write_all [10]) (mkBufWriter path 0 [], fs1) =
              ((mkBufWriter path 0 (data ++ [10]), fs1), Ok tt)).
    { unfold write_all. rewrite (run_bind _ _ _ (mkBufWriter path 0 data, fs1) tt); cycle 1.
      { run. cbn [fst bw_buf length]. by rewrite Nat.sub_0_r, (proj2 (Nat.ltb_lt _ _)). }
      run. cbn [fst bw_buf length]. destruct (1 <? BUF_CAPACITY - length data)%nat; [done|].
      rewrite (proj2 (Nat.ltb_ge _ 1)) by lia. by run. }
    rewrite Hrun. by rewrite (Hdrop 0%nat (data ++ [10]) old), Hset.
  - destruct (write_file_run data (mkBufWriter path 0 []) fs1 old Hok Hold) as (fs' & Hrun' & ->).
    set (fs2 := fs_set path (overwrite 0 data old) fs1).
    assert (Hrun : (_ ← write_all data; write_all [10]) (mkBufWriter path 0 [], fs1) =
              ((mkBufWriter path (length data) [10], fs2), Ok tt)).
    { unfold write_all. rewrite (run_bind _ _ _ (mkBufWriter path (length data) [], fs2) tt); [done|].
      run. cbn [fst bw_buf length]. rewrite Nat.sub_0_r, (proj2 (Nat.ltb_ge _ _)) by done.
      rewrite (run_bind _ _ _ (mkBufWriter path 0 [], fs1) tt) by (by case_match).
      rewrite (proj2 (Nat.leb_le _ _)) by done. exact Hrun'. }
    rewrite Hrun. rewrite (Hdrop (length data) [10] (overwrite 0 data old)); [|done|by apply lookup_insert_eq].
    unfold fs2. by rewrite fs_set_set, overwrite_snoc, Hset.
Qed.

(** C38: a configuration file round-trips unless it replaces a longer one that has
    more than white space beyond the new text: what [export] writes to a file that
    is new, or no longer than the new text, or whose rest is white space, is read
    back by [import] unchanged; [export] does not truncate the file, so that any
    other rest of an old, longer file stays and makes [import] fail; and
    a text that fits the write buffer is reported as written even if the disk
    takes none of it. *)
Theorem export_import_roundtrip {Laws : JsonLaws A} x path fs :
  fs_write_error fs path = None -> fs_read_error fs path = None ->
  let text := to_string_pretty x ++ [10] in
  let old := default [] (fs_files fs !! path) in
  let '(fs', result) := export x path fs in
  if fs_disk_ok fs then
    result = inr tt /\
    if forallb whitespace (drop (length text) old) then import path fs' = inr x
    else exists msg, import path fs' = inl (ImportError path msg)
  else
    (length text <= BUF_CAPACITY)%nat -> result = inr tt /\ default [] (fs_files fs' !! path) = old.
Proof.
  intros Hw Hr text old. destruct (fs_disk_ok fs) eqn:Hd.
  - rewrite export_run by done. split; [done|]. unfold import. simpl. rewrite Hr, lookup_insert_eq.
    fold text old. assert (Heq : overwrite 0 text old = to_string_pretty x ++ ([10] ++ drop (length text) old)).
    { unfold overwrite, text. simpl. by rewrite <-app_assoc. }
    rewrite Heq. destruct (forallb whitespace (drop (length text) old)) eqn:Hws.
    + rewrite from_slice_value; [done|]. simpl. exact Hws.
    + destruct (from_slice_trailing x ([10] ++ drop (length text) old)) as [msg ->]; [exact Hws|by eexists].
  - unfold export. rewrite Hw.
    set (fs1 := match fs_files fs !! path with Some _ => fs | None => fs_set path [] fs end).
    assert (default [] (fs_files fs1 !! path) = old /\ fs_disk_ok fs1 = false) as [Hold Hok].
    { unfold fs1, old. destruct (fs_files fs !! path) eqn:Hp; [by rewrite Hp|]. simpl. by rewrite lookup_insert_eq. }
    destruct (_ : (BufWriter * FileSystem) * Outcome string unit) as [s o] eqn:Hrun.
    destruct (match o with Ok _ => _ | _ => _ end) as [fs' result] eqn:Hres. intros Hlen.
    unfold text in Hlen. rewrite length_app in Hlen. simpl in Hlen. unfold write_all in Hrun.
    rewrite (run_bind _ _ _ (mkBufWriter path 0 (to_string_pretty x), fs1) tt) in Hrun; cycle 1.
    { run. cbn [fst bw_buf length]. by rewrite Nat.sub_0_r, (proj2 (Nat.ltb_lt _ _)) by lia. }
    assert (s = (mkBufWriter path 0 (to_string_pretty x ++ [10]), fs1) /\ o = Ok tt) as [-> ->].
    { revert Hrun. run. cbn [fst bw_buf length]. destruct (1 <? _)%nat; [by intros [= <- <-]|].
      rewrite (proj2 (Nat.ltb_ge _ 1)) by lia. run. by intros [= <- <-]. }
    injection Hres as <- <-. split; [done|]. by rewrite drop_writer_fails.
Qed.
End files.

(** The files of this program. *)
Record KeyPair := mkKeyPair { kp_name : PublicKey; kp_secret : SecretKey }.
Definition KeyPair_new `{Ed : EdKeys} : KeyPair :=
  let '(name, secret) := generate_production_keypair in mkKeyPair name secret.

(** [BlsKeyPair]: the shares of G2 and G1 and the secret share. *)
Record BlsKeyPair `{Prim : Primitives} := mkBlsKeyPair {
  bk_nameg2 : G2;
  bk_nameg1 : PkG1;
  bk_secret : BlsSecret;
}.
