(* ===== verification/BitVec.v ===== *)
(** * BitVec: the signer bit vectors of certificates

    A hydrangea certificate carries a vector of [u128] chunks in which the bit
    of a signer is cleared (src/hydrangea/src/aggregator.rs, messages.rs); a
    header certificate carries one [u128] in which it is set
    (src/primary/src/aggregators.rs, messages.rs).  This file holds the bit
    loops of those files and what they compute. *)
From S2P Require Import Prelude.

(** [chunk & 1 << bit != 0] *)
Definition bit_test (chunk : Z) (bit : nat) : bool :=
  negb (Z.land chunk (u128_bit (Z.of_nat bit)) =? 0).
(** [chunk & !(1 << bit)] and [chunk | 1 << bit] *)
Definition bit_clear (chunk : Z) (bit : nat) : Z :=
  Z.land chunk (u128_not (u128_bit (Z.of_nat bit))).
Definition bit_set (chunk : Z) (bit : nat) : Z :=
  Z.lor chunk (u128_bit (Z.of_nat bit)).

(** [vec![u128::MAX; (total_nodes + 127) / 128]] *)
Definition full_bits (total_nodes : nat) : list Z :=
  replicate ((total_nodes + 127) / 128) u128_max.

(** [self.pk_bit_vec[id / 128] &= !(1 << (id % 128))]; [None] is the panic of
    an index out of range. *)
Definition clear_signer (bits : list Z) (id : nat) : option (list Z) :=
  chunk ← bits !! (id / 128)%nat;
  Some (<[(id / 128)%nat := bit_clear chunk (id mod 128)]> bits).

(** A sequence of such updates. *)
Fixpoint clear_signers (bits : list Z) (ids : list nat) : option (list Z) :=
  match ids with
  | [] => Some bits
  | id :: ids' => bits' ← clear_signer bits id; clear_signers bits' ids'
  end.

(** The loop [for idx in 0..committee.size()] that collects the set bits. *)
Fixpoint set_ids_from (bits : list Z) (idx remaining : nat) : option (list nat) :=
  match remaining with
  | O => Some []
  | S remaining' =>
      let x := (idx / 128)%nat in
      chunk ← bits !! x;
      let ridx := (idx - x * 128)%nat in
      ids ← set_ids_from bits (S idx) remaining';
      Some (if bit_test chunk ridx then idx :: ids else ids)
  end.
Definition set_ids (bits : list Z) (size : nat) : option (list nat) :=
  set_ids_from bits 0 size.

(** The same loop over a single [u128]: [votes.0 & (1 << idx) != 0]. *)
Definition set_ids_u128 (bits : Z) (size : nat) : list nat :=
  filter (fun idx => bit_test bits idx = true) (seq 0 size).

Section bits.
Implicit Types (bits : list Z) (id idx size : nat).

Lemma bit_test_testbit chunk bit :
  bit_test chunk bit = Z.testbit chunk (Z.of_nat bit `mod` 128).
Proof.
  unfold bit_test, u128_bit. set (b := Z.of_nat bit `mod` 128).
  assert (0 <= b) by (apply Z.mod_pos_bound; lia).
  destruct (Z.testbit chunk b) eqn:Hb.
  - apply negb_true_iff, Z.eqb_neq. intros Hz.
    apply (f_equal (fun z => Z.testbit z b)) in Hz.
    rewrite Z.land_spec, Hb, Z.pow2_bits_true, Z.bits_0 in Hz by done. done.
  - apply negb_false_iff, Z.eqb_eq. apply Z.bits_inj'. intros m Hm.
    rewrite Z.land_spec, Z.bits_0. destruct (decide (m = b)) as [->|Hne].
    + by rewrite Hb.
    + rewrite Z.pow2_bits_false by done. apply andb_false_r.
Qed.

Lemma u128_not_testbit b m :
  0 <= b < 128 -> 0 <= m < 128 -> Z.testbit (u128_not (2 ^ b)) m = negb (Z.eqb m b).
Proof.
  intros Hb Hm. unfold u128_not, u128_max.
  replace (2 ^ 128 - 1 - 2 ^ b) with (Z.ldiff (Z.ones 128) (2 ^ b)).
  - rewrite Z.ldiff_spec, Z.ones_spec_low by lia. simpl.
    rewrite Z.pow2_bits_eqb by lia. by rewrite Z.eqb_sym.
  - assert (0 < 2 ^ b) by (apply Z.pow_pos_nonneg; lia).
    rewrite <-Z.sub_nocarry_ldiff; [rewrite Z.ones_equiv; lia|].
    apply Z.bits_inj'. intros i Hi. rewrite Z.ldiff_spec, Z.bits_0.
    rewrite Z.pow2_bits_eqb by lia. destruct (Z.eqb_spec b i) as [<-|]; [|done].
    rewrite Z.ones_spec_low by lia. done.
Qed.

Lemma bit_test_clear chunk bit bit' :
  (bit < 128)%nat -> (bit' < 128)%nat ->
  bit_test (bit_clear chunk bit) bit' = bit_test chunk bit' && negb (bit' =? bit)%nat.
Proof.
  intros Hb Hb'. rewrite !bit_test_testbit. unfold bit_clear, u128_bit.
  rewrite !Z.mod_small by lia. rewrite Z.land_spec, u128_not_testbit by lia. f_equal. f_equal.
  destruct (Nat.eqb_spec bit' bit); [apply Z.eqb_eq|apply Z.eqb_neq]; lia.
Qed.

Lemma bit_test_set chunk bit bit' :
  (bit < 128)%nat -> (bit' < 128)%nat ->
  bit_test (bit_set chunk bit) bit' = bit_test chunk bit' || (bit' =? bit)%nat.
Proof.
  intros Hb Hb'. rewrite !bit_test_testbit. unfold bit_set, u128_bit.
  rewrite !Z.mod_small by lia. rewrite Z.lor_spec, Z.pow2_bits_eqb by lia. f_equal.
  destruct (Nat.eqb_spec bit' bit); [apply Z.eqb_eq|apply Z.eqb_neq]; lia.
Qed.

Lemma bit_test_max bit : bit_test u128_max bit = true.
Proof.
  rewrite bit_test_testbit. unfold u128_max. rewrite Z.sub_1_r, <-Z.ones_equiv.
  apply Z.ones_spec_low, Z.mod_pos_bound. lia.
Qed.

(** The bits as a predicate on signer indices. *)
Definition bit_at (bits : list Z) (idx : nat) : bool :=
  match bits !! (idx / 128)%nat with
  | Some chunk => bit_test chunk (idx mod 128)
  | None => false
  end.

Lemma set_ids_from_filter bits idx remaining :
  (idx + remaining <= length bits * 128)%nat ->
  set_ids_from bits idx remaining =
    Some (filter (fun i => bit_at bits i = true) (seq idx remaining)).
Proof.
  revert idx. induction remaining as [|m IH]; intros idx Hlen; [done|].
  cbn [set_ids_from seq].
  destruct (lookup_lt_is_Some_2 bits (idx / 128)) as [chunk Hc].
  { apply Nat.Div0.div_lt_upper_bound; lia. }
  rewrite Hc. cbn [mbind option_bind]. rewrite IH by lia. cbn [mbind option_bind].
  f_equal. rewrite filter_cons.
  replace (idx - idx / 128 * 128)%nat with (idx mod 128)%nat
    by (pose proof (Nat.div_mod_eq idx 128); lia).
  assert (bit_at bits idx = bit_test chunk (idx mod 128)) as <- by (unfold bit_at; by rewrite Hc).
  case_decide as Hd; by destruct (bit_at bits idx).
Qed.

Lemma set_ids_filter bits size :
  (size <= length bits * 128)%nat ->
  set_ids bits size = Some (filter (fun i => bit_at bits i = true) (seq 0 size)).
Proof. intros. apply set_ids_from_filter. lia. Qed.

Lemma length_full_bits n : (n <= length (full_bits n) * 128)%nat.
Proof.
  unfold full_bits. rewrite length_replicate.
  pose proof (Nat.div_mod_eq (n + 127) 128). pose proof (Nat.mod_upper_bound (n + 127) 128). lia.
Qed.

Lemma bit_at_full n idx : (idx < n)%nat -> bit_at (full_bits n) idx = true.
Proof.
  intros Hi. unfold bit_at.
  destruct (lookup_lt_is_Some_2 (full_bits n) (idx / 128)) as [chunk Hc].
  { pose proof (length_full_bits n). apply Nat.Div0.div_lt_upper_bound; lia. }
  rewrite Hc. apply lookup_replicate in Hc as [-> _]. apply bit_test_max.
Qed.

Lemma clear_signer_length bits id bits' :
  clear_signer bits id = Some bits' -> length bits' = length bits.
Proof. unfold clear_signer. intros (c & _ & [= <-])%bind_Some. apply length_insert. Qed.

Lemma clear_signer_is_Some bits id :
  (id < length bits * 128)%nat -> is_Some (clear_signer bits id).
Proof.
  intros Hid. unfold clear_signer.
  destruct (lookup_lt_is_Some_2 bits (id / 128)) as [c Hc].
  { apply Nat.Div0.div_lt_upper_bound; lia. }
  rewrite Hc. by eexists.
Qed.

Lemma bit_at_clear bits id bits' idx :
  clear_signer bits id = Some bits' ->
  bit_at bits' idx = bit_at bits idx && negb (idx =? id)%nat.
Proof.
  unfold clear_signer, bit_at. intros (c & Hc & <-%(inj Some))%bind_Some.
  pose proof (lookup_lt_Some _ _ _ Hc).
  pose proof (Nat.div_mod_eq idx 128). pose proof (Nat.div_mod_eq id 128).
  pose proof (Nat.mod_upper_bound idx 128). pose proof (Nat.mod_upper_bound id 128).
  destruct (decide (id / 128 = idx / 128)%nat) as [Heq|Hne].
  - rewrite <-Heq, list_lookup_insert_eq, Hc by done.
    rewrite bit_test_clear by lia.
    destruct (Nat.eqb_spec (idx mod 128) (id mod 128)), (Nat.eqb_spec idx id);
      first [done|congruence|lia].
  - rewrite list_lookup_insert_ne by done.
    destruct (Nat.eqb_spec idx id) as [->|]; [done|]. by rewrite andb_true_r.
Qed.

Lemma clear_signers_snoc bits ids id bits' :
  clear_signers bits ids = Some bits' ->
  clear_signers bits (ids ++ [id]) = clear_signer bits' id.
Proof.
  revert bits. induction ids as [|i ids IH]; intros bits; simpl.
  - intros [= ->]. by destruct (clear_signer bits' id).
  - destruct (clear_signer bits i); simpl; [apply IH|done].
Qed.

Lemma clear_signers_length bits ids bits' :
  clear_signers bits ids = Some bits' -> length bits' = length bits.
Proof.
  revert bits. induction ids as [|i ids IH]; intros bits; simpl.
  - by intros [= ->].
  - intros (b & Hb & Hids)%bind_Some. apply IH in Hids. apply clear_signer_length in Hb. lia.
Qed.

Lemma bit_at_clear_signers bits ids bits' idx :
  clear_signers bits ids = Some bits' ->
  bit_at bits' idx = bit_at bits idx && bool_decide (idx ∉ ids).
Proof.
  revert bits. induction ids as [|i ids IH]; intros bits; cbn [clear_signers].
  - intros [= ->]. rewrite bool_decide_eq_true_2 by apply not_elem_of_nil.
    by rewrite andb_true_r.
  - intros (b & Hb & Hids)%bind_Some. rewrite (IH _ Hids), (bit_at_clear _ _ _ _ Hb).
    rewrite <-andb_assoc. f_equal.
    destruct (Nat.eqb_spec idx i) as [->|Hne]; cbn [negb andb].
    + rewrite bool_decide_eq_false_2 by set_solver. done.
    + apply bool_decide_ext. rewrite not_elem_of_cons. tauto.
Qed.

(** After the bits of [ids] have been cleared, the loop collects the other
    indices. *)
Lemma set_ids_clear_signers n ids bits size :
  clear_signers (full_bits n) ids = Some bits -> (size <= n)%nat ->
  set_ids bits size = Some (filter (fun i => i ∉ ids) (seq 0 size)).
Proof.
  intros Hc Hsize. rewrite set_ids_filter.
  - f_equal. apply list_filter_ext_in. intros i Hi%elem_of_seq.
    rewrite (bit_at_clear_signers _ _ _ _ Hc), bit_at_full by lia. simpl.
    by rewrite bool_decide_eq_true.
  - rewrite (clear_signers_length _ _ _ Hc). pose proof (length_full_bits n). lia.
Qed.

(** The cleared and the collected indices partition the committee. *)
Lemma set_ids_partition ids size :
  NoDup ids -> (forall i, i ∈ ids -> (i < size)%nat) ->
  filter (fun i => i ∉ ids) (seq 0 size) ++ ids ≡ₚ seq 0 size.
Proof.
  intros Hnd Hlt. apply NoDup_Permutation; [|apply NoDup_seq|].
  - apply NoDup_app. split_and!; [apply NoDup_filter, NoDup_seq| |done].
    intros i [Hi _]%list_elem_of_filter. done.
  - intros i. rewrite elem_of_app, list_elem_of_filter, elem_of_seq.
    destruct (decide (i ∈ ids)) as [Hi|Hi]; [specialize (Hlt i Hi)|]; intuition lia.
Qed.

(** The bits set one after the other in an empty [u128] are the ones read. *)
Lemma bit_test_sets ids bit :
  (bit < 128)%nat -> Forall (fun i => (i < 128)%nat) ids ->
  bit_test (foldl bit_set 0 ids) bit = bool_decide (bit ∈ ids).
Proof.
  intros Hb. induction ids as [|i ids IH] using rev_ind; intros Hall.
  { rewrite bit_test_testbit, bool_decide_eq_false_2 by apply not_elem_of_nil. apply Z.bits_0. }
  apply Forall_app in Hall as [Hall [Hi _]%Forall_cons].
  rewrite foldl_app. simpl. rewrite bit_test_set, IH by done.
  apply eq_true_iff_eq. rewrite orb_true_iff, !bool_decide_eq_true, Nat.eqb_eq.
  rewrite elem_of_app, list_elem_of_singleton. done.
Qed.

Lemma set_ids_u128_sets ids size :
  NoDup ids -> (forall i, i ∈ ids -> (i < size)%nat) -> (size <= 128)%nat ->
  set_ids_u128 (foldl bit_set 0 ids) size ≡ₚ ids.
Proof.
  intros Hnd Hlt Hsize. unfold set_ids_u128.
  assert (Hall : Forall (fun i => (i < 128)%nat) ids).
  { apply Forall_forall. intros i Hi%Hlt. lia. }
  apply NoDup_Permutation; [apply NoDup_filter, NoDup_seq|done|].
  intros i. rewrite list_elem_of_filter, elem_of_seq. split.
  - intros [Hbit Hi]. rewrite bit_test_sets in Hbit by (done || lia). by apply bool_decide_eq_true in Hbit.
  - intros Hi. pose proof (Hlt i Hi). rewrite bit_test_sets by (done || lia).
    split; [by apply bool_decide_eq_true|lia].
Qed.

End bits.
