(* ===== verification/DagMessages.v ===== *)
(** * DagMessages: headers, header votes and certificates of the primary
    (src/primary/src/messages.rs, src/primary/src/error.rs)

    Transactions are Aptos [SignedTransaction]s; their BCS encoding is the
    class [Transactions]. *)
From S2P Require Import Prelude Crypto Config BitVec.

Abbreviation Round := Z (only parsing).

(** [aptos_types::transaction::SignedTransaction] with [bcs::to_bytes] and
    [bcs::from_bytes]; [None] is an error. *)
Class Transactions := {
  Transaction : Type;
  bcs_to_bytes : Transaction -> option (list Z);
  bcs_from_bytes : list Z -> option Transaction;
}.

(** BCS is canonical: only the serialization of a value deserializes to it. *)
Class TransactionsLaws `{Transactions} : Prop := {
  bcs_canonical : forall bytes tx, bcs_from_bytes bytes = Some tx -> bcs_to_bytes tx = Some bytes;
}.

Inductive DagError :=
| InvalidSignature
| InvalidBlsSignature
| StoreError
| SerializationError
| InvalidHeaderId
| MalformedHeader (d : Digest)
| UnknownAuthority (name : PublicKey)
| AuthorityReuse (name : PublicKey)
| UnexpectedVote (d : Digest)
| CertificateRequiresQuorum
| HeaderRequiresQuorum (d : Digest)
| HeaderTooOld (d : Digest) (r : Round)
| VoteTooOld (d : Digest) (r : Round)
| CertificateTooOld (d : Digest) (r : Round).

Section messages.
Context `{Prim : Primitives} `{Txns : Transactions}.

Record Header := mkHeader {
  hdr_author : PublicKey;
  hdr_round : Round;
  hdr_payload : list Transaction;
  hdr_id : Digest;
  hdr_signature : Signature;
}.

(** [Header::digest]; [None] is the panic on a transaction that does not
    serialize. *)
Definition Header_digest (h : Header) : option Digest :=
  txs ← mapM bcs_to_bytes (hdr_payload h);
  Some (hash32 (key_bytes (hdr_author h) ++ le_bytes 8 (hdr_round h) ++ concat txs)).

(** [Header::new]; [None] is a panic (serialization or signature service). *)
Definition Header_new (author : PublicKey) (round : Round) (payload : list Transaction)
    (secret : SecretKey) : option Header :=
  let header := mkHeader author round payload Digest_default Signature_default in
  id ← Header_digest header;
  signature ← Signature_new id secret;
  Some (mkHeader author round payload id signature).

(** [Header::verify] *)
Definition Header_verify (c : Committee) (h : Header) : Outcome DagError unit :=
  d ← expect_o (Header_digest h) "failed to serialize transaction while hashing header";
  _ ← ensure_o (bool_decide (d = hdr_id h)) InvalidHeaderId;
  _ ← ensure_o (0 <? stake c (hdr_author h)) (UnknownAuthority (hdr_author h));
  ensure_o (Signature_verify (hdr_signature h) (hdr_id h) (hdr_author h)) InvalidSignature.

Record DagVote := mkDagVote {
  dv_id : Digest;
  dv_round : Round;
  dv_origin : PublicKey;
  dv_author : PublicKey;
  dv_signature : G1;
}.

(** The bytes hashed by [Vote::digest] and [Certificate::digest]. *)
Definition dag_preimage (id : Digest) (round : Round) (origin : PublicKey) : list Z :=
  digest_bytes id ++ le_bytes 8 round ++ key_bytes origin.

#[global] Instance DagVote_hash : Hash DagVote := fun v =>
  hash32 (dag_preimage (dv_id v) (dv_round v) (dv_origin v)).

(** [Vote::new] *)
Definition DagVote_new (h : Header) (author : PublicKey) (secret : BlsSecret) : DagVote :=
  let vote := mkDagVote (hdr_id h) (hdr_round h) (hdr_author h) author g1_default in
  mkDagVote (hdr_id h) (hdr_round h) (hdr_author h) author
    (bls_sign (digest_bytes (digest vote)) secret).

(** [Vote::verify]: only the voting rights are checked. *)
Definition DagVote_verify (c : Committee) (v : DagVote) : Outcome DagError unit :=
  ensure_o (0 <? stake c (dv_author v)) (UnknownAuthority (dv_author v)).

Record Certificate := mkCertificate {
  cert_id : Digest;
  cert_round : Round;
  cert_origin : PublicKey;
  cert_votes : Z * G1;
}.

Definition Certificate_default : Certificate :=
  mkCertificate Digest_default 0 PublicKey_default (0, g1_default).

#[global] Instance Certificate_hash : Hash Certificate := fun c =>
  hash32 (dag_preimage (cert_id c) (cert_round c) (cert_origin c)).

(** [Certificate::verify] *)
Definition Certificate_verify (c : Committee) (cert : Certificate) : Outcome DagError unit :=
  let ids := set_ids_u128 (cert_votes cert).1 (committee_size c) in
  agg_pk ← expect_o (combine_key_from_ids ids (sorted_keys c)) "index out of bounds";
  ensure_o (bls_verify (digest_bytes (digest cert)) agg_pk (cert_votes cert).2)
    InvalidBlsSignature.

(** [PartialEq for Certificate] ignores the votes. *)
Definition Certificate_eqb (a b : Certificate) : bool :=
  bool_decide (cert_id a = cert_id b) && (cert_round a =? cert_round b) &&
  bool_decide (cert_origin a = cert_origin b).

End messages.
