(* ===== verification/Messages.v ===== *)
(** * Messages: blocks, proposals, votes, certificates and timeouts of the
    consensus protocol (src/hydrangea/src/messages.rs, error.rs, consensus.rs) *)
From S2P Require Import Prelude Crypto Config BitVec DagMessages.

Inductive VoteType := VT_Commit | VT_Normal.
#[export] Instance VoteType_eq_dec : EqDecision VoteType.
Proof. solve_decision. Defined.

Section messages.
Context `{Prim : Primitives}.

Record QC := mkQC {
  qc_blk_hash : Digest;
  qc_kind : VoteType;
  qc_round : Round;
  qc_votes : list Z * G1;
  qc_fast_quorum : bool;
}.

(** [ConsensusError]; the payload of a wrapped library error is dropped. *)
Inductive ConsensusError :=
| CE_NetworkError
| CE_SerializationError
| CE_StoreError
| CE_NotInCommittee (name : PublicKey)
| CE_InvalidSignature
| CE_InvalidBlsSign
| CE_AuthorityReuse (name : PublicKey)
| CE_UnknownAuthority (name : PublicKey)
| CE_QCRequiresQuorum (r : Round)
| CE_TimeoutBadQC (r r' : Round)
| CE_TCBadQC (r r' : Round)
| CE_TCRequiresQuorum
| CE_TCInvalidHighQC (qc : QC)
| CE_MalformedBlock (d : Digest)
| CE_MalformedNormalProposal (d : Digest)
| CE_FallbackRecoveryBadParent (d : Digest)
| CE_FallbackRecoveryBadQcPrime (d : Digest) (r r' : Round)
| CE_BlockBadJustification (d : Digest) (r : Round)
| CE_BlockBadQC (d : Digest) (r r' : Round)
| CE_BlockBadTC (d : Digest) (block_round tc_round : Round)
| CE_WrongLeader (d : Digest) (leader : PublicKey) (r : Round)
| CE_InvalidPayload
| CE_TooOld (d : Digest) (r : Round)
| CE_DagError (e : DagError).

Abbreviation Check := (Outcome ConsensusError).

Record Block := mkBlock {
  blk_author : PublicKey;
  blk_parent : Digest;
  blk_payload : list Certificate;
  blk_round : Round;
  blk_signature : Signature;
}.

Definition block_preimage (author : PublicKey) (parent : Digest) (round : Round)
    (ids : list Digest) : list Z :=
  key_bytes author ++ digest_bytes parent ++ le_bytes 8 round ++ concat (map digest_bytes ids).

#[global] Instance Block_hash : Hash Block := fun b =>
  hash32 (block_preimage (blk_author b) (blk_parent b) (blk_round b)
            (map cert_id (blk_payload b))).

(** [Block::new]; [None] is a panic of the signature service. *)
Definition Block_new (author : PublicKey) (parent : Digest) (payload : list Certificate)
    (round : Round) (secret : SecretKey) : option Block :=
  let b := mkBlock author parent payload round Signature_default in
  signature ← Signature_new (digest b) secret;
  Some (mkBlock author parent payload round signature).

Definition Block_genesis : Block :=
  mkBlock PublicKey_default Digest_default [] 0 Signature_default.

Definition Block_is_well_formed (c : Committee) (b : Block) : Check unit :=
  if decide (digest b = digest Block_genesis) then Ok tt
  else
    _ ← ensure_o (0 <? stake c (blk_author b)) (CE_UnknownAuthority (blk_author b));
    ensure_o (Signature_verify (blk_signature b) (digest b) (blk_author b)) CE_InvalidSignature.

(** [hasher.update("C")] / [hasher.update("NV")] *)
#[global] Instance VoteType_hash : Hash VoteType := fun k =>
  match k with
  | VT_Commit => hash32 [67]
  | VT_Normal => hash32 [78; 86]
  end.

Record Vote := mkVote {
  vote_author : PublicKey;
  vote_blk_hash : Digest;
  vote_kind : VoteType;
  vote_round : Round;
  vote_signature : G1;
}.

(** The bytes hashed by [Vote::digest] and [QC::digest]. *)
Definition vote_preimage (blk_hash : Digest) (kind : VoteType) (round : Round) : list Z :=
  digest_bytes blk_hash ++ digest_bytes (digest kind) ++ le_bytes 8 round.

#[global] Instance Vote_hash : Hash Vote := fun v =>
  hash32 (vote_preimage (vote_blk_hash v) (vote_kind v) (vote_round v)).

(** [Vote::new] *)
Definition Vote_new (author : PublicKey) (blk_hash : Digest) (kind : VoteType) (round : Round)
    (secret : BlsSecret) : Vote :=
  let vote := mkVote author blk_hash kind round g1_default in
  mkVote author blk_hash kind round (bls_sign (digest_bytes (digest vote)) secret).

(** [Vote::is_well_formed]: only the voting rights are checked. *)
Definition Vote_is_well_formed (c : Committee) (v : Vote) : Check unit :=
  ensure_o (0 <? stake c (vote_author v)) (CE_UnknownAuthority (vote_author v)).

Definition QC_genesis : QC :=
  mkQC (digest Block_genesis) VT_Commit 0 ([], g1_default) false.

#[global] Instance QC_hash : Hash QC := fun q =>
  hash32 (vote_preimage (qc_blk_hash q) (qc_kind q) (qc_round q)).

(** [PartialEq for QC] *)
Definition QC_eqb (a b : QC) : bool :=
  bool_decide (qc_kind a = qc_kind b) && bool_decide (qc_blk_hash a = qc_blk_hash b) &&
  (qc_round a =? qc_round b).

(** The shared tail of [QC::is_well_formed] and [WQC::is_well_formed]: the keys
    of the nodes whose bit is set are removed from the combined key, and the
    aggregate signature is checked against the result. *)
Definition verify_signers (d : Digest) (bits : list Z) (sig : G1) (size : nat)
    (keys : list G2) (combined : G2) : Check unit :=
  ids ← expect_o (set_ids bits size) "index out of bounds";
  agg_pk ← expect_o (remove_pubkeys combined ids keys) "index out of bounds";
  ensure_o (bls_verify (digest_bytes d) agg_pk sig) CE_InvalidBlsSign.

Definition QC_is_well_formed (c : Committee) (q : QC) : Check unit :=
  if qc_round q =? 0 then Ok tt
  else verify_signers (digest q) (qc_votes q).1 (qc_votes q).2 (committee_size c)
         (sorted_keys c) (combined_pubkey c).

Record WQC := mkWQC {
  wqc_blk_hash : Digest;
  wqc_round : Round;
  wqc_votes : list Z * G1;
}.

Definition WQC_genesis : WQC := mkWQC (digest Block_genesis) 0 ([], g1_default).

#[global] Instance WQC_hash : Hash WQC := fun w =>
  hash32 (digest_bytes (wqc_blk_hash w) ++ le_bytes 8 (wqc_round w)).

Definition WQC_is_well_formed (c : Committee) (keys : list G2) (combined : G2) (w : WQC)
    : Check unit :=
  if wqc_round w =? 0 then Ok tt
  else verify_signers (digest w) (wqc_votes w).1 (wqc_votes w).2 (committee_size c) keys combined.

Record Timeout := mkTimeout {
  to_high_vote : Vote;
  to_high_qc : QC;
  to_high_wqc : WQC;
  to_round : Round;
  to_author : PublicKey;
  to_signature : Signature;
}.

(** The bytes signed by a [Timeout], and re-hashed for each entry of a [TC]. *)
Definition timeout_preimage (high_qc_round round : Round) : list Z :=
  le_bytes 8 high_qc_round ++ le_bytes 8 round.

#[global] Instance Timeout_hash : Hash Timeout := fun t =>
  hash32 (timeout_preimage (qc_round (to_high_qc t)) (to_round t)).

(** [Timeout::new]; [None] is a panic of the signature service. *)
Definition Timeout_new (high_vote : Vote) (high_qc : QC) (high_wqc : WQC) (round : Round)
    (author : PublicKey) (secret : SecretKey) : option Timeout :=
  let timeout := mkTimeout high_vote high_qc high_wqc round author Signature_default in
  signature ← Signature_new (digest timeout) secret;
  Some (mkTimeout high_vote high_qc high_wqc round author signature).

Definition Timeout_author_is_authorised (c : Committee) (t : Timeout) : Check bool :=
  _ ← ensure_o (0 <? stake c (to_author t)) (CE_UnknownAuthority (to_author t));
  Ok true.

Definition Timeout_is_well_formed (c : Committee) (t : Timeout) : Check unit :=
  _ ← Timeout_author_is_authorised c t;
  _ ← ensure_o (Signature_verify (to_signature t) (digest t) (to_author t)) CE_InvalidSignature;
  if QC_eqb (to_high_qc t) QC_genesis then Ok tt
  else QC_is_well_formed c (to_high_qc t).

Record TC := mkTC {
  tc_high_qc : QC;
  tc_high_wqc : WQC;
  tc_round : Round;
  tc_votes : list (PublicKey * Signature * Round);
}.

(** The first loop of [TC::is_well_formed]: votes are distinct, authorised and
    report no round above the high QC; returns the weight. *)
Fixpoint TC_check_votes (c : Committee) (high_qc : QC)
    (votes : list (PublicKey * Signature * Round)) (used : gset PublicKey) (weight : Stake)
    : Check Stake :=
  match votes with
  | [] => Ok weight
  | (name, _, locked_qc_round) :: votes' =>
      _ ← ensure_o (locked_qc_round <=? qc_round high_qc)
            (CE_TCInvalidHighQC high_qc);
      _ ← ensure_o (bool_decide (name ∉ used)) (CE_AuthorityReuse name);
      _ ← ensure_o (0 <? stake c name) (CE_UnknownAuthority name);
      TC_check_votes c high_qc votes' ({[name]} ∪ used) (u32_add weight (stake c name))
  end.

(** The second loop: every signature covers the reported round. *)
Fixpoint TC_check_signatures (round : Round) (votes : list (PublicKey * Signature * Round))
    : Check unit :=
  match votes with
  | [] => Ok tt
  | (author, signature, locked_qc_round) :: votes' =>
      _ ← ensure_o
            (Signature_verify signature (hash32 (timeout_preimage locked_qc_round round)) author)
            CE_InvalidSignature;
      TC_check_signatures round votes'
  end.

Definition TC_is_well_formed (c : Committee) (t : TC) : Check unit :=
  weight ← TC_check_votes c (tc_high_qc t) (tc_votes t) ∅ 0;
  _ ← ensure_o (quorum_threshold c <=? weight) CE_TCRequiresQuorum;
  TC_check_signatures (tc_round t) (tc_votes t).

Definition TC_locked_rounds (t : TC) : list Round := map snd (tc_votes t).

#[global] Instance TC_hash : Hash TC := fun t =>
  hash32 (le_bytes 8 (tc_round t) ++ digest_bytes (digest (tc_high_qc t)) ++
          digest_bytes (digest (tc_high_wqc t)) ++
          concat (map (be_bytes 8) (TC_locked_rounds t))).

Record NormalProposal := mkNormalProposal { np_block : Block; np_qc : QC }.

#[global] Instance NormalProposal_hash : Hash NormalProposal := fun p =>
  hash32 (digest_bytes (digest (np_block p)) ++ digest_bytes (digest (np_qc p))).

Definition NormalProposal_is_well_formed (c : Committee) (p : NormalProposal) : Check unit :=
  _ ← Block_is_well_formed c (np_block p);
  ensure_o (bool_decide (qc_blk_hash (np_qc p) = blk_parent (np_block p)) &&
            (qc_round (np_qc p) =? u64_sub (blk_round (np_block p)) 1))
    (CE_MalformedNormalProposal (digest p)).

Record FallbackRecoveryProposal := mkFallbackRecoveryProposal { fp_block : Block; fp_tc : TC }.

#[global] Instance FallbackRecoveryProposal_hash : Hash FallbackRecoveryProposal := fun p =>
  hash32 (digest_bytes (digest (fp_block p)) ++ digest_bytes (digest (fp_tc p))).

(** The block that a fallback proposal must extend: the one of the weak
    certificate if it has the higher round, of the high QC otherwise. *)
Definition safe_blk_hash (t : TC) : Digest :=
  if qc_round (tc_high_qc t) <? wqc_round (tc_high_wqc t)
  then wqc_blk_hash (tc_high_wqc t)
  else qc_blk_hash (tc_high_qc t).

Definition FallbackRecoveryProposal_is_well_formed (c : Committee)
    (p : FallbackRecoveryProposal) : Check unit :=
  _ ← Block_is_well_formed c (fp_block p);
  _ ← ensure_o (tc_round (fp_tc p) =? u64_sub (blk_round (fp_block p)) 1)
        (CE_BlockBadTC (digest p) (blk_round (fp_block p)) (tc_round (fp_tc p)));
  ensure_o (bool_decide (blk_parent (fp_block p) = safe_blk_hash (fp_tc p)))
    (CE_FallbackRecoveryBadParent (digest (fp_block p))).

Inductive ProposalMessage :=
| PM_F (f : FallbackRecoveryProposal)
| PM_N (n : NormalProposal).

Inductive ConsensusMessage :=
| CM_Propose (p : ProposalMessage)
| CM_Vote (v : Vote)
| CM_VerifiedVote (v : Vote)
| CM_Timeout (t : Timeout)
| CM_QC (q : QC)
| CM_TC (t : TC)
| CM_SyncRequest (missing : Digest) (origin : PublicKey)
| CM_SyncResponse (b : Block).

End messages.

(** ** Reading a chain of checks *)
Section checks.
Context {E : Type}.

Lemma ensure_o_Ok (b : bool) (e : E) u : ensure_o b e = Ok u <-> b = true.
Proof. destruct b, u; simpl; split; congruence. Qed.

Lemma outcome_bind_Ok {A B} (m : Outcome E A) (k : A -> Outcome E B) b :
  m ≫= k = Ok b <-> exists a, m = Ok a /\ k a = Ok b.
Proof.
  destruct m as [a|e|msg|]; split; try discriminate; try by intros (? & ? & ?).
  - intros Hk. by exists a.
  - intros (a' & Ha & Hk). by injection Ha as <-.
Qed.

End checks.

(** ** Certificates and their signers *)
Section signers.
Context `{Prim : Primitives} {Laws : G2Laws}.
Context (c : Committee) (Hc : committee_wf c).

Lemma length_sorted_keys : length (sorted_keys c) = committee_size c.
Proof.
  rewrite (wf_keys _ Hc). unfold get_bls_g2_public_keys, committee_size. apply length_map.
Qed.

(** Verification by removal of the non-signers is verification against the sum
    of the signers' keys. *)
Lemma verify_signers_spec n ids bits d sig :
  clear_signers (full_bits n) ids = Some bits -> (committee_size c <= n)%nat ->
  NoDup ids -> ids <> [] -> (forall i, i ∈ ids -> (i < committee_size c)%nat) ->
  exists pk, combine_key_from_ids ids (sorted_keys c) = Some pk /\
    verify_signers d bits sig (committee_size c) (sorted_keys c) (combined_pubkey c) =
      ensure_o (bls_verify (digest_bytes d) pk sig) CE_InvalidBlsSign.
Proof.
  intros Hbits Hn Hnd Hne Hlt.
  destruct (remove_pubkeys_combine (sorted_keys c) (combined_pubkey c)
              (filter (fun i => i ∉ ids) (seq 0 (committee_size c))) ids)
    as (pk & Hrem & Hcomb).
  - apply (wf_combined _ Hc).
  - rewrite length_sorted_keys. by apply set_ids_partition.
  - done.
  - exists pk. split; [done|]. unfold verify_signers.
    rewrite (set_ids_clear_signers _ _ _ _ Hbits Hn). simpl. by rewrite Hrem.
Qed.

(** C31: verifying a QC by removing the keys of the nodes whose bit is set from
    the combined committee key accepts exactly when the aggregate signature
    verifies under the sum of the keys of the signers (the nodes whose bit was
    cleared), for every committee and every non-empty set of signers. *)
Theorem QC_is_well_formed_reference n ids (q : QC) :
  clear_signers (full_bits n) ids = Some (qc_votes q).1 -> (committee_size c <= n)%nat ->
  NoDup ids -> ids <> [] -> (forall i, i ∈ ids -> (i < committee_size c)%nat) ->
  qc_round q <> 0 ->
  exists pk, combine_key_from_ids ids (sorted_keys c) = Some pk /\
    (QC_is_well_formed c q = Ok tt <->
     bls_verify (digest_bytes (digest q)) pk (qc_votes q).2 = true).
Proof.
  intros Hbits Hn Hnd Hne Hlt Hround.
  destruct (verify_signers_spec n ids _ (digest q) (qc_votes q).2 Hbits Hn Hnd Hne Hlt)
    as (pk & Hpk & Hv).
  exists pk. split; [done|]. unfold QC_is_well_formed.
  rewrite (proj2 (Z.eqb_neq _ _) Hround), Hv. apply ensure_o_Ok.
Qed.

(** [QC::is_well_formed] does not check a threshold: the share of any single
    node over a QC of any kind and round makes the QC well formed. *)
Lemma QC_well_formed_without_quorum i k (q : QC) :
  sorted_keys c !! i = Some k ->
  clear_signer (full_bits (committee_size c)) i = Some (qc_votes q).1 ->
  bls_verify (digest_bytes (digest q)) k (qc_votes q).2 = true ->
  QC_is_well_formed c q = Ok tt.
Proof.
  intros Hi Hbits Hv. pose proof (lookup_lt_Some _ _ _ Hi) as Hlt.
  rewrite length_sorted_keys in Hlt.
  destruct (verify_signers_spec (committee_size c) [i] (qc_votes q).1 (digest q) (qc_votes q).2)
    as (pk & Hpk & Hver).
  - simpl. by rewrite Hbits.
  - lia.
  - apply NoDup_singleton.
  - done.
  - by intros j ->%list_elem_of_singleton.
  - unfold combine_key_from_ids in Hpk. simpl in Hpk. rewrite Hi in Hpk. simpl in Hpk.
    injection Hpk as <-. unfold QC_is_well_formed. rewrite Hver, Hv. by destruct (_ =? _).
Qed.

End signers.

(** ** Timeout certificates *)
Section tc.
Context `{Prim : Primitives}.
Implicit Types (c : Committee) (t : TC).

Definition tc_names (votes : list (PublicKey * Signature * Round)) : list PublicKey :=
  map (fun v => v.1.1) votes.

(** What a single entry of a TC must satisfy. *)
Definition tc_vote_ok c (t : TC) (v : PublicKey * Signature * Round) : Prop :=
  v.2 <= qc_round (tc_high_qc t) /\ 0 < stake c v.1.1 /\
  Signature_verify v.1.2 (hash32 (timeout_preimage v.2 (tc_round t))) v.1.1 = true.

Lemma TC_check_votes_Ok c hq votes used w w' :
  TC_check_votes c hq votes used w = Ok w' <->
  Forall (fun v => v.2 <= qc_round hq /\ 0 < stake c v.1.1) votes /\
  NoDup (tc_names votes) /\ (forall x, x ∈ tc_names votes -> x ∉ used) /\
  w' = foldl (fun acc a => u32_add acc (stake c a)) w (tc_names votes).
Proof.
  revert used w. induction votes as [|[[name s] r] votes IH]; intros used w.
  { simpl. split.
    - intros [= ->]. split_and!; [constructor|constructor| |done]. intros x Hx. inversion Hx.
    - by intros (_ & _ & _ & ->). }
  cbn [TC_check_votes tc_names map foldl fst snd].
  rewrite Forall_cons, NoDup_cons. cbn [fst snd].
  rewrite outcome_bind_Ok. split.
  - intros (_ & Hr%ensure_o_Ok%Z.leb_le & Hrest).
    apply outcome_bind_Ok in Hrest as (_ & Hu%ensure_o_Ok%bool_decide_eq_true & Hrest).
    apply outcome_bind_Ok in Hrest as (_ & Hs%ensure_o_Ok%Z.ltb_lt & Hrest).
    apply IH in Hrest as (Hall & Hnd & Hdisj & ->).
    split_and!; [done..| |done| |done].
    + intros Hin. specialize (Hdisj name Hin). set_solver.
    + intros x [->|Hx]%elem_of_cons; [done|]. specialize (Hdisj x Hx). set_solver.
  - intros ([[Hr Hs] Hall] & [Hn Hnd] & Hdisj & ->).
    exists tt. split; [by apply ensure_o_Ok, Z.leb_le|].
    apply outcome_bind_Ok. exists tt. split.
    { apply ensure_o_Ok, bool_decide_eq_true. apply Hdisj. left. }
    apply outcome_bind_Ok. exists tt. split; [by apply ensure_o_Ok, Z.ltb_lt|].
    apply IH. split_and!; [done..| |done].
    intros x Hx. assert (x <> name) by (intros ->; done).
    assert (x ∉ used) by (apply Hdisj; by right). set_solver.
Qed.

Lemma TC_check_signatures_Ok round votes :
  TC_check_signatures round votes = Ok tt <->
  Forall (fun v => Signature_verify v.1.2 (hash32 (timeout_preimage v.2 round)) v.1.1 = true)
    votes.
Proof.
  induction votes as [|[[name s] r] votes IH]; [by split|].
  cbn [TC_check_signatures]. rewrite outcome_bind_Ok, Forall_cons, <-IH. cbn [fst snd]. split.
  - by intros (_ & ?%ensure_o_Ok & ?).
  - intros [? ?]. exists tt. by rewrite ensure_o_Ok.
Qed.

Lemma TC_is_well_formed_spec c t :
  (forall name, 0 <= stake c name) ->
  set_weight (stake c) (list_to_set (get_public_keys c)) < 2 ^ 32 ->
  TC_is_well_formed c t = Ok tt <->
  NoDup (tc_names (tc_votes t)) /\ Forall (tc_vote_ok c t) (tc_votes t) /\
  quorum_threshold c <= set_weight (stake c) (list_to_set (tc_names (tc_votes t))).
Proof.
  intros Hpos Htotal. unfold TC_is_well_formed.
  rewrite outcome_bind_Ok.
  assert (Hw : NoDup (tc_names (tc_votes t)) ->
               Forall (fun v => 0 < stake c v.1.1) (tc_votes t) ->
               foldl (fun acc a => u32_add acc (stake c a)) 0 (tc_names (tc_votes t)) =
               set_weight (stake c) (list_to_set (tc_names (tc_votes t)))).
  { intros Hnd Hst. change 0 with (u32_wrap 0) at 1.
    rewrite list_weight_u32, Z.add_0_l, <-set_weight_list_to_set by done.
    apply Z.mod_small. split; [by apply set_weight_nonneg|].
    eapply Z.le_lt_trans; [|exact Htotal]. apply set_weight_mono; [done|].
    intros x Hx. rewrite elem_of_list_to_set in Hx |- *. apply stake_pos_member.
    apply list_elem_of_In, in_map_iff in Hx as (v & <- & Hv).
    rewrite Forall_forall in Hst. by apply Hst, list_elem_of_In. }
  unfold tc_vote_ok. rewrite !Forall_and. split.
  - intros (w & ([Hle Hst]%Forall_and & Hnd & _ & ->)%TC_check_votes_Ok & Hrest).
    apply outcome_bind_Ok in Hrest as (_ & Hq%ensure_o_Ok%Z.leb_le & Hsig).
    apply TC_check_signatures_Ok in Hsig. rewrite Hw in Hq by done. done.
  - intros (Hnd & (Hle & Hst & Hsig) & Hq). eexists. split.
    { apply TC_check_votes_Ok. split_and!; [by apply Forall_and|done| |reflexivity].
      set_solver. }
    apply outcome_bind_Ok. exists tt. rewrite Hw by done.
    split; [by apply ensure_o_Ok, Z.leb_le|by apply TC_check_signatures_Ok].
Qed.

(** A TC is well formed exactly when its votes come from distinct
    authorities with stake, none reports a locked round above the round of the
    TC's high QC, every signature covers the reported round and the TC's round,
    and the voters' total stake reaches the quorum threshold. *)
Lemma TC_is_well_formed_iff c t :
  (forall name, 0 <= stake c name) ->
  set_weight (stake c) (list_to_set (get_public_keys c)) < 2 ^ 32 ->
  TC_is_well_formed c t = Ok tt <->
  NoDup (tc_names (tc_votes t)) /\ Forall (tc_vote_ok c t) (tc_votes t) /\
  quorum_threshold c <= set_weight (stake c) (list_to_set (tc_names (tc_votes t))).
Proof. apply TC_is_well_formed_spec. Qed.

End tc.

(** ** What the digests commit to *)
Section binding.
Context `{Prim : Primitives}.

Definition sized_digest (d : Digest) : Prop := length (digest_bytes d) = 32%nat.
Definition sized_key (k : PublicKey) : Prop := length (key_bytes k) = 32%nat.

Lemma digest_bytes_inj a b : digest_bytes a = digest_bytes b -> a = b.
Proof. destruct a, b. simpl. by intros ->. Qed.
Lemma key_bytes_inj a b : key_bytes a = key_bytes b -> a = b.
Proof. destruct a, b. simpl. by intros ->. Qed.

Lemma le_bytes_8_app_inj r r' l l' :
  u64 r -> u64 r' -> le_bytes 8 r ++ l = le_bytes 8 r' ++ l' -> r = r' /\ l = l'.
Proof.
  intros Hr Hr' Heq. apply app_inj_1 in Heq as [Hb ->]; [|by rewrite !length_le_bytes].
  split; [|done]. by apply (le_bytes_inj 8) in Hb.
Qed.

Lemma concat_digests_inj ds ds' :
  Forall sized_digest ds -> Forall sized_digest ds' ->
  concat (map digest_bytes ds) = concat (map digest_bytes ds') -> ds = ds'.
Proof.
  intros Hds. revert ds'. induction Hds as [|d ds Hd _ IH]; intros ds' Hds' Heq.
  - destruct Hds' as [|d' ds' Hd' _]; [done|]. exfalso.
    apply (f_equal length) in Heq. simpl in Heq. rewrite length_app in Heq.
    unfold sized_digest in Hd'. lia.
  - destruct Hds' as [|d' ds' Hd' Hds'].
    { exfalso. apply (f_equal length) in Heq. simpl in Heq. rewrite length_app in Heq.
      unfold sized_digest in Hd. lia. }
    simpl in Heq. unfold sized_digest in *. apply app_inj_1 in Heq as [Hb Hrest]; [|lia].
    apply digest_bytes_inj in Hb as ->. by rewrite (IH ds').
Qed.

(** The widths the types of a block's fields have. *)
Record sized_block (b : Block) : Prop := {
  sb_author : sized_key (blk_author b);
  sb_parent : sized_digest (blk_parent b);
  sb_round : u64 (blk_round b);
  sb_payload : Forall sized_digest (map cert_id (blk_payload b));
}.

(** The fields that [Block::digest] hashes. *)
Definition same_block (b b' : Block) : Prop :=
  blk_author b = blk_author b' /\ blk_parent b = blk_parent b' /\
  blk_round b = blk_round b' /\ map cert_id (blk_payload b) = map cert_id (blk_payload b').

Definition sha512_collision : Prop :=
  exists x y, x <> y /\ take 32 (sha512 x) = take 32 (sha512 y).

(** The bytes hashed by [Block::digest] determine author, parent, round and
    the payload's certificate ids: two blocks with the same digest either agree
    on all of them or exhibit a SHA-512 collision on 32 bytes. *)
Lemma Block_digest_binding b b' :
  sized_block b -> sized_block b' -> digest b = digest b' -> same_block b b' \/ sha512_collision.
Proof.
  intros [Ha Hp Hr Hi] [Ha' Hp' Hr' Hi'] Hd. unfold digest, Block_hash, hash32 in Hd.
  injection Hd as Hd.
  destruct (decide (block_preimage (blk_author b) (blk_parent b) (blk_round b)
                      (map cert_id (blk_payload b)) =
                    block_preimage (blk_author b') (blk_parent b') (blk_round b')
                      (map cert_id (blk_payload b')))) as [Heq|Hne];
    [left|right; eexists _, _; by split].
  unfold block_preimage in Heq. unfold sized_key, sized_digest in *.
  apply app_inj_1 in Heq as [Hauth%key_bytes_inj Heq]; [|lia].
  apply app_inj_1 in Heq as [Hpar%digest_bytes_inj Heq]; [|lia].
  apply le_bytes_8_app_inj in Heq as [Hrnd Heq]; [|done..].
  apply concat_digests_inj in Heq; [|done..]. by split_and!.
Qed.

Lemma sized_block_genesis : sized_block Block_genesis.
Proof. by split; [..|constructor]. Qed.

(** A weak certificate is checked against a digest of other bytes than the
    ones its voters signed: a [Vote] hashes the vote kind as well (72 bytes), a
    [WQC] does not (40 bytes), so the signed and the checked message differ. *)
Lemma WQC_digest_not_vote_digest (w : WQC) (v : Vote) :
  length (digest_bytes (digest (vote_kind v))) = 32%nat ->
  wqc_blk_hash w = vote_blk_hash v -> wqc_round w = vote_round v ->
  exists x y, digest w = hash32 x /\ digest v = hash32 y /\ x <> y.
Proof.
  intros Hk Hb Hr.
  exists (digest_bytes (wqc_blk_hash w) ++ le_bytes 8 (wqc_round w)).
  exists (vote_preimage (vote_blk_hash v) (vote_kind v) (vote_round v)).
  split_and!; [done..|]. intros Heq. apply (f_equal length) in Heq.
  unfold vote_preimage in Heq. rewrite !length_app, !length_le_bytes, Hk, Hb in Heq. lia.
Qed.

(** A block that a node creates with its own key pair, and voting rights, is
    well formed for every peer. *)
Lemma Block_new_is_well_formed c author parent payload round secret :
  ed_keypair secret author -> 0 < stake c author ->
  exists b, Block_new author parent payload round secret = Some b /\
    blk_author b = author /\ blk_parent b = parent /\ blk_payload b = payload /\
    blk_round b = round /\ Block_is_well_formed c b = Ok tt.
Proof.
  intros Hkp Hst. unfold Block_new.
  set (b0 := mkBlock author parent payload round Signature_default).
  destruct (Signature_new_verify secret author (digest b0) Hkp) as (sig & Hs & Hv).
  rewrite Hs. simpl. eexists. split_and!; [done..|].
  unfold Block_is_well_formed. case_decide; [done|].
  apply outcome_bind_Ok. exists tt. split; [by apply ensure_o_Ok, Z.ltb_lt|].
  by apply ensure_o_Ok.
Qed.

End binding.
