(* ===== verification/Signers.v ===== *)
(** * Signers: indices of authorities and aggregates of their shares

    What the aggregators of consensus (src/hydrangea/src/aggregator.rs) and of
    the primary (src/primary/src/aggregators.rs) have in common: the index of an
    authority in the sorted keys, the weight of a list of voters, and the
    verification of aggregated shares. *)
From S2P Require Import Prelude Crypto Config BitVec DagMessages Messages.

Section key_index.
Context `{Prim : Primitives} {Laws : G2Laws}.

(** [committee.sorted_keys.binary_search(&committee.get_bls_public_g2(name))] *)
Definition key_index (c : Committee) (name : PublicKey) : option nat :=
  k ← get_bls_public_g2 c name; binary_search (sorted_keys c) k.

Context (c : Committee) (Hc : committee_wf c).

Lemma key_index_member name :
  name ∈ get_public_keys c ->
  exists k i, get_bls_public_g2 c name = Some k /\ binary_search (sorted_keys c) k = Some i /\
    sorted_keys c !! i = Some k /\ (i < committee_size c)%nat.
Proof.
  intros Hin%get_bls_public_g2_Some. destruct Hin as [k Hk].
  assert (Hk' : k ∈ sorted_keys c).
  { rewrite (wf_keys _ Hc). unfold get_bls_public_g2 in Hk.
    apply fmap_Some in Hk as (x & Hx%btree_get_elem & ->).
    apply list_elem_of_In, in_map_iff. exists (name, x). split; [done|by apply list_elem_of_In]. }
  apply list_elem_of_lookup in Hk' as [i Hi]. exists k, i.
  split_and!; [done|by apply binary_search_spec; [apply wf_sorted|]|done|].
  rewrite <-(length_sorted_keys c Hc). by eapply lookup_lt_Some.
Qed.

Lemma bls_key_inj name name' k :
  get_bls_public_g2 c name = Some k -> get_bls_public_g2 c name' = Some k -> name = name'.
Proof.
  unfold get_bls_public_g2.
  intros (x & Hx%btree_get_elem & ->)%fmap_Some (y & Hy%btree_get_elem & Hxy)%fmap_Some.
  assert (Hnd : NoDup (get_bls_g2_public_keys c)).
  { rewrite <-(wf_keys _ Hc). apply keys_sorted_NoDup, (wf_sorted _ Hc). }
  unfold get_bls_g2_public_keys in Hnd.
  apply list_elem_of_lookup in Hx as [i Hi], Hy as [j Hj].
  assert (i = j) as ->.
  { eapply (proj1 (NoDup_alt _) Hnd i j (bls_pubkey_g2 x)).
    - change (map ?f ?l) with (f <$> l). by rewrite list_lookup_fmap, Hi.
    - change (map ?f ?l) with (f <$> l). rewrite list_lookup_fmap, Hj. simpl. by rewrite Hxy. }
  congruence.
Qed.

Lemma key_index_inj name name' i :
  key_index c name = Some i -> key_index c name' = Some i -> name = name'.
Proof.
  unfold key_index. intros (k & Hk & Hi)%bind_Some (k' & Hk' & Hi')%bind_Some.
  apply binary_search_spec in Hi, Hi'; [|apply (wf_sorted _ Hc)..].
  apply (bls_key_inj _ _ k); congruence.
Qed.

Lemma key_index_lt name i : key_index c name = Some i -> (i < committee_size c)%nat.
Proof.
  unfold key_index. intros (k & _ & Hi)%bind_Some.
  apply binary_search_spec in Hi; [|apply (wf_sorted _ Hc)].
  rewrite <-(length_sorted_keys c Hc). by eapply lookup_lt_Some.
Qed.

Lemma key_indices_NoDup names ids :
  NoDup names -> mapM (key_index c) names = Some ids ->
  NoDup ids /\ (forall i, i ∈ ids -> (i < committee_size c)%nat).
Proof.
  intros Hnd Hids%mapM_Some. split.
  - apply NoDup_alt. intros a b i Ha Hb.
    destruct (Forall2_lookup_r _ _ _ _ _ Hids Ha) as (x & Hx & Hxi).
    destruct (Forall2_lookup_r _ _ _ _ _ Hids Hb) as (y & Hy & Hyi).
    pose proof (key_index_inj x y i Hxi Hyi) as ->.
    by eapply (proj1 (NoDup_alt _) Hnd).
  - intros i [a Ha]%list_elem_of_lookup.
    destruct (Forall2_lookup_r _ _ _ _ _ Hids Ha) as (x & Hx & Hxi).
    by eapply key_index_lt.
Qed.

(** The weight of distinct voters, as a list and as a set, fits in a [u32] when
    the weight of the whole committee does. *)
Lemma voters_weight (names : list PublicKey) :
  (forall name, 0 <= stake c name) ->
  set_weight (stake c) (list_to_set (get_public_keys c)) < 2 ^ 32 ->
  NoDup names -> Forall (fun name => 0 < stake c name) names ->
  list_weight (stake c) names = set_weight (stake c) (list_to_set names) /\
  0 <= list_weight (stake c) names < 2 ^ 32.
Proof.
  intros Hstake Htotal Hnd Hst. rewrite <-set_weight_list_to_set by done. split; [done|].
  split; [by apply set_weight_nonneg|]. eapply Z.le_lt_trans; [|exact Htotal].
  apply set_weight_mono; [done|]. intros x. rewrite !elem_of_list_to_set. intros Hx.
  rewrite Forall_forall in Hst. by apply stake_pos_member, Hst.
Qed.

(** ** Aggregation of shares *)

(** The share of an authority verifies under its key for [d]. *)
Definition share_ok (d : Digest) (x : PublicKey * G1) : Prop :=
  exists k, get_bls_public_g2 c x.1 = Some k /\ bls_verify (digest_bytes d) k x.2 = true.

(** The aggregate of a list of signatures, in order. *)
Definition fold_signatures (sigs : list G1) : option G1 :=
  match sigs with [] => None | s :: sigs' => Some (foldl aggregate_sign s sigs') end.

Lemma fold_signatures_snoc sigs s a :
  fold_signatures sigs = Some a -> fold_signatures (sigs ++ [s]) = Some (aggregate_sign a s).
Proof. destruct sigs as [|s0 sigs]; simpl; [done|]. intros [= <-]. by rewrite foldl_app. Qed.

Lemma bls_verify_foldl {Bls : BlsLaws} d sigs ks k0 s0 :
  bls_verify d k0 s0 = true -> Forall2 (fun s k => bls_verify d k s = true) sigs ks ->
  bls_verify d (foldl g2_add k0 ks) (foldl aggregate_sign s0 sigs) = true.
Proof.
  intros H0 Hall. revert k0 s0 H0. induction Hall as [|s k sigs ks Hv _ IH]; intros k0 s0 H0; [done|].
  simpl. apply IH. by apply bls_verify_add.
Qed.

Lemma shares_keys d xs ids :
  Forall (share_ok d) xs -> mapM (key_index c) (map fst xs) = Some ids ->
  exists ks, mapM (fun i => sorted_keys c !! i) ids = Some ks /\
    Forall2 (fun s k => bls_verify (digest_bytes d) k s = true) (map snd xs) ks.
Proof.
  intros Hall. revert ids. induction Hall as [|x xs (k & Hk & Hv) _ IH]; intros ids.
  { intros [= <-]. exists []. by split. }
  cbn [map mapM]. intros (i & Hi & (ids' & Hids' & [= <-])%bind_Some)%bind_Some.
  destruct (IH _ Hids') as (ks & Hks & Hall'). exists (k :: ks). cbn [mapM].
  unfold key_index in Hi. rewrite Hk in Hi. simpl in Hi.
  apply binary_search_spec in Hi; [|apply (wf_sorted _ Hc)]. rewrite Hi. simpl. rewrite Hks.
  split; [done|by constructor].
Qed.

(** Valid shares of some authorities verify in aggregate under the sum of
    their keys. *)
Lemma shares_combine {Bls : BlsLaws} d xs ids :
  xs <> [] -> Forall (share_ok d) xs -> mapM (key_index c) (map fst xs) = Some ids ->
  exists pk s, combine_key_from_ids ids (sorted_keys c) = Some pk /\
    fold_signatures (map snd xs) = Some s /\ bls_verify (digest_bytes d) pk s = true.
Proof.
  intros Hne Hall Hids. destruct (shares_keys d xs ids Hall Hids) as (ks & Hks & Hall2).
  unfold combine_key_from_ids. rewrite Hks. destruct xs as [|x xs]; [done|].
  cbn [map] in Hall2 |- *. apply Forall2_cons_inv_l in Hall2 as (k & ks' & Hv & Hall2 & ->).
  do 2 eexists. split; [reflexivity|]. split; [reflexivity|]. by apply bls_verify_foldl.
Qed.

(** The order of the indices does not matter. *)
Lemma combine_ids_perm ids ids' pk :
  ids ≡ₚ ids' -> combine_key_from_ids ids (sorted_keys c) = Some pk ->
  combine_key_from_ids ids' (sorted_keys c) = Some pk.
Proof.
  unfold combine_key_from_ids. intros Hp (ks & Hks & Hpk)%bind_Some.
  destruct (mapM_perm _ _ _ _ Hp Hks) as (ks' & -> & Hp'). simpl.
  by rewrite <-(combine_keys_perm _ _ Hp').
Qed.

End key_index.
