(* ===== verification/Leader.v ===== *)
(** * Leader election (src/hydrangea/src/leader.rs)

    The three electors as records built by their constructors, the schedule
    generators, and the fairness of the schedules they produce.  [None] and
    [Panicked] are the panics of indexing, of [% 0] and of [assert!]. *)
From S2P Require Import Prelude Crypto Config DagMessages.

(** [round as usize % len], on a 64-bit target; dividing by zero panics. *)
Definition cyclic_index (round : Round) (len : nat) : option nat :=
  if (len =? 0)%nat then None else Some (Z.to_nat (round `mod` Z.of_nat len)).

Section leader.
Context `{Prim : Primitives}.

(** ** DeterministicFairSuccessionLeaderElector *)
Record FairElector := mkFairElector {
  fair_nodes_ids : list PublicKey;
  fair_schedule : list nat;
}.

(** The successors of leader [i], in the order it yields to them. *)
Definition index_schedule (n i : nat) : list nat :=
  filter (fun s => s <> i) (map (fun j => ((i + j) `mod` n)%nat) (seq 0 n)).
Definition all_successors (n : nat) : gmap nat (list nat) :=
  list_to_map (map (fun i => (i, index_schedule n i)) (seq 0 n)).

(** The merging loop: push the leader, pop its next successor and move there,
    until a leader has no successor left. *)
Fixpoint merge_schedules {E} (fuel : nat) (successors : gmap nat (list nat)) (leader : nat)
    : Outcome E (list nat) :=
  match fuel with
  | O => OutOfFuel
  | S fuel' =>
      match successors !! leader with
      | None => Panicked "called `Option::unwrap()` on a `None` value"
      | Some [] => Ok [leader]
      | Some (successor :: rest) =>
          schedule ← merge_schedules fuel' (<[leader := rest]> successors) successor;
          Ok (leader :: schedule)
      end
  end.

(** Every pass of the loop but the last pops one of the [n * (n - 1)]
    successors. *)
Definition schedule_fuel (n : nat) : nat := (n * (n - 1) + 1)%nat.

Definition generate_schedule {E} (n : nat) : Outcome E (list nat) :=
  if (n <? 1)%nat then Ok []
  else
    schedule ← merge_schedules (schedule_fuel n) (all_successors n) 0%nat;
    if decide (head schedule = last schedule) then Ok (removelast schedule)
    else Panicked "assertion failed: schedule.first() == schedule.last()".

Definition FairElector_new {E} (c : Committee) : Outcome E FairElector :=
  schedule ← generate_schedule (committee_size c);
  Ok (mkFairElector (merge_sort key_le (get_public_keys c)) schedule).

Definition FairElector_get_leader (e : FairElector) (round : Round) : option PublicKey :=
  index ← cyclic_index round (length (fair_schedule e));
  leader ← fair_schedule e !! index;
  fair_nodes_ids e !! leader.

(** ** SimpleLeaderElector *)
Record SimpleElector := mkSimpleElector {
  simple_node_ids : list PublicKey;
  simple_n : nat;
}.

(** [collect] into a map: of two authorities with the same id the last wins. *)
Definition id_map (c : Committee) : gmap Z PublicKey :=
  list_to_map (reverse (map (fun x => (auth_id x.2, x.1)) (authorities c))).

Definition SimpleElector_new {E} (c : Committee) : Outcome E SimpleElector :=
  let n := committee_size c in
  node_ids ← expect_o (mapM (fun idx => id_map c !! Z.of_nat idx) (seq 0 n))
               "no entry found for key";
  Ok (mkSimpleElector node_ids n).

Definition SimpleElector_get_leader (e : SimpleElector) (round : Round) : option PublicKey :=
  index ← cyclic_index round (simple_n e);
  simple_node_ids e !! index.

(** ** FailureSimulationLeaderElector *)
Inductive FailureScenario := BEST | MID | WORST.

Definition generate_best_schedule (c : Committee) : list PublicKey :=
  get_honest_ids c ++ get_byzantine_ids c.

(** The loop over the honest nodes from index [i] on: [after i] says which
    Byzantine node, if any, follows the [i]-th honest one. *)
Fixpoint interleave {E} (after : nat -> option nat) (byzantine honest : list PublicKey) (i : nat)
    : Outcome E (list PublicKey) :=
  match honest with
  | [] => Ok []
  | h :: honest' =>
      next ← match after i with
             | None => Ok []
             | Some j => b ← expect_o (byzantine !! j) "index out of bounds"; Ok [b]
             end;
      rest ← interleave after byzantine honest' (S i);
      Ok (h :: next ++ rest)
  end.

Definition generate_mid_schedule {E} (c : Committee) : Outcome E (list PublicKey) :=
  let byzantine := get_byzantine_ids c in
  let honest := get_honest_ids c in
  if (length byzantine <? length honest)%nat then
    interleave (fun i => if (i <? length byzantine)%nat then Some i else None) byzantine honest 0
  else Panicked "assertion failed: honest.len() > byzantine.len()".

Definition generate_worst_schedule {E} (c : Committee) : Outcome E (list PublicKey) :=
  let byzantine := get_byzantine_ids c in
  let honest := get_honest_ids c in
  if (2 * length byzantine <? length honest)%nat then
    interleave (fun i => if (i <? length byzantine * 2)%nat && (i `mod` 2 =? 1)%nat
                         then Some (i / 2)%nat else None) byzantine honest 0
  else Panicked "assertion failed: honest.len() > 2 * byzantine.len()".

Definition FailureElector_new {E} (c : Committee) (s : FailureScenario)
    : Outcome E (list PublicKey) :=
  match s with
  | BEST => Ok (generate_best_schedule c)
  | MID => generate_mid_schedule c
  | WORST => generate_worst_schedule c
  end.

Definition FailureElector_get_leader (schedule : list PublicKey) (round : Round)
    : option PublicKey :=
  index ← cyclic_index round (length schedule);
  schedule !! index.

(** ** LeaderElector *)
Inductive LeaderElector :=
| LE_Simple (e : SimpleElector)
| LE_Fair (e : FairElector)
| LE_Failure (schedule : list PublicKey).

Definition LeaderElector_new {E} (kind : LeaderElectorKind) (c : Committee)
    : Outcome E LeaderElector :=
  match kind with
  | Simple => e ← SimpleElector_new c; Ok (LE_Simple e)
  | FairSuccession => e ← FairElector_new c; Ok (LE_Fair e)
  | FailureBestCase => s ← FailureElector_new c BEST; Ok (LE_Failure s)
  | FailureMidCase => s ← FailureElector_new c MID; Ok (LE_Failure s)
  | FailureWorstCase => s ← FailureElector_new c WORST; Ok (LE_Failure s)
  end.

Definition get_leader (e : LeaderElector) (round : Round) : option PublicKey :=
  match e with
  | LE_Simple e => SimpleElector_get_leader e round
  | LE_Fair e => FairElector_get_leader e round
  | LE_Failure s => FailureElector_get_leader s round
  end.

End leader.

Example schedule_of_four :
  generate_schedule (E := unit) 4 = Ok [0; 1; 2; 3; 0; 2; 0; 3; 1; 3; 2; 1]%nat.
Proof. vm_compute. reflexivity. Qed.

(** ** The fair succession schedule

    Read as a walk: leaving [i] for the [k]-th time goes to [(i + k) mod n].
    The walk can only get stuck where it started, and then every node has
    been left for every other node: an Eulerian circuit of the complete
    directed graph. *)
Section walk.
Context (n : nat) (Hn : (1 <= n)%nat).
Implicit Types (E : list (nat * nat)) (i j x : nat).

Lemma index_schedule_eq i :
  (i < n)%nat -> index_schedule n i = map (fun j => ((i + j) `mod` n)%nat) (seq 1 (n - 1)).
Proof.
  intros Hi. unfold index_schedule.
  replace (seq 0 n) with (0%nat :: seq 1 (n - 1)) by (destruct n as [|m]; [lia|simpl; by rewrite Nat.sub_0_r]).
  rewrite map_cons.
  rewrite filter_cons_False by (rewrite Nat.add_0_r, Nat.mod_small by lia; tauto).
  apply list_filter_id. intros s (j & -> & [Hj1 Hj2]%elem_of_seq)%list_elem_of_fmap.
  destruct (decide (i + j < n)%nat); [rewrite Nat.mod_small by lia; lia|].
  replace (i + j)%nat with (i + j - n + 1 * n)%nat by lia.
  rewrite Nat.Div0.mod_add, Nat.mod_small by lia. lia.
Qed.

Lemma length_index_schedule i : (i < n)%nat -> length (index_schedule n i) = (n - 1)%nat.
Proof. intros. rewrite index_schedule_eq, length_map, length_seq by done. done. Qed.

Lemma elem_of_index_schedule i j :
  (i < n)%nat -> j ∈ index_schedule n i <-> (j < n)%nat /\ j <> i.
Proof.
  intros Hi. unfold index_schedule. rewrite list_elem_of_filter, list_elem_of_fmap. split.
  - intros [Hne (k & -> & _)]. split; [apply Nat.mod_upper_bound; lia|done].
  - intros [Hj Hne]. split; [done|]. exists ((n + j - i) `mod` n)%nat. split.
    + rewrite Nat.Div0.add_mod_idemp_r. replace (i + (n + j - i))%nat with (j + 1 * n)%nat by lia.
      by rewrite Nat.Div0.mod_add, Nat.mod_small.
    + apply elem_of_seq. pose proof (Nat.mod_upper_bound (n + j - i) n). lia.
Qed.

Lemma index_schedule_NoDup i : (i < n)%nat -> NoDup (index_schedule n i).
Proof.
  intros Hi. assert (seq 0 n ≡ₚ i :: index_schedule n i) as Hp.
  { apply submseteq_length_Permutation.
    - apply NoDup_submseteq; [apply NoDup_seq|]. intros j [_ Hj]%elem_of_seq.
      destruct (decide (j = i)) as [->|]; [left|right]. apply elem_of_index_schedule; lia.
    - simpl. rewrite length_index_schedule, length_seq by done. lia. }
  pose proof (NoDup_seq 0 n) as Hnd. rewrite Hp in Hnd. by apply NoDup_cons in Hnd as [_ ?].
Qed.

Lemma index_schedule_last i :
  (S i < n)%nat -> last (index_schedule n (S i)) = Some i.
Proof.
  intros Hi. rewrite index_schedule_eq by done.
  replace (n - 1)%nat with (S (n - 2)) by lia.
  rewrite seq_S, map_app. cbn [map]. rewrite last_snoc. f_equal.
  replace (S i + (1 + (n - 2)))%nat with (i + 1 * n)%nat by lia.
  rewrite Nat.Div0.mod_add. apply Nat.mod_small. lia.
Qed.

(** Edges of a walk, and its degrees. *)
Definition edges (l : list nat) : list (nat * nat) := zip l (tail l).
Definition out_edges E i : list nat := map snd (filter (fun e => e.1 = i) E).
Definition in_edges E x : list nat := map fst (filter (fun e => e.2 = x) E).
Definition at_node (x y : nat) : nat := if decide (x = y) then 1%nat else 0%nat.

Lemma out_edges_app E E' i : out_edges (E ++ E') i = out_edges E i ++ out_edges E' i.
Proof. unfold out_edges. by rewrite filter_app, map_app. Qed.
Lemma in_edges_app E E' x : in_edges (E ++ E') x = in_edges E x ++ in_edges E' x.
Proof. unfold in_edges. by rewrite filter_app, map_app. Qed.

Lemma elem_of_out_edges E i j : j ∈ out_edges E i <-> (i, j) ∈ E.
Proof.
  unfold out_edges. rewrite list_elem_of_fmap. setoid_rewrite list_elem_of_filter. split.
  - intros ([? ?] & -> & <- & ?). done.
  - intros. by exists (i, j).
Qed.
Lemma elem_of_in_edges E i j : i ∈ in_edges E j <-> (i, j) ∈ E.
Proof.
  unfold in_edges. rewrite list_elem_of_fmap. setoid_rewrite list_elem_of_filter. split.
  - intros ([? ?] & -> & <- & ?). done.
  - intros. by exists (i, j).
Qed.

Lemma out_edges_single a b i : length (out_edges [(a, b)] i) = at_node i a.
Proof.
  unfold out_edges, at_node. rewrite filter_cons. simpl.
  repeat case_decide; simpl; subst; done.
Qed.
Lemma in_edges_single a b x : length (in_edges [(a, b)] x) = at_node x b.
Proof.
  unfold in_edges, at_node. rewrite filter_cons. simpl.
  repeat case_decide; simpl; subst; done.
Qed.

Lemma edges_NoDup E : (forall i, NoDup (out_edges E i)) -> NoDup E.
Proof.
  induction E as [|[a b] E IH]; intros Hout; [constructor|].
  assert (Hcons : forall i, out_edges ((a, b) :: E) i = out_edges [(a, b)] i ++ out_edges E i).
  { intros i. apply (out_edges_app [(a, b)] E). }
  constructor.
  - rewrite <-elem_of_out_edges. specialize (Hout a). rewrite Hcons in Hout.
    assert (out_edges [(a, b)] a = [b]) as Hab.
    { unfold out_edges. by rewrite filter_cons_True. }
    rewrite Hab in Hout. by apply NoDup_cons in Hout as [? _].
  - apply IH. intros i. specialize (Hout i). rewrite Hcons in Hout.
    by apply NoDup_app in Hout as (_ & _ & ?).
Qed.

Lemma in_edges_NoDup E x : NoDup E -> NoDup (in_edges E x).
Proof.
  intros Hnd. apply NoDup_fmap_2_strong; [|by apply NoDup_filter].
  intros [a b] [c d] [Hb _]%list_elem_of_filter [Hd _]%list_elem_of_filter. simpl in *. congruence.
Qed.

Lemma edges_length E :
  (forall e, e ∈ E -> (e.1 < n)%nat) ->
  length E = sum_list_with (fun i => length (out_edges E i)) (seq 0 n).
Proof.
  intros Hsrc. induction E as [|[a b] E IH].
  { rewrite (sum_list_with_const _ 0%nat) by done. simpl. lia. }
  assert (Ha : a ∈ seq 0 n).
  { apply elem_of_seq. specialize (Hsrc (a, b)). simpl in Hsrc. assert ((a < n)%nat); [|lia].
    apply Hsrc. left. }
  rewrite (sum_list_with_ext _ (fun i => at_node i a + length (out_edges E i))%nat); cycle 1.
  { intros x _. change ((a, b) :: E) with ([(a, b)] ++ E).
    by rewrite out_edges_app, length_app, out_edges_single. }
  simpl. rewrite IH by (intros e He; apply Hsrc; by right). clear IH Hsrc.
  pose proof (NoDup_seq 0 n) as Hnd. revert Ha. induction Hnd as [|x l Hx Hnd IH]; [set_solver|].
  intros [->|Ha]%elem_of_cons.
  - simpl. assert (at_node x x = 1%nat) as -> by (unfold at_node; by rewrite decide_True).
    simpl. f_equal. f_equal. apply sum_list_with_ext. intros y Hy. unfold at_node.
    rewrite decide_False; [done|]. intros ->. done.
  - simpl. rewrite <-IH by done. unfold at_node. rewrite decide_False; [lia|]. by intros ->.
Qed.

(** The edges [E] walked so far from node 0 to [cur]: what [E] leaves of each
    node's successors is in the map, and every node but the two ends has been
    entered as often as left. *)
Record walk_inv E (successors : gmap nat (list nat)) (cur : nat) : Prop := {
  wi_rest : forall i, (i < n)%nat ->
    exists l, successors !! i = Some l /\ out_edges E i ++ l = index_schedule n i;
  wi_src : forall e, e ∈ E -> (e.1 < n)%nat;
  wi_balance : forall x,
    (length (in_edges E x) + at_node x 0 = length (out_edges E x) + at_node x cur)%nat;
  wi_cur : (cur < n)%nat;
}.

Lemma walk_inv_init : walk_inv [] (all_successors n) 0.
Proof.
  split; [|set_solver|done|lia]. intros i Hi. exists (index_schedule n i). split; [|done].
  unfold all_successors. apply elem_of_list_to_map_1.
  - rewrite <-list_fmap_compose. simpl. rewrite list_fmap_id. apply NoDup_seq.
  - apply list_elem_of_fmap. exists i. split; [done|]. apply elem_of_seq. lia.
Qed.

Lemma walk_inv_step E successors cur s rest :
  walk_inv E successors cur -> successors !! cur = Some (s :: rest) ->
  walk_inv (E ++ [(cur, s)]) (<[cur := rest]> successors) s.
Proof.
  intros Hinv Hcur. pose proof (wi_cur _ _ _ Hinv) as Hlt.
  destruct (wi_rest _ _ _ Hinv cur Hlt) as (l & Hl & Hout). rewrite Hcur in Hl. injection Hl as <-.
  split.
  - intros i Hi. rewrite out_edges_app. destruct (decide (i = cur)) as [->|Hne].
    + exists rest. rewrite lookup_insert_eq. split; [done|].
      replace (out_edges [(cur, s)] cur) with [s]; [by rewrite <-app_assoc|].
      unfold out_edges. by rewrite filter_cons_True.
    + destruct (wi_rest _ _ _ Hinv i Hi) as (l & Hl & Hl'). exists l.
      rewrite lookup_insert_ne by done. split; [done|].
      replace (out_edges [(cur, s)] i) with (@nil nat); [by rewrite app_nil_r|].
      unfold out_edges. rewrite filter_cons_False; [done|]. intros ?. simpl in *. congruence.
  - intros e [He|He]%elem_of_app; [by apply (wi_src _ _ _ Hinv)|].
    apply list_elem_of_singleton in He as ->. done.
  - intros x. rewrite in_edges_app, out_edges_app, !length_app, in_edges_single, out_edges_single.
    pose proof (wi_balance _ _ _ Hinv x). lia.
  - apply (elem_of_index_schedule cur s Hlt). rewrite <-Hout. apply elem_of_app. right. left.
Qed.

Lemma walk_NoDup E successors cur : walk_inv E successors cur -> NoDup E.
Proof.
  intros Hinv. apply edges_NoDup. intros i. destruct (decide (i < n)%nat) as [Hi|Hi].
  - destruct (wi_rest _ _ _ Hinv i Hi) as (l & _ & Hout).
    pose proof (index_schedule_NoDup i Hi) as Hnd. rewrite <-Hout in Hnd.
    by apply NoDup_app in Hnd as [? _].
  - replace (out_edges E i) with (@nil nat); [constructor|]. symmetry. apply elem_of_nil_inv.
    intros j Hj%elem_of_out_edges. by apply (wi_src _ _ _ Hinv) in Hj.
Qed.

Lemma walk_out_le E successors cur i :
  walk_inv E successors cur -> (i < n)%nat -> (length (out_edges E i) <= n - 1)%nat.
Proof.
  intros Hinv Hi. destruct (wi_rest _ _ _ Hinv i Hi) as (l & _ & Hout).
  rewrite <-(length_index_schedule i Hi), <-Hout, length_app. lia.
Qed.

Lemma walk_length E successors cur :
  walk_inv E successors cur -> (length E <= n * (n - 1))%nat.
Proof.
  intros Hinv. rewrite edges_length by apply (wi_src _ _ _ Hinv).
  etrans; [apply (sum_list_with_le _ (n - 1)%nat)|by rewrite length_seq].
  intros i [_ Hi]%elem_of_seq. by eapply walk_out_le.
Qed.

(** The loop stops within its fuel, at a node with no successor left. *)
Lemma merge_schedules_runs {Err} fuel E successors cur :
  walk_inv E successors cur -> (length E + fuel = schedule_fuel n)%nat ->
  exists l x successors',
    merge_schedules (E := Err) fuel successors cur = Ok l /\
    head l = Some cur /\ last l = Some x /\
    walk_inv (E ++ edges l) successors' x /\ successors' !! x = Some [].
Proof.
  revert E successors cur. induction fuel as [|fuel IH]; intros E successors cur Hinv Hfuel.
  { pose proof (walk_length _ _ _ Hinv). unfold schedule_fuel in Hfuel. lia. }
  destruct (wi_rest _ _ _ Hinv cur (wi_cur _ _ _ Hinv)) as (rest & Hrest & _).
  simpl. rewrite Hrest. destruct rest as [|s rest].
  { exists [cur], cur, successors. unfold edges. simpl. by rewrite app_nil_r. }
  destruct (IH (E ++ [(cur, s)]) (<[cur := rest]> successors) s)
    as (l & x & S' & Hrun & Hhd & Hlast & Hinv' & Hx).
  { by apply walk_inv_step. }
  { rewrite length_app. simpl. lia. }
  rewrite Hrun. destruct l as [|s' l]; [done|]. injection Hhd as ->.
  exists (cur :: s :: l), x, S'. split_and!; [done..| |done].
  rewrite <-app_assoc in Hinv'. done.
Qed.

(** *** A stuck walk is an Eulerian circuit *)
Section stuck.
Context E successors x (Hinv : walk_inv E successors x) (Hstuck : successors !! x = Some []).

Lemma in_edges_sub y : in_edges E y ⊆+ filter (fun i => i <> y) (seq 0 n).
Proof.
  apply NoDup_submseteq; [by eapply in_edges_NoDup, walk_NoDup|].
  intros i Hin%elem_of_in_edges. pose proof (wi_src _ _ _ Hinv _ Hin) as Hi. simpl in Hi.
  apply list_elem_of_filter. split; [|apply elem_of_seq; lia].
  destruct (wi_rest _ _ _ Hinv i Hi) as (l & _ & Hout). apply elem_of_out_edges in Hin.
  assert (y ∈ index_schedule n i) as Hy by (rewrite <-Hout; apply elem_of_app; by left).
  apply elem_of_index_schedule in Hy; [|done]. intros ->. tauto.
Qed.

Lemma others_length y :
  (y < n)%nat -> length (filter (fun i => i <> y) (seq 0 n)) = (n - 1)%nat.
Proof.
  intros Hy. assert (seq 0 n ≡ₚ y :: filter (fun i => i <> y) (seq 0 n)) as Hp.
  { apply NoDup_Permutation; [apply NoDup_seq|constructor; [|apply NoDup_filter, NoDup_seq]|].
    - rewrite list_elem_of_filter. tauto.
    - intros i. rewrite elem_of_cons, list_elem_of_filter, !elem_of_seq.
      destruct (decide (i = y)) as [->|]; [split; [intros; by left|intros _; lia]|]. split; [intros; right; lia|]. intros [?|[_ ?]]; [done|lia]. }
  apply Permutation_length in Hp. rewrite length_seq in Hp. simpl in Hp. lia.
Qed.

Lemma stuck_at_start : x = 0%nat.
Proof.
  destruct (decide (x = 0%nat)) as [|Hne]; [done|exfalso].
  pose proof (wi_cur _ _ _ Hinv) as Hx.
  destruct (wi_rest _ _ _ Hinv x Hx) as (l & Hl & Hout).
  rewrite Hstuck in Hl. injection Hl as <-. rewrite app_nil_r in Hout.
  pose proof (wi_balance _ _ _ Hinv x) as Hb. rewrite Hout, length_index_schedule in Hb by done.
  unfold at_node in Hb. rewrite decide_False, decide_True in Hb by done.
  pose proof (submseteq_length _ _ (in_edges_sub x)) as Hle.
  rewrite others_length in Hle by done. lia.
Qed.

(** Node [i] exhausted means every node has moved to [i]; for node [i + 1]
    that was its last successor. *)
Lemma exhausted i : (i < n)%nat -> out_edges E i = index_schedule n i.
Proof.
  induction i as [|i IH]; intros Hi.
  { destruct (wi_rest _ _ _ Hinv 0 Hi) as (l & Hl & <-). rewrite <-stuck_at_start in Hl |- *.
    rewrite Hstuck in Hl. injection Hl as <-. by rewrite app_nil_r. }
  assert (Hfull : in_edges E i ≡ₚ filter (fun j => j <> i) (seq 0 n)).
  { apply submseteq_length_Permutation; [apply in_edges_sub|]. rewrite others_length by lia.
    pose proof (wi_balance _ _ _ Hinv i) as Hb. rewrite IH, length_index_schedule in Hb by lia.
    rewrite stuck_at_start in Hb. lia. }
  assert (Hin : i ∈ out_edges E (S i)).
  { apply elem_of_out_edges, elem_of_in_edges. rewrite Hfull.
    apply list_elem_of_filter. rewrite elem_of_seq. lia. }
  destruct (wi_rest _ _ _ Hinv (S i) Hi) as (l & _ & Hout).
  destruct l as [|y l _] using rev_ind; [by rewrite app_nil_r in Hout|exfalso].
  pose proof (index_schedule_last i Hi) as Hlast. rewrite <-Hout, app_assoc, last_snoc in Hlast.
  injection Hlast as ->. pose proof (index_schedule_NoDup _ Hi) as Hnd. rewrite <-Hout in Hnd.
  apply NoDup_app in Hnd as (_ & Hnd & _). apply (Hnd _ Hin). apply elem_of_app. right. left.
Qed.

Lemma circuit_edges i j : (i, j) ∈ E <-> (i < n)%nat /\ (j < n)%nat /\ i <> j.
Proof.
  rewrite <-elem_of_out_edges. destruct (decide (i < n)%nat) as [Hi|Hi].
  - rewrite exhausted, elem_of_index_schedule by done. intuition.
  - split; [|tauto]. intros Hj%elem_of_out_edges. by apply (wi_src _ _ _ Hinv) in Hj.
Qed.

Lemma circuit_length : length E = (n * (n - 1))%nat.
Proof.
  rewrite edges_length by apply (wi_src _ _ _ Hinv).
  rewrite (sum_list_with_const _ (n - 1)%nat); [by rewrite length_seq|].
  intros i [_ Hi]%elem_of_seq. rewrite exhausted by done. by apply length_index_schedule.
Qed.

End stuck.

End walk.

(** Consecutive leaders of a schedule that is looped over. *)
Definition succession (schedule : list nat) : list (nat * nat) :=
  zip schedule (tail schedule ++ take 1 schedule).

Lemma zip_close (l : list nat) x y : zip (y :: l) (l ++ [x]) = zip (y :: l ++ [x]) (l ++ [x]).
Proof. revert y. induction l as [|z l IH]; intros y; [done|]. simpl. f_equal. apply IH. Qed.

Lemma succession_edges l x : head l = Some x -> last l = Some x ->
  succession (removelast l) = edges l.
Proof.
  intros Hhd Hlast. destruct l as [|y l _] using rev_ind; [done|].
  rewrite last_snoc in Hlast. injection Hlast as ->. rewrite removelast_last.
  destruct l as [|y l]; [done|]. injection Hhd as ->. apply zip_close.
Qed.

Lemma generate_schedule_circuit {Err} n :
  (1 <= n)%nat ->
  exists schedule, generate_schedule (E := Err) n = Ok schedule /\
    length schedule = (n * (n - 1))%nat /\ NoDup (succession schedule) /\
    forall i j, (i, j) ∈ succession schedule <-> (i < n)%nat /\ (j < n)%nat /\ i <> j.
Proof.
  intros Hn. destruct (merge_schedules_runs (Err := Err) n Hn (schedule_fuel n) [] (all_successors n) 0)
    as (l & x & S' & Hrun & Hhd & Hlast & Hinv & Hx); [by apply walk_inv_init|done|].
  simpl in Hinv. pose proof (stuck_at_start n Hn _ _ _ Hinv Hx) as ->.
  exists (removelast l). pose proof (succession_edges l 0 Hhd Hlast) as Hsucc.
  assert (Hlen : length (removelast l) = length (edges l)).
  { destruct l as [|y l _] using rev_ind; [done|]. rewrite removelast_last.
    unfold edges. rewrite length_zip_with. destruct l; [done|].
    simpl tail. rewrite !length_app. simpl length. lia. }
  unfold generate_schedule. rewrite (proj2 (Nat.ltb_ge _ _)) by done. rewrite Hrun. cbn.
  rewrite decide_True by congruence. split; [done|]. rewrite Hsucc, Hlen.
  split_and!; [by eapply circuit_length|by eapply walk_NoDup|].
  intros i j. by eapply circuit_edges.
Qed.

(** ** Leaders over a period *)
Section electors.
Context `{Prim : Primitives} (c : Committee).
Implicit Types (r : Round) (names : list PublicKey).

(** The leaders of the [len] rounds from [r] on. *)
Definition leaders (e : LeaderElector) r (len : nat) : list (option PublicKey) :=
  map (fun k => get_leader e (r + Z.of_nat k)) (seq 0 len).

Lemma cyclic_index_Some r len :
  (0 < len)%nat -> cyclic_index r len = Some (Z.to_nat (r `mod` Z.of_nat len)).
Proof. intros. unfold cyclic_index. by rewrite (proj2 (Nat.eqb_neq _ _)) by lia. Qed.

(** A full turn of a cyclic schedule visits its entries once, from wherever
    it starts. *)
Lemma cyclic_window {A} (l : list A) r :
  0 <= r -> l <> [] ->
  map (fun k => l !! Z.to_nat ((r + Z.of_nat k) `mod` Z.of_nat (length l))) (seq 0 (length l))
    ≡ₚ map Some l.
Proof.
  intros Hr Hl. assert (Hlen : (0 < length l)%nat) by (destruct l; simpl; [done|lia]).
  transitivity (map Some (rotate (Z.to_nat r) l)).
  - apply eq_Permutation, list_eq. intros i. rewrite !list_lookup_fmap.
    destruct (decide (i < length l)%nat) as [Hi|Hi].
    + rewrite lookup_seq_lt by done. simpl. rewrite lookup_rotate_r by done.
      unfold rotate_nat_add. rewrite Z2Nat.id by done.
      destruct (lookup_lt_is_Some_2 l (Z.to_nat ((r + Z.of_nat i) `mod` Z.of_nat (length l)))) as [a Ha].
      { pose proof (Z.mod_pos_bound (r + Z.of_nat i) (Z.of_nat (length l))). lia. }
      by rewrite Ha.
    + rewrite lookup_seq_ge, lookup_ge_None_2 by (rewrite ?length_rotate; lia). done.
  - apply fmap_Permutation. unfold rotate. rewrite Permutation_app_comm. by rewrite take_drop.
Qed.
(** An elector that indexes [schedule] by the round gives every entry of the
    schedule one round in each period. *)
Lemma leaders_cyclic e schedule r :
  schedule <> [] -> 0 <= r ->
  (forall r', 0 <= r' -> get_leader e r' = schedule !! Z.to_nat (r' `mod` Z.of_nat (length schedule))) ->
  leaders e r (length schedule) ≡ₚ map Some schedule.
Proof.
  intros Hne Hr He. unfold leaders. rewrite <-(cyclic_window schedule r) by done.
  apply eq_Permutation, map_ext. intros k. apply He. lia.
Qed.

(** *** SimpleLeaderElector *)
Lemma id_map_lookup x :
  NoDup (map (fun x => auth_id x.2) (authorities c)) -> x ∈ authorities c ->
  id_map c !! auth_id x.2 = Some x.1.
Proof.
  intros Hnd Hx. unfold id_map. apply elem_of_list_to_map_1.
  - rewrite fmap_reverse, reverse_Permutation, <-list_fmap_compose. done.
  - rewrite elem_of_reverse. apply list_elem_of_fmap. by exists x.
Qed.

(** The ids of the committee are 0, 1, ..., n-1. *)
Definition ids_dense : Prop :=
  map (fun x => auth_id x.2) (authorities c) ≡ₚ map Z.of_nat (seq 0 (committee_size c)).

Lemma ids_dense_NoDup : ids_dense -> NoDup (map (fun x => auth_id x.2) (authorities c)).
Proof. unfold ids_dense. intros ->. apply NoDup_fmap_2; [apply _|apply NoDup_seq]. Qed.

Lemma simple_node_ids_perm ids :
  ids_dense -> NoDup (get_public_keys c) ->
  mapM (fun idx => id_map c !! Z.of_nat idx) (seq 0 (committee_size c)) = Some ids ->
  ids ≡ₚ get_public_keys c.
Proof.
  intros Hd Hnd Hm. symmetry. apply submseteq_length_Permutation.
  - apply NoDup_submseteq; [done|]. intros name (x & -> & Hx)%list_elem_of_fmap.
    assert (Hid : auth_id x.2 ∈ map Z.of_nat (seq 0 (committee_size c))).
    { unfold ids_dense in Hd. rewrite <-Hd. apply list_elem_of_fmap. by exists x. }
    apply list_elem_of_fmap in Hid as (i & Hi & Hin).
    pose proof (id_map_lookup x (ids_dense_NoDup Hd) Hx) as Hl. rewrite Hi in Hl.
    apply mapM_Some in Hm. apply list_elem_of_lookup_1 in Hin as [k Hk].
    destruct (Forall2_lookup_l _ _ _ _ _ Hm Hk) as (name & Hname & Heq).
    rewrite Hl in Heq. injection Heq as <-. by apply list_elem_of_lookup_2 with k.
  - apply length_mapM in Hm. rewrite length_seq in Hm. unfold get_public_keys.
    rewrite length_map. unfold committee_size in Hm. lia.
Qed.

Lemma simple_new_runs {Err} :
  ids_dense -> NoDup (get_public_keys c) ->
  exists ids, SimpleElector_new (E := Err) c = Ok (mkSimpleElector ids (committee_size c)) /\
    ids ≡ₚ get_public_keys c.
Proof.
  intros Hd Hnd.
  destruct (mapM (fun idx => id_map c !! Z.of_nat idx) (seq 0 (committee_size c))) as [ids|] eqn:Hm.
  - exists ids. unfold SimpleElector_new. rewrite Hm. split; [done|by apply simple_node_ids_perm].
  - exfalso. apply mapM_None, Exists_exists in Hm as (i & Hi & Hnone).
    assert (Hid : Z.of_nat i ∈ map (fun x => auth_id x.2) (authorities c)).
    { unfold ids_dense in Hd. rewrite Hd. apply list_elem_of_fmap. by exists i. }
    apply list_elem_of_fmap in Hid as (x & Hx & Hin).
    rewrite Hx, (id_map_lookup x) in Hnone by (done || by apply ids_dense_NoDup). done.
Qed.

Lemma leaders_perm_schedule e schedule r :
  (0 < committee_size c)%nat -> 0 <= r -> schedule ≡ₚ get_public_keys c ->
  (forall r', get_leader e r' =
     (index ← cyclic_index r' (committee_size c); schedule !! index)) ->
  leaders e r (committee_size c) ≡ₚ map Some (get_public_keys c).
Proof.
  intros Hc Hr Hp He. assert (Hlen : length schedule = committee_size c).
  { rewrite Hp. unfold get_public_keys. apply length_map. }
  rewrite <-Hlen, leaders_cyclic with (schedule := schedule); [by rewrite Hp| |done|].
  - intros ->. simpl in Hlen. lia.
  - intros r' Hr'. rewrite He, Hlen, cyclic_index_Some by done. done.
Qed.

(** The [Simple] elector of a committee whose ids are 0..n-1 exists and is
    a round robin: in any n consecutive rounds every authority leads exactly
    once. *)
Lemma simple_round_robin {Err} :
  (0 < committee_size c)%nat -> ids_dense -> NoDup (get_public_keys c) ->
  exists e, LeaderElector_new (E := Err) Simple c = Ok e /\
    forall r, 0 <= r -> leaders e r (committee_size c) ≡ₚ map Some (get_public_keys c).
Proof.
  intros Hc Hd Hnd. destruct (simple_new_runs (Err := Err) Hd Hnd) as (ids & Hrun & Hp).
  eexists. split; [simpl; rewrite Hrun; reflexivity|]. intros r Hr.
  apply leaders_perm_schedule with ids; done.
Qed.

(** *** FailureSimulationLeaderElector *)
Lemma honest_byzantine_perm :
  get_honest_ids c ++ get_byzantine_ids c ≡ₚ get_public_keys c.
Proof.
  unfold get_honest_ids, get_byzantine_ids, get_public_keys. rewrite <-map_app.
  apply fmap_Permutation. induction (authorities c) as [|x l IH]; [done|].
  rewrite !filter_cons. destruct (is_honest x.2) eqn:Hx; simpl.
  - by rewrite IH.
  - by rewrite <-Permutation_middle, IH.
Qed.

(** Interleaving puts every honest node in the schedule and, when the indices
    asked for are those from [k] on, the Byzantine nodes from [k] on. *)
Lemma interleave_perm {Err} after byzantine honest i k :
  omap after (seq i (length honest)) = seq k (length byzantine - k) ->
  exists l, interleave (E := Err) after byzantine honest i = Ok l /\
    l ≡ₚ honest ++ drop k byzantine.
Proof.
  revert i k. induction honest as [|h honest IH]; intros i k Hafter; simpl in *.
  { exists []. split; [done|]. rewrite drop_ge; [done|].
    destruct (length byzantine - k)%nat eqn:Hk; [lia|done]. }
  destruct (after i) as [j|] eqn:Hi; simpl in *.
  - destruct (length byzantine - k)%nat as [|m] eqn:Hk; [done|]. injection Hafter as -> Hafter.
    destruct (IH (S i) (S k)) as (l & Hl & Hp).
    { etrans; [exact Hafter|]. f_equal. lia. }
    destruct (lookup_lt_is_Some_2 byzantine k) as [b Hb]; [lia|].
    exists (h :: b :: l). rewrite Hb. simpl. rewrite Hl. split; [done|].
    rewrite Hp, (drop_S _ _ _ Hb). by rewrite Permutation_middle.
  - destruct (IH (S i) k) as (l & Hl & Hp); [done|]. exists (h :: l).
    rewrite Hl. split; [done|]. by rewrite Hp.
Qed.

(** The guards of the two loops pick every Byzantine node, in order. *)
Lemma omap_prefix (f : nat -> option nat) b k m :
  (b <= k)%nat -> omap f (seq 0 b) = seq 0 m ->
  omap (fun i => if (i <? b)%nat then f i else None) (seq 0 k) = seq 0 m.
Proof.
  intros Hbk <-. replace k with (b + (k - b))%nat by lia. rewrite seq_app, omap_app.
  transitivity (omap f (seq 0 b) ++ []); [f_equal|apply app_nil_r].
  - apply list_omap_ext. apply Forall_Forall2_diag, Forall_forall.
    intros i [_ Hi]%elem_of_seq. by rewrite (proj2 (Nat.ltb_lt _ _)) by lia.
  - induction (k - b)%nat as [|d IH] using nat_ind; [done|].
    rewrite seq_S, omap_app, IH. simpl. by rewrite (proj2 (Nat.ltb_ge _ _)) by lia.
Qed.

Lemma omap_odd_half m :
  omap (fun i => if (i `mod` 2 =? 1)%nat then Some (i / 2)%nat else None) (seq 0 (m * 2)) = seq 0 m.
Proof.
  induction m as [|m IH]; [done|]. replace (S m * 2)%nat with (m * 2 + 2)%nat by lia.
  rewrite seq_app, omap_app, IH, (seq_S m 0). f_equal.
  assert (((m * 2) `mod` 2 = 0)%nat /\ ((S (m * 2)) `mod` 2 = 1)%nat /\ (S (m * 2) / 2 = m)%nat)
    as (H0 & H1 & H2).
  { split_and!.
    - apply Nat.Div0.mod_mul.
    - symmetry. apply (Nat.mod_unique _ _ m); lia.
    - symmetry. apply (Nat.div_unique _ _ _ 1); lia. }
  unfold omap, list_omap, seq, plus. by rewrite H0, H1, H2.
Qed.

Lemma interleave_all {Err} after :
  omap after (seq 0 (length (get_honest_ids c))) = seq 0 (length (get_byzantine_ids c)) ->
  exists l, interleave (E := Err) after (get_byzantine_ids c) (get_honest_ids c) 0 = Ok l /\
    l ≡ₚ get_public_keys c.
Proof.
  intros Hafter.
  destruct (interleave_perm (Err := Err) after (get_byzantine_ids c) (get_honest_ids c) 0 0)
    as (l & Hl & Hp); [by rewrite Nat.sub_0_r|].
  exists l. split; [done|]. by rewrite Hp, <-honest_byzantine_perm.
Qed.

Lemma failure_schedule_perm {Err} scenario :
  (scenario = MID -> length (get_byzantine_ids c) < length (get_honest_ids c))%nat ->
  (scenario = WORST -> 2 * length (get_byzantine_ids c) < length (get_honest_ids c))%nat ->
  exists schedule, FailureElector_new (E := Err) c scenario = Ok schedule /\
    schedule ≡ₚ get_public_keys c.
Proof.
  intros Hmid Hworst. destruct scenario; simpl.
  - eexists. split; [done|]. apply honest_byzantine_perm.
  - specialize (Hmid eq_refl). unfold generate_mid_schedule.
    rewrite (proj2 (Nat.ltb_lt _ _)) by done. apply interleave_all.
    apply (omap_prefix Some); [lia|].
    by induction (seq 0 _) as [|x l IH]; simpl; [|f_equal].
  - specialize (Hworst eq_refl). unfold generate_worst_schedule.
    rewrite (proj2 (Nat.ltb_lt _ _)) by done. apply interleave_all.
    rewrite <-(omap_prefix _ (length (get_byzantine_ids c) * 2)
      (length (get_honest_ids c)) _ ltac:(lia) (omap_odd_half _)).
    apply list_omap_ext, Forall_Forall2_diag, Forall_forall. intros i _.
    by destruct (i <? _)%nat.
Qed.

(** The three failure-simulation electors exist under the conditions their
    assertions demand (more honest than Byzantine nodes in the MID case, more
    than twice as many in the WORST case, none in the BEST case), and their
    interleaved schedules omit and repeat nobody: in any n consecutive rounds
    every authority leads exactly once. *)
Lemma failure_electors_round_robin {Err} kind scenario :
  (0 < committee_size c)%nat ->
  (kind, scenario) ∈ [(FailureBestCase, BEST); (FailureMidCase, MID); (FailureWorstCase, WORST)] ->
  (scenario = MID -> length (get_byzantine_ids c) < length (get_honest_ids c))%nat ->
  (scenario = WORST -> 2 * length (get_byzantine_ids c) < length (get_honest_ids c))%nat ->
  exists e, LeaderElector_new (E := Err) kind c = Ok e /\
    forall r, 0 <= r -> leaders e r (committee_size c) ≡ₚ map Some (get_public_keys c).
Proof.
  intros Hc Hkind Hmid Hworst.
  destruct (failure_schedule_perm (Err := Err) scenario Hmid Hworst) as (s & Hs & Hp).
  exists (LE_Failure s). split.
  - rewrite !elem_of_cons in Hkind. destruct Hkind as [[= ? ?]|[[= ? ?]|[[= ? ?]|?%not_elem_of_nil]]];
      subst; [..|done]; cbn [LeaderElector_new]; by rewrite Hs.
  - intros r Hr. apply leaders_perm_schedule with s; [done..|]. intros r'. simpl.
    unfold FailureElector_get_leader. rewrite Hp. unfold get_public_keys. by rewrite length_map.
Qed.

(** The simple elector and the three failure simulation electors exist for a
    committee with ids 0..n-1 (in the MID and WORST case if there are more, or
    more than twice as many, honest than Byzantine nodes, as their assertions
    demand) and are round robins: in any n consecutive rounds every authority
    leads exactly once. *)
Lemma electors_round_robin {Err} kind :
  (0 < committee_size c)%nat -> ids_dense -> NoDup (get_public_keys c) ->
  kind ∈ [Simple; FailureBestCase; FailureMidCase; FailureWorstCase] ->
  (kind = FailureMidCase -> length (get_byzantine_ids c) < length (get_honest_ids c))%nat ->
  (kind = FailureWorstCase -> 2 * length (get_byzantine_ids c) < length (get_honest_ids c))%nat ->
  exists e, LeaderElector_new (E := Err) kind c = Ok e /\
    forall r, 0 <= r -> leaders e r (committee_size c) ≡ₚ map Some (get_public_keys c).
Proof.
  intros Hc Hd Hnd Hkind Hmid Hworst. rewrite !elem_of_cons in Hkind.
  destruct Hkind as [->|[->|[->|[->|[]%not_elem_of_nil]]]]; [by apply simple_round_robin|..].
  - apply (failure_electors_round_robin FailureBestCase BEST); try done. set_solver.
  - apply (failure_electors_round_robin FailureMidCase MID); try done; [set_solver|intros _; by apply Hmid].
  - apply (failure_electors_round_robin FailureWorstCase WORST); try done; [set_solver|intros _; by apply Hworst].
Qed.

(** *** DeterministicFairSuccessionLeaderElector *)
Lemma succession_lookup schedule p i j :
  succession schedule !! p = Some (i, j) <->
  schedule !! p = Some i /\ schedule !! (S p `mod` length schedule)%nat = Some j.
Proof.
  unfold succession. rewrite lookup_zip_with_Some.
  assert (Hnext : (p < length schedule)%nat ->
    (tail schedule ++ take 1 schedule) !! p = schedule !! (S p `mod` length schedule)%nat).
  { intros Hp. destruct schedule as [|x l]; simpl in Hp; [lia|]. cbn [tail take length].
    destruct (decide (p = length l)) as [->|Hne].
    - rewrite Nat.Div0.mod_same. rewrite lookup_app_r, Nat.sub_diag by done. done.
    - rewrite Nat.mod_small by lia. by rewrite lookup_app_l by lia. }
  split.
  - intros (x & y & [= -> ->] & Hx & Hy). split; [done|].
    rewrite <-Hnext; [done|]. by eapply lookup_lt_Some.
  - intros [Hi Hj]. exists i, j. split_and!; [done..|]. rewrite Hnext; [done|]. by eapply lookup_lt_Some.
Qed.

Lemma fst_succession schedule : map fst (succession schedule) = schedule.
Proof.
  unfold succession. apply fst_zip. destruct schedule as [|x l]; [done|].
  simpl. rewrite length_app. simpl. lia.
Qed.

Lemma schedule_count n schedule i :
  NoDup (succession schedule) ->
  (forall i j, (i, j) ∈ succession schedule <-> (i < n)%nat /\ (j < n)%nat /\ i <> j) ->
  (i < n)%nat -> length (filter (fun x => x = i) schedule) = (n - 1)%nat.
Proof.
  intros Hnd Hpairs Hi. rewrite <-(others_length n ltac:(lia) i Hi).
  transitivity (length (out_edges (succession schedule) i)).
  { rewrite <-(fst_succession schedule) at 1. unfold out_edges. rewrite length_map.
    generalize (succession schedule). intros E. induction E as [|[a b] E IH]; [done|].
    simpl map. rewrite !filter_cons. simpl. case_decide; simpl; by rewrite IH. }
  apply Permutation_length, NoDup_Permutation.
  - apply NoDup_fmap_2_strong; [|by apply NoDup_filter].
    intros [a b] [a' b'] [Ha _]%list_elem_of_filter [Hb _]%list_elem_of_filter. simpl in *. congruence.
  - apply NoDup_filter, NoDup_seq.
  - intros j. rewrite elem_of_out_edges, Hpairs, list_elem_of_filter, elem_of_seq.
    split; intros; [split; [intros ->|]|]; lia.
Qed.

Section fair.
Context (ids : list PublicKey) (schedule : list nat) (e : FairElector).
Context (He : e = mkFairElector ids schedule) (Hne : schedule <> []).

Lemma fair_leader r :
  get_leader (LE_Fair e) r =
  schedule !! Z.to_nat (r `mod` Z.of_nat (length schedule)) ≫= (fun i => ids !! i).
Proof.
  subst e. simpl. unfold FairElector_get_leader. simpl.
  rewrite cyclic_index_Some by (destruct schedule; simpl; [done|lia]). done.
Qed.

Lemma fair_leaders r :
  0 <= r -> leaders (LE_Fair e) r (length schedule) ≡ₚ map (fun i => ids !! i) schedule.
Proof.
  intros Hr. transitivity (map (fun o => o ≫= (fun i => ids !! i)) (map Some schedule)).
  - rewrite <-(cyclic_window schedule r) by done. unfold leaders. rewrite map_map.
    apply eq_Permutation, map_ext. intros k. apply fair_leader.
  - by rewrite map_map.
Qed.

Lemma fair_count r name i :
  NoDup ids -> 0 <= r -> ids !! i = Some name ->
  length (filter (fun o => o = Some name) (leaders (LE_Fair e) r (length schedule))) =
  length (filter (fun x => x = i) schedule).
Proof.
  intros Hnd Hr Hi. rewrite (fair_leaders r Hr). clear Hne He.
  induction schedule as [|x l IH]; [done|]. simpl map. rewrite !filter_cons.
  destruct (decide (x = i)) as [->|Hx].
  - rewrite decide_True by done. simpl. by rewrite IH.
  - rewrite decide_False; [done|]. intros Hx'. apply Hx. by eapply NoDup_lookup.
Qed.

Lemma fair_succeeds p i j a b :
  succession schedule !! p = Some (i, j) -> ids !! i = Some a -> ids !! j = Some b ->
  forall r, 0 <= r -> r `mod` Z.of_nat (length schedule) = Z.of_nat p ->
  get_leader (LE_Fair e) r = Some a /\ get_leader (LE_Fair e) (r + 1) = Some b.
Proof.
  intros [Hi Hj]%succession_lookup Ha Hb r Hr Hp. rewrite !fair_leader.
  rewrite Hp, Nat2Z.id, Hi. split; [done|].
  rewrite <-Z.add_mod_idemp_l, Hp by (destruct schedule; simpl; [done|lia]).
  replace (Z.of_nat p + 1) with (Z.of_nat (S p)) by lia.
  rewrite <-Nat2Z.inj_mod, Nat2Z.id, Hj. done.
Qed.

Lemma fair_succeeds_inv p i j a b :
  NoDup ids -> ids !! i = Some a -> ids !! j = Some b -> (p < length schedule)%nat ->
  get_leader (LE_Fair e) (Z.of_nat p) = Some a ->
  get_leader (LE_Fair e) (Z.of_nat p + 1) = Some b ->
  succession schedule !! p = Some (i, j).
Proof.
  intros Hnd Ha Hb Hp. replace (Z.of_nat p + 1) with (Z.of_nat (S p)) by lia.
  rewrite !fair_leader, <-!Nat2Z.inj_mod, !Nat2Z.id.
  intros (i' & Hi & Ha')%bind_Some (j' & Hj & Hb')%bind_Some.
  rewrite Nat.mod_small in Hi by done. apply succession_lookup.
  rewrite (NoDup_lookup _ _ _ _ Hnd Ha Ha'), (NoDup_lookup _ _ _ _ Hnd Hb Hb'). done.
Qed.

End fair.

(** C39: the fair-succession elector of a committee of n >= 2 authorities exists
    (the generator stops, its assertion holds) and has the three properties
    its documentation promises: in any n(n-1) consecutive rounds every
    authority leads n-1 times, and for any two distinct authorities a, b there
    is exactly one position of the cycle at which a leads and b succeeds it. *)
Theorem fair_succession {Err} :
  (2 <= committee_size c)%nat -> NoDup (get_public_keys c) ->
  let period := (committee_size c * (committee_size c - 1))%nat in
  exists e, LeaderElector_new (E := Err) FairSuccession c = Ok e /\
    (forall r name, 0 <= r -> name ∈ get_public_keys c ->
       length (filter (fun o => o = Some name) (leaders e r period)) = (committee_size c - 1)%nat) /\
    (forall a b, a ∈ get_public_keys c -> b ∈ get_public_keys c -> a <> b ->
       exists! p, (p < period)%nat /\
         forall r, 0 <= r -> r `mod` Z.of_nat period = Z.of_nat p ->
           get_leader e r = Some a /\ get_leader e (r + 1) = Some b).
Proof.
  intros Hn Hnd period.
  destruct (generate_schedule_circuit (Err := Err) (committee_size c)) as (sch & Hrun & Hlen & Hs & Hpairs);
    [lia|]. fold period in Hlen.
  set (ids := merge_sort key_le (get_public_keys c)).
  assert (Hperm : ids ≡ₚ get_public_keys c) by apply merge_sort_Permutation.
  assert (Hids : NoDup ids) by (by rewrite Hperm).
  assert (Hlookup : forall name, name ∈ get_public_keys c ->
            exists i, ids !! i = Some name /\ (i < committee_size c)%nat).
  { intros name Hin. rewrite <-Hperm in Hin. apply list_elem_of_lookup_1 in Hin as [i Hi].
    exists i. split; [done|]. apply lookup_lt_Some in Hi. rewrite Hperm in Hi.
    unfold get_public_keys in Hi. by rewrite length_map in Hi. }
  assert (Hne : sch <> []) by (intros ->; simpl in Hlen; unfold period in Hlen; nia).
  exists (LE_Fair (mkFairElector ids sch)). split; [|split].
  - cbn [LeaderElector_new]. unfold FairElector_new. by rewrite Hrun.
  - intros r name Hr (i & Hi & Hlt)%Hlookup. rewrite <-Hlen.
    rewrite (fair_count ids sch _ eq_refl Hne r name i) by done. by apply schedule_count.
  - intros a b (i & Ha & Hi)%Hlookup (j & Hb & Hj)%Hlookup Hab.
    assert (Hin : (i, j) ∈ succession sch).
    { apply Hpairs. split_and!; [done..|]. intros ->. congruence. }
    apply list_elem_of_lookup_1 in Hin as [p Hp]. exists p. split.
    + split; [|rewrite <-Hlen; by apply (fair_succeeds ids sch _ eq_refl Hne p i j)].
      rewrite <-Hlen. apply succession_lookup in Hp as [Hp _]. by apply lookup_lt_Some in Hp.
    + intros p' [Hp' Hr]. rewrite <-Hlen in Hp', Hr.
      destruct (Hr (Z.of_nat p')) as [Ha' Hb']; [lia|apply Z.mod_small; lia|].
      apply (NoDup_lookup _ _ _ _ Hs Hp).
      by apply (fair_succeeds_inv ids sch _ eq_refl Hne p' i j a b).
Qed.

(** With a single authority the generated schedule is empty and every
    [get_leader] of the fair-succession elector panics (remainder by zero). *)
Lemma fair_single_authority_panics {Err} :
  committee_size c = 1%nat ->
  exists e, LeaderElector_new (E := Err) FairSuccession c = Ok e /\
    forall r, get_leader e r = None.
Proof.
  intros Hc. cbn [LeaderElector_new]. unfold FairElector_new. rewrite Hc. cbn.
  eexists. split; [reflexivity|]. intros r. reflexivity.
Qed.

End electors.
