(* ===== verification/Store.v ===== *)
(** * The persistent store (src/store/src/lib.rs)

    The task that owns the RocksDB handle serves one command at a time.  The
    database is a parameter with the fallible [get] and [put] of the rocksdb
    crate; a oneshot channel is named by a number, and answering it is an
    output of the step. *)
From S2P Require Import Prelude.

Abbreviation Key := (list Z) (only parsing).
Abbreviation Value := (list Z) (only parsing).

Class RocksDB := {
  Db : Type;
  StoreError : Type;
  db_get : Db -> Key -> StoreError + option Value;
  db_put : Db -> Key -> Value -> Db * option StoreError;
}.

(** A [put] that reports no error is visible to later [get]s; a failed one
    changes nothing. *)
Class RocksDBLaws `{RocksDB} : Prop := {
  db_get_put : forall d d' k v, db_put d k v = (d', None) -> db_get d' k = inr (Some v);
  db_get_put_ne : forall d d' e k k' v,
    db_put d k v = (d', e) -> k <> k' -> db_get d' k' = db_get d k';
  db_put_failed : forall d d' e k v, db_put d k v = (d', Some e) -> d' = d;
}.

Section store.
Context `{Rocks : RocksDB}.

Inductive StoreCommand :=
| SC_Write (key : Key) (value : Value)
| SC_Read (key : Key) (sender : nat)
| SC_NotifyRead (key : Key) (sender : nat).

Inductive StoreReply :=
| SR_Read (sender : nat) (response : StoreError + option Value)
| SR_Notify (sender : nat) (response : StoreError + Value).

Record Store := mkStore {
  st_db : Db;
  st_obligations : gmap Key (list nat);
}.

Definition Store_new (db : Db) : Store := mkStore db ∅.

(** One iteration of the task's loop. *)
Definition store_handle (command : StoreCommand) (s : Store) : Store * list StoreReply :=
  match command with
  | SC_Write key value =>
      let db := (db_put (st_db s) key value).1 in
      match st_obligations s !! key with
      | Some senders =>
          (mkStore db (delete key (st_obligations s)),
           map (fun sender => SR_Notify sender (inr value)) senders)
      | None => (mkStore db (st_obligations s), [])
      end
  | SC_Read key sender => (s, [SR_Read sender (db_get (st_db s) key)])
  | SC_NotifyRead key sender =>
      match db_get (st_db s) key with
      | inr None =>
          (mkStore (st_db s)
             (<[key := default [] (st_obligations s !! key) ++ [sender]]> (st_obligations s)), [])
      | inr (Some v) => (s, [SR_Notify sender (inr v)])
      | inl e => (s, [SR_Notify sender (inl e)])
      end
  end.

(** The replies to a sequence of commands. *)
Fixpoint store_run (commands : list StoreCommand) (s : Store) : Store * list StoreReply :=
  match commands with
  | [] => (s, [])
  | command :: commands' =>
      let '(s1, replies) := store_handle command s in
      let '(s2, replies') := store_run commands' s1 in
      (s2, replies ++ replies')
  end.

(** The client side: [Store::write] and [Store::read] as round trips with a
    live store task. *)
Definition store_write (key : Key) (value : Value) (s : Store) : Store :=
  (store_handle (SC_Write key value) s).1.
Definition store_read (key : Key) (s : Store) : StoreError + option Value :=
  db_get (st_db s) key.

(** The senders waiting for [key]. *)
Definition waiting (key : Key) (s : Store) : list nat := default [] (st_obligations s !! key).

Definition writes (key : Key) (command : StoreCommand) : Prop :=
  exists value, command = SC_Write key value.

Lemma store_read_write `{Laws : !RocksDBLaws} key value s :
  (db_put (st_db s) key value).2 = None ->
  store_read key (store_write key value s) = inr (Some value).
Proof.
  intros Hput. unfold store_read, store_write. simpl.
  destruct (db_put (st_db s) key value) as [db e] eqn:Hp. simpl in Hput. subst e.
  replace (st_db _) with db by by destruct (st_obligations s !! key). by eapply db_get_put.
Qed.

Lemma store_read_write_ne `{Laws : !RocksDBLaws} key key' value s :
  key <> key' -> store_read key' (store_write key value s) = store_read key' s.
Proof.
  intros Hne. unfold store_read, store_write. simpl.
  destruct (db_put (st_db s) key value) as [db e] eqn:Hp. simpl.
  replace (st_db _) with db by by destruct (st_obligations s !! key). by eapply db_get_put_ne.
Qed.

(** While nobody writes [key] its waiters stay, in order, and are not
    answered. *)
Lemma waiting_kept key commands s :
  Forall (fun c => ~ writes key c) commands ->
  waiting key s `prefix_of` waiting key (store_run commands s).1.
Proof.
  intros Hall. revert s. induction Hall as [|c cs Hc _ IH]; intros s; [done|]. cbn [store_run].
  destruct (store_handle c s) as [s1 rs] eqn:Hh. specialize (IH s1).
  destruct (store_run cs s1) as [s2 rs'] eqn:Hr. simpl in *. etrans; [|exact IH]. clear IH Hr.
  unfold waiting. destruct c as [k v|k x|k x]; simpl in Hh.
  - assert (k <> key) by (intros ->; apply Hc; by eexists).
    destruct (st_obligations s !! k); injection Hh as <- <-; simpl; by rewrite ?lookup_delete_ne.
  - by injection Hh as <- <-.
  - destruct (db_get (st_db s) k) as [e|[v|]]; injection Hh as <- <-; simpl; [done..|].
    destruct (decide (k = key)) as [->|Hne]; [|by rewrite lookup_insert_ne].
    rewrite lookup_insert_eq. simpl. by apply prefix_app_r.
Qed.

(** C34: a [notify_read] of a key that is not in the database is answered by the
    next write of that key, with the value written: the commands in between,
    whatever they are, neither drop nor reorder the waiter, and the write
    answers all waiters of the key in the order they asked and forgets them. *)
Theorem notify_read_answered key sender value commands s :
  db_get (st_db s) key = inr None ->
  Forall (fun c => ~ writes key c) commands ->
  let s1 := (store_handle (SC_NotifyRead key sender) s).1 in
  let s2 := (store_run commands s1).1 in
  let s3 := store_handle (SC_Write key value) s2 in
  waiting key s3.1 = [] /\
  (exists later,
     s3.2 = map (fun x => SR_Notify x (inr value)) (waiting key s ++ [sender] ++ later)).
Proof.
  intros Hget Hall s1 s2 s3.
  assert (Hpre : waiting key s ++ [sender] `prefix_of` waiting key s2).
  { etrans; [|apply waiting_kept, Hall]. unfold s1, waiting. simpl. rewrite Hget. simpl.
    by rewrite lookup_insert_eq. }
  destruct Hpre as [later Hw]. unfold waiting in Hw at 1. unfold s3. simpl.
  destruct (st_obligations s2 !! key) as [senders|] eqn:Ho; simpl in Hw |- *.
  - split; [unfold waiting; simpl; by rewrite lookup_delete_eq|].
    exists later. by rewrite Hw, <-app_assoc.
  - by destruct (waiting key s).
Qed.

End store.
