(* ===== verification/Proposer.v ===== *)
(** * The proposer task (src/hydrangea/src/proposer.rs)

    [PrState] holds the fields that the task changes; its outputs are recorded,
    newest first, in [pr_trace].  The handles of a reliable broadcast, which
    stop the retransmission when dropped, are the list of the addresses that
    are still being served. *)
From S2P Require Import Prelude Crypto Config BitVec DagMessages Messages.

Section proposer.
Context `{Prim : Primitives}.

Inductive ProposalTrigger :=
| PT_QC (qc : QC)
| PT_TC (tc : TC).

Inductive ProposerMessage :=
| PM_Propose (trigger : ProposalTrigger)
| PM_Cleanup (r : Round)
| PM_Observed (certificates : list Certificate).

(** What the task hands out: a proposal to the core, and a message to peers. *)
Inductive ProposerEffect :=
| PE_ToCore (p : ProposalMessage)
| PE_Broadcast (addresses : list SocketAddr) (m : ConsensusMessage)
| PE_Hello (addresses : list SocketAddr).

(** The fields fixed at spawn. *)
Record ProposerConfig := mkProposerConfig {
  pc_name : PublicKey;
  pc_consensus_only : bool;
  pc_committee : Committee;
  pc_max_block_delay : Z;
  pc_max_block_size : nat;
  pc_secret : SecretKey;
}.

Record PrState := mkPrState {
  pr_in_progress : gmap Round (list SocketAddr);
  pr_last_proposed : Block;
  pr_request : option ProposalTrigger;
  pr_buffer : list Certificate;
  pr_deadline : Z;
  pr_now : Z;
  pr_trace : list ProposerEffect;
}.

Context (cfg : ProposerConfig).

(** The state at the start of [run], after the connections were opened; the
    timer of [run] is set when it is created. *)
Definition Proposer_spawn (now : Z) : PrState :=
  mkPrState ∅ Block_genesis None [] (now + pc_max_block_delay cfg) now
    [PE_Hello (others_consensus_sockets (pc_committee cfg) (pc_name cfg))].

Definition pr_set_in_progress (x : gmap Round (list SocketAddr)) (s : PrState) : PrState :=
  mkPrState x (pr_last_proposed s) (pr_request s) (pr_buffer s) (pr_deadline s) (pr_now s) (pr_trace s).
Definition pr_set_last_proposed (x : Block) (s : PrState) : PrState :=
  mkPrState (pr_in_progress s) x (pr_request s) (pr_buffer s) (pr_deadline s) (pr_now s) (pr_trace s).
Definition pr_set_request (x : option ProposalTrigger) (s : PrState) : PrState :=
  mkPrState (pr_in_progress s) (pr_last_proposed s) x (pr_buffer s) (pr_deadline s) (pr_now s) (pr_trace s).
Definition pr_set_buffer (x : list Certificate) (s : PrState) : PrState :=
  mkPrState (pr_in_progress s) (pr_last_proposed s) (pr_request s) x (pr_deadline s) (pr_now s) (pr_trace s).
Definition pr_set_deadline (x : Z) (s : PrState) : PrState :=
  mkPrState (pr_in_progress s) (pr_last_proposed s) (pr_request s) (pr_buffer s) x (pr_now s) (pr_trace s).
Definition pr_set_now (x : Z) (s : PrState) : PrState :=
  mkPrState (pr_in_progress s) (pr_last_proposed s) (pr_request s) (pr_buffer s) (pr_deadline s) x (pr_trace s).
Definition pr_emit (e : ProposerEffect) (s : PrState) : PrState :=
  mkPrState (pr_in_progress s) (pr_last_proposed s) (pr_request s) (pr_buffer s) (pr_deadline s) (pr_now s)
    (e :: pr_trace s).

Abbreviation PrM := (Exec PrState unit).

(** [get_payload]: [drain] of the whole buffer, or of its first
    [max_block_size] entries. *)
Definition get_payload : PrM (list Certificate) :=
  if pc_consensus_only cfg then mret (replicate (pc_max_block_size cfg) Certificate_default)
  else
    buffer ← gets pr_buffer;
    if (length buffer <? pc_max_block_size cfg)%nat then
      _ ← modify (pr_set_buffer []);
      mret buffer
    else
      _ ← modify (pr_set_buffer (drop (pc_max_block_size cfg) buffer));
      mret (take (pc_max_block_size cfg) buffer).

Definition record_proposal (b : Block) : PrM unit := modify (pr_set_last_proposed b).

(** The recipients of a proposal. *)
Definition proposal_addresses : list SocketAddr :=
  map (fun x => consensus_to_consensus x.2) (others_consensus (pc_committee cfg) (pc_name cfg)).

(** [send_proposal] *)
Definition send_proposal (p : ProposalMessage) : PrM unit :=
  let addresses := proposal_addresses in
  _ ← modify (pr_emit (PE_Broadcast addresses (CM_Propose p)));
  last ← gets pr_last_proposed;
  modify (fun s => pr_set_in_progress (<[blk_round last := addresses]> (pr_in_progress s)) s).

(** [make_fallback_proposal] *)
Definition make_fallback_proposal (tc : TC) : PrM ProposalMessage :=
  let r := u64_add (tc_round tc) 1 in
  payload ← get_payload;
  b ← expect (Block_new (pc_name cfg) (safe_blk_hash tc) payload r (pc_secret cfg))
        "Failed to receive signature from Signature Service";
  _ ← record_proposal b;
  mret (PM_F (mkFallbackRecoveryProposal b tc)).

(** [make_normal_proposal] *)
Definition make_normal_proposal (parent_qc : QC) : PrM ProposalMessage :=
  let r := u64_add (qc_round parent_qc) 1 in
  payload ← get_payload;
  b ← expect (Block_new (pc_name cfg) (qc_blk_hash parent_qc) payload r (pc_secret cfg))
        "Failed to receive signature from Signature Service";
  _ ← record_proposal b;
  mret (PM_N (mkNormalProposal b parent_qc)).

(** [propose] *)
Definition propose (trigger : ProposalTrigger) : PrM unit :=
  proposal ← match trigger with
             | PT_QC qc => make_normal_proposal qc
             | PT_TC tc => make_fallback_proposal tc
             end;
  _ ← modify (pr_emit (PE_ToCore proposal));
  send_proposal proposal.

(** [cleanup]: dropping the handles of a round stops its retransmission. *)
Definition pr_cleanup (r : Round) : PrM unit :=
  modify (fun s => pr_set_in_progress (filter (fun x => r < x.1) (pr_in_progress s)) s).

(** [observe] *)
Definition observe (certificates : list Certificate) : PrM unit :=
  modify (fun s => pr_set_buffer
    (filter (fun cert => existsb (Certificate_eqb cert) certificates = false) (pr_buffer s)) s).

(** The events of the [select!] of both loops; the timer is one of them. *)
Inductive ProposerEvent :=
| PEv_Mempool (certificate : Certificate)
| PEv_Message (m : ProposerMessage)
| PEv_Timer.

(** The head of the second loop: propose when there is a request and either
    the timer has expired or there is payload. *)
Definition try_propose : PrM unit :=
  now ← gets pr_now;
  deadline ← gets pr_deadline;
  buffer ← gets pr_buffer;
  let timer_expired := deadline <=? now in
  let got_payload := negb (bool_decide (buffer = [])) in
  if timer_expired || got_payload then
    request ← gets pr_request;
    match request with
    | Some trigger =>
        _ ← modify (pr_set_request None);
        _ ← propose trigger;
        modify (fun s => pr_set_deadline (pr_now s + pc_max_block_delay cfg) s)
    | None => mret tt
    end
  else mret tt.

(** One iteration of [run] on an event that arrives at time [now]. *)
Definition Proposer_step (now : Z) (e : ProposerEvent) : PrM unit :=
  if pc_consensus_only cfg then
    _ ← modify (pr_set_now now);
    match e with
    | PEv_Message (PM_Propose trigger) => propose trigger
    | PEv_Message (PM_Cleanup r) => pr_cleanup r
    | PEv_Message (PM_Observed _) | PEv_Mempool _ | PEv_Timer => mret tt
    end
  else
    _ ← try_propose;
    _ ← modify (pr_set_now now);
    match e with
    | PEv_Mempool certificate => modify (fun s => pr_set_buffer (pr_buffer s ++ [certificate]) s)
    | PEv_Message (PM_Propose trigger) => modify (pr_set_request (Some trigger))
    | PEv_Message (PM_Cleanup r) => pr_cleanup r
    | PEv_Message (PM_Observed certificates) => observe certificates
    | PEv_Timer => mret tt
    end.

(** ** What a proposal contains *)
Definition trigger_round (t : ProposalTrigger) : Round :=
  match t with PT_QC qc => qc_round qc | PT_TC tc => tc_round tc end.
Definition proposal_block (p : ProposalMessage) : Block :=
  match p with PM_F f => fp_block f | PM_N n => np_block n end.
Definition proposal_is_well_formed (p : ProposalMessage) : Outcome ConsensusError unit :=
  match p with
  | PM_F f => FallbackRecoveryProposal_is_well_formed (pc_committee cfg) f
  | PM_N n => NormalProposal_is_well_formed (pc_committee cfg) n
  end.

(** [get_payload] takes a prefix of the buffer and leaves the rest, in order. *)
Lemma get_payload_spec s :
  pc_consensus_only cfg = false ->
  get_payload s =
    (pr_set_buffer (drop (pc_max_block_size cfg) (pr_buffer s)) s,
     Ok (take (pc_max_block_size cfg) (pr_buffer s))).
Proof.
  intros Hc. unfold get_payload. rewrite Hc. run.
  destruct (Nat.ltb_spec (length (pr_buffer s)) (pc_max_block_size cfg)) as [Hlt|Hge]; [|reflexivity].
  by rewrite drop_ge, take_ge by lia.
Qed.

Lemma get_payload_Ok s :
  exists payload buffer, get_payload s = (pr_set_buffer buffer s, Ok payload) /\
    (length payload <= pc_max_block_size cfg)%nat /\
    (pc_consensus_only cfg = false -> payload ++ buffer = pr_buffer s).
Proof.
  destruct (pc_consensus_only cfg) eqn:Hc.
  - exists (replicate (pc_max_block_size cfg) Certificate_default), (pr_buffer s).
    unfold get_payload. rewrite Hc. split_and!; [by destruct s| |done]. by rewrite length_replicate.
  - do 2 eexists. split; [by apply get_payload_spec|]. rewrite length_take.
    split; [lia|]. intros _. apply take_drop.
Qed.

Section own_proposals.
Context (Hkey : ed_keypair (pc_secret cfg) (pc_name cfg)).
Context (Hstake : 0 < stake (pc_committee cfg) (pc_name cfg)).

(** C33: a node with voting rights that is asked to propose always does: it
    hands to its core, and broadcasts to all other authorities, one and the
    same proposal, for the round after the trigger's, that passes the
    well-formedness check every receiver performs, carries at most
    [max_block_size] certificates taken from the front of the buffer, and is
    kept in progress under its own round. *)
Theorem propose_is_well_formed trigger s :
  0 <= trigger_round trigger < 2 ^ 64 - 1 ->
  exists s' p, propose trigger s = (s', Ok tt) /\
    proposal_is_well_formed p = Ok tt /\
    blk_author (proposal_block p) = pc_name cfg /\
    blk_round (proposal_block p) = trigger_round trigger + 1 /\
    pr_trace s' =
      PE_Broadcast proposal_addresses (CM_Propose p) :: PE_ToCore p :: pr_trace s /\
    pr_in_progress s' = <[trigger_round trigger + 1 := proposal_addresses]> (pr_in_progress s) /\
    (length (blk_payload (proposal_block p)) <= pc_max_block_size cfg)%nat /\
    (pc_consensus_only cfg = false ->
     blk_payload (proposal_block p) ++ pr_buffer s' = pr_buffer s).
Proof.
  intros Hr. destruct (get_payload_Ok s) as (payload & buffer & Hpay & Hlen & Hbuf).
  assert (Hnext : u64_add (trigger_round trigger) 1 = trigger_round trigger + 1)
    by (apply u64_add_small; lia).
  assert (Hprev : u64_sub (trigger_round trigger + 1) 1 = trigger_round trigger)
    by (rewrite u64_sub_small; lia).
  set (parent := match trigger with PT_QC qc => qc_blk_hash qc | PT_TC tc => safe_blk_hash tc end).
  destruct (Block_new_is_well_formed (pc_committee cfg) (pc_name cfg) parent payload
              (trigger_round trigger + 1) (pc_secret cfg) Hkey Hstake)
    as (b & Hb & Hauth & Hpar & Hpl & Hbr & Hwf).
  set (p := match trigger with
            | PT_QC qc => PM_N (mkNormalProposal b qc)
            | PT_TC tc => PM_F (mkFallbackRecoveryProposal b tc)
            end).
  exists (pr_set_in_progress (<[trigger_round trigger + 1 := proposal_addresses]> (pr_in_progress s))
    (pr_emit (PE_Broadcast proposal_addresses (CM_Propose p)) (pr_emit (PE_ToCore p)
      (pr_set_last_proposed b (pr_set_buffer buffer s))))), p.
  assert (Hblk : proposal_block p = b) by by destruct trigger.
  rewrite Hblk, Hauth, Hbr, Hpl. split_and!; [|destruct trigger; simpl in *|done..].
  - unfold propose. 
    rewrite (run_bind _ _ _ (pr_set_last_proposed b (pr_set_buffer buffer s)) p); cycle 1.
    { unfold make_normal_proposal, make_fallback_proposal.
      unfold parent in Hb; destruct trigger; cbn [trigger_round] in *; rewrite Hnext;
        rewrite (run_bind _ _ _ _ _ Hpay), Hb; runs; reflexivity. }
    unfold send_proposal, p. runs. simpl pr_last_proposed. rewrite Hbr. by destruct trigger.
  - unfold NormalProposal_is_well_formed. simpl. rewrite Hwf. simpl.
    rewrite Hbr, Hprev, Hpar, Z.eqb_refl, bool_decide_true by done. done.
  - unfold FallbackRecoveryProposal_is_well_formed. simpl. rewrite Hwf. simpl.
    rewrite Hbr, Hprev, Hpar, Z.eqb_refl, bool_decide_true by done. done.
Qed.

End own_proposals.

(** Once certificates were observed in a block, none of them is proposed:
    they leave the buffer, and everything else stays in order. *)
Lemma observe_removes certificates s :
  exists s', observe certificates s = (s', Ok tt) /\
    (forall cert, cert ∈ pr_buffer s' <->
       cert ∈ pr_buffer s /\ forall cert', cert' ∈ certificates -> Certificate_eqb cert cert' = false) /\
    pr_buffer s' `sublist_of` pr_buffer s.
Proof.
  eexists. split; [reflexivity|]. split; [|apply sublist_filter].
  intros cert. simpl. rewrite list_elem_of_filter.
  rewrite (and_comm (cert ∈ pr_buffer s)). apply and_iff_compat_r.
  rewrite <-not_true_iff_false, existsb_exists. split.
  - intros Hno cert' Hin. apply not_true_iff_false. intros Heq. apply Hno. exists cert'.
    by rewrite <-list_elem_of_In.
  - intros Hall (cert' & Hin%list_elem_of_In & Heq). by rewrite Hall in Heq.
Qed.

End proposer.
