(* ===== verification/Synchronizer.v ===== *)
(** * The block synchronizer (src/hydrangea/src/synchronizer.rs)

    [sync_get_block] is the method the core calls; [SyncTask] is the state of the
    spawned task, which requests missing blocks from peers and sends blocks
    back to the core once their missing ancestor was stored.  Its outputs are
    recorded newest first. *)
From S2P Require Import Prelude Crypto Config BitVec DagMessages Messages Store.

(** [bincode] of a block; [None] is a decoding error. *)
Class BlockCodec `{Prim : Primitives} := {
  block_encode : Block -> list Z;
  block_decode : list Z -> option Block;
}.
Class BlockCodecLaws `{BlockCodec} : Prop := {
  block_decode_encode : forall b, block_decode (block_encode b) = Some b;
}.

Section synchronizer.
Context `{Prim : Primitives} `{Order : HashIter} `{Rocks : RocksDB} `{Codec : !BlockCodec}.

(** What the task receives: the block to fetch, the peer to ask first, and the
    block to yield once it is here. *)
Record SyncRequest := mkSyncRequest {
  sr_to_sync : Digest;
  sr_server : PublicKey;
  sr_resume_from : option Block;
}.

(** [Synchronizer::get_block]: the block from storage, or a request to the
    task. *)
Definition sync_get_block (digest : Digest) (server : PublicKey) (resume_from : option Block)
    (store : Store) : Outcome ConsensusError (option Block * option SyncRequest) :=
  if decide (digest = qc_blk_hash QC_genesis) then Ok (Some Block_genesis, None)
  else
    match store_read (digest_bytes digest) store with
    | inl _ => Err CE_StoreError
    | inr (Some bytes) =>
        match block_decode bytes with
        | Some b => Ok (Some b, None)
        | None => Err CE_SerializationError
        end
    | inr None => Ok (None, Some (mkSyncRequest digest server resume_from))
    end.

(** ** The task *)
Inductive SyncEffect :=
| SE_Send (address : SocketAddr) (m : ConsensusMessage)
| SE_Broadcast (addresses : list SocketAddr) (m : ConsensusMessage)
| SE_Loopback (resume_from : Block).

Record SyncTask := mkSyncTask {
  sy_waiting : list Digest;
  sy_requests : gmap Digest Z;
  sy_loopbacks : gmap Digest Block;
  sy_trace : list SyncEffect;
}.

Definition SyncTask_new : SyncTask := mkSyncTask [] ∅ ∅ [].

Definition sy_set_waiting (x : list Digest) (s : SyncTask) : SyncTask :=
  mkSyncTask x (sy_requests s) (sy_loopbacks s) (sy_trace s).
Definition sy_set_requests (x : gmap Digest Z) (s : SyncTask) : SyncTask :=
  mkSyncTask (sy_waiting s) x (sy_loopbacks s) (sy_trace s).
Definition sy_set_loopbacks (x : gmap Digest Block) (s : SyncTask) : SyncTask :=
  mkSyncTask (sy_waiting s) (sy_requests s) x (sy_trace s).
Definition sy_emit (e : SyncEffect) (s : SyncTask) : SyncTask :=
  mkSyncTask (sy_waiting s) (sy_requests s) (sy_loopbacks s) (e :: sy_trace s).

Context (name : PublicKey) (committee : Committee) (sync_retry_delay : Z).

Abbreviation SyM := (Exec SyncTask unit).

(** The request branch for a block that was requested before. *)
Definition sync_known_request (to_sync : Digest) (resume_from : option Block) : SyM unit :=
  match resume_from with
  | Some to_yield_new =>
      loopbacks ← gets sy_loopbacks;
      match loopbacks !! to_sync with
      | Some to_yield_old =>
          if blk_round to_yield_old <? blk_round to_yield_new
          then modify (sy_set_loopbacks (<[to_sync := to_yield_new]> loopbacks))
          else mret tt
      | None => modify (sy_set_loopbacks (<[to_sync := to_yield_new]> loopbacks))
      end
  | None => mret tt
  end.

(** The request branch for a new block, at system time [now]. *)
Definition sync_new_request (now : Z) (to_sync : Digest) (server : PublicKey)
    (resume_from : option Block) : SyM unit :=
  _ ← match resume_from with
      | Some to_yield =>
          _ ← modify (fun s => sy_set_requests (delete (digest to_yield) (sy_requests s)) s);
          modify (fun s => sy_set_loopbacks (<[to_sync := to_yield]> (sy_loopbacks s)) s)
      | None => mret tt
      end;
  _ ← modify (fun s => sy_set_waiting (sy_waiting s ++ [to_sync]) s);
  _ ← modify (fun s => sy_set_requests (<[to_sync := now]> (sy_requests s)) s);
  addresses ← expect (match consensus committee server with inr a => Some a | inl _ => None end)
                "Peer specified as server is not in the committee";
  modify (sy_emit (SE_Send (consensus_to_consensus addresses) (CM_SyncRequest to_sync name))).

(** The branch of a completed waiter: the block [requested] was written to
    storage. *)
Definition sync_notified (requested : Digest) : SyM unit :=
  _ ← modify (fun s => sy_set_requests (delete requested (sy_requests s)) s);
  loopbacks ← gets sy_loopbacks;
  match loopbacks !! requested with
  | Some resume_from =>
      _ ← modify (sy_set_loopbacks (delete requested loopbacks));
      modify (sy_emit (SE_Loopback resume_from))
  | None => mret tt
  end.

(** The timer branch: re-broadcast every request that is older than the retry
    delay. *)
Definition sync_retry (now : Z) : SyM unit :=
  requests ← gets sy_requests;
  let expired := filter (fun x => x.2 + sync_retry_delay < now) (hash_iter requests) in
  let addresses := map (fun x => consensus_to_consensus x.2) (others_consensus committee name) in
  modify (fun s => foldl (fun s x => sy_emit (SE_Broadcast addresses (CM_SyncRequest x.1 name)) s)
                     s expired).

Inductive SyncEvent :=
| SyEv_Request (r : SyncRequest)
| SyEv_Waiter (i : nat) (ok : bool)
| SyEv_Timer.

(** One iteration of the loop.  The [i]-th waiter may complete only if it
    exists; it is removed, whether the read succeeded or not. *)
Definition sync_step (now : Z) (e : SyncEvent) : SyM unit :=
  match e with
  | SyEv_Request r =>
      requests ← gets sy_requests;
      if bool_decide (is_Some (requests !! sr_to_sync r))
      then sync_known_request (sr_to_sync r) (sr_resume_from r)
      else sync_new_request now (sr_to_sync r) (sr_server r) (sr_resume_from r)
  | SyEv_Waiter i ok =>
      waiting ← gets sy_waiting;
      match waiting !! i with
      | None => mret tt
      | Some requested =>
          _ ← modify (sy_set_waiting (delete i waiting));
          if ok then sync_notified requested else mret tt
      end
  | SyEv_Timer => sync_retry now
  end.

(** ** Nothing that waits for a block is forgotten *)

(** Every block being requested, and every block a yield depends on, has a
    waiter on the store. *)
Record sync_inv (s : SyncTask) : Prop := {
  sy_requests_waited : forall d, is_Some (sy_requests s !! d) -> d ∈ sy_waiting s;
  sy_loopbacks_waited : forall d, is_Some (sy_loopbacks s !! d) -> d ∈ sy_waiting s;
}.

Lemma sync_inv_new : sync_inv SyncTask_new.
Proof. split; intros d [x Hx]; simpl in Hx; by rewrite lookup_empty in Hx. Qed.

Lemma sync_inv_emit s e : sync_inv s -> sync_inv (sy_emit e s).
Proof. intros [H1 H2]. by split. Qed.

Lemma sync_inv_known to_sync resume s :
  sync_inv s -> is_Some (sy_requests s !! to_sync) ->
  sync_inv (sync_known_request to_sync resume s).1.
Proof.
  intros Hinv Hreq. pose proof (sy_requests_waited _ Hinv _ Hreq) as Hw.
  assert (Hput : forall b, sync_inv (sy_set_loopbacks (<[to_sync := b]> (sy_loopbacks s)) s)).
  { intros b. split; simpl; [apply Hinv|]. intros d [x [[<- _]|[_ Hx]]%lookup_insert_Some]; [done|].
    apply (sy_loopbacks_waited _ Hinv). by eexists. }
  unfold sync_known_request. destruct resume as [b|]; [run|done].
  destruct (sy_loopbacks s !! to_sync); [case_match|]; try apply Hput; done.
Qed.

Lemma sync_inv_new_request now to_sync server resume s :
  sync_inv s -> sync_inv (sync_new_request now to_sync server resume s).1.
Proof.
  intros Hinv. unfold sync_new_request.
  set (s1 := match resume with
             | Some b => sy_set_loopbacks (<[to_sync := b]> (sy_loopbacks s))
                           (sy_set_requests (delete (digest b) (sy_requests s)) s)
             | None => s
             end).
  rewrite (run_bind _ _ s s1 tt) by (by destruct resume). runs.
  set (s2 := sy_set_requests _ _). assert (Hinv2 : sync_inv s2).
  { split; simpl.
    - intros d [x [[<- _]|[_ Hx]]%lookup_insert_Some]; apply elem_of_app; [right; left|left].
      destruct resume as [b|]; simpl in Hx;
        [apply lookup_delete_Some in Hx as [_ Hx]|]; apply (sy_requests_waited _ Hinv); by eexists.
    - intros d [x Hx]. apply elem_of_app. destruct resume as [b|]; simpl in *.
      + apply lookup_insert_Some in Hx as [[<- _]|[_ Hx]]; [right; left|left].
        apply (sy_loopbacks_waited _ Hinv); by eexists.
      + left. apply (sy_loopbacks_waited _ Hinv); by eexists. }
  destruct (consensus committee server); [done|]. by apply sync_inv_emit.
Qed.

Lemma sync_inv_notified i requested s :
  sync_inv s -> sy_waiting s !! i = Some requested ->
  sync_inv (sync_notified requested (sy_set_waiting (delete i (sy_waiting s)) s)).1.
Proof.
  intros Hinv Hi.
  assert (Hkept : forall d, d ∈ sy_waiting s -> d <> requested -> d ∈ delete i (sy_waiting s)).
  { intros d Hd Hne. rewrite (delete_Permutation _ _ _ Hi), elem_of_cons in Hd. by destruct Hd. }
  unfold sync_notified. runs. cbn [sy_loopbacks sy_set_requests sy_set_waiting].
  assert (Hreq : forall d, is_Some (delete requested (sy_requests s) !! d) -> d ∈ delete i (sy_waiting s)).
  { intros d [x [Hne Hx]%lookup_delete_Some]. apply Hkept; [|congruence].
    apply (sy_requests_waited _ Hinv). by eexists. }
  destruct (sy_loopbacks s !! requested) eqn:Hl; runs; cbn [fst modify mret exec_mret exec_ret].
  - apply sync_inv_emit. split; simpl; [apply Hreq|].
    intros d [x [Hne Hx]%lookup_delete_Some]. apply Hkept; [|congruence].
    apply (sy_loopbacks_waited _ Hinv). by eexists.
  - split; simpl; [apply Hreq|]. intros d [x Hx]. apply Hkept; [|congruence].
    apply (sy_loopbacks_waited _ Hinv). by eexists.
Qed.

Lemma foldl_sync_emit (f : Digest * Z -> SyncEffect) l s :
  sync_inv s -> sync_inv (foldl (fun s x => sy_emit (f x) s) s l).
Proof. revert s. induction l as [|x l IH]; intros s Hs; [done|]. simpl. by apply IH, sync_inv_emit. Qed.

(** C35: as long as the store answers, nothing that depends on a missing block
    is forgotten: after any sequence of requests, completed waiters and retry
    timers in which no [notify_read] fails (a failed one leaves a request without
    a waiter), every block still being requested, and every block whose yield to
    the core depends on it, has a waiter on the store. *)
Theorem sync_nothing_forgotten events :
  Forall (fun e => forall i, e.2 <> SyEv_Waiter i false) events ->
  sync_inv (foldl (fun s e => (sync_step e.1 e.2 s).1) SyncTask_new events).
Proof.
  generalize SyncTask_new sync_inv_new. induction events as [|[now e] events IH]; intros s Hs; [done|].
  intros [He Hall]%Forall_cons. simpl. apply IH; [|done]. clear IH Hall. simpl in He.
  destruct e as [[d server resume]|i ok|]; unfold sync_step; runs.
  - case_bool_decide; [by apply sync_inv_known|by apply sync_inv_new_request].
  - destruct (sy_waiting s !! i) as [d|] eqn:Hi; [|done]. runs.
    destruct ok; [by apply sync_inv_notified|]. by destruct (He i).
  - unfold sync_retry. runs. by apply foldl_sync_emit.
Qed.

(** Of several blocks waiting for the same missing block the one with the
    highest round is yielded: while a block is being requested, a request with
    a block to yield leaves one of at least both rounds to be yielded, and when
    the store notifies, exactly that block goes back to the core, once. *)
Lemma sync_yields_highest now server d new old s i :
  is_Some (sy_requests s !! d) -> sy_loopbacks s !! d = Some old -> sy_waiting s !! i = Some d ->
  let s1 := (sync_step now (SyEv_Request (mkSyncRequest d server (Some new))) s).1 in
  let s2 := (sync_step now (SyEv_Waiter i true) s1).1 in
  exists b, (b = old \/ b = new) /\ Z.max (blk_round old) (blk_round new) = blk_round b /\
    sy_trace s2 = SE_Loopback b :: sy_trace s /\
    sy_loopbacks s2 !! d = None /\ sy_requests s2 !! d = None.
Proof.
  intros Hreq Hold Hi s1 s2.
  assert (Hs1 : exists b, (b = old \/ b = new) /\ Z.max (blk_round old) (blk_round new) = blk_round b /\
    sy_loopbacks s1 !! d = Some b /\ sy_trace s1 = sy_trace s /\ sy_waiting s1 = sy_waiting s).
  { unfold s1, sync_step. runs. simpl sr_to_sync. rewrite bool_decide_true by done.
    unfold sync_known_request. simpl sr_resume_from. cbn [sr_to_sync sr_resume_from]. runs. rewrite Hold.
    destruct (Z.ltb_spec (blk_round old) (blk_round new)).
    - exists new. split_and!; [by right|lia|simpl; by rewrite lookup_insert_eq|done..].
    - exists old. split_and!; [by left|lia|done..]. }
  destruct Hs1 as (b & Hb & Hmax & Hl & Ht & Hw). exists b. split; [done|]. split; [done|].
  clearbody s1. unfold s2, sync_step. runs. rewrite Hw, Hi. runs. unfold sync_notified. runs.
  cbn [sy_loopbacks sy_set_requests sy_set_waiting]. rewrite Hl. runs. simpl.
  rewrite Ht, !lookup_delete_eq. done.
Qed.

End synchronizer.
