(* ===== verification/Mempool.v ===== *)
(** * The mempool driver (src/hydrangea/src/mempool.rs) *)
From S2P Require Import Prelude Crypto Config BitVec DagMessages Messages.

Section mempool.
Context `{Prim : Primitives}.

(** [?] through [From<DagError> for ConsensusError]. *)
Definition from_dag {A} (o : Outcome DagError A) : Outcome ConsensusError A :=
  match o with
  | Ok a => Ok a
  | Err e => Err (CE_DagError e)
  | Panicked msg => Panicked msg
  | OutOfFuel => OutOfFuel
  end.

(** [MempoolDriver::verify] *)
Fixpoint verify_payload (c : Committee) (payload : list Certificate)
    : Outcome ConsensusError unit :=
  match payload with
  | [] => Ok tt
  | certificate :: payload' =>
      _ ← from_dag (Certificate_verify c certificate);
      verify_payload c payload'
  end.
Definition mempool_verify (c : Committee) (b : Block) : Outcome ConsensusError unit :=
  verify_payload c (blk_payload b).

End mempool.
