(* ===== verification/Aggregator.v ===== *)
(** * Aggregator: votes and timeouts into certificates
    (src/hydrangea/src/aggregator.rs) *)
From S2P Require Import Prelude Crypto Config BitVec DagMessages Messages.

Section aggregator.
Context `{Prim : Primitives} `{Order : HashIter}.

(** ** QCMaker *)
Record QCMaker := mkQCMaker {
  qm_used : gset PublicKey;
  qm_votes : list (G2 * G1);
  qm_weight : Stake;
  qm_agg_sign : G1;
  qm_pk_bit_vec : list Z;
  qm_is_qc_formed : bool;
}.

Definition QCMaker_new (total_nodes : nat) : QCMaker :=
  mkQCMaker ∅ [] 0 g1_default (full_bits total_nodes) false.

Definition qm_is_valid (m : QCMaker) (vote : Vote) : bool :=
  bool_decide (vote_author vote ∉ qm_used m).

(** [self.used.insert(author); self.votes.push((key, signature))] *)
Definition qm_record (key : G2) (vote : Vote) (m : QCMaker) : QCMaker :=
  mkQCMaker ({[vote_author vote]} ∪ qm_used m) (qm_votes m ++ [(key, vote_signature vote)])
    (qm_weight m) (qm_agg_sign m) (qm_pk_bit_vec m) (qm_is_qc_formed m).
Definition qm_set_bits (bits : list Z) (m : QCMaker) : QCMaker :=
  mkQCMaker (qm_used m) (qm_votes m) (qm_weight m) (qm_agg_sign m) bits (qm_is_qc_formed m).
(** The first vote's signature is the aggregate; later ones are added. *)
Definition qm_add_signature (sig : G1) (m : QCMaker) : QCMaker :=
  let agg :=
    if (length (qm_votes m) =? 1)%nat then sig
    else if (2 <=? length (qm_votes m))%nat then aggregate_sign (qm_agg_sign m) sig
    else qm_agg_sign m in
  mkQCMaker (qm_used m) (qm_votes m) (qm_weight m) agg (qm_pk_bit_vec m) (qm_is_qc_formed m).
Definition qm_set_weight (w : Stake) (m : QCMaker) : QCMaker :=
  mkQCMaker (qm_used m) (qm_votes m) w (qm_agg_sign m) (qm_pk_bit_vec m) (qm_is_qc_formed m).
Definition qm_set_formed (m : QCMaker) : QCMaker :=
  mkQCMaker (qm_used m) (qm_votes m) (qm_weight m) (qm_agg_sign m) (qm_pk_bit_vec m) true.

(** The aggregate check of both branches of [QCMaker::append], and the QC they
    return. *)
Definition qm_make_qc (vote : Vote) (c : Committee) (fast : bool)
    : Exec QCMaker ConsensusError (option QC) :=
  m ← gets id;
  _ ← lift (verify_signers (digest vote) (qm_pk_bit_vec m) (qm_agg_sign m) (committee_size c)
              (sorted_keys c) (combined_pubkey c));
  mret (Some (mkQC (vote_blk_hash vote) (vote_kind vote) (vote_round vote)
                (qm_pk_bit_vec m, qm_agg_sign m) fast)).

(** The threshold tests at the end of [append]. *)
Definition qm_decide (vote : Vote) (c : Committee) (check_fast_threshold : bool)
    : Exec QCMaker ConsensusError (option QC) :=
  w ← gets qm_weight;
  if (bool_decide (vote_kind vote = VT_Normal) && (w =? quorum_threshold c)) ||
     (bool_decide (vote_kind vote = VT_Commit) && (w =? slow_commit_threshold c))
  then
    _ ← (if negb check_fast_threshold then modify qm_set_formed else mret tt);
    qm_make_qc vote c false
  else if bool_decide (vote_kind vote = VT_Normal) && (w =? fast_commit_quorum_threshold c)
  then
    _ ← modify (qm_set_weight 0);
    _ ← modify qm_set_formed;
    qm_make_qc vote c true
  else mret None.

(** The part of [append] that runs while no QC has been formed. *)
Definition qm_count (vote : Vote) (key : G2) (c : Committee) (check_fast_threshold : bool)
    : Exec QCMaker ConsensusError (option QC) :=
  i ← expect (binary_search (sorted_keys c) key) "called `Result::unwrap()` on an `Err` value";
  bits ← gets qm_pk_bit_vec;
  bits' ← expect (clear_signer bits i) "index out of bounds";
  _ ← modify (qm_set_bits bits');
  _ ← modify (qm_add_signature (vote_signature vote));
  _ ← modify (fun m => qm_set_weight (u32_add (qm_weight m) (stake c (vote_author vote))) m);
  qm_decide vote c check_fast_threshold.

(** [QCMaker::append] *)
Definition QCMaker_append (vote : Vote) (c : Committee) (check_fast_threshold : bool)
    : Exec QCMaker ConsensusError (option QC) :=
  key ← expect (get_bls_public_g2 c (vote_author vote))
          "called `Option::unwrap()` on a `None` value";
  valid ← gets (fun m => qm_is_valid m vote);
  if negb valid then mret None
  else
    _ ← lift (Vote_is_well_formed c vote);
    _ ← modify (qm_record key vote);
    formed ← gets qm_is_qc_formed;
    if (formed : bool) then mret None
    else qm_count vote key c check_fast_threshold.

(** ** TCMaker *)
Record TCMaker := mkTCMaker {
  tm_high_qc : QC;
  tm_high_wqc : WQC;
  tm_used : gset PublicKey;
  tm_votes : list (PublicKey * Signature * Round);
  tm_high_votes : list Vote;
  tm_weight : Stake;
}.

Definition TCMaker_new : TCMaker := mkTCMaker QC_genesis WQC_genesis ∅ [] [] 0.

(** [freq_map.entry(hv.round).or_insert_with(Vec::new).push(hv)] for each
    high vote. *)
Definition group_by_round (high_votes : list Vote) : gmap Round (list Vote) :=
  foldl (fun m hv => <[vote_round hv := default [] (m !! vote_round hv) ++ [hv]]> m) ∅ high_votes.

(** The signer loop of [check_wqc]: bit vector, indices and aggregate. *)
Fixpoint wqc_collect (c : Committee) (votes : list Vote) (bits : list Z) (ids : list nat)
    (agg_sign : G1) (first : bool) : Outcome ConsensusError (list Z * list nat * G1) :=
  match votes with
  | [] => Ok (bits, ids, agg_sign)
  | vote :: votes' =>
      key ← expect_o (get_bls_public_g2 c (vote_author vote))
              "called `Option::unwrap()` on a `None` value";
      i ← expect_o (binary_search (sorted_keys c) key)
            "called `Result::unwrap()` on an `Err` value";
      bits' ← expect_o (clear_signer bits i) "index out of bounds";
      wqc_collect c votes' bits' (ids ++ [i])
        (if first then agg_sign else aggregate_sign agg_sign (vote_signature vote)) false
  end.

Definition weak_cert_threshold (c : Committee) : nat :=
  Z.to_nat (u32_add (u32_add (comm_f c) (comm_p c)) 1).

(** [TCMaker::check_wqc] *)
Definition check_wqc (m : TCMaker) (c : Committee) : Outcome ConsensusError (option WQC) :=
  match list_find (fun x => (weak_cert_threshold c <= length x.2)%nat)
          (hash_iter (group_by_round (tm_high_votes m))) with
  | None => Ok None
  | Some (_, (_, votes)) =>
      first_vote ← expect_o (head votes) "index out of bounds";
      '(bits, ids, agg_sign) ←
        wqc_collect c votes (full_bits (Z.to_nat (comm_n c))) [] (vote_signature first_vote) true;
      agg_pk ← expect_o (combine_key_from_ids ids (sorted_keys c)) "index out of bounds";
      last_vote ← expect_o (last votes) "called `Option::unwrap()` on a `None` value";
      if bls_verify (digest_bytes (digest last_vote)) agg_pk agg_sign
      then Ok (Some (mkWQC (vote_blk_hash first_vote) (vote_round first_vote) (bits, agg_sign)))
      else Ok None
  end.

(** The bookkeeping of an accepted timeout, up to the threshold test. *)
Definition tm_record (t : Timeout) (c : Committee) (m : TCMaker) : TCMaker :=
  mkTCMaker
    (if qc_round (tm_high_qc m) <? qc_round (to_high_qc t) then to_high_qc t else tm_high_qc m)
    (if wqc_round (tm_high_wqc m) <? wqc_round (to_high_wqc t)
     then to_high_wqc t else tm_high_wqc m)
    ({[to_author t]} ∪ tm_used m)
    (tm_votes m ++ [(to_author t, to_signature t, qc_round (to_high_qc t))])
    (tm_high_votes m ++ [to_high_vote t])
    (u32_add (tm_weight m) (stake c (to_author t))).
Definition tm_set_high_wqc (w : WQC) (m : TCMaker) : TCMaker :=
  mkTCMaker (tm_high_qc m) w (tm_used m) (tm_votes m) (tm_high_votes m) (tm_weight m).
(** [if let Some(wqc) = self.check_wqc(..) { if wqc.round > .. { .. } }] *)
Definition tm_raise_wqc (wqc : option WQC) (m : TCMaker) : TCMaker :=
  match wqc with
  | Some w => if wqc_round (tm_high_wqc m) <? wqc_round w then tm_set_high_wqc w m else m
  | None => m
  end.

(** [TCMaker::append] *)
Definition TCMaker_append (t : Timeout) (c : Committee)
    : Exec TCMaker ConsensusError (Stake * option TC) :=
  used ← gets tm_used;
  if bool_decide (to_author t ∈ used) then w ← gets tm_weight; mret (w, None)
  else
    _ ← lift (Timeout_is_well_formed c t);
    _ ← modify (tm_record t c);
    m ← gets id;
    if view_change_threshold c <=? tm_weight m then
      wqc ← lift (check_wqc m c);
      _ ← modify (tm_raise_wqc wqc);
      m' ← gets id;
      mret (tm_weight m',
            Some (mkTC (tm_high_qc m') (tm_high_wqc m') (to_round t) (tm_votes m')))
    else mret (tm_weight m, None).

(** ** Aggregator *)
Record Aggregator := mkAggregator {
  ag_committee : Committee;
  ag_votes : gmap Round (gmap Digest QCMaker);
  ag_commits : gmap Round QCMaker;
  ag_timeouts : gmap Round TCMaker;
}.

Definition Aggregator_new (c : Committee) : Aggregator := mkAggregator c ∅ ∅ ∅.

(** The makers that [entry(..).or_insert_with(..)] yields. *)
Definition ag_vote_maker (a : Aggregator) (r : Round) (d : Digest) : QCMaker :=
  default (QCMaker_new (Z.to_nat (comm_n (ag_committee a)))) (default ∅ (ag_votes a !! r) !! d).
Definition ag_commit_maker (a : Aggregator) (r : Round) : QCMaker :=
  default (QCMaker_new (Z.to_nat (comm_n (ag_committee a)))) (ag_commits a !! r).
Definition ag_timeout_maker (a : Aggregator) (r : Round) : TCMaker :=
  default TCMaker_new (ag_timeouts a !! r).
Definition ag_put_vote_maker (r : Round) (d : Digest) (m : QCMaker) (a : Aggregator) : Aggregator :=
  mkAggregator (ag_committee a) (<[r := <[d := m]> (default ∅ (ag_votes a !! r))]> (ag_votes a))
    (ag_commits a) (ag_timeouts a).
Definition ag_put_commit_maker (r : Round) (m : QCMaker) (a : Aggregator) : Aggregator :=
  mkAggregator (ag_committee a) (ag_votes a) (<[r := m]> (ag_commits a)) (ag_timeouts a).
Definition ag_put_timeout_maker (r : Round) (m : TCMaker) (a : Aggregator) : Aggregator :=
  mkAggregator (ag_committee a) (ag_votes a) (ag_commits a) (<[r := m]> (ag_timeouts a)).

Definition add_normal_vote (vote : Vote) : Exec Aggregator ConsensusError (option QC) :=
  c ← gets ag_committee;
  zoom (fun a => ag_vote_maker a (vote_round vote) (vote_blk_hash vote))
       (ag_put_vote_maker (vote_round vote) (vote_blk_hash vote))
       (QCMaker_append vote c true).

Definition add_commit_vote (vote : Vote) : Exec Aggregator ConsensusError (option QC) :=
  c ← gets ag_committee;
  zoom (fun a => ag_commit_maker a (vote_round vote)) (ag_put_commit_maker (vote_round vote))
       (QCMaker_append vote c false).

Definition add_timeout (t : Timeout) : Exec Aggregator ConsensusError (Stake * option TC) :=
  c ← gets ag_committee;
  zoom (fun a => ag_timeout_maker a (to_round t)) (ag_put_timeout_maker (to_round t))
       (TCMaker_append t c).

(** [retain(|block_round, _| block_round > r)] *)
Definition cleanup_prepares (r : Round) (a : Aggregator) : Aggregator :=
  mkAggregator (ag_committee a) (filter (fun x => r < x.1) (ag_votes a))
    (filter (fun x => r < x.1) (ag_commits a)) (ag_timeouts a).
Definition cleanup_timeouts (r : Round) (a : Aggregator) : Aggregator :=
  mkAggregator (ag_committee a) (ag_votes a) (ag_commits a)
    (filter (fun x => r < x.1) (ag_timeouts a)).

(** ** What the makers return *)
Lemma verify_signers_ends d bits sig size keys combined :
  ends_o (fun _ => True) (verify_signers d bits sig size keys combined).
Proof.
  unfold verify_signers. eapply ends_o_bind; [apply ends_o_expect|intros ids _].
  eapply ends_o_bind; [apply ends_o_expect|intros pk _]. by destruct (bls_verify _ _ _).
Qed.

Definition qc_of (vote : Vote) (qc : option QC) : Prop :=
  forall q, qc = Some q ->
    qc_kind q = vote_kind vote /\ qc_round q = vote_round vote /\ qc_blk_hash q = vote_blk_hash vote.

Lemma qm_make_qc_ends vote c fast : ends (qc_of vote) (qm_make_qc vote c fast).
Proof.
  unfold qm_make_qc. eapply ends_bind; [apply ends_gets|intros m _].
  eapply ends_bind; [apply ends_lift, verify_signers_ends|intros _ _].
  apply ends_ret. by intros q [= <-].
Qed.

Lemma qm_decide_ends vote c cf : ends (qc_of vote) (qm_decide vote c cf).
Proof.
  unfold qm_decide. eapply ends_bind; [apply ends_gets|intros w _]. case_match.
  - eapply (ends_bind (fun _ => True)); [by destruct cf|intros _ _]. apply qm_make_qc_ends.
  - case_match; [|by apply ends_ret].
    do 2 (eapply ends_bind; [apply ends_modify|intros _ _]). apply qm_make_qc_ends.
Qed.

Lemma QCMaker_append_ends vote c cf : ends (qc_of vote) (QCMaker_append vote c cf).
Proof.
  unfold QCMaker_append. eapply ends_bind; [apply ends_expect|intros key _].
  eapply ends_bind; [apply ends_gets|intros valid _]. case_match; [by apply ends_ret|].
  eapply (ends_bind (fun _ => True)).
  { apply ends_lift. unfold Vote_is_well_formed. by destruct (0 <? _). }
  intros _ _. eapply ends_bind; [apply ends_modify|intros _ _].
  eapply ends_bind; [apply ends_gets|intros formed _]. case_match; [by apply ends_ret|].
  unfold qm_count. eapply ends_bind; [apply ends_expect|intros i _].
  eapply ends_bind; [apply ends_gets|intros bits _].
  eapply ends_bind; [apply ends_expect|intros bits' _].
  do 3 (eapply ends_bind; [apply ends_modify|intros _ _]). apply qm_decide_ends.
Qed.

Lemma ends_zoom {S T E A} (get : S -> T) put (P : A -> Prop) (m : Exec T E A) :
  ends P m -> ends P (zoom get put m).
Proof. intros Hm s. unfold zoom. specialize (Hm (get s)). by destruct (m (get s)). Qed.

Lemma add_normal_vote_ends vote : ends (qc_of vote) (add_normal_vote vote).
Proof.
  unfold add_normal_vote. eapply ends_bind; [apply ends_gets|intros c _].
  apply ends_zoom, QCMaker_append_ends.
Qed.
Lemma add_commit_vote_ends vote : ends (qc_of vote) (add_commit_vote vote).
Proof.
  unfold add_commit_vote. eapply ends_bind; [apply ends_gets|intros c _].
  apply ends_zoom, QCMaker_append_ends.
Qed.

Lemma wqc_collect_ends c votes bits ids agg first :
  ends_o (fun _ => True) (wqc_collect c votes bits ids agg first).
Proof.
  revert bits ids agg first. induction votes as [|v votes IH]; intros bits ids agg first; [done|].
  cbn [wqc_collect]. do 3 (eapply ends_o_bind; [apply ends_o_expect|intros ? _]). apply IH.
Qed.
Lemma check_wqc_ends m c : ends_o (fun _ => True) (check_wqc m c).
Proof.
  unfold check_wqc. destruct (list_find _ _) as [[i [r votes]]|]; [|done].
  eapply ends_o_bind; [apply ends_o_expect|intros first_vote _].
  eapply ends_o_bind; [apply wqc_collect_ends|intros [[bits ids] agg] _].
  do 2 (eapply ends_o_bind; [apply ends_o_expect|intros ? _]). by destruct (bls_verify _ _ _).
Qed.

Definition tc_of (t : Timeout) (x : Stake * option TC) : Prop :=
  forall tc, x.2 = Some tc -> tc_round tc = to_round t.

Lemma QC_is_well_formed_ends c qc : ends_o (fun _ => True) (QC_is_well_formed c qc).
Proof. unfold QC_is_well_formed. case_match; [done|]. apply verify_signers_ends. Qed.

Lemma TC_is_well_formed_ends c tc : ends_o (fun _ => True) (TC_is_well_formed c tc).
Proof.
  assert (Hv : forall votes hq used w, ends_o (fun _ => True) (TC_check_votes c hq votes used w)).
  { induction votes as [|[[name sig] r] votes IH]; intros hq used w; [done|]. cbn [TC_check_votes].
    do 3 (eapply ends_o_bind; [apply ends_o_ensure|intros _ _]). apply IH. }
  assert (Hs : forall r votes, ends_o (fun _ => True) (TC_check_signatures r votes)).
  { intros r. induction votes as [|[[name sig] r'] votes IH]; [done|]. cbn [TC_check_signatures].
    eapply ends_o_bind; [apply ends_o_ensure|intros _ _]. apply IH. }
  unfold TC_is_well_formed. eapply ends_o_bind; [apply Hv|intros w _].
  eapply ends_o_bind; [apply ends_o_ensure|intros _ _]. apply Hs.
Qed.

Lemma Timeout_is_well_formed_ends c t : ends_o (fun _ => True) (Timeout_is_well_formed c t).
Proof.
  unfold Timeout_is_well_formed, Timeout_author_is_authorised.
  eapply (ends_o_bind (fun _ => True)); [by destruct (0 <? _)|intros _ _].
  eapply (ends_o_bind (fun _ => True)); [by destruct (Signature_verify _ _ _)|intros _ _].
  case_match; [done|]. apply QC_is_well_formed_ends.
Qed.

Lemma TCMaker_append_ends t c : ends (tc_of t) (TCMaker_append t c).
Proof.
  unfold TCMaker_append. eapply ends_bind; [apply ends_gets|intros used _]. case_match.
  { eapply ends_bind; [apply ends_gets|intros w _]. by apply ends_ret. }
  eapply ends_bind; [apply ends_lift, Timeout_is_well_formed_ends|intros _ _].
  eapply ends_bind; [apply ends_modify|intros _ _]. eapply ends_bind; [apply ends_gets|intros m _].
  case_match; [|by apply ends_ret].
  eapply ends_bind; [apply ends_lift, check_wqc_ends|intros wqc _].
  eapply ends_bind; [apply ends_modify|intros _ _]. eapply ends_bind; [apply ends_gets|intros m' _].
  apply ends_ret. by intros tc [= <-].
Qed.
Lemma add_timeout_ends t : ends (tc_of t) (add_timeout t).
Proof.
  unfold add_timeout. eapply ends_bind; [apply ends_gets|intros c _].
  apply ends_zoom, TCMaker_append_ends.
Qed.

End aggregator.
