(* ===== verification/AggregatorProps.v ===== *)
(** * AggregatorProps: what the makers of [Aggregator] guarantee

    [qm_inv] relates a [QCMaker] to the list of votes it has accepted;
    the [QCMaker_append_...] lemmas describe one call of [append] on every
    branch.  The theorems derive from them that every QC handed out passes the
    verification that peers run and carries exactly the threshold it claims,
    and that valid votes always end in a QC. *)
From S2P Require Import Prelude Crypto Config BitVec DagMessages Messages Signers Aggregator.

(** ** QCMaker *)
Section qc_maker.
Context `{Prim : Primitives} {Laws : G2Laws}.
Context (c : Committee) (Hc : committee_wf c) (n : nat) (Hn : (committee_size c <= n)%nat).
Context (Hstake : forall name, 0 <= stake c name).
Context (Htotal : set_weight (stake c) (list_to_set (get_public_keys c)) < 2 ^ 32).

Implicit Types (m : QCMaker) (vs : list Vote) (vote : Vote).

Definition authors vs : list PublicKey := map vote_author vs.

(** The aggregate of the signatures of a list of votes, in order. *)
Definition agg_signature vs : option G1 :=
  match vs with
  | [] => None
  | v :: vs' => Some (foldl (fun acc v => aggregate_sign acc (vote_signature v))
                        (vote_signature v) vs')
  end.

(** Bits, weight and aggregate of a maker that has accepted [vs] and is still
    collecting. *)
Definition qm_open m vs : Prop :=
  exists ids, mapM (key_index c) (authors vs) = Some ids /\
    clear_signers (full_bits n) ids = Some (qm_pk_bit_vec m) /\
    qm_weight m = list_weight (stake c) (authors vs) /\
    (vs <> [] -> agg_signature vs = Some (qm_agg_sign m)).

Record qm_inv m vs : Prop := {
  qi_used : qm_used m = list_to_set (authors vs);
  qi_nodup : NoDup (authors vs);
  qi_stake : Forall (fun v => 0 < stake c (vote_author v)) vs;
  qi_votes : length (qm_votes m) = length vs;
  qi_open : qm_is_qc_formed m = false -> qm_open m vs;
}.

Lemma QCMaker_new_inv : qm_inv (QCMaker_new n) [].
Proof.
  split; simpl; [done|constructor|constructor|done|]. intros _. by exists [].
Qed.

Lemma agg_signature_snoc vs v s :
  agg_signature vs = Some s ->
  agg_signature (vs ++ [v]) = Some (aggregate_sign s (vote_signature v)).
Proof. destruct vs as [|v0 vs]; simpl; [done|]. intros [= <-]. by rewrite foldl_app. Qed.

Lemma authors_snoc vs v : authors (vs ++ [v]) = authors vs ++ [vote_author v].
Proof. apply map_app. Qed.

(** Accepted authors are distinct members, so their stake cannot overflow. *)
Lemma authors_weight vs :
  NoDup (authors vs) -> Forall (fun v => 0 < stake c (vote_author v)) vs ->
  list_weight (stake c) (authors vs) = set_weight (stake c) (list_to_set (authors vs)) /\
  0 <= list_weight (stake c) (authors vs) < 2 ^ 32.
Proof. intros Hnd Hst. apply voters_weight; [done..|]. by apply Forall_map. Qed.

(** The state after a counted vote: [record], then bits, signature, weight. *)
Definition qm_counted (key : G2) (bits : list Z) vote m : QCMaker :=
  let m1 := qm_add_signature (vote_signature vote) (qm_set_bits bits (qm_record key vote m)) in
  qm_set_weight (u32_add (qm_weight m1) (stake c (vote_author vote))) m1.

Lemma qm_counted_inv m vs vote key i bits :
  qm_inv m vs -> qm_is_qc_formed m = false ->
  vote_author vote ∉ authors vs -> 0 < stake c (vote_author vote) ->
  get_bls_public_g2 c (vote_author vote) = Some key ->
  binary_search (sorted_keys c) key = Some i ->
  clear_signer (qm_pk_bit_vec m) i = Some bits ->
  qm_inv (qm_counted key bits vote m) (vs ++ [vote]).
Proof.
  intros Hinv Hf Hnew Hst Hkey Hi Hbits. destruct (qi_open _ _ Hinv Hf) as (ids & Hids & Hb & Hw & Ha).
  assert (Hnd : NoDup (authors (vs ++ [vote]))).
  { rewrite authors_snoc. apply NoDup_app. split_and!; [apply Hinv| |apply NoDup_singleton].
    intros x Hx ->%list_elem_of_singleton. done. }
  assert (Hst' : Forall (fun v => 0 < stake c (vote_author v)) (vs ++ [vote])).
  { apply Forall_app. split; [apply Hinv|]. by constructor. }
  split; [|done|done| |intros _].
  - simpl. rewrite (qi_used _ _ Hinv), authors_snoc, list_to_set_app_L. simpl. set_solver.
  - simpl. rewrite !length_app. simpl. by rewrite (qi_votes _ _ Hinv).
  - exists (ids ++ [i]). split_and!.
    + rewrite authors_snoc. apply mapM_Some, Forall2_app; [by apply mapM_Some|].
      constructor; [|constructor]. unfold key_index. by rewrite Hkey.
    + simpl. by rewrite (clear_signers_snoc _ _ _ _ Hb).
    + destruct (authors_weight _ Hnd Hst') as [_ Hlt]. rewrite authors_snoc, list_weight_snoc in *.
      simpl. rewrite Hw. by rewrite u32_add_small.
    + intros _. simpl. rewrite length_app, (qi_votes _ _ Hinv). simpl.
      destruct vs as [|v0 vs']; [done|].
      rewrite (agg_signature_snoc (v0 :: vs') _ (qm_agg_sign m)) by (by apply Ha).
      simpl. replace (length vs' + 1)%nat with (S (length vs')) by lia. done.
Qed.

(** A maker that has formed its QC only records further voters. *)
Lemma qm_record_inv m vs vote key :
  qm_inv m vs -> qm_is_qc_formed m = true ->
  vote_author vote ∉ authors vs -> 0 < stake c (vote_author vote) ->
  qm_inv (qm_record key vote m) (vs ++ [vote]).
Proof.
  intros Hinv Hf Hnew Hst. split; simpl.
  - rewrite (qi_used _ _ Hinv), authors_snoc, list_to_set_app_L. simpl. set_solver.
  - rewrite authors_snoc. apply NoDup_app. split_and!; [apply Hinv| |apply NoDup_singleton].
    intros x Hx ->%list_elem_of_singleton. done.
  - apply Forall_app. split; [apply Hinv|]. by constructor.
  - rewrite !length_app. simpl. by rewrite (qi_votes _ _ Hinv).
  - congruence.
Qed.

Lemma qm_set_formed_inv m vs w :
  qm_inv m vs -> qm_inv (qm_set_formed (qm_set_weight w m)) vs.
Proof. intros []. by split. Qed.

Lemma qm_set_formed_inv' m vs : qm_inv m vs -> qm_inv (qm_set_formed m) vs.
Proof. intros []. by split. Qed.

(** The threshold tests of [append]. *)
Definition slow_hit vote (w : Z) : bool :=
  (bool_decide (vote_kind vote = VT_Normal) && (w =? quorum_threshold c)) ||
  (bool_decide (vote_kind vote = VT_Commit) && (w =? slow_commit_threshold c)).
Definition fast_hit vote (w : Z) : bool :=
  bool_decide (vote_kind vote = VT_Normal) && (w =? fast_commit_quorum_threshold c).

(** Whether the aggregate of [vs] verifies for the message of [vote]. *)
Definition shares_verify vs vote : bool :=
  match mapM (key_index c) (authors vs) ≫= (fun ids => combine_key_from_ids ids (sorted_keys c)),
        agg_signature vs with
  | Some pk, Some s => bls_verify (digest_bytes (digest vote)) pk s
  | _, _ => false
  end.

Lemma verify_signers_open m vs vote :
  qm_open m vs -> NoDup (authors vs) -> vs <> [] ->
  verify_signers (digest vote) (qm_pk_bit_vec m) (qm_agg_sign m) (committee_size c)
    (sorted_keys c) (combined_pubkey c) = ensure_o (shares_verify vs vote) CE_InvalidBlsSign.
Proof.
  intros (ids & Hids & Hb & _ & Ha) Hnd Hne.
  destruct (key_indices_NoDup c Hc _ _ Hnd Hids) as [Hnd' Hlt].
  destruct (verify_signers_spec c Hc n ids _ (digest vote) (qm_agg_sign m) Hb Hn Hnd')
    as (pk & Hpk & ->); [|done|].
  - intros ->. apply length_mapM in Hids. unfold authors in Hids. rewrite length_map in Hids.
    by destruct vs.
  - unfold shares_verify. rewrite Hids. simpl. by rewrite Hpk, (Ha Hne).
Qed.

(** The state and the result of a counted vote. *)
Definition qm_after_count vote (cf : bool) (w : Z) (m1 : QCMaker) : QCMaker :=
  if slow_hit vote w then (if cf then m1 else qm_set_formed m1)
  else if fast_hit vote w then qm_set_formed (qm_set_weight 0 m1)
  else m1.
Definition qm_result vs vote (m1 : QCMaker) (w : Z) : Outcome ConsensusError (option QC) :=
  let qc := mkQC (vote_blk_hash vote) (vote_kind vote) (vote_round vote)
              (qm_pk_bit_vec m1, qm_agg_sign m1) in
  if slow_hit vote w || fast_hit vote w then
    if shares_verify vs vote then Ok (Some (qc (negb (slow_hit vote w))))
    else Err CE_InvalidBlsSign
  else Ok None.

Lemma QCMaker_append_unknown m vote cf :
  vote_author vote ∉ get_public_keys c ->
  exists msg, QCMaker_append vote c cf m = (m, Panicked msg).
Proof.
  intros Hun. unfold QCMaker_append.
  destruct (get_bls_public_g2 c (vote_author vote)) as [k|] eqn:Hk; [|by eexists].
  exfalso. apply Hun, get_bls_public_g2_Some. by eexists.
Qed.

Lemma QCMaker_append_duplicate m vs vote cf :
  qm_inv m vs -> vote_author vote ∈ authors vs ->
  QCMaker_append vote c cf m = (m, Ok None).
Proof.
  intros Hinv Hdup.
  assert (Hmem : vote_author vote ∈ get_public_keys c).
  { apply list_elem_of_In, in_map_iff in Hdup as (v & <- & Hv).
    pose proof (qi_stake _ _ Hinv) as Hst. rewrite Forall_forall in Hst.
    by apply stake_pos_member, Hst, list_elem_of_In. }
  apply get_bls_public_g2_Some in Hmem as [k Hk].
  unfold QCMaker_append. rewrite Hk. cbn -[qm_is_valid].
  unfold mbind, exec_mbind, exec_bind. simpl. unfold qm_is_valid.
  rewrite bool_decide_eq_false_2; [done|]. rewrite (qi_used _ _ Hinv). set_solver.
Qed.

Lemma QCMaker_append_no_stake m vote cf :
  vote_author vote ∈ get_public_keys c -> vote_author vote ∉ qm_used m ->
  stake c (vote_author vote) = 0 ->
  QCMaker_append vote c cf m = (m, Err (CE_UnknownAuthority (vote_author vote))).
Proof.
  intros [k Hk]%get_bls_public_g2_Some Hnew Hz. unfold QCMaker_append. rewrite Hk.
  unfold mbind, exec_mbind, exec_bind. simpl. unfold qm_is_valid.
  rewrite bool_decide_eq_true_2 by done. simpl. unfold Vote_is_well_formed. by rewrite Hz.
Qed.

Lemma qm_decide_run m1 vs vote cf :
  qm_open m1 vs -> NoDup (authors vs) -> vs <> [] ->
  let w := list_weight (stake c) (authors vs) in
  qm_decide vote c cf m1 = (qm_after_count vote cf w m1, qm_result vs vote m1 w).
Proof.
  intros Hopen Hnd Hne w. pose proof (verify_signers_open _ _ vote Hopen Hnd Hne) as Hver.
  assert (Hw : qm_weight m1 = w) by by destruct Hopen as (? & _ & _ & ? & _).
  unfold qm_decide, qm_after_count, qm_result, mbind, exec_mbind, exec_bind. simpl.
  rewrite Hw. fold (slow_hit vote w). fold (fast_hit vote w).
  unfold qm_make_qc, mbind, exec_mbind, exec_bind.
  destruct (slow_hit vote w), (fast_hit vote w), cf; simpl; try done;
    rewrite Hver; by destruct (shares_verify vs vote).
Qed.

(** An accepted vote, on a maker that is still collecting. *)
Lemma QCMaker_append_counted m vs vote cf :
  qm_inv m vs -> qm_is_qc_formed m = false ->
  vote_author vote ∉ authors vs -> 0 < stake c (vote_author vote) ->
  exists m1, qm_inv m1 (vs ++ [vote]) /\ qm_open m1 (vs ++ [vote]) /\
    qm_is_qc_formed m1 = false /\
    let w := list_weight (stake c) (authors (vs ++ [vote])) in
    QCMaker_append vote c cf m =
      (qm_after_count vote cf w m1, qm_result (vs ++ [vote]) vote m1 w).
Proof.
  intros Hinv Hf Hnew Hst.
  destruct (key_index_member c Hc (vote_author vote)) as (key & i & Hkey & Hi & _ & Hlt).
  { by apply stake_pos_member. }
  destruct (qi_open _ _ Hinv Hf) as (ids & _ & Hb & _).
  destruct (clear_signer_is_Some (qm_pk_bit_vec m) i) as [bits Hbits].
  { rewrite (clear_signers_length _ _ _ Hb). pose proof (length_full_bits n). lia. }
  pose proof (qm_counted_inv m vs vote key i bits Hinv Hf Hnew Hst Hkey Hi Hbits) as Hinv1.
  exists (qm_counted key bits vote m). split; [done|].
  assert (Hopen : qm_open (qm_counted key bits vote m) (vs ++ [vote]))
    by by apply (qi_open _ _ Hinv1).
  split_and!; [done|done|]. cbn zeta.
  rewrite <-(qm_decide_run _ (vs ++ [vote]) vote cf); [|done|apply Hinv1|by destruct vs].
  unfold QCMaker_append. rewrite Hkey. unfold mbind, exec_mbind, exec_bind. simpl.
  unfold qm_is_valid. rewrite bool_decide_eq_true_2 by (rewrite (qi_used _ _ Hinv); set_solver).
  simpl. unfold Vote_is_well_formed. rewrite (proj2 (Z.ltb_lt _ _) Hst). simpl. rewrite Hf.
  unfold qm_count, mbind, exec_mbind, exec_bind. rewrite Hi. simpl. by rewrite Hbits.
Qed.

(** An accepted vote, on a maker whose QC is formed. *)
Lemma QCMaker_append_formed m vs vote cf :
  qm_inv m vs -> qm_is_qc_formed m = true ->
  vote_author vote ∉ authors vs -> 0 < stake c (vote_author vote) ->
  exists m1, qm_inv m1 (vs ++ [vote]) /\ qm_is_qc_formed m1 = true /\
    QCMaker_append vote c cf m = (m1, Ok None).
Proof.
  intros Hinv Hf Hnew Hst.
  destruct (key_index_member c Hc (vote_author vote)) as (key & i & Hkey & _).
  { by apply stake_pos_member. }
  exists (qm_record key vote m). split_and!; [by apply qm_record_inv|done|].
  unfold QCMaker_append. rewrite Hkey. unfold mbind, exec_mbind, exec_bind. simpl.
  unfold qm_is_valid. rewrite bool_decide_eq_true_2 by (rewrite (qi_used _ _ Hinv); set_solver).
  simpl. unfold Vote_is_well_formed. rewrite (proj2 (Z.ltb_lt _ _) Hst). simpl. by rewrite Hf.
Qed.

(** Every call of [append] keeps the invariant, accepting at most its vote. *)
Lemma QCMaker_append_inv m vs vote cf :
  qm_inv m vs ->
  exists vs', qm_inv (QCMaker_append vote c cf m).1 vs' /\ (vs' = vs \/ vs' = vs ++ [vote]).
Proof.
  intros Hinv.
  destruct (decide (vote_author vote ∈ get_public_keys c)) as [Hmem|Hmem];
    [|destruct (QCMaker_append_unknown m vote cf Hmem) as [msg ->]; eauto].
  destruct (decide (vote_author vote ∈ authors vs)) as [Hdup|Hnew];
    [rewrite (QCMaker_append_duplicate m vs) by done; eauto|].
  destruct (decide (stake c (vote_author vote) = 0)) as [Hz|Hz].
  { rewrite QCMaker_append_no_stake; [eauto|done| |done].
    rewrite (qi_used _ _ Hinv). set_solver. }
  assert (Hst : 0 < stake c (vote_author vote)) by (specialize (Hstake (vote_author vote)); lia).
  exists (vs ++ [vote]). split; [|by right].
  destruct (qm_is_qc_formed m) eqn:Hf.
  - by destruct (QCMaker_append_formed m vs vote cf Hinv Hf Hnew Hst) as (m1 & ? & _ & ->).
  - destruct (QCMaker_append_counted m vs vote cf Hinv Hf Hnew Hst) as (m1 & ? & _ & _ & ->).
    simpl. unfold qm_after_count.
    repeat case_match; auto using qm_set_formed_inv, qm_set_formed_inv'.
Qed.

(** The accepted voters as a set. *)
Lemma authors_members m vs : qm_inv m vs -> list_to_set (authors vs) ⊆ Quorums.members c.
Proof.
  intros Hinv x. unfold Quorums.members. rewrite !elem_of_list_to_set.
  intros (v & -> & Hv)%list_elem_of_fmap.
  pose proof (qi_stake _ _ Hinv) as Hst. rewrite Forall_forall in Hst.
  by apply stake_pos_member, Hst.
Qed.
Lemma authors_set_weight m vs :
  qm_inv m vs -> Quorums.weight c (list_to_set (authors vs)) = list_weight (stake c) (authors vs).
Proof. intros Hinv. unfold Quorums.weight. by rewrite set_weight_list_to_set by apply Hinv. Qed.

(** The threshold a certificate claims to carry. *)
Definition vote_threshold (k : VoteType) : Z :=
  match k with VT_Normal => quorum_threshold c | VT_Commit => slow_commit_threshold c end.
Definition qc_threshold (qc : QC) : Z :=
  if qc_fast_quorum qc then fast_commit_quorum_threshold c else vote_threshold (qc_kind qc).

(** A vote that yields a QC was accepted, and the QC is the one of its message
    with the bits and the aggregate of all the votes accepted so far. *)
Lemma QCMaker_append_Some m vs vote cf m' qc :
  qm_inv m vs -> QCMaker_append vote c cf m = (m', Ok (Some qc)) ->
  qm_inv m' (vs ++ [vote]) /\ 
  qc_blk_hash qc = vote_blk_hash vote /\ qc_kind qc = vote_kind vote /\
  qc_round qc = vote_round vote /\
  list_weight (stake c) (authors (vs ++ [vote])) = qc_threshold qc /\
  QC_is_well_formed c qc = Ok tt /\ shares_verify (vs ++ [vote]) vote = true /\
  (vote_kind vote = VT_Commit -> qc_fast_quorum qc = false).
Proof.
  intros Hinv Happ.
  destruct (decide (vote_author vote ∈ get_public_keys c)) as [Hmem|Hmem];
    [|destruct (QCMaker_append_unknown m vote cf Hmem) as [msg ?]; congruence].
  destruct (decide (vote_author vote ∈ authors vs)) as [Hdup|Hnew];
    [rewrite (QCMaker_append_duplicate m vs) in Happ by done; congruence|].
  destruct (decide (stake c (vote_author vote) = 0)) as [Hz|Hz].
  { rewrite QCMaker_append_no_stake in Happ; [congruence|done| |done].
    rewrite (qi_used _ _ Hinv). set_solver. }
  assert (Hst : 0 < stake c (vote_author vote)) by (specialize (Hstake (vote_author vote)); lia).
  destruct (qm_is_qc_formed m) eqn:Hf.
  { destruct (QCMaker_append_formed m vs vote cf Hinv Hf Hnew Hst) as (m1 & _ & _ & ?). congruence. }
  destruct (QCMaker_append_inv m vs vote cf Hinv) as (vs' & Hinv' & _).
  destruct (QCMaker_append_counted m vs vote cf Hinv Hf Hnew Hst) as (m1 & Hinv1 & Hopen & _ & Hrun).
  pose proof (verify_signers_open _ _ vote Hopen (qi_nodup _ _ Hinv1)) as Hver.
  rewrite Hrun in Happ. injection Happ as <- Hres. unfold qm_result in Hres.
  destruct (slow_hit vote _ || fast_hit vote _) eqn:Hhit; [|done].
  destruct (shares_verify _ vote) eqn:Hshares; [|done]. injection Hres as <-.
  split.
  { unfold qm_after_count. repeat case_match; auto using qm_set_formed_inv, qm_set_formed_inv'. }
  split_and!; [done..| | |done|].
  - unfold qc_threshold. cbn [qc_fast_quorum qc_kind]. unfold slow_hit, fast_hit in *.
    destruct (vote_kind vote); simpl in *; repeat case_match; simpl in *; lia.
  - unfold QC_is_well_formed. cbn [qc_round qc_votes fst snd]. destruct (_ =? 0); [done|].
    apply Hver. by destruct vs.
  - intros Hk. simpl. unfold fast_hit in Hhit. rewrite Hk, orb_false_r in Hhit. by rewrite Hhit.
Qed.

(** C21: a QC that a maker hands out is for the message of the last vote, passes
    [QC::is_well_formed] at every peer, and rests on distinct committee members
    whose total stake is exactly the threshold the QC claims (quorum for a
    normal QC, slow-commit for a commit QC, fast-commit for a fast one). *)
Theorem QCMaker_append_sound m vs vote cf m' qc :
  qm_inv m vs -> QCMaker_append vote c cf m = (m', Ok (Some qc)) ->
  qc_blk_hash qc = vote_blk_hash vote /\ qc_kind qc = vote_kind vote /\
  qc_round qc = vote_round vote /\ QC_is_well_formed c qc = Ok tt /\
  exists U : gset PublicKey, U = list_to_set (authors (vs ++ [vote])) /\
    U ⊆ Quorums.members c /\ Quorums.weight c U = qc_threshold qc.
Proof.
  intros Hinv Happ.
  destruct (QCMaker_append_Some _ _ _ _ _ _ Hinv Happ) as (Hinv' & ? & ? & ? & Hw & ? & _).
  split_and!; [done..|]. eexists. split_and!; [done| |].
  - by apply (authors_members m').
  - by rewrite (authors_set_weight m').
Qed.

End qc_maker.

(** ** Valid shares aggregate *)
Section liveness.
Context `{Prim : Primitives} {Laws : G2Laws} {Bls : BlsLaws}.
Context (c : Committee) (Hc : committee_wf c) (n : nat) (Hn : (committee_size c <= n)%nat).
Context (Hstake : forall name, 0 <= stake c name).
Context (Htotal : set_weight (stake c) (list_to_set (get_public_keys c)) < 2 ^ 32).
Implicit Types (vs : list Vote) (vote : Vote).

(** The share of a vote verifies under the key of its author for [d]. *)
Definition share_valid (d : Digest) vote : Prop :=
  share_ok c d (vote_author vote, vote_signature vote).

Lemma agg_signature_fold vs : agg_signature vs = fold_signatures (map vote_signature vs).
Proof.
  destruct vs as [|v vs]; [done|]. simpl. f_equal. generalize (vote_signature v).
  induction vs as [|v' vs IH]; intros s; [done|]. simpl. apply IH.
Qed.

Lemma shares_verify_valid vs vote ids :
  vs <> [] -> Forall (share_valid (digest vote)) vs ->
  mapM (key_index c) (authors vs) = Some ids -> shares_verify c vs vote = true.
Proof.
  intros Hne Hall Hids.
  set (xs := map (fun v => (vote_author v, vote_signature v)) vs).
  destruct (shares_combine c Hc (digest vote) xs ids) as (pk & s & Hpk & Hs & Hv).
  - by destruct vs.
  - by apply Forall_map.
  - unfold xs. by rewrite map_map.
  - unfold shares_verify. rewrite Hids. simpl. rewrite Hpk, agg_signature_fold.
    unfold xs in Hs. rewrite map_map in Hs. change (fold_signatures (map vote_signature vs) = Some s) in Hs.
    by rewrite Hs.
Qed.

(** Feeding votes to a maker one after the other; the result of the last. *)
Fixpoint append_all (cf : bool) vs (m : QCMaker) : QCMaker * Outcome ConsensusError (option QC) :=
  match vs with
  | [] => (m, Ok None)
  | [v] => QCMaker_append v c cf m
  | v :: vs' => append_all cf vs' (QCMaker_append v c cf m).1
  end.

Lemma append_all_snoc cf vs v m :
  append_all cf (vs ++ [v]) m = QCMaker_append v c cf (append_all cf vs m).1.
Proof.
  revert m. induction vs as [|v0 vs IH]; intros m; [done|].
  change ((v0 :: vs) ++ [v]) with (v0 :: (vs ++ [v])).
  transitivity (append_all cf (vs ++ [v]) (QCMaker_append v0 c cf m).1).
  { by destruct vs. }
  rewrite IH. by destruct vs.
Qed.

Lemma list_weight_ones vs :
  Forall (fun v => stake c (vote_author v) = 1) vs ->
  list_weight (stake c) (authors vs) = Z.of_nat (length vs).
Proof. induction 1 as [|x l Hx _ IH]; simpl; [done|]. fold (authors l). rewrite Hx. lia. Qed.

(** Valid votes of stake one and of one kind. *)
Record countable kd vs : Prop := {
  cn_nodup : NoDup (authors vs);
  cn_stake : Forall (fun v => stake c (vote_author v) = 1) vs;
  cn_kind : Forall (fun v => vote_kind v = kd) vs;
}.
Lemma countable_snoc kd vs v :
  countable kd (vs ++ [v]) ->
  countable kd vs /\ vote_author v ∉ authors vs /\ stake c (vote_author v) = 1 /\ vote_kind v = kd.
Proof.
  intros [Hnd [H1 [Hv1 _]%Forall_cons]%Forall_app [Hk [Hkv _]%Forall_cons]%Forall_app].
  rewrite authors_snoc in Hnd. apply NoDup_app in Hnd as (Hnd & Hnew & _).
  split_and!; [done| |done..]. intros Hin. apply (Hnew _ Hin). left.
Qed.

(** Weights at which no certificate is made. *)
Definition no_hit kd (w : Z) : Prop :=
  match kd with
  | VT_Normal => w <> quorum_threshold c /\ w <> fast_commit_quorum_threshold c
  | VT_Commit => w <> slow_commit_threshold c
  end.
Lemma below_no_hit kd w :
  (kd = VT_Normal -> quorum_threshold c <= fast_commit_quorum_threshold c) ->
  w < vote_threshold c kd -> no_hit kd w.
Proof. clear Hn. destruct kd; simpl; [lia|]. intros Hqf Hw. specialize (Hqf eq_refl). lia. Qed.

(** The ways a vote that is the first of its author ends, on an open maker. *)
Section one_vote.
Context (kd : VoteType) (cf : bool) (m : QCMaker) (vs : list Vote) (v : Vote).
Context (Hcn : countable kd (vs ++ [v])).
Context (Hinv : qm_inv c n m vs) (Hf : qm_is_qc_formed m = false).

Lemma append_open :
  exists m1 ids, qm_inv c n m1 (vs ++ [v]) /\ qm_is_qc_formed m1 = false /\ vote_kind v = kd /\
    mapM (key_index c) (authors (vs ++ [v])) = Some ids /\
    QCMaker_append v c cf m =
      (qm_after_count c v cf (Z.of_nat (length (vs ++ [v]))) m1, qm_result c (vs ++ [v]) v m1 (Z.of_nat (length (vs ++ [v])))).
Proof.
  destruct (countable_snoc _ _ _ Hcn) as (_ & Hnew & H1 & Hk).
  destruct (QCMaker_append_counted c Hc n Hn Hstake Htotal m vs v cf Hinv Hf Hnew)
    as (m1 & Hinv1 & (ids & Hids & _) & Hf1 & Happ); [by rewrite H1|].
  rewrite (list_weight_ones _ (cn_stake _ _ Hcn)) in Happ. by exists m1, ids.
Qed.

Lemma append_collecting :
  no_hit kd (Z.of_nat (length (vs ++ [v]))) ->
  exists m1, QCMaker_append v c cf m = (m1, Ok None) /\ qm_inv c n m1 (vs ++ [v]) /\
    qm_is_qc_formed m1 = false.
Proof.
  intros Hno. destruct append_open as (m1 & ids & Hinv1 & Hf1 & Hk & _ & ->). exists m1.
  unfold qm_after_count, qm_result.
  assert (slow_hit c v (Z.of_nat (length (vs ++ [v]))) = false /\
          fast_hit c v (Z.of_nat (length (vs ++ [v]))) = false) as [-> ->]; [|done].
  unfold slow_hit, fast_hit. rewrite Hk. destruct kd; simpl in *; lia.
Qed.

Context (Hval : Forall (share_valid (digest v)) (vs ++ [v])).

(** The plain certificate; a maker that looks out for a fast quorum stays open. *)
Lemma append_completing :
  Z.of_nat (length (vs ++ [v])) = vote_threshold c kd ->
  exists m1 qc, QCMaker_append v c cf m = (m1, Ok (Some qc)) /\
    (cf = true -> qm_inv c n m1 (vs ++ [v]) /\ qm_is_qc_formed m1 = false) /\
    qc_blk_hash qc = vote_blk_hash v /\ qc_round qc = vote_round v /\
    qc_kind qc = kd /\ qc_fast_quorum qc = false.
Proof.
  intros Hlen. destruct append_open as (m1 & ids & Hinv1 & Hf1 & Hk & Hids & ->). rewrite Hlen. unfold qm_after_count, qm_result.
  assert (slow_hit c v (vote_threshold c kd) = true) as ->.
  { unfold slow_hit. rewrite Hk. destruct kd; simpl; by rewrite Z.eqb_refl. }
  simpl. rewrite (shares_verify_valid (vs ++ [v]) v ids) by (done || by destruct vs).
  do 2 eexists. split; [done|]. split; [by intros ->|]. simpl. by rewrite Hk.
Qed.

(** The fast certificate. *)
Lemma append_fast :
  kd = VT_Normal -> quorum_threshold c < fast_commit_quorum_threshold c ->
  Z.of_nat (length (vs ++ [v])) = fast_commit_quorum_threshold c ->
  exists m1 qc, QCMaker_append v c cf m = (m1, Ok (Some qc)) /\
    qc_blk_hash qc = vote_blk_hash v /\ qc_round qc = vote_round v /\
    qc_kind qc = kd /\ qc_fast_quorum qc = true.
Proof.
  intros Hkd Hqf Hlen. destruct append_open as (m1 & ids & _ & _ & Hk & Hids & ->). rewrite Hlen. unfold qm_after_count, qm_result.
  assert (slow_hit c v (fast_commit_quorum_threshold c) = false /\ fast_hit c v (fast_commit_quorum_threshold c) = true)
    as [-> ->] by (unfold slow_hit, fast_hit; rewrite Hk, Hkd; simpl; lia).
  simpl. rewrite (shares_verify_valid (vs ++ [v]) v ids) by (done || by destruct vs).
  do 2 eexists. split; [done|]. simpl. by rewrite Hk.
Qed.
End one_vote.

(** Below the quorum the maker stays open and keeps every vote. *)
Lemma append_all_collect kd cf vs :
  (kd = VT_Normal -> quorum_threshold c <= fast_commit_quorum_threshold c) ->
  countable kd vs -> Z.of_nat (length vs) < vote_threshold c kd ->
  qm_inv c n (append_all cf vs (QCMaker_new n)).1 vs /\
  qm_is_qc_formed (append_all cf vs (QCMaker_new n)).1 = false.
Proof.
  intros Hqf. induction vs as [|v vs IH] using rev_ind; intros Hcn Hlen.
  { split; [apply QCMaker_new_inv|done]. }
  destruct (countable_snoc _ _ _ Hcn) as [Hcn' _].
  destruct IH as [Hinv Hf]; [done|rewrite length_app in Hlen; simpl in Hlen; lia|]. rewrite append_all_snoc.
  by destruct (append_collecting kd cf _ vs v Hcn Hinv Hf (below_no_hit _ _ Hqf Hlen)) as (m1 & -> & ? & ?).
Qed.

(** Votes with valid shares from distinct authorities of stake one always end
    in a QC: in whatever order they arrive, the one that reaches the threshold of
    their kind makes [append] return the QC of this kind for the voted block. *)
Lemma valid_votes_make_qc kd cf vs v :
  countable kd (vs ++ [v]) -> Forall (share_valid (digest v)) (vs ++ [v]) ->
  (kd = VT_Normal -> quorum_threshold c <= fast_commit_quorum_threshold c) ->
  Z.of_nat (length (vs ++ [v])) = vote_threshold c kd ->
  exists qc, (append_all cf (vs ++ [v]) (QCMaker_new n)).2 = Ok (Some qc) /\
    qc_blk_hash qc = vote_blk_hash v /\ qc_round qc = vote_round v /\
    qc_kind qc = kd /\ qc_fast_quorum qc = false.
Proof.
  intros Hcn Hval Hqf Hlen. destruct (countable_snoc _ _ _ Hcn) as [Hcn' _].
  destruct (append_all_collect kd cf vs Hqf Hcn') as [Hinv Hf].
  { rewrite length_app in Hlen. simpl in Hlen. lia. }
  rewrite append_all_snoc.
  destruct (append_completing kd cf _ vs v Hcn Hinv Hf Hval Hlen) as (m1 & qc & -> & _ & Hqc). by exists qc.
Qed.

End liveness.

(** ** TCMaker *)
Section tc_maker.
Context `{Prim : Primitives} `{Order : HashIter}.
Context (c : Committee) (r : Round).
Context (Hstake : forall name, 0 <= stake c name).
Context (Htotal : set_weight (stake c) (list_to_set (get_public_keys c)) < 2 ^ 32).
Implicit Types (m : TCMaker) (t : Timeout).

(** A maker for round [r]: every recorded entry would pass the checks of a TC
    with the maker's high QC, and the weight is that of the entries. *)
Record tm_inv m : Prop := {
  ti_used : tm_used m = list_to_set (tc_names (tm_votes m));
  ti_nodup : NoDup (tc_names (tm_votes m));
  ti_votes : Forall (fun v => v.2 <= qc_round (tm_high_qc m) /\ 0 < stake c v.1.1 /\
    Signature_verify v.1.2 (hash32 (timeout_preimage v.2 r)) v.1.1 = true) (tm_votes m);
  ti_weight : tm_weight m = list_weight (stake c) (tc_names (tm_votes m));
}.

Lemma TCMaker_new_inv : tm_inv TCMaker_new.
Proof. split; simpl; [done|constructor|constructor|done]. Qed.

Lemma tc_names_weight (votes : list (PublicKey * Signature * Round)) :
  NoDup (tc_names votes) -> Forall (fun v => 0 < stake c v.1.1) votes ->
  list_weight (stake c) (tc_names votes) = set_weight (stake c) (list_to_set (tc_names votes)) /\
  0 <= list_weight (stake c) (tc_names votes) < 2 ^ 32.
Proof.
  intros Hnd Hst. rewrite <-set_weight_list_to_set by done. split; [done|].
  split; [by apply set_weight_nonneg|]. eapply Z.le_lt_trans; [|exact Htotal].
  apply set_weight_mono; [done|]. intros x. rewrite !elem_of_list_to_set.
  intros (v & -> & Hv)%list_elem_of_fmap. rewrite Forall_forall in Hst. by apply stake_pos_member, Hst.
Qed.

Lemma Timeout_well_formed_Ok t :
  Timeout_is_well_formed c t = Ok tt ->
  0 < stake c (to_author t) /\
  Signature_verify (to_signature t) (hash32 (timeout_preimage (qc_round (to_high_qc t)) (to_round t)))
    (to_author t) = true.
Proof.
  unfold Timeout_is_well_formed, Timeout_author_is_authorised.
  intros (b & (u & Hst%ensure_o_Ok%Z.ltb_lt & _)%outcome_bind_Ok & Hrest)%outcome_bind_Ok.
  apply outcome_bind_Ok in Hrest as (u' & Hsig%ensure_o_Ok & _). done.
Qed.

Lemma tm_record_inv t m :
  tm_inv m -> to_round t = r -> to_author t ∉ tm_used m ->
  Timeout_is_well_formed c t = Ok tt -> tm_inv (tm_record t c m).
Proof.
  intros Hinv Hr Hnew (Hst & Hsig)%Timeout_well_formed_Ok. destruct Hinv as [Hu Hnd Hv Hw].
  rewrite Hu, elem_of_list_to_set in Hnew. rewrite Hr in Hsig.
  assert (Hnames : tc_names (tm_votes m ++ [(to_author t, to_signature t, qc_round (to_high_qc t))]) =
            tc_names (tm_votes m) ++ [to_author t]) by apply map_app.
  assert (Hnd' : NoDup (tc_names (tm_votes m) ++ [to_author t])).
  { apply NoDup_app. split; [done|]. split; [set_solver|apply NoDup_singleton]. }
  assert (Hv' : Forall (fun v => v.2 <= qc_round (tm_high_qc (tm_record t c m)) /\ 0 < stake c v.1.1 /\
    Signature_verify v.1.2 (hash32 (timeout_preimage v.2 r)) v.1.1 = true) (tm_votes (tm_record t c m))).
  { simpl. apply Forall_app. split.
    - eapply Forall_impl; [exact Hv|]. simpl. intros v (Hle & ? & ?). split_and!; [|done..].
      destruct (Z.ltb_spec (qc_round (tm_high_qc m)) (qc_round (to_high_qc t))); lia.
    - constructor; [|done]. simpl. split_and!; [|done..].
      destruct (Z.ltb_spec (qc_round (tm_high_qc m)) (qc_round (to_high_qc t))); lia. }
  split; [|by simpl; rewrite Hnames|done|].
  - simpl. rewrite Hnames, list_to_set_app_L, Hu. simpl. set_solver.
  - simpl. rewrite Hnames, Hw, list_weight_snoc. apply u32_add_small.
    rewrite <-list_weight_snoc, <-Hnames. apply tc_names_weight; [by rewrite Hnames|].
    simpl in Hv'. eapply Forall_impl; [exact Hv'|]. by intros v (_ & ? & _).
Qed.

Lemma tm_raise_inv w m : tm_inv m -> tm_inv (tm_raise_wqc w m).
Proof.
  intros Hinv. unfold tm_raise_wqc. destruct w as [w|]; [|done]. case_match; [|done].
  by destruct Hinv.
Qed.

Lemma TCMaker_append_inv t m :
  tm_inv m -> to_round t = r -> tm_inv (TCMaker_append t c m).1.
Proof.
  intros Hinv Hr. unfold TCMaker_append. run. case_bool_decide as Hused; [done|].
  destruct (Timeout_is_well_formed c t) as [[]|e|msg|] eqn:Hwf; try done. runs.
  pose proof (tm_record_inv t m Hinv Hr Hused Hwf) as Hrec.
  case_match; [|done]. unfold id. destruct (check_wqc (tm_record t c m) c); try done. runs.
  by apply tm_raise_inv.
Qed.

(** What [append] hands out is for the round and passes the checks of a TC. *)
Lemma TCMaker_append_tc t m m' w tc :
  quorum_threshold c <= view_change_threshold c ->
  tm_inv m -> to_round t = r -> TCMaker_append t c m = (m', Ok (w, Some tc)) ->
  tc_round tc = r /\ TC_is_well_formed c tc = Ok tt.
Proof.
  intros Hthr Hinv Hr. unfold TCMaker_append. run. case_bool_decide as Hused; [done|].
  destruct (Timeout_is_well_formed c t) as [[]|e|msg|] eqn:Hwf; try done. runs.
  pose proof (tm_record_inv t m Hinv Hr Hused Hwf) as Hrec. unfold id. set (m1 := tm_record t c m) in *.
  destruct (Z.leb_spec (view_change_threshold c) (tm_weight m1)) as [Hle|]; [|done].
  destruct (check_wqc m1 c) as [wqc|e|msg|]; try done. runs. intros [= _ _ <-].
  assert (Hraise : tm_votes (tm_raise_wqc wqc m1) = tm_votes m1 /\
                   tm_high_qc (tm_raise_wqc wqc m1) = tm_high_qc m1).
  { unfold tm_raise_wqc. destruct wqc; [|done]. by case_match. }
  destruct Hraise as [Hvotes Hqc]. split; [done|]. destruct Hrec as [_ Hnd Hv Hw].
  apply TC_is_well_formed_spec; [done..|]. simpl. rewrite Hvotes. split_and!; [done| |].
  - unfold tc_vote_ok. simpl. by rewrite Hqc, Hr.
  - destruct (tc_names_weight (tm_votes m1) Hnd) as [<- _]; [|lia].
    eapply Forall_impl; [exact Hv|]. by intros v (_ & ? & _).
Qed.

(** C22: a timeout certificate that a node assembles is accepted by everybody: if
    the view-change threshold is at least the quorum threshold, as
    [Committee::new] makes it, every TC that [TCMaker::append] returns passes
    [TC::is_well_formed], for whatever timeouts came before. *)
Theorem assembled_tc_is_well_formed t m m' w tc :
  quorum_threshold c <= view_change_threshold c ->
  tm_inv m -> to_round t = r -> TCMaker_append t c m = (m', Ok (w, Some tc)) ->
  tc_round tc = r /\ TC_is_well_formed c tc = Ok tt.
Proof. apply TCMaker_append_tc. Qed.

End tc_maker.

(** *** The weak certificate of a TC *)
Section weak_certificate.
Context `{Prim : Primitives} `{Order : HashIter}.
Context (c : Committee).
Implicit Types (m : TCMaker) (t : Timeout) (ts : list Timeout) (tc : TC).

(** A maker that has counted [ts], in this order. *)
Inductive gathers : list Timeout -> TCMaker -> Prop :=
| ga_new : gathers [] TCMaker_new
| ga_append ts t m :
    gathers ts m -> to_author t ∉ tm_used m -> Timeout_is_well_formed c t = Ok tt ->
    gathers (ts ++ [t]) (TCMaker_append t c m).1.
(** The TC that [append] returns for the last of [ts]. *)
Definition assembled ts tc : Prop :=
  exists ts' t m m' w, ts = ts' ++ [t] /\ gathers ts' m /\ TCMaker_append t c m = (m', Ok (w, Some tc)).
(** What [check_wqc] makes of the votes that [ts] report. *)
Definition reported_wqc ts : Outcome ConsensusError (option WQC) :=
  check_wqc (mkTCMaker QC_genesis WQC_genesis ∅ [] (map to_high_vote ts) 0) c.

Record counts ts m : Prop := {
  cs_votes : tm_high_votes m = map to_high_vote ts;
  cs_wqcs : Forall (fun t => wqc_round (to_high_wqc t) <= wqc_round (tm_high_wqc m)) ts;
}.

Lemma counts_record ts t m : counts ts m -> counts (ts ++ [t]) (tm_record t c m).
Proof.
  intros [Hv Hw]. split; simpl; [by rewrite Hv, map_app|].
  apply Forall_app. split; [eapply Forall_impl; [exact Hw|]; intros t' Ht'|constructor; [|constructor]];
    destruct (Z.ltb_spec (wqc_round (tm_high_wqc m)) (wqc_round (to_high_wqc t))); simpl in *; lia.
Qed.
Lemma counts_raise ts o m :
  counts ts m ->
  counts ts (tm_raise_wqc o m) /\ forall wqc, o = Some wqc -> wqc_round wqc <= wqc_round (tm_high_wqc (tm_raise_wqc o m)).
Proof.
  intros [Hv Hw]. destruct o as [wqc|]; [|done]. simpl.
  destruct (Z.ltb_spec (wqc_round (tm_high_wqc m)) (wqc_round wqc)); cycle 1.
  { split; [done|]. intros ? [= <-]. done. }
  split; [split; [done|]|intros ? [= <-]; done]. eapply Forall_impl; [exact Hw|]. simpl. lia.
Qed.
Lemma check_wqc_reported ts m : counts ts m -> check_wqc m c = reported_wqc ts.
Proof. intros [Hv _]. unfold reported_wqc, check_wqc. simpl. by rewrite Hv. Qed.

Lemma gathers_counts ts m : gathers ts m -> counts ts m.
Proof.
  induction 1 as [|ts t m _ IH Hnew Hwf]; [by split|].
  unfold TCMaker_append. run. rewrite bool_decide_false, Hwf by done. runs.
  pose proof (counts_record ts t m IH) as Hrec. unfold id.
  case_match; [|done]. destruct (check_wqc (tm_record t c m) c); try done. runs. by apply counts_raise.
Qed.

(** The weak certificate of an assembled TC is as new as any that its timeouts
    carry, or that their votes make. *)
Lemma assembled_wqc ts tc :
  assembled ts tc ->
  Forall (fun t => wqc_round (to_high_wqc t) <= wqc_round (tc_high_wqc tc)) ts /\
  forall wqc, reported_wqc ts = Ok (Some wqc) -> wqc_round wqc <= wqc_round (tc_high_wqc tc).
Proof.
  intros (ts' & t & m & m' & w & -> & Hm%gathers_counts & Happ). revert Happ.
  unfold TCMaker_append. run. case_bool_decide; [done|].
  destruct (Timeout_is_well_formed c t) as [[]|e|msg|]; try done. runs. unfold id.
  pose proof (counts_record ts' t m Hm) as Hrec. rewrite (check_wqc_reported _ _ Hrec).
  case_match; [|done]. destruct (reported_wqc (ts' ++ [t])) as [o|e|msg|]; try done. runs.
  intros [= _ _ <-]. simpl. destruct (counts_raise _ o _ Hrec) as [[_ Hw] Ho].
  split; [exact Hw|]. intros wqc [= ->]. by apply Ho.
Qed.
End weak_certificate.
