(* ===== verification/Agreement.v ===== *)
(** * Agreement: what the aggregators of different nodes agree on

    The invariant of a whole [Aggregator] (its makers hold only votes for the
    message they are filed under), the agreement of the QCs that any two nodes
    assemble, and the timeout certificates that [TCMaker] hands out. *)
From S2P Require Import Prelude Crypto Config BitVec DagMessages Messages Signers Aggregator AggregatorProps.

Section agreement.
Context `{Prim : Primitives} `{Order : HashIter} {Laws : G2Laws}.
Context (c : Committee) (Hc : committee_wf c).
Context (Hn : (committee_size c <= Z.to_nat (comm_n c))%nat).
Context (Hstake : forall name, 0 <= stake c name).
Context (Htotal : set_weight (stake c) (list_to_set (get_public_keys c)) < 2 ^ 32).
Implicit Types (a : Aggregator) (v : Vote) (vs : list Vote) (r : Round) (d : Digest).

(** ** Runs of an aggregator *)
Inductive AggOp :=
| Op_normal (v : Vote)
| Op_commit (v : Vote)
| Op_timeout (t : Timeout)
| Op_cleanup_prepares (r : Round)
| Op_cleanup_timeouts (r : Round).

Definition agg_apply (o : AggOp) a : Aggregator :=
  match o with
  | Op_normal v => (add_normal_vote v a).1
  | Op_commit v => (add_commit_vote v a).1
  | Op_timeout t => (add_timeout t a).1
  | Op_cleanup_prepares r => cleanup_prepares r a
  | Op_cleanup_timeouts r => cleanup_timeouts r a
  end.
Definition agg_run (ops : list AggOp) : Aggregator :=
  foldl (fun a o => agg_apply o a) (Aggregator_new c) ops.
Definition normal_votes (ops : list AggOp) : list Vote :=
  omap (fun o => match o with Op_normal v => Some v | _ => None end) ops.

(** [seen]: the votes that were added; the maker of round [r] and block [d]
    has accepted only votes among them, for that round and block. *)
Record ag_inv (seen : list Vote) a : Prop := {
  ai_committee : ag_committee a = c;
  ai_votes : forall r d, exists vs, qm_inv c (Z.to_nat (comm_n c)) (ag_vote_maker a r d) vs /\
    Forall (fun v => vote_round v = r /\ vote_blk_hash v = d /\ v ∈ seen) vs;
}.

Lemma ag_inv_new : ag_inv [] (Aggregator_new c).
Proof. split; [done|]. intros r d. exists []. split; [apply QCMaker_new_inv|constructor]. Qed.

Lemma ag_inv_mono seen seen' a : seen ⊆ seen' -> ag_inv seen a -> ag_inv seen' a.
Proof.
  intros Hs [H1 H2]. split; [done|]. intros r d. destruct (H2 r d) as (vs & Hq & Hall).
  exists vs. split; [done|]. eapply Forall_impl; [exact Hall|]. simpl. set_solver.
Qed.

(** An aggregator whose vote makers are those of another, or fresh. *)
Lemma ag_inv_same seen a a' :
  ag_committee a' = ag_committee a ->
  (forall r d, ag_vote_maker a' r d = ag_vote_maker a r d \/
               ag_vote_maker a' r d = QCMaker_new (Z.to_nat (comm_n c))) ->
  ag_inv seen a -> ag_inv seen a'.
Proof.
  intros Hcomm Hm [H1 H2]. split; [congruence|]. intros r d.
  destruct (Hm r d) as [->| ->]; [apply H2|]. exists []. split; [apply QCMaker_new_inv|constructor].
Qed.

Lemma ag_put_vote_maker_same r d m a : ag_vote_maker (ag_put_vote_maker r d m a) r d = m.
Proof. unfold ag_vote_maker. simpl. rewrite lookup_insert_eq. simpl. by rewrite lookup_insert_eq. Qed.
Lemma ag_put_vote_maker_other r d r' d' m a :
  (r, d) <> (r', d') -> ag_vote_maker (ag_put_vote_maker r d m a) r' d' = ag_vote_maker a r' d'.
Proof.
  intros Hne. unfold ag_vote_maker. simpl. destruct (decide (r = r')) as [->|Hr].
  - rewrite lookup_insert_eq. simpl. rewrite lookup_insert_ne by congruence. done.
  - by rewrite lookup_insert_ne.
Qed.

Lemma ag_inv_normal seen v a :
  ag_inv seen a -> ag_inv (seen ++ [v]) (add_normal_vote v a).1.
Proof.
  intros Hinv. pose proof (ag_inv_mono seen (seen ++ [v]) a ltac:(set_solver) Hinv) as [H1 H2].
  unfold add_normal_vote. run. unfold zoom. rewrite H1.
  destruct (ai_votes _ _ Hinv (vote_round v) (vote_blk_hash v)) as (vs & Hq & Hall).
  destruct (QCMaker_append_inv c Hc _ Hn Hstake Htotal _ vs v true Hq) as (vs' & Hq' & Hvs').
  destruct (QCMaker_append v c true (ag_vote_maker a (vote_round v) (vote_blk_hash v))) as [m o].
  simpl in *. split; [done|]. intros r d.
  destruct (decide ((vote_round v, vote_blk_hash v) = (r, d))) as [[= <- <-]|Hne];
    [|rewrite ag_put_vote_maker_other by done; apply H2].
  rewrite ag_put_vote_maker_same. exists vs'. split; [done|].
  assert (Hall' : Forall (fun x => vote_round x = vote_round v /\ vote_blk_hash x = vote_blk_hash v /\
            x ∈ seen ++ [v]) vs).
  { eapply Forall_impl; [exact Hall|]. simpl. set_solver. }
  destruct Hvs' as [->| ->]; [done|]. apply Forall_app. split; [done|].
  constructor; [|done]. split_and!; [done..|set_solver].
Qed.

Lemma ag_cleanup_maker r' a r d :
  ag_vote_maker (cleanup_prepares r' a) r d = ag_vote_maker a r d \/
  ag_vote_maker (cleanup_prepares r' a) r d = QCMaker_new (Z.to_nat (comm_n (ag_committee a))).
Proof.
  unfold ag_vote_maker. simpl. destruct (decide (r' < r)) as [Hlt|Hge].
  - left. destruct (ag_votes a !! r) as [x|] eqn:Hx.
    + rewrite (map_lookup_filter_Some_2 _ _ _ x) by done. done.
    + rewrite map_lookup_filter_None_2 by (by left). done.
  - right. rewrite map_lookup_filter_None_2; [done|]. right. intros x _. simpl. lia.
Qed.

Lemma ag_inv_apply seen o a :
  ag_inv seen a -> ag_inv (seen ++ normal_votes [o]) (agg_apply o a).
Proof.
  intros Hinv. pose proof (ai_committee _ _ Hinv) as Hcomm.
  destruct o as [v|v|t|r|r]; simpl; rewrite ?app_nil_r; [by apply ag_inv_normal|..].
  - unfold add_commit_vote. run. unfold zoom. destruct (QCMaker_append _ _ _ _).
    apply (ag_inv_same _ a); [done|by left|done].
  - unfold add_timeout. run. unfold zoom. destruct (TCMaker_append _ _ _).
    apply (ag_inv_same _ a); [done|by left|done].
  - apply (ag_inv_same _ a); [done| |done]. intros r' d. rewrite <-Hcomm. apply ag_cleanup_maker.
  - apply (ag_inv_same _ a); [done|by left|done].
Qed.

Lemma ag_inv_run ops : ag_inv (normal_votes ops) (agg_run ops).
Proof.
  unfold agg_run. induction ops as [|o ops IH] using rev_ind; [apply ag_inv_new|].
  rewrite foldl_app. unfold normal_votes. rewrite omap_app. by apply ag_inv_apply.
Qed.

(** ** Agreement of quorum certificates *)
Lemma add_normal_vote_qc seen v a a' qc :
  ag_inv seen a -> add_normal_vote v a = (a', Ok (Some qc)) -> vote_kind v = VT_Normal ->
  exists vs, qc_blk_hash qc = vote_blk_hash v /\ qc_round qc = vote_round v /\
    Forall (fun x => vote_round x = vote_round v /\ vote_blk_hash x = vote_blk_hash v /\
                     x ∈ seen ++ [v]) vs /\
    list_to_set (authors vs) ⊆ Quorums.members c /\
    Quorums.weight c (list_to_set (authors vs)) = qc_threshold c qc /\
    (qc_threshold c qc = quorum_threshold c \/ qc_threshold c qc = fast_commit_quorum_threshold c).
Proof.
  intros Hinv Hrun Hkind. unfold add_normal_vote in Hrun. revert Hrun. run. unfold zoom.
  rewrite (ai_committee _ _ Hinv).
  destruct (ai_votes _ _ Hinv (vote_round v) (vote_blk_hash v)) as (vs & Hq & Hall).
  destruct (QCMaker_append v c true (ag_vote_maker a (vote_round v) (vote_blk_hash v))) as [m o] eqn:Happ.
  intros [= <- ->].
  destruct (QCMaker_append_Some c Hc _ Hn Hstake Htotal _ vs v true _ _ Hq Happ)
    as (Hq' & Hh & Hk & Hr & Hw & _).
  exists (vs ++ [v]). split_and!; [done..| | | |].
  - apply Forall_app. split; [|constructor; [split_and!; [done..|set_solver]|done]].
    eapply Forall_impl; [exact Hall|]. simpl. set_solver.
  - by apply (authors_members _ _ _ _ Hq').
  - rewrite (authors_set_weight _ _ _ _ Hq'). done.
  - unfold qc_threshold. destruct (qc_fast_quorum qc); [by right|left]. by rewrite Hk, Hkind.
Qed.

(** C3: agreement on certified blocks: take the aggregators of any two nodes
    after any sequences of votes, timeouts and clean-ups, and let each assemble
    a QC from a normal vote, plain or fast, for the same round.  If the
    authorities outside a set of Byzantine ones of weight at most f voted for at
    most one block in that round, both QCs certify the same block. *)
Theorem qcs_agree n f cr k ops1 ops2 v1 v2 a1 a2 qc1 qc2 (B : gset PublicKey) :
  Quorums.resilient n f cr k -> Quorums.configured c n f cr k ->
  add_normal_vote v1 (agg_run ops1) = (a1, Ok (Some qc1)) ->
  add_normal_vote v2 (agg_run ops2) = (a2, Ok (Some qc2)) ->
  vote_kind v1 = VT_Normal -> vote_kind v2 = VT_Normal -> vote_round v1 = vote_round v2 ->
  Quorums.weight c B <= f ->
  (forall x y, x ∈ normal_votes ops1 ++ [v1] -> y ∈ normal_votes ops2 ++ [v2] ->
     vote_author x = vote_author y -> vote_author x ∉ B ->
     vote_round x = vote_round v1 -> vote_round y = vote_round v1 ->
     vote_blk_hash x = vote_blk_hash y) ->
  qc_blk_hash qc1 = qc_blk_hash qc2.
Proof.
  intros Hres Hconf Hqc1 Hqc2 Hk1 Hk2 Hround HB Hhonest.
  destruct (add_normal_vote_qc _ _ _ _ _ (ag_inv_run ops1) Hqc1 Hk1)
    as (vs1 & Hh1 & Hr1 & Hall1 & Hm1 & Hw1 & Ht1).
  destruct (add_normal_vote_qc _ _ _ _ _ (ag_inv_run ops2) Hqc2 Hk2)
    as (vs2 & Hh2 & Hr2 & Hall2 & Hm2 & Hw2 & Ht2).
  set (X := list_to_set (authors vs1) : gset PublicKey) in *.
  set (Y := list_to_set (authors vs2) : gset PublicKey) in *.
  pose proof (Quorums.quorum_le_fast c n f cr k Hres Hconf) as Hq.
  pose proof (Quorums.weight_overlap c n f cr k Hconf X Y (quorum_threshold c) (quorum_threshold c)
                Hm1 Hm2 ltac:(lia) ltac:(lia)) as Ho.
  rewrite (Quorums.conf_quorum _ _ _ _ _ Hconf), (Quorums.compute_quorum_eq n f cr k Hres) in Ho.
  destruct (Quorums.honest_member c n f cr k Hconf (X ∩ Y) B) as (p & Hp & HpB);
    [destruct Hres; zlia|].
  apply elem_of_intersection in Hp as [HpX HpY]. unfold X, Y in HpX, HpY.
  rewrite elem_of_list_to_set in HpX, HpY.
  apply list_elem_of_fmap in HpX as (x & Hpx & Hx), HpY as (y & Hpy & Hy).
  rewrite Forall_forall in Hall1, Hall2.
  destruct (Hall1 x Hx) as (Hrx & Hhx & Hinx), (Hall2 y Hy) as (Hry & Hhy & Hiny).
  rewrite Hh1, Hh2, <-Hhx, <-Hhy. apply Hhonest; try done; congruence.
Qed.

End agreement.
