(* ===== verification/DagAggregator.v ===== *)
(** * DagAggregator: votes for a header into a certificate
    (src/primary/src/aggregators.rs)

    [va_inv] relates a [VotesAggregator] to the votes it has accepted; the
    theorem says that valid votes for a header make a certificate that
    [Certificate::verify] accepts, once. *)
From S2P Require Import Prelude Crypto Config BitVec DagMessages Messages Signers.

Section votes_aggregator.
Context `{Prim : Primitives} `{Txns : Transactions}.

Record VotesAggregator := mkVotesAggregator {
  va_weight : Stake;
  va_votes : list (G2 * G1);
  va_used : gset PublicKey;
  va_agg_sign : G1;
  va_pk_bit_vec : Z;
  va_is_qc_sent : bool;
}.

Definition VotesAggregator_new : VotesAggregator :=
  mkVotesAggregator 0 [] ∅ g1_default 0 false.

(** [self.used.insert(author)], the push of the vote and the addition of the
    stake. *)
Definition va_record (key : G2) (vote : DagVote) (c : Committee) (a : VotesAggregator)
    : VotesAggregator :=
  mkVotesAggregator (u32_add (va_weight a) (stake c (dv_author vote)))
    (va_votes a ++ [(key, dv_signature vote)]) ({[dv_author vote]} ∪ va_used a)
    (va_agg_sign a) (va_pk_bit_vec a) (va_is_qc_sent a).
(** The first vote's signature is the aggregate; later ones are added. *)
Definition va_add_signature (sig : G1) (a : VotesAggregator) : VotesAggregator :=
  let agg :=
    if (length (va_votes a) =? 1)%nat then sig
    else if (2 <=? length (va_votes a))%nat then aggregate_sign (va_agg_sign a) sig
    else va_agg_sign a in
  mkVotesAggregator (va_weight a) (va_votes a) (va_used a) agg (va_pk_bit_vec a) (va_is_qc_sent a).
Definition va_add_bit (i : nat) (a : VotesAggregator) : VotesAggregator :=
  mkVotesAggregator (va_weight a) (va_votes a) (va_used a) (va_agg_sign a)
    (bit_set (va_pk_bit_vec a) i) (va_is_qc_sent a).
(** [self.weight = 0; self.is_qc_sent = true] *)
Definition va_set_sent (a : VotesAggregator) : VotesAggregator :=
  mkVotesAggregator 0 (va_votes a) (va_used a) (va_agg_sign a) (va_pk_bit_vec a) true.

(** The part of [append] that runs while no certificate was made. *)
Definition va_count (vote : DagVote) (key : G2) (c : Committee) (header : Header)
    : Exec VotesAggregator DagError (option Certificate) :=
  _ ← lift (DagVote_verify c vote);
  _ ← modify (va_add_signature (dv_signature vote));
  i ← expect (binary_search (sorted_keys c) key) "called `Result::unwrap()` on an `Err` value";
  _ ← modify (va_add_bit i);
  w ← gets va_weight;
  if validity_threshold c <=? w then
    _ ← modify va_set_sent;
    id ← expect (Header_digest header) "failed to serialize transaction while hashing header";
    a ← gets (fun a => a);
    mret (Some (mkCertificate id (hdr_round header) (hdr_author header)
                  (va_pk_bit_vec a, va_agg_sign a)))
  else mret None.

(** [VotesAggregator::append] *)
Definition VotesAggregator_append (vote : DagVote) (c : Committee) (header : Header)
    : Exec VotesAggregator DagError (option Certificate) :=
  key ← expect (get_bls_public_g2 c (dv_author vote))
          "called `Option::unwrap()` on a `None` value";
  used ← gets va_used;
  _ ← ensure (bool_decide (dv_author vote ∉ used)) (AuthorityReuse (dv_author vote));
  _ ← modify (va_record key vote c);
  sent ← gets va_is_qc_sent;
  if (sent : bool) then mret None else va_count vote key c header.

(** Feeding votes one after the other; the result of the last. *)
Fixpoint va_append_all (c : Committee) (header : Header) (vs : list DagVote) (a : VotesAggregator)
    : VotesAggregator * Outcome DagError (option Certificate) :=
  match vs with
  | [] => (a, Ok None)
  | [v] => VotesAggregator_append v c header a
  | v :: vs' => va_append_all c header vs' (VotesAggregator_append v c header a).1
  end.

Lemma va_append_all_snoc c header vs v a :
  va_append_all c header (vs ++ [v]) a =
    VotesAggregator_append v c header (va_append_all c header vs a).1.
Proof.
  revert a. induction vs as [|v0 vs IH]; intros a; [done|].
  change ((v0 :: vs) ++ [v]) with (v0 :: (vs ++ [v])).
  transitivity (va_append_all c header (vs ++ [v]) (VotesAggregator_append v0 c header a).1).
  { by destruct vs. }
  rewrite IH. by destruct vs.
Qed.

(** ** What it has collected *)
Section invariant.
Context {Laws : G2Laws} (c : Committee) (Hc : committee_wf c).
Context (Hstake : forall name, 0 <= stake c name).
Context (Htotal : set_weight (stake c) (list_to_set (get_public_keys c)) < 2 ^ 32).
Implicit Types (a : VotesAggregator) (vs : list DagVote) (v : DagVote) (h : Header).

Definition dag_authors vs : list PublicKey := map dv_author vs.

Record va_inv a vs : Prop := {
  vi_used : va_used a = list_to_set (dag_authors vs);
  vi_nodup : NoDup (dag_authors vs);
  vi_stake : Forall (fun name => 0 < stake c name) (dag_authors vs);
  vi_votes : length (va_votes a) = length vs;
  vi_sent : va_is_qc_sent a = false;
  vi_weight : va_weight a = list_weight (stake c) (dag_authors vs);
  vi_bits : exists ids, mapM (key_index c) (dag_authors vs) = Some ids /\
    va_pk_bit_vec a = foldl bit_set 0 ids;
  vi_sign : vs <> [] -> fold_signatures (map dv_signature vs) = Some (va_agg_sign a);
}.

Lemma VotesAggregator_new_inv : va_inv VotesAggregator_new [].
Proof. split; simpl; [done|constructor|constructor|done|done|done|by exists []|done]. Qed.

(** The state after a counted vote, before the threshold test. *)
Definition va_counted (key : G2) (i : nat) v a : VotesAggregator :=
  va_add_bit i (va_add_signature (dv_signature v) (va_record key v c a)).

Lemma va_counted_inv a vs v key i :
  va_inv a vs -> dv_author v ∉ dag_authors vs -> 0 < stake c (dv_author v) ->
  get_bls_public_g2 c (dv_author v) = Some key -> binary_search (sorted_keys c) key = Some i ->
  va_inv (va_counted key i v a) (vs ++ [v]).
Proof.
  intros Hinv Hnew Hst Hkey Hi. destruct (vi_bits _ _ Hinv) as (ids & Hids & Hb).
  assert (Hsn : dag_authors (vs ++ [v]) = dag_authors vs ++ [dv_author v]) by apply map_app.
  assert (Hnd : NoDup (dag_authors (vs ++ [v]))).
  { rewrite Hsn. apply NoDup_app. split_and!; [apply Hinv| |apply NoDup_singleton].
    intros x Hx ->%list_elem_of_singleton. done. }
  assert (Hst' : Forall (fun name => 0 < stake c name) (dag_authors (vs ++ [v]))).
  { rewrite Hsn. apply Forall_app. split; [apply Hinv|]. by constructor. }
  split; [|done|done|..].
  - simpl. rewrite (vi_used _ _ Hinv), Hsn, list_to_set_app_L. simpl. set_solver.
  - simpl. rewrite !length_app. simpl. by rewrite (vi_votes _ _ Hinv).
  - apply (vi_sent _ _ Hinv).
  - destruct (voters_weight c _ Hstake Htotal Hnd Hst') as [_ Hlt].
    rewrite Hsn, list_weight_snoc in *. simpl. rewrite (vi_weight _ _ Hinv). by rewrite u32_add_small.
  - exists (ids ++ [i]). split.
    + rewrite Hsn. apply mapM_Some, Forall2_app; [by apply mapM_Some|].
      constructor; [|constructor]. unfold key_index. by rewrite Hkey.
    + simpl. by rewrite Hb, foldl_app.
  - intros _. simpl. rewrite length_app, (vi_votes _ _ Hinv), map_app. simpl.
    destruct vs as [|v0 vs']; [done|].
    rewrite (fold_signatures_snoc _ _ (va_agg_sign a)) by (by apply (vi_sign _ _ Hinv)).
    simpl. replace (length vs' + 1)%nat with (S (length vs')) by lia. done.
Qed.

(** A vote of a new authority with stake is counted. *)
Lemma va_append_fresh a vs v h :
  va_inv a vs -> dv_author v ∉ dag_authors vs -> 0 < stake c (dv_author v) ->
  exists a1, va_inv a1 (vs ++ [v]) /\
    VotesAggregator_append v c h a =
      if validity_threshold c <=? list_weight (stake c) (dag_authors (vs ++ [v])) then
        match Header_digest h with
        | Some id => (va_set_sent a1, Ok (Some (mkCertificate id (hdr_round h) (hdr_author h)
                                                  (va_pk_bit_vec a1, va_agg_sign a1))))
        | None => (va_set_sent a1, Panicked "failed to serialize transaction while hashing header")
        end
      else (a1, Ok None).
Proof.
  intros Hinv Hnew Hst.
  destruct (key_index_member c Hc (dv_author v)) as (key & i & Hkey & Hi & _).
  { by apply stake_pos_member. }
  pose proof (va_counted_inv a vs v key i Hinv Hnew Hst Hkey Hi) as Hinv1.
  exists (va_counted key i v a). split; [done|].
  rewrite <-(vi_weight _ _ Hinv1). unfold VotesAggregator_append. rewrite Hkey. runs.
  rewrite bool_decide_eq_true_2 by (rewrite (vi_used _ _ Hinv); by rewrite elem_of_list_to_set).
  runs. change (va_is_qc_sent (va_record key v c a)) with (va_is_qc_sent a).
  rewrite (vi_sent _ _ Hinv). unfold va_count, DagVote_verify.
  rewrite (proj2 (Z.ltb_lt _ _) Hst). simpl (ensure_o _ _). runs. rewrite Hi. runs.
  fold (va_counted key i v a). case_match; [|done]. runs. by destruct (Header_digest h).
Qed.

(** Below the threshold the votes are collected. *)
Lemma va_collect h vs :
  NoDup (dag_authors vs) -> Forall (fun name => 0 < stake c name) (dag_authors vs) ->
  list_weight (stake c) (dag_authors vs) < validity_threshold c ->
  va_inv (va_append_all c h vs VotesAggregator_new).1 vs.
Proof.
  induction vs as [|v vs IH] using rev_ind; intros Hnd Hst Hw; [apply VotesAggregator_new_inv|].
  assert (Hsn : dag_authors (vs ++ [v]) = dag_authors vs ++ [dv_author v]) by apply map_app.
  pose proof Hw as Hw'. rewrite Hsn in Hnd, Hst, Hw. rewrite list_weight_snoc in Hw.
  apply NoDup_app in Hnd as (Hnd & Hnew & _). apply Forall_app in Hst as [Hst [Hv _]%Forall_cons].
  destruct (va_append_fresh (va_append_all c h vs VotesAggregator_new).1 vs v h)
    as (a1 & Hinv1 & Happ); [apply IH; [done..|lia]| |done|].
  { intros Hin. apply (Hnew _ Hin). left. }
  rewrite va_append_all_snoc, Happ, (proj2 (Z.leb_gt _ _)) by done. done.
Qed.

(** Once a certificate was made no other one follows. *)
Lemma va_sent_append v h a :
  va_is_qc_sent a = true ->
  va_is_qc_sent (VotesAggregator_append v c h a).1 = true /\
  forall cert, (VotesAggregator_append v c h a).2 <> Ok (Some cert).
Proof.
  intros Hs. unfold VotesAggregator_append.
  destruct (get_bls_public_g2 c (dv_author v)) as [key|]; [|done]. runs.
  destruct (bool_decide (dv_author v ∉ va_used a)); [|done]. runs.
  change (va_is_qc_sent (va_record key v c a)) with (va_is_qc_sent a). rewrite Hs. done.
Qed.

Lemma va_sent_append_all h vs a :
  va_is_qc_sent a = true -> forall cert, (va_append_all c h vs a).2 <> Ok (Some cert).
Proof.
  revert a. induction vs as [|v vs IH]; intros a Hs cert; [done|].
  destruct (va_sent_append v h a Hs) as [Hs' Hno]. destruct vs as [|v' vs]; [apply Hno|].
  by apply IH.
Qed.

End invariant.

(** ** Valid votes make a certificate *)
Section certificate.
Context {Laws : G2Laws} {Bls : BlsLaws} (c : Committee) (Hc : committee_wf c).
Context (Hstake : forall name, 0 <= stake c name).
Context (Htotal : set_weight (stake c) (list_to_set (get_public_keys c)) < 2 ^ 32).
Context (Hsize : (committee_size c <= 128)%nat).

(** The share of a vote verifies under the key of its author for [d]. *)
Definition dag_share_valid (d : Digest) (v : DagVote) : Prop :=
  share_ok c d (dv_author v, dv_signature v).

(** The certificate assembled from valid shares passes [Certificate::verify]. *)
Lemma assembled_certificate_verifies a vs id round origin :
  va_inv c a vs -> vs <> [] ->
  Forall (dag_share_valid (hash32 (dag_preimage id round origin))) vs ->
  Certificate_verify c (mkCertificate id round origin (va_pk_bit_vec a, va_agg_sign a)) = Ok tt.
Proof.
  intros Hinv Hne Hall. destruct (vi_bits _ _ _ Hinv) as (ids & Hids & Hb).
  destruct (key_indices_NoDup c Hc _ _ (vi_nodup _ _ _ Hinv) Hids) as [Hnd Hlt].
  destruct (shares_combine c Hc (hash32 (dag_preimage id round origin))
              (map (fun v => (dv_author v, dv_signature v)) vs) ids) as (pk & s & Hpk & Hs & Hv).
  - by destruct vs.
  - by apply Forall_map.
  - by rewrite map_map.
  - rewrite map_map in Hs. change (fold_signatures (map dv_signature vs) = Some s) in Hs.
    rewrite (vi_sign _ _ _ Hinv Hne) in Hs. injection Hs as Hs. subst s.
    unfold Certificate_verify. cbn [cert_votes fst snd]. rewrite Hb.
    rewrite (combine_ids_perm c ids _ pk); [|symmetry; by apply set_ids_u128_sets|done].
    simpl in Hv |- *. by rewrite Hv.
Qed.

(** A header whose votes carry valid shares gets exactly one certificate, and
    peers accept it: in whatever order the votes of distinct authorities
    arrive, the one that reaches the validity threshold makes [append] return a
    certificate for the header that passes [Certificate::verify], and no later
    vote makes another one. *)
Lemma header_votes_make_certificate h id vs v :
  Header_digest h = Some id ->
  NoDup (dag_authors (vs ++ [v])) ->
  Forall (fun name => 0 < stake c name) (dag_authors (vs ++ [v])) ->
  Forall (dag_share_valid (hash32 (dag_preimage id (hdr_round h) (hdr_author h)))) (vs ++ [v]) ->
  list_weight (stake c) (dag_authors vs) < validity_threshold c ->
  validity_threshold c <= list_weight (stake c) (dag_authors (vs ++ [v])) ->
  exists a cert, va_append_all c h (vs ++ [v]) VotesAggregator_new = (a, Ok (Some cert)) /\
    cert_id cert = id /\ cert_round cert = hdr_round h /\ cert_origin cert = hdr_author h /\
    Certificate_verify c cert = Ok tt /\
    forall later cert', (va_append_all c h later a).2 <> Ok (Some cert').
Proof.
  intros Hid Hnd Hst Hval Hlt Hge.
  assert (Hsn : dag_authors (vs ++ [v]) = dag_authors vs ++ [dv_author v]) by apply map_app.
  pose proof Hnd as Hnd0. pose proof Hst as Hst0. rewrite Hsn in Hnd, Hst.
  apply NoDup_app in Hnd as (Hnd & Hnew & _). apply Forall_app in Hst as [Hst [Hv _]%Forall_cons].
  pose proof (va_collect c Hc Hstake Htotal h vs Hnd Hst Hlt) as Hinv.
  destruct (va_append_fresh c Hc Hstake Htotal _ vs v h Hinv) as (a1 & Hinv1 & Happ); [|done|].
  { intros Hin. apply (Hnew _ Hin). left. }
  rewrite (proj2 (Z.leb_le _ _) Hge), Hid in Happ. rewrite va_append_all_snoc, Happ.
  do 2 eexists. split; [reflexivity|]. split_and!; [done..| |].
  - apply (assembled_certificate_verifies a1 (vs ++ [v])); [done|by destruct vs|done].
  - intros later. by apply va_sent_append_all.
Qed.

End certificate.
End votes_aggregator.
