(* ===== verification/DagCore.v ===== *)
(** * DagCore: the core of the primary (src/primary/src/core.rs) and its network
    receiver (src/primary/src/primary.rs)

    [DagCore] holds the fields of the Rust struct that change, [DagConfig] those
    fixed at spawn.  What leaves the core is appended to [dc_trace], newest
    first; a cancel handler is the address it belongs to.  The theorems at the
    end are about what a peer can do to a primary. *)
From S2P Require Import Prelude Crypto Config BitVec DagMessages Messages Signers Store DagAggregator.

(** [bincode] of headers, certificates and the messages of the primary;
    decoding may fail. *)
Class DagCodec `{Prim : Primitives} `{Txns : Transactions} := {
  header_encode : Header -> list Z;
  header_decode : list Z -> option Header;
  certificate_encode : Certificate -> list Z;
  certificate_decode : list Z -> option Certificate;
}.

Section dag_core.
Context `{Prim : Primitives} `{Txns : Transactions} `{Rocks : RocksDB} `{Codec : !DagCodec}.

Inductive PrimaryMessage :=
| PMsg_Header (h : Header)
| PMsg_Vote (v : DagVote)
| PMsg_Certificate (cert : Certificate)
| PMsg_VerifiedCertificate (cert : Certificate)
| PMsg_CertificatesRequest (missing : list Digest) (requestor : PublicKey).

(** Messages on the network, on the core's own input channel (from the thread
    pool that verifies certificates) and to consensus. *)
Inductive DagEffect :=
| DE_Broadcast (addresses : list SocketAddr) (m : PrimaryMessage)
| DE_Send (address : SocketAddr) (m : PrimaryMessage)
| DE_Loopback (m : PrimaryMessage)
| DE_Consensus (cert : Certificate).

Record DagConfig := mkDagConfig {
  dcc_name : PublicKey;
  dcc_committee : Committee;
  dcc_gc_depth : Round;
  dcc_bls_secret : BlsSecret;
}.

(** [dc_consensus_round] is the [AtomicU64] shared with the garbage collector. *)
Record DagCore := mkDagCore {
  dc_store : Store;
  dc_consensus_round : Round;
  dc_gc_round : Round;
  dc_last_voted : gmap Round (gset PublicKey);
  dc_cancel_handlers : gmap Round (list SocketAddr);
  dc_processing_headers : gmap Digest Header;
  dc_aggregators : gmap Digest VotesAggregator;
  dc_trace : list DagEffect;
}.

Definition dc_set_store (x : Store) (s : DagCore) : DagCore :=
  mkDagCore x (dc_consensus_round s) (dc_gc_round s) (dc_last_voted s) (dc_cancel_handlers s)
    (dc_processing_headers s) (dc_aggregators s) (dc_trace s).
Definition dc_set_cancel_handlers (x : gmap Round (list SocketAddr)) (s : DagCore) : DagCore :=
  mkDagCore (dc_store s) (dc_consensus_round s) (dc_gc_round s) (dc_last_voted s) x
    (dc_processing_headers s) (dc_aggregators s) (dc_trace s).
Definition dc_set_processing (x : gmap Digest Header) (y : gmap Digest VotesAggregator)
    (s : DagCore) : DagCore :=
  mkDagCore (dc_store s) (dc_consensus_round s) (dc_gc_round s) (dc_last_voted s)
    (dc_cancel_handlers s) x y (dc_trace s).
Definition dc_emitted (e : DagEffect) (s : DagCore) : DagCore :=
  mkDagCore (dc_store s) (dc_consensus_round s) (dc_gc_round s) (dc_last_voted s)
    (dc_cancel_handlers s) (dc_processing_headers s) (dc_aggregators s) (e :: dc_trace s).

Context (cfg : DagConfig).
Abbreviation M := (Exec DagCore DagError).

(** The state built by [spawn]. *)
Definition DagCore_spawn (st : Store) (consensus_round : Round) : DagCore :=
  mkDagCore st consensus_round 0 ∅ ∅ ∅ ∅ [].

Definition dc_emit (e : DagEffect) : M unit := modify (dc_emitted e).
Definition dc_write (key value : list Z) : M unit :=
  modify (fun s => dc_set_store (store_write key value (dc_store s)) s).

(** [cancel_handlers.entry(round).or_insert_with(Vec::new).extend(handlers)] *)
Definition keep_handlers (r : Round) (handlers : list SocketAddr) : M unit :=
  modify (fun s => dc_set_cancel_handlers
    (<[r := default [] (dc_cancel_handlers s !! r) ++ handlers]> (dc_cancel_handlers s)) s).

Definition primaries_addresses : list SocketAddr :=
  map (fun x => primary_to_primary x.2) (others_primaries (dcc_committee cfg) (dcc_name cfg)).

(** [process_certificate] *)
Definition process_certificate (cert : Certificate) : M unit :=
  _ ← dc_write (digest_bytes (digest cert)) (certificate_encode cert);
  dc_emit (DE_Consensus cert).

(** [process_vote] *)
Definition process_vote (vote : DagVote) : M unit :=
  headers ← gets dc_processing_headers;
  aggregators ← gets dc_aggregators;
  match headers !! dv_id vote, aggregators !! dv_id vote with
  | Some header, Some aggregator =>
      maybe_cert ← zoom (fun _ => aggregator)
        (fun a s => dc_set_processing (dc_processing_headers s) (<[dv_id vote := a]> (dc_aggregators s)) s)
        (VotesAggregator_append vote (dcc_committee cfg) header);
      match maybe_cert with
      | None => mret tt
      | Some cert =>
          _ ← dc_emit (DE_Broadcast primaries_addresses (PMsg_Certificate cert));
          _ ← keep_handlers (cert_round cert) primaries_addresses;
          _ ← modify (fun s => dc_set_processing (delete (dv_id vote) (dc_processing_headers s))
                                 (delete (dv_id vote) (dc_aggregators s)) s);
          expect_ok (process_certificate cert) "Failed to process valid certificate"
      end
  | _, _ => mret tt
  end.

(** [process_header] *)
Definition process_header (header : Header) : M unit :=
  _ ← dc_write (digest_bytes (hdr_id header)) (header_encode header);
  let vote := DagVote_new header (dcc_name cfg) (dcc_bls_secret cfg) in
  if decide (dv_origin vote = dcc_name cfg)
  then expect_ok (process_vote vote) "Failed to process our own vote"
  else
    address ← expect (match primary (dcc_committee cfg) (hdr_author header) with
                      | inr x => Some (primary_to_primary x)
                      | inl _ => None
                      end) "Author of valid header is not in the committee";
    _ ← dc_emit (DE_Send address (PMsg_Vote vote));
    keep_handlers (hdr_round header) [address].

(** [process_own_header]: [entry(..).or_insert(..)] keeps what is there. *)
Definition process_own_header (header : Header) : M unit :=
  _ ← modify (fun s => dc_set_processing
        (<[hdr_id header := default header (dc_processing_headers s !! hdr_id header)]>
           (dc_processing_headers s))
        (<[hdr_id header := default VotesAggregator_new (dc_aggregators s !! hdr_id header)]>
           (dc_aggregators s)) s);
  _ ← dc_emit (DE_Broadcast primaries_addresses (PMsg_Header header));
  _ ← keep_handlers (hdr_round header) primaries_addresses;
  process_header header.

Definition sanitize_header (header : Header) : M unit :=
  gc_round ← gets dc_gc_round;
  _ ← ensure (gc_round <=? hdr_round header) (HeaderTooOld (hdr_id header) (hdr_round header));
  lift (Header_verify (dcc_committee cfg) header).

Definition sanitize_vote (vote : DagVote) : M unit :=
  headers ← gets dc_processing_headers;
  match headers !! dv_id vote with
  | Some header =>
      ensure (bool_decide (dv_id vote = hdr_id header) && bool_decide (dv_origin vote = hdr_author header)
              && (dv_round vote =? hdr_round header)) (UnexpectedVote (dv_id vote))
  | None => mret tt
  end.

(** [sanitize_certificate]: a thread of the pool verifies the certificate and,
    whatever the result, sends it back; if the verification panics the thread
    ends without sending. *)
Definition dag_sanitize_certificate (cert : Certificate) : M unit :=
  gc_round ← gets dc_gc_round;
  _ ← ensure (gc_round <=? cert_round cert) (CertificateTooOld (digest cert) (cert_round cert));
  match Certificate_verify (dcc_committee cfg) cert with
  | Ok _ | Err _ => dc_emit (DE_Loopback (PMsg_VerifiedCertificate cert))
  | Panicked _ | OutOfFuel => mret tt
  end.

(** The arms of the [select!]. *)
Inductive DagEvent :=
| DEv_Primaries (m : PrimaryMessage)
| DEv_HeaderWaiter (h : Header)
| DEv_CertificateWaiter (cert : Certificate)
| DEv_Proposer (h : Header).

Definition dag_handle (e : DagEvent) : M unit :=
  match e with
  | DEv_Primaries (PMsg_Header header) => _ ← sanitize_header header; process_header header
  | DEv_Primaries (PMsg_Vote vote) => _ ← sanitize_vote vote; process_vote vote
  | DEv_Primaries (PMsg_Certificate cert) => dag_sanitize_certificate cert
  | DEv_Primaries (PMsg_VerifiedCertificate cert) => process_certificate cert
  | DEv_Primaries (PMsg_CertificatesRequest _ _) => panic "Unexpected core message"
  | DEv_HeaderWaiter header => process_header header
  | DEv_CertificateWaiter cert => process_certificate cert
  | DEv_Proposer header => process_own_header header
  end.

(** The clean-up at the end of an iteration. *)
Definition dag_cleanup (s : DagCore) : DagCore :=
  let r := dc_consensus_round s in
  if dcc_gc_depth cfg <? r then
    let gc_round := u64_sub r (dcc_gc_depth cfg) in
    mkDagCore (dc_store s) r gc_round
      (filter (fun x => gc_round <= x.1) (dc_last_voted s))
      (filter (fun x => gc_round <= x.1) (dc_cancel_handlers s))
      (dc_processing_headers s) (dc_aggregators s) (dc_trace s)
  else s.

(** One iteration: a storage error kills the node, other errors are logged. *)
Definition dag_step (e : DagEvent) : M unit := fun s =>
  match dag_handle e s with
  | (s', Err DagMessages.StoreError) => (s', Panicked "Storage failure: killing node.")
  | (s', Ok _) | (s', Err _) => (dag_cleanup s', Ok tt)
  | r => r
  end.

(** ** The network receiver *)
Inductive PrimaryOutput :=
| PO_Ack
| PO_CertRequests (missing : list Digest) (requestor : PublicKey)
| PO_Core (m : PrimaryMessage).

(** [PrimaryReceiverHandler::dispatch] on a message that [bincode] decoded, or
    not. *)
Definition primary_dispatch (decoded : option PrimaryMessage)
    : list PrimaryOutput * Outcome DagError unit :=
  match decoded with
  | None => ([PO_Ack], Err SerializationError)
  | Some (PMsg_CertificatesRequest missing requestor) =>
      ([PO_Ack; PO_CertRequests missing requestor], Ok tt)
  | Some request => ([PO_Ack; PO_Core request], Ok tt)
  end.

(** ** What a peer can do *)
Section peers.
Context {Laws : G2Laws} (Hc : committee_wf (dcc_committee cfg)).
Context (Hstake : forall name, 0 <= stake (dcc_committee cfg) name).
Context (Htotal : set_weight (stake (dcc_committee cfg))
                    (list_to_set (get_public_keys (dcc_committee cfg))) < 2 ^ 32).
Implicit Types (s : DagCore) (h : Header) (cert : Certificate).

(** [Certificate::verify] does not panic when at least one bit is set. *)
Lemma Certificate_verify_runs cert i :
  (i < committee_size (dcc_committee cfg))%nat -> bit_test (cert_votes cert).1 i = true ->
  Certificate_verify (dcc_committee cfg) cert = Ok tt \/
  Certificate_verify (dcc_committee cfg) cert = Err InvalidBlsSignature.
Proof.
  intros Hi Hbit. unfold Certificate_verify.
  set (ids := set_ids_u128 _ _). assert (Hin : i ∈ ids).
  { apply list_elem_of_filter. split; [done|]. apply elem_of_seq. lia. }
  assert (Hids : exists ks, mapM (fun i => sorted_keys (dcc_committee cfg) !! i) ids = Some ks).
  { apply mapM_is_Some_2, Forall_forall. intros j [_ Hj%elem_of_seq]%list_elem_of_filter.
    apply lookup_lt_is_Some_2. rewrite (length_sorted_keys _ Hc). lia. }
  destruct Hids as [ks Hks]. unfold combine_key_from_ids. rewrite Hks. simpl.
  destruct (combine_keys_is_Some ks) as [pk ->].
  { intros ->. apply length_mapM in Hks. destruct ids; [by apply not_elem_of_nil in Hin|done]. }
  simpl. destruct (bls_verify _ _ _); [by left|by right].
Qed.

(** The verification of header certificates has no effect: a certificate
    with any bit set, whatever its signature, is sent back as verified, and a
    message that calls itself verified, which the network receiver accepts
    from any peer, is stored and delivered to consensus unchecked. *)
Lemma unverified_certificate_delivered cert i s :
  (i < committee_size (dcc_committee cfg))%nat -> bit_test (cert_votes cert).1 i = true ->
  dc_gc_round s <= cert_round cert ->
  dag_handle (DEv_Primaries (PMsg_Certificate cert)) s =
    (dc_emitted (DE_Loopback (PMsg_VerifiedCertificate cert)) s, Ok tt) /\
  primary_dispatch (Some (PMsg_VerifiedCertificate cert)) =
    ([PO_Ack; PO_Core (PMsg_VerifiedCertificate cert)], Ok tt) /\
  forall s1, exists s2, dag_handle (DEv_Primaries (PMsg_VerifiedCertificate cert)) s1 = (s2, Ok tt) /\
    dc_trace s2 = DE_Consensus cert :: dc_trace s1.
Proof.
  intros Hi Hbit Hgc. split_and!; [|done|].
  - cbn [dag_handle]. unfold dag_sanitize_certificate. run.
    rewrite (proj2 (Z.leb_le _ _) Hgc). run.
    by destruct (Certificate_verify_runs cert i Hi Hbit) as [-> | ->].
  - intros s1. by eexists.
Qed.

(** The own header in the state after [process_own_header]: it is being
    processed and our own vote is the only one. *)
Lemma process_own_header_run h s :
  hdr_author h = dcc_name cfg -> 0 < stake (dcc_committee cfg) (dcc_name cfg) ->
  stake (dcc_committee cfg) (dcc_name cfg) < validity_threshold (dcc_committee cfg) ->
  dc_processing_headers s !! hdr_id h = None -> dc_aggregators s !! hdr_id h = None ->
  exists s1 a, process_own_header h s = (s1, Ok tt) /\
    dc_processing_headers s1 !! hdr_id h = Some h /\ dc_aggregators s1 !! hdr_id h = Some a /\
    dcc_name cfg ∈ va_used a /\ dc_consensus_round s1 = dc_consensus_round s /\
    dc_gc_round s1 = dc_gc_round s.
Proof.
  intros Hown Hst Hlt Hh Ha.
  set (v := DagVote_new h (dcc_name cfg) (dcc_bls_secret cfg)).
  destruct (va_append_fresh (dcc_committee cfg) Hc Hstake Htotal VotesAggregator_new [] v h)
    as (a1 & Hinv1 & Happ); [apply VotesAggregator_new_inv|apply not_elem_of_nil|done|].
  simpl in Happ. rewrite Z.add_0_r, (proj2 (Z.leb_gt _ _) Hlt) in Happ.
  do 2 eexists. unfold process_own_header, process_header, keep_handlers, dc_write, dc_emit. runs.
  fold v. change (dv_origin v) with (hdr_author h). rewrite decide_True by done.
  unfold expect_ok, process_vote. runs. cbn [dc_processing_headers dc_aggregators dc_set_store
    dc_set_cancel_handlers dc_emitted dc_set_processing dv_id v DagVote_new].
  rewrite Hh, Ha, !lookup_insert_eq. simpl default.
  unfold mbind, exec_mbind, exec_bind, zoom. rewrite Happ. simpl.
  split; [reflexivity|]. split_and!; simpl; rewrite ?lookup_insert_eq; [done|done| |done|done].
  rewrite (vi_used _ _ _ Hinv1). simpl. set_solver.
Qed.

(** Any peer can stop a primary by sending it its own header: while the header
    that the primary has just broadcast waits for votes, receiving the same
    header makes it vote again, and the error of its own aggregator about the
    repeated vote is a panic of the core task. *)
Lemma replayed_own_header_panics h s :
  hdr_author h = dcc_name cfg -> Header_verify (dcc_committee cfg) h = Ok tt ->
  stake (dcc_committee cfg) (dcc_name cfg) < validity_threshold (dcc_committee cfg) ->
  dc_processing_headers s !! hdr_id h = None -> dc_aggregators s !! hdr_id h = None ->
  dc_gc_round s <= hdr_round h -> dc_consensus_round s <= dcc_gc_depth cfg ->
  exists s1 s2, dag_step (DEv_Proposer h) s = (s1, Ok tt) /\
    dag_step (DEv_Primaries (PMsg_Header h)) s1 = (s2, Panicked "Failed to process our own vote").
Proof.
  intros Hown Hver Hlt Hh Ha Hgc Hdepth.
  assert (Hst : 0 < stake (dcc_committee cfg) (dcc_name cfg)).
  { rewrite <-Hown. unfold Header_verify in Hver. destruct (Header_digest h); [|done]. simpl in Hver.
    destruct (bool_decide _); [|done]. simpl in Hver.
    destruct (Z.ltb_spec 0 (stake (dcc_committee cfg) (hdr_author h))); [done|]. done. }
  destruct (process_own_header_run h s Hown Hst Hlt Hh Ha) as (s1 & a & Hrun & Hh1 & Ha1 & Hused & Hr1 & Hg1).
  exists s1. eexists. unfold dag_step at 1. cbn [dag_handle]. rewrite Hrun.
  unfold dag_cleanup. rewrite Hr1, (proj2 (Z.ltb_ge _ _) Hdepth). split; [done|].
  unfold dag_step. cbn [dag_handle]. unfold sanitize_header. runs.
  rewrite (run_bind _ _ s1 s1 tt); cycle 1.
  { runs. by rewrite Hg1, (proj2 (Z.leb_le _ _) Hgc), Hver. }
  unfold process_header, dc_write. runs. change (dv_origin _) with (hdr_author h).
  rewrite decide_True by done. unfold expect_ok, process_vote. runs.
  cbn [dc_processing_headers dc_aggregators dc_set_store dv_id DagVote_new]. rewrite Hh1, Ha1.
  unfold mbind, exec_mbind, exec_bind, zoom.
  destruct (key_index_member _ Hc (dcc_name cfg)) as (key & i & Hkey & _); [by apply stake_pos_member|].
  unfold VotesAggregator_append. cbn [dv_author DagVote_new]. rewrite Hkey. runs.
  rewrite bool_decide_eq_false_2 by (intros Hno; by apply Hno). reflexivity.
Qed.

End peers.
End dag_core.
