(* ===== verification/DagCertify.v ===== *)
(** * DagCertify: a header gets its certificate (src/primary/src/core.rs)

    The composition of the core of the primary with its aggregator: whatever
    else arrives in between, the votes for a node's own header make one
    certificate, which is sent to all primaries and delivered to consensus. *)
From S2P Require Import Prelude Crypto Config BitVec DagMessages Messages Signers Store DagAggregator DagCore.

Section certify.
Context `{Prim : Primitives} `{Txns : Transactions} `{Rocks : RocksDB} `{Codec : !DagCodec}.
Context {Laws : G2Laws} {Bls : BlsLaws} (cfg : DagConfig).
Abbreviation c := (dcc_committee cfg).
Abbreviation name := (dcc_name cfg).
Context (Hc : committee_wf c) (Hstake : forall x, 0 <= stake c x).
Context (Htotal : set_weight (stake c) (list_to_set (get_public_keys c)) < 2 ^ 32).
Context (Hsize : (committee_size c <= 128)%nat).

(** Handling events one after the other. *)
Fixpoint dag_run (events : list DagEvent) : Exec DagCore DagError unit :=
  match events with
  | [] => mret tt
  | e :: events' => _ ← dag_step cfg e; dag_run events'
  end.

(** The certificates that the node made and sent to its peers, newest first. *)
Definition own_certificates (s : DagCore) : list Certificate :=
  omap (fun e => match e with DE_Broadcast _ (PMsg_Certificate cert) => Some cert | _ => None end)
    (dc_trace s).

Context (h : Header) (Hown : hdr_author h = name) (Hid : Header_digest h = Some (hdr_id h)).
Implicit Types (s : DagCore) (v : DagVote) (e : DagEvent) (cert : Certificate).

(** What the votes for [h] sign, and the vote of the node itself. *)
Definition signed_digest : Digest :=
  hash32 (dag_preimage (hdr_id h) (hdr_round h) (hdr_author h)).
Definition own_vote : DagVote := DagVote_new h name (dcc_bls_secret cfg).

(** The test of [sanitize_vote]. *)
Definition counts v : bool :=
  bool_decide (dv_id v = hdr_id h) && bool_decide (dv_origin v = hdr_author h) &&
  (dv_round v =? hdr_round h).
Definition fair v : Prop := 0 < stake c (dv_author v) /\ dag_share_valid c signed_digest v.

(** What may arrive: any certificates, headers of others, and votes; those that
    count for [h] are from members and carry valid shares.  Not a header of this
    node, in particular not [h] itself from a peer, which ends the core. *)
Definition expected e : Prop :=
  match e with
  | DEv_Primaries (PMsg_Vote v) => counts v = true -> fair v
  | DEv_Primaries (PMsg_Header h') => hdr_author h' <> name /\ is_Some (Header_digest h')
  | DEv_Primaries (PMsg_Certificate _) | DEv_Primaries (PMsg_VerifiedCertificate _) => True
  | DEv_CertificateWaiter _ => True
  | DEv_HeaderWaiter h' => hdr_author h' <> name /\ 0 < stake c (hdr_author h')
  | _ => False
  end.
Definition voter e : option PublicKey :=
  match e with DEv_Primaries (PMsg_Vote v) => if counts v then Some (dv_author v) else None | _ => None end.
Definition voters (events : list DagEvent) : gset PublicKey := list_to_set (omap voter events).

(** Steps that leave the votes for [h] alone. *)
Record quiet s s' : Prop := {
  qu_headers : dc_processing_headers s' = dc_processing_headers s;
  qu_aggregators : dc_aggregators s' = dc_aggregators s;
  qu_own : own_certificates s' = own_certificates s;
  qu_trace : forall x, x ∈ dc_trace s -> x ∈ dc_trace s';
}.
#[local] Instance quiet_preorder : PreOrder quiet.
Proof. split; [by intros s; split|]. intros s1 s2 s3 [] []. split; [congruence..|auto]. Qed.

Context (base : list Certificate).

(** The votes [vs] were counted and do not reach the threshold. *)
Record collecting (vs : list DagVote) s : Prop := {
  cl_headers : dc_processing_headers s = {[hdr_id h := h]};
  cl_aggregator : exists a, dc_aggregators s = {[hdr_id h := a]} /\ va_inv c a vs;
  cl_weight : list_weight (stake c) (dag_authors vs) < validity_threshold c;
  cl_fair : Forall fair vs;
  cl_own : own_certificates s = base;
}.

(** The certificate was made. *)
Record certified cert s : Prop := {
  ce_headers : dc_processing_headers s = ∅;
  ce_own : own_certificates s = cert :: base;
  ce_consensus : DE_Consensus cert ∈ dc_trace s;
  ce_verifies : Certificate_verify c cert = Ok tt;
  ce_id : cert_id cert = hdr_id h;
  ce_round : cert_round cert = hdr_round h;
  ce_origin : cert_origin cert = hdr_author h;
}.

Lemma collecting_quiet vs s s' : quiet s s' -> collecting vs s -> collecting vs s'.
Proof.
  intros [] [? [a [? ?]] ? ? ?]. split; try congruence; try done. exists a. split; [congruence|done].
Qed.
Lemma certified_quiet cert s s' : quiet s s' -> certified cert s -> certified cert s'.
Proof. intros [] []. split; try congruence; auto. Qed.

Lemma cleanup_quiet s : quiet s (dag_cleanup cfg s).
Proof. unfold dag_cleanup. by case_match. Qed.

(** A new vote is counted, or completes the certificate. *)
Lemma process_vote_counts vs v s :
  collecting vs s -> dv_id v = hdr_id h -> fair v -> dv_author v ∉ dag_authors vs ->
  exists s', process_vote cfg v s = (s', Ok tt) /\
    (collecting (vs ++ [v]) s' \/ exists cert, certified cert s').
Proof.
  intros [Hh [a [Ha Hinv]] Hw Hfair Hbase] Hv [Hst Hshare] Hnew.
  destruct (va_append_fresh c Hc Hstake Htotal a vs v h Hinv Hnew Hst) as (a1 & Hinv1 & Happ).
  rewrite Hid in Happ. unfold process_vote. runs. rewrite Hh, Ha, Hv, !lookup_singleton_eq.
  unfold mbind at 1, exec_mbind, exec_bind, zoom. rewrite Happ.
  assert (Hall : Forall fair (vs ++ [v])) by (apply Forall_app; split; [done|by constructor]).
  destruct (Z.leb_spec (validity_threshold c) (list_weight (stake c) (dag_authors (vs ++ [v])))) as [Hge|Hlt].
  - set (cert := mkCertificate _ _ _ _). eexists. split; [reflexivity|]. right. exists cert. split.
    + simpl. by rewrite Hh, delete_singleton_eq.
    + simpl. change (cert :: own_certificates s = cert :: base). by rewrite Hbase.
    + left.
    + apply (assembled_certificate_verifies c Hc Hsize a1 (vs ++ [v])); [done|by destruct vs|].
      eapply Forall_impl; [exact Hall|]. by intros ? [].
    + done.
    + done.
    + done.
  - eexists. split; [reflexivity|]. left. split; simpl; try done.
    exists a1. split; [|done]. by rewrite Ha, insert_singleton_eq.
Qed.

(** Any other vote is ignored, or refused without effect. *)
Lemma process_vote_repeated vs v s :
  collecting vs s -> dv_id v = hdr_id h -> fair v -> dv_author v ∈ dag_authors vs ->
  exists s', process_vote cfg v s = (s', Err (AuthorityReuse (dv_author v))) /\ quiet s s'.
Proof.
  intros [Hh [a [Ha Hinv]] Hw Hfair Hbase] Hv [Hst Hshare] Hin.
  destruct (key_index_member _ Hc (dv_author v)) as (key & i & Hkey & _); [by apply stake_pos_member|].
  unfold process_vote. runs. rewrite Hh, Ha, Hv, !lookup_singleton_eq.
  unfold mbind at 1, exec_mbind, exec_bind, zoom, VotesAggregator_append. rewrite Hkey. runs.
  rewrite (vi_used _ _ _ Hinv), bool_decide_eq_false_2
    by (intros Hno; apply Hno; by rewrite elem_of_list_to_set).
  eexists. split; [reflexivity|]. split; simpl; try done. by rewrite Ha, insert_singleton_eq.
Qed.

(** An iteration with the clean-up at its end. *)
Lemma dag_step_run e s s1 o :
  dag_handle cfg e s = (s1, o) -> match o with Ok _ => True | Err x => x <> DagMessages.StoreError | _ => False end ->
  dag_step cfg e s = (dag_cleanup cfg s1, Ok tt) /\ quiet s1 (dag_cleanup cfg s1).
Proof.
  intros Hrun Ho. split; [|apply cleanup_quiet]. unfold dag_step. rewrite Hrun.
  by destruct o as [|[]| |].
Qed.

Lemma quiet_step e s s1 o :
  dag_handle cfg e s = (s1, o) -> match o with Ok _ => True | Err x => x <> DagMessages.StoreError | _ => False end ->
  quiet s s1 -> exists s', dag_step cfg e s = (s', Ok tt) /\ quiet s s'.
Proof.
  intros Hrun Ho Hq. destruct (dag_step_run e s s1 o Hrun Ho) as [Hstep Hq'].
  eexists. split; [exact Hstep|]. by transitivity s1.
Qed.

Lemma emitted_quiet x s :
  match x with DE_Broadcast _ (PMsg_Certificate _) => False | _ => True end -> quiet s (dc_emitted x s).
Proof.
  intros Hx. split; try done; [|intros; by right]. unfold own_certificates. simpl.
  by destruct x as [? []| | |].
Qed.

Lemma process_certificate_quiet cert s :
  exists s1, process_certificate cert s = (s1, Ok tt) /\ quiet s s1.
Proof.
  eexists. split; [reflexivity|]. etrans; [|by apply emitted_quiet]. by split.
Qed.

Lemma certificate_quiet cert s :
  exists s1 o, dag_sanitize_certificate cfg cert s = (s1, o) /\ quiet s s1 /\
    match o with Ok _ => True | Err x => x <> DagMessages.StoreError | _ => False end.
Proof.
  unfold dag_sanitize_certificate. run. destruct (dc_gc_round s <=? cert_round cert); cycle 1.
  { eexists _, _. by split_and!. }
  run. destruct (Certificate_verify c cert); eexists _, _;
    (split; [reflexivity|split; [first [by apply emitted_quiet|reflexivity]|done]]).
Qed.

(** A header of another member is voted for. *)
Lemma process_header_quiet h' s :
  hdr_author h' <> name -> 0 < stake c (hdr_author h') ->
  exists s1, process_header cfg h' s = (s1, Ok tt) /\ quiet s s1.
Proof.
  intros Hne Hst. assert (Hp : exists x, primary c (hdr_author h') = inr x).
  { unfold primary. unfold stake in Hst. destruct (btree_get (authorities c) (hdr_author h')); [by eexists|done]. }
  destruct Hp as [x Hx]. eexists. unfold process_header, dc_write, keep_handlers, dc_emit. runs.
  change (dv_origin _) with (hdr_author h'). rewrite decide_False by done. rewrite Hx. runs.
  split; [reflexivity|].
  transitivity (dc_set_store (store_write (digest_bytes (hdr_id h')) (header_encode h') (dc_store s)) s);
    [by split|]. etrans; [by apply (emitted_quiet (DE_Send (primary_to_primary x) (PMsg_Vote (DagVote_new h' name (dcc_bls_secret cfg)))))|]. by split.
Qed.

Lemma header_quiet h' s :
  hdr_author h' <> name -> is_Some (Header_digest h') ->
  exists s1 o, dag_handle cfg (DEv_Primaries (PMsg_Header h')) s = (s1, o) /\ quiet s s1 /\
    match o with Ok _ => True | Err x => x <> DagMessages.StoreError | _ => False end.
Proof.
  intros Hne [d Hd]. cbn [dag_handle]. unfold sanitize_header, mbind, exec_mbind, exec_bind, gets, ensure, lift.
  destruct (dc_gc_round s <=? hdr_round h'); [|eexists _, _; by split_and!]. simpl.
  unfold Header_verify. rewrite Hd. simpl.
  destruct (bool_decide (d = hdr_id h')); [|eexists _, _; by split_and!]. simpl.
  destruct (Z.ltb_spec 0 (stake c (hdr_author h'))) as [Hst|]; [|eexists _, _; by split_and!]. simpl.
  destruct (Signature_verify _ _ _); [|eexists _, _; by split_and!]. simpl.
  destruct (process_header_quiet h' s Hne Hst) as (s1 & Hrun & Hq). exists s1, (Ok tt). by split_and!.
Qed.

(** Events other than votes. *)
Lemma other_event_quiet e s :
  expected e -> match e with DEv_Primaries (PMsg_Vote _) => False | _ => True end ->
  exists s', dag_step cfg e s = (s', Ok tt) /\ quiet s s'.
Proof.
  intros He Hv. destruct e as [[h'|v|cert|cert|? ?]|h'|cert|h']; try done.
  - destruct He as [Hne Hd]. destruct (header_quiet h' s Hne Hd) as (s1 & o & Hrun & Hq & Ho).
    by eapply quiet_step.
  - destruct (certificate_quiet cert s) as (s1 & o & Hrun & Hq & Ho). by eapply quiet_step.
  - destruct (process_certificate_quiet cert s) as (s1 & Hrun & Hq). by eapply (quiet_step _ _ s1 (Ok tt)).
  - destruct He as [Hne Hst]. destruct (process_header_quiet h' s Hne Hst) as (s1 & Hrun & Hq).
    by eapply (quiet_step _ _ s1 (Ok tt)).
  - destruct (process_certificate_quiet cert s) as (s1 & Hrun & Hq). by eapply (quiet_step _ _ s1 (Ok tt)).
Qed.

(** A vote for a header that is not processed has no effect. *)
Lemma unknown_vote_quiet v s :
  dc_processing_headers s !! dv_id v = None ->
  exists s', dag_step cfg (DEv_Primaries (PMsg_Vote v)) s = (s', Ok tt) /\ quiet s s'.
Proof.
  intros Hv. eapply (quiet_step _ _ s (Ok tt)); [|done|done].
  cbn [dag_handle]. unfold sanitize_vote, process_vote, mbind, exec_mbind, exec_bind, gets.
  by rewrite Hv; simpl; rewrite Hv.
Qed.

Lemma event_cases e :
  match e with DEv_Primaries (PMsg_Vote _) => False | _ => True end \/
  exists v, e = DEv_Primaries (PMsg_Vote v).
Proof. destruct e as [[|v| | |]| | |]; eauto. Qed.

(** What one event does while votes are collected. *)
Lemma collecting_step vs e s :
  collecting vs s -> expected e ->
  exists s', dag_step cfg e s = (s', Ok tt) /\
    ((exists vs', collecting vs' s' /\
        list_to_set (C := gset PublicKey) (dag_authors vs') =
          list_to_set (dag_authors vs) ∪ list_to_set (option_list (voter e))) \/
     exists cert, certified cert s').
Proof.
  intros Hs He.
  assert (Hsame : forall s', quiet s s' -> voter e = None -> exists vs', collecting vs' s' /\
        list_to_set (C := gset PublicKey) (dag_authors vs') =
          list_to_set (dag_authors vs) ∪ list_to_set (option_list (voter e))).
  { intros s' Hq Hv. exists vs. split; [by eapply collecting_quiet|]. rewrite Hv. simpl. set_solver. }
  destruct (event_cases e) as [Hother|[v ->]].
  { destruct (other_event_quiet e s He Hother) as (s' & Hrun & Hq). exists s'. split; [done|]. left.
    apply Hsame; [done|]. by destruct e as [[]| | |]. }
  destruct (decide (dv_id v = hdr_id h)) as [Hv|Hv]; cycle 1.
  { destruct (unknown_vote_quiet v s) as (s' & Hrun & Hq).
    { rewrite (cl_headers _ _ Hs). by apply lookup_singleton_ne. }
    exists s'. split; [done|]. left. apply Hsame; [done|]. simpl. unfold counts.
    by rewrite bool_decide_eq_false_2. }
  assert (Hsan : sanitize_vote v s = ensure (counts v) (UnexpectedVote (dv_id v)) s).
  { unfold sanitize_vote, counts. run. by rewrite (cl_headers _ _ Hs), Hv, lookup_singleton_eq. }
  simpl in He. destruct (counts v) eqn:Hcounts; cycle 1.
  { destruct (quiet_step (DEv_Primaries (PMsg_Vote v)) s s (Err (UnexpectedVote (dv_id v)))) as (s' & Hrun & Hq);
      [|done|done|].
    - cbn [dag_handle]. unfold mbind, exec_mbind, exec_bind. by rewrite Hsan.
    - exists s'. split; [done|]. left. apply Hsame; [done|]. simpl. by rewrite Hcounts. }
  assert (Hhandle : dag_handle cfg (DEv_Primaries (PMsg_Vote v)) s = process_vote cfg v s).
  { cbn [dag_handle]. unfold mbind, exec_mbind, exec_bind. by rewrite Hsan. }
  simpl voter. rewrite Hcounts. destruct (decide (dv_author v ∈ dag_authors vs)) as [Hin|Hnew].
  - destruct (process_vote_repeated vs v s Hs Hv (He eq_refl) Hin) as (s1 & Hrun & Hq).
    rewrite <-Hhandle in Hrun. destruct (quiet_step _ s s1 _ Hrun) as (s' & Hstep & Hq'); [done|done|].
    exists s'. split; [done|]. left. exists vs. split; [by eapply collecting_quiet|]. simpl.
    apply leibniz_equiv. set_solver.
  - destruct (process_vote_counts vs v s Hs Hv (He eq_refl) Hnew) as (s1 & Hrun & Hres).
    rewrite <-Hhandle in Hrun. destruct (dag_step_run _ s s1 _ Hrun I) as [Hstep Hq].
    eexists. split; [exact Hstep|]. destruct Hres as [Hcol|[cert Hcert]]; [left|right].
    + exists (vs ++ [v]). split; [by eapply collecting_quiet|]. unfold dag_authors.
      rewrite map_app, list_to_set_app_L. simpl. done.
    + exists cert. by eapply certified_quiet.
Qed.

(** Nothing undoes the certificate or makes another one. *)
Lemma certified_step cert e s :
  certified cert s -> expected e ->
  exists s', dag_step cfg e s = (s', Ok tt) /\ certified cert s'.
Proof.
  intros Hs He.
  destruct (event_cases e) as [Hother|[v ->]].
  - destruct (other_event_quiet e s He Hother) as (s' & Hrun & Hq). exists s'. split; [done|].
    by eapply certified_quiet.
  - destruct (unknown_vote_quiet v s) as (s' & Hrun & Hq).
    { rewrite (ce_headers _ _ Hs). apply lookup_empty. }
    exists s'. split; [done|]. by eapply certified_quiet.
Qed.

Lemma voters_cons e events :
  voters (e :: events) = list_to_set (option_list (voter e)) ∪ voters events.
Proof. unfold voters. simpl. destruct (voter e); simpl; set_solver. Qed.

Lemma certified_run cert events s :
  certified cert s -> Forall expected events ->
  exists s', dag_run events s = (s', Ok tt) /\ certified cert s'.
Proof.
  intros Hs Hall. revert s Hs. induction Hall as [|e events He _ IH]; intros s Hs; [by exists s|].
  destruct (certified_step cert e s Hs He) as (s1 & Hrun & Hs1).
  destruct (IH s1 Hs1) as (s' & Hrun' & Hs'). exists s'. split; [|done].
  cbn [dag_run]. by rewrite (run_bind _ _ _ _ _ Hrun).
Qed.

Lemma collecting_run vs events s :
  collecting vs s -> Forall expected events ->
  exists s', dag_run events s = (s', Ok tt) /\
    ((exists vs', collecting vs' s' /\
        list_to_set (C := gset PublicKey) (dag_authors vs') =
          list_to_set (dag_authors vs) ∪ voters events) \/
     exists cert, certified cert s').
Proof.
  intros Hs Hall. revert vs s Hs. induction Hall as [|e events He Hevents IH]; intros vs s Hs.
  { exists s. split; [done|]. left. exists vs. split; [done|]. unfold voters. simpl. set_solver. }
  cbn [dag_run]. destruct (collecting_step vs e s Hs He) as (s1 & Hrun & [(vs1 & Hs1 & Hset)|[cert Hs1]]);
    rewrite (run_bind _ _ _ _ _ Hrun).
  - destruct (IH vs1 s1 Hs1) as (s' & Hrun' & [(vs' & Hs' & Hset')|Hcert]); exists s'; split; [done| |done|by right].
    left. exists vs'. split; [done|]. rewrite Hset', Hset, voters_cons. set_solver.
  - destruct (certified_run cert events s1 Hs1 Hevents) as (s' & Hrun' & Hs'). exists s'. eauto.
Qed.

(** The proposer hands the header over: it is processed with our own vote. *)
Lemma own_header_step s :
  dc_processing_headers s = ∅ -> dc_aggregators s = ∅ -> own_certificates s = base ->
  0 < validity_threshold c -> fair own_vote ->
  exists s', dag_step cfg (DEv_Proposer h) s = (s', Ok tt) /\
    (collecting [own_vote] s' \/ exists cert, certified cert s').
Proof.
  intros Hh Ha Hbase Hthr Hfair.
  set (addresses := primaries_addresses cfg).
  set (s0 := dc_set_store (store_write (digest_bytes (hdr_id h)) (header_encode h) (dc_store s))
    (dc_set_cancel_handlers (<[hdr_round h := default [] (dc_cancel_handlers s !! hdr_round h) ++ addresses]>
       (dc_cancel_handlers s))
    (dc_emitted (DE_Broadcast addresses (PMsg_Header h))
    (dc_set_processing {[hdr_id h := h]} {[hdr_id h := VotesAggregator_new]} s)))).
  assert (Hs0 : collecting [] s0).
  { split; try done. exists VotesAggregator_new. split; [done|]. apply VotesAggregator_new_inv. }
  destruct (process_vote_counts [] own_vote s0 Hs0 eq_refl Hfair) as (s1 & Hrun & Hres);
    [apply not_elem_of_nil|].
  assert (Hhandle : dag_handle cfg (DEv_Proposer h) s = (s1, Ok tt)).
  { cbn [dag_handle]. unfold process_own_header, process_header, keep_handlers, dc_write, dc_emit. runs.
    change (dv_origin _) with (hdr_author h). rewrite decide_True by done.
    unfold expect_ok. rewrite Hh, Ha, !lookup_empty. simpl default. rewrite !insert_empty.
    fold own_vote. change (process_vote cfg own_vote _) with (process_vote cfg own_vote s0).
    by rewrite Hrun. }
  destruct (dag_step_run _ s s1 _ Hhandle I) as [Hstep Hq]. eexists. split; [exact Hstep|].
  destruct Hres as [Hcol|[cert Hcert]]; [left; by eapply collecting_quiet|right].
  exists cert. by eapply certified_quiet.
Qed.

(** The collected votes that do not reach the threshold are not all. *)
Lemma collecting_weight vs s names :
  collecting vs s -> list_to_set (C := gset PublicKey) (dag_authors vs) = names ->
  set_weight (stake c) names < validity_threshold c.
Proof.
  intros Hs <-. destruct (cl_aggregator _ _ Hs) as (a & _ & Hinv).
  destruct (voters_weight c (dag_authors vs) Hstake Htotal (vi_nodup _ _ _ Hinv) (vi_stake _ _ _ Hinv)) as [<- _].
  apply (cl_weight _ _ Hs).
Qed.
End certify.

Section theorem.
Context `{Prim : Primitives} `{Txns : Transactions} `{Rocks : RocksDB} `{Codec : !DagCodec}.
Context {Laws : G2Laws} {Bls : BlsLaws}.

End theorem.
