(* ===== verification/PrimaryTasks.v ===== *)
(** * PrimaryTasks: the small tasks of the primary
    (src/primary/src/garbage_collector.rs, src/primary/src/helper.rs,
    src/primary/src/payload_receiver.rs)

    Each task is one loop over its input channel; one iteration is a function of
    the store and the message. *)
From S2P Require Import Prelude Crypto Config DagMessages Store DagCore.

Section primary_tasks.
Context `{Prim : Primitives} `{Txns : Transactions} `{Rocks : RocksDB} `{Codec : !DagCodec}.

(** ** The garbage collector *)
Inductive PrimaryWorkerMessage :=
| PWM_Synchronize (digests : list Digest) (target : PublicKey)
| PWM_Cleanup (r : Round).

Inductive GcEffect :=
| GE_Loopback (cert : Certificate)
| GE_Broadcast (addresses : list SocketAddr) (m : PrimaryWorkerMessage).

(** [gc_consensus_round] is the [AtomicU64] shared with the core. *)
Record GarbageCollector := mkGarbageCollector {
  gc_addresses : list SocketAddr;
  gc_last_committed_round : Round;
  gc_consensus_round : Round;
  gc_trace : list GcEffect;
}.

Definition gc_emitted (e : GcEffect) (g : GarbageCollector) : GarbageCollector :=
  mkGarbageCollector (gc_addresses g) (gc_last_committed_round g) (gc_consensus_round g)
    (e :: gc_trace g).

(** [spawn]; [None] is the panic about a name that is not in the committee. *)
Definition GarbageCollector_spawn (name : PublicKey) (c : Committee) : option GarbageCollector :=
  match our_workers c name with
  | inl _ => None
  | inr workers => Some (mkGarbageCollector (map primary_to_worker workers) 0 0 [])
  end.

(** One iteration of [run] with the store [st]. *)
Definition gc_step (st : Store) (cert : Certificate) : Exec GarbageCollector DagError unit :=
  found ← expect (match store_read (digest_bytes (digest cert)) st with
                  | inr x => Some x
                  | inl _ => None
                  end) "Failed to read from store";
  _ ← (match found with
       | None => modify (gc_emitted (GE_Loopback cert))
       | Some _ => mret tt
       end);
  last ← gets gc_last_committed_round;
  if last <? cert_round cert then
    modify (fun g => gc_emitted (GE_Broadcast (gc_addresses g) (PWM_Cleanup (cert_round cert)))
      (mkGarbageCollector (gc_addresses g) (cert_round cert) (cert_round cert) (gc_trace g)))
  else mret tt.

(** The shared round is the highest committed one and never goes down. *)
Lemma gc_step_rounds st cert g :
  gc_consensus_round g = gc_last_committed_round g ->
  let g' := (gc_step st cert g).1 in
  gc_consensus_round g' = gc_last_committed_round g' /\
  gc_last_committed_round g <= gc_last_committed_round g' /\
  ((gc_step st cert g).2 = Ok tt -> gc_last_committed_round g' = gc_last_committed_round g `max` cert_round cert).
Proof.
  intros Heq. unfold gc_step.
  destruct (store_read (digest_bytes (digest cert)) st) as [e|[v|]]; [by split_and!|runs; simpl..];
    destruct (Z.ltb_spec (gc_last_committed_round g) (cert_round cert)); simpl; split_and!;
    intros; lia.
Qed.

(** ** The helper *)

(** The certificates sent for the requested digests; a read error is logged. *)
Fixpoint helper_serve (st : Store) (address : SocketAddr) (digests : list Digest)
    : Exec (list (SocketAddr * PrimaryMessage)) DagError unit :=
  match digests with
  | [] => mret tt
  | d :: digests' =>
      _ ← (match store_read (digest_bytes d) st with
           | inr (Some data) =>
               certificate ← expect (certificate_decode data)
                               "Failed to deserialize our own certificate";
               modify (fun sent => (address, PMsg_Certificate certificate) :: sent)
           | inr None | inl _ => mret tt
           end);
      helper_serve st address digests'
  end.

(** One iteration of [run]; an unknown requestor is not answered. *)
Definition certificates_helper (c : Committee) (st : Store) (digests : list Digest) (origin : PublicKey)
    : Exec (list (SocketAddr * PrimaryMessage)) DagError unit :=
  match primary c origin with
  | inl _ => mret tt
  | inr x => helper_serve st (primary_to_primary x) digests
  end.

(** Any member can end the task by asking for a key of the store that does not
    hold a certificate, such as a header. *)
Lemma certificates_helper_panics c st d origin x data :
  primary c origin = inr x -> store_read (digest_bytes d) st = inr (Some data) ->
  certificate_decode data = None ->
  forall sent, certificates_helper c st [d] origin sent =
    (sent, Panicked "Failed to deserialize our own certificate").
Proof.
  intros Hp Hr Hd sent. unfold certificates_helper. rewrite Hp. cbn [helper_serve]. rewrite Hr.
  by rewrite Hd.
Qed.

(** ** The payload receiver *)
Definition payload_step (d : Digest) (worker_id : WorkerId) (st : Store) : Store :=
  store_write (digest_bytes d ++ le_bytes 4 worker_id) [] st.

End primary_tasks.
