(* ===== verification/Batching.v ===== *)
(** * Batching: from client messages to headers (src/primary/src/worker.rs,
    src/primary/src/batch_maker.rs, src/primary/src/proposer.rs)

    Three tasks form a pipeline: the receiver of client messages, the
    [BatchMaker] and the header [Proposer].  A channel is the list of the values
    sent and not yet received; it is a field of its sender.  Times are in
    milliseconds. *)
From S2P Require Import Prelude Crypto Config DagMessages.

Section batching.
Context `{Prim : Primitives} `{Txns : Transactions}.

(** [serialized_len]: the panic message differs between the files. *)
Definition serialized_len {S} (msg : string) (tx : Transaction) : Exec S DagError Z :=
  bytes ← expect (bcs_to_bytes tx) msg;
  mret (Z.of_nat (length bytes)).

(** ** The batch maker *)
Record BatchMaker := mkBatchMaker {
  bm_current_batch : list Transaction;
  bm_current_batch_size : Z;
  bm_timer : Z;
  bm_tx_digests : list (list Transaction);
}.

(** [spawn] at time [now], with the first timer of [run]. *)
Definition BatchMaker_spawn (max_batch_delay now : Z) : BatchMaker :=
  mkBatchMaker [] 0 (now + max_batch_delay) [].

Definition bm_collect (tx : Transaction) (len : Z) (b : BatchMaker) : BatchMaker :=
  mkBatchMaker (bm_current_batch b ++ [tx]) (u64_add (bm_current_batch_size b) len)
    (bm_timer b) (bm_tx_digests b).
Definition bm_reset_timer (deadline : Z) (b : BatchMaker) : BatchMaker :=
  mkBatchMaker (bm_current_batch b) (bm_current_batch_size b) deadline (bm_tx_digests b).

(** [seal] *)
Definition seal (b : BatchMaker) : BatchMaker :=
  mkBatchMaker [] 0 (bm_timer b) (bm_tx_digests b ++ [bm_current_batch b]).

(** The arms of [run]. *)
Definition bm_transaction (batch_size max_batch_delay now : Z) (tx : Transaction)
    : Exec BatchMaker DagError unit :=
  len ← serialized_len "failed to compute serialized size for transaction" tx;
  _ ← modify (bm_collect tx len);
  size ← gets bm_current_batch_size;
  if batch_size <=? size
  then modify (fun b => bm_reset_timer (now + max_batch_delay) (seal b))
  else mret tt.

Definition bm_timer_fired (max_batch_delay now : Z) : Exec BatchMaker DagError unit :=
  batch ← gets bm_current_batch;
  _ ← (match batch with [] => mret tt | _ => modify seal end);
  modify (bm_reset_timer (now + max_batch_delay)).

(** ** The header proposer *)
Record HeaderProposer := mkHeaderProposer {
  hp_round : Round;
  hp_txns : list Transaction;
  hp_payload_size : Z;
  hp_timer : Z;
  hp_tx_core : list Header;
}.

Record BatchingConfig := mkBatchingConfig {
  bc_name : PublicKey;
  bc_secret : SecretKey;
  bc_batch_size : Z;
  bc_max_batch_delay : Z;
  bc_header_size : Z;
  bc_max_header_delay : Z;
}.

Context (cfg : BatchingConfig).

Definition HeaderProposer_spawn (now : Z) : HeaderProposer :=
  mkHeaderProposer 1 [] 0 (now + bc_max_header_delay cfg) [].

(** [make_header] *)
Definition make_header : Exec HeaderProposer DagError unit :=
  round ← gets hp_round;
  txns ← gets hp_txns;
  header ← expect (Header_new (bc_name cfg) round txns (bc_secret cfg))
             "failed to serialize transaction while hashing header";
  modify (fun p => mkHeaderProposer (hp_round p) [] (hp_payload_size p) (hp_timer p)
                     (hp_tx_core p ++ [header])).

(** The first half of an iteration of [run]. *)
Definition hp_check (now : Z) : Exec HeaderProposer DagError unit :=
  p ← gets (fun p => p);
  let enough_digests := bc_header_size cfg <=? hp_payload_size p in
  let timer_expired := hp_timer p <=? now in
  if (timer_expired && (0 <? hp_payload_size p)) || enough_digests then
    _ ← make_header;
    modify (fun p => mkHeaderProposer (hp_round p) (hp_txns p) 0
                       (now + bc_max_header_delay cfg) (hp_tx_core p))
  else mret tt.

(** The sum of the sizes of a batch. *)
Fixpoint batch_len {S} (transactions : list Transaction) : Exec S DagError Z :=
  match transactions with
  | [] => mret 0
  | tx :: transactions' =>
      len ← serialized_len "failed to compute serialized transaction size" tx;
      rest ← batch_len transactions';
      mret (u64_add len rest)
  end.

(** The arm of [run] that receives a batch. *)
Definition hp_batch (transactions : list Transaction) : Exec HeaderProposer DagError unit :=
  len ← batch_len transactions;
  modify (fun p => mkHeaderProposer (hp_round p) (hp_txns p ++ transactions)
                     (u64_add (hp_payload_size p) len) (hp_timer p) (hp_tx_core p)).

(** ** The pipeline *)
Record Pipeline := mkPipeline {
  pl_tx_batch_maker : list Transaction;
  pl_maker : BatchMaker;
  pl_proposer : HeaderProposer;
}.

(** [TxReceiverHandler::dispatch]: what does not decode is dropped. *)
Definition tx_dispatch (message : list Z) (p : Pipeline) : Pipeline :=
  match bcs_from_bytes message with
  | Some txn => mkPipeline (pl_tx_batch_maker p ++ [txn]) (pl_maker p) (pl_proposer p)
  | None => p
  end.

Definition on_maker {A} (m : Exec BatchMaker DagError A) : Exec Pipeline DagError A :=
  zoom pl_maker (fun b p => mkPipeline (pl_tx_batch_maker p) b (pl_proposer p)) m.
Definition on_proposer {A} (m : Exec HeaderProposer DagError A) : Exec Pipeline DagError A :=
  zoom pl_proposer (fun h p => mkPipeline (pl_tx_batch_maker p) (pl_maker p) h) m.

Inductive PipelineEvent :=
| PE_Network (message : list Z)
| PE_MakerTransaction
| PE_MakerTimer
| PE_ProposerBatch
| PE_ProposerTimer.

(** One arm of one of the tasks at time [now]; an arm that is not ready does
    nothing.  After an arm the header proposer is at the top of its loop. *)
Definition pl_step (now : Z) (e : PipelineEvent) : Exec Pipeline DagError unit :=
  p ← gets (fun p => p);
  match e with
  | PE_Network message => modify (tx_dispatch message)
  | PE_MakerTransaction =>
      match pl_tx_batch_maker p with
      | [] => mret tt
      | tx :: rest =>
          _ ← modify (fun p => mkPipeline rest (pl_maker p) (pl_proposer p));
          on_maker (bm_transaction (bc_batch_size cfg) (bc_max_batch_delay cfg) now tx)
      end
  | PE_MakerTimer =>
      if bm_timer (pl_maker p) <=? now
      then on_maker (bm_timer_fired (bc_max_batch_delay cfg) now)
      else mret tt
  | PE_ProposerBatch =>
      match bm_tx_digests (pl_maker p) with
      | [] => mret tt
      | batch :: rest =>
          _ ← on_maker (modify (fun b => mkBatchMaker (bm_current_batch b) (bm_current_batch_size b)
                                           (bm_timer b) rest));
          on_proposer (_ ← hp_batch batch; hp_check now)
      end
  | PE_ProposerTimer =>
      if hp_timer (pl_proposer p) <=? now then on_proposer (hp_check now) else mret tt
  end.

(** The tasks as spawned; the header proposer enters its loop. *)
Definition pl_start (now : Z) : Exec Pipeline DagError unit :=
  _ ← modify (fun _ => mkPipeline [] (BatchMaker_spawn (bc_max_batch_delay cfg) now)
                         (HeaderProposer_spawn now));
  on_proposer (hp_check now).

Fixpoint pl_run (events : list (Z * PipelineEvent)) : Exec Pipeline DagError unit :=
  match events with
  | [] => mret tt
  | (now, e) :: events' => _ ← pl_step now e; pl_run events'
  end.

(** ** Nothing is lost on the way *)

(** What clients sent, decoded. *)
Definition submitted (events : list (Z * PipelineEvent)) : list Transaction :=
  omap (fun x => match x.2 with PE_Network message => bcs_from_bytes message | _ => None end) events.

(** What the tasks hold, from the oldest to the newest. *)
Definition bm_all (b : BatchMaker) : list Transaction :=
  concat (bm_tx_digests b) ++ bm_current_batch b.
Definition hp_sent (h : HeaderProposer) : list Transaction := concat (map hdr_payload (hp_tx_core h)).
Definition hp_all (h : HeaderProposer) : list Transaction := hp_sent h ++ hp_txns h.
Definition pl_all (p : Pipeline) : list Transaction :=
  hp_all (pl_proposer p) ++ bm_all (pl_maker p) ++ pl_tx_batch_maker p.

Definition serializable (tx : Transaction) : Prop := is_Some (bcs_to_bytes tx).
Definition tx_size (tx : Transaction) : Z := Z.of_nat (length (default [] (bcs_to_bytes tx))).
Definition total_size (txs : list Transaction) : Z := list_weight tx_size txs.

Lemma total_size_app txs txs' : total_size (txs ++ txs') = total_size txs + total_size txs'.
Proof. unfold total_size. induction txs; simpl; lia. Qed.
Lemma total_size_nonneg txs : 0 <= total_size txs.
Proof. unfold total_size, tx_size. induction txs; simpl; lia. Qed.

Lemma serialized_len_run {S} msg tx (s : S) :
  serializable tx -> serialized_len msg tx s = (s, Ok (tx_size tx)).
Proof. intros [bytes Hb]. unfold serialized_len, tx_size. by rewrite Hb. Qed.

Lemma batch_len_run {S} txs (s : S) :
  Forall serializable txs ->
  exists len, batch_len txs s = (s, Ok len) /\ u64_wrap len = u64_wrap (total_size txs).
Proof.
  induction 1 as [|tx txs Htx _ (len & Hrun & Hlen)]; [by exists 0|].
  exists (u64_add (tx_size tx) len). split.
  - cbn [batch_len]. rewrite (run_bind _ _ s s (tx_size tx)) by by apply serialized_len_run.
    by rewrite (run_bind _ _ s s len).
  - unfold u64_add, u64_wrap in *. rewrite Zmod_mod. rewrite <-Zplus_mod_idemp_r, Hlen.
    by rewrite Zplus_mod_idemp_r.
Qed.

Section theorems.
Context {TxLaws : TransactionsLaws} (c : Committee).
Context (Hkey : ed_keypair (bc_secret cfg) (bc_name cfg)).
Context (Hstake : 0 < stake c (bc_name cfg)).

Record hp_inv (h : HeaderProposer) : Prop := {
  hi_serializable : Forall serializable (hp_txns h);
  hi_headers : Forall (fun header => Header_verify c header = Ok tt) (hp_tx_core h);
  hi_size : hp_payload_size h = u64_wrap (total_size (hp_txns h));
}.

(** A header of serializable transactions is made and verifies. *)
Lemma Header_new_verifies round txns :
  Forall serializable txns ->
  exists header, Header_new (bc_name cfg) round txns (bc_secret cfg) = Some header /\
    hdr_payload header = txns /\ Header_verify c header = Ok tt.
Proof.
  intros Hser. unfold Header_new.
  destruct (mapM_is_Some_2 bcs_to_bytes txns Hser) as [txs Htxs].
  unfold Header_digest at 1. cbn [hdr_payload]. rewrite Htxs. simpl.
  match goal with |- context [Signature_new ?d _] =>
    destruct (Signature_new_verify (bc_secret cfg) (bc_name cfg) d Hkey) as (sig & Hs & Hv) end.
  rewrite Hs. simpl. eexists. split; [reflexivity|]. split; [done|].
  unfold Header_verify, Header_digest. cbn [hdr_payload hdr_author hdr_round hdr_id hdr_signature].
  rewrite Htxs. simpl. rewrite bool_decide_eq_true_2 by done. simpl.
  rewrite (proj2 (Z.ltb_lt _ _) Hstake). simpl. by rewrite Hv.
Qed.

Lemma make_header_run h :
  hp_inv h ->
  exists header, hdr_payload header = hp_txns h /\
    Header_verify c header = Ok tt /\
    make_header h = (mkHeaderProposer (hp_round h) [] (hp_payload_size h) (hp_timer h)
                       (hp_tx_core h ++ [header]), Ok tt).
Proof.
  intros Hinv. destruct (Header_new_verifies (hp_round h) (hp_txns h)) as (header & Hn & Hp & Hv).
  { apply Hinv. }
  exists header. split_and!; [done..|]. unfold make_header. runs. rewrite Hn. by runs.
Qed.

(** The top of the loop: what is held stays, and on an expired timer only a
    payload of size zero is left waiting. *)
Lemma hp_check_run now h :
  hp_inv h ->
  exists h', hp_check now h = (h', Ok tt) /\
    hp_inv h' /\ hp_all h' = hp_all h /\ (hp_timer h <= now -> hp_payload_size h' = 0).
Proof.
  intros Hinv. unfold hp_check. runs.
  destruct ((hp_timer h <=? now) && (0 <? hp_payload_size h)
            || (bc_header_size cfg <=? hp_payload_size h)) eqn:Hcond.
  - destruct (make_header_run h Hinv) as (header & Hp & Hv & Hrun).
    rewrite (run_bind _ _ _ _ _ Hrun). eexists. split; [reflexivity|]. split_and!.
    + split; simpl; [constructor| |done]. apply Forall_app. split; [apply Hinv|]. by constructor.
    + unfold hp_all, hp_sent. simpl. by rewrite map_app, concat_app, <-Hp, app_nil_r; simpl;
        rewrite app_nil_r.
    + done.
  - exists h. split_and!; [done..|]. intros Hle.
    apply orb_false_iff in Hcond as [Hcond _]. rewrite (proj2 (Z.leb_le _ _) Hle) in Hcond.
    apply Z.ltb_ge in Hcond. pose proof (hi_size h Hinv). unfold u64_wrap in *.
    pose proof (Z.mod_pos_bound (total_size (hp_txns h)) (2 ^ 64)). lia.
Qed.

Lemma hp_batch_run now batch h :
  hp_inv h -> Forall serializable batch ->
  exists h', (_ ← hp_batch batch; hp_check now) h = (h', Ok tt) /\
    hp_inv h' /\ hp_all h' = hp_all h ++ batch.
Proof.
  intros Hinv Hser. destruct (batch_len_run batch h Hser) as (len & Hlen & Hmod).
  set (h1 := mkHeaderProposer (hp_round h) (hp_txns h ++ batch) (u64_add (hp_payload_size h) len)
               (hp_timer h) (hp_tx_core h)).
  assert (Hinv1 : hp_inv h1).
  { split; simpl; [apply Forall_app; split; [apply Hinv|done]|apply Hinv|].
    rewrite (hi_size h Hinv), total_size_app. unfold u64_add, u64_wrap in *.
    by rewrite <-Zplus_mod_idemp_r, Hmod, <-Zplus_mod. }
  destruct (hp_check_run now h1 Hinv1) as (h' & Hrun & Hinv' & Hall & _). exists h'.
  rewrite (run_bind _ _ h h1 tt); [|unfold hp_batch; by rewrite (run_bind _ _ _ _ _ Hlen)].
  split_and!; [done..|]. rewrite Hall. unfold hp_all. simpl. by rewrite app_assoc.
Qed.

(** The batch maker. *)
Lemma bm_transaction_run now tx b :
  serializable tx ->
  exists b', bm_transaction (bc_batch_size cfg) (bc_max_batch_delay cfg) now tx b = (b', Ok tt) /\
    bm_all b' = bm_all b ++ [tx].
Proof.
  intros Hser. unfold bm_transaction.
  rewrite (run_bind _ _ _ _ _ (serialized_len_run _ tx b Hser)). runs.
  case_match; eexists; (split; [reflexivity|]); unfold bm_all; simpl.
  - rewrite concat_app. simpl. by rewrite !app_nil_r, app_assoc.
  - by rewrite app_assoc.
Qed.

Lemma bm_timer_run now b :
  exists b', bm_timer_fired (bc_max_batch_delay cfg) now b = (b', Ok tt) /\
    bm_all b' = bm_all b /\ bm_current_batch b' = [].
Proof.
  unfold bm_timer_fired. runs. destruct (bm_current_batch b) as [|tx batch] eqn:Hb; runs.
  - eexists. split; [reflexivity|]. unfold bm_all. simpl. by rewrite Hb.
  - eexists. split; [reflexivity|]. unfold bm_all. simpl. rewrite concat_app, Hb. simpl.
    by rewrite !app_nil_r.
Qed.

(** ** The pipeline *)

Record pl_inv (p : Pipeline) (ds : list Transaction) : Prop := {
  pi_all : pl_all p = ds;
  pi_serializable : Forall serializable ds;
  pi_proposer : hp_inv (pl_proposer p);
}.

Lemma pl_inv_maker p ds tx :
  pl_inv p ds -> tx ∈ bm_all (pl_maker p) ++ pl_tx_batch_maker p -> serializable tx.
Proof.
  intros [<- Hser _] Hin. rewrite Forall_forall in Hser. apply Hser. unfold pl_all.
  apply elem_of_app. by right.
Qed.

Lemma pl_network_inv message p ds :
  pl_inv p ds -> pl_inv (tx_dispatch message p) (ds ++ option_list (bcs_from_bytes message)).
Proof.
  intros [Hall Hser Hhp]. unfold tx_dispatch. destruct (bcs_from_bytes message) as [tx|] eqn:Htx.
  - split; [| |done].
    + unfold pl_all in *. simpl. by rewrite <-Hall, !app_assoc.
    + apply Forall_app. split; [done|]. repeat constructor. eexists. by apply bcs_canonical.
  - simpl. by rewrite app_nil_r.
Qed.

Lemma pl_maker_transaction now p ds tx rest :
  pl_inv p ds -> pl_tx_batch_maker p = tx :: rest ->
  exists b, pl_step now PE_MakerTransaction p = (mkPipeline rest b (pl_proposer p), Ok tt) /\
    pl_inv (mkPipeline rest b (pl_proposer p)) ds.
Proof.
  intros Hinv Hq. destruct (bm_transaction_run now tx (pl_maker p)) as (b & Hrun & Hb).
  { eapply pl_inv_maker; [exact Hinv|]. rewrite Hq. apply elem_of_app. right. left. }
  exists b. unfold pl_step. runs. rewrite Hq. runs. unfold on_maker, zoom. cbn [pl_maker].
  rewrite Hrun. split; [done|]. destruct Hinv as [<- Hser Hhp]. split; [|done..].
  unfold pl_all. simpl. by rewrite Hb, Hq, <-!app_assoc.
Qed.

Lemma pl_maker_timer now p ds :
  pl_inv p ds -> bm_timer (pl_maker p) <= now ->
  exists b, pl_step now PE_MakerTimer p =
      (mkPipeline (pl_tx_batch_maker p) b (pl_proposer p), Ok tt) /\
    bm_current_batch b = [] /\ pl_inv (mkPipeline (pl_tx_batch_maker p) b (pl_proposer p)) ds.
Proof.
  intros Hinv Hle. destruct (bm_timer_run now (pl_maker p)) as (b & Hrun & Hb & Hcur).
  exists b. unfold pl_step. runs. rewrite (proj2 (Z.leb_le _ _) Hle). unfold on_maker, zoom.
  rewrite Hrun. split_and!; [done..|]. destruct Hinv as [<- Hser Hhp]. split; [|done..].
  unfold pl_all. simpl. by rewrite Hb.
Qed.

Lemma pl_proposer_batch now p ds batch rest :
  pl_inv p ds -> bm_tx_digests (pl_maker p) = batch :: rest ->
  exists b h, pl_step now PE_ProposerBatch p = (mkPipeline (pl_tx_batch_maker p) b h, Ok tt) /\
    bm_current_batch b = bm_current_batch (pl_maker p) /\ bm_tx_digests b = rest /\
    pl_inv (mkPipeline (pl_tx_batch_maker p) b h) ds.
Proof.
  intros Hinv Hq. destruct (hp_batch_run now batch (pl_proposer p)) as (h & Hrun & Hhp & Hh).
  { apply Hinv. }
  { apply Forall_forall. intros tx Htx. eapply pl_inv_maker; [exact Hinv|].
    unfold bm_all. rewrite Hq. simpl. set_solver. }
  set (b := mkBatchMaker (bm_current_batch (pl_maker p)) (bm_current_batch_size (pl_maker p))
              (bm_timer (pl_maker p)) rest).
  exists b, h. unfold pl_step. runs. rewrite Hq.
  rewrite (run_bind _ _ p (mkPipeline (pl_tx_batch_maker p) b (pl_proposer p)) tt) by done.
  unfold on_proposer, zoom. cbn [pl_proposer]. rewrite Hrun. split; [reflexivity|].
  split_and!; [done..|]. destruct Hinv as [<- Hser _]. split; [|done..].
  unfold b, pl_all, bm_all. simpl. by rewrite Hh, Hq; simpl; rewrite <-!app_assoc.
Qed.

Lemma pl_proposer_timer now p ds :
  pl_inv p ds -> hp_timer (pl_proposer p) <= now ->
  exists h, pl_step now PE_ProposerTimer p =
      (mkPipeline (pl_tx_batch_maker p) (pl_maker p) h, Ok tt) /\
    hp_payload_size h = 0 /\ pl_inv (mkPipeline (pl_tx_batch_maker p) (pl_maker p) h) ds.
Proof.
  intros Hinv Hle. destruct (hp_check_run now (pl_proposer p)) as (h & Hrun & Hhp & Hh & Hz).
  { apply Hinv. }
  exists h. unfold pl_step. runs. rewrite (proj2 (Z.leb_le _ _) Hle). unfold on_proposer, zoom.
  rewrite Hrun. split_and!; [done|by apply Hz|]. destruct Hinv as [<- Hser _]. split; [|done..].
  unfold pl_all. simpl. by rewrite Hh.
Qed.

Lemma pl_step_inv now e p ds :
  pl_inv p ds ->
  exists p', pl_step now e p = (p', Ok tt) /\ pl_inv p' (ds ++ submitted [(now, e)]).
Proof.
  intros Hinv. destruct e as [message| | | |]; [|unfold submitted; simpl; rewrite app_nil_r..].
  - exists (tx_dispatch message p). split; [done|]. unfold submitted. simpl.
    replace (match bcs_from_bytes message with Some y => [y] | None => [] end)
      with (option_list (bcs_from_bytes message)) by by destruct (bcs_from_bytes message).
    by apply pl_network_inv.
  - destruct (pl_tx_batch_maker p) as [|tx rest] eqn:Hq.
    + exists p. split; [|done]. unfold pl_step. runs. by rewrite Hq.
    + destruct (pl_maker_transaction now p ds tx rest Hinv Hq) as (b & ? & ?). by eexists.
  - destruct (Z.le_gt_cases (bm_timer (pl_maker p)) now) as [Hle|Hgt].
    + destruct (pl_maker_timer now p ds Hinv Hle) as (b & ? & _ & ?). by eexists.
    + exists p. split; [|done]. unfold pl_step. runs. by rewrite (proj2 (Z.leb_gt _ _) Hgt).
  - destruct (bm_tx_digests (pl_maker p)) as [|batch rest] eqn:Hq.
    + exists p. split; [|done]. unfold pl_step. runs. by rewrite Hq.
    + destruct (pl_proposer_batch now p ds batch rest Hinv Hq) as (b & h & ? & _ & _ & ?). by eexists.
  - destruct (Z.le_gt_cases (hp_timer (pl_proposer p)) now) as [Hle|Hgt].
    + destruct (pl_proposer_timer now p ds Hinv Hle) as (h & ? & _ & ?). by eexists.
    + exists p. split; [|done]. unfold pl_step. runs. by rewrite (proj2 (Z.leb_gt _ _) Hgt).
Qed.

Lemma pl_run_inv events p ds :
  pl_inv p ds ->
  exists p', pl_run events p = (p', Ok tt) /\ pl_inv p' (ds ++ submitted events).
Proof.
  revert p ds. induction events as [|[now e] events IH]; intros p ds Hinv.
  { exists p. split; [done|]. unfold submitted. simpl. by rewrite app_nil_r. }
  destruct (pl_step_inv now e p ds Hinv) as (p1 & Hrun1 & Hinv1).
  destruct (IH p1 _ Hinv1) as (p2 & Hrun2 & Hinv2). exists p2. cbn [pl_run].
  rewrite (run_bind _ _ _ _ _ Hrun1). split; [done|].
  change ((now, e) :: events) with ([(now, e)] ++ events). unfold submitted.
  by rewrite omap_app, app_assoc.
Qed.

Lemma pl_start_inv now p0 : exists p, pl_start now p0 = (p, Ok tt) /\ pl_inv p [].
Proof.
  destruct (hp_check_run now (HeaderProposer_spawn now)) as (h & Hrun & Hinv & Hall & _).
  { split; simpl; [constructor|constructor|done]. }
  eexists. unfold pl_start. runs. unfold on_proposer, zoom. cbn [pl_proposer]. rewrite Hrun.
  split; [reflexivity|]. split; [|constructor|done]. unfold pl_all, bm_all. simpl. by rewrite Hall.
Qed.

(** ** Nothing gets stuck

    [drains p p']: the tasks can go from [p] to [p'] on their own. *)
Definition quiet (x : Z * PipelineEvent) : Prop :=
  match x.2 with PE_Network _ => False | _ => True end.
Definition drains (p p' : Pipeline) : Prop :=
  exists events, Forall quiet events /\ pl_run events p = (p', Ok tt).

Lemma drains_refl p : drains p p.
Proof. exists []. by split; [constructor|]. Qed.
Lemma drains_step now e p p1 p2 :
  quiet (now, e) -> pl_step now e p = (p1, Ok tt) -> drains p1 p2 -> drains p p2.
Proof.
  intros He Hrun (events & Hall & Hruns). exists ((now, e) :: events). split; [by constructor|].
  cbn [pl_run]. by rewrite (run_bind _ _ _ _ _ Hrun).
Qed.

Lemma drains_trans p1 p2 p3 : drains p1 p2 -> drains p2 p3 -> drains p1 p3.
Proof.
  intros (events & Hall & Hruns). revert p1 Hruns.
  induction Hall as [|[now e] events He _ IH]; intros p1 Hruns Hd; [by injection Hruns as ->|].
  cbn [pl_run] in Hruns. destruct (pl_step now e p1) as [p [u|x|msg|]] eqn:Hstep; [|unfold mbind,
    exec_mbind, exec_bind in Hruns; by rewrite Hstep in Hruns..].
  rewrite (run_bind _ _ _ _ _ Hstep) in Hruns. destruct u.
  apply (drains_step now e p1 p p3 He Hstep). by apply IH.
Qed.

Lemma submitted_size events tx :
  bcs_from_bytes [] = None -> tx ∈ submitted events -> 0 < tx_size tx.
Proof.
  intros Hnil ([now e] & _ & Htx)%list_elem_of_omap. destruct e; try done. simpl in Htx.
  unfold tx_size. rewrite (bcs_canonical _ _ Htx). simpl. destruct message; [congruence|]. simpl. lia.
Qed.

Lemma drain_transactions p ds :
  pl_inv p ds -> exists p', drains p p' /\ pl_inv p' ds /\ pl_tx_batch_maker p' = [].
Proof.
  remember (pl_tx_batch_maker p) as q eqn:Hq. symmetry in Hq. revert p Hq.
  induction q as [|tx q IH]; intros p Hq Hinv.
  { exists p. split_and!; [apply drains_refl|done..]. }
  destruct (pl_maker_transaction 0 p ds tx q Hinv Hq) as (b & Hrun & Hinv1).
  destruct (IH (mkPipeline q b (pl_proposer p)) eq_refl Hinv1) as (p' & Hd & Hinv' & Hq').
  exists p'. split_and!; [|done..]. by apply (drains_step 0 PE_MakerTransaction p _ _ I Hrun).
Qed.

Lemma drain_batches p ds :
  pl_inv p ds -> pl_tx_batch_maker p = [] -> bm_current_batch (pl_maker p) = [] ->
  exists p', drains p p' /\ pl_inv p' ds /\ pl_tx_batch_maker p' = [] /\ bm_all (pl_maker p') = [].
Proof.
  remember (bm_tx_digests (pl_maker p)) as q eqn:Hq. symmetry in Hq. revert p Hq.
  induction q as [|batch q IH]; intros p Hq Hinv Htx Hcur.
  { exists p. split_and!; [apply drains_refl|done..|]. unfold bm_all. by rewrite Hq, Hcur. }
  destruct (pl_proposer_batch 0 p ds batch q Hinv Hq) as (b & h & Hrun & Hb & Hbq & Hinv1).
  destruct (IH (mkPipeline (pl_tx_batch_maker p) b h) Hbq Hinv1) as (p' & Hd & Hinv' & Htx' & Hall); [done|by rewrite <-Hcur|].
  exists p'. split_and!; [|done..]. by apply (drains_step 0 PE_ProposerBatch p _ _ I Hrun).
Qed.

(** With a payload size of zero nothing waits, unless the sizes wrap. *)
Lemma payload_size_zero h :
  hp_inv h -> hp_payload_size h = 0 -> total_size (hp_txns h) < 2 ^ 64 ->
  Forall (fun tx => 0 < tx_size tx) (hp_txns h) -> hp_txns h = [].
Proof.
  intros Hinv Hz Hlt Hpos. rewrite (hi_size h Hinv) in Hz. unfold u64_wrap in Hz.
  pose proof (total_size_nonneg (hp_txns h)). rewrite Z.mod_small in Hz by lia.
  destruct Hpos as [|tx txs Htx _]; [done|]. exfalso.
  pose proof (total_size_nonneg txs). unfold total_size in *. simpl in Hz. lia.
Qed.

(** C25: what clients submit ends up in headers, in order: however the three tasks
    of the pipeline interleave, none of them panics, every message that
    decodes to a transaction is in exactly one place, a header already sent, the
    proposer's buffer, a batch or a queue, in the order in which the messages
    came, every header passes [Header::verify], and (the sizes summing to less
    than 2^64) the tasks can always bring all of it into headers without further
    messages. *)
Theorem transactions_preserved now p0 events :
  bcs_from_bytes [] = None ->
  exists p, (_ ← pl_start now; pl_run events) p0 = (p, Ok tt) /\
    pl_all p = submitted events /\
    Forall (fun header => Header_verify c header = Ok tt) (hp_tx_core (pl_proposer p)) /\
    (total_size (submitted events) < 2 ^ 64 ->
     exists p', drains p p' /\ hp_sent (pl_proposer p') = submitted events).
Proof.
  intros Hnil. destruct (pl_start_inv now p0) as (p1 & Hstart & Hinv1).
  destruct (pl_run_inv events p1 [] Hinv1) as (p & Hrun & Hinv). simpl in Hinv.
  exists p. rewrite (run_bind _ _ _ _ _ Hstart). split_and!; [done|apply Hinv..|].
  intros Hsize. destruct (drain_transactions p _ Hinv) as (p2 & Hd2 & Hinv2 & Hq2).
  destruct (pl_maker_timer (bm_timer (pl_maker p2)) p2 _ Hinv2) as (b & Hrun3 & Hb & Hinv3); [done|].
  destruct (drain_batches _ _ Hinv3 Hq2 Hb) as (p4 & Hd4 & Hinv4 & Hq4 & Hb4).
  destruct (pl_proposer_timer (hp_timer (pl_proposer p4)) p4 _ Hinv4) as (h & Hrun5 & Hz & Hinv5); [done|].
  exists (mkPipeline (pl_tx_batch_maker p4) (pl_maker p4) h). split.
  - apply (drains_trans p p2); [done|]. eapply drains_step; [|exact Hrun3|]; [done|].
    apply (drains_trans _ p4); [done|]. eapply drains_step; [|exact Hrun5|apply drains_refl]. done.
  - pose proof (pi_all _ _ Hinv5) as Hall. unfold pl_all in Hall. simpl in Hall.
    rewrite Hb4, Hq4, !app_nil_r in Hall. unfold hp_all in Hall.
    assert (hp_txns h = []) as Htxns.
    { apply payload_size_zero; [apply Hinv5|done| |].
      - rewrite <-Hall, total_size_app in Hsize. pose proof (total_size_nonneg (hp_sent h)). lia.
      - apply Forall_forall. intros tx Htx. apply submitted_size with events; [done|].
        rewrite <-Hall. apply elem_of_app. by right. }
    by rewrite Htxns, app_nil_r in Hall.
Qed.

End theorems.
End batching.
