(* ===== verification/Network.v ===== *)
(** * Network: the senders and the receiver (src/network/src/reliable_sender.rs,
    src/network/src/simple_sender.rs, src/network/src/receiver.rs)

    A task that owns a TCP connection is a state machine.  A step is one arm of
    a [select!] or one iteration of a loop; what TCP does (a connection attempt
    succeeds, a write fails, a reply arrives) is chosen by the event.  A oneshot
    channel is named by a number; [closed] is the set of those whose receiver
    was dropped. *)
From S2P Require Import Prelude Config.

Abbreviation Bytes := (list Z) (only parsing).

#[export] Instance SocketAddr_eq_dec : EqDecision SocketAddr.
Proof. solve_decision. Defined.
#[export] Program Instance SocketAddr_countable : Countable SocketAddr :=
  inj_countable' (fun a => (ip a, port a)) (fun x => mkSocketAddr x.1 x.2) _.
Next Obligation. by intros []. Qed.

Record InnerMessage := mkInnerMessage {
  im_data : Bytes;
  im_cancel_handler : nat;
}.

Inductive NetworkError :=
| FailedToConnect (retry : Z)
| FailedToSendMessage
| FailedToReceiveMessage
| FailedToReceiveAck
| UnexpectedAck.

(** The codec of every connection refuses frames above this length, when it writes
    and when it reads. *)
Definition max_frame_length : Z := 320 * 1000 * 1000.
Definition fits (data : Bytes) : bool := Z.of_nat (length data) <=? max_frame_length.

(** ** The reliable sender *)

(** Where the task of a [Connection] is: trying to connect, waiting to try
    again (['waiter]), or in [keep_alive]. *)
Inductive Phase :=
| Connecting (delay retry : Z)
| Waiting (delay retry : Z)
| KeepAlive (pending_replies : list InnerMessage).

Record Connection := mkConnection {
  cn_channel : list InnerMessage;
  cn_buffer : list InnerMessage;
  cn_phase : Phase;
}.

Definition retry_delay : Z := 200.

(** [Connection::spawn] *)
Definition Connection_spawn : Connection := mkConnection [] [] (Connecting retry_delay 0).

Definition cn_set_phase (x : Phase) (c : Connection) : Connection :=
  mkConnection (cn_channel c) (cn_buffer c) x.

(** The loop at the end of [keep_alive] that pops [pending_replies] at the back. *)
Fixpoint requeue (popped buffer : list InnerMessage) : list InnerMessage :=
  match popped with
  | [] => buffer
  | m :: popped' => requeue popped' (m :: buffer)
  end.

(** Leaving [keep_alive]: [run] tries to connect again at once, with the delay
    reset when the connection was made. *)
Definition cn_break (pending_replies : list InnerMessage) (c : Connection) : Connection :=
  mkConnection (cn_channel c) (requeue (reverse pending_replies) (cn_buffer c))
    (Connecting retry_delay 0).

Inductive ConnEvent :=
| CE_Connect (ok : bool)
| CE_Timer
| CE_Recv
| CE_Send (ok : bool)
| CE_Response (response : option Bytes).

Inductive ConnOutput :=
| CnO_Frame (data : Bytes)
| CnO_Reply (handler : nat) (bytes : Bytes)
| CnO_Warn (e : NetworkError)
| CnO_Open.

(** One step of the task; [None]: the arm is not ready in this state.  A frame that
    is too long is not written whatever TCP does, and [CE_Response] is what the
    codec makes of the stream: a reply that is too long can not be read. *)
Definition cn_step (closed : gset nat) (e : ConnEvent) (c : Connection)
    : option (Connection * list ConnOutput) :=
  match cn_phase c, e with
  | Connecting _ _, CE_Connect true => Some (cn_set_phase (KeepAlive []) c, [CnO_Open])
  | Connecting delay retry, CE_Connect false =>
      Some (cn_set_phase (Waiting delay retry) c, [CnO_Warn (FailedToConnect retry)])
  | Waiting delay retry, CE_Timer =>
      Some (cn_set_phase (Connecting (Z.min (2 * delay) 60000) ((retry + 1) `mod` 2 ^ 16)) c, [])
  | Waiting delay retry, CE_Recv =>
      match cn_channel c with
      | [] => None
      | m :: channel =>
          Some (mkConnection channel
                  (filter (fun x => im_cancel_handler x ∉ closed) (cn_buffer c ++ [m]))
                  (cn_phase c), [])
      end
  | KeepAlive pending, CE_Send ok =>
      match cn_buffer c with
      | [] => None
      | m :: buffer =>
          let c := mkConnection (cn_channel c) buffer (cn_phase c) in
          if bool_decide (im_cancel_handler m ∈ closed) then Some (c, [])
          else if ok && fits (im_data m)
          then Some (cn_set_phase (KeepAlive (pending ++ [m])) c, [CnO_Frame (im_data m)])
          else Some (cn_break pending (mkConnection (cn_channel c) (m :: cn_buffer c) (cn_phase c)),
                     [CnO_Warn FailedToSendMessage])
      end
  | KeepAlive pending, CE_Recv =>
      match cn_buffer c, cn_channel c with
      | [], m :: channel => Some (mkConnection channel [m] (cn_phase c), [])
      | _, _ => None
      end
  | KeepAlive pending, CE_Response response =>
      match cn_buffer c with
      | _ :: _ => None
      | [] =>
          match pending with
          | [] => Some (cn_break [] c, [CnO_Warn UnexpectedAck])
          | m :: pending' =>
              match response with
              | Some bytes =>
                  Some (cn_set_phase (KeepAlive pending') c, [CnO_Reply (im_cancel_handler m) bytes])
              | None => Some (cn_break (m :: pending') c, [CnO_Warn FailedToReceiveAck])
              end
          end
      end
  | _, _ => None
  end.

(** [ReliableSender]; [rs_next] names the next oneshot channel. *)
Record ReliableSender := mkReliableSender {
  rs_connections : gmap SocketAddr Connection;
  rs_sent : Z;
  rs_next : nat;
}.

Definition ReliableSender_new : ReliableSender := mkReliableSender ∅ 0 0.

Definition cn_submit (m : InnerMessage) (c : Connection) : Connection :=
  mkConnection (cn_channel c ++ [m]) (cn_buffer c) (cn_phase c).

(** [send], [broadcast], [lucky_broadcast]; the new cancel handlers are returned.
    The permutation that [shuffle] makes is an argument. *)
Definition rs_send (address : SocketAddr) (data : Bytes) (s : ReliableSender) : ReliableSender * nat :=
  let connection := default Connection_spawn (rs_connections s !! address) in
  (mkReliableSender
     (<[address := cn_submit (mkInnerMessage data (rs_next s)) connection]> (rs_connections s))
     (u64_add (rs_sent s) 1) (S (rs_next s)), rs_next s).

Fixpoint rs_broadcast (addresses : list SocketAddr) (data : Bytes) (s : ReliableSender)
    : ReliableSender * list nat :=
  match addresses with
  | [] => (s, [])
  | address :: addresses' =>
      let '(s1, handler) := rs_send address data s in
      let '(s2, handlers) := rs_broadcast addresses' data s1 in
      (s2, handler :: handlers)
  end.

Definition rs_lucky_broadcast (shuffle : list SocketAddr -> list SocketAddr)
    (addresses : list SocketAddr) (data : Bytes) (nodes : nat) (s : ReliableSender)
    : ReliableSender * list nat :=
  rs_broadcast (take nodes (shuffle addresses)) data s.

(** ** The simple sender *)

(** A connection task that has ended ([sc_alive = false]) has dropped its
    channel: sending to it fails. *)
Record SimpleConnection := mkSimpleConnection {
  sc_alive : bool;
  sc_connected : bool;
  sc_channel : list Bytes;
}.
Record SimpleSender := mkSimpleSender {
  ss_connections : gmap SocketAddr SimpleConnection;
  ss_sent : Z;
}.
Definition SimpleSender_new : SimpleSender := mkSimpleSender ∅ 0.

(** [send] *)
Definition ss_send (address : SocketAddr) (data : Bytes) (s : SimpleSender) : SimpleSender :=
  let sent := u64_add (ss_sent s) 1 in
  match ss_connections s !! address with
  | Some (mkSimpleConnection true connected channel) =>
      mkSimpleSender
        (<[address := mkSimpleConnection true connected (channel ++ [data])]> (ss_connections s)) sent
  | _ => mkSimpleSender (<[address := mkSimpleConnection true false [data]]> (ss_connections s)) sent
  end.
Definition ss_broadcast (addresses : list SocketAddr) (data : Bytes) (s : SimpleSender) : SimpleSender :=
  foldl (fun s address => ss_send address data s) s addresses.
Definition ss_lucky_broadcast (shuffle : list SocketAddr -> list SocketAddr)
    (addresses : list SocketAddr) (data : Bytes) (nodes : nat) (s : SimpleSender) : SimpleSender :=
  ss_broadcast (take nodes (shuffle addresses)) data s.

(** The task of a connection: any failure ends it. *)
Definition sc_step (e : ConnEvent) (c : SimpleConnection)
    : option (SimpleConnection * list ConnOutput) :=
  let ended := mkSimpleConnection false (sc_connected c) (sc_channel c) in
  match sc_alive c, sc_connected c, e with
  | true, false, CE_Connect true => Some (mkSimpleConnection true true (sc_channel c), [CnO_Open])
  | true, false, CE_Connect false => Some (ended, [CnO_Warn (FailedToConnect 0)])
  | true, true, CE_Send ok =>
      match sc_channel c with
      | [] => None
      | data :: channel =>
          if ok && fits data then Some (mkSimpleConnection true true channel, [CnO_Frame data])
          else Some (ended, [CnO_Warn FailedToSendMessage])
      end
  | true, true, CE_Response (Some _) => Some (c, [])
  | true, true, CE_Response None => Some (ended, [CnO_Warn FailedToReceiveAck])
  | _, _, _ => None
  end.

(** What was sent last to an address is at the end of the channel of a live
    task. *)
Lemma ss_send_queued address data s :
  exists connected channel, ss_connections (ss_send address data s) !! address =
    Some (mkSimpleConnection true connected (channel ++ [data])).
Proof.
  unfold ss_send. destruct (ss_connections s !! address) as [[[|] connected channel]|]; simpl;
    rewrite lookup_insert_eq; [by do 2 eexists|by exists false, []..].
Qed.

(** ** The receiver *)

(** The task that serves one incoming connection.  [dispatch] is that of a
    [MessageHandler]: what it writes back, and whether it returned [Ok]. *)
Record Runner := mkRunner {
  rn_alive : bool;
  rn_dispatched : list Bytes;
}.

Section receiver.
Context (dispatch : Bytes -> list Bytes * bool).

(** One iteration of the loop of [spawn_runner]: a frame, a frame that could
    not be read (one that is too long among them), or the end of the stream. *)
Definition runner_step (frame : option (NetworkError + Bytes)) (r : Runner) : Runner * list Bytes :=
  if rn_alive r then
    match frame with
    | Some (inr message) =>
        let '(replies, ok) := dispatch message in
        (mkRunner ok (rn_dispatched r ++ [message]), replies)
    | Some (inl _) | None => (mkRunner false (rn_dispatched r), [])
    end
  else (r, []).
End receiver.
