(* ===== verification/NetworkProps.v ===== *)
(** * NetworkProps: a reliable sender and the peer it talks to

    [Link] puts a [Connection] of the reliable sender, the TCP streams to one
    peer and the peer's runners together.  [ln_submitted] and [ln_replied] are
    ghosts: what the caller sent and which of it was answered, in order. *)
From S2P Require Import Prelude Config Network.

Record Link := mkLink {
  ln_sender : Connection;
  ln_closed : gset nat;
  ln_frames : list Bytes;
  ln_replies : list Bytes;
  ln_runner : Runner;
  ln_old : list (list Bytes * Runner);
  ln_submitted : list InnerMessage;
  ln_replied : list InnerMessage;
}.

Definition fresh_runner : Runner := mkRunner true [].
Definition Link_start : Link := mkLink Connection_spawn ∅ [] [] (mkRunner false []) [] [] [].

(** All that the peer has dispatched, on this connection and earlier ones. *)
Definition ln_dispatched (s : Link) : list Bytes :=
  (ln_old s ≫= fun x => rn_dispatched x.2) ++ rn_dispatched (ln_runner s).

Section link.
Context (dispatch : Bytes -> list Bytes * bool).

Inductive LinkEvent :=
| LE_Submit (data : Bytes)
| LE_Cancel (handler : nat)
| LE_Sender (e : ConnEvent)
| LE_Runner
| LE_RunnerStops
| LE_OldRunner (i : nat).

Definition ln_set_sender (c : Connection) (s : Link) : Link :=
  mkLink c (ln_closed s) (ln_frames s) (ln_replies s) (ln_runner s) (ln_old s) (ln_submitted s)
    (ln_replied s).

(** What a step of the sender does to the streams. *)
Definition ln_output (c : Connection) (s : Link) (o : ConnOutput) : Link :=
  match o with
  | CnO_Frame data =>
      mkLink (ln_sender s) (ln_closed s) (ln_frames s ++ [data]) (ln_replies s) (ln_runner s)
        (ln_old s) (ln_submitted s) (ln_replied s)
  | CnO_Reply handler _ =>
      match cn_phase c with
      | KeepAlive (m :: _) =>
          mkLink (ln_sender s) (ln_closed s) (ln_frames s) (tail (ln_replies s)) (ln_runner s)
            (ln_old s) (ln_submitted s) (ln_replied s ++ [m])
      | _ => s
      end
  | CnO_Open =>
      mkLink (ln_sender s) (ln_closed s) [] [] fresh_runner
        ((ln_frames s, ln_runner s) :: ln_old s) (ln_submitted s) (ln_replied s)
  | CnO_Warn _ => s
  end.

(** A reply can only be read if the peer has written it and it is not too long. *)
Definition readable (e : ConnEvent) (s : Link) : bool :=
  match e with
  | CE_Response (Some bytes) => bool_decide (head (ln_replies s) = Some bytes) && fits bytes
  | _ => true
  end.

(** [None]: the event can not happen in this state. *)
Definition link_do (e : LinkEvent) (s : Link) : option Link :=
  match e with
  | LE_Submit data =>
      let m := mkInnerMessage data (length (ln_submitted s)) in
      Some (mkLink (cn_submit m (ln_sender s)) (ln_closed s) (ln_frames s) (ln_replies s) (ln_runner s)
              (ln_old s) (ln_submitted s ++ [m]) (ln_replied s))
  | LE_Cancel handler =>
      Some (mkLink (ln_sender s) ({[handler]} ∪ ln_closed s) (ln_frames s) (ln_replies s) (ln_runner s)
              (ln_old s) (ln_submitted s) (ln_replied s))
  | LE_Sender ev =>
      if readable ev s then
        '(c, outputs) ← cn_step (ln_closed s) ev (ln_sender s);
        Some (ln_set_sender c (foldl (ln_output (ln_sender s)) s outputs))
      else None
  | LE_Runner =>
      match rn_alive (ln_runner s), ln_frames s with
      | true, data :: frames =>
          if fits data then
            let '(r, replies) := runner_step dispatch (Some (inr data)) (ln_runner s) in
            Some (mkLink (ln_sender s) (ln_closed s) frames (ln_replies s ++ replies) r (ln_old s)
                    (ln_submitted s) (ln_replied s))
          else None
      | _, _ => None
      end
  | LE_RunnerStops =>
      Some (mkLink (ln_sender s) (ln_closed s) (ln_frames s) (ln_replies s)
              (runner_step dispatch None (ln_runner s)).1 (ln_old s) (ln_submitted s) (ln_replied s))
  | LE_OldRunner i =>
      match ln_old s !! i with
      | Some (data :: frames, r) =>
          if fits data then
            Some (mkLink (ln_sender s) (ln_closed s) (ln_frames s) (ln_replies s) (ln_runner s)
                    (<[i := (frames, (runner_step dispatch (Some (inr data)) r).1)]> (ln_old s))
                    (ln_submitted s) (ln_replied s))
          else None
      | _ => None
      end
  end.

Fixpoint link_run (events : list LinkEvent) (s : Link) : option Link :=
  match events with
  | [] => Some s
  | e :: events' => s' ← link_do e s; link_run events' s'
  end.

(** ** What the connection still has to deliver *)
Definition pending (c : Connection) : list InnerMessage :=
  match cn_phase c with KeepAlive p => p | _ => [] end.
Definition outstanding (c : Connection) : list InnerMessage :=
  pending c ++ cn_buffer c ++ cn_channel c.

Definition wanted (closed : gset nat) (l : list InnerMessage) : list InnerMessage :=
  filter (fun m => im_cancel_handler m ∉ closed) l.

Lemma requeue_spec l buffer : requeue (reverse l) buffer = l ++ buffer.
Proof.
  revert buffer. induction l as [|m l IH] using rev_ind; intros buffer; [done|].
  rewrite reverse_app. simpl. rewrite IH. by rewrite <-app_assoc.
Qed.

Lemma wanted_app closed l l' : wanted closed (l ++ l') = wanted closed l ++ wanted closed l'.
Proof. apply filter_app. Qed.
Lemma wanted_sublist closed l : wanted closed l `sublist_of` l.
Proof. apply sublist_filter. Qed.
Lemma wanted_idemp closed l : wanted closed (wanted closed l) = wanted closed l.
Proof. apply list_filter_id. by intros m [Hm _]%list_elem_of_filter. Qed.
Lemma wanted_mono closed l l' : l `sublist_of` l' -> wanted closed l `sublist_of` wanted closed l'.
Proof.
  unfold wanted. induction 1 as [|m l l' _ IH|m l l' _ IH]; [done|..]; rewrite ?filter_cons; repeat case_decide;
    rewrite ?filter_cons; repeat case_decide; try done; by constructor.
Qed.
Lemma wanted_grow handler closed l :
  wanted ({[handler]} ∪ closed) l `sublist_of` wanted closed l.
Proof.
  unfold wanted. induction l as [|m l IH]; [done|]. rewrite !filter_cons.
  repeat case_decide; try (by constructor); set_solver.
Qed.

(** A step of the sender, seen as a queue: only cancelled messages disappear,
    but for the one that is answered. *)
Lemma cn_step_queue closed e c c' outputs :
  cn_step closed e c = Some (c', outputs) ->
  (exists m rest bytes, outputs = [CnO_Reply (im_cancel_handler m) bytes] /\ cn_phase c = KeepAlive (m :: rest) /\
     e = CE_Response (Some bytes) /\ outstanding c = m :: outstanding c' /\ pending c' = rest) \/
  ((forall handler bytes, CnO_Reply handler bytes ∉ outputs) /\ outstanding c' `sublist_of` outstanding c /\
   wanted closed (outstanding c) `sublist_of` outstanding c').
Proof.
  unfold cn_step, outstanding, pending. intros Hstep.
  destruct c as [channel buffer [delay retry|delay retry|p]]; cbn [cn_phase cn_buffer cn_channel] in *.
  - destruct e as [[|]| | | |]; try done; injection Hstep as <- <-; right; simpl; split_and!;
      (done || apply wanted_sublist || (intros; set_solver)).
  - destruct e as [| | | |]; try done.
    + injection Hstep as <- <-. right. simpl. split_and!; [set_solver|done|apply wanted_sublist].
    + destruct channel as [|m channel]; [done|]. injection Hstep as <- <-. right. simpl.
      change (filter _ (buffer ++ [m])) with (wanted closed (buffer ++ [m])).
      assert (buffer ++ m :: channel = (buffer ++ [m]) ++ channel) as -> by by rewrite <-app_assoc.
      split_and!; [set_solver|apply sublist_app; [apply wanted_sublist|done]|].
      rewrite wanted_app. apply sublist_app; [done|apply wanted_sublist].
  - destruct e as [ok| | |ok|response]; try done.
    + destruct buffer; [|done]. destruct channel as [|m channel]; [done|]. injection Hstep as <- <-.
      right. simpl. split_and!; [set_solver|done|apply wanted_sublist].
    + destruct buffer as [|m buffer]; [done|]. case_bool_decide as Hc.
      * injection Hstep as <- <-. right. simpl. split_and!; [set_solver| |].
        -- apply sublist_app; [done|]. by constructor.
        -- rewrite wanted_app. apply sublist_app; [apply wanted_sublist|].
           unfold wanted. rewrite filter_cons, decide_False by (intros Hno; by apply Hno).
           apply wanted_sublist.
      * destruct (ok && fits (im_data m)); injection Hstep as <- <-; right; simpl.
        -- rewrite <-app_assoc. split_and!; [set_solver|done|apply wanted_sublist].
        -- rewrite requeue_spec, <-app_assoc. split_and!; [set_solver|done|apply wanted_sublist].
    + destruct buffer; [|done]. destruct p as [|m p].
      { injection Hstep as <- <-. right. simpl. split_and!; [set_solver|done|apply wanted_sublist]. }
      destruct response as [bytes|]; injection Hstep as <- <-.
      * left. by exists m, p, bytes.
      * right. simpl. change (m :: p) with ([m] ++ p). rewrite reverse_app, <-reverse_app, requeue_spec.
        split_and!; [set_solver|by rewrite <-app_assoc|rewrite <-app_assoc; apply wanted_sublist].
Qed.

(** ** The invariant *)
Definition delay_ok (c : Connection) : Prop :=
  match cn_phase c with
  | Connecting delay _ | Waiting delay _ => retry_delay <= delay <= 60000
  | KeepAlive _ => True
  end.

(** A step of the sender, seen from the streams. *)
Lemma cn_step_stream closed e c c' outputs s :
  cn_step closed e c = Some (c', outputs) -> delay_ok c ->
  delay_ok c' /\
  ((outputs = [CnO_Open] /\ cn_phase c' = KeepAlive []) \/
   (exists p m, outputs = [CnO_Frame (im_data m)] /\ cn_phase c = KeepAlive p /\
      cn_phase c' = KeepAlive (p ++ [m])) \/
   (exists p m bytes, outputs = [CnO_Reply (im_cancel_handler m) bytes] /\
      cn_phase c = KeepAlive (m :: p) /\ cn_phase c' = KeepAlive p) \/
   (foldl (ln_output c) s outputs = s /\
    (cn_phase c' = cn_phase c \/ forall p, cn_phase c' <> KeepAlive p))).
Proof.
  unfold cn_step, delay_ok. intros Hstep Hd.
  destruct c as [channel buffer [delay retry|delay retry|p]]; cbn [cn_phase cn_buffer cn_channel] in *.
  - destruct e as [[|]| | | |]; try done; injection Hstep as <- <-; (split; [done|]); [by left|].
    do 3 right. split; [done|]. by right.
  - destruct e as [| | | |]; try done.
    + injection Hstep as <- <-. split; [simpl; unfold retry_delay in *; lia|].
      do 3 right. split; [done|]. by right.
    + destruct channel as [|m channel]; [done|]. injection Hstep as <- <-. split; [done|].
      do 3 right. by split; [|left].
  - destruct e as [ok| | |ok|response]; try done.
    + destruct buffer; [|done]. destruct channel as [|m channel]; [done|]. injection Hstep as <- <-.
      split; [done|]. do 3 right. by split; [|left].
    + destruct buffer as [|m buffer]; [done|]. case_bool_decide as Hc.
      * injection Hstep as <- <-. split; [done|]. do 3 right. by split; [|left].
      * destruct (ok && fits (im_data m)); injection Hstep as <- <-; (split; [done|]).
        -- right. left. by exists p, m.
        -- do 3 right. split; [done|]. by right.
    + destruct buffer; [|done]. destruct p as [|m p].
      { injection Hstep as <- <-. split; [done|]. do 3 right. split; [done|]. by right. }
      destruct response as [bytes|]; injection Hstep as <- <-; (split; [done|]).
      * right. right. left. by exists p, m, bytes.
      * do 3 right. split; [done|]. by right.
Qed.

Record link_inv (s : Link) : Prop := {
  li_order : ln_replied s ++ outstanding (ln_sender s) `sublist_of` ln_submitted s;
  li_kept : wanted (ln_closed s) (ln_submitted s) `sublist_of` ln_replied s ++ outstanding (ln_sender s);
  li_handlers : map im_cancel_handler (ln_submitted s) = seq 0 (length (ln_submitted s));
  li_replied : Forall (fun m => im_data m ∈ ln_dispatched s) (ln_replied s);
  li_stream : forall p, cn_phase (ln_sender s) = KeepAlive p ->
    exists answered rest, p = answered ++ rest /\ length answered = length (ln_replies s) /\
      Forall (fun m => im_data m ∈ ln_dispatched s) answered /\ ln_frames s = map im_data rest;
  li_delay : delay_ok (ln_sender s);
}.

Lemma Link_start_inv : link_inv Link_start.
Proof. split; [done|done|done|constructor|done|done]. Qed.

Lemma runner_step_dispatched frame r :
  rn_dispatched r `prefix_of` rn_dispatched (runner_step dispatch frame r).1.
Proof.
  unfold runner_step. destruct (rn_alive r); [|done]. destruct frame as [[e|m]|]; [done| |done].
  destruct (dispatch m). simpl. by apply prefix_app_r.
Qed.

Lemma foldl_output_dispatched c s outputs data :
  data ∈ ln_dispatched s -> data ∈ ln_dispatched (foldl (ln_output c) s outputs).
Proof.
  revert s. induction outputs as [|o outputs IH]; intros s Hin; [done|]. simpl. apply IH.
  destruct o as [d|h b|w|]; simpl; [done| |done|].
  - by destruct (cn_phase c) as [| |[]].
  - unfold ln_dispatched in *. simpl. set_solver.
Qed.

Lemma ln_old_dispatched s i frames r frames' r' data :
  ln_old s !! i = Some (frames, r) -> rn_dispatched r `prefix_of` rn_dispatched r' ->
  data ∈ (ln_old s ≫= fun x => rn_dispatched x.2) ->
  data ∈ (<[i := (frames', r')]> (ln_old s) ≫= fun x => rn_dispatched x.2).
Proof.
  intros Hi Hpre. rewrite !list_elem_of_bind. intros (x & Hin & Hx).
  apply list_elem_of_lookup in Hx as [j Hj]. destruct (decide (i = j)) as [<-|Hne].
  - rewrite Hi in Hj. injection Hj as <-. exists (frames', r'). split.
    + simpl in Hin |- *. destruct Hpre as [k ->]. set_solver.
    + apply list_elem_of_lookup. exists i. apply list_lookup_insert_eq. by apply lookup_lt_Some in Hi.
  - exists x. split; [done|]. apply list_elem_of_lookup. exists j. by rewrite list_lookup_insert_ne.
Qed.

(** What was dispatched stays dispatched. *)
Lemma link_do_dispatched e s s' data :
  link_do e s = Some s' -> data ∈ ln_dispatched s -> data ∈ ln_dispatched s'.
Proof.
  destruct e as [d|h|ev| | |i]; cbn [link_do]; intros Hdo Hin.
  - by injection Hdo as <-.
  - by injection Hdo as <-.
  - destruct (readable ev s); [|done]. apply bind_Some in Hdo as ([c outputs] & _ & [= <-]).
    by apply (foldl_output_dispatched (ln_sender s) s outputs).
  - destruct (rn_alive (ln_runner s)), (ln_frames s) as [|d frames]; try done. destruct (fits d); [|done].
    destruct (runner_step dispatch (Some (inr d)) (ln_runner s)) as [r replies] eqn:Hr.
    injection Hdo as <-. unfold ln_dispatched in *. simpl.
    pose proof (runner_step_dispatched (Some (inr d)) (ln_runner s)) as [k Hk]. rewrite Hr in Hk.
    simpl in Hk. rewrite Hk. set_solver.
  - injection Hdo as <-. unfold ln_dispatched in *. simpl.
    pose proof (runner_step_dispatched None (ln_runner s)) as [k Hk]. rewrite Hk. set_solver.
  - destruct (ln_old s !! i) as [[[|d frames] r]|] eqn:Hi; [done| |done].
    destruct (fits d); [|done]. injection Hdo as <-.
    unfold ln_dispatched in *. simpl. apply elem_of_app in Hin as [Hin|Hin]; apply elem_of_app.
    + left. apply (ln_old_dispatched s i (d :: frames) r); [done|apply runner_step_dispatched|done].
    + by right.
Qed.

Lemma foldl_output_ghost c s outputs :
  ln_submitted (foldl (ln_output c) s outputs) = ln_submitted s /\
  ln_closed (foldl (ln_output c) s outputs) = ln_closed s.
Proof.
  induction outputs as [|o outputs [H1 H2]] using rev_ind; [done|]. rewrite foldl_app. simpl.
  destruct o; simpl; try done. by destruct (cn_phase _) as [| |[]].
Qed.

Lemma link_do_submitted e s s' :
  link_do e s = Some s' -> ln_submitted s `prefix_of` ln_submitted s'.
Proof.
  destruct e as [d|h|ev| | |i]; cbn [link_do]; intros Hdo.
  - injection Hdo as <-. simpl. by apply prefix_app_r.
  - by injection Hdo as <-.
  - destruct (readable ev s); [|done]. apply bind_Some in Hdo as ([c outputs] & _ & [= <-]).
    simpl. by rewrite (proj1 (foldl_output_ghost _ _ _)).
  - destruct (rn_alive (ln_runner s)), (ln_frames s) as [|d frames]; try done. destruct (fits d); [|done].
    destruct (runner_step dispatch (Some (inr d)) (ln_runner s)) as [r replies] eqn:Hr.
    by injection Hdo as <-.
  - by injection Hdo as <-.
  - destruct (ln_old s !! i) as [[[|d frames] r]|] eqn:Hi; [done| |done]. destruct (fits d); [|done]. by injection Hdo as <-.
Qed.

(** ** It is preserved *)
Section preserved.
Context (P : Bytes -> Prop).
Context (Hone : forall m, P m -> exists ack ok, dispatch m = ([ack], ok)).

Definition all_ok (s : Link) : Prop := Forall (fun m => P (im_data m)) (ln_submitted s).

Lemma link_submit_inv data s s' :
  link_inv s -> link_do (LE_Submit data) s = Some s' -> link_inv s'.
Proof.
  intros [Hord Hkept Hh Hr Hst Hd] [= <-].
  set (m := mkInnerMessage data (length (ln_submitted s))).
  assert (Ho : outstanding (cn_submit m (ln_sender s)) = outstanding (ln_sender s) ++ [m]).
  { unfold outstanding, pending, cn_submit. simpl. by rewrite <-!app_assoc. }
  split; simpl; [| | |done|done|done].
  - rewrite Ho, app_assoc. by apply sublist_app.
  - rewrite Ho, app_assoc, wanted_app. apply sublist_app; [done|apply wanted_sublist].
  - rewrite map_app, length_app, seq_app, Hh. done.
Qed.

Lemma link_cancel_inv handler s s' :
  link_inv s -> link_do (LE_Cancel handler) s = Some s' -> link_inv s'.
Proof.
  intros [Hord Hkept Hh Hr Hst Hd] [= <-]. split; simpl; try done.
  etrans; [apply wanted_grow|done].
Qed.

Lemma link_sender_inv ev s s' :
  link_inv s -> link_do (LE_Sender ev) s = Some s' -> link_inv s'.
Proof.
  intros Hinv Hdo. pose proof (fun d => link_do_dispatched _ _ _ d Hdo) as Hmono. revert Hmono.
  cbn [link_do] in Hdo. destruct (readable ev s) eqn:Hread; [|done].
  apply bind_Some in Hdo as ([c outputs] & Hstep & [= <-]). intros Hmono.
  destruct Hinv as [Hord Hkept Hh Hr Hst Hd].
  destruct (cn_step_stream _ _ _ _ _ s Hstep Hd) as [Hd' Hcase].
  destruct (cn_step_queue _ _ _ _ _ Hstep) as
    [(m & rest & bytes & -> & Hph & -> & Hout & Hpend)|(Hno & Hsub & Hwant)].
  - (* a reply *)
    destruct (Hst _ Hph) as (answered & rest' & Hp & Hlen & Hans & Hfr).
    unfold readable in Hread. apply andb_true_iff in Hread as [Hread%bool_decide_eq_true _].
    destruct (ln_replies s) as [|b replies] eqn:Hreps; [done|].
    destruct answered as [|m0 answered]; [done|]. injection Hp as -> ->.
    apply Forall_cons in Hans as [Hm Hans].
    destruct Hcase as [[? _]|[(p & m' & ? & _)|[(p & m' & b' & Heq & Hph' & Hphc)|[Hid _]]]]; try done.
    2:{ exfalso. simpl in Hid. rewrite Hph in Hid. apply (f_equal (fun x => length (ln_replied x))) in Hid.
        simpl in Hid. rewrite length_app in Hid. simpl in Hid. lia. }
    rewrite Hph in Hph'. injection Hph' as <- <-. simpl in Hmono |- *. rewrite Hph in Hmono |- *. simpl in Hmono |- *.
    split; simpl; [..|done].
    + rewrite <-app_assoc. simpl. by rewrite <-Hout.
    + rewrite <-app_assoc. simpl. by rewrite <-Hout.
    + done.
    + apply Forall_app. split; [|by constructor; [apply Hmono|constructor]].
      eapply Forall_impl; [exact Hr|]. intros x Hx. by apply Hmono.
    + intros p Hp. rewrite Hphc in Hp. injection Hp as <-. exists answered, rest'.
      rewrite Hreps. simpl in Hlen |- *. split_and!; [done|lia| |done].
      eapply Forall_impl; [exact Hans|]. intros x Hx. by apply Hmono.
  - (* no reply *)
    assert (Hg2 : ln_replied (foldl (ln_output (ln_sender s)) s outputs) = ln_replied s).
    { clear -Hno. induction outputs as [|o outputs IH] using rev_ind; [done|].
      rewrite foldl_app. simpl. destruct o as [|h bytes| |]; simpl; try (apply IH; intros ?? Hin;
        eapply Hno, elem_of_app; by left).
      exfalso. eapply Hno. apply elem_of_app. right. left. }
    destruct (foldl_output_ghost (ln_sender s) s outputs) as [Hg1 Hg3].
    split; simpl; rewrite ?Hg1, ?Hg2, ?Hg3; [| |done| | |done].
    + etrans; [|exact Hord]. by apply sublist_app.
    + rewrite <-wanted_idemp. etrans; [apply wanted_mono, Hkept|]. rewrite wanted_app.
      apply sublist_app; [apply wanted_sublist|done].
    + eapply Forall_impl; [exact Hr|]. intros x Hx. by apply (Hmono (im_data x)).
    + intros p Hp.
      destruct Hcase as [[-> Hphc]|[(p0 & m & -> & Hph & Hphc)|[(p0 & m & b & -> & _)|[Hid [Hsame|Hnk]]]]].
      * rewrite Hphc in Hp. injection Hp as <-. exists [], []. by split_and!.
      * rewrite Hphc in Hp. injection Hp as <-.
        destruct (Hst _ Hph) as (answered & rest & -> & Hlen & Hans & Hfr). exists answered, (rest ++ [m]).
        simpl. rewrite Hfr, map_app. by split_and!; [by rewrite <-app_assoc|..].
      * exfalso. eapply Hno. left.
      * rewrite Hid. apply Hst. congruence.
      * by destruct (Hnk p).
Qed.

Lemma link_runner_inv s s' :
  all_ok s -> link_inv s -> link_do LE_Runner s = Some s' -> link_inv s'.
Proof.
  intros Hall Hinv Hdo. pose proof (fun d => link_do_dispatched _ _ _ d Hdo) as Hmono.
  destruct Hinv as [Hord Hkept Hh Hr Hst Hd]. cbn [link_do] in Hdo.
  destruct (rn_alive (ln_runner s)) eqn:Hal, (ln_frames s) as [|d frames] eqn:Hfr; try done.
  destruct (fits d); [|done].
  unfold runner_step in Hdo. rewrite Hal in Hdo. destruct (dispatch d) as [replies ok] eqn:Hdis.
  injection Hdo as <-. split; simpl in *; [done..| | |done].
  - eapply Forall_impl; [exact Hr|]. intros x Hx. by apply Hmono.
  - intros p Hp. destruct (Hst p Hp) as (answered & [|m rest] & -> & Hlen & Hans & Hm); [done|].
    injection Hm as -> ->. exists (answered ++ [m]), rest.
    assert (Hin : m ∈ ln_submitted s).
    { eapply elem_of_submseteq; [|by apply sublist_submseteq].
      unfold outstanding, pending. rewrite Hp. set_solver. }
    unfold all_ok in Hall. rewrite Forall_forall in Hall.
    destruct (Hone _ (Hall _ Hin)) as (ack & ok' & Heq). rewrite Hdis in Heq. injection Heq as -> ->.
    rewrite !length_app. simpl. split_and!; [by rewrite <-app_assoc|lia| |done].
    apply Forall_app. split.
    + eapply Forall_impl; [exact Hans|]. intros x Hx. by apply Hmono.
    + constructor; [|constructor]. unfold ln_dispatched. simpl. set_solver.
Qed.

Lemma link_do_inv e s s' : all_ok s -> link_inv s -> link_do e s = Some s' -> link_inv s'.
Proof.
  intros Hall Hinv Hdo. destruct e as [d|h|ev| | |i].
  - by eapply link_submit_inv.
  - by eapply link_cancel_inv.
  - by eapply link_sender_inv.
  - by eapply link_runner_inv.
  - pose proof (fun d => link_do_dispatched _ _ _ d Hdo) as Hmono.
    destruct Hinv as [Hord Hkept Hh Hr Hst Hd]. injection Hdo as <-. split; simpl in *; try done.
    + eapply Forall_impl; [exact Hr|]. intros x Hx. by apply Hmono.
    + intros p Hp. destruct (Hst p Hp) as (answered & rest & -> & Hlen & Hans & Hm).
      exists answered, rest. split_and!; try done.
      eapply Forall_impl; [exact Hans|]. intros x Hx. by apply Hmono.
  - pose proof (fun d => link_do_dispatched _ _ _ d Hdo) as Hmono.
    destruct Hinv as [Hord Hkept Hh Hr Hst Hd]. cbn [link_do] in Hdo.
    destruct (ln_old s !! i) as [[[|d frames] r]|] eqn:Hi; [done| |done].
    destruct (fits d); [|done]. injection Hdo as <-.
    split; simpl in *; try done.
    + eapply Forall_impl; [exact Hr|]. intros x Hx. by apply Hmono.
    + intros p Hp. destruct (Hst p Hp) as (answered & rest & -> & Hlen & Hans & Hm).
      exists answered, rest. split_and!; try done.
      eapply Forall_impl; [exact Hans|]. intros x Hx. by apply Hmono.
Qed.

Lemma link_run_submitted events s s' :
  link_run events s = Some s' -> ln_submitted s `prefix_of` ln_submitted s'.
Proof.
  revert s. induction events as [|e events IH]; intros s; [by intros [= ->]|].
  cbn [link_run]. intros (s1 & Hdo & Hrun)%bind_Some. etrans; [by eapply link_do_submitted|by apply IH].
Qed.

Lemma link_run_inv events s s' :
  all_ok s' -> link_inv s -> link_run events s = Some s' -> link_inv s'.
Proof.
  intros Hall. revert s. induction events as [|e events IH]; intros s Hinv; [by intros [= ->]|].
  cbn [link_run]. intros (s1 & Hdo & Hrun)%bind_Some. apply (IH s1); [|done].
  apply (link_do_inv e s); [|done|done]. unfold all_ok in *.
  pose proof (link_do_submitted _ _ _ Hdo) as [k1 Hk1].
  pose proof (link_run_submitted _ _ _ Hrun) as [k2 Hk2]. rewrite Hk2, Hk1 in Hall.
  by apply Forall_app in Hall as [[Hall _]%Forall_app _].
Qed.


(** ** It can always deliver *)
Context (Hfits : forall m, P m -> fits m = true).
Context (Hok : forall m ack ok, P m -> dispatch m = ([ack], ok) -> ok = true /\ fits ack = true).

Definition internal (e : LinkEvent) : Prop :=
  match e with LE_Sender _ | LE_Runner => True | _ => False end.
Definition goes (s s' : Link) : Prop :=
  exists events, Forall internal events /\ link_run events s = Some s'.

Lemma goes_refl s : goes s s.
Proof. exists []. by split; [constructor|]. Qed.
Lemma goes_step e s s1 s2 : internal e -> link_do e s = Some s1 -> goes s1 s2 -> goes s s2.
Proof.
  intros He Hdo (events & Hall & Hrun). exists (e :: events). split; [by constructor|].
  cbn [link_run]. by rewrite Hdo.
Qed.
Lemma goes_one e s s1 : internal e -> link_do e s = Some s1 -> goes s s1.
Proof. intros He Hdo. by apply (goes_step e s s1); [..|apply goes_refl]. Qed.
Lemma goes_trans s1 s2 s3 : goes s1 s2 -> goes s2 s3 -> goes s1 s3.
Proof.
  intros (events & Hall & Hrun). revert s1 Hrun. induction Hall as [|e events He _ IH]; intros s1 Hrun H3.
  { by injection Hrun as ->. }
  cbn [link_run] in Hrun. apply bind_Some in Hrun as (s & Hdo & Hrun). by eapply goes_step, IH.
Qed.

Lemma internal_keeps e s s' :
  internal e -> link_do e s = Some s' ->
  ln_submitted s' = ln_submitted s /\ ln_closed s' = ln_closed s.
Proof.
  destruct e as [d|h|ev| | |i]; try done; intros _; cbn [link_do].
  - destruct (readable ev s); [|done]. intros ([c outputs] & _ & [= <-])%bind_Some.
    apply foldl_output_ghost.
  - destruct (rn_alive (ln_runner s)), (ln_frames s) as [|d frames]; try done. destruct (fits d); [|done].
    destruct (runner_step dispatch (Some (inr d)) (ln_runner s)) as [r replies]. by intros [= <-].
Qed.
Lemma goes_keeps s s' :
  goes s s' -> ln_submitted s' = ln_submitted s /\ ln_closed s' = ln_closed s.
Proof.
  intros (events & Hall & Hrun). revert s Hrun. induction Hall as [|e events He _ IH]; intros s Hrun.
  { by injection Hrun as ->. }
  cbn [link_run] in Hrun. apply bind_Some in Hrun as (s1 & Hdo & Hrun).
  destruct (IH s1 Hrun) as [-> ->]. by eapply internal_keeps.
Qed.

(** A connection with a live runner that has dispatched all frames and whose replies
    can be read. *)
Record ready (s : Link) (p b ch : list InnerMessage) : Prop := {
  rd_phase : cn_phase (ln_sender s) = KeepAlive p;
  rd_buffer : cn_buffer (ln_sender s) = b;
  rd_channel : cn_channel (ln_sender s) = ch;
  rd_frames : ln_frames s = [];
  rd_alive : rn_alive (ln_runner s) = true;
  rd_replies : length (ln_replies s) = length p;
  rd_readable : Forall (fun ack => fits ack = true) (ln_replies s);
}.

(** Any state comes to a fresh connection. *)
Lemma open_from_connecting s delay retry :
  cn_phase (ln_sender s) = Connecting delay retry ->
  exists s', goes s s' /\ ready s' [] (cn_buffer (ln_sender s)) (cn_channel (ln_sender s)).
Proof.
  destruct s as [[ch b ph] closed fr rep rn old sub re]. simpl. intros ->. eexists. split.
  - by apply (goes_one (LE_Sender (CE_Connect true))).
  - by split.
Qed.

Lemma open_connection s :
  exists s' b ch, goes s s' /\ ready s' [] b ch.
Proof.
  destruct (cn_phase (ln_sender s)) as [delay retry|delay retry|p] eqn:Hph.
  - destruct (open_from_connecting s delay retry Hph) as (s' & ? & ?). by do 3 eexists.
  - destruct s as [[ch b ph] closed fr rep rn old sub re]. simpl in Hph. subst ph.
    destruct (open_from_connecting
      (mkLink (mkConnection ch b (Connecting (Z.min (2 * delay) 60000) ((retry + 1) `mod` 2 ^ 16)))
         closed fr rep rn old sub re) _ _ eq_refl) as (s' & ? & ?).
    do 3 eexists. split; [|done]. by eapply (goes_step (LE_Sender CE_Timer)).
  - destruct s as [[ch b ph] closed fr rep rn old sub re]. simpl in Hph. subst ph.
    induction b as [|m b IH].
    + destruct (open_from_connecting (mkLink (cn_break p (mkConnection ch [] (KeepAlive p)))
        closed fr rep rn old sub re) _ _ eq_refl) as (s' & ? & ?).
      do 3 eexists. split; [|done]. eapply (goes_step (LE_Sender (CE_Response None))); [done| |done].
      cbn. by destruct p.
    + destruct (decide (im_cancel_handler m ∈ closed)) as [Hin|Hin].
      * destruct IH as (s' & b' & ch' & Hgo & Hrd). exists s', b', ch'. split; [|done].
        eapply (goes_step (LE_Sender (CE_Send true))); [done| |exact Hgo]. cbn.
        by rewrite bool_decide_eq_true_2.
      * destruct (open_from_connecting (mkLink (cn_break p (mkConnection ch (m :: b) (KeepAlive p)))
          closed fr rep rn old sub re) _ _ eq_refl) as (s' & ? & ?).
        do 3 eexists. split; [|done]. eapply (goes_step (LE_Sender (CE_Send false))); [done| |done].
        cbn. by rewrite bool_decide_eq_false_2.
Qed.

Definition all_data (l : list InnerMessage) : Prop := Forall (fun m => P (im_data m)) l.

(** Sending the buffer: every frame is dispatched and replied to. *)
Lemma serve_buffer s p b ch :
  ready s p b ch -> all_data b -> exists s' p', goes s s' /\ ready s' p' [] ch.
Proof.
  intros Hrd Hb. revert s p Hrd. induction Hb as [|m b Hm Hb IH]; intros s p Hrd.
  { exists s, p. split; [apply goes_refl|done]. }
  destruct s as [[ch' b' ph] closed fr rep [al dis] old sub re].
  destruct Hrd as [Hph Hbuf Hch Hfr Hal Hrep Hread]; simpl in *; subst.
  destruct (decide (im_cancel_handler m ∈ closed)) as [Hin|Hin].
  - destruct (IH (mkLink (mkConnection ch b (KeepAlive p)) closed [] rep (mkRunner true dis) old sub re) p)
      as (s' & p' & Hgo & Hrd'); [by split|]. exists s', p'. split; [|done].
    eapply (goes_step (LE_Sender (CE_Send true))); [done| |exact Hgo]. cbn.
    by rewrite bool_decide_eq_true_2.
  - destruct (Hone _ Hm) as (ack & ok & Hdis). destruct (Hok _ _ _ Hm Hdis) as [-> Hack].
    destruct (IH (mkLink (mkConnection ch b (KeepAlive (p ++ [m]))) closed [] (rep ++ [ack])
                    (mkRunner true (dis ++ [im_data m])) old sub re) (p ++ [m]))
      as (s' & p' & Hgo & Hrd').
    { split; simpl; try done; [rewrite !length_app; simpl; lia|]. apply Forall_app. auto. }
    exists s', p'. split; [|done].
    eapply (goes_step (LE_Sender (CE_Send true))); [done| |].
    { cbn. rewrite bool_decide_eq_false_2, (Hfits _ Hm) by done. reflexivity. }
    eapply (goes_step LE_Runner); [done| |exact Hgo]. cbn. rewrite (Hfits _ Hm), Hdis. reflexivity.
Qed.

(** Reading the replies. *)
Lemma read_replies s p ch :
  ready s p [] ch -> exists s', goes s s' /\ ready s' [] [] ch.
Proof.
  revert s. induction p as [|m p IH]; intros s Hrd.
  { exists s. split; [apply goes_refl|done]. }
  destruct s as [[ch' b' ph] closed fr rep rn old sub re].
  destruct Hrd as [Hph Hbuf Hch Hfr Hal Hrep Hread]; simpl in *; subst.
  destruct rep as [|bytes rep]; [done|]. simpl in Hrep. apply Forall_cons in Hread as [Hb Hread].
  destruct (IH (mkLink (mkConnection ch [] (KeepAlive p)) closed [] rep rn old sub (re ++ [m])))
    as (s' & Hgo & Hrd'); [split; simpl; try done; lia|]. exists s'. split; [|done].
  eapply (goes_step (LE_Sender (CE_Response (Some bytes)))); [done| |exact Hgo]. cbn.
  by rewrite bool_decide_eq_true_2, Hb.
Qed.

Lemma serve_channel s ch :
  ready s [] [] ch -> all_data ch -> exists s', goes s s' /\ ready s' [] [] [].
Proof.
  intros Hrd Hch. revert s Hrd. induction Hch as [|m ch Hm Hch IH]; intros s Hrd.
  { exists s. split; [apply goes_refl|done]. }
  assert (exists s1, goes s s1 /\ ready s1 [] [m] ch) as (s1 & Hgo1 & Hrd1).
  { destruct s as [[ch' b' ph] closed fr rep rn old sub re].
    destruct Hrd as [Hph Hbuf Hch' Hfr Hal Hrep Hread]; simpl in *; subst. eexists. split.
    - by eapply (goes_one (LE_Sender CE_Recv)).
    - by split. }
  destruct (serve_buffer s1 [] [m] ch Hrd1) as (s2 & p2 & Hgo2 & Hrd2); [by constructor|].
  destruct (read_replies s2 p2 ch Hrd2) as (s3 & Hgo3 & Hrd3).
  destruct (IH s3 Hrd3) as (s4 & Hgo4 & Hrd4). exists s4. split; [|done].
  by eapply goes_trans, goes_trans, goes_trans.
Qed.

(** C27: nothing gets stuck: if no message is longer than a frame may be, and the
    peer's handler accepts every one of them with one reply that is not either,
    then from whatever state the sender and the connection have come to, there is
    a continuation without further calls in which every message that was submitted
    and not cancelled is dispatched by the peer and answered, in order, and the
    sender holds nothing any more. *)
Theorem reliable_sender_delivers events s :
  link_run events Link_start = Some s -> all_ok s ->
  exists s', goes s s' /\ outstanding (ln_sender s') = [] /\
    ln_submitted s' = ln_submitted s /\
    wanted (ln_closed s) (ln_submitted s) `sublist_of` ln_replied s' /\
    Forall (fun m => im_data m ∈ ln_dispatched s') (ln_replied s').
Proof.
  intros Hrun Hall. pose proof (link_run_inv events _ _ Hall Link_start_inv Hrun) as Hinv.
  assert (Hinv' : forall s1, goes s s1 -> link_inv s1).
  { intros s1 Hgo. destruct (goes_keeps _ _ Hgo) as [Hsub _]. destruct Hgo as (events' & _ & Hrun').
    apply (link_run_inv events' s); [|done..]. unfold all_ok. by rewrite Hsub. }
  destruct (open_connection s) as (s1 & b & ch & Hgo1 & Hrd1).
  assert (Hdata : all_data (b ++ ch)).
  { apply Forall_forall. intros m Hin. unfold all_ok in Hall. rewrite Forall_forall in Hall. apply Hall.
    destruct (goes_keeps _ _ Hgo1) as [<- _].
    eapply elem_of_submseteq; [|apply sublist_submseteq, li_order, (Hinv' _ Hgo1)].
    unfold outstanding. rewrite (rd_buffer _ _ _ _ Hrd1), (rd_channel _ _ _ _ Hrd1).
    apply elem_of_app. right. apply elem_of_app. by right. }
  apply Forall_app in Hdata as [Hb Hch].
  destruct (serve_buffer s1 [] b ch Hrd1 Hb) as (s2 & p2 & Hgo2 & Hrd2).
  destruct (read_replies s2 p2 ch Hrd2) as (s3 & Hgo3 & Hrd3).
  destruct (serve_channel s3 ch Hrd3 Hch) as (s4 & Hgo4 & Hrd4).
  assert (Hgo : goes s s4) by by eapply goes_trans, goes_trans, goes_trans.
  destruct (goes_keeps _ _ Hgo) as [Hsub Hclosed]. pose proof (Hinv' _ Hgo) as Hi4.
  assert (Hout : outstanding (ln_sender s4) = []).
  { unfold outstanding, pending. by rewrite (rd_phase _ _ _ _ Hrd4), (rd_buffer _ _ _ _ Hrd4),
      (rd_channel _ _ _ _ Hrd4). }
  exists s4. split_and!; [done|done|done| |apply (li_replied _ Hi4)].
  rewrite <-Hsub, <-Hclosed. pose proof (li_kept _ Hi4) as Hk. by rewrite Hout, app_nil_r in Hk.
Qed.

End preserved.


End link.
