(* ===== verification/WorkerTasks.v ===== *)
(** * WorkerTasks: the tasks of a stand-alone worker (src/worker/src/worker.rs,
    batch_maker.rs, quorum_waiter.rs, processor.rs, helper.rs,
    primary_connector.rs)

    The worker collects transactions into batches, broadcasts them to the other
    workers, waits for a quorum of acknowledgements, stores the batch under its
    digest and tells its primary; it stores the batches of others the same way
    and serves them on request. *)
From S2P Require Import Prelude Crypto Config DagMessages Store Network Batching.

Inductive WorkerMessage `{Txns : Transactions} :=
| WM_Batch (batch : list Transaction)
| WM_BatchRequest (missing : list Digest) (origin : PublicKey).

Inductive WorkerPrimaryMessage :=
| WPM_OurBatch (d : Digest) (id : WorkerId)
| WPM_OthersBatch (d : Digest) (id : WorkerId).

(** [bincode] of the worker's messages. *)
Class WorkerCodec `{Txns : Transactions} := {
  worker_encode : WorkerMessage -> option Bytes;
  worker_decode : Bytes -> option WorkerMessage;
  worker_primary_encode : WorkerPrimaryMessage -> option Bytes;
}.
Class WorkerCodecLaws `{WorkerCodec} : Prop := {
  worker_decode_encode : forall m bytes, worker_encode m = Some bytes -> worker_decode bytes = Some m;
}.

Section worker.
Context `{Prim : Primitives} `{Txns : Transactions} `{Rocks : RocksDB} `{Codec : !WorkerCodec}.

(** ** The batch maker *)
Record QuorumWaiterMessage := mkQuorumWaiterMessage {
  qm_batch : Bytes;
  qm_handlers : list (PublicKey * nat);
}.

Record WorkerBatchMaker := mkWorkerBatchMaker {
  wb_current_batch : list Transaction;
  wb_current_batch_size : Z;
  wb_timer : Z;
  wb_network : ReliableSender;
  wb_tx_message : list QuorumWaiterMessage;
}.

Definition wb_spawn (max_batch_delay now : Z) : WorkerBatchMaker :=
  mkWorkerBatchMaker [] 0 (now + max_batch_delay) ReliableSender_new [].

Definition wb_collect (tx : Transaction) (len : Z) (b : WorkerBatchMaker) : WorkerBatchMaker :=
  mkWorkerBatchMaker (wb_current_batch b ++ [tx]) (u64_add (wb_current_batch_size b) len)
    (wb_timer b) (wb_network b) (wb_tx_message b).
Definition wb_reset_timer (deadline : Z) (b : WorkerBatchMaker) : WorkerBatchMaker :=
  mkWorkerBatchMaker (wb_current_batch b) (wb_current_batch_size b) deadline (wb_network b)
    (wb_tx_message b).

(** [seal] *)
Definition wb_seal (workers_addresses : list (PublicKey * SocketAddr))
    : Exec WorkerBatchMaker DagError unit :=
  batch ← gets wb_current_batch;
  _ ← modify (fun b => mkWorkerBatchMaker [] 0 (wb_timer b) (wb_network b) (wb_tx_message b));
  serialized ← expect (worker_encode (WM_Batch batch)) "Failed to serialize our own batch";
  network ← gets wb_network;
  let '(network, handlers) := rs_broadcast (map snd workers_addresses) serialized network in
  modify (fun b =>
    mkWorkerBatchMaker (wb_current_batch b) (wb_current_batch_size b) (wb_timer b) network
      (wb_tx_message b ++ [mkQuorumWaiterMessage serialized (zip (map fst workers_addresses) handlers)])).

(** The arms of [run]. *)
Definition wb_transaction (batch_size max_batch_delay now : Z)
    (workers_addresses : list (PublicKey * SocketAddr)) (tx : Transaction)
    : Exec WorkerBatchMaker DagError unit :=
  len ← serialized_len "failed to compute serialized transaction size" tx;
  _ ← modify (wb_collect tx len);
  size ← gets wb_current_batch_size;
  if batch_size <=? size
  then _ ← wb_seal workers_addresses; modify (wb_reset_timer (now + max_batch_delay))
  else mret tt.

Definition wb_timer_fired (max_batch_delay now : Z) (workers_addresses : list (PublicKey * SocketAddr))
    : Exec WorkerBatchMaker DagError unit :=
  batch ← gets wb_current_batch;
  _ ← (match batch with [] => mret tt | _ => wb_seal workers_addresses end);
  modify (wb_reset_timer (now + max_batch_delay)).

(** ** The quorum waiter *)

(** What becomes of a batch: delivered, dropped when no handler is left, or
    still waiting for some handlers. *)
Inductive QuorumWait :=
| QW_Delivered
| QW_Dropped
| QW_Waiting (waiting : list (nat * Stake)) (total_stake : Stake).

(** The inner loop of [run]: [completed] are the handlers in the order in which
    they resolve. *)
Fixpoint quorum_wait (threshold : Z) (completed : list nat) (waiting : list (nat * Stake))
    (total_stake : Stake) : QuorumWait :=
  match waiting, completed with
  | [], _ => QW_Dropped
  | _, [] => QW_Waiting waiting total_stake
  | _, h :: completed' =>
      match list_find (fun x => x.1 = h) waiting with
      | None => quorum_wait threshold completed' waiting total_stake
      | Some (_, (_, stake)) =>
          let total_stake := u32_add total_stake stake in
          if threshold <=? total_stake then QW_Delivered
          else quorum_wait threshold completed' (filter (fun x => x.1 <> h) waiting) total_stake
      end
  end.

(** One iteration of the outer loop for a message. *)
Definition quorum_waiter (c : Committee) (own_stake : Stake) (m : QuorumWaiterMessage)
    (completed : list nat) : QuorumWait :=
  quorum_wait (quorum_threshold c) completed
    (map (fun x => (x.2, stake c x.1)) (qm_handlers m)) own_stake.

(** ** The processor *)

(** One iteration: the store and the message for the primary. *)
Definition processor (id : WorkerId) (own_digest : bool) (batch : Bytes)
    : Exec Store DagError Bytes :=
  let digest := hash32 batch in
  _ ← modify (store_write (digest_bytes digest) batch);
  expect (worker_primary_encode (if own_digest then WPM_OurBatch digest id else WPM_OthersBatch digest id))
    "Failed to serialize our own worker-primary message".

(** ** The helper *)

(** The batches sent for a request; a read error is logged. *)
Definition worker_helper (c : Committee) (id : WorkerId) (st : Store) (digests : list Digest)
    (origin : PublicKey) : list (SocketAddr * Bytes) :=
  match worker c origin id with
  | inl _ => []
  | inr x =>
      omap (fun d => match store_read (digest_bytes d) st with
                     | inr (Some data) => Some (worker_to_worker x, data)
                     | inr None | inl _ => None
                     end) digests
  end.

(** ** The primary connector *)
Definition primary_connector (primary_address : SocketAddr) (digest : Bytes) (network : SimpleSender)
    : SimpleSender := ss_send primary_address digest network.

(** ** The network receivers *)
Inductive WorkerOutput :=
| WO_Ack
| WO_Processor (serialized : Bytes)
| WO_Helper (missing : list Digest) (requestor : PublicKey).

(** [WorkerReceiverHandler::dispatch]; [TxReceiverHandler] is as in the primary
    and [PrimaryReceiverHandler] hands what decodes to the synchronizer. *)
Definition worker_dispatch (serialized : Bytes) : list WorkerOutput :=
  WO_Ack ::
  match worker_decode serialized with
  | Some (WM_Batch _) => [WO_Processor serialized]
  | Some (WM_BatchRequest missing requestor) => [WO_Helper missing requestor]
  | None => []
  end.

(** ** Batches travel unchanged *)

(** C37: a batch that a worker has processed can be fetched from it: the helper
    answers a request for its digest, among others, with the bytes that were
    processed; the receiver of the requesting worker acknowledges them and
    passes them on as they are, and its processor files them under the digest
    that was asked for, where they can be read and served again. *)
Theorem batch_sync_roundtrip {RLaws : RocksDBLaws} {CLaws : WorkerCodecLaws}
    c id id' batch serialized st st' own digests origin x :
  worker_encode (WM_Batch batch) = Some serialized ->
  (db_put (st_db st) (digest_bytes (hash32 serialized)) serialized).2 = None ->
  (db_put (st_db st') (digest_bytes (hash32 serialized)) serialized).2 = None ->
  worker c origin id = inr x ->
  hash32 serialized ∈ digests ->
  let st1 := (processor id own serialized st).1 in
  let st2 := (processor id' false serialized st').1 in
  (worker_to_worker x, serialized) ∈ worker_helper c id st1 digests origin /\
  worker_dispatch serialized = [WO_Ack; WO_Processor serialized] /\
  store_read (digest_bytes (hash32 serialized)) st2 = inr (Some serialized).
Proof.
  intros Henc Hput Hput' Hw Hin.
  assert (Hst : forall id own st, (processor id own serialized st).1 =
            store_write (digest_bytes (hash32 serialized)) serialized st).
  { intros i o s. unfold processor. runs. by destruct (worker_primary_encode _). }
  intros st1 st2. unfold st1, st2. rewrite !Hst. unfold worker_helper. rewrite Hw. split_and!.
  - apply list_elem_of_omap. exists (hash32 serialized). split; [done|].
    by rewrite (store_read_write _ _ _ Hput).
  - unfold worker_dispatch. by rewrite (worker_decode_encode _ _ Henc).
  - by apply store_read_write.
Qed.

(** ** When a batch is delivered *)
Section quorum.
Context (w : nat -> Z) (Hw : forall h, 0 <= w h).
Implicit Types (done handlers : list nat).

Definition waiters handlers : list (nat * Stake) := map (fun h => (h, w h)) handlers.

Lemma waiters_find h handlers :
  h ∈ handlers -> exists i, list_find (fun x => x.1 = h) (waiters handlers) = Some (i, (h, w h)).
Proof.
  induction handlers as [|h0 handlers IH]; intros Hin; [by apply not_elem_of_nil in Hin|]. simpl.
  destruct (decide (h0 = h)) as [->|Hne]; [by eexists|].
  apply elem_of_cons in Hin as [->|Hin]; [done|]. destruct (IH Hin) as [i ->]. by eexists.
Qed.

Lemma waiters_filter h handlers :
  filter (fun x => x.1 <> h) (waiters handlers) = waiters (filter (fun x => x <> h) handlers).
Proof.
  induction handlers as [|h0 handlers IH]; [done|]. simpl. rewrite !filter_cons. simpl.
  rewrite IH. by case_decide.
Qed.

Lemma list_weight_filter_out h handlers :
  NoDup handlers -> h ∈ handlers ->
  list_weight w handlers = w h + list_weight w (filter (fun x => x <> h) handlers).
Proof.
  induction 1 as [|h0 handlers Hh0 Hnd IH]; intros Hin; [by apply not_elem_of_nil in Hin|].
  rewrite filter_cons. apply elem_of_cons in Hin as [->|Hin].
  - rewrite decide_False by (intros Hno; by apply Hno). simpl.
    rewrite list_filter_id; [done|]. intros x Hx ->. done.
  - rewrite decide_True by (intros ->; done). simpl. rewrite (IH Hin). lia.
Qed.

Lemma list_weight_nonneg handlers : 0 <= list_weight w handlers.
Proof. induction handlers as [|h handlers IH]; simpl; [lia|]. specialize (Hw h). lia. Qed.

(** The loop delivers exactly when the handlers that have resolved, at least
    one, bring the stake to the threshold. *)
Lemma quorum_wait_spec threshold handlers done total :
  NoDup handlers -> NoDup done -> done ⊆ handlers ->
  0 <= total -> total + list_weight w handlers < 2 ^ 32 ->
  (quorum_wait threshold done (waiters handlers) total = QW_Delivered <->
   done <> [] /\ threshold <= total + list_weight w done) /\
  (quorum_wait threshold done (waiters handlers) total = QW_Dropped ->
   length done = length handlers /\ (done = [] \/ total + list_weight w done < threshold)).
Proof.
  intros Hndh Hndd. revert handlers total Hndh.
  induction Hndd as [|h done Hh Hndd IH]; intros handlers total Hndh Hsub Htot Hlt.
  { destruct handlers; simpl; (split; [split; [done|by intros [? _]]|]); [|done].
    intros _. by split; [|left]. }
  assert (Hin : h ∈ handlers) by (apply Hsub; left).
  assert (Hne : handlers <> []) by (intros ->; by apply not_elem_of_nil in Hin).
  destruct (waiters_find h handlers Hin) as [i Hfind].
  assert (Hun : quorum_wait threshold (h :: done) (waiters handlers) total =
    (let t := u32_add total (w h) in if threshold <=? t then QW_Delivered
     else quorum_wait threshold done (filter (fun x => x.1 <> h) (waiters handlers)) t)).
  { destruct handlers; [done|]. cbn [quorum_wait waiters map] in Hfind |- *. by rewrite Hfind. }
  pose proof (list_weight_filter_out h handlers Hndh Hin) as Hsplit.
  pose proof (list_weight_nonneg (filter (fun x => x <> h) handlers)). pose proof (Hw h).
  rewrite Hun. cbv zeta. rewrite u32_add_small by lia. rewrite waiters_filter.
  assert (Hsub' : done ⊆ filter (fun x => x <> h) handlers).
  { intros x Hx. apply list_elem_of_filter. split; [by intros ->|]. apply Hsub. by right. }
  assert (Hlen : length handlers = S (length (filter (fun x => x <> h) handlers))).
  { clear -Hndh Hin. induction Hndh as [|h0 handlers Hh0 Hnd IH]; [by apply not_elem_of_nil in Hin|].
    rewrite filter_cons. apply elem_of_cons in Hin as [->|Hin].
    - rewrite decide_False by (intros Hno; by apply Hno). rewrite list_filter_id; [done|].
      by intros x Hx ->.
    - rewrite decide_True by (intros ->; done). simpl. by rewrite (IH Hin). }
  pose proof (list_weight_nonneg done) as Hpos.
  destruct (Z.leb_spec threshold (total + w h)) as [Hle|Hgt].
  - split; [|done]. simpl. split; [intros _; split; [done|lia]|done].
  - destruct (IH (filter (fun x => x <> h) handlers) (total + w h)) as [Hiff Hdrop];
      [by apply NoDup_filter|done|lia|lia|].
    split.
    + rewrite Hiff. simpl. split; [intros [_ ?]; split; [done|lia]|].
      intros [_ Hge]. destruct done; simpl in *; [lia|]. split; [done|lia].
    + intros Hd. destruct (Hdrop Hd) as [Hl Hor]. simpl. split; [lia|]. right.
      destruct Hor as [->|?]; simpl in *; lia.
Qed.
End quorum.

(** The handlers of a message by name. *)
Section message.
Context (c : Committee) (Hstake : forall name, 0 <= stake c name).
Implicit Types (handlers : list (PublicKey * nat)) (completed : list nat).

(** The authorities whose handler has resolved. *)
Definition acknowledged handlers completed : list PublicKey :=
  map fst (filter (fun x => x.2 ∈ completed) handlers).

Definition handler_stake handlers (h : nat) : Z :=
  default 0 (stake c <$> (fst <$> (list_find (fun x => x.2 = h) handlers ≫= fun y => Some y.2))).

Lemma handler_stake_in handlers name h :
  NoDup (map snd handlers) -> (name, h) ∈ handlers -> handler_stake handlers h = stake c name.
Proof.
  intros Hnd Hin. unfold handler_stake.
  destruct (list_find (fun x => x.2 = h) handlers) as [[i [name' h']]|] eqn:Hf; simpl.
  - apply list_find_Some in Hf as (Hi & Heq & _). simpl in Heq. subst h'.
    apply list_elem_of_lookup in Hin as [j Hj].
    assert (i = j) as <-.
    { eapply (NoDup_lookup (map snd handlers)); [done|..];
        by rewrite list_lookup_fmap, ?Hi, ?Hj. }
    congruence.
  - apply list_find_None in Hf. rewrite Forall_forall in Hf. by destruct (Hf _ Hin).
Qed.

Lemma handler_stake_nonneg handlers h : 0 <= handler_stake handlers h.
Proof. unfold handler_stake. destruct (list_find _ _) as [[i x]|]; simpl; [apply Hstake|lia]. Qed.

Lemma list_weight_handlers all handlers :
  NoDup (map snd all) -> handlers ⊆ all ->
  list_weight (handler_stake all) (map snd handlers) = list_weight (stake c) (map fst handlers).
Proof.
  intros Hnd Hsub. induction handlers as [|[name h] handlers IH]; [done|]. simpl.
  rewrite (handler_stake_in all name h Hnd) by (apply Hsub; left).
  rewrite IH; [done|]. intros x Hx. apply Hsub. by right.
Qed.

Lemma completed_perm handlers completed :
  NoDup (map snd handlers) -> NoDup completed -> completed ⊆ map snd handlers ->
  completed ≡ₚ map snd (filter (fun x => x.2 ∈ completed) handlers).
Proof.
  intros Hnd Hndc Hsub. apply NoDup_Permutation; [done| |].
  - eapply sublist_NoDup; [exact Hnd|].
    change (snd <$> filter (fun x => x.2 ∈ completed) handlers `sublist_of` snd <$> handlers).
    apply fmap_sublist, sublist_filter.
  - intros h. split.
    + intros Hin. pose proof (Hsub _ Hin) as [x [-> Hx]]%list_elem_of_fmap.
      apply list_elem_of_fmap. exists x. split; [done|]. by apply list_elem_of_filter.
    + by intros [x [-> [Hx _]%list_elem_of_filter]]%list_elem_of_fmap.
Qed.

(** C36: the quorum waiter delivers a batch exactly when at least one other worker
    has acknowledged it and the worker itself and the distinct workers that have
    acknowledged it hold a quorum of the stake, in whatever order the
    acknowledgements come; so a worker that holds a quorum alone does not deliver
    before an acknowledgement.  A batch is dropped only when all others have
    acknowledged it without that. *)
Theorem quorum_waiter_delivers name m completed :
  NoDup (map fst (qm_handlers m)) -> name ∉ map fst (qm_handlers m) -> NoDup (map snd (qm_handlers m)) ->
  set_weight (stake c) ({[name]} ∪ list_to_set (map fst (qm_handlers m))) < 2 ^ 32 ->
  NoDup completed -> completed ⊆ map snd (qm_handlers m) ->
  let acks : gset PublicKey := {[name]} ∪ list_to_set (acknowledged (qm_handlers m) completed) in
  (quorum_waiter c (stake c name) m completed = QW_Delivered <->
   completed <> [] /\ quorum_threshold c <= set_weight (stake c) acks) /\
  (quorum_waiter c (stake c name) m completed = QW_Dropped ->
   length completed = length (qm_handlers m) /\
   (completed = [] \/ set_weight (stake c) acks < quorum_threshold c)).
Proof.
  intros Hnames Hname Hids Htotal Hndc Hsub acks.
  pose proof (handler_stake_nonneg (qm_handlers m)) as Hnn.
  assert (Hacks : set_weight (stake c) acks =
    stake c name + list_weight (handler_stake (qm_handlers m)) completed).
  { unfold acks. rewrite set_weight_insert.
    - f_equal. rewrite set_weight_list_to_set.
      + rewrite (list_weight_perm _ _ _ (completed_perm _ _ Hids Hndc Hsub)).
        rewrite list_weight_handlers; [done..|]. by intros x [_ Hx]%list_elem_of_filter.
      + eapply sublist_NoDup; [exact Hnames|].
        change (fst <$> filter (fun x => x.2 ∈ completed) (qm_handlers m)
                  `sublist_of` fst <$> qm_handlers m). apply fmap_sublist, sublist_filter.
    - rewrite elem_of_list_to_set. intros [x [-> [_ Hx]%list_elem_of_filter]]%list_elem_of_fmap.
      apply Hname, list_elem_of_fmap. by exists x. }
  assert (Hw : map (fun x => (x.2, stake c x.1)) (qm_handlers m) =
               waiters (handler_stake (qm_handlers m)) (map snd (qm_handlers m))).
  { unfold waiters. rewrite map_map. apply map_ext_in. intros [n h] Hin. simpl.
    by rewrite (handler_stake_in _ n h) by (done || by apply list_elem_of_In). }
  rewrite set_weight_insert, set_weight_list_to_set in Htotal
    by (done || by rewrite elem_of_list_to_set).
  destruct (quorum_wait_spec _ Hnn (quorum_threshold c) (map snd (qm_handlers m)) completed (stake c name))
    as [Hiff Hdrop]; [done|done|done|apply Hstake|by rewrite list_weight_handlers|].
  unfold quorum_waiter. rewrite Hw, Hacks. split; [done|].
  intros Hd. destruct (Hdrop Hd) as [Hl Hor]. by rewrite length_map in Hl.
Qed.
End message.

End worker.
