(* ===== verification/WorkerSync.v ===== *)
(** * WorkerSync: the synchronizer of a stand-alone worker
    (src/worker/src/synchronizer.rs)

    [ws_waiting] are the futures of [waiter]: each waits for a digest to appear
    in the store or for its cancel channel, which is named by a number;
    [ws_cancelled] are the channels that were sent to.  The messages are
    [PrimaryTasks.PrimaryWorkerMessage]. *)
From S2P Require Import Prelude Crypto Config DagMessages Store PrimaryTasks WorkerTasks.

Definition TIMER_RESOLUTION : Z := 1000.

Record WorkerSyncConfig := mkWorkerSyncConfig {
  wc_name : PublicKey;
  wc_id : WorkerId;
  wc_gc_depth : Round;
  wc_sync_retry_delay : Z;
  wc_sync_retry_nodes : nat;
}.

Record WorkerSync := mkWorkerSync {
  ws_round : Round;
  ws_pending : gmap Digest (Round * nat * Z);
  ws_waiting : list (Digest * nat);
  ws_cancelled : gset nat;
  ws_next : nat;
  ws_timer : Z;
}.

Section worker_sync.
Context `{Prim : Primitives} `{Txns : Transactions} `{Order : HashIter} `{Rocks : RocksDB}.
Context (cfg : WorkerSyncConfig) (c : Committee).
(** [shuffle] of the network sender. *)
Context (shuffle : list SocketAddr -> list SocketAddr).

Abbreviation Sends := (list (SocketAddr * WorkerMessage)) (only parsing).

(** [run] before its loop. *)
Definition WorkerSync_start (now : Z) : WorkerSync :=
  mkWorkerSync 0 ∅ [] ∅ 0 (now + TIMER_RESOLUTION).

(** A new waiter for [d]. *)
Definition ws_wait_for (now : Z) (d : Digest) (s : WorkerSync) : WorkerSync :=
  mkWorkerSync (ws_round s) (<[d := (ws_round s, ws_next s, now)]> (ws_pending s))
    (ws_waiting s ++ [(d, ws_next s)]) (ws_cancelled s) (S (ws_next s)) (ws_timer s).

(** The loop over the digests of a [Synchronize] message. *)
Fixpoint ws_request (st : Store) (now : Z) (digests : list Digest) (missing : list Digest)
    (s : WorkerSync) : WorkerSync * list Digest :=
  match digests with
  | [] => (s, missing)
  | d :: digests' =>
      if bool_decide (is_Some (ws_pending s !! d)) then ws_request st now digests' missing s
      else match store_read (digest_bytes d) st with
           | inr None => ws_request st now digests' (missing ++ [d]) (ws_wait_for now d s)
           | inr (Some _) => ws_request st now digests' missing (ws_wait_for now d s)
           | inl _ => ws_request st now digests' missing s
           end
  end.

(** The arm of a [Synchronize] message. *)
Definition ws_synchronize (st : Store) (now : Z) (digests : list Digest) (target : PublicKey)
    (s : WorkerSync) : WorkerSync * Sends :=
  let '(s1, missing) := ws_request st now digests [] s in
  match worker c target (wc_id cfg) with
  | inr address => (s1, [(worker_to_worker address, WM_BatchRequest missing (wc_name cfg))])
  | inl _ => (s1, [])
  end.

(** The arm of a [Cleanup] message. *)
Definition ws_cleanup (round : Round) (s : WorkerSync) : WorkerSync :=
  let s := mkWorkerSync round (ws_pending s) (ws_waiting s) (ws_cancelled s) (ws_next s) (ws_timer s) in
  if round <? wc_gc_depth cfg then s
  else
    let gc_round := u64_sub round (wc_gc_depth cfg) in
    let old := filter (fun x => x.2.1.1 <= gc_round) (map_to_list (ws_pending s)) in
    mkWorkerSync round (filter (fun x => gc_round < x.2.1.1) (ws_pending s)) (ws_waiting s)
      (list_to_set (map (fun x => x.2.1.2) old) ∪ ws_cancelled s) (ws_next s) (ws_timer s).

(** The result of the [i]-th waiter; [None] if it is not ready.  When both
    its branches are, [select!] picks one. *)
Definition ws_ready (st : Store) (i : nat) (by_cancel : bool) (s : WorkerSync)
    : option (StoreError + option Digest) :=
  match ws_waiting s !! i with
  | None => None
  | Some (d, h) =>
      if by_cancel then (if bool_decide (h ∈ ws_cancelled s) then Some (inr None) else None)
      else match store_read (digest_bytes d) st with
           | inr (Some _) => Some (inr (Some d))
           | inr None => None
           | inl e => Some (inl e)
           end
  end.

(** The arm of a waiter that has finished. *)
Definition ws_finished (i : nat) (result : StoreError + option Digest) (s : WorkerSync) : WorkerSync :=
  let pending := match result with
                 | inr (Some d) => delete d (ws_pending s)
                 | inr None | inl _ => ws_pending s
                 end in
  mkWorkerSync (ws_round s) pending (delete i (ws_waiting s)) (ws_cancelled s) (ws_next s) (ws_timer s).

Definition workers_addresses : list SocketAddr :=
  map (fun x => worker_to_worker x.2) (others_workers c (wc_name cfg) (wc_id cfg)).

(** The arm of the timer. *)
Definition ws_retry (now : Z) (s : WorkerSync) : WorkerSync * Sends :=
  let retry := map fst (filter (fun x => x.2.2 + wc_sync_retry_delay cfg < now)
                          (hash_iter (ws_pending s))) in
  let sends :=
    match retry with
    | [] => []
    | _ => map (fun a => (a, WM_BatchRequest retry (wc_name cfg)))
             (take (wc_sync_retry_nodes cfg) (shuffle workers_addresses))
    end in
  (mkWorkerSync (ws_round s) (ws_pending s) (ws_waiting s) (ws_cancelled s) (ws_next s)
     (now + TIMER_RESOLUTION), sends).

Inductive WorkerSyncEvent :=
| WE_Message (st : Store) (now : Z) (m : PrimaryWorkerMessage)
| WE_Finished (st : Store) (i : nat) (by_cancel : bool)
| WE_Timer (now : Z).

(** An arm of the [select!], [None] if it is not ready. *)
Definition ws_step (e : WorkerSyncEvent) (s : WorkerSync) : option (WorkerSync * Sends) :=
  match e with
  | WE_Message st now (PWM_Synchronize digests target) => Some (ws_synchronize st now digests target s)
  | WE_Message _ _ (PWM_Cleanup round) => Some (ws_cleanup round s, [])
  | WE_Finished st i by_cancel => result ← ws_ready st i by_cancel s; Some (ws_finished i result s, [])
  | WE_Timer now => if ws_timer s <=? now then Some (ws_retry now s) else None
  end.

(** ** No request is forgotten *)
Record ws_inv (s : WorkerSync) : Prop := {
  wi_waiter : forall d r h t, ws_pending s !! d = Some (r, h, t) ->
    (d, h) ∈ ws_waiting s /\ h ∉ ws_cancelled s;
  wi_ids : NoDup (map snd (ws_waiting s));
  wi_next : forall h, (h ∈ map snd (ws_waiting s) \/ h ∈ ws_cancelled s) -> (h < ws_next s)%nat;
}.

Lemma WorkerSync_start_inv now : ws_inv (WorkerSync_start now).
Proof. split; simpl; [done|constructor|]. intros h [Hh|Hh]; [by apply not_elem_of_nil in Hh|set_solver]. Qed.

Lemma ws_wait_for_inv now d s : ws_inv s -> ws_inv (ws_wait_for now d s).
Proof.
  intros [Hw Hids Hnext].
  assert (Hfresh : (ws_next s ∉ map snd (ws_waiting s)) /\ (ws_next s ∉ ws_cancelled s)).
  { split; intros Hin; specialize (Hnext (ws_next s)); (assert (ws_next s < ws_next s)%nat by auto; lia). }
  split; simpl.
  - intros d' r h t. destruct (decide (d = d')) as [<-|Hne].
    + rewrite lookup_insert_eq. intros [= <- <- <-]. split; [set_solver|apply Hfresh].
    + rewrite lookup_insert_ne by done. intros Hd. destruct (Hw _ _ _ _ Hd). split; [set_solver|done].
  - rewrite map_app. apply NoDup_app. split_and!; [done| |apply NoDup_singleton].
    intros h Hh Heq%list_elem_of_singleton. subst h. by destruct Hfresh as [Hf _].
  - intros h. rewrite map_app, elem_of_app. simpl. rewrite list_elem_of_singleton.
    intros [[Hin| ->]|Hin]; [|lia|]; (assert (h < ws_next s)%nat by auto; lia).
Qed.

Lemma ws_request_inv st now digests missing s :
  ws_inv s -> ws_inv (ws_request st now digests missing s).1.
Proof.
  revert missing s. induction digests as [|d digests IH]; intros missing s Hinv; [done|].
  cbn [ws_request]. case_bool_decide; [by apply IH|].
  destruct (store_read (digest_bytes d) st) as [e|[v|]]; apply IH; [done|by apply ws_wait_for_inv..].
Qed.

Lemma ws_cleanup_inv round s : ws_inv s -> ws_inv (ws_cleanup round s).
Proof.
  intros [Hw Hids Hnext]. unfold ws_cleanup. destruct (round <? wc_gc_depth cfg); [by split|].
  cbn [ws_pending]. set (gc_round := u64_sub round (wc_gc_depth cfg)). split; simpl; [|done|].
  - intros d r h t [Hd Hr]%map_lookup_filter_Some. simpl in Hr. destruct (Hw _ _ _ _ Hd) as [Hin Hh].
    split; [done|]. apply not_elem_of_union. split; [|done]. rewrite elem_of_list_to_set.
    intros ([d' [[r' h'] t']] & Heq & Hx)%list_elem_of_fmap. simpl in Heq. subst h'.
    apply list_elem_of_filter in Hx as [Hr' Hd'%elem_of_map_to_list]. simpl in Hr'.
    destruct (Hw _ _ _ _ Hd') as [Hin' _].
    assert (d = d') as <-; [|rewrite Hd in Hd'; injection Hd' as <- _; lia].
    apply list_elem_of_lookup in Hin as [i Hi]. apply list_elem_of_lookup in Hin' as [j Hj].
    assert (i = j) as <-; [|congruence].
    eapply (NoDup_lookup (map snd (ws_waiting s))); [done|..]; by rewrite list_lookup_fmap, ?Hi, ?Hj.
  - intros h [Hh|[Hh|Hh]%elem_of_union]; [by apply Hnext; left| |by apply Hnext; right].
    rewrite elem_of_list_to_set in Hh. apply list_elem_of_fmap in Hh as ([d' [[r' h'] t']] & -> & Hx).
    apply list_elem_of_filter in Hx as [_ Hd'%elem_of_map_to_list].
    destruct (Hw _ _ _ _ Hd') as [Hin' _]. apply Hnext. left. apply list_elem_of_fmap. by exists (d', h').
Qed.

(** A waiter that ends without a storage error. *)
Lemma ws_finished_inv st i by_cancel result s :
  ws_ready st i by_cancel s = Some (inr result) -> ws_inv s -> ws_inv (ws_finished i (inr result) s).
Proof.
  intros Hready [Hw Hids Hnext]. unfold ws_ready in Hready.
  destruct (ws_waiting s !! i) as [[d h]|] eqn:Hi; [|done].
  assert (Hkeep : forall d' h', (d', h') ∈ ws_waiting s -> h' <> h -> (d', h') ∈ delete i (ws_waiting s)).
  { intros d' h' [j Hj]%list_elem_of_lookup Hne. apply list_elem_of_lookup.
    destruct (decide (j < i)%nat) as [Hlt|Hge]; [exists j; by rewrite list_lookup_delete_lt|].
    destruct (decide (i = j)) as [<-|Hij]; [congruence|]. exists (pred j).
    rewrite list_lookup_delete_ge by lia. by replace (S (pred j)) with j by lia. }
  assert (Hsub : map snd (delete i (ws_waiting s)) `sublist_of` map snd (ws_waiting s)).
  { change (snd <$> delete i (ws_waiting s) `sublist_of` snd <$> ws_waiting s).
    apply fmap_sublist, sublist_delete. }
  split; simpl.
  - intros d' r h' t Hd'.
    assert (Hold : ws_pending s !! d' = Some (r, h', t) /\ h' <> h).
    { destruct by_cancel.
      - case_bool_decide as Hc; [|done]. injection Hready as <-. split; [done|].
        intros ->. by destruct (Hw _ _ _ _ Hd') as [_ Hno].
      - destruct (store_read (digest_bytes d) st) as [e|[v|]]; try done. injection Hready as <-.
        apply lookup_delete_Some in Hd' as [Hne Hd']. split; [done|]. intros ->.
        destruct (Hw _ _ _ _ Hd') as [Hin _]. apply list_elem_of_lookup in Hin as [j Hj].
        assert (i = j) as <-; [|congruence].
        eapply (NoDup_lookup (map snd (ws_waiting s))); [done|..]; by rewrite list_lookup_fmap, ?Hi, ?Hj. }
    destruct Hold as [Hold Hne]. destruct (Hw _ _ _ _ Hold) as [Hin Hno]. split; [by apply Hkeep|done].
  - by eapply sublist_NoDup.
  - intros h' Hh'. apply Hnext. destruct Hh' as [Hh'|Hh']; [left|by right].
    eapply elem_of_submseteq; [exact Hh'|by apply sublist_submseteq].
Qed.

(** The step is not a storage error of a waiter. *)
Definition ws_clean (e : WorkerSyncEvent) (s : WorkerSync) : Prop :=
  match e with
  | WE_Finished st i by_cancel => forall x, ws_ready st i by_cancel s <> Some (inl x)
  | _ => True
  end.

Inductive ws_reachable : WorkerSync -> Prop :=
| wr_start now : ws_reachable (WorkerSync_start now)
| wr_step e s s' sends :
    ws_reachable s -> ws_clean e s -> ws_step e s = Some (s', sends) -> ws_reachable s'.

Lemma ws_reachable_inv s : ws_reachable s -> ws_inv s.
Proof.
  induction 1 as [now|e s s' sends _ IH Hclean Hstep]; [apply WorkerSync_start_inv|].
  destruct e as [st now [digests target|round]|st i by_cancel|now]; simpl in Hstep.
  - unfold ws_synchronize in Hstep. pose proof (ws_request_inv st now digests [] s IH) as Hr.
    destruct (ws_request st now digests [] s) as [s1 missing]. simpl in Hr.
    by destruct (worker c target (wc_id cfg)); injection Hstep as <- <-.
  - injection Hstep as <- <-. by apply ws_cleanup_inv.
  - apply bind_Some in Hstep as ([x|result] & Hready & [= <- <-]); [by destruct (Hclean x)|].
    by eapply ws_finished_inv.
  - destruct (ws_timer s <=? now); [|done]. injection Hstep as <- <-. destruct IH. by split.
Qed.

(** A worker never forgets a batch it was asked to fetch: as long as the
    request is pending its own waiter watches the store and was not cancelled,
    so that once the batch is stored the waiter can finish, which ends the
    request; until then every timer tick after the retry delay asks the
    other workers for the batch again. *)
Lemma worker_sync_pending_is_served s d r h t st data :
  ws_reachable s -> ws_pending s !! d = Some (r, h, t) ->
  store_read (digest_bytes d) st = inr (Some data) ->
  (exists i s', ws_waiting s !! i = Some (d, h) /\ ws_step (WE_Finished st i false) s = Some (s', []) /\
     ws_pending s' = delete d (ws_pending s)) /\
  (forall now s' sends, HashIterLaws -> t + wc_sync_retry_delay cfg < now ->
     ws_step (WE_Timer now) s = Some (s', sends) ->
     exists retry, d ∈ retry /\
       sends = map (fun a => (a, WM_BatchRequest retry (wc_name cfg)))
                 (take (wc_sync_retry_nodes cfg) (shuffle workers_addresses))).
Proof.
  intros Hs Hd Hst. pose proof (ws_reachable_inv s Hs) as [Hw _ _]. destruct (Hw _ _ _ _ Hd) as [Hin _].
  split.
  - apply list_elem_of_lookup in Hin as [i Hi]. exists i, (ws_finished i (inr (Some d)) s).
    split; [done|]. split; [|done]. simpl. unfold ws_ready. by rewrite Hi, Hst.
  - intros now s' sends Hlaws Hlt Hstep. simpl in Hstep.
    destruct (ws_timer s <=? now); [|done]. injection Hstep as <- <-.
    set (retry := map fst (filter (fun x => x.2.2 + wc_sync_retry_delay cfg < now) (hash_iter (ws_pending s)))).
    assert (Hd' : d ∈ retry).
    { apply list_elem_of_fmap. exists (d, (r, h, t)). split; [done|]. apply list_elem_of_filter.
      split; [done|]. rewrite hash_iter_perm. by apply elem_of_map_to_list. }
    exists retry. split; [done|]. fold retry.
    destruct retry as [|d0 retry']; [by apply not_elem_of_nil in Hd'|done].
Qed.

End worker_sync.
