(* ===== verification/Executor.v ===== *)
(** * Executor: the in-memory state and the execution of a block
    (src/aptos_executor/src/database.rs, src/aptos_executor/src/executor.rs)

    The Aptos VM, its keys, values and write sets are a parameter.  [AptosDb] adds
    genesis and accounts. *)
From S2P Require Import Prelude DagMessages.

Class AptosVM `{Txns : Transactions} := {
  StateKey : Type;
  #[global] StateKey_eq_dec :: EqDecision StateKey;
  #[global] StateKey_countable :: Countable StateKey;
  StateValue : Type;
  WriteOp : Type;
  VMStatus : Type;
  VMOutput : Type;
  (** [WriteOp::is_delete], [WriteOp::as_state_value] *)
  is_delete : WriteOp -> bool;
  as_state_value : WriteOp -> option StateValue;
  (** [AptosVM::execute_user_transaction] on a state view of a version *)
  execute_user_transaction : gmap StateKey StateValue -> Z -> Transaction -> VMStatus * VMOutput;
  (** [into_transaction_output], then [write_set().write_op_iter()] *)
  write_ops : VMOutput -> option (list (StateKey * WriteOp));
}.

Section executor.
Context `{Txns : Transactions} `{Vm : !AptosVM}.

(** [TestDbReader]; [AptosDatabase] is a shared pointer to one. *)
Record TestDbReader := mkTestDbReader {
  db_states : gmap StateKey StateValue;
  db_version : Z;
}.

Definition set_state_value (key : StateKey) (value : StateValue) (d : TestDbReader) : TestDbReader :=
  mkTestDbReader (<[key := value]> (db_states d)) (db_version d).
Definition remove_state_value (key : StateKey) (d : TestDbReader) : TestDbReader :=
  mkTestDbReader (delete key (db_states d)) (db_version d).
Definition get_state_value (key : StateKey) (d : TestDbReader) : option StateValue :=
  db_states d !! key.
Definition bump_version (d : TestDbReader) : TestDbReader :=
  mkTestDbReader (db_states d) (u64_add (db_version d) 1).

Definition apply_write_op (x : StateKey * WriteOp) (d : TestDbReader) : TestDbReader :=
  if is_delete x.2 then remove_state_value x.1 d
  else match as_state_value x.2 with
       | Some state_value => set_state_value x.1 state_value d
       | None => d
       end.

(** [AptosDatabase::apply_vm_output] *)
Definition apply_vm_output {E} (output : VMOutput) : Exec TestDbReader E unit :=
  ops ← expect (write_ops output) "VM output should convert into transaction output";
  modify (fun d => bump_version (foldl (fun d x => apply_write_op x d) d ops)).

Record TransactionResult := mkTransactionResult {
  tr_status : VMStatus;
  tr_output : VMOutput;
}.

(** [AptosVmExecutor::execute_block] *)
Fixpoint execute_block {E} (txns : list Transaction)
    : Exec TestDbReader E (list TransactionResult) :=
  match txns with
  | [] => mret []
  | txn :: txns' =>
      d ← gets (fun d => d);
      let '(status, output) := execute_user_transaction (db_states d) (db_version d) txn in
      _ ← apply_vm_output output;
      results ← execute_block txns';
      mret (mkTransactionResult status output :: results)
  end.

(** The value of a key after a list of writes. *)
Definition written (ops : list (StateKey * WriteOp)) (key : StateKey) (v : option StateValue)
    : option StateValue :=
  foldl (fun v x =>
    if bool_decide (x.1 = key) then
      if is_delete x.2 then None else match as_state_value x.2 with Some v' => Some v' | None => v end
    else v) v ops.

Lemma apply_write_op_lookup x key d :
  get_state_value key (apply_write_op x d) = written [x] key (get_state_value key d).
Proof.
  unfold apply_write_op, written, get_state_value. destruct x as [k op]. simpl.
  case_bool_decide as Hk.
  - subst k. destruct (is_delete op); simpl; [by rewrite lookup_delete_eq|].
    destruct (as_state_value op); simpl; [by rewrite lookup_insert_eq|done].
  - destruct (is_delete op); simpl; [by rewrite lookup_delete_ne|].
    destruct (as_state_value op); simpl; [by rewrite lookup_insert_ne|done].
Qed.

Lemma apply_write_ops_lookup ops key d :
  get_state_value key (foldl (fun d x => apply_write_op x d) d ops)
    = written ops key (get_state_value key d).
Proof.
  revert d. induction ops as [|x ops IH]; intros d; [done|]. cbn [foldl]. rewrite IH.
  rewrite apply_write_op_lookup. done.
Qed.

Lemma apply_write_ops_version ops d :
  db_version (foldl (fun d x => apply_write_op x d) d ops) = db_version d.
Proof.
  revert d. induction ops as [|x ops IH]; intros d; [done|]. cbn [foldl]. rewrite IH.
  unfold apply_write_op. destruct (is_delete x.2); [done|]. by destruct (as_state_value x.2).
Qed.

(** Executing one block after another is executing them together. *)
Lemma execute_block_app {E} (txns txns' : list Transaction) d d1 r1 d2 r2 :
  execute_block (E := E) txns d = (d1, Ok r1) -> execute_block (E := E) txns' d1 = (d2, Ok r2) ->
  execute_block (E := E) (txns ++ txns') d = (d2, Ok (r1 ++ r2)).
Proof.
  revert d d1 r1. induction txns as [|txn txns IH]; intros d d1 r1 H1 H2.
  { by injection H1 as -> <-. }
  cbn [execute_block app] in H1 |- *. revert H1. runs.
  destruct (execute_user_transaction (db_states d) (db_version d) txn) as [status output].
  destruct (apply_vm_output (E := E) output d) as [d' [u|e|msg|]] eqn:Ha.
  - rewrite !(run_bind _ _ _ _ _ Ha).
    destruct (execute_block (E := E) txns d') as [d'' [rs|e|msg|]] eqn:Hb.
    + rewrite (run_bind _ _ _ _ _ Hb). intros [= -> <-].
      by rewrite (run_bind _ _ _ _ _ (IH _ _ _ Hb H2)).
    + by rewrite (run_bind_Err _ _ _ _ _ Hb).
    + by rewrite (run_bind_Panicked _ _ _ _ _ Hb).
    + unfold mbind, exec_mbind, exec_bind. by rewrite Hb.
  - by rewrite (run_bind_Err _ _ _ _ _ Ha).
  - by rewrite (run_bind_Panicked _ _ _ _ _ Ha).
  - unfold mbind, exec_mbind, exec_bind. by rewrite Ha.
Qed.

(** When VM outputs convert, a block runs to its end: one result and one
    version for each transaction. *)
Lemma execute_block_runs {E} (txns : list Transaction) d :
  (forall output, is_Some (write_ops output)) ->
  exists d' results, execute_block (E := E) txns d = (d', Ok results) /\
    length results = length txns /\
    u64_wrap (db_version d') = u64_wrap (db_version d + Z.of_nat (length txns)).
Proof.
  intros Hops. revert d. induction txns as [|txn txns IH]; intros d.
  { exists d, []. split_and!; [done..|]. simpl. by rewrite Z.add_0_r. }
  cbn [execute_block]. runs.
  destruct (execute_user_transaction (db_states d) (db_version d) txn) as [status output].
  destruct (Hops output) as [ops Ho].
  destruct (IH (bump_version (foldl (fun d x => apply_write_op x d) d ops)))
    as (d' & results & Hrun & Hlen & Hver).
  exists d', (mkTransactionResult status output :: results).
  rewrite (run_bind _ _ d (bump_version (foldl (fun d x => apply_write_op x d) d ops)) tt);
    [|unfold apply_vm_output; by rewrite Ho].
  rewrite (run_bind _ _ _ _ _ Hrun). split_and!; [done|simpl; by rewrite Hlen|].
  rewrite Hver. simpl (db_version _). rewrite apply_write_ops_version.
  unfold u64_add, u64_wrap. rewrite Zplus_mod_idemp_l. f_equal. simpl. lia.
Qed.

End executor.
