(* ===== verification/Accounts.v ===== *)
(** * Accounts: local accounts and the transactions they sign
    (src/aptos_executor/src/accounts.rs, src/aptos_executor/src/transaction_builder.rs)

    The types of the Aptos libraries are parameters, with the constructors and
    accessors that the code uses; [AptosLaws] says what the accessors return. *)
From S2P Require Import Prelude DagMessages Executor.

(** BCS of one type. *)
Class Bcs (A : Type) := {
  to_bytes : A -> option (list Z);
  from_bytes : list Z -> option A;
}.
Class BcsLaws (A : Type) `{Bcs A} : Prop := {
  to_bytes_total : forall a : A, is_Some (to_bytes a);
  from_to_bytes : forall (a : A) bytes, to_bytes a = Some bytes -> from_bytes bytes = Some a;
}.

Class AptosTypes `{Txns : Transactions} := {
  AccountAddress : Type;
  #[global] AccountAddress_eq_dec :: EqDecision AccountAddress;
  ADDRESS_ONE : AccountAddress;
  ADDRESS_TEN : AccountAddress;
  (** keys *)
  AptosPrivateKey : Type;
  AptosPublicKey : Type;
  AuthenticationKey : Type;
  sha3_256_of : list Z -> list Z;
  private_key_try_from : list Z -> option AptosPrivateKey;
  public_key : AptosPrivateKey -> AptosPublicKey;
  auth_ed25519 : AptosPublicKey -> AuthenticationKey;
  auth_to_vec : AuthenticationKey -> list Z;
  auth_account_address : AuthenticationKey -> AccountAddress;
  (** names *)
  Identifier : Type;
  Identifier_new : string -> option Identifier;
  StructTag : Type;
  #[global] StructTag_eq_dec :: EqDecision StructTag;
  #[global] StructTag_countable :: Countable StructTag;
  TypeTag : Type;
  StructTag_new : AccountAddress -> Identifier -> Identifier -> list TypeTag -> StructTag;
  TypeTag_Struct : StructTag -> TypeTag;
  ModuleId : Type;
  ModuleId_new : AccountAddress -> Identifier -> ModuleId;
  (** transactions; [Transaction] is [SignedTransaction] *)
  ChainId : Type;
  EntryFunction : Type;
  EntryFunction_new : ModuleId -> Identifier -> list TypeTag -> list (list Z) -> EntryFunction;
  TransactionPayload : Type;
  Payload_EntryFunction : EntryFunction -> TransactionPayload;
  code_publish_package_txn : list Z -> list (list Z) -> TransactionPayload;
  RawTransaction : Type;
  (** sender, sequence number, payload, max gas, gas price, expiration, chain *)
  RawTransaction_new : AccountAddress -> Z -> TransactionPayload -> Z -> Z -> Z -> ChainId -> RawTransaction;
  raw_sender : RawTransaction -> AccountAddress;
  raw_sequence_number : RawTransaction -> Z;
  raw_chain_id : RawTransaction -> ChainId;
  raw_sign : RawTransaction -> AptosPrivateKey -> AptosPublicKey -> option Transaction;
  RawTransactionWithData : Type;
  new_multi_agent : RawTransaction -> list AccountAddress -> RawTransactionWithData;
  AptosSignature : Type;
  message_sign : AptosPrivateKey -> RawTransactionWithData -> option AptosSignature;
  AccountAuthenticator : Type;
  authenticator_ed25519 : AptosPublicKey -> AptosSignature -> AccountAuthenticator;
  signed_new_multi_agent :
    RawTransaction -> AccountAuthenticator -> list AccountAddress -> list AccountAuthenticator -> Transaction;
  into_raw_transaction : Transaction -> RawTransaction;
  #[global] bcs_u64 :: Bcs Z;
  #[global] bcs_bool :: Bcs bool;
  #[global] bcs_address :: Bcs AccountAddress;
}.

Class AptosLaws `{Aptos : AptosTypes} : Prop := {
  raw_sender_new : forall a n p g u e c, raw_sender (RawTransaction_new a n p g u e c) = a;
  raw_sequence_new : forall a n p g u e c, raw_sequence_number (RawTransaction_new a n p g u e c) = n;
  raw_chain_new : forall a n p g u e c, raw_chain_id (RawTransaction_new a n p g u e c) = c;
  into_raw_sign : forall r k p t, raw_sign r k p = Some t -> into_raw_transaction t = r;
  into_raw_multi_agent : forall r x a l, into_raw_transaction (signed_new_multi_agent r x a l) = r;
}.

(** Serialization and signing do not fail, and the names used are identifiers. *)
Class AptosTotal `{Aptos : AptosTypes} : Prop := {
  identifier_total : forall s, s ∈ ["coin"; "transfer"; "aptos_coin"; "AptosCoin"; "market_setup";
      "create_market"; "register_trader"; "mint_to_trader"; "place_limit_order_with_client_id";
      "cancel_order_by_client_id"; "decrease_order_size_by_client_id";
      "replace_order_by_client_id"; "fungible_asset"; "Supply"]%string -> is_Some (Identifier_new s);
  u64_to_bytes : forall z : Z, is_Some (to_bytes z);
  bool_to_bytes : forall b : bool, is_Some (to_bytes b);
  address_to_bytes : forall a : AccountAddress, is_Some (to_bytes a);
  raw_sign_total : forall r k p, is_Some (raw_sign r k p);
  message_sign_total : forall k m, is_Some (message_sign k m);
}.

(** [anyhow::Error]: from a library, from [bail!] or [anyhow!], with context. *)
Inductive AnyhowError :=
| AE_Library
| AE_Message (msg : string)
| AE_Context (msg : string) (e : AnyhowError).

(** [o?] on the result of a library call. *)
Definition or_error {S A} (o : option A) : Exec S AnyhowError A :=
  match o with Some a => mret a | None => fail AE_Library end.
(** [m.context(msg)] *)
Definition context {S A} (msg : string) (m : Exec S AnyhowError A) : Exec S AnyhowError A :=
  fun s => match m s with (s', Err e) => (s', Err (AE_Context msg e)) | r => r end.

Create HintDb accounts.

Section accounts.
Context `{Txns : Transactions} `{Aptos : !AptosTypes}.

(** ** Accounts *)
Record LocalAccount := mkLocalAccount {
  la_address : AccountAddress;
  la_private_key : AptosPrivateKey;
  la_public_key : AptosPublicKey;
  la_sequence_number : Z;
}.

Definition from_private_key (k : AptosPrivateKey) (sequence_number : Z) : LocalAccount :=
  let p := public_key k in
  mkLocalAccount (auth_account_address (auth_ed25519 p)) k p sequence_number.

Definition generate (seed : Z) : Outcome AnyhowError LocalAccount :=
  let seed_bytes := sha3_256_of (le_bytes 8 seed) in
  match private_key_try_from seed_bytes with
  | Some k => Ok (from_private_key k 0)
  | None => Err (AE_Message "failed to derive deterministic key")
  end.

Definition next_sequence_number (a : LocalAccount) : LocalAccount :=
  mkLocalAccount (la_address a) (la_private_key a) (la_public_key a)
    (u64_add (la_sequence_number a) 1).

(** [LocalAccount::sign] *)
Definition sign (raw_txn : RawTransaction) : Exec LocalAccount AnyhowError Transaction :=
  a ← gets (fun a => a);
  signed ← or_error (raw_sign raw_txn (la_private_key a) (la_public_key a));
  _ ← modify next_sequence_number;
  mret signed.

(** ** Builders; [now] is the time since the epoch in seconds, if the clock is past it *)
Definition default_expiration_secs (now : option Z) : Z :=
  Z.min (2 ^ 64 - 1) (default 0 now + 600).

Section builders.
Context (now : option Z) (chain_id : ChainId).

Definition raw_of (a : LocalAccount) (payload : TransactionPayload) : RawTransaction :=
  RawTransaction_new (la_address a) (la_sequence_number a) payload 2000000 100
    (default_expiration_secs now) chain_id.

Definition sign_payload (payload : TransactionPayload) : Exec LocalAccount AnyhowError Transaction :=
  a ← gets (fun a => a);
  sign (raw_of a payload).

Definition apt_transfer (recipient : AccountAddress) (amount : Z)
    : Exec LocalAccount AnyhowError Transaction :=
  coin ← or_error (Identifier_new "coin");
  function ← or_error (Identifier_new "transfer");
  aptos_coin ← or_error (Identifier_new "aptos_coin");
  AptosCoin ← or_error (Identifier_new "AptosCoin");
  recipient_bytes ← or_error (to_bytes recipient);
  amount_bytes ← or_error (to_bytes amount);
  let module := ModuleId_new ADDRESS_ONE coin in
  let coin_type := TypeTag_Struct (StructTag_new ADDRESS_ONE aptos_coin AptosCoin []) in
  sign_payload (Payload_EntryFunction
    (EntryFunction_new module function [coin_type] [recipient_bytes; amount_bytes])).

Definition publish_package (metadata : list Z) (modules : list (list Z))
    : Exec LocalAccount AnyhowError Transaction :=
  sign_payload (code_publish_package_txn metadata modules).

Definition build_multi_agent_market_txn (market_signer : LocalAccount) (entry_function : EntryFunction)
    : Exec LocalAccount AnyhowError Transaction :=
  primary ← gets (fun a => a);
  let raw_txn := raw_of primary (Payload_EntryFunction entry_function) in
  let secondary_addresses := [la_address market_signer] in
  let message := new_multi_agent raw_txn secondary_addresses in
  primary_signature ← or_error (message_sign (la_private_key primary) message);
  market_signature ← or_error (message_sign (la_private_key market_signer) message);
  _ ← modify next_sequence_number;
  mret (signed_new_multi_agent raw_txn
          (authenticator_ed25519 (la_public_key primary) primary_signature)
          secondary_addresses
          [authenticator_ed25519 (la_public_key market_signer) market_signature]).

Fixpoint all_or_error {S A} (os : list (option A)) : Exec S AnyhowError (list A) :=
  match os with
  | [] => mret []
  | o :: os' => x ← or_error o; xs ← all_or_error os'; mret (x :: xs)
  end.

(** The call of [name] in the market module of [owner]. *)
Definition market_function (owner : AccountAddress) (name : string) (args : list (option (list Z)))
    : Exec LocalAccount AnyhowError EntryFunction :=
  module ← or_error (Identifier_new "market_setup");
  function ← or_error (Identifier_new name);
  bytes ← all_or_error args;
  mret (EntryFunction_new (ModuleId_new owner module) function [] bytes).

Definition create_market (market_signer : LocalAccount) (allow_self_matching allow_events_emission : bool)
    (pre_cancellation_window_secs : Z) : Exec LocalAccount AnyhowError Transaction :=
  admin ← gets (fun a => a);
  f ← market_function (la_address admin) "create_market"
        [to_bytes allow_self_matching; to_bytes allow_events_emission;
         to_bytes pre_cancellation_window_secs];
  build_multi_agent_market_txn market_signer f.

Definition register_trader (module_owner : AccountAddress)
    : Exec LocalAccount AnyhowError Transaction :=
  f ← market_function module_owner "register_trader" [];
  sign_payload (Payload_EntryFunction f).

Definition mint_trader_funds (trader : AccountAddress) (base_amount quote_amount : Z)
    : Exec LocalAccount AnyhowError Transaction :=
  admin ← gets (fun a => a);
  f ← market_function (la_address admin) "mint_to_trader"
        [to_bytes trader; to_bytes base_amount; to_bytes quote_amount];
  sign_payload (Payload_EntryFunction f).

Definition place_limit_order_with_client_id (module_owner : AccountAddress)
    (market_signer : LocalAccount) (limit_price size : Z) (is_bid : bool) (client_order_id : Z)
    : Exec LocalAccount AnyhowError Transaction :=
  f ← market_function module_owner "place_limit_order_with_client_id"
        [to_bytes limit_price; to_bytes size; to_bytes is_bid; to_bytes client_order_id];
  build_multi_agent_market_txn market_signer f.

Definition cancel_order_by_client_id (module_owner : AccountAddress)
    (market_signer : LocalAccount) (client_order_id : Z)
    : Exec LocalAccount AnyhowError Transaction :=
  f ← market_function module_owner "cancel_order_by_client_id" [to_bytes client_order_id];
  build_multi_agent_market_txn market_signer f.

Definition decrease_order_size_by_client_id (module_owner : AccountAddress)
    (market_signer : LocalAccount) (client_order_id size_delta : Z)
    : Exec LocalAccount AnyhowError Transaction :=
  f ← market_function module_owner "decrease_order_size_by_client_id"
        [to_bytes client_order_id; to_bytes size_delta];
  build_multi_agent_market_txn market_signer f.

Definition replace_order_by_client_id (module_owner : AccountAddress)
    (market_signer : LocalAccount) (client_order_id limit_price size : Z) (is_bid : bool)
    : Exec LocalAccount AnyhowError Transaction :=
  f ← market_function module_owner "replace_order_by_client_id"
        [to_bytes client_order_id; to_bytes limit_price; to_bytes size; to_bytes is_bid];
  build_multi_agent_market_txn market_signer f.

End builders.

(** ** What every builder does *)

(** [m] makes the next transaction of the account that runs it, or fails and
    leaves the account as it is. *)
Definition signs_next (chain_id : ChainId) (m : Exec LocalAccount AnyhowError Transaction) : Prop :=
  forall a,
    match m a with
    | (a', Ok tx) =>
        a' = next_sequence_number a /\
        raw_sender (into_raw_transaction tx) = la_address a /\
        raw_sequence_number (into_raw_transaction tx) = la_sequence_number a /\
        raw_chain_id (into_raw_transaction tx) = chain_id
    | (a', Err _) => a' = a
    | _ => False
    end.

(** [m] only reads the account, and may fail. *)
Definition reads {A} (m : Exec LocalAccount AnyhowError A) : Prop :=
  forall a, (exists x, m a = (a, Ok x)) \/ exists e, m a = (a, Err e).

Lemma reads_or_error {A} (o : option A) : reads (or_error o).
Proof. intros a. destruct o; [left|right]; by eexists. Qed.
Lemma reads_gets {A} (f : LocalAccount -> A) : reads (gets f).
Proof. intros a. left. by eexists. Qed.
Lemma reads_bind {A B} (m : Exec LocalAccount AnyhowError A) (k : A -> Exec LocalAccount AnyhowError B) :
  reads m -> (forall x, reads (k x)) -> reads (m ≫= k).
Proof.
  intros Hm Hk a. unfold mbind, exec_mbind, exec_bind.
  destruct (Hm a) as [[x ->]|[e ->]]; [apply Hk|right; by eexists].
Qed.
Lemma reads_all {A} (os : list (option A)) : reads (all_or_error os).
Proof.
  induction os as [|o os IH]; simpl; [intros a; left; by eexists|].
  apply reads_bind; [apply reads_or_error|]. intros x. apply reads_bind; [done|].
  intros xs a. left. by eexists.
Qed.
Lemma reads_market_function owner name args : reads (market_function owner name args).
Proof.
  unfold market_function. repeat (apply reads_bind; [first [apply reads_or_error|apply reads_all]|intros ?]).
  intros a. left. by eexists.
Qed.

Lemma signs_next_bind {A} chain_id (m : Exec LocalAccount AnyhowError A) k :
  reads m -> (forall x, signs_next chain_id (k x)) -> signs_next chain_id (m ≫= k).
Proof.
  intros Hm Hk a. unfold mbind, exec_mbind, exec_bind.
  destruct (Hm a) as [[x ->]|[e ->]]; [apply Hk|done].
Qed.

Context {Laws : AptosLaws}.

Lemma sign_payload_signs now chain_id payload : signs_next chain_id (sign_payload now chain_id payload).
Proof.
  intros a. unfold sign_payload, sign. run. unfold or_error.
  destruct (raw_sign _ _ _) as [tx|] eqn:Hs; [|done]. simpl.
  rewrite (into_raw_sign _ _ _ _ Hs). unfold raw_of.
  by rewrite raw_sender_new, raw_sequence_new, raw_chain_new.
Qed.

Lemma multi_agent_signs now chain_id signer f :
  signs_next chain_id (build_multi_agent_market_txn now chain_id signer f).
Proof.
  intros a. unfold build_multi_agent_market_txn. run. unfold or_error.
  destruct (message_sign (la_private_key a) _) as [sig|]; [|reflexivity]. run.
  destruct (message_sign _ _) as [sig'|]; [|reflexivity]. simpl.
  rewrite into_raw_multi_agent. unfold raw_of.
  by rewrite raw_sender_new, raw_sequence_new, raw_chain_new.
Qed.

(** [m] only reads the account, and succeeds. *)
Definition finds {A} (m : Exec LocalAccount AnyhowError A) : Prop :=
  forall a, exists x, m a = (a, Ok x).
Definition succeeds (m : Exec LocalAccount AnyhowError Transaction) : Prop :=
  forall a, exists a' tx, m a = (a', Ok tx).

Lemma succeeds_bind {A} (m : Exec LocalAccount AnyhowError A) k :
  finds m -> (forall x, succeeds (k x)) -> succeeds (m ≫= k).
Proof.
  intros Hm Hk a. destruct (Hm a) as [x Hx]. destruct (Hk x a) as (a' & tx & Htx).
  exists a', tx. by rewrite (run_bind _ _ _ _ _ Hx).
Qed.
Lemma finds_gets {A} (f : LocalAccount -> A) : finds (gets f).
Proof. intros a. by eexists. Qed.
Lemma finds_or_error {A} (o : option A) : is_Some o -> finds (or_error o).
Proof. intros [x ->] a. by eexists. Qed.
Lemma finds_bind {A B} (m : Exec LocalAccount AnyhowError A) (k : A -> Exec LocalAccount AnyhowError B) :
  finds m -> (forall x, finds (k x)) -> finds (m ≫= k).
Proof.
  intros Hm Hk a. destruct (Hm a) as [x Hx]. rewrite (run_bind _ _ _ _ _ Hx). apply Hk.
Qed.
Lemma finds_all {A} (os : list (option A)) : Forall is_Some os -> finds (all_or_error os).
Proof.
  induction 1 as [|o os Ho _ IH]; simpl; [intros a; by eexists|].
  apply finds_bind; [by apply finds_or_error|]. intros x. apply finds_bind; [done|].
  intros xs a. by eexists.
Qed.

Context {Total : AptosTotal}.

Lemma finds_market_function owner name args :
  name ∈ ["create_market"; "register_trader"; "mint_to_trader"; "place_limit_order_with_client_id";
    "cancel_order_by_client_id"; "decrease_order_size_by_client_id"; "replace_order_by_client_id"]%string ->
  Forall is_Some args -> finds (market_function owner name args).
Proof.
  intros Hname Hargs. unfold market_function.
  apply finds_bind; [apply finds_or_error, identifier_total; set_solver|intros module].
  apply finds_bind; [apply finds_or_error, identifier_total; set_solver|intros function].
  apply finds_bind; [by apply finds_all|]. intros bytes a. by eexists.
Qed.
Lemma sign_payload_succeeds now chain_id payload : succeeds (sign_payload now chain_id payload).
Proof.
  intros a. unfold sign_payload, sign. run.
  destruct (raw_sign_total (raw_of now chain_id a payload) (la_private_key a) (la_public_key a)) as [tx ->].
  by eexists _, _.
Qed.
Lemma multi_agent_succeeds now chain_id signer f :
  succeeds (build_multi_agent_market_txn now chain_id signer f).
Proof.
  intros a. unfold build_multi_agent_market_txn. run.
  destruct (message_sign_total (la_private_key a)
    (new_multi_agent (raw_of now chain_id a (Payload_EntryFunction f)) [la_address signer])) as [x ->]. run.
  destruct (message_sign_total (la_private_key signer)
    (new_multi_agent (raw_of now chain_id a (Payload_EntryFunction f)) [la_address signer])) as [y ->].
  by eexists _, _.
Qed.

(** [m] makes the next transaction of the account and does not fail. *)
Definition makes_next (chain_id : ChainId) (m : Exec LocalAccount AnyhowError Transaction) : Prop :=
  signs_next chain_id m /\ succeeds m.

Lemma sign_payload_makes now chain_id payload : makes_next chain_id (sign_payload now chain_id payload).
Proof. split; [apply sign_payload_signs|apply sign_payload_succeeds]. Qed.
Lemma multi_agent_makes now chain_id signer f :
  makes_next chain_id (build_multi_agent_market_txn now chain_id signer f).
Proof. split; [apply multi_agent_signs|apply multi_agent_succeeds]. Qed.
Lemma makes_bind {A} chain_id (m : Exec LocalAccount AnyhowError A) k :
  reads m -> finds m -> (forall x, makes_next chain_id (k x)) -> makes_next chain_id (m ≫= k).
Proof. intros Hr Hf Hk. split; [apply signs_next_bind|apply succeeds_bind]; try done; apply Hk. Qed.
Lemma identifier_makes chain_id name k :
  name ∈ ["coin"; "transfer"; "aptos_coin"; "AptosCoin"]%string ->
  (forall x, makes_next chain_id (k x)) -> makes_next chain_id (or_error (Identifier_new name) ≫= k).
Proof.
  intros Hname. apply makes_bind; [apply reads_or_error|apply finds_or_error, identifier_total; set_solver].
Qed.
Lemma bytes_make {A} chain_id (o : option A) k :
  is_Some o -> (forall x, makes_next chain_id (k x)) -> makes_next chain_id (or_error o ≫= k).
Proof. intros Ho. apply makes_bind; [apply reads_or_error|by apply finds_or_error]. Qed.
Lemma gets_makes {A} chain_id (g : LocalAccount -> A) k :
  (forall a, makes_next chain_id (k a)) -> makes_next chain_id (gets g ≫= k).
Proof. apply makes_bind; [apply reads_gets|apply finds_gets]. Qed.
Lemma market_makes chain_id owner name args k :
  name ∈ ["create_market"; "register_trader"; "mint_to_trader"; "place_limit_order_with_client_id";
    "cancel_order_by_client_id"; "decrease_order_size_by_client_id"; "replace_order_by_client_id"]%string ->
  Forall is_Some args -> (forall f, makes_next chain_id (k f)) ->
  makes_next chain_id (market_function owner name args ≫= k).
Proof.
  intros Hname Hargs. apply makes_bind; [apply reads_market_function|by apply finds_market_function].
Qed.

#[local] Hint Resolve sign_payload_makes multi_agent_makes gets_makes bytes_make
  u64_to_bytes bool_to_bytes address_to_bytes : accounts.
#[local] Hint Extern 1 (makes_next _ (market_function _ _ _ ≫= _)) =>
  apply market_makes; [set_solver|repeat constructor| ] : accounts.
#[local] Hint Extern 1 (makes_next _ (or_error (Identifier_new _) ≫= _)) =>
  apply identifier_makes; [set_solver|intros ?] : accounts.

(** The nine builders. *)
Section each.
Context (now : option Z) (chain_id : ChainId) (owner : AccountAddress) (market : LocalAccount).
Abbreviation makes := (makes_next chain_id).

Lemma apt_transfer_makes recipient amount : makes (apt_transfer now chain_id recipient amount).
Proof. unfold apt_transfer. eauto 12 with accounts. Qed.
Lemma publish_package_makes metadata modules : makes (publish_package now chain_id metadata modules).
Proof. unfold publish_package. auto with accounts. Qed.
Lemma create_market_makes x y z : makes (create_market now chain_id market x y z).
Proof. unfold create_market. auto with accounts. Qed.
Lemma register_trader_makes : makes (register_trader now chain_id owner).
Proof. unfold register_trader. auto with accounts. Qed.
Lemma mint_trader_funds_makes trader x y : makes (mint_trader_funds now chain_id trader x y).
Proof. unfold mint_trader_funds. auto with accounts. Qed.
Lemma place_limit_order_makes price size is_bid id :
  makes (place_limit_order_with_client_id now chain_id owner market price size is_bid id).
Proof. unfold place_limit_order_with_client_id. auto with accounts. Qed.
Lemma cancel_order_makes id : makes (cancel_order_by_client_id now chain_id owner market id).
Proof. unfold cancel_order_by_client_id. auto with accounts. Qed.
Lemma decrease_order_size_makes id delta :
  makes (decrease_order_size_by_client_id now chain_id owner market id delta).
Proof. unfold decrease_order_size_by_client_id. auto with accounts. Qed.
Lemma replace_order_makes id price size is_bid :
  makes (replace_order_by_client_id now chain_id owner market id price size is_bid).
Proof. unfold replace_order_by_client_id. auto with accounts. Qed.
End each.
End accounts.

#[export] Hint Resolve apt_transfer_makes publish_package_makes create_market_makes
  register_trader_makes mint_trader_funds_makes place_limit_order_makes cancel_order_makes
  decrease_order_size_makes replace_order_makes : accounts.
