(* ===== verification/BenchmarkClient.v ===== *)
(** * BenchmarkClient: the load generator (src/node/src/benchmark_client.rs)

    [send] runs in ticks of an interval; each tick is a burst of transfers of one
    account.  What the connection does is a parameter: whether it opens, and
    whether it takes the message of a given number.  Parsing the command line and
    waiting for the nodes to be online are I/O. *)
From S2P Require Import Prelude DagMessages Executor Accounts.

Section client.
Context `{Txns : Transactions} `{Aptos : !AptosTypes}.

(** The fields that [send] reads, and those it changes: the account, its local
    [counter], the messages that the transport took and the lines about sample
    transactions (counter and sequence number), newest first. *)
Record Client := mkClient {
  cl_rate : Z;
  cl_burst_duration : Z;
  cl_recipient : LocalAccount;
  cl_chain_id : ChainId;
  cl_transfer_amount : Z;
  cl_tx_size_bytes : nat;
}.
Record ClientState := mkClientState {
  cs_sender : LocalAccount;
  cs_counter : Z;
  cs_sent : list (list Z);
  cs_samples : list (Z * Z);
}.
Abbreviation ClM := (Exec ClientState AnyhowError).

Definition set_sender (a : LocalAccount) (s : ClientState) : ClientState :=
  mkClientState a (cs_counter s) (cs_sent s) (cs_samples s).
Definition set_counter (n : Z) (s : ClientState) : ClientState :=
  mkClientState (cs_sender s) n (cs_sent s) (cs_samples s).
Definition add_sent (bytes : list Z) (s : ClientState) : ClientState :=
  mkClientState (cs_sender s) (cs_counter s) (bytes :: cs_sent s) (cs_samples s).
Definition log_sample (counter sequence : Z) (s : ClientState) : ClientState :=
  mkClientState (cs_sender s) (cs_counter s) (cs_sent s) ((counter, sequence) :: cs_samples s).

Definition PRECISION : Z := 20.

(** [main] after the command line: the accounts, and the size of a sample
    transaction of an account of its own. *)
Definition client_new (chain_id : ChainId) (now : option Z) (rate burst_duration : Z)
    : Outcome AnyhowError (Client * LocalAccount) :=
  recipient ← (match generate 2 with
               | Err e => Err (AE_Context "failed to create recipient account" e) | o => o end);
  sample_sender ← (match generate 1 with
                   | Err e => Err (AE_Context "failed to create sample sender" e) | o => o end);
  sample_tx ← (context "failed to build sample transaction"
                 (apt_transfer now chain_id (la_address recipient) 1) sample_sender).2;
  sample_bytes ← (context "failed to serialize sample transaction"
                    (or_error (bcs_to_bytes sample_tx)) tt).2;
  sender ← (match generate 1 with
            | Err e => Err (AE_Context "failed to create sender account" e) | o => o end);
  Ok (mkClient rate burst_duration recipient chain_id 1 (length sample_bytes), sender).

Section send.
Context (cl : Client).
(** The clock at, and the fate of, the message of a given number. *)
Context (clock : Z -> option Z) (accepts : Z -> bool).

(** One pass of the inner loop: [false] is [break 'main]. *)
Definition send_one (burst i : Z) : ClM bool :=
  sequence ← gets (fun s => la_sequence_number (cs_sender s));
  counter ← gets cs_counter;
  _ ← (if i =? counter `mod` burst then modify (log_sample counter sequence) else mret tt);
  txn ← zoom cs_sender set_sender
          (apt_transfer (clock counter) (cl_chain_id cl) (la_address (cl_recipient cl)) (cl_transfer_amount cl));
  bytes ← or_error (bcs_to_bytes txn);
  if accepts counter then
    _ ← modify (add_sent bytes);
    _ ← modify (set_counter (u64_add counter 1));
    mret true
  else mret false.

(** The inner loop from [i] on, with [n] passes to go. *)
Fixpoint send_burst (n : nat) (burst i : Z) : ClM bool :=
  match n with
  | O => mret true
  | S n' => go_on ← send_one burst i; if (go_on : bool) then send_burst n' burst (i + 1) else mret false
  end.

(** The main loop, until it ends or [ticks] ticks have passed. *)
Fixpoint send_ticks (ticks : nat) (burst : Z) : ClM unit :=
  match ticks with
  | O => mret tt
  | S ticks' =>
      go_on ← send_burst (Z.to_nat burst) burst 0;
      if (go_on : bool) then send_ticks ticks' burst else mret tt
  end.

Definition client_burst : Z := Z.max 1 (cl_rate cl / PRECISION).

(** [Client::send] *)
Definition client_send (connects : bool) (ticks : nat) : ClM unit :=
  if cl_rate cl =? 0 then mret tt
  else
    _ ← (if connects then mret tt else fail (AE_Context "failed to connect" AE_Library));
    _ ← modify (set_counter 0);
    send_ticks ticks client_burst.

(** ** What is sent *)
Context {Laws : AptosLaws} {Total : AptosTotal}.
Context (Hbytes : forall tx, is_Some (bcs_to_bytes tx)).

(** The state after [n] messages of the account that started as [a]: they are
    the transfers of the sequence numbers 0, 1, ..., and each of them was logged as
    a sample. *)
Definition message (a : LocalAccount) (k : nat) (bytes : list Z) : Prop :=
  exists tx, bcs_to_bytes tx = Some bytes /\
    raw_sender (into_raw_transaction tx) = la_address a /\
    raw_sequence_number (into_raw_transaction tx) = Z.of_nat k /\
    raw_chain_id (into_raw_transaction tx) = cl_chain_id cl.
Fixpoint messages (a : LocalAccount) (n : nat) (sent : list (list Z)) : Prop :=
  match n, sent with
  | O, [] => True
  | S n', bytes :: sent' => message a n' bytes /\ messages a n' sent'
  | _, _ => False
  end.
Definition all_samples (n : nat) : list (Z * Z) := reverse (map (fun k => (Z.of_nat k, Z.of_nat k)) (seq 0 n)).
Lemma all_samples_S n : all_samples (S n) = (Z.of_nat n, Z.of_nat n) :: all_samples n.
Proof. unfold all_samples. by rewrite seq_S, map_app, reverse_app. Qed.

Record sent_so_far (a : LocalAccount) (n : nat) (s : ClientState) : Prop := {
  sf_address : la_address (cs_sender s) = la_address a;
  sf_sequence : la_sequence_number (cs_sender s) = Z.of_nat n;
  sf_counter : cs_counter s = Z.of_nat n;
  sf_sent : messages a n (cs_sent s);
  sf_samples : cs_samples s = all_samples n;
}.

Lemma send_one_spec a n burst i s :
  sent_so_far a n s -> 0 < burst -> i = Z.of_nat n `mod` burst -> Z.of_nat n < 2 ^ 64 - 1 ->
  (accepts (Z.of_nat n) = true ->
     exists s', send_one burst i s = (s', Ok true) /\ sent_so_far a (S n) s') /\
  (accepts (Z.of_nat n) = false ->
     exists s', send_one burst i s = (s', Ok false) /\ messages a n (cs_sent s') /\
       cs_samples s' = all_samples (S n)).
Proof.
  intros [Ha Hq Hc Hsent Hsam] Hb -> Hn. unfold send_one. run. rewrite Hc, Z.eqb_refl. runs. rewrite Hq.
  set (s1 := log_sample (Z.of_nat n) (Z.of_nat n) s).
  destruct (apt_transfer_makes (clock (Z.of_nat n)) (cl_chain_id cl) (la_address (cl_recipient cl))
              (cl_transfer_amount cl)) as [Hsigns Hsucc].
  specialize (Hsigns (cs_sender s1)). destruct (Hsucc (cs_sender s1)) as (a' & tx & Hrun). rewrite Hrun in Hsigns.
  destruct Hsigns as (-> & Hsender & Hseq & Hchain). destruct (Hbytes tx) as [bytes Htx].
  rewrite (run_bind _ _ _ (set_sender (next_sequence_number (cs_sender s1)) s1) tx)
    by (unfold zoom; by rewrite Hrun).
  rewrite Htx, (run_bind _ _ _ _ _ (eq_refl : or_error (Some bytes) _ = (_, Ok bytes))).
  assert (Hmsg : message a n bytes).
  { exists tx. split_and!; [done| | |done]; [by rewrite Hsender|by rewrite Hseq]. }
  assert (Hs : (Z.of_nat n, Z.of_nat n) :: cs_samples s = all_samples (S n)) by (by rewrite all_samples_S, Hsam).
  split; intros ->; run; eexists; (split; [reflexivity|]); [|by split].
  split; simpl; [done| | |done|done]; rewrite ?Hq, u64_add_small by lia; lia.
Qed.

(** A whole burst, from a multiple of its size on. *)
Lemma send_burst_spec a m n burst i s :
  sent_so_far a n s -> 0 < burst -> i = Z.of_nat n `mod` burst -> i + Z.of_nat m <= burst ->
  Z.of_nat (n + m) <= 2 ^ 64 - 1 -> (forall k, (k < n + m)%nat -> accepts (Z.of_nat k) = true) ->
  exists s', send_burst m burst i s = (s', Ok true) /\ sent_so_far a (n + m) s'.
Proof.
  revert n i s. induction m as [|m IH]; intros n i s Hs Hb Hi Hle Hn Hacc.
  { exists s. by rewrite Nat.add_0_r. }
  cbn [send_burst]. destruct (send_one_spec a n burst i s Hs Hb Hi) as [Hone _]; [lia|].
  destruct Hone as (s1 & Hrun & Hs1); [apply Hacc; lia|]. rewrite (run_bind _ _ _ _ _ Hrun).
  destruct (decide (m = 0)%nat) as [->|Hm].
  { exists s1. by rewrite Nat.add_1_r. }
  replace (n + S m)%nat with (S n + m)%nat in * by lia. apply IH; [done..| |lia|lia|done].
  rewrite Nat2Z.inj_succ, <-Z.add_1_r, Hi.
  rewrite <-(Z.mod_small (Z.of_nat n `mod` burst + 1) burst) by (pose proof (Z.mod_pos_bound (Z.of_nat n) burst); lia).
  by rewrite Zplus_mod_idemp_l.
Qed.

(** While the connection works, [ticks] ticks send [ticks] bursts: the transfers
    of the account with consecutive sequence numbers from 0 on.  Every one of
    them is logged as a sample transaction, not one per burst: [counter] grows
    with each message, so that [counter % burst] is the index of the pass. *)
Lemma client_sends_bursts ticks a s :
  cs_sender s = a -> la_sequence_number a = 0 -> cs_sent s = [] -> cs_samples s = [] ->
  0 < cl_rate cl -> (forall k, accepts k = true) ->
  let n := (ticks * Z.to_nat client_burst)%nat in
  Z.of_nat n <= 2 ^ 64 - 1 ->
  exists s', client_send true ticks s = (s', Ok tt) /\ sent_so_far a n s'.
Proof.
  intros Ha Hq Hsent Hsam Hr Hacc. unfold client_send. rewrite (proj2 (Z.eqb_neq _ _)) by lia. run.
  assert (Hb : 0 < client_burst) by (unfold client_burst; lia).
  assert (H0 : sent_so_far a 0 (set_counter 0 s)).
  { split; simpl; rewrite ?Ha, ?Hsent, ?Hsam; done. }
  clear Ha Hq Hsent Hsam. revert H0. generalize (set_counter 0 s). clear s. intros s Hs Hn.
  assert (Hgen : forall m, sent_so_far a (m * Z.to_nat client_burst) s ->
    Z.of_nat ((m + ticks) * Z.to_nat client_burst) <= 2 ^ 64 - 1 ->
    exists s', send_ticks ticks client_burst s = (s', Ok tt) /\
      sent_so_far a ((m + ticks) * Z.to_nat client_burst) s').
  { clear Hs Hn. revert s. induction ticks as [|ticks IH]; intros s m Hs Hn.
    { exists s. by rewrite Nat.add_0_r. }
    cbn [send_ticks].
    destruct (send_burst_spec a (Z.to_nat client_burst) (m * Z.to_nat client_burst) client_burst 0 s)
      as (s1 & Hrun & Hs1); [done|done| |lia|nia|done|].
    { rewrite Nat2Z.inj_mul, Z2Nat.id by lia. by rewrite Z.mod_mul by lia. }
    rewrite (run_bind _ _ _ _ _ Hrun). replace (m + S ticks)%nat with (S m + ticks)%nat in * by lia.
    apply IH; [|done]. by replace (S m * Z.to_nat client_burst)%nat
      with (m * Z.to_nat client_burst + Z.to_nat client_burst)%nat by lia. }
  apply (Hgen 0%nat); done.
Qed.
End send.
End client.
