(* ===== verification/AptosDb.v ===== *)
(** * AptosDb: genesis, funded accounts and balances
    (src/aptos_executor/src/database.rs, src/aptos_executor/src/executor.rs)

    The resources are types of the Aptos libraries: parameters with their
    constructors, the accessors the code uses and their BCS. *)
From S2P Require Import Prelude DagMessages Executor Accounts.

(** The structure declared in [ensure_apt_supply]. *)
Record Supply := mkSupply {
  sup_current : Z;
  sup_maximum : option Z;
}.

Class AptosResources `{Aptos : AptosTypes} `{Vm : !AptosVM} := {
  primary_apt_store : AccountAddress -> AccountAddress;
  address_debug : AccountAddress -> string;
  (** [StateKey::resource], [StateKey::resource_group] *)
  key_resource : AccountAddress -> StructTag -> option StateKey;
  key_resource_group : AccountAddress -> StructTag -> StateKey;
  new_legacy : list Z -> StateValue;
  value_bytes : StateValue -> list Z;
  AccountResource_tag : StructTag;
  CoinStore_tag : StructTag;
  ObjectGroup_tag : StructTag;
  ObjectCore_tag : StructTag;
  FungibleStore_tag : StructTag;
  MigrationFlag_tag : StructTag;
  ConcurrentBalance_tag : StructTag;
  ConcurrentSupply_tag : StructTag;
  EventKey : Type;
  EventKey_new : Z -> AccountAddress -> EventKey;
  EventHandle : Type;
  EventHandle_new : EventKey -> Z -> EventHandle;
  AccountResource : Type;
  AccountResource_new : Z -> list Z -> EventHandle -> EventHandle -> AccountResource;
  CoinStoreResource : Type;
  CoinStore_new : Z -> bool -> EventHandle -> EventHandle -> CoinStoreResource;
  coin : CoinStoreResource -> Z;
  ObjectCoreResource : Type;
  ObjectCore_new : AccountAddress -> bool -> EventHandle -> ObjectCoreResource;
  FungibleStoreResource : Type;
  FungibleStore_new : AccountAddress -> Z -> bool -> FungibleStoreResource;
  fungible_store_balance : FungibleStoreResource -> Z;
  MigrationFlag : Type;
  MigrationFlag_default : MigrationFlag;
  ConcurrentFungibleBalanceResource : Type;
  concurrent_balance : ConcurrentFungibleBalanceResource -> Z;
  ConcurrentSupplyResource : Type;
  (** with [AggregatorResource::new(value, max)] *)
  ConcurrentSupply_new : Z -> Z -> ConcurrentSupplyResource;
  ObjectGroupResource : Type;
  group_default : ObjectGroupResource;
  group_insert : StructTag -> list Z -> ObjectGroupResource -> ObjectGroupResource;
  group_map : ObjectGroupResource -> gmap StructTag (list Z);
  #[global] bcs_account :: Bcs AccountResource;
  #[global] bcs_coin :: Bcs CoinStoreResource;
  #[global] bcs_object_core :: Bcs ObjectCoreResource;
  #[global] bcs_fungible :: Bcs FungibleStoreResource;
  #[global] bcs_flag :: Bcs MigrationFlag;
  #[global] bcs_concurrent :: Bcs ConcurrentFungibleBalanceResource;
  #[global] bcs_concurrent_supply :: Bcs ConcurrentSupplyResource;
  #[global] bcs_group :: Bcs ObjectGroupResource;
  #[global] bcs_group_map :: Bcs (gmap StructTag (list Z));
  #[global] bcs_supply :: Bcs Supply;
  (** [generate_genesis_change_set_for_mainnet(..).write_set().write_op_iter()] *)
  genesis_writes : list (StateKey * WriteOp);
}.

(** Documented behaviour of the library: accessors, serialization, and keys that
    tell resources from groups and their places apart. *)
Class AptosResourcesLaws `{Res : AptosResources} : Prop := {
  value_bytes_new : forall bytes, value_bytes (new_legacy bytes) = bytes;
  coin_new : forall b f d w, coin (CoinStore_new b f d w) = b;
  fungible_balance_new : forall a b f, fungible_store_balance (FungibleStore_new a b f) = b;
  group_default_map : group_map group_default = ∅;
  group_insert_map : forall t bytes g, group_map (group_insert t bytes g) = <[t := bytes]> (group_map g);
  key_resource_total : forall a t, is_Some (key_resource a t);
  key_resource_not_group : forall a t a' t', key_resource a t <> Some (key_resource_group a' t');
  key_resource_inj : forall a t a' t', key_resource a t = key_resource a' t' -> a = a' /\ t = t';
  key_group_inj : forall a t a' t', key_resource_group a t = key_resource_group a' t' -> a = a' /\ t = t';
  tags_distinct : AccountResource_tag <> CoinStore_tag /\
    NoDup [ObjectCore_tag; FungibleStore_tag; MigrationFlag_tag; ConcurrentBalance_tag];
  #[global] bcs_account_laws :: BcsLaws AccountResource;
  #[global] bcs_coin_laws :: BcsLaws CoinStoreResource;
  #[global] bcs_object_core_laws :: BcsLaws ObjectCoreResource;
  #[global] bcs_fungible_laws :: BcsLaws FungibleStoreResource;
  #[global] bcs_flag_laws :: BcsLaws MigrationFlag;
  #[global] bcs_concurrent_supply_laws :: BcsLaws ConcurrentSupplyResource;
  #[global] bcs_group_laws :: BcsLaws ObjectGroupResource;
  #[global] bcs_group_map_laws :: BcsLaws (gmap StructTag (list Z));
  #[global] bcs_supply_laws :: BcsLaws Supply;
}.

Definition u64_max : Z := 2 ^ 64 - 1.
(** [u64::saturating_add] *)
Definition u64_saturating_add (a b : Z) : Z := Z.min u64_max (a + b).

Section aptos_db.
Context `{Res : AptosResources}.
Implicit Types (d : TestDbReader) (a : AccountAddress) (acct : LocalAccount).

(** ** Accounts *)
Definition publish_coin_store {E} a (balance : Z) : Exec TestDbReader E unit :=
  let deposit_events := EventHandle_new (EventKey_new 2 a) 0 in
  let withdraw_events := EventHandle_new (EventKey_new 3 a) 0 in
  let coin_store := CoinStore_new balance false deposit_events withdraw_events in
  coin_store_key ← expect (key_resource a CoinStore_tag) "CoinStore resource key";
  coin_store_bytes ← expect (to_bytes coin_store) "CoinStore BCS";
  modify (set_state_value coin_store_key (new_legacy coin_store_bytes)).

Definition publish_fungible_store {E} a (balance : Z) : Exec TestDbReader E unit :=
  let primary_store_address := primary_apt_store a in
  let transfer_events := EventHandle_new (EventKey_new 0 primary_store_address) 0 in
  object_core ← expect (to_bytes (ObjectCore_new a false transfer_events)) "object core BCS";
  store ← expect (to_bytes (FungibleStore_new ADDRESS_TEN balance false)) "fungible store BCS";
  flag ← expect (to_bytes MigrationFlag_default) "migration flag BCS";
  let object_group :=
    group_insert MigrationFlag_tag flag
      (group_insert FungibleStore_tag store (group_insert ObjectCore_tag object_core group_default)) in
  group_bytes ← expect (to_bytes object_group) "fungible store object group serialization";
  let group_key := key_resource_group primary_store_address ObjectGroup_tag in
  modify (set_state_value group_key (new_legacy group_bytes)).

(** An extra buffer for gas. *)
Definition effective_balance (initial_balance : Z) : Z :=
  if 0 <? initial_balance then u64_saturating_add initial_balance 1000000000 else initial_balance.

Definition publish_account_resources {E} acct (initial_balance : Z) : Exec TestDbReader E unit :=
  let a := la_address acct in
  let auth_key := auth_ed25519 (la_public_key acct) in
  let account_resource :=
    AccountResource_new (la_sequence_number acct) (auth_to_vec auth_key)
      (EventHandle_new (EventKey_new 0 a) 0) (EventHandle_new (EventKey_new 1 a) 0) in
  account_key ← expect (key_resource a AccountResource_tag) "AccountResource should serialize";
  account_bytes ← expect (to_bytes account_resource) "AccountResource BCS";
  _ ← modify (set_state_value account_key (new_legacy account_bytes));
  _ ← publish_coin_store a (effective_balance initial_balance);
  _ ← publish_fungible_store a (effective_balance initial_balance);
  modify bump_version.

(** [AptosVmExecutor::account_balance] *)
Definition account_balance a d : Outcome AnyhowError Z :=
  let primary_store := primary_apt_store a in
  let object_group_key := key_resource_group primary_store ObjectGroup_tag in
  let ok_or {A} (o : option A) : Outcome AnyhowError A :=
    match o with Some x => Ok x | None => Err AE_Library end in
  fungible ←
    (match get_state_value object_group_key d with
     | Some state_value =>
         object_group ← ok_or (from_bytes (value_bytes state_value) : option ObjectGroupResource);
         store ←
           (match group_map object_group !! FungibleStore_tag with
            | Some bytes =>
                store ← ok_or (from_bytes bytes : option FungibleStoreResource);
                Ok (fungible_store_balance store)
            | None => Ok 0
            end);
         concurrent ←
           (match group_map object_group !! ConcurrentBalance_tag with
            | Some bytes =>
                concurrent ← ok_or (from_bytes bytes : option ConcurrentFungibleBalanceResource);
                Ok (concurrent_balance concurrent)
            | None => Ok 0
            end);
         Ok (u128_wrap (u128_wrap (0 + store) + concurrent))
     | None => Ok 0
     end);
  if 0 <? fungible then Ok fungible
  else
    match key_resource a CoinStore_tag with
    | None => Err (AE_Message "failed to derive coin store key")
    | Some coin_key =>
        match get_state_value coin_key d with
        | None => Err (AE_Message ("account " +:+ address_debug a +:+ " missing coin or fungible store"))
        | Some state_value =>
            coin_store ← ok_or (from_bytes (value_bytes state_value) : option CoinStoreResource);
            Ok (coin coin_store)
        end
    end.

(** ** Genesis *)
Definition ensure_apt_supply : Exec TestDbReader AnyhowError unit :=
  fungible_asset ← or_error (Identifier_new "fungible_asset");
  supply ← or_error (Identifier_new "Supply");
  let supply_tag := StructTag_new ADDRESS_ONE fungible_asset supply [] in
  let object_group_key := key_resource_group ADDRESS_TEN ObjectGroup_tag in
  found ← gets (get_state_value object_group_key);
  group ←
    (match found with
     | None => mret ∅
     | Some value =>
         match from_bytes (value_bytes value) : option (gmap StructTag (list Z)) with
         | Some group => mret group
         | None => fail (AE_Message "failed to decode APT supply object group")
         end
     end);
  let initial_supply := 1000000000000000000 in
  supply_bytes ← or_error (to_bytes (mkSupply initial_supply None));
  concurrent_bytes ← or_error (to_bytes (ConcurrentSupply_new initial_supply u128_max));
  let group : gmap StructTag (list Z) :=
    <[ConcurrentSupply_tag := concurrent_bytes]> (<[supply_tag := supply_bytes]> group) in
  serialized ← or_error (to_bytes group);
  _ ← modify (set_state_value object_group_key (new_legacy serialized));
  modify bump_version.

Definition apply_genesis : Exec TestDbReader AnyhowError unit :=
  _ ← modify (fun d => foldl (fun d x => apply_write_op x d) d genesis_writes);
  _ ← modify bump_version;
  ensure_apt_supply.

(** [AptosDatabase::new_with_genesis]; [AptosVmExecutor::new] adds the chain id. *)
Definition new_with_genesis : Outcome AnyhowError TestDbReader :=
  let '(d, o) := apply_genesis (mkTestDbReader ∅ 0) in
  _ ← o; Ok d.

(** [bootstrap_account] and [bootstrap_accounts] of the committer: a seed
    without an account is passed over. *)
Definition PRE_FUNDED_ACCOUNT_SEEDS : list Z := [1; 2; 3; 4].
Definition INITIAL_ACCOUNT_BALANCE : Z := 1000000000000.
Fixpoint bootstrap_accounts {E} (seeds : list Z) : Exec TestDbReader E unit :=
  match seeds with
  | [] => mret tt
  | seed :: seeds' =>
      _ ← (match generate seed with
           | Ok account => publish_account_resources account INITIAL_ACCOUNT_BALANCE
           | _ => mret tt
           end);
      bootstrap_accounts seeds'
  end.

(** ** What accounts hold *)
Context {Laws : AptosResourcesLaws}.

Definition group_key a : StateKey := key_resource_group (primary_apt_store a) ObjectGroup_tag.

(** [d] holds the two stores of [a] with a balance. *)
Record funded a (balance : Z) d : Prop := {
  fd_group : exists group store group_bytes store_bytes,
    get_state_value (group_key a) d = Some (new_legacy group_bytes) /\
    from_bytes group_bytes = Some group /\
    group_map group !! FungibleStore_tag = Some store_bytes /\
    group_map group !! ConcurrentBalance_tag = None /\
    from_bytes store_bytes = Some store /\ fungible_store_balance store = balance;
  fd_coin : exists key coin_store coin_bytes,
    key_resource a CoinStore_tag = Some key /\
    get_state_value key d = Some (new_legacy coin_bytes) /\
    from_bytes coin_bytes = Some coin_store /\ coin coin_store = balance;
}.

(** [d'] differs from [d] only in what belongs to [a]. *)
Definition same_elsewhere a d d' : Prop :=
  forall key, key <> group_key a -> (forall t, key_resource a t <> Some key) ->
    get_state_value key d' = get_state_value key d.

Lemma funded_balance a balance d :
  u64 balance -> funded a balance d -> account_balance a d = Ok balance.
Proof.
  intros Hb [(group & store & gb & sb & Hg & Hgb & Hs & Hc & Hsb & <-) (key & cs & cb & Hk & Hcoin & Hcb & Heq)].
  unfold account_balance. fold (group_key a). rewrite Hg, value_bytes_new, Hgb. simpl.
  rewrite Hs, Hc. simpl. rewrite Hsb. simpl.
  unfold u128_wrap. rewrite Z.add_0_r, Z.mod_mod, Z.mod_small by (unfold u64 in Hb; lia).
  rewrite Z.add_0_l. destruct (Z.ltb_spec 0 (fungible_store_balance store)); [done|].
  rewrite Hk, Hcoin, value_bytes_new, Hcb. simpl. f_equal. unfold u64 in Hb. lia.
Qed.

Lemma get_set key v key' d :
  get_state_value key' (set_state_value key v d) = if decide (key = key') then Some v else get_state_value key' d.
Proof. unfold get_state_value. simpl. by rewrite lookup_insert. Qed.

Lemma expect_total {S E A} (o : option A) msg (s : S) : is_Some o ->
  exists x, o = Some x /\ (expect o msg : Exec S E A) s = (s, Ok x).
Proof. intros [x ->]. by exists x. Qed.

Lemma publish_coin_store_run {E} a balance d :
  exists key coin_bytes coin_store,
    key_resource a CoinStore_tag = Some key /\ from_bytes coin_bytes = Some coin_store /\
    coin coin_store = balance /\
    publish_coin_store (E := E) a balance d = (set_state_value key (new_legacy coin_bytes) d, Ok tt).
Proof.
  unfold publish_coin_store. destruct (key_resource_total a CoinStore_tag) as [key Hk].
  set (cs := CoinStore_new _ _ _ _). destruct (to_bytes_total cs) as [bytes Hb].
  exists key, bytes, cs. split_and!; [done|by apply from_to_bytes|apply coin_new|].
  by rewrite Hk, Hb.
Qed.

Lemma publish_fungible_store_run {E} a balance d :
  exists group_bytes group store store_bytes,
    from_bytes group_bytes = Some group /\
    group_map group !! FungibleStore_tag = Some store_bytes /\
    group_map group !! ConcurrentBalance_tag = None /\
    from_bytes store_bytes = Some store /\ fungible_store_balance store = balance /\
    publish_fungible_store (E := E) a balance d =
      (set_state_value (group_key a) (new_legacy group_bytes) d, Ok tt).
Proof.
  unfold publish_fungible_store. set (oc := ObjectCore_new _ _ _). destruct (to_bytes_total oc) as [ob Ho].
  set (store := FungibleStore_new _ _ _). destruct (to_bytes_total store) as [sb Hs].
  destruct (to_bytes_total MigrationFlag_default) as [fb Hf]. rewrite Ho, Hs, Hf. runs.
  set (group := group_insert _ _ _). destruct (to_bytes_total group) as [gb Hg].
  destruct tags_distinct as [_ Hnd]. rewrite !NoDup_cons, !not_elem_of_cons in Hnd.
  destruct Hnd as ((? & ? & ? & _) & (? & ? & _) & (? & _) & _).
  exists gb, group, store, sb. unfold group.
  rewrite !group_insert_map, group_default_map.
  split_and!; [by apply from_to_bytes| | |by apply from_to_bytes|apply fungible_balance_new|by fold group; rewrite Hg].
  - by rewrite lookup_insert_ne, lookup_insert_eq by congruence.
  - by rewrite !lookup_insert_ne, lookup_empty by congruence.
Qed.

(** Publishing the resources of an account funds it and touches nothing else. *)
Lemma publish_funds {E} acct initial d :
  exists d', publish_account_resources (E := E) acct initial d = (d', Ok tt) /\
    funded (la_address acct) (effective_balance initial) d' /\
    same_elsewhere (la_address acct) d d' /\
    db_version d' = u64_add (db_version d) 1.
Proof.
  unfold publish_account_resources. set (a := la_address acct). set (r := AccountResource_new _ _ _ _).
  destruct (key_resource_total a AccountResource_tag) as [ak Hak], (to_bytes_total r) as [ab Hab].
  rewrite Hak, Hab. runs. set (d0 := set_state_value ak _ d).
  destruct (publish_coin_store_run (E := E) a (effective_balance initial) d0)
    as (ck & cb & cs & Hck & Hcb & Hcs & Hrun).
  rewrite (run_bind _ _ _ _ _ Hrun). set (d1 := set_state_value ck _ d0).
  destruct (publish_fungible_store_run (E := E) a (effective_balance initial) d1)
    as (gb & group & store & sb & Hgb & Hg & Hc & Hsb & Hst & Hrun').
  rewrite (run_bind _ _ _ _ _ Hrun'). eexists. split; [reflexivity|].
  assert (Hne : ck <> group_key a) by (intros ->; by eapply key_resource_not_group).
  split_and!; [split| |done].
  - exists group, store, gb, sb. split_and!; try done.
    change (get_state_value (group_key a) (set_state_value (group_key a) (new_legacy gb) d1) = Some (new_legacy gb)).
    by rewrite get_set, decide_True.
  - exists ck, cs, cb. split_and!; try done.
    change (get_state_value ck (set_state_value (group_key a) (new_legacy gb) d1) = Some (new_legacy cb)).
    rewrite get_set, decide_False by done. unfold d1. by rewrite get_set, decide_True.
  - intros key Hkg Hkr.
    change (get_state_value key (set_state_value (group_key a) (new_legacy gb) d1) = get_state_value key d).
    rewrite get_set, decide_False by done. unfold d1, d0.
    rewrite !get_set, !decide_False; [done|..]; intros ->; by eapply Hkr.
Qed.

(** Funds stay when another account is published. *)
Lemma funded_elsewhere a b balance d d' :
  a <> b -> primary_apt_store a <> primary_apt_store b ->
  same_elsewhere b d d' -> funded a balance d -> funded a balance d'.
Proof.
  intros Hab Hp Hsame [(group & store & gb & sb & Hg & Hrest) (key & cs & cb & Hk & Hcoin & Hrest')]. split.
  - exists group, store, gb, sb. split; [|done]. rewrite <-Hg. apply Hsame.
    + intros [? _]%key_group_inj. done.
    + intros t. apply key_resource_not_group.
  - exists key, cs, cb. split; [done|]. split; [|done]. rewrite <-Hcoin. apply Hsame.
    + intros ->. by eapply key_resource_not_group.
    + intros t Ht. rewrite <-Hk in Ht. by apply key_resource_inj in Ht as [-> _].
Qed.

(** The accounts of the seeds, and of their primary stores, differ. *)
Definition distinct_accounts (seeds : list Z) : Prop :=
  forall seed seed' acct acct', seed ∈ seeds -> seed' ∈ seeds -> seed <> seed' ->
    generate seed = Ok acct -> generate seed' = Ok acct' ->
    la_address acct <> la_address acct' /\
    primary_apt_store (la_address acct) <> primary_apt_store (la_address acct').

Lemma bootstrap_funds {E} seeds d :
  NoDup seeds -> distinct_accounts seeds ->
  exists d', bootstrap_accounts (E := E) seeds d = (d', Ok tt) /\
    (forall a balance, funded a balance d ->
       (forall seed acct, seed ∈ seeds -> generate seed = Ok acct ->
          a <> la_address acct /\ primary_apt_store a <> primary_apt_store (la_address acct)) ->
       funded a balance d') /\
    forall seed acct, seed ∈ seeds -> generate seed = Ok acct ->
      funded (la_address acct) (effective_balance INITIAL_ACCOUNT_BALANCE) d'.
Proof.
  revert d. induction seeds as [|seed seeds IH]; intros d Hnd Hdist.
  { exists d. split_and!; [done|done|]. intros seed acct []%not_elem_of_nil. }
  apply NoDup_cons in Hnd as [Hseed Hnd].
  assert (Hdist' : distinct_accounts seeds)
    by (intros x y acct acct' Hx Hy; apply Hdist; by right).
  assert (Hstep : exists d1,
    (match generate seed with
     | Ok account => publish_account_resources (E := E) account INITIAL_ACCOUNT_BALANCE
     | _ => mret tt end) d = (d1, Ok tt) /\
    forall acct, generate seed = Ok acct ->
      funded (la_address acct) (effective_balance INITIAL_ACCOUNT_BALANCE) d1 /\
      same_elsewhere (la_address acct) d d1).
  { destruct (generate seed) as [acct| | |]; try (by exists d).
    destruct (publish_funds (E := E) acct INITIAL_ACCOUNT_BALANCE d) as (d1 & Hrun & Hf & Hs & _).
    exists d1. split; [done|]. by intros acct' [= <-]. }
  destruct Hstep as (d1 & Hrun & Hd1). destruct (IH d1 Hnd Hdist') as (d' & Hrun' & Hkeep & Hall).
  exists d'. split_and!; [cbn [bootstrap_accounts]; by rewrite (run_bind _ _ _ _ _ Hrun)| |].
  - intros a balance Ha Hother. apply Hkeep; [|intros x acct Hx; apply Hother; by right].
    destruct (generate seed) as [acct| | |] eqn:Hg; try (by injection Hrun as <-).
    destruct (Hother seed acct) as [? ?]; [left|done|].
    apply (funded_elsewhere a (la_address acct) _ d); try done. by apply Hd1.
  - intros x acct [->|Hx]%elem_of_cons Hg; [|by eapply Hall].
    apply Hkeep; [by apply Hd1|]. intros y acct' Hy Hg'.
    apply (Hdist seed y); try done; [left|by right|]. by intros ->.
Qed.

Context {Total : AptosTotal}.

(** The state that the genesis writes leave holds no APT supply group, or one
    that can be decoded. *)
Definition supply_group_decodes : Prop :=
  match get_state_value (key_resource_group ADDRESS_TEN ObjectGroup_tag)
          (foldl (fun d x => apply_write_op x d) (mkTestDbReader ∅ 0) genesis_writes) with
  | Some v => is_Some (from_bytes (value_bytes v) : option (gmap StructTag (list Z)))
  | None => True
  end.

Lemma new_with_genesis_runs : supply_group_decodes -> exists d, new_with_genesis = Ok d.
Proof.
  intros Hsup. unfold new_with_genesis, apply_genesis. runs. unfold ensure_apt_supply.
  destruct (identifier_total "fungible_asset") as [fa ->]; [set_solver|].
  destruct (identifier_total "Supply") as [su ->]; [set_solver|].
  destruct (to_bytes_total (mkSupply 1000000000000000000 None)) as [sb ->].
  destruct (to_bytes_total (ConcurrentSupply_new 1000000000000000000 u128_max)) as [cb ->].
  cbn [or_error]. runs. unfold supply_group_decodes in Hsup.
  match goal with |- context [get_state_value ?k (bump_version ?x)] =>
    change (get_state_value k (bump_version x)) with (get_state_value k x) end.
  destruct (get_state_value _ _) as [v|].
  - destruct Hsup as [g ->]. runs.
    match goal with |- context [to_bytes ?m] => destruct (to_bytes_total m) as [bytes ->] end.
    by eexists.
  - runs. match goal with |- context [to_bytes ?m] => destruct (to_bytes_total m) as [bytes ->] end.
    by eexists.
Qed.

(** The genesis state, and the accounts bootstrapped on it. *)
Lemma genesis_accounts_funded {E} :
  supply_group_decodes -> distinct_accounts PRE_FUNDED_ACCOUNT_SEEDS ->
  exists d d', new_with_genesis = Ok d /\
    bootstrap_accounts (E := E) PRE_FUNDED_ACCOUNT_SEEDS d = (d', Ok tt) /\
    forall seed acct, seed ∈ PRE_FUNDED_ACCOUNT_SEEDS -> generate seed = Ok acct ->
      account_balance (la_address acct) d' = Ok 1001000000000.
Proof.
  intros Hsup Hdist. destruct (new_with_genesis_runs Hsup) as [d Hd].
  destruct (bootstrap_funds (E := E) PRE_FUNDED_ACCOUNT_SEEDS d) as (d' & Hrun & _ & Hall);
    [apply (bool_decide_unpack _); vm_compute; exact I|done|].
  exists d, d'. split_and!; [done..|]. intros seed acct Hin Hg.
  apply funded_balance; [unfold u64; lia|]. by eapply Hall.
Qed.
End aptos_db.
