(* ===== verification/Scenario.v ===== *)
(** * Scenario: the market demo that drives the executor
    (src/aptos_executor/src/scenarios/three_trader.rs)

    The file system and the environment are parameters.
    [wait_for_execution_logs], which polls a log file, is I/O. *)
From stdpp Require Import pretty.
From S2P Require Import Prelude DagMessages Executor Accounts.

Class FileSystem := {
  Path : Type;
  Path_from : string -> Path;
  path_join : Path -> string -> Path;
  path_display : Path -> string;
  path_extension : Path -> option string;
  path_le : Path -> Path -> Prop;
  #[global] path_le_dec :: RelDecision path_le;
  exists_path : Path -> bool;
  fs_read : Path -> option (list Z);
  (** [std::fs::read_dir], with the entries that can be read *)
  read_dir : Path -> option (list (option Path));
}.

Section scenario.
Context `{Txns : Transactions} `{Aptos : !AptosTypes} `{Files : FileSystem}.
Open Scope string_scope.

Definition DEFAULT_ALLOW_SELF_MATCHING : bool := false.
Definition DEFAULT_ALLOW_EVENTS_EMISSION : bool := true.
Definition DEFAULT_PRE_CANCEL_WINDOW : Z := 60.
Definition TRADER_A_SEED : Z := 1.
Definition TRADER_B_SEED : Z := 2.
Definition TRADER_C_SEED : Z := 3.
Definition TRADER_D_SEED : Z := 4.
Definition TRADER_A_SELL_CLIENT_ID : Z := 1.
Definition TRADER_B_SELL_CLIENT_ID : Z := 2.
Definition TRADER_C_BUY_CLIENT_ID : Z := 3.
Definition TRADER_A_BUY_CLIENT_ID : Z := 4.
Definition TRADER_A_INITIAL_PRICE : Z := 1000.
Definition TRADER_A_INITIAL_SIZE : Z := 10.
Definition TRADER_B_INITIAL_PRICE : Z := 1500.
Definition TRADER_B_INITIAL_SIZE : Z := 20.
Definition TRADER_B_SIZE_DELTA : Z := 10.
Definition TRADER_C_BUY_PRICE : Z := 1500.
Definition TRADER_C_BUY_SIZE : Z := 8.
Definition TRADER_B_NEW_PRICE : Z := 1800.
Definition TRADER_B_NEW_SIZE : Z := 2.
Definition TRADER_A_FINAL_PRICE : Z := 1800.
Definition TRADER_A_FINAL_SIZE : Z := 10.
Definition TRADER_FUND_BASE : Z := 1000000000.
Definition TRADER_FUND_QUOTE : Z := 1000000000.
Definition EXPECTED_SCENARIO_TXNS : nat := 15.
Definition DEFAULT_PACKAGE_RELATIVE : string :=
  "Desktop/orderbook_poc/move/simple_market/build/simple_market".

Record ScenarioTxn := mkScenarioTxn {
  sc_label : string;
  sc_txn : Transaction;
}.

(** [env] is [std::env::var]. *)
Definition resolve_package_dir (env : string -> option string) : Outcome AnyhowError Path :=
  match env "HYDRANGEA_MARKET_PACKAGE_DIR" with
  | Some path =>
      let candidate := Path_from path in
      if exists_path candidate then Ok candidate
      else Err (AE_Message ("package directory '" +:+ path_display candidate +:+
                  "' from HYDRANGEA_MARKET_PACKAGE_DIR does not exist"))
  | None =>
      let workspace_candidate := Path_from "move/simple_market/build/simple_market" in
      if exists_path workspace_candidate then Ok workspace_candidate
      else
        let under root relative :=
          match root with
          | Some root =>
              let candidate := path_join (Path_from root) relative in
              if exists_path candidate then Some candidate else None
          | None => None
          end in
        match under (env "ORDERBOOK_POC_ROOT") "move/simple_market/build/simple_market" with
        | Some candidate => Ok candidate
        | None =>
            match under (env "HOME") DEFAULT_PACKAGE_RELATIVE with
            | Some candidate => Ok candidate
            | None => Err (AE_Message "unable to locate compiled simple_market package; set HYDRANGEA_MARKET_PACKAGE_DIR")
            end
        end
  end.

(** [o.with_context(msg)?] *)
Definition with_context {A} (o : option A) (msg : string) : Outcome AnyhowError A :=
  match o with Some a => Ok a | None => Err (AE_Context msg AE_Library) end.

Fixpoint collect_entries (msg : string) (entries : list (option Path)) : Outcome AnyhowError (list Path) :=
  match entries with
  | [] => Ok []
  | entry :: entries' =>
      path ← with_context entry msg;
      paths ← collect_entries msg entries';
      Ok (path :: paths)
  end.

Fixpoint read_modules (module_paths : list Path) : Outcome AnyhowError (list (list Z)) :=
  match module_paths with
  | [] => Ok []
  | path :: module_paths' =>
      if decide (path_extension path = Some "mv") then
        bytes ← with_context (fs_read path) ("failed to read compiled module at " +:+ path_display path);
        modules ← read_modules module_paths';
        Ok (bytes :: modules)
      else read_modules module_paths'
  end.

Definition load_package_artifacts (package_dir : Path) : Outcome AnyhowError (list Z * list (list Z)) :=
  let metadata_path := path_join package_dir "package-metadata.bcs" in
  metadata ← with_context (fs_read metadata_path)
    ("failed to read package metadata at " +:+ path_display metadata_path);
  let modules_dir := path_join package_dir "bytecode_modules" in
  entries ← with_context (read_dir modules_dir)
    ("failed to list module directory at " +:+ path_display modules_dir);
  module_paths ← collect_entries ("failed to read entry inside " +:+ path_display modules_dir) entries;
  modules ← read_modules (merge_sort path_le module_paths);
  match modules with
  | [] => Err (AE_Message ("no compiled modules found in " +:+ path_display modules_dir))
  | _ => Ok (metadata, modules)
  end.

(** ** The transactions *)
Inductive Trader := TraderA | TraderB | TraderC.
#[global] Instance Trader_eq_dec : EqDecision Trader.
Proof. solve_decision. Defined.

(** The three accounts that sign; the market signer does not change. *)
Record Traders := mkTraders {
  trader_a : LocalAccount;
  trader_b : LocalAccount;
  trader_c : LocalAccount;
}.
Definition get_trader (w : Trader) (s : Traders) : LocalAccount :=
  match w with TraderA => trader_a s | TraderB => trader_b s | TraderC => trader_c s end.
Definition put_trader (w : Trader) (a : LocalAccount) (s : Traders) : Traders :=
  match w with
  | TraderA => mkTraders a (trader_b s) (trader_c s)
  | TraderB => mkTraders (trader_a s) a (trader_c s)
  | TraderC => mkTraders (trader_a s) (trader_b s) a
  end.

(** One [transactions.push(ScenarioTxn { label, txn: f(&mut trader, ...).context(msg)? })]. *)
Record ScenarioStep := mkScenarioStep {
  ss_label : string;
  ss_by : Trader;
  ss_build : option Z -> Exec LocalAccount AnyhowError Transaction;
  ss_context : string;
}.

Definition scenario_steps (s : Traders) (market_signer : LocalAccount)
    (metadata : list Z) (modules : list (list Z)) (chain_id : ChainId) : list ScenarioStep :=
  let module_owner := la_address (trader_a s) in
  let register now := register_trader now chain_id module_owner in
  let mint w now := mint_trader_funds now chain_id (la_address (get_trader w s))
                      TRADER_FUND_BASE TRADER_FUND_QUOTE in
  let place price size is_bid id now :=
    place_limit_order_with_client_id now chain_id module_owner market_signer price size is_bid id in
  let at_ price size := pretty price +:+ " (size " +:+ pretty size +:+ ")" in
  [ mkScenarioStep "Publish simple_market package" TraderA
      (fun now => publish_package now chain_id metadata modules) "publish package";
    mkScenarioStep "Create market (no self-match, emit events)" TraderA
      (fun now => create_market now chain_id market_signer DEFAULT_ALLOW_SELF_MATCHING
                    DEFAULT_ALLOW_EVENTS_EMISSION DEFAULT_PRE_CANCEL_WINDOW) "create market";
    mkScenarioStep "Register Trader A" TraderA register "register trader A";
    mkScenarioStep "Register Trader B" TraderB register "register trader B";
    mkScenarioStep "Register Trader C" TraderC register "register trader C";
    mkScenarioStep "Mint Trader A demo balances" TraderA (mint TraderA) "mint trader A funds";
    mkScenarioStep "Mint Trader B demo balances" TraderA (mint TraderB) "mint trader B funds";
    mkScenarioStep "Mint Trader C demo balances" TraderA (mint TraderC) "mint trader C funds";
    mkScenarioStep ("Trader A places ask @ " +:+ at_ TRADER_A_INITIAL_PRICE TRADER_A_INITIAL_SIZE) TraderA
      (place TRADER_A_INITIAL_PRICE TRADER_A_INITIAL_SIZE false TRADER_A_SELL_CLIENT_ID)
      "trader A initial ask";
    mkScenarioStep ("Trader B places ask @ " +:+ at_ TRADER_B_INITIAL_PRICE TRADER_B_INITIAL_SIZE) TraderB
      (place TRADER_B_INITIAL_PRICE TRADER_B_INITIAL_SIZE false TRADER_B_SELL_CLIENT_ID)
      "trader B initial ask";
    mkScenarioStep "Trader A cancels ask" TraderA
      (fun now => cancel_order_by_client_id now chain_id module_owner market_signer
                    TRADER_A_SELL_CLIENT_ID) "trader A cancel";
    mkScenarioStep ("Trader B decreases ask by " +:+ pretty TRADER_B_SIZE_DELTA) TraderB
      (fun now => decrease_order_size_by_client_id now chain_id module_owner market_signer
                    TRADER_B_SELL_CLIENT_ID TRADER_B_SIZE_DELTA) "trader B decrease";
    mkScenarioStep ("Trader C places bid @ " +:+ at_ TRADER_C_BUY_PRICE TRADER_C_BUY_SIZE) TraderC
      (place TRADER_C_BUY_PRICE TRADER_C_BUY_SIZE true TRADER_C_BUY_CLIENT_ID) "trader C buy";
    mkScenarioStep ("Trader B reprices ask @ " +:+ at_ TRADER_B_NEW_PRICE TRADER_B_NEW_SIZE) TraderB
      (fun now => replace_order_by_client_id now chain_id module_owner market_signer
                    TRADER_B_SELL_CLIENT_ID TRADER_B_NEW_PRICE TRADER_B_NEW_SIZE false)
      "trader B reprice";
    mkScenarioStep ("Trader A places bid @ " +:+ at_ TRADER_A_FINAL_PRICE TRADER_A_FINAL_SIZE) TraderA
      (place TRADER_A_FINAL_PRICE TRADER_A_FINAL_SIZE true TRADER_A_BUY_CLIENT_ID)
      "trader A final buy" ].

(** [clock i] is what the [i]-th builder reads. *)
Fixpoint run_scenario (clock : nat -> option Z) (steps : list ScenarioStep)
    : Exec Traders AnyhowError (list ScenarioTxn) :=
  match steps with
  | [] => mret []
  | x :: steps' =>
      txn ← context (ss_context x)
              (zoom (get_trader (ss_by x)) (put_trader (ss_by x)) (ss_build x (clock 0%nat)));
      txns ← run_scenario (fun i => clock (S i)) steps';
      mret (mkScenarioTxn (ss_label x) txn :: txns)
  end.

Definition build_three_trader_transactions (clock : nat -> option Z) (package_dir : Path)
    (chain_id : ChainId) : Outcome AnyhowError (list ScenarioTxn) :=
  a ← generate TRADER_A_SEED;
  market_signer ← generate TRADER_B_SEED;
  b ← generate TRADER_C_SEED;
  c ← generate TRADER_D_SEED;
  artifacts ← load_package_artifacts package_dir;
  let s := mkTraders a b c in
  (run_scenario clock (scenario_steps s market_signer artifacts.1 artifacts.2 chain_id) s).2.

(** ** Every sender's transactions are numbered from zero *)
Context {Laws : AptosLaws} {Total : AptosTotal}.

(** The sequence numbers of the transactions that [address] sends. *)
Definition numbers (address : AccountAddress) (txns : list ScenarioTxn) : list Z :=
  map raw_sequence_number
    (filter (fun r => raw_sender r = address) (map (fun x => into_raw_transaction (sc_txn x)) txns)).

Definition step_ok (chain_id : ChainId) (x : ScenarioStep) : Prop :=
  forall now, makes_next chain_id (ss_build x now).

(** The addresses of the traders, which no builder changes. *)
Definition addresses (s : Traders) : list AccountAddress :=
  map (fun w => la_address (get_trader w s)) [TraderA; TraderB; TraderC].

Lemma get_put w w' a s :
  get_trader w' (put_trader w a s) = if decide (w = w') then a else get_trader w' s.
Proof. by destruct w, w'. Qed.

Lemma addresses_inj s w w' :
  NoDup (addresses s) -> la_address (get_trader w s) = la_address (get_trader w' s) -> w = w'.
Proof.
  intros Hnd Heq. unfold addresses in Hnd. simpl in Hnd.
  rewrite !NoDup_cons, !not_elem_of_cons in Hnd. destruct Hnd as ((? & ? & _) & (? & _) & _).
  destruct w, w'; simpl in Heq; congruence.
Qed.

Lemma addresses_put w s :
  addresses (put_trader w (next_sequence_number (get_trader w s)) s) = addresses s.
Proof. by destruct w. Qed.

(** One step makes the next transaction of the trader that signs. *)
Lemma scenario_step_ok chain_id clock x steps s :
  step_ok chain_id x ->
  exists tx,
    let s1 := put_trader (ss_by x) (next_sequence_number (get_trader (ss_by x) s)) s in
    run_scenario clock (x :: steps) s =
      (txns ← run_scenario (fun i => clock (S i)) steps; mret (mkScenarioTxn (ss_label x) tx :: txns)) s1 /\
    raw_sender (into_raw_transaction tx) = la_address (get_trader (ss_by x) s) /\
    raw_sequence_number (into_raw_transaction tx) = la_sequence_number (get_trader (ss_by x) s) /\
    raw_chain_id (into_raw_transaction tx) = chain_id.
Proof.
  intros Hx. destruct (Hx (clock 0%nat)) as [Hs Hok]. specialize (Hs (get_trader (ss_by x) s)).
  destruct (Hok (get_trader (ss_by x) s)) as (a' & tx & Hrun). rewrite Hrun in Hs.
  destruct Hs as (-> & Hsender & Hseq & Hchain). exists tx. split_and!; [|done..].
  cbn [run_scenario]. unfold mbind at 1, exec_mbind, exec_bind, context, zoom. by rewrite Hrun.
Qed.

(** A run of steps succeeds and numbers each trader's transactions from the
    counter on. *)
Lemma run_scenario_numbers chain_id clock steps s :
  Forall (step_ok chain_id) steps -> NoDup (addresses s) ->
  (forall w, 0 <= la_sequence_number (get_trader w s) /\
     la_sequence_number (get_trader w s) + Z.of_nat (length steps) < 2 ^ 64) ->
  exists s' txns, run_scenario clock steps s = (s', Ok txns) /\
    map sc_label txns = map ss_label steps /\
    Forall (fun x => raw_chain_id (into_raw_transaction (sc_txn x)) = chain_id /\
                     raw_sender (into_raw_transaction (sc_txn x)) ∈ addresses s) txns /\
    forall w, numbers (la_address (get_trader w s)) txns =
      seqZ (la_sequence_number (get_trader w s))
        (Z.of_nat (length (filter (fun x => ss_by x = w) steps))).
Proof.
  intros Hok. revert clock s. induction Hok as [|x steps Hx _ IH]; intros clock s Hnd Hbound.
  { exists s, []. split_and!; [done|done|constructor|]. intros w. reflexivity. }
  destruct (scenario_step_ok chain_id clock x steps s Hx) as (tx & Hrun & Hsender & Hseq & Hchain).
  set (s1 := put_trader _ _ _) in *.
  assert (Hs1 : forall w, la_address (get_trader w s1) = la_address (get_trader w s) /\
            la_sequence_number (get_trader w s1) = la_sequence_number (get_trader w s) +
              (if decide (ss_by x = w) then 1 else 0)).
  { intros w. unfold s1. rewrite get_put. case_decide as Hw; [subst w|split; [done|lia]].
    split; [done|]. simpl. unfold u64_add, u64_wrap. specialize (Hbound (ss_by x)).
    rewrite Z.mod_small; [done|]. simpl length in Hbound. lia. }
  destruct (IH (fun i => clock (S i)) s1) as (s' & txns & Hrun' & Hlabels & Hall & Hnum).
  { unfold s1. by rewrite addresses_put. }
  { intros w. destruct (Hs1 w) as [_ ->]. specialize (Hbound w). simpl length in Hbound. case_decide; lia. }
  exists s', (mkScenarioTxn (ss_label x) tx :: txns). split_and!.
  - rewrite Hrun. by rewrite (run_bind _ _ _ _ _ Hrun').
  - simpl. by rewrite Hlabels.
  - unfold s1 in Hall. rewrite addresses_put in Hall. constructor; [|done]. simpl. split; [done|].
    rewrite Hsender. apply list_elem_of_fmap. exists (ss_by x). split; [done|].
    destruct (ss_by x); set_solver.
  - intros w. specialize (Hnum w). destruct (Hs1 w) as [Ha Hq]. rewrite Ha, Hq in Hnum.
    unfold numbers in *. simpl map. rewrite !filter_cons, Hsender.
    destruct (decide (ss_by x = w)) as [Hw|Hw].
    + subst w. rewrite decide_True by done. simpl. rewrite Hnum, Hseq. rewrite Nat2Z.inj_succ.
      rewrite (seqZ_cons _ (Z.succ _)) by lia. f_equal. f_equal; lia.
    + rewrite decide_False by (intros Heq%addresses_inj; done).
      by rewrite Hnum, Z.add_0_r.
Qed.

Lemma scenario_steps_ok s market_signer metadata modules chain_id :
  Forall (step_ok chain_id) (scenario_steps s market_signer metadata modules chain_id).
Proof.
  unfold scenario_steps. repeat (apply Forall_cons; split); [..|done];
    intros now; cbn [ss_build]; auto with accounts.
Qed.

Lemma generate_counter seed a : generate seed = Ok a -> la_sequence_number a = 0.
Proof. unfold generate. case_match; [|done]. by intros [= <-]. Qed.

(** The market scenario builds its fifteen transactions, each for the given
    chain and signed by one of the three traders, and numbers every trader's
    own transactions 0, 1, 2, ... in the order in which they will be executed:
    nine of the first, four of the second, two of the third. *)
Lemma scenario_numbered clock package_dir chain_id a market b c artifacts :
  generate TRADER_A_SEED = Ok a -> generate TRADER_B_SEED = Ok market ->
  generate TRADER_C_SEED = Ok b -> generate TRADER_D_SEED = Ok c ->
  NoDup [la_address a; la_address b; la_address c] ->
  load_package_artifacts package_dir = Ok artifacts ->
  exists txns, build_three_trader_transactions clock package_dir chain_id = Ok txns /\
    length txns = EXPECTED_SCENARIO_TXNS /\
    Forall (fun x => raw_chain_id (into_raw_transaction (sc_txn x)) = chain_id /\
      raw_sender (into_raw_transaction (sc_txn x)) ∈ [la_address a; la_address b; la_address c]) txns /\
    numbers (la_address a) txns = seqZ 0 9 /\
    numbers (la_address b) txns = seqZ 0 4 /\
    numbers (la_address c) txns = seqZ 0 2.
Proof.
  intros Ha Hm Hb Hc Hnd Hart. set (s := mkTraders a b c).
  destruct (run_scenario_numbers chain_id clock
    (scenario_steps s market artifacts.1 artifacts.2 chain_id) s) as (s' & txns & Hrun & Hlabels & Hall & Hnum).
  - apply scenario_steps_ok.
  - done.
  - intros w. assert (Hw : la_sequence_number (get_trader w s) = 0)
      by (destruct w; by eapply generate_counter). rewrite Hw. simpl. lia.
  - exists txns. split_and!; [| |done| | |].
    + unfold build_three_trader_transactions. rewrite Ha, Hm, Hb, Hc, Hart.
      cbn -[run_scenario scenario_steps]. fold s. by rewrite Hrun.
    + by rewrite <-(length_map sc_label), Hlabels, length_map.
    + specialize (Hnum TraderA). simpl in Hnum. by rewrite Hnum, (generate_counter _ _ Ha).
    + specialize (Hnum TraderB). simpl in Hnum. by rewrite Hnum, (generate_counter _ _ Hb).
    + specialize (Hnum TraderC). simpl in Hnum. by rewrite Hnum, (generate_counter _ _ Hc).
Qed.
End scenario.
