(* ===== verification/ScenarioLogs.v ===== *)
(** * ScenarioLogs: waiting for the committer's log
    ([wait_for_execution_logs] of src/aptos_executor/src/scenarios/three_trader.rs)

    The log file is polled: a poll sees the time that has passed and what the file
    holds then.  Lines are counted from where the last poll stopped. *)
From Stdlib Require Import Ascii.
From S2P Require Import Prelude DagMessages Executor Accounts.

Abbreviation text := (list ascii).

(** What a poll finds: the file can not be opened, reading it fails, or its
    contents. *)
Inductive Poll :=
| Poll_Missing
| Poll_Fails (context : string)
| Poll_Contents (contents : text).

(** [str::contains] and [to_ascii_uppercase]. *)
Fixpoint starts_with (pattern t : text) : bool :=
  match pattern, t with
  | [], _ => true
  | a :: pattern', b :: t' => Ascii.eqb a b && starts_with pattern' t'
  | _ :: _, [] => false
  end.
Fixpoint contains (pattern t : text) : bool :=
  starts_with pattern t || match t with [] => false | _ :: t' => contains pattern t' end.
Definition to_ascii_uppercase (t : text) : text :=
  map (fun c => let n := N_of_ascii c in
                if (97 <=? n)%N && (n <=? 122)%N then ascii_of_N (n - 32) else c) t.

Definition executed_line (line : text) : bool :=
  contains (String.list_ascii_of_string "Executed transaction") line &&
  contains (String.list_ascii_of_string "STATUS=EXECUTED") (to_ascii_uppercase line).

(** The lines that [read_line] returns one after the other: each up to and with its
    line feed, the last one perhaps without. *)
Definition newline : ascii := "010"%char.
Fixpoint lines_from (line t : text) : list text :=
  match t with
  | [] => match line with [] => [] | _ => [line] end
  | c :: t' => if Ascii.eqb c newline then (line ++ [c]) :: lines_from [] t' else lines_from (line ++ [c]) t'
  end.
Definition lines (t : text) : list text := lines_from [] t.
Definition count_executed (t : text) : nat := length (filter (fun l => executed_line l = true) (lines t)).

(** The loop: [processed] and [offset] are its variables; each poll comes with
    the time elapsed.  [None] is that the polls given are over. *)
Fixpoint wait_loop (polls : list (Z * Poll)) (expected : nat) (timeout : Z) (processed offset : nat)
    : option (Outcome AnyhowError unit) :=
  match polls with
  | [] => None
  | (elapsed, poll) :: polls' =>
      if elapsed <=? timeout then
        match poll with
        | Poll_Fails msg => Some (Err (AE_Context msg AE_Library))
        | Poll_Missing =>
            if (expected <=? processed)%nat then Some (Ok tt)
            else wait_loop polls' expected timeout processed offset
        | Poll_Contents contents =>
            let processed := (processed + count_executed (drop offset contents))%nat in
            if (expected <=? processed)%nat then Some (Ok tt)
            else wait_loop polls' expected timeout processed (offset `max` length contents)
        end
      else Some (Err (AE_Message "timed out waiting for executed transactions"))
  end.
Definition wait_for_execution_logs (polls : list (Z * Poll)) (expected : nat) (timeout : Z)
    : option (Outcome AnyhowError unit) := wait_loop polls expected timeout 0 0.

(** ** Counting in pieces *)

(** A text of whole lines. *)
Definition whole_lines (t : text) : Prop := t = [] \/ last t = Some newline.

Lemma lines_from_app line t t' :
  last (line ++ t) = Some newline \/ line ++ t = [] -> (line = [] \/ t <> []) ->
  lines_from line (t ++ t') = lines_from line t ++ lines t'.
Proof.
  revert line. induction t as [|c t IH]; intros line Ht Hl.
  - destruct Hl as [->|]; [done|done].
  - cbn [app lines_from]. destruct (Ascii.eqb_spec c newline) as [->|Hc].
    + simpl. f_equal. destruct t as [|c' t]; [done|]. apply IH; [|by left].
      left. destruct Ht as [Ht|Ht]; [|by destruct line]. revert Ht. rewrite !last_app. simpl.
      destruct (last (c' :: t)) eqn:Hlast; [done|]. by apply last_None in Hlast.
    + assert (Ht' : last ((line ++ [c]) ++ t) = Some newline).
      { rewrite <-app_assoc. destruct Ht as [Ht|Ht]; [done|by destruct line]. }
      apply IH; [by left|]. right. intros ->. rewrite app_nil_r, last_snoc in Ht'. congruence.
Qed.
Lemma count_executed_app t t' :
  whole_lines t -> count_executed (t ++ t') = (count_executed t + count_executed t')%nat.
Proof.
  intros Ht. unfold count_executed, lines. rewrite lines_from_app; [|destruct Ht; [by right|by left]|by left].
  by rewrite filter_app, length_app.
Qed.

(** The log grows by whole lines between the polls. *)
Fixpoint grows (seen : text) (polls : list (Z * Poll)) : Prop :=
  match polls with
  | [] => True
  | (_, Poll_Contents contents) :: polls' =>
      (exists more, contents = seen ++ more) /\ whole_lines contents /\ grows contents polls'
  | (_, _) :: polls' => grows seen polls'
  end.

(** A log that grows by whole lines is counted without omission or repetition:
    while the time is not over and the file can be read, the wait ends at the first
    poll that sees the expected number of executed transactions in the whole file,
    and no earlier one did.  A line that is read in two pieces is not counted. *)
Lemma wait_counts_log polls expected timeout seen :
  whole_lines seen -> grows seen polls -> (count_executed seen < expected)%nat ->
  Forall (fun x => x.1 <= timeout /\ forall msg, x.2 <> Poll_Fails msg) polls ->
  let enough := fun x : Z * Poll =>
    match x.2 with Poll_Contents contents => (expected <=? count_executed contents)%nat | _ => false end in
  wait_loop polls expected timeout (count_executed seen) (length seen) =
    if existsb enough polls then Some (Ok tt) else None.
Proof.
  revert seen. induction polls as [|[elapsed poll] polls IH]; intros seen Hw Hg Hlt Hall enough; [done|].
  apply Forall_cons in Hall as [[Ht Hf] Hall]. simpl in Ht, Hf. cbn [wait_loop existsb].
  rewrite (proj2 (Z.leb_le _ _)) by done. destruct poll as [|msg|contents]; [|by destruct (Hf msg)|].
  - rewrite (proj2 (Nat.leb_gt _ _)) by done. by apply IH.
  - destruct Hg as [[more ->] [Hw' Hg]]. unfold enough at 1. cbn [snd].
    rewrite drop_app_length, <-count_executed_app by done.
    destruct (Nat.leb_spec expected (count_executed (seen ++ more))) as [|Hgt]; [done|].
    rewrite Nat.max_r by (rewrite length_app; lia). by apply IH.
Qed.
