(* ===== verification/Core.v ===== *)
(** * The consensus core (src/hydrangea/src/core.rs)

    [Core] holds the fields of the Rust struct that change, [CoreConfig] those
    fixed at spawn.  A method is a computation on [Core]; what it sends (to the
    network, to the proposer, the synchronizer, the committer, the application
    and the mempool) is appended to [co_trace], newest first, with the time of
    the clock.  [handle_vote] and [handle_timeout] are recursive through the
    certificates they assemble: the methods on their path take the recursive
    call as an argument ([..._with]), and the knots are tied with fuel. *)
From S2P Require Import Prelude Crypto Config BitVec DagMessages Messages Leader Store Proposer Synchronizer Mempool Aggregator.

Section core.
Context `{Prim : Primitives} `{Order : HashIter} `{Rocks : RocksDB} `{Codec : !BlockCodec}.

(** What leaves the core: messages on its channels and to the network, and the
    log lines that mark the creation of a signed vote or timeout
    ([debug!("Created ..")]) and the commit of a block ([info!("Committed ..")]). *)
Inductive Effect :=
| Ef_LogVote (v : Vote)
| Ef_LogTimeout (t : Timeout)
| Ef_LogCommitted (b : Block)
| Ef_Broadcast (addresses : list SocketAddr) (m : ConsensusMessage)
| Ef_Send (address : SocketAddr) (m : ConsensusMessage)
| Ef_SyncPeer (recipient : PublicKey) (address : SocketAddr) (m : ConsensusMessage)
| Ef_Proposer (m : ProposerMessage)
| Ef_Synchronizer (r : SyncRequest)
| Ef_TxCommit (payload : list Certificate)
| Ef_TxOutput (b : Block)
| Ef_Mempool (certificate : Certificate).

Record CoreConfig := mkCoreConfig {
  cc_name : PublicKey;
  cc_committee : Committee;
  cc_consensus_only : bool;
  cc_leader_elector : LeaderElector;
  cc_timeout_delay : Z;
  cc_secret : SecretKey;
  cc_bls_secret : BlsSecret;
}.

Record Core := mkCore {
  co_aggregator : Aggregator;
  co_committable_blocks : gmap Digest Round;
  co_last_commit : Block;
  co_last_vote : Vote;
  co_last_timeout : Round;
  co_locked : QC;
  co_high_wqc : WQC;
  co_pending_proposals : gmap Round Digest;
  co_qc_syncs : gmap PublicKey Z;
  co_round : Round;
  co_store : Store;
  co_sync_requests : gset Digest;
  co_timeout_syncs : gset Round;
  co_timer : Z;
  co_uncommitted_blocks : gmap Digest Block;
  co_uncommitted_qcs : gmap Round QC;
  co_now : Z;
  co_trace : list (Z * Effect);
}.

Definition set_aggregator (x : Aggregator) (s : Core) : Core :=
  mkCore x (co_committable_blocks s) (co_last_commit s) (co_last_vote s) (co_last_timeout s)
    (co_locked s) (co_high_wqc s) (co_pending_proposals s) (co_qc_syncs s) (co_round s)
    (co_store s) (co_sync_requests s) (co_timeout_syncs s) (co_timer s) (co_uncommitted_blocks
    s) (co_uncommitted_qcs s) (co_now s) (co_trace s).
Definition set_committable_blocks (x : gmap Digest Round) (s : Core) : Core :=
  mkCore (co_aggregator s) x (co_last_commit s) (co_last_vote s) (co_last_timeout s) (co_locked
    s) (co_high_wqc s) (co_pending_proposals s) (co_qc_syncs s) (co_round s) (co_store s)
    (co_sync_requests s) (co_timeout_syncs s) (co_timer s) (co_uncommitted_blocks s)
    (co_uncommitted_qcs s) (co_now s) (co_trace s).
Definition set_last_commit (x : Block) (s : Core) : Core :=
  mkCore (co_aggregator s) (co_committable_blocks s) x (co_last_vote s) (co_last_timeout s)
    (co_locked s) (co_high_wqc s) (co_pending_proposals s) (co_qc_syncs s) (co_round s)
    (co_store s) (co_sync_requests s) (co_timeout_syncs s) (co_timer s) (co_uncommitted_blocks
    s) (co_uncommitted_qcs s) (co_now s) (co_trace s).
Definition set_last_vote (x : Vote) (s : Core) : Core :=
  mkCore (co_aggregator s) (co_committable_blocks s) (co_last_commit s) x (co_last_timeout s)
    (co_locked s) (co_high_wqc s) (co_pending_proposals s) (co_qc_syncs s) (co_round s)
    (co_store s) (co_sync_requests s) (co_timeout_syncs s) (co_timer s) (co_uncommitted_blocks
    s) (co_uncommitted_qcs s) (co_now s) (co_trace s).
Definition set_last_timeout (x : Round) (s : Core) : Core :=
  mkCore (co_aggregator s) (co_committable_blocks s) (co_last_commit s) (co_last_vote s) x
    (co_locked s) (co_high_wqc s) (co_pending_proposals s) (co_qc_syncs s) (co_round s)
    (co_store s) (co_sync_requests s) (co_timeout_syncs s) (co_timer s) (co_uncommitted_blocks
    s) (co_uncommitted_qcs s) (co_now s) (co_trace s).
Definition set_locked (x : QC) (s : Core) : Core :=
  mkCore (co_aggregator s) (co_committable_blocks s) (co_last_commit s) (co_last_vote s)
    (co_last_timeout s) x (co_high_wqc s) (co_pending_proposals s) (co_qc_syncs s) (co_round s)
    (co_store s) (co_sync_requests s) (co_timeout_syncs s) (co_timer s) (co_uncommitted_blocks
    s) (co_uncommitted_qcs s) (co_now s) (co_trace s).
Definition set_high_wqc (x : WQC) (s : Core) : Core :=
  mkCore (co_aggregator s) (co_committable_blocks s) (co_last_commit s) (co_last_vote s)
    (co_last_timeout s) (co_locked s) x (co_pending_proposals s) (co_qc_syncs s) (co_round s)
    (co_store s) (co_sync_requests s) (co_timeout_syncs s) (co_timer s) (co_uncommitted_blocks
    s) (co_uncommitted_qcs s) (co_now s) (co_trace s).
Definition set_pending_proposals (x : gmap Round Digest) (s : Core) : Core :=
  mkCore (co_aggregator s) (co_committable_blocks s) (co_last_commit s) (co_last_vote s)
    (co_last_timeout s) (co_locked s) (co_high_wqc s) x (co_qc_syncs s) (co_round s) (co_store
    s) (co_sync_requests s) (co_timeout_syncs s) (co_timer s) (co_uncommitted_blocks s)
    (co_uncommitted_qcs s) (co_now s) (co_trace s).
Definition set_qc_syncs (x : gmap PublicKey Z) (s : Core) : Core :=
  mkCore (co_aggregator s) (co_committable_blocks s) (co_last_commit s) (co_last_vote s)
    (co_last_timeout s) (co_locked s) (co_high_wqc s) (co_pending_proposals s) x (co_round s)
    (co_store s) (co_sync_requests s) (co_timeout_syncs s) (co_timer s) (co_uncommitted_blocks
    s) (co_uncommitted_qcs s) (co_now s) (co_trace s).
Definition set_round (x : Round) (s : Core) : Core :=
  mkCore (co_aggregator s) (co_committable_blocks s) (co_last_commit s) (co_last_vote s)
    (co_last_timeout s) (co_locked s) (co_high_wqc s) (co_pending_proposals s) (co_qc_syncs s) x
    (co_store s) (co_sync_requests s) (co_timeout_syncs s) (co_timer s) (co_uncommitted_blocks
    s) (co_uncommitted_qcs s) (co_now s) (co_trace s).
Definition set_store (x : Store) (s : Core) : Core :=
  mkCore (co_aggregator s) (co_committable_blocks s) (co_last_commit s) (co_last_vote s)
    (co_last_timeout s) (co_locked s) (co_high_wqc s) (co_pending_proposals s) (co_qc_syncs s)
    (co_round s) x (co_sync_requests s) (co_timeout_syncs s) (co_timer s) (co_uncommitted_blocks
    s) (co_uncommitted_qcs s) (co_now s) (co_trace s).
Definition set_sync_requests (x : gset Digest) (s : Core) : Core :=
  mkCore (co_aggregator s) (co_committable_blocks s) (co_last_commit s) (co_last_vote s)
    (co_last_timeout s) (co_locked s) (co_high_wqc s) (co_pending_proposals s) (co_qc_syncs s)
    (co_round s) (co_store s) x (co_timeout_syncs s) (co_timer s) (co_uncommitted_blocks s)
    (co_uncommitted_qcs s) (co_now s) (co_trace s).
Definition set_timeout_syncs (x : gset Round) (s : Core) : Core :=
  mkCore (co_aggregator s) (co_committable_blocks s) (co_last_commit s) (co_last_vote s)
    (co_last_timeout s) (co_locked s) (co_high_wqc s) (co_pending_proposals s) (co_qc_syncs s)
    (co_round s) (co_store s) (co_sync_requests s) x (co_timer s) (co_uncommitted_blocks s)
    (co_uncommitted_qcs s) (co_now s) (co_trace s).
Definition set_timer (x : Z) (s : Core) : Core :=
  mkCore (co_aggregator s) (co_committable_blocks s) (co_last_commit s) (co_last_vote s)
    (co_last_timeout s) (co_locked s) (co_high_wqc s) (co_pending_proposals s) (co_qc_syncs s)
    (co_round s) (co_store s) (co_sync_requests s) (co_timeout_syncs s) x (co_uncommitted_blocks
    s) (co_uncommitted_qcs s) (co_now s) (co_trace s).
Definition set_uncommitted_blocks (x : gmap Digest Block) (s : Core) : Core :=
  mkCore (co_aggregator s) (co_committable_blocks s) (co_last_commit s) (co_last_vote s)
    (co_last_timeout s) (co_locked s) (co_high_wqc s) (co_pending_proposals s) (co_qc_syncs s)
    (co_round s) (co_store s) (co_sync_requests s) (co_timeout_syncs s) (co_timer s) x
    (co_uncommitted_qcs s) (co_now s) (co_trace s).
Definition set_uncommitted_qcs (x : gmap Round QC) (s : Core) : Core :=
  mkCore (co_aggregator s) (co_committable_blocks s) (co_last_commit s) (co_last_vote s)
    (co_last_timeout s) (co_locked s) (co_high_wqc s) (co_pending_proposals s) (co_qc_syncs s)
    (co_round s) (co_store s) (co_sync_requests s) (co_timeout_syncs s) (co_timer s)
    (co_uncommitted_blocks s) x (co_now s) (co_trace s).
Definition set_now (x : Z) (s : Core) : Core :=
  mkCore (co_aggregator s) (co_committable_blocks s) (co_last_commit s) (co_last_vote s)
    (co_last_timeout s) (co_locked s) (co_high_wqc s) (co_pending_proposals s) (co_qc_syncs s)
    (co_round s) (co_store s) (co_sync_requests s) (co_timeout_syncs s) (co_timer s)
    (co_uncommitted_blocks s) (co_uncommitted_qcs s) x (co_trace s).
Definition set_trace (x : list (Z * Effect)) (s : Core) : Core :=
  mkCore (co_aggregator s) (co_committable_blocks s) (co_last_commit s) (co_last_vote s)
    (co_last_timeout s) (co_locked s) (co_high_wqc s) (co_pending_proposals s) (co_qc_syncs s)
    (co_round s) (co_store s) (co_sync_requests s) (co_timeout_syncs s) (co_timer s)
    (co_uncommitted_blocks s) (co_uncommitted_qcs s) (co_now s) x.
Context (cfg : CoreConfig).

Definition GENESIS : Round := 0.

(** The state built by [spawn] at time [now]; the timer is armed by
    [Timer::new]. *)
Definition Core_spawn (st : Store) (now : Z) : Core := {|
  co_aggregator := Aggregator_new (cc_committee cfg);
  co_committable_blocks := ∅;
  co_last_commit := Block_genesis;
  co_last_vote := mkVote (cc_name cfg) (digest Block_genesis) VT_Normal 0 g1_default;
  co_last_timeout := GENESIS;
  co_locked := QC_genesis;
  co_high_wqc := WQC_genesis;
  co_pending_proposals := {[ blk_round Block_genesis := digest Block_genesis ]};
  co_qc_syncs := ∅;
  co_round := 1;
  co_store := st;
  co_sync_requests := ∅;
  co_timeout_syncs := ∅;
  co_timer := now + cc_timeout_delay cfg;
  co_uncommitted_blocks := {[ digest Block_genesis := Block_genesis ]};
  co_uncommitted_qcs := {[ blk_round Block_genesis := QC_genesis ]};
  co_now := now;
  co_trace := [];
|}.

Abbreviation M := (Exec Core ConsensusError).

(** ** Sending *)
Definition emit (e : Effect) : M unit :=
  modify (fun s => set_trace ((co_now s, e) :: co_trace s) s).

Fixpoint emit_all (es : list Effect) : M unit :=
  match es with
  | [] => mret tt
  | e :: es' => _ ← emit e; emit_all es'
  end.

(** [Timer::reset] *)
Definition timer_reset : M unit := modify (fun s => set_timer (co_now s + cc_timeout_delay cfg) s).

(** The messages that [broadcast] and [send_to] hand to a network sender;
    they drop all others. *)
Definition is_sendable (m : ConsensusMessage) : bool :=
  match m with
  | CM_QC _ | CM_Vote _ | CM_Timeout _ => true
  | _ => false
  end.

Definition broadcast (m : ConsensusMessage) : M unit :=
  let addresses := others_consensus_sockets (cc_committee cfg) (cc_name cfg) in
  if is_sendable m then emit (Ef_Broadcast addresses m) else mret tt.

(** The [consensus_to_consensus] address of an authority. *)
Definition consensus_address (name : PublicKey) : option SocketAddr :=
  match consensus (cc_committee cfg) name with
  | inr a => Some (consensus_to_consensus a)
  | inl _ => None
  end.

Definition send_to (m : ConsensusMessage) (recipient : PublicKey) : M unit :=
  if decide (recipient = cc_name cfg) then mret tt
  else
    address ← expect (consensus_address recipient) "Target node is not in the committee";
    if is_sendable m then emit (Ef_Send address m) else mret tt.

Definition leader_of (r : Round) : M PublicKey :=
  expect (get_leader (cc_leader_elector cfg) r) "index out of bounds".

(** [self.synchronizer.get_block(..)]: may send a request to the
    synchronizer. *)
Definition synchronizer_get_block (d : Digest) (server : PublicKey) (resume_from : option Block)
    : M (option Block) :=
  st ← gets co_store;
  '(b, request) ← lift (sync_get_block d server resume_from st);
  _ ← match request with Some r => emit (Ef_Synchronizer r) | None => mret tt end;
  mret b.

Definition add_sync_request (d : Digest) : M unit :=
  modify (fun s => set_sync_requests ({[d]} ∪ co_sync_requests s) s).

(** [HashSet::remove]: whether the element was there. *)
Definition take_sync_request (d : Digest) : M bool :=
  requests ← gets co_sync_requests;
  _ ← modify (set_sync_requests (requests ∖ {[d]}));
  mret (bool_decide (d ∈ requests)).

(** ** Blocks and their ancestors *)
Definition get_block (d : Digest) (r : Round) : M (option Block) :=
  last_commit ← gets co_last_commit;
  if blk_round last_commit <? r then
    qcs ← gets co_uncommitted_qcs;
    _ ← assert_that (bool_decide (is_Some (qcs !! r)))
          "assertion failed: self.uncommitted_qcs.contains_key(&round)";
    proposer ← leader_of r;
    blocks ← gets co_uncommitted_blocks;
    match blocks !! d with
    | Some b => mret (Some b)
    | None =>
        maybe_b ← synchronizer_get_block d proposer None;
        _ ← assert_that (bool_decide (maybe_b = None)) "assertion failed: maybe_b.is_none()";
        _ ← add_sync_request d;
        mret None
    end
  else mret None.

(** One pass of the loop of [have_all_ancestors], at block [b]; [again] is the next
    one. *)
Definition trace_ancestors_pass (block : Block) (again : Block -> M bool) (b : Block) : M bool :=
  blocks ← gets co_uncommitted_blocks;
  maybe_parent ← match blocks !! blk_parent b with
                 | Some parent => mret (Some parent)
                 | None => synchronizer_get_block (blk_parent b) (blk_author b) (Some block)
                 end;
  last_commit ← gets co_last_commit;
  match maybe_parent with
  | Some parent =>
      if blk_round parent =? blk_round last_commit then mret true
      else
        _ ← assert_that (blk_round last_commit <? blk_round parent)
              "assertion failed: parent.round > self.last_commit.round";
        again parent
  | None =>
      _ ← add_sync_request (blk_parent b);
      mret false
  end.

(** The loop may make [2 ^ ancestors_depth] passes: more than there are digests,
    so that only a cycle of parent links, which the code follows for ever, uses
    them up. *)
Definition ancestors_depth (block last_commit : Block) : nat :=
  256 + Z.to_nat (blk_round block - blk_round last_commit).

Definition have_all_ancestors (block : Block) : M bool :=
  last_commit ← gets co_last_commit;
  if (blk_round block =? GENESIS) || bool_decide (blk_parent block = digest last_commit)
  then mret true
  else
    _ ← assert_that (blk_round last_commit <? blk_round block)
          "assertion failed: block.round > self.last_commit.round";
    committable ← gets co_committable_blocks;
    _ ← assert_that (bool_decide (is_Some (committable !! digest block)))
          "assertion failed: self.committable_blocks.contains_key(&block.digest())";
    repeat_pow (ancestors_depth block last_commit) (trace_ancestors_pass block) (fun _ => out_of_fuel) block.

(** The first loop of [commit]: pops the ancestors of [ancestor] off the
    uncommitted blocks down to the last commit; the result is the stack, with
    the oldest block on top. *)
Fixpoint collect_ancestors (fuel : nat) (ancestor : Block) (to_commit : list Block)
    : M (list Block) :=
  match fuel with
  | O => out_of_fuel
  | S fuel' =>
      last_commit ← gets co_last_commit;
      let to_commit := ancestor :: to_commit in
      if decide (blk_parent ancestor = digest last_commit) then mret to_commit
      else
        blocks ← gets co_uncommitted_blocks;
        parent ← expect (blocks !! blk_parent ancestor) "Missing ancestor detected during commit.";
        _ ← modify (set_uncommitted_blocks (delete (blk_parent ancestor) blocks));
        _ ← assert_that (blk_round last_commit <? blk_round parent)
              "assertion failed: ancestor.round > self.last_commit.round";
        collect_ancestors fuel' parent to_commit
  end.

(** What is sent for each committed block. *)
Definition commit_effects (committing : Block) : list Effect :=
  Ef_LogCommitted committing ::
  if cc_consensus_only cfg then []
  else Ef_TxCommit (blk_payload committing) :: Ef_TxOutput committing ::
       map Ef_Mempool (blk_payload committing).

(** The in-memory clean-up at the end of [commit]. *)
Definition commit_cleanup (block : Block) (s : Core) : Core :=
  let r := blk_round block in
  set_uncommitted_qcs (filter (fun x => r < qc_round x.2) (co_uncommitted_qcs s))
  (set_uncommitted_blocks (filter (fun x => r < blk_round x.2) (co_uncommitted_blocks s))
  (set_pending_proposals (filter (fun x => r < x.1) (co_pending_proposals s))
  (set_committable_blocks (filter (fun x => r < x.2) (co_committable_blocks s))
  (set_last_commit block s)))).

(** Every pass of the first loop but the last removes an uncommitted block. *)
Definition commit (block : Block) : M unit :=
  if blk_round block =? GENESIS then mret tt
  else
    last_commit ← gets co_last_commit;
    _ ← assert_that (blk_round last_commit <? blk_round block)
          "assertion failed: block.round > self.last_commit.round";
    blocks ← gets co_uncommitted_blocks;
    to_commit ← collect_ancestors (S (size blocks)) block [];
    _ ← emit_all (concat (map commit_effects to_commit));
    modify (commit_cleanup block).

Definition try_commit_or_sync_ancestor (block : Block) : M unit :=
  last_commit ← gets co_last_commit;
  _ ← assert_that (blk_round last_commit <? blk_round block)
        "assertion failed: block.round > self.last_commit.round";
  committable ← gets co_committable_blocks;
  if bool_decide (is_Some (committable !! digest block)) then
    complete ← have_all_ancestors block;
    if (complete : bool) then commit block else mret tt
  else mret tt.

Definition schedule_commit (d : Digest) (r : Round) : M unit :=
  _ ← modify (fun s => set_committable_blocks (<[d := r]> (co_committable_blocks s)) s);
  blocks ← gets co_uncommitted_blocks;
  match blocks !! d with
  | Some block =>
      complete ← have_all_ancestors block;
      if (complete : bool) then commit block else mret tt
  | None => mret tt
  end.

Definition update_pending_proposals (block : Block) : M unit :=
  pending ← gets co_pending_proposals;
  if bool_decide (is_Some (pending !! blk_round block)) then mret tt
  else modify (set_pending_proposals (<[blk_round block := digest block]> pending)).

Definition observe_payload (block : Block) : M unit :=
  emit (Ef_Proposer (PM_Observed (blk_payload block))).

Definition store_block (block : Block) : M unit :=
  last_commit ← gets co_last_commit;
  _ ← assert_that (blk_round last_commit <? blk_round block)
        "assertion failed: block.round > self.last_commit.round";
  _ ← update_pending_proposals block;
  _ ← modify (fun s => set_uncommitted_blocks (<[digest block := block]> (co_uncommitted_blocks s)) s);
  _ ← ignore_err (observe_payload block);
  modify (fun s =>
    set_store (store_write (digest_bytes (digest block)) (block_encode block) (co_store s)) s).

(** ** Talking to the proposer *)
Definition propose_if_leader (r : Round) (trigger : ProposalTrigger) : M unit :=
  leader ← leader_of r;
  if decide (cc_name cfg = leader) then emit (Ef_Proposer (PM_Propose trigger)) else mret tt.

Definition cleanup_proposals (r : Round) : M unit := emit (Ef_Proposer (PM_Cleanup r)).

Definition propose_fallback (tc : TC) : M unit :=
  propose_if_leader (u64_add (tc_round tc) 1) (PT_TC tc).

Definition propose_normal (parent_qc : QC) : M unit :=
  propose_if_leader (u64_add (qc_round parent_qc) 1) (PT_QC parent_qc).

(** ** Votes and quorum certificates *)
Section with_handle_vote.
Context (handle_vote : Vote -> M unit).

Definition can_vote (s : Core) (b : Block) : bool := co_last_timeout s <? blk_round b.

Definition send_vote_with (b : Digest) (r : Round) (t : VoteType) : M unit :=
  let vote := Vote_new (cc_name cfg) b t r (cc_bls_secret cfg) in
  _ ← emit (Ef_LogVote vote);
  _ ← (if decide (vote_kind vote = VT_Normal) then modify (set_last_vote vote) else mret tt);
  _ ← ignore_err (handle_vote vote);
  broadcast (CM_Vote vote).

Definition send_prepare_vote_with (block : Block) : M unit :=
  send_vote_with (digest block) (blk_round block) VT_Normal.

Definition try_vote_with : M unit :=
  r ← gets co_round;
  pending ← gets co_pending_proposals;
  match pending !! r with
  | Some accepted =>
      blocks ← gets co_uncommitted_blocks;
      b ← expect (blocks !! accepted)
            "Fatal: Block in pending_proposals not in uncommitted_blocks.";
      able ← gets (fun s => can_vote s b);
      if (r =? blk_round b) && able then send_prepare_vote_with b else mret tt
  | None => mret tt
  end.

Definition advance_to_round_with (r : Round) : M unit :=
  current ← gets co_round;
  if current <? r then
    _ ← cleanup_proposals (u64_sub r 1);
    _ ← modify (set_round r);
    _ ← timer_reset;
    try_vote_with
  else mret tt.

Definition lock_qc_with (qc : QC) : M unit :=
  locked ← gets co_locked;
  if qc_round locked <? qc_round qc then
    _ ← modify (set_locked qc);
    _ ← modify (fun s => set_aggregator (cleanup_timeouts (qc_round qc) (co_aggregator s)) s);
    last_timeout ← gets co_last_timeout;
    if last_timeout <? qc_round qc
    then send_vote_with (qc_blk_hash qc) (qc_round qc) VT_Commit
    else mret tt
  else mret tt.

Definition handle_prepare_qc_with (qc : QC) : M unit :=
  qcs ← gets co_uncommitted_qcs;
  if bool_decide (is_Some (qcs !! qc_round qc)) then mret tt
  else
    _ ← modify (set_uncommitted_qcs (<[qc_round qc := qc]> qcs));
    current ← gets co_round;
    _ ← (if current <? u64_add (qc_round qc) 1 then propose_normal qc else mret tt);
    _ ← lock_qc_with qc;
    _ ← get_block (qc_blk_hash qc) (qc_round qc);
    _ ← broadcast (CM_QC qc);
    advance_to_round_with (u64_add (qc_round qc) 1).

Definition handle_commit_qc (qc : QC) : M unit :=
  committable ← gets co_committable_blocks;
  if bool_decide (is_Some (committable !! qc_blk_hash qc)) then mret tt
  else
    _ ← schedule_commit (qc_blk_hash qc) (qc_round qc);
    modify (fun s => set_aggregator (cleanup_prepares (qc_round qc) (co_aggregator s)) s).

Definition handle_qc_with (qc : QC) : M unit :=
  last_commit ← gets co_last_commit;
  if blk_round last_commit <? qc_round qc then
    if bool_decide (qc_kind qc = VT_Commit) || qc_fast_quorum qc
    then handle_commit_qc qc
    else handle_prepare_qc_with qc
  else mret tt.

(** [self.aggregator.add_..._vote(..)?] *)
Definition with_aggregator {A} (m : Exec Aggregator ConsensusError A) : M A :=
  zoom co_aggregator set_aggregator m.

Definition handle_vote_body (vote : Vote) : M unit :=
  last_commit ← gets co_last_commit;
  if blk_round last_commit <? vote_round vote then
    qc ← match vote_kind vote with
         | VT_Commit => with_aggregator (add_commit_vote vote)
         | VT_Normal => with_aggregator (add_normal_vote vote)
         end;
    match qc with
    | Some qc => handle_qc_with qc
    | None => mret tt
    end
  else mret tt.

End with_handle_vote.

Fixpoint handle_vote_fuel (fuel : nat) (vote : Vote) : M unit :=
  match fuel with
  | O => out_of_fuel
  | S fuel' => handle_vote_body (handle_vote_fuel fuel') vote
  end.

(** A nested call for a prepare vote is made only for a pending proposal of a
    round above the current one, one for a commit vote does not recurse. *)
Definition vote_fuel (s : Core) : nat :=
  S (S (size (filter (fun x => co_round s < x.1) (co_pending_proposals s)))).

Definition handle_vote (vote : Vote) : M unit := fun s => handle_vote_fuel (vote_fuel s) vote s.
Definition handle_qc (qc : QC) : M unit := handle_qc_with handle_vote qc.
Definition advance_to_round (r : Round) : M unit := advance_to_round_with handle_vote r.
Definition try_vote : M unit := try_vote_with handle_vote.

(** ** Timeouts and timeout certificates *)
Definition handle_wqc (wqc : WQC) : M unit :=
  high_wqc ← gets co_high_wqc;
  if wqc_round high_wqc <? wqc_round wqc then modify (set_high_wqc wqc) else mret tt.

(** [sync_peer]: serve the locked QC, at most once per [timeout_delay] and
    peer. *)
Definition sync_peer (recipient : PublicKey) : M unit :=
  syncs ← gets co_qc_syncs;
  now ← gets co_now;
  let rate_limited := match syncs !! recipient with
                      | Some synced_at => now - synced_at <? cc_timeout_delay cfg
                      | None => false
                      end in
  if rate_limited then mret tt
  else
    address ← expect (consensus_address recipient)
                "Recipient is not a member of the Validator Committee.";
    locked ← gets co_locked;
    _ ← emit (Ef_SyncPeer recipient address (CM_QC locked));
    modify (set_qc_syncs (<[recipient := now]> syncs)).

Section with_handle_timeout.
Context (handle_timeout : Timeout -> M unit).

Definition send_timeout_with (r : Round) : M unit :=
  syncs ← gets co_timeout_syncs;
  if bool_decide (r ∈ syncs) then mret tt
  else
    timeout ← (fun s =>
      expect (Timeout_new (co_last_vote s) (co_locked s) (co_high_wqc s) r (cc_name cfg) (cc_secret cfg))
        "Failed to receive signature from Signature Service" s);
    _ ← emit (Ef_LogTimeout timeout);
    _ ← modify (fun s => set_last_timeout (Z.max r (co_last_timeout s)) s);
    _ ← modify (set_timeout_syncs ({[r]} ∪ syncs));
    _ ← timer_reset;
    _ ← handle_timeout timeout;
    broadcast (CM_Timeout timeout).

Definition handle_tc_with (tc : TC) : M unit :=
  current ← gets co_round;
  if current <? u64_add (tc_round tc) 1 then
    _ ← handle_qc (tc_high_qc tc);
    _ ← handle_wqc (tc_high_wqc tc);
    _ ← lift (TC_is_well_formed (cc_committee cfg) tc);
    _ ← propose_fallback tc;
    next_leader ← leader_of (u64_add (tc_round tc) 1);
    _ ← send_to (CM_TC tc) next_leader;
    _ ← send_timeout_with (tc_round tc);
    advance_to_round (u64_add (tc_round tc) 1)
  else mret tt.

Definition handle_timeout_body (t : Timeout) : M unit :=
  let r := to_round t in
  locked ← gets co_locked;
  if r <=? qc_round locked then
    authorised ← lift (Timeout_author_is_authorised (cc_committee cfg) t);
    if (authorised : bool) then sync_peer (to_author t) else mret tt
  else
    current ← gets co_round;
    if current <=? r then
      _ ← handle_qc (to_high_qc t);
      '(votes, maybe_tc) ← with_aggregator (add_timeout t);
      if validity_threshold (cc_committee cfg) <=? votes then
        _ ← send_timeout_with r;
        match maybe_tc with
        | Some tc => handle_tc_with tc
        | None => mret tt
        end
      else mret tt
    else send_timeout_with (u64_sub current 1).

End with_handle_timeout.

Fixpoint handle_timeout_fuel (fuel : nat) (t : Timeout) : M unit :=
  match fuel with
  | O => out_of_fuel
  | S fuel' => handle_timeout_body (handle_timeout_fuel fuel') t
  end.

(** A timeout for a round is created once between two expiries of the timer:
    handling a peer's timeout creates one for its round, handling that one may
    create one for the round before the current one, and that is all. *)
Definition timeout_fuel : nat := 3.

Definition handle_timeout (t : Timeout) : M unit := handle_timeout_fuel timeout_fuel t.
Definition send_timeout (r : Round) : M unit := send_timeout_with handle_timeout r.
Definition handle_tc (tc : TC) : M unit := handle_tc_with handle_timeout tc.

Definition local_timeout_round : M unit :=
  _ ← modify (set_timeout_syncs ∅);
  r ← gets co_round;
  send_timeout r.

(** ** Proposals and blocks *)
Definition is_non_equivocal_and_certifiable (s : Core) (block : Block) : bool :=
  bool_decide (co_pending_proposals s !! blk_round block = None).

Definition can_accept_block (block : Block) : M bool :=
  last_commit ← gets co_last_commit;
  if blk_round block <=? blk_round last_commit then mret false
  else
    requested ← take_sync_request (digest block);
    if (requested : bool) then mret true
    else
      qcs ← gets co_uncommitted_qcs;
      blocks ← gets co_uncommitted_blocks;
      match qcs !! blk_round block with
      | Some qc =>
          _ ← assert_that
                (negb (bool_decide (qc_blk_hash qc = digest block)) ||
                 bool_decide (is_Some (blocks !! digest block)))
                "assertion failed: qc.blk_hash != block.digest() || self.uncommitted_blocks.contains_key(..)";
          mret false
      | None =>
          leader ← leader_of (blk_round block);
          _ ← ensure (bool_decide (blk_author block = leader))
                (CE_WrongLeader (digest block) (blk_author block) (blk_round block));
          _ ← (if cc_consensus_only cfg then mret tt
               else lift (mempool_verify (cc_committee cfg) block));
          gets (fun s => is_non_equivocal_and_certifiable s block)
      end.

Definition process_block (block : Block) : M unit :=
  accepted ← can_accept_block block;
  if (accepted : bool) then
    _ ← store_block block;
    _ ← try_commit_or_sync_ancestor block;
    try_vote
  else mret tt.

Definition process_normal_proposal (p : NormalProposal) : M unit :=
  _ ← handle_qc (np_qc p);
  _ ← lift (NormalProposal_is_well_formed (cc_committee cfg) p);
  process_block (np_block p).

Definition process_fallback_recovery_proposal (p : FallbackRecoveryProposal) : M unit :=
  _ ← handle_tc (fp_tc p);
  _ ← lift (FallbackRecoveryProposal_is_well_formed (cc_committee cfg) p);
  process_block (fp_block p).

Definition handle_proposal (proposal : ProposalMessage) : M unit :=
  match proposal with
  | PM_F f => process_fallback_recovery_proposal f
  | PM_N n => process_normal_proposal n
  end.

Definition handle_sync_response (block : Block) : M unit :=
  requested ← take_sync_request (digest block);
  last_commit ← gets co_last_commit;
  if (requested : bool) && (blk_round last_commit <? blk_round block) then
    _ ← store_block block;
    try_commit_or_sync_ancestor block
  else mret tt.

Definition handle_synchronizer_loopback (block : Block) : M unit :=
  last_commit ← gets co_last_commit;
  if blk_round last_commit <? blk_round block then try_commit_or_sync_ancestor block
  else mret tt.

Definition sanitize_certificate (qc : QC) : M unit :=
  last_commit ← gets co_last_commit;
  if blk_round last_commit <? qc_round qc then
    known ← match qc_kind qc with
            | VT_Commit => gets (fun s => bool_decide (is_Some (co_committable_blocks s !! qc_blk_hash qc)))
            | VT_Normal => gets (fun s => bool_decide (is_Some (co_uncommitted_qcs s !! qc_round qc)))
            end;
    if (known : bool) then mret tt else lift (QC_is_well_formed (cc_committee cfg) qc)
  else mret tt.

(** ** The main loop *)
Inductive CoreEvent :=
| Ev_Message (m : ConsensusMessage)
| Ev_Proposer (p : ProposalMessage)
| Ev_Synchronizer (b : Block)
| Ev_Timer.

Definition handle_message (m : ConsensusMessage) : M unit :=
  match m with
  | CM_Propose proposal => handle_proposal proposal
  | CM_QC qc => _ ← sanitize_certificate qc; handle_qc qc
  | CM_SyncResponse block => handle_sync_response block
  | CM_TC tc => handle_tc tc
  | CM_Timeout t => handle_timeout t
  | CM_Vote v => handle_vote v
  | CM_VerifiedVote _ | CM_SyncRequest _ _ => panic "Unexpected protocol message"
  end.

(** One arm of the [select!]. *)
Definition handle_event (e : CoreEvent) : M unit :=
  match e with
  | Ev_Message m => handle_message m
  | Ev_Proposer p => handle_proposal p
  | Ev_Synchronizer b => handle_synchronizer_loopback b
  | Ev_Timer => local_timeout_round
  end.

(** What [run] does before the loop. *)
Definition boot : M unit :=
  _ ← timer_reset;
  propose_normal QC_genesis.

(** The timer arm is ready once the deadline has passed; the others whenever a
    message has arrived. *)
Definition enabled (e : CoreEvent) (s : Core) : Prop :=
  match e with
  | Ev_Timer => co_timer s <= co_now s
  | _ => True
  end.

(** An error is logged and the loop goes on; a panic ends the task. *)
Definition alive (o : Outcome ConsensusError unit) : bool :=
  match o with Ok _ | Err _ => true | _ => false end.

(** The states of a node: between two events time passes and other tasks use
    the store. *)
Inductive reachable : bool -> Core -> Prop :=
| reach_boot st now :
    reachable (alive (boot (Core_spawn st now)).2) (boot (Core_spawn st now)).1
| reach_event e s :
    reachable true s -> enabled e s ->
    reachable (alive (handle_event e s).2) (handle_event e s).1
| reach_time s now :
    reachable true s -> co_now s <= now -> reachable true (set_now now s)
| reach_store s command :
    reachable true s -> reachable true (set_store (store_handle command (co_store s)).1 s).

End core.
