(* ===== verification/Boot.v ===== *)
(** * Boot: which tasks a node runs, and how they are connected
    (src/node/src/main.rs, the [spawn] functions of src/hydrangea/src/consensus.rs,
    src/primary/src/primary.rs, src/primary/src/worker.rs and
    src/worker/src/worker.rs)

    A [spawn] function is a computation that records the tasks it starts, each with
    the configuration it gets and the channels it receives from and sends to.  The
    state of a task, and what it does, is the component of the same name; sockets
    and the runtime are not modelled. *)
From S2P Require Import Prelude Crypto KeyServices Config ConfigFiles BitVec DagMessages Messages Leader Store Proposer DagCore Batching PrimaryTasks WorkerTasks WorkerSync Core.

(** The channels, by the names of their receivers. *)
Inductive Channel :=
(* of a node *)
| rx_new_certificates | rx_feedback | rx_output
(* of the primary *)
| rx_others_digests | rx_our_digests | rx_headers | rx_headers_loopback | rx_certificates_loopback
| rx_primary_messages | rx_cert_requests
(* of the worker inside the primary, and of a stand-alone worker *)
| rx_batch_maker
| rx_primary | rx_synchronizer | rx_quorum_waiter | rx_own_processor | rx_helper_worker | rx_others_processor
(* of consensus *)
| rx_consensus | rx_proposer_core | rx_sync_core | rx_core_proposer | rx_helper | rx_commit.

#[export] Instance Channel_eq_dec : EqDecision Channel.
Proof. solve_decision. Defined.

Inductive Handler :=
| ConsensusReceiverHandler
| PrimaryReceiverHandler
| TxReceiverHandler
| WorkerReceiverHandler
| WorkerPrimaryReceiverHandler.

#[export] Instance Handler_eq_dec : EqDecision Handler.
Proof. solve_decision. Defined.

Section boot.
Context `{Prim : Primitives}.

(** The tasks, with what is fixed when they are spawned. *)
Inductive Task :=
| T_NetworkReceiver (address : SocketAddr) (handler : Handler)
| T_Core (cfg : CoreConfig)
| T_Synchronizer (name : PublicKey) (c : Committee) (sync_retry_delay : Z)
| T_Committer
| T_Proposer (cfg : ProposerConfig)
| T_Helper (c : Committee)
| T_DagCore (cfg : DagConfig) (consensus_round : Round)
| T_GarbageCollector (gc : GarbageCollector)
| T_PayloadReceiver
| T_HeaderProposer (name : PublicKey) (secret : SecretKey) (header_size max_header_delay : Z)
| T_CertificatesHelper (c : Committee)
| T_BatchMaker (batch_size max_batch_delay : Z)
| T_PrimaryConnector (address : SocketAddr)
| T_WorkerSynchronizer (cfg : WorkerSyncConfig)
| T_WorkerBatchMaker (batch_size max_batch_delay : Z) (workers_addresses : list (PublicKey * SocketAddr))
| T_QuorumWaiter (c : Committee) (stake : Z)
| T_Processor (id : WorkerId) (own_batch : bool)
| T_WorkerHelper (id : WorkerId) (c : Committee)
| T_Analyze.

Record Spawned := mkSpawned { sp_task : Task; sp_receives : list Channel; sp_sends : list Channel }.

(** The tasks started so far, in order. *)
Abbreviation Boot := (Exec (list Spawned) unit).
Definition spawn (task : Task) (receives sends : list Channel) : Boot unit :=
  modify (fun tasks => tasks ++ [mkSpawned task receives sends]).

(** [.expect(..)] on a lookup in the committee, and [set_ip("0.0.0.0")]. *)
Definition expect_in_committee {A} (x : ConfigError + A) (msg : string) : Boot A :=
  match x with inr a => mret a | inl _ => panic msg end.
Definition any_ip (a : SocketAddr) : SocketAddr := mkSocketAddr 0 (port a).

Section node.
Context (name : PublicKey) (c : Committee) (p : Parameters).
Context (secret : SecretKey) (bls_secret : BlsSecret).

(** [Consensus::spawn] *)
Definition Consensus_spawn : Boot unit :=
  x ← expect_in_committee (consensus c name) "Our public key is not in the committee";
  _ ← spawn (T_NetworkReceiver (any_ip (consensus_to_consensus x)) ConsensusReceiverHandler)
        [] [rx_consensus; rx_helper];
  leader_elector ← lift (LeaderElector_new (leader_elector p) c);
  _ ← spawn (T_Synchronizer name c (sync_retry_delay p)) [] [rx_sync_core];
  _ ← spawn (T_Core (mkCoreConfig name c (consensus_only p) leader_elector (timeout_delay p) secret bls_secret))
        [rx_consensus; rx_proposer_core; rx_sync_core] [rx_core_proposer; rx_commit; rx_output; rx_feedback];
  _ ← (if consensus_only p then mret tt else spawn T_Committer [rx_commit] []);
  _ ← spawn (T_Proposer (mkProposerConfig name (consensus_only p) c 2000 (max_block_size p) secret))
        [rx_new_certificates; rx_core_proposer] [rx_proposer_core];
  spawn (T_Helper c) [rx_helper] [].

(** [Worker::spawn] of the primary crate, with [handle_clients_transactions]. *)
Definition PrimaryWorker_spawn (id : WorkerId) : Boot unit :=
  x ← expect_in_committee (worker c name id) "Our public key or worker id is not in the committee";
  _ ← spawn (T_NetworkReceiver (any_ip (transactions x)) TxReceiverHandler) [] [rx_batch_maker];
  spawn (T_BatchMaker (batch_size p) (max_batch_delay p)) [rx_batch_maker] [rx_our_digests].

(** [Primary::spawn].  The senders of [rx_others_digests] and
    [rx_headers_loopback] are dropped when it returns. *)
Definition Primary_spawn : Boot unit :=
  x ← expect_in_committee (primary c name) "Our public key or worker id is not in the committee";
  _ ← spawn (T_NetworkReceiver (any_ip (primary_to_primary x)) PrimaryReceiverHandler)
        [] [rx_primary_messages; rx_cert_requests];
  _ ← PrimaryWorker_spawn 0;
  _ ← spawn (T_DagCore (mkDagConfig name c (gc_depth p) bls_secret) 0)
        [rx_primary_messages; rx_headers_loopback; rx_certificates_loopback; rx_headers]
        [rx_new_certificates; rx_primary_messages];
  gc ← expect (GarbageCollector_spawn name c) "Our public key or worker id is not in the committee";
  _ ← spawn (T_GarbageCollector gc) [rx_feedback] [rx_certificates_loopback];
  _ ← spawn T_PayloadReceiver [rx_others_digests] [];
  _ ← spawn (T_HeaderProposer name secret (header_size p) (max_header_delay p)) [rx_our_digests] [rx_headers];
  spawn (T_CertificatesHelper c) [rx_cert_requests] [].

(** [Worker::spawn] of the worker crate. *)
Definition handle_primary_messages (id : WorkerId) : Boot unit :=
  x ← expect_in_committee (worker c name id) "Our public key or worker id is not in the committee";
  _ ← spawn (T_NetworkReceiver (any_ip (primary_to_worker x)) WorkerPrimaryReceiverHandler)
        [] [rx_synchronizer];
  spawn (T_WorkerSynchronizer
           (mkWorkerSyncConfig name id (gc_depth p) (sync_retry_delay p) (sync_retry_nodes p)))
    [rx_synchronizer] [].
Definition handle_clients_transactions (id : WorkerId) : Boot unit :=
  x ← expect_in_committee (worker c name id) "Our public key or worker id is not in the committee";
  _ ← spawn (T_NetworkReceiver (any_ip (transactions x)) TxReceiverHandler) [] [rx_batch_maker];
  _ ← spawn (T_WorkerBatchMaker (batch_size p) (max_batch_delay p)
               (map (fun y => (y.1, worker_to_worker y.2)) (others_workers c name id)))
        [rx_batch_maker] [rx_quorum_waiter];
  _ ← spawn (T_QuorumWaiter c (stake c name)) [rx_quorum_waiter] [rx_own_processor];
  spawn (T_Processor id true) [rx_own_processor] [rx_primary].
Definition handle_workers_messages (id : WorkerId) : Boot unit :=
  x ← expect_in_committee (worker c name id) "Our public key or worker id is not in the committee";
  _ ← spawn (T_NetworkReceiver (any_ip (worker_to_worker x)) WorkerReceiverHandler)
        [] [rx_helper_worker; rx_others_processor];
  _ ← spawn (T_WorkerHelper id c) [rx_helper_worker] [];
  spawn (T_Processor id false) [rx_others_processor] [rx_primary].
Definition Worker_spawn (id : WorkerId) : Boot unit :=
  _ ← handle_primary_messages id;
  _ ← handle_clients_transactions id;
  _ ← handle_workers_messages id;
  x ← expect_in_committee (primary c name) "Our public key is not in the committee";
  spawn (T_PrimaryConnector (worker_to_primary x)) [rx_primary] [].

(** The primary arm of [run], and [analyze]. *)
Definition run_primary : Boot unit :=
  _ ← (if consensus_only p then mret tt else Primary_spawn);
  _ ← Consensus_spawn;
  spawn T_Analyze [rx_output] [].
End node.

(** ** The binary *)

(** An [anyhow] error with its context. *)
Inductive MainError :=
| ME_Config (context : string) (e : ConfigError)
| ME_Store (context : string).
Definition with_context {A} (context : string) (r : ConfigError + A) : Outcome MainError A :=
  match r with inr a => Ok a | inl e => Err (ME_Config context e) end.

Section main.
Context {Jkeys : Json KeyPair} {Jbls : Json BlsKeyPair} {Jcomm : Json (list (PublicKey * Authority))}
  {Jparams : Json Parameters}.

(** [run]: what is loaded (the name of the key pair is not derived from its
    secret), and the tasks that are started.  [store_opens] is whether RocksDB
    opens the path. *)
Definition main_run (ed_key_file bls_key_file committee_file : string)
    (parameters_file : option string) (store_opens : bool) (fs : FileSystem)
    : Outcome MainError (list Spawned) :=
  ed_keypair ← with_context "Failed to load the node's keypair" (import (A := KeyPair) ed_key_file fs);
  bls_keypair ← with_context "Failed to load the node's keypair" (import (A := BlsKeyPair) bls_key_file fs);
  comm ← with_context "Failed to load the committee information"
           (import (A := list (PublicKey * Authority)) committee_file fs);
  p ← match parameters_file with
      | Some filename => with_context "Failed to load the node's parameters" (import (A := Parameters) filename fs)
      | None => Ok Parameters_default
      end;
  match Committee_new comm (param_n p) (param_f p) (param_c p) (param_k p) with
  | None => Panicked "index out of bounds"
  | Some c =>
      if (store_opens : bool) then
        match run_primary (kp_name ed_keypair) c p (kp_secret ed_keypair) (bk_secret bls_keypair) [] with
        | (tasks, Ok _) => Ok tasks
        | (_, Panicked msg) => Panicked msg
        | (_, Err _) | (_, OutOfFuel) => OutOfFuel
        end
      else Err (ME_Store "Failed to create a store")
  end.

(** The sub-command [generate_keys]. *)
Definition main_generate_keys `{Ed : EdKeys} (filename : string) (fs : FileSystem)
    : FileSystem * Outcome MainError unit :=
  let '(fs', r) := export KeyPair_new filename fs in
  (fs', with_context "Failed to generate key pair" r).
End main.

(** ** The network receivers that only pass messages on *)

(** [TxReceiverHandler::dispatch] of the worker crate. *)
Definition worker_tx_dispatch `{Txns : Transactions} (message : list Z) : option Transaction :=
  bcs_from_bytes message.
(** [PrimaryReceiverHandler::dispatch] of the worker crate, on what [bincode]
    decodes. *)
Definition worker_primary_dispatch (decoded : option PrimaryWorkerMessage) : list PrimaryWorkerMessage :=
  match decoded with Some message => [message] | None => [] end.
(** [WorkerReceiverHandler::dispatch] of the primary crate, which is not used. *)
Definition primary_worker_dispatch (decoded : option WorkerPrimaryMessage)
    : Outcome DagError (Channel * (Digest * WorkerId)) :=
  match decoded with
  | None => Err SerializationError
  | Some (WPM_OurBatch digest worker_id) => Ok (rx_our_digests, (digest, worker_id))
  | Some (WPM_OthersBatch digest worker_id) => Ok (rx_others_digests, (digest, worker_id))
  end.

(** ** How a node is wired *)
Definition receives (tasks : list Spawned) : list Channel := concat (map sp_receives tasks).
Definition sends (tasks : list Spawned) : list Channel := concat (map sp_sends tasks).
Definition listeners (tasks : list Spawned) : list (SocketAddr * Handler) :=
  omap (fun t => match sp_task t with T_NetworkReceiver a h => Some (a, h) | _ => None end) tasks.

(** No channel has two receivers; whoever receives is sent to by a task, and
    whoever sends is received by one, except for [idle] and [dropped]. *)
Record wired (idle dropped : list Channel) (tasks : list Spawned) : Prop := {
  wr_once : NoDup (receives tasks);
  wr_fed : Forall (fun ch => ch ∈ sends tasks ++ idle) (receives tasks);
  wr_heard : Forall (fun ch => ch ∈ receives tasks ++ dropped) (sends tasks);
}.

Section wiring.
Context (name : PublicKey) (c : Committee) (p : Parameters) (secret : SecretKey) (bls_secret : BlsSecret).

Definition node_listeners (x : Authority) (w : WorkerAddresses) : list (SocketAddr * Handler) :=
  (if consensus_only p then []
   else [(any_ip (primary_to_primary (auth_primary x)), PrimaryReceiverHandler);
         (any_ip (transactions w), TxReceiverHandler)]) ++
  [(any_ip (consensus_to_consensus (auth_consensus x)), ConsensusReceiverHandler)].

Lemma run_primary_wired x w e :
  btree_get (authorities c) name = Some x -> auth_workers x !! 0 = Some w ->
  LeaderElector_new (E := unit) (leader_elector p) c = Ok e ->
  exists tasks, run_primary name c p secret bls_secret [] = (tasks, Ok tt) /\
    listeners tasks = node_listeners x w /\
    (if consensus_only p then wired [rx_new_certificates] [rx_commit; rx_feedback] tasks
     else wired [rx_others_digests; rx_headers_loopback] [] tasks).
Proof.
  intros Hx Hw He. unfold run_primary, Primary_spawn, Consensus_spawn, PrimaryWorker_spawn,
    primary, consensus, worker, GarbageCollector_spawn, our_workers, node_listeners.
  rewrite Hx. simpl. rewrite Hw, He.
  destruct (consensus_only p); eexists;
    (split; [reflexivity|]; split; [reflexivity|]; split; apply (bool_decide_eq_true_1 _); reflexivity).
Qed.

(** The addresses that the other nodes use are listened to. *)
Lemma consensus_peers_listened y a :
  NoDup (map fst (authorities c)) -> a ∈ others_consensus_sockets c y ->
  exists z x, btree_get (authorities c) z = Some x /\ is_honest x = true /\ z <> y /\
    a = consensus_to_consensus (auth_consensus x).
Proof.
  intros Hnd. unfold others_consensus_sockets, others_consensus.
  intros ([z ad] & -> & ([z' x] & [= -> ->] & [[Hne Hh] Hin]%list_elem_of_filter)%list_elem_of_fmap)%list_elem_of_fmap.
  exists z', x. split_and!; [by apply btree_get_Some_In|done..].
Qed.
End wiring.

(** Whoever a node sends its consensus messages to listens, on the port that it
    sends to, with the handler of consensus, in every mode; and so do the primaries
    it sends headers, votes and certificates to, unless they run consensus only. *)
Lemma peers_are_connected c p y secrets bls_secrets :
  NoDup (map fst (authorities c)) ->
  (forall z x, btree_get (authorities c) z = Some x -> is_Some (auth_workers x !! 0)) ->
  (exists e, LeaderElector_new (E := unit) (leader_elector p) c = Ok e) ->
  (forall a, a ∈ others_consensus_sockets c y -> exists z tasks,
     run_primary z c p (secrets z) (bls_secrets z) [] = (tasks, Ok tt) /\
     (any_ip a, ConsensusReceiverHandler) ∈ listeners tasks) /\
  (consensus_only p = false -> forall z ad, (z, ad) ∈ others_primaries c y -> exists tasks,
     run_primary z c p (secrets z) (bls_secrets z) [] = (tasks, Ok tt) /\
     (any_ip (primary_to_primary ad), PrimaryReceiverHandler) ∈ listeners tasks).
Proof.
  intros Hnd Hw [e He]. split.
  - intros a (z & x & Hx & _ & _ & ->)%consensus_peers_listened; [|done].
    destruct (Hw z x Hx) as [w Hw0].
    destruct (run_primary_wired z c p (secrets z) (bls_secrets z) x w e Hx Hw0 He) as (tasks & Hrun & Hl & _).
    exists z, tasks. split; [done|]. rewrite Hl. unfold node_listeners. set_solver.
  - intros Hmode z ad ([z' x] & [= -> ->] & [_ Hin]%list_elem_of_filter)%list_elem_of_fmap.
    pose proof (btree_get_Some_In _ _ _ Hnd Hin) as Hx. destruct (Hw z' x Hx) as [w Hw0].
    destruct (run_primary_wired z' c p (secrets z') (bls_secrets z') x w e Hx Hw0 He) as (tasks & Hrun & Hl & _).
    exists tasks. split; [done|]. rewrite Hl. unfold node_listeners. rewrite Hmode. set_solver.
Qed.

(** The stand-alone worker. *)
Lemma worker_wired name c p id x w :
  btree_get (authorities c) name = Some x -> auth_workers x !! id = Some w ->
  exists tasks, Worker_spawn name c p id [] = (tasks, Ok tt) /\
    listeners tasks = [(any_ip (primary_to_worker w), WorkerPrimaryReceiverHandler);
                       (any_ip (transactions w), TxReceiverHandler);
                       (any_ip (worker_to_worker w), WorkerReceiverHandler)] /\
    wired [] [] tasks.
Proof.
  intros Hx Hw. unfold Worker_spawn, handle_primary_messages, handle_clients_transactions,
    handle_workers_messages, worker, primary. rewrite Hx. simpl. rewrite Hw. eexists.
  split; [reflexivity|]; split; [reflexivity|]; split; apply (bool_decide_eq_true_1 _); reflexivity.
Qed.
End boot.
