(* ===== verification/CoreSteps.v ===== *)
(** * The consensus core as a protocol state machine

    [step] lists the state changes a consensus node may make, each with its
    guard: this is the abstract protocol.  [core_inv] is its inductive
    invariant.  The theorem at the end of the file says that every handler of
    [Core] is, whatever its outcome, a sequence of such steps. *)
From S2P Require Import Prelude Crypto Config BitVec DagMessages Messages Leader Store Proposer Synchronizer Mempool Aggregator Core.

Create HintDb steps.

(** Which steps a part of the core may make: the vote path creates no timeouts
    and stores no blocks, the timeout path stores no blocks. *)
Inductive level := LVote | LTimeout | LAll.

Section steps.
Context `{Prim : Primitives} `{Order : HashIter} `{Rocks : RocksDB} `{Codec : !BlockCodec}.
Context (cfg : CoreConfig) (L : level).
Implicit Types (s : Core) (e : Effect) (v : Vote) (t : Timeout) (r : Round) (b : Block).

(** ** The trace *)
Definition effects s : list Effect := map snd (co_trace s).
Definition emitted e s : Core := set_trace ((co_now s, e) :: co_trace s) s.
Definition emitted_all (es : list Effect) s : Core := foldl (fun s e => emitted e s) s es.

(** The blocks committed so far, oldest first. *)
Definition committed_of (es : list Effect) : list Block :=
  reverse (omap (fun e => match e with Ef_LogCommitted b => Some b | _ => None end) es).
Definition ledger s : list Block := committed_of (effects s).

(** [bs] hangs on the block with digest [d], each block on the one before. *)
Fixpoint chain (d : Digest) (bs : list Block) : Prop :=
  match bs with
  | [] => True
  | b :: bs' => blk_parent b = d /\ chain (digest b) bs'
  end.
Definition tip (d : Digest) (bs : list Block) : Digest :=
  match last bs with Some b => digest b | None => d end.

(** ** The protocol *)

(** Effects that need no further change of the state: a vote or timeout is sent
    only after it was created, and a proposal is requested only from a node that
    leads the round after the certificate's. *)
Definition allowed e s : Prop :=
  match e with
  | Ef_Broadcast _ (CM_QC _) => True
  | Ef_Broadcast _ (CM_Vote v) => Ef_LogVote v ∈ effects s
  | Ef_Broadcast _ (CM_Timeout t) => Ef_LogTimeout t ∈ effects s
  | Ef_Synchronizer _ => True
  | Ef_Proposer (PM_Propose trigger) =>
      get_leader (cc_leader_elector cfg) (u64_add (trigger_round trigger) 1) = Some (cc_name cfg) /\
      match trigger with PT_TC tc => TC_is_well_formed (cc_committee cfg) tc = Ok tt | PT_QC _ => True end
  | Ef_Proposer _ => True
  | _ => False
  end.

Inductive agg_step (a : Aggregator) : Aggregator -> Prop :=
| ags_normal v : agg_step a (add_normal_vote v a).1
| ags_commit v : agg_step a (add_commit_vote v a).1
| ags_timeout t : agg_step a (add_timeout t a).1
| ags_cleanup_prepares r : agg_step a (cleanup_prepares r a)
| ags_cleanup_timeouts r : agg_step a (cleanup_timeouts r a).

Definition rate_limited s (peer : PublicKey) : Prop :=
  exists synced_at, co_qc_syncs s !! peer = Some synced_at /\
    co_now s - synced_at < cc_timeout_delay cfg.

Inductive step : Core -> Core -> Prop :=
| st_emit e s : allowed e s -> step s (emitted e s)
| st_sync_requests x s : step s (set_sync_requests x s)
| st_committable d r s : step s (set_committable_blocks (<[d := r]> (co_committable_blocks s)) s)
| st_drop d s : step s (set_uncommitted_blocks (delete d (co_uncommitted_blocks s)) s)
| st_commit b bs s :
    chain (digest (co_last_commit s)) (bs ++ [b]) ->
    Forall (fun b' => blk_round (co_last_commit s) < blk_round b') (bs ++ [b]) ->
    step s (commit_cleanup b (emitted_all (concat (map (commit_effects cfg) (bs ++ [b]))) s))
| st_aggregator a s : agg_step (co_aggregator s) a -> step s (set_aggregator a s)
| st_qc qc s :
    co_uncommitted_qcs s !! qc_round qc = None ->
    step s (set_uncommitted_qcs (<[qc_round qc := qc]> (co_uncommitted_qcs s)) s)
| st_lock qc s : qc_round (co_locked s) < qc_round qc -> step s (set_locked qc s)
| st_round r s : co_round s < r -> step s (set_round r s)
| st_timer x s : step s (set_timer x s)
| st_vote_normal b s :
    co_pending_proposals s !! co_round s = Some (digest b) -> blk_round b = co_round s ->
    co_last_timeout s < blk_round b ->
    let v := Vote_new (cc_name cfg) (digest b) VT_Normal (blk_round b) (cc_bls_secret cfg) in
    step s (set_last_vote v (emitted (Ef_LogVote v) s))
| st_vote_commit d s :
    (forall v, Ef_LogVote v ∈ effects s -> vote_kind v = VT_Commit ->
       vote_round v < qc_round (co_locked s)) ->
    co_last_timeout s < qc_round (co_locked s) -> qc_blk_hash (co_locked s) = d ->
    let v := Vote_new (cc_name cfg) d VT_Commit (qc_round (co_locked s)) (cc_bls_secret cfg) in
    step s (emitted (Ef_LogVote v) s)
| st_wqc w s : L <> LVote -> wqc_round (co_high_wqc s) < wqc_round w -> step s (set_high_wqc w s)
| st_timeout t s :
    L <> LVote ->
    to_high_vote t = co_last_vote s -> to_high_qc t = co_locked s -> to_high_wqc t = co_high_wqc s ->
    to_author t = cc_name cfg ->
    step s (set_last_timeout (Z.max (to_round t) (co_last_timeout s)) (emitted (Ef_LogTimeout t) s))
| st_timeout_syncs x s :
    L <> LVote -> (L <> LAll -> co_timeout_syncs s ⊆ x) ->
    step s (set_timeout_syncs x s)
| st_sync_peer peer address s :
    L <> LVote ->
    ~ rate_limited s peer ->
    step s (set_qc_syncs (<[peer := co_now s]> (co_qc_syncs s))
              (emitted (Ef_SyncPeer peer address (CM_QC (co_locked s))) s))
| st_pending b s :
    L = LAll ->
    co_pending_proposals s !! blk_round b = None -> blk_round (co_last_commit s) < blk_round b ->
    step s (set_pending_proposals (<[blk_round b := digest b]> (co_pending_proposals s)) s)
| st_block b s :
    L = LAll ->
    blk_round (co_last_commit s) < blk_round b ->
    step s (set_uncommitted_blocks (<[digest b := b]> (co_uncommitted_blocks s)) s)
| st_store x s : L = LAll -> step s (set_store x s).

(** ** The invariant *)

(** What may be created after what, in a trace that has its newest entry
    first: no vote after a timeout of the same or a higher round, no two normal
    votes of one round for different blocks, commit votes in increasing rounds. *)
Definition entry_ok e (es : list Effect) : Prop :=
  match e with
  | Ef_LogVote v =>
      (forall t, Ef_LogTimeout t ∈ es -> to_round t < vote_round v) /\
      (forall v', Ef_LogVote v' ∈ es -> vote_kind v = VT_Normal -> vote_kind v' = VT_Normal ->
         vote_round v' = vote_round v -> vote_blk_hash v' = vote_blk_hash v) /\
      (forall v', Ef_LogVote v' ∈ es -> vote_kind v = VT_Commit -> vote_kind v' = VT_Commit ->
         vote_round v' < vote_round v)
  | Ef_Broadcast _ (CM_Vote v) => Ef_LogVote v ∈ es
  | Ef_Broadcast _ (CM_Timeout t) => Ef_LogTimeout t ∈ es
  | Ef_Broadcast _ (CM_QC _) => True
  | Ef_Broadcast _ _ | Ef_Send _ _ => False
  | _ => True
  end.
Fixpoint ordered (es : list Effect) : Prop :=
  match es with
  | [] => True
  | e :: es' => entry_ok e es' /\ ordered es'
  end.

(** A created normal vote is for the one proposal accepted in its round. *)
Definition vote_slot s v : Prop :=
  vote_round v <= blk_round (co_last_commit s) \/
  co_pending_proposals s !! vote_round v = Some (vote_blk_hash v).

(** A timeout reports a vote and a lock at least as high as any that the node
    creates for a round up to the timeout's. *)
Definition timeout_reports s t : Prop :=
  forall v, Ef_LogVote v ∈ effects s -> vote_round v <= to_round t ->
    match vote_kind v with
    | VT_Normal => vote_round v <= vote_round (to_high_vote t)
    | VT_Commit => vote_round v <= qc_round (to_high_qc t)
    end.

Record core_inv s : Prop := {
  ci_keyed : forall d b, co_uncommitted_blocks s !! d = Some b -> digest b = d;
  ci_last_commit : 0 <= blk_round (co_last_commit s);
  ci_round : 1 <= co_round s;
  ci_last_vote : vote_round (co_last_vote s) <= co_round s;
  ci_pending : forall r d, co_pending_proposals s !! r = Some d ->
    r = 0 \/ blk_round (co_last_commit s) < r;
  ci_normal : forall v, Ef_LogVote v ∈ effects s -> vote_kind v = VT_Normal ->
    vote_slot s v /\ vote_round v <= vote_round (co_last_vote s);
  ci_commit : forall v, Ef_LogVote v ∈ effects s -> vote_kind v = VT_Commit ->
    vote_round v <= qc_round (co_locked s);
  ci_timeout : forall t, Ef_LogTimeout t ∈ effects s ->
    to_round t <= co_last_timeout s /\ timeout_reports s t;
  ci_ordered : ordered (effects s);
  ci_chain : chain (digest Block_genesis) (ledger s);
  ci_tip : digest (co_last_commit s) = tip (digest Block_genesis) (ledger s);
}.

Lemma effects_emitted e s : effects (emitted e s) = e :: effects s.
Proof. done. Qed.
Lemma effects_emitted_all es s : effects (emitted_all es s) = reverse es ++ effects s.
Proof.
  revert s. induction es as [|e es IH]; intros s; [done|].
  unfold emitted_all in *. simpl. rewrite IH, reverse_cons, <-app_assoc. done.
Qed.
(** Appending to the trace changes nothing else. *)
Lemma emitted_all_frame es s :
  exists tr, emitted_all es s = set_trace tr s.
Proof.
  revert s. induction es as [|e es IH]; intros s; [by exists (co_trace s); destruct s|].
  unfold emitted_all in *. simpl. destruct (IH (emitted e s)) as [tr ->]. by exists tr.
Qed.

Lemma tip_cons d b bs : tip d (b :: bs) = tip (digest b) bs.
Proof. unfold tip. rewrite last_cons. by destruct (last bs). Qed.
Lemma chain_app d bs bs' : chain d (bs ++ bs') <-> chain d bs /\ chain (tip d bs) bs'.
Proof.
  revert d. induction bs as [|b bs IH]; intros d; simpl; [tauto|].
  rewrite IH, tip_cons. tauto.
Qed.
Lemma tip_snoc d bs b : tip d (bs ++ [b]) = digest b.
Proof. unfold tip. by rewrite last_snoc. Qed.

Lemma committed_of_app es es' : committed_of (es ++ es') = committed_of es' ++ committed_of es.
Proof. unfold committed_of. by rewrite omap_app, reverse_app. Qed.

(** The effects of a commit contain no vote or timeout and commit the blocks in
    order. *)
Lemma commit_effects_quiet bs e :
  e ∈ concat (map (commit_effects cfg) bs) ->
  match e with
  | Ef_LogCommitted _ | Ef_TxCommit _ | Ef_TxOutput _ | Ef_Mempool _ => True
  | _ => False
  end.
Proof.
  induction bs as [|b bs IH]; simpl; [set_solver|].
  intros [->|[He|He]%elem_of_app]%elem_of_cons; [done| |by apply IH].
  destruct (cc_consensus_only cfg); [set_solver|].
  rewrite !elem_of_cons, list_elem_of_fmap in He. destruct He as [->|[->|(c & -> & _)]]; done.
Qed.
Lemma committed_of_commit bs : committed_of (reverse (concat (map (commit_effects cfg) bs))) = bs.
Proof.
  unfold committed_of.
  assert (Hrev : forall es, omap (fun e => match e with Ef_LogCommitted b => Some b | _ => None end)
            (reverse es) = reverse (omap (fun e => match e with Ef_LogCommitted b => Some b | _ => None end) es)).
  { induction es as [|e es IH]; [done|]. rewrite reverse_cons, omap_app, IH. simpl.
    destruct e; simpl; rewrite ?app_nil_r, ?reverse_cons; done. }
  rewrite Hrev, reverse_involutive. clear Hrev. induction bs as [|b bs IH]; [done|].
  simpl. f_equal. rewrite omap_app, IH.
  destruct (cc_consensus_only cfg); [done|]. simpl.
  by induction (blk_payload b).
Qed.
Lemma ordered_quiet es es' :
  ordered es' ->
  (forall e, e ∈ es -> match e with
     | Ef_LogCommitted _ | Ef_TxCommit _ | Ef_TxOutput _ | Ef_Mempool _ => True | _ => False end) ->
  ordered (es ++ es').
Proof.
  intros Ho. induction es as [|e es IH]; intros He; [done|]. simpl. split.
  - specialize (He e). destruct e; try done; exfalso; by apply He; left.
  - apply IH. intros e' He'. apply He. by right.
Qed.

(** ** Every step preserves the invariant *)

(** An effect that is no creation and no commit leaves the invariant's view of
    the trace unchanged. *)
Lemma core_inv_emit e s :
  entry_ok e (effects s) ->
  match e with Ef_LogVote _ | Ef_LogTimeout _ | Ef_LogCommitted _ => False | _ => True end ->
  core_inv s -> core_inv (emitted e s).
Proof.
  intros Hok He Hinv.
  assert (Hv : forall v, Ef_LogVote v ∈ effects (emitted e s) -> Ef_LogVote v ∈ effects s).
  { intros v. rewrite effects_emitted, elem_of_cons. intros [<-|?]; done. }
  assert (Ht : forall t, Ef_LogTimeout t ∈ effects (emitted e s) -> Ef_LogTimeout t ∈ effects s).
  { intros t. rewrite effects_emitted, elem_of_cons. intros [<-|?]; done. }
  assert (Hl : ledger (emitted e s) = ledger s).
  { unfold ledger. rewrite effects_emitted. unfold committed_of. by destruct e. }
  destruct Hinv. split; rewrite ?Hl; try done.
  - intros v Hlog. exact (ci_normal0 v (Hv v Hlog)).
  - intros v Hlog. exact (ci_commit0 v (Hv v Hlog)).
  - intros t Hlog. destruct (ci_timeout0 t (Ht t Hlog)) as [Hle Hrep]. split; [done|].
    intros v Hlog'. exact (Hrep v (Hv v Hlog')).
Qed.

Lemma allowed_entry_ok e s : allowed e s -> entry_ok e (effects s).
Proof. destruct e as [| | |? []| | | | | | |]; simpl; done. Qed.

Lemma core_inv_commit b bs s :
  chain (digest (co_last_commit s)) (bs ++ [b]) ->
  Forall (fun b' => blk_round (co_last_commit s) < blk_round b') (bs ++ [b]) ->
  core_inv s ->
  core_inv (commit_cleanup b (emitted_all (concat (map (commit_effects cfg) (bs ++ [b]))) s)).
Proof.
  intros Hchain Hrounds Hinv. set (es := concat (map (commit_effects cfg) (bs ++ [b]))).
  destruct (emitted_all_frame es s) as [tr Hs].
  assert (Heff : effects (commit_cleanup b (emitted_all es s)) = reverse es ++ effects s)
    by apply effects_emitted_all.
  assert (Hq : forall e, e ∈ reverse es -> match e with
     | Ef_LogCommitted _ | Ef_TxCommit _ | Ef_TxOutput _ | Ef_Mempool _ => True | _ => False end).
  { intros e He. apply (commit_effects_quiet (bs ++ [b])). unfold es in He. by rewrite elem_of_reverse in He. }
  assert (Hlog : forall e, (match e with Ef_LogVote _ | Ef_LogTimeout _ => True | _ => False end) ->
            e ∈ reverse es ++ effects s -> e ∈ effects s).
  { intros e He. rewrite elem_of_app. intros [Hin|?]; [|done]. apply Hq in Hin. by destruct e. }
  assert (Hledger : ledger (commit_cleanup b (emitted_all es s)) = ledger s ++ (bs ++ [b])).
  { unfold ledger. rewrite Heff, committed_of_app. f_equal. apply committed_of_commit. }
  apply Forall_app in Hrounds as [_ [Hround _]%Forall_cons].
  pose proof (ci_last_commit _ Hinv). rewrite Hs in Heff, Hledger |- *. clearbody es.
  split; rewrite ?Hledger, ?Heff; simpl co_last_commit; simpl co_pending_proposals;
    simpl co_uncommitted_blocks; simpl co_last_vote; simpl co_locked; simpl co_last_timeout;
    simpl co_round.
  - intros d b' [Hd _]%map_lookup_filter_Some. by apply (ci_keyed _ Hinv).
  - lia.
  - apply Hinv.
  - apply Hinv.
  - intros r d [Hd Hr]%map_lookup_filter_Some. simpl in Hr. by right.
  - intros v Hv Hk. apply Hlog in Hv; [|done].
    destruct (ci_normal _ Hinv v Hv Hk) as [Hslot Hle]. split; [|done].
    unfold vote_slot in *. simpl. destruct (Z.le_gt_cases (vote_round v) (blk_round b)) as [|Hgt];
      [by left|right]. apply map_lookup_filter_Some. split; [|simpl; lia].
    destruct Hslot; [lia|done].
  - intros v Hv. apply Hlog in Hv; [|done]. by apply (ci_commit _ Hinv).
  - intros t Ht. apply Hlog in Ht; [|done].
    destruct (ci_timeout _ Hinv t Ht) as [Hle Hrep]. split; [done|].
    intros v Hv. rewrite Heff in Hv. apply Hlog in Hv; [|done]. by apply Hrep.
  - apply ordered_quiet; [apply (ci_ordered _ Hinv)|done].
  - apply chain_app. split; [apply (ci_chain _ Hinv)|]. by rewrite <-(ci_tip _ Hinv).
  - by rewrite app_assoc, tip_snoc.
Qed.

(** Creating a normal vote for the proposal pending in the current round. *)
Lemma core_inv_vote_normal b s :
  co_pending_proposals s !! co_round s = Some (digest b) -> blk_round b = co_round s ->
  co_last_timeout s < blk_round b -> core_inv s ->
  let v := Vote_new (cc_name cfg) (digest b) VT_Normal (blk_round b) (cc_bls_secret cfg) in
  core_inv (set_last_vote v (emitted (Ef_LogVote v) s)).
Proof.
  intros Hp Hr Ht Hinv v.
  assert (Hlc : blk_round (co_last_commit s) < co_round s).
  { pose proof (ci_round _ Hinv). destruct (ci_pending _ Hinv _ _ Hp); lia. }
  pose proof (ci_last_vote _ Hinv).
  split; try first [exact (ci_tip _ Hinv)|apply Hinv]; simpl.
  - lia.
  - intros v' [[= ->]|Hv']%elem_of_cons Hk; simpl.
    + split; [|done]. right. simpl. by rewrite Hr.
    + destruct (ci_normal _ Hinv v' Hv' Hk). split; [done|lia].
  - intros v' [[= ->]|Hv']%elem_of_cons Hk; [done|]. by apply (ci_commit _ Hinv).
  - intros t [|Hlog]%elem_of_cons; [done|]. destruct (ci_timeout _ Hinv t Hlog) as [Hle Hrep].
    split; [done|]. intros v' [[= ->]|Hv']%elem_of_cons Hround; [simpl in Hround; lia|by apply Hrep].
  - split; [split_and!|apply Hinv].
    + intros t Hlog. destruct (ci_timeout _ Hinv t Hlog). simpl. lia.
    + intros v' Hv' _ Hk Hround. destruct (ci_normal _ Hinv v' Hv' Hk) as [[Hslot|Hslot] _];
        simpl in *; [lia|]. rewrite Hround, Hr, Hp in Hslot. congruence.
    + done.
Qed.

Lemma core_inv_vote_commit d s :
  (forall v, Ef_LogVote v ∈ effects s -> vote_kind v = VT_Commit ->
     vote_round v < qc_round (co_locked s)) ->
  co_last_timeout s < qc_round (co_locked s) -> core_inv s ->
  core_inv (emitted (Ef_LogVote
    (Vote_new (cc_name cfg) d VT_Commit (qc_round (co_locked s)) (cc_bls_secret cfg))) s).
Proof.
  intros Hfresh Ht Hinv. set (v := Vote_new _ _ _ _ _).
  split; try first [exact (ci_tip _ Hinv)|apply Hinv]; simpl.
  - intros v' [[= ->]|Hv']%elem_of_cons Hk; [done|]. by apply (ci_normal _ Hinv).
  - intros v' [[= ->]|Hv']%elem_of_cons Hk; [done|]. by apply (ci_commit _ Hinv).
  - intros t [|Hlog]%elem_of_cons; [done|]. destruct (ci_timeout _ Hinv t Hlog) as [Hle Hrep].
    split; [done|]. intros v' [[= ->]|Hv']%elem_of_cons Hround; [simpl in Hround; lia|by apply Hrep].
  - split; [split_and!|apply Hinv].
    + intros t Hlog. destruct (ci_timeout _ Hinv t Hlog). simpl. lia.
    + done.
    + intros v' Hv' _ Hk. by apply Hfresh.
Qed.

Lemma core_inv_timeout t s :
  to_high_vote t = co_last_vote s -> to_high_qc t = co_locked s -> core_inv s ->
  core_inv (set_last_timeout (Z.max (to_round t) (co_last_timeout s)) (emitted (Ef_LogTimeout t) s)).
Proof.
  intros Hv Hq Hinv. split; try first [exact (ci_tip _ Hinv)|apply Hinv]; simpl.
  - intros v' [|Hv']%elem_of_cons Hk; [done|]. by apply (ci_normal _ Hinv).
  - intros v' [|Hv']%elem_of_cons Hk; [done|]. by apply (ci_commit _ Hinv).
  - intros t' [[= ->]|Hlog]%elem_of_cons.
    + split; [lia|]. intros v' [|Hv']%elem_of_cons Hround; [done|]. rewrite Hv, Hq.
      destruct (vote_kind v') eqn:Hk; [by apply (ci_commit _ Hinv)|].
      by destruct (ci_normal _ Hinv v' Hv' Hk).
    + destruct (ci_timeout _ Hinv t' Hlog) as [Hle Hrep]. split; [lia|].
      intros v' [|Hv']%elem_of_cons Hround; [done|]. by apply Hrep.
  - split; [done|apply Hinv].
Qed.

Lemma step_inv s s' : step s s' -> core_inv s -> core_inv s'.
Proof.
  intros Hstep Hinv. destruct Hstep.
  - apply core_inv_emit; [by apply allowed_entry_ok|by destruct e|done].
  - destruct Hinv. by split.
  - destruct Hinv. by split.
  - destruct Hinv. split; try done. simpl. intros d' b' [_ Hd]%lookup_delete_Some. by apply ci_keyed0.
  - by apply core_inv_commit.
  - destruct Hinv. by split.
  - destruct Hinv. by split.
  - destruct Hinv. split; try done. intros v Hv Hk. simpl. specialize (ci_commit0 v Hv Hk). lia.
  - destruct Hinv. split; simpl; try done; lia.
  - destruct Hinv. by split.
  - by apply core_inv_vote_normal.
  - by apply core_inv_vote_commit.
  - destruct Hinv. by split.
  - by apply core_inv_timeout.
  - destruct Hinv. by split.
  - assert (Hinv' : core_inv (emitted (Ef_SyncPeer peer address (CM_QC (co_locked s))) s))
      by (by apply core_inv_emit). destruct Hinv'. by split.
  - destruct Hinv. split; try done; simpl.
    + intros r d [[<- _]|[_ Hd]]%lookup_insert_Some; [by right|by apply (ci_pending0 r d)].
    + intros v Hv Hk. destruct (ci_normal0 v Hv Hk) as [Hslot Hle]. split; [|done].
      destruct Hslot as [Hslot|Hslot]; [by left|right]. simpl.
      apply lookup_insert_Some. right. split; [|done]. intros Heq.
      match goal with Hp : co_pending_proposals s !! blk_round b = None |- _ => rewrite Heq in Hp end.
      congruence.
  - destruct Hinv. split; try done; simpl.
    intros d b' [[<- <-]|[_ Hd]]%lookup_insert_Some; [done|by apply (ci_keyed0 d b')].
  - destruct Hinv. by split.
Qed.

Lemma steps_inv s s' : rtc step s s' -> core_inv s -> core_inv s'.
Proof. induction 1; [done|]. intros. eauto using step_inv. Qed.

Lemma core_inv_spawn st now : core_inv (Core_spawn cfg st now).
Proof.
  split; simpl; try lia; try done; try set_solver.
  - intros d b [<- <-]%lookup_singleton_Some. done.
  - intros r d [<- _]%lookup_singleton_Some. by left.
Qed.

(** ** The handlers make protocol steps *)
Definition Steps s s' : Prop := core_inv s -> rtc step s s'.

#[local] Instance Steps_preorder : PreOrder Steps.
Proof.
  split; [by intros s _|]. intros s1 s2 s3 H12 H23 Hinv. specialize (H12 Hinv).
  etrans; [exact H12|]. apply H23. by eapply steps_inv.
Qed.

Lemma step_Steps s s' : (core_inv s -> step s s') -> Steps s s'.
Proof. intros Hs Hinv. by apply rtc_once, Hs. Qed.

Lemma Steps_inv {A} (m : Exec Core ConsensusError A) s :
  (core_inv s -> step_in Steps m s) -> step_in Steps m s.
Proof. intros Hm Hinv. exact (Hm Hinv Hinv). Qed.

Lemma step_effects s s' : step s s' -> exists es, effects s' = es ++ effects s.
Proof.
  destruct 1; try (by exists []); try (eexists [_]; reflexivity).
  eexists. apply effects_emitted_all.
Qed.
Lemma steps_effects e s s' : rtc step s s' -> e ∈ effects s -> e ∈ effects s'.
Proof.
  induction 1 as [|s1 s2 s3 Hstep _ IH]; [done|]. intros He. apply IH.
  destruct (step_effects _ _ Hstep) as [es ->]. apply elem_of_app. by right.
Qed.

Abbreviation M := (Exec Core ConsensusError).

Lemma emit_steps e s : (core_inv s -> allowed e s) -> step_in Steps (emit e) s.
Proof. intros He. apply step_Steps. intros Hinv. by apply st_emit, He. Qed.
Lemma emit_keeps e : (forall s, allowed e s) -> keeps Steps (emit e).
Proof. intros He s. apply emit_steps. auto. Qed.

(** A step by [modify] that needs no guard, or one that the state provides. *)
Lemma modify_steps f s : (core_inv s -> step s (f s)) -> step_in Steps (modify f : M unit) s.
Proof. apply step_Steps. Qed.
Lemma modify_keeps f : (forall s, step s (f s)) -> keeps Steps (modify f : M unit).
Proof. intros Hf s. apply step_Steps. auto. Qed.

#[local] Hint Resolve modify_keeps emit_keeps : steps.
#[local] Hint Constructors step : steps.

Ltac keep :=
  repeat first
    [ solve [eauto with steps]
    | apply keeps_bind; [apply _| |intros ?]
    | apply keeps_ret; apply _ | apply keeps_gets; apply _ | apply keeps_fail; apply _
    | apply keeps_panic; apply _ | apply keeps_out_of_fuel; apply _ | apply keeps_lift; apply _
    | apply keeps_ensure; apply _ | apply keeps_assert; apply _ | apply keeps_expect; apply _
    | apply keeps_ignore
    | case_match ].

Lemma timer_reset_keeps : keeps Steps (timer_reset cfg).
Proof. apply modify_keeps. intros s. constructor. Qed.
Lemma broadcast_qc_keeps qc : keeps Steps (broadcast cfg (CM_QC qc)).
Proof. by apply emit_keeps. Qed.
Lemma send_tc_keeps tc p : keeps Steps (send_to cfg (CM_TC tc) p).
Proof. unfold send_to. simpl. keep. Qed.
Lemma leader_of_keeps r : keeps Steps (leader_of cfg r).
Proof. unfold leader_of. keep. Qed.
Lemma add_sync_request_keeps d : keeps Steps (add_sync_request d).
Proof. apply modify_keeps. constructor. Qed.
Lemma take_sync_request_keeps d : keeps Steps (take_sync_request d).
Proof. unfold take_sync_request. keep. Qed.
Lemma synchronizer_get_block_keeps d p resume :
  keeps Steps (synchronizer_get_block d p resume).
Proof. unfold synchronizer_get_block. keep. by apply emit_keeps. Qed.
#[local] Hint Resolve timer_reset_keeps broadcast_qc_keeps send_tc_keeps leader_of_keeps
  add_sync_request_keeps take_sync_request_keeps synchronizer_get_block_keeps : steps.

Lemma get_block_keeps d r : keeps Steps (get_block cfg d r).
Proof. unfold get_block. keep. Qed.
(** The loop of [have_all_ancestors], with its passes counted in unary. *)
Definition trace_ancestors (fuel : nat) (block : Block) : Block -> M bool :=
  Nat.iter fuel (trace_ancestors_pass block) (fun _ => out_of_fuel).
Lemma trace_ancestors_loop depth block :
  repeat_pow depth (trace_ancestors_pass block) (fun _ => out_of_fuel) = trace_ancestors (2 ^ depth) block.
Proof. apply repeat_pow_iter. Qed.

Lemma trace_ancestors_keeps fuel block b : keeps Steps (trace_ancestors fuel block b).
Proof.
  revert b. induction fuel as [|fuel IH]; intros b; [unfold trace_ancestors; simpl; keep|].
  change (keeps Steps (trace_ancestors_pass block (trace_ancestors fuel block) b)).
  unfold trace_ancestors_pass. keep.
Qed.
Lemma trace_ancestors_loop_keeps depth block b :
  keeps Steps (repeat_pow depth (trace_ancestors_pass block) (fun _ => out_of_fuel) b).
Proof. rewrite trace_ancestors_loop. apply trace_ancestors_keeps. Qed.
#[local] Hint Resolve get_block_keeps trace_ancestors_loop_keeps : steps.
Lemma have_all_ancestors_keeps block : keeps Steps (have_all_ancestors block).
Proof. unfold have_all_ancestors. keep. Qed.
#[local] Hint Resolve have_all_ancestors_keeps : steps.

(** The first loop of [commit] only drops uncommitted blocks; the stack it
    returns hangs on the last commit and ends with the block it started from. *)
Lemma collect_ancestors_spec fuel ancestor acc s s' o :
  core_inv s -> chain (digest ancestor) acc ->
  Forall (fun b => blk_round (co_last_commit s) < blk_round b) (ancestor :: acc) ->
  collect_ancestors fuel ancestor acc s = (s', o) ->
  rtc step s s' /\ co_last_commit s' = co_last_commit s /\
  forall bs, o = Ok bs ->
    chain (digest (co_last_commit s)) bs /\
    Forall (fun b => blk_round (co_last_commit s) < blk_round b) bs /\
    exists older, bs = older ++ ancestor :: acc.
Proof.
  revert ancestor acc s. induction fuel as [|fuel IH]; intros ancestor acc s Hinv Hch Hall.
  { by intros [= <- <-]. }
  cbn [collect_ancestors]. run. destruct (decide (blk_parent ancestor = digest (co_last_commit s))) as [Hp|Hp].
  { intros [= <- <-]. split_and!; [done..|]. intros bs [= <-]. split_and!; [done..|by exists []]. }
  run. destruct (co_uncommitted_blocks s !! blk_parent ancestor) as [parent|] eqn:Hparent;
    [|by intros [= <- <-]].
  runs. set (s1 := set_uncommitted_blocks (delete (blk_parent ancestor) (co_uncommitted_blocks s)) s).
  assert (Hstep : step s s1) by constructor.
  destruct (blk_round (co_last_commit s) <? blk_round parent) eqn:Hlt; cycle 1.
  { intros [= <- <-]. split_and!; [by apply rtc_once|done|done]. }
  run. pose proof (ci_keyed _ Hinv _ _ Hparent) as Hd. apply Z.ltb_lt in Hlt. intros Hrun.
  destruct (IH parent (ancestor :: acc) s1) as (Hrtc & Hlc & Hres);
    [by eapply step_inv|by split|by constructor|done|].
  split_and!; [by eapply rtc_l|done|].
  intros bs Hbs. destruct (Hres bs Hbs) as (? & ? & older & ->). split_and!; [done..|].
  exists (older ++ [parent]). by rewrite <-app_assoc.
Qed.

Lemma emit_all_run es s : emit_all es s = (emitted_all es s, Ok tt).
Proof. revert s. induction es as [|e es IH]; intros s; [done|]. apply IH. Qed.

Lemma commit_keeps block : keeps Steps (commit cfg block).
Proof.
  intros s. unfold commit. case_match; [by apply keeps_ret; apply _|]. apply step_in_gets.
  destruct (blk_round (co_last_commit s) <? blk_round block) eqn:Hlt;
    [apply Z.ltb_lt in Hlt|by intros _].
  intros Hinv. unfold step_in. runs.
  destruct (collect_ancestors (S (size (co_uncommitted_blocks s))) block [] s) as [s' o] eqn:Hrun.
  destruct (collect_ancestors_spec _ block [] s s' o Hinv I ltac:(by constructor) Hrun)
    as (Hrtc & Hlc & Hres).
  destruct o as [bs|e|msg|];
    [rewrite (run_bind _ _ _ _ _ Hrun)|by unfold mbind, exec_mbind, exec_bind; rewrite Hrun..].
  destruct (Hres bs eq_refl) as (Hch & Hall & older & ->).
  rewrite (run_bind _ _ _ _ _ (emit_all_run _ _)). simpl. eapply rtc_r; [exact Hrtc|].
  rewrite <-Hlc in Hch, Hall. by apply st_commit.
Qed.
#[local] Hint Resolve commit_keeps : steps.

Lemma try_commit_keeps block : keeps Steps (try_commit_or_sync_ancestor cfg block).
Proof. unfold try_commit_or_sync_ancestor. keep. Qed.
Lemma schedule_commit_keeps d r : keeps Steps (schedule_commit cfg d r).
Proof. unfold schedule_commit. keep. Qed.
#[local] Hint Resolve try_commit_keeps schedule_commit_keeps : steps.
Lemma handle_commit_qc_keeps qc : keeps Steps (handle_commit_qc cfg qc).
Proof.
  unfold handle_commit_qc. keep. apply modify_keeps. intros s. do 2 constructor.
Qed.
#[local] Hint Resolve handle_commit_qc_keeps : steps.

(** ** Storing a block *)
Section storing.
Context (HL : L = LAll).

Lemma update_pending_run block s :
  blk_round (co_last_commit s) < blk_round block ->
  exists s1, update_pending_proposals block s = (s1, Ok tt) /\
    co_last_commit s1 = co_last_commit s /\ Steps s s1.
Proof.
  intros Hlt. unfold update_pending_proposals. run. case_bool_decide as Hsome.
  - by exists s.
  - eexists. split; [reflexivity|]. split; [done|]. apply step_Steps. intros _.
    apply st_pending; [done|by apply eq_None_not_Some|done].
Qed.

Lemma store_block_keeps block : keeps Steps (store_block block).
Proof.
  intros s. unfold store_block. apply step_in_gets.
  destruct (blk_round (co_last_commit s) <? blk_round block) eqn:Hlt; [apply Z.ltb_lt in Hlt|by intros _].
  apply step_in_bind_run; [apply _|by intros _|]. intros a s0 [= <- <-] _.
  destruct (update_pending_run block s Hlt) as (s1 & Hrun & Hlc & Hs1).
  apply step_in_bind_run; [apply _|unfold step_in; by rewrite Hrun|].
  intros [] s' Hrun' _. rewrite Hrun in Hrun'. injection Hrun' as <-.
  apply step_in_bind_run; [apply _| |intros _ s' _ _; revert s'].
  - apply modify_steps. intros _. apply st_block; [done|by rewrite Hlc].
  - match goal with |- forall st, step_in _ ?m st => change (keeps Steps m) end.
    unfold observe_payload. keep. by apply emit_keeps.
Qed.
End storing.

(** ** Proposing *)
Lemma propose_if_leader_keeps r trigger :
  r = u64_add (trigger_round trigger) 1 ->
  match trigger with PT_TC tc => TC_is_well_formed (cc_committee cfg) tc = Ok tt | PT_QC _ => True end ->
  keeps Steps (propose_if_leader cfg r trigger).
Proof.
  intros -> Htc s. unfold propose_if_leader, leader_of.
  destruct (get_leader _ _) as [leader|] eqn:Hl; [|by intros _].
  apply step_in_bind_run; [apply _|by intros _|]. intros a s0 [= <- <-] _.
  case_decide as Hname; [|by intros _]. apply emit_steps. intros _. simpl. by rewrite Hname.
Qed.
Lemma propose_normal_keeps qc : keeps Steps (propose_normal cfg qc).
Proof. by apply propose_if_leader_keeps. Qed.
#[local] Hint Resolve propose_normal_keeps : steps.

(** ** The vote path *)
Lemma with_aggregator_keeps {A} (m : Exec Aggregator ConsensusError A) :
  (forall a, agg_step a (m a).1) -> keeps Steps (with_aggregator m).
Proof.
  intros Hm s. apply step_Steps. intros _. unfold with_aggregator, zoom.
  specialize (Hm (co_aggregator s)). destruct (m (co_aggregator s)). by apply st_aggregator.
Qed.

Section vote_path.
Context (handle_vote : Vote -> M unit).
Context (Hhv : forall v, keeps Steps (handle_vote v)).

(** The end of [send_vote], once the vote was created. *)
Definition cast_vote v : M unit :=
  _ ← ignore_err (handle_vote v); broadcast cfg (CM_Vote v).

Lemma cast_vote_steps v s :
  Ef_LogVote v ∈ effects s -> step_in Steps (cast_vote v) s.
Proof.
  intros Hlog. apply Steps_inv. intros Hinv.
  apply step_in_bind_run; [apply _|apply keeps_ignore, Hhv|].
  intros [] s' Hrun Hsteps. apply emit_steps. intros _. simpl.
  apply (steps_effects _ s); [by apply Hsteps|done].
Qed.

Lemma send_prepare_vote_steps b s :
  co_pending_proposals s !! co_round s = Some (digest b) -> blk_round b = co_round s ->
  co_last_timeout s < blk_round b ->
  step_in Steps (send_prepare_vote_with cfg handle_vote b) s.
Proof.
  intros Hp Hr Ht. set (v := Vote_new (cc_name cfg) (digest b) VT_Normal (blk_round b) (cc_bls_secret cfg)).
  apply step_in_run with (m' := cast_vote v) (s' := set_last_vote v (emitted (Ef_LogVote v) s));
    [apply _|reflexivity| |].
  - apply step_Steps. intros _. by apply (st_vote_normal b).
  - apply cast_vote_steps. left.
Qed.

Lemma try_vote_keeps : keeps Steps (try_vote_with cfg handle_vote).
Proof.
  intros s. apply Steps_inv. intros Hinv. unfold try_vote_with. do 2 apply step_in_gets.
  destruct (co_pending_proposals s !! co_round s) as [accepted|] eqn:Hp; [|by intros _].
  apply step_in_gets. destruct (co_uncommitted_blocks s !! accepted) as [b|] eqn:Hb; [|by intros _].
  pose proof (ci_keyed _ Hinv _ _ Hb) as <-.
  apply step_in_bind_run; [apply _|by intros _|]. intros a s0 [= <- <-] _. apply step_in_gets.
  destruct (Z.eqb_spec (co_round s) (blk_round b)) as [Hr|]; [|by intros _].
  unfold can_vote. destruct (Z.ltb_spec (co_last_timeout s) (blk_round b)); [|by intros _].
  by apply send_prepare_vote_steps.
Qed.
Hint Resolve try_vote_keeps : steps.

Lemma advance_to_round_keeps r : keeps Steps (advance_to_round_with cfg handle_vote r).
Proof.
  intros s. unfold advance_to_round_with. apply step_in_gets.
  destruct (Z.ltb_spec (co_round s) r) as [Hlt|]; [|by intros _].
  apply step_in_run with (m' := _ ← timer_reset cfg; try_vote_with cfg handle_vote)
    (s' := set_round r (emitted (Ef_Proposer (PM_Cleanup (u64_sub r 1))) s)); [apply _|reflexivity| |].
  - intros _. eapply rtc_l; [by apply (st_emit (Ef_Proposer (PM_Cleanup (u64_sub r 1))))|]. apply rtc_once. by apply st_round.
  - match goal with |- step_in _ ?m ?st => assert (Hk : keeps Steps m); [keep|apply Hk] end.
Qed.
Hint Resolve advance_to_round_keeps : steps.

Lemma lock_qc_keeps qc : keeps Steps (lock_qc_with cfg handle_vote qc).
Proof.
  intros s. apply Steps_inv. intros Hinv. unfold lock_qc_with. apply step_in_gets.
  destruct (Z.ltb_spec (qc_round (co_locked s)) (qc_round qc)) as [Hlt|]; [|by intros _].
  set (s1 := set_aggregator (cleanup_timeouts (qc_round qc) (co_aggregator s)) (set_locked qc s)).
  assert (Hs1 : Steps s s1).
  { intros _. eapply rtc_l; [by apply (st_lock qc)|]. apply rtc_once, st_aggregator. constructor. }
  destruct (Z.ltb_spec (co_last_timeout s) (qc_round qc)) as [Ht|Ht].
  - assert (Hfresh : forall v, Ef_LogVote v ∈ effects s -> vote_kind v = VT_Commit ->
              vote_round v < qc_round qc).
    { intros v Hv Hk. pose proof (ci_commit _ Hinv v Hv Hk). lia. }
    set (v := Vote_new (cc_name cfg) (qc_blk_hash qc) VT_Commit (qc_round qc) (cc_bls_secret cfg)).
    apply step_in_run with (m' := cast_vote v) (s' := emitted (Ef_LogVote v) s1);
      [apply _| | |apply cast_vote_steps; left].
    + runs. cbn [co_last_timeout set_aggregator set_locked]. rewrite (proj2 (Z.ltb_lt _ _) Ht). reflexivity.
    + etrans; [exact Hs1|]. apply step_Steps. intros _. by apply (st_vote_commit (qc_blk_hash qc)).
  - eapply step_in_run with (m' := mret tt) (s' := s1); [apply _| |done|by intros _].
    runs. cbn [co_last_timeout set_aggregator set_locked]. by rewrite (proj2 (Z.ltb_ge _ _) Ht).
Qed.
Hint Resolve lock_qc_keeps : steps.

Lemma handle_prepare_qc_keeps qc : keeps Steps (handle_prepare_qc_with cfg handle_vote qc).
Proof.
  intros s. unfold handle_prepare_qc_with. apply step_in_gets.
  case_bool_decide as Hsome; [by intros _|].
  apply step_in_bind_run; [apply _| |intros [] s' _ _; revert s'].
  - apply modify_steps. intros _. apply st_qc. by apply eq_None_not_Some.
  - match goal with |- forall st, step_in _ ?m st => change (keeps Steps m) end.
    keep.
Qed.
Hint Resolve handle_prepare_qc_keeps : steps.

Lemma handle_qc_keeps qc : keeps Steps (handle_qc_with cfg handle_vote qc).
Proof.
  intros s. unfold handle_qc_with. apply step_in_gets. case_match; [|by intros _].
  case_match; [apply handle_commit_qc_keeps|apply handle_prepare_qc_keeps].
Qed.
Hint Resolve handle_qc_keeps : steps.

Lemma handle_vote_body_keeps v : keeps Steps (handle_vote_body cfg handle_vote v).
Proof.
  intros s. unfold handle_vote_body. apply step_in_gets. case_match; [|by intros _].
  apply step_in_bind; [apply _| |intros qc _].
  - destruct (vote_kind v); apply with_aggregator_keeps; constructor.
  - destruct qc as [qc|]; [apply handle_qc_keeps|by intros _].
Qed.

End vote_path.

Lemma handle_vote_fuel_keeps fuel v : keeps Steps (handle_vote_fuel cfg fuel v).
Proof.
  revert v. induction fuel as [|fuel IH]; intros v;
    cbn [handle_vote_fuel]; [apply keeps_out_of_fuel, _|].
  by apply handle_vote_body_keeps.
Qed.
Lemma handle_vote_keeps v : keeps Steps (handle_vote cfg v).
Proof.
  intros s. pose proof (handle_vote_fuel_keeps (vote_fuel s) v s) as Hk.
  unfold step_in in *. unfold handle_vote. exact Hk.
Qed.
#[local] Hint Resolve handle_vote_keeps : steps.
Lemma handle_qc_top_keeps qc : keeps Steps (handle_qc cfg qc).
Proof. apply handle_qc_keeps, handle_vote_keeps. Qed.
Lemma advance_top_keeps r : keeps Steps (advance_to_round cfg r).
Proof. apply advance_to_round_keeps, handle_vote_keeps. Qed.
Lemma try_vote_top_keeps : keeps Steps (try_vote cfg).
Proof. apply try_vote_keeps, handle_vote_keeps. Qed.
#[local] Hint Resolve handle_qc_top_keeps advance_top_keeps try_vote_top_keeps : steps.

(** ** The timeout path *)
Section timeouts.
Context (HT : L <> LVote).

Lemma handle_wqc_keeps w : keeps Steps (handle_wqc w).
Proof.
  intros s. unfold handle_wqc. apply step_in_gets.
  destruct (Z.ltb_spec (wqc_round (co_high_wqc s)) (wqc_round w)); [|by intros _].
  apply modify_steps. intros _. by constructor.
Qed.

Lemma sync_peer_keeps peer : keeps Steps (sync_peer cfg peer).
Proof.
  intros s. unfold sync_peer. do 2 apply step_in_gets. case_match eqn:Hlimit; [by intros _|].
  destruct (consensus_address cfg peer) as [address|]; [|by intros _].
  apply step_in_run with (m' := mret tt)
    (s' := set_qc_syncs (<[peer := co_now s]> (co_qc_syncs s))
             (emitted (Ef_SyncPeer peer address (CM_QC (co_locked s))) s));
    [apply _|reflexivity| |by intros _].
  apply step_Steps. intros _. apply st_sync_peer; [done|]. intros (at_ & Hat & Hlt).
  rewrite Hat in Hlimit. apply Z.ltb_ge in Hlimit. lia.
Qed.
#[local] Hint Resolve handle_wqc_keeps sync_peer_keeps : steps.

Lemma propose_fallback_keeps tc :
  TC_is_well_formed (cc_committee cfg) tc = Ok tt -> keeps Steps (propose_fallback cfg tc).
Proof. intros Htc. by apply propose_if_leader_keeps. Qed.

Lemma Timeout_new_fields hv hq hw r author secret t :
  Timeout_new hv hq hw r author secret = Some t ->
  to_high_vote t = hv /\ to_high_qc t = hq /\ to_high_wqc t = hw /\ to_round t = r /\ to_author t = author.
Proof. unfold Timeout_new. by intros (sig & _ & [= <-])%bind_Some. Qed.

Section timeout_path.
Context (handle_timeout : Timeout -> M unit).
Context (Hht : forall t, keeps Steps (handle_timeout t)).
Hint Resolve Hht : steps.

Lemma send_timeout_keeps r : keeps Steps (send_timeout_with cfg handle_timeout r).
Proof.
  intros s. unfold send_timeout_with. apply step_in_gets. case_match; [by intros _|].
  destruct (Timeout_new (co_last_vote s) (co_locked s) (co_high_wqc s) r (cc_name cfg) (cc_secret cfg))
    as [t|] eqn:Ht; cycle 1.
  { unfold step_in, mbind, exec_mbind, exec_bind. rewrite Ht. by intros _. }
  destruct (Timeout_new_fields _ _ _ _ _ _ _ Ht) as (Hv & Hq & Hw & Hr & Ha).
  set (s1 := set_timeout_syncs ({[r]} ∪ co_timeout_syncs s)
               (set_last_timeout (Z.max (to_round t) (co_last_timeout s)) (emitted (Ef_LogTimeout t) s))).
  apply step_in_run with (s' := s1)
    (m' := _ ← timer_reset cfg; _ ← handle_timeout t; broadcast cfg (CM_Timeout t)); [apply _| | |].
  - unfold mbind at 1, exec_mbind, exec_bind. rewrite Ht. unfold s1. by rewrite Hr.
  - intros _. eapply rtc_l; [by apply (st_timeout t)|]. apply rtc_once, st_timeout_syncs; [done|].
    intros _. simpl. set_solver.
  - apply Steps_inv. intros Hinv. apply step_in_bind_run; [apply _|apply timer_reset_keeps|].
    intros [] s2 _ H12. apply step_in_bind_run; [apply _|apply Hht|].
    intros [] s3 _ H23. apply emit_steps. intros _. simpl. specialize (H12 Hinv).
    apply (steps_effects _ s1); [|left]. etrans; [exact H12|]. apply H23. by eapply steps_inv.
Qed.
Hint Resolve send_timeout_keeps : steps.

Lemma handle_tc_keeps tc : keeps Steps (handle_tc_with cfg handle_timeout tc).
Proof.
  intros s. unfold handle_tc_with. apply step_in_gets. case_match; [|by intros _]. revert s H.
  intros s _. revert s. match goal with |- forall st, step_in _ ?m st => change (keeps Steps m) end.
  do 2 (apply keeps_bind; [apply _|eauto with steps|intros _]).
  intros s. destruct (TC_is_well_formed (cc_committee cfg) tc) as [[]|e|msg|] eqn:Htc; try by intros _.
  apply step_in_run with (s' := s) (m' := _ ← propose_fallback cfg tc;
    next_leader ← leader_of cfg (u64_add (tc_round tc) 1);
    _ ← send_to cfg (CM_TC tc) next_leader;
    _ ← send_timeout_with cfg handle_timeout (tc_round tc);
    advance_to_round cfg (u64_add (tc_round tc) 1)); [apply _|reflexivity|done|].
  revert s. match goal with |- forall st, step_in _ ?m st => change (keeps Steps m) end.
  apply keeps_bind; [apply _|by apply propose_fallback_keeps|intros _]. keep.
Qed.
Hint Resolve handle_tc_keeps : steps.

Lemma handle_timeout_body_keeps t : keeps Steps (handle_timeout_body cfg handle_timeout t).
Proof.
  assert (Ha : keeps Steps (with_aggregator (add_timeout t))) by (apply with_aggregator_keeps; constructor).
  intros s. unfold handle_timeout_body. apply step_in_gets. case_match.
  { revert s H. intros s _. revert s.
    match goal with |- forall st, step_in _ ?m st => change (keeps Steps m) end. keep. }
  apply step_in_gets. case_match; [|apply send_timeout_keeps].
  apply step_in_bind; [apply _|apply handle_qc_top_keeps|intros _ _].
  apply step_in_bind; [apply _|apply Ha|intros [votes maybe_tc] _].
  case_match; [|by intros _]. apply step_in_bind; [apply _|apply send_timeout_keeps|intros _ _].
  case_match; [apply handle_tc_keeps|by intros _].
Qed.

End timeout_path.

Lemma handle_timeout_fuel_keeps fuel t : keeps Steps (handle_timeout_fuel cfg fuel t).
Proof.
  revert t. induction fuel as [|fuel IH]; intros t;
    cbn [handle_timeout_fuel]; [apply keeps_out_of_fuel, _|].
  by apply handle_timeout_body_keeps.
Qed.
Lemma handle_timeout_keeps t : keeps Steps (handle_timeout cfg t).
Proof. exact (handle_timeout_fuel_keeps timeout_fuel t). Qed.
Lemma send_timeout_top_keeps r : keeps Steps (send_timeout cfg r).
Proof. apply send_timeout_keeps, handle_timeout_keeps. Qed.
Lemma handle_tc_top_keeps tc : keeps Steps (handle_tc cfg tc).
Proof. apply handle_tc_keeps, handle_timeout_keeps. Qed.
#[local] Hint Resolve handle_timeout_keeps send_timeout_top_keeps handle_tc_top_keeps : steps.

End timeouts.

(** ** Proposals, blocks and the loop *)
Section blocks.
Context (HL : L = LAll).

Lemma level_timeouts : L <> LVote.
Proof. by rewrite HL. Qed.
#[local] Hint Resolve level_timeouts handle_wqc_keeps sync_peer_keeps handle_timeout_keeps
  send_timeout_top_keeps handle_tc_top_keeps : steps.

Lemma local_timeout_keeps : keeps Steps (local_timeout_round cfg).
Proof.
  unfold local_timeout_round. apply keeps_bind; [apply _| |intros _].
  - apply modify_keeps. intros s. apply st_timeout_syncs; [apply level_timeouts|by rewrite HL].
  - keep.
Qed.

Lemma can_accept_block_keeps block : keeps Steps (can_accept_block cfg block).
Proof. unfold can_accept_block. keep. Qed.
#[local] Hint Resolve can_accept_block_keeps store_block_keeps local_timeout_keeps : steps.

Lemma process_block_keeps block : keeps Steps (process_block cfg block).
Proof. unfold process_block. keep. Qed.
#[local] Hint Resolve process_block_keeps : steps.

Lemma handle_proposal_keeps p : keeps Steps (handle_proposal cfg p).
Proof.
  destruct p; cbn [handle_proposal].
  - unfold process_fallback_recovery_proposal. keep.
  - unfold process_normal_proposal. keep.
Qed.
Lemma handle_sync_response_keeps block : keeps Steps (handle_sync_response cfg block).
Proof. unfold handle_sync_response. keep. Qed.
Lemma handle_loopback_keeps block : keeps Steps (handle_synchronizer_loopback cfg block).
Proof. unfold handle_synchronizer_loopback. keep. Qed.
Lemma sanitize_certificate_keeps qc : keeps Steps (sanitize_certificate cfg qc).
Proof. unfold sanitize_certificate. keep. Qed.
#[local] Hint Resolve handle_proposal_keeps handle_sync_response_keeps handle_loopback_keeps
  sanitize_certificate_keeps : steps.

Lemma handle_event_keeps ev : keeps Steps (handle_event cfg ev).
Proof. destruct ev as [[]|p|b|]; cbn [handle_event handle_message]; keep. Qed.


End blocks.
End steps.

(** ** Reachable states *)
Section reachable.
Context `{Prim : Primitives} `{Order : HashIter} `{Rocks : RocksDB} `{Codec : !BlockCodec}.
Context (cfg : CoreConfig).
Implicit Types (s : Core).

Lemma boot_keeps : keeps (Steps cfg LAll) (boot cfg).
Proof.
  unfold boot. apply keeps_bind; [apply Steps_preorder|apply timer_reset_keeps|intros _].
  apply propose_normal_keeps.
Qed.

Lemma reachable_inv alive s : reachable cfg alive s -> core_inv s.
Proof.
  induction 1 as [st now|ev s Hs IH|s now Hs IH Hle|s command Hs IH].
  - eapply steps_inv; [apply boot_keeps|]; apply core_inv_spawn.
  - eapply steps_inv; [by apply handle_event_keeps|done].
  - destruct IH. by split.
  - eapply step_inv; [by apply (st_store cfg LAll)|done].
Qed.

(** C17: the consensus core refines the protocol: handling any event in any
    reachable state (every message, honest or not, every proposal, loopback and
    timer expiry), with whatever outcome, only makes steps of the protocol
    relation [step], whose guards allow a vote, a lock, a commit, a timeout or a
    proposal only under the protocol's conditions. *)
Theorem handle_event_refines ev s :
  reachable cfg true s -> rtc (step cfg LAll) s (handle_event cfg ev s).1.
Proof. intros Hs. apply handle_event_keeps; [done|]. by eapply reachable_inv. Qed.

End reachable.
