(* ===== verification/CoreProps.v ===== *)
(** * Properties of a consensus node

    Theorems about every reachable state of [Core], whatever messages it was
    sent: voting discipline, timeouts, the committed ledger, monotonicity,
    proposals and rate limiting. *)
From S2P Require Import Prelude Crypto Config BitVec DagMessages Messages Leader Store Proposer Synchronizer Mempool Aggregator Core CoreSteps.

Section props.
Context `{Prim : Primitives} `{Order : HashIter} `{Rocks : RocksDB} `{Codec : !BlockCodec}.
Context (cfg : CoreConfig).
Implicit Types (s : Core) (e : Effect) (v : Vote) (t : Timeout) (b : Block).

(** A message that the node sent to all its peers. *)
Definition broadcasts (m : ConsensusMessage) s : Prop :=
  exists addresses, Ef_Broadcast addresses m ∈ effects s.

(** ** What was sent had been created *)
Lemma ordered_entry e es :
  ordered es -> e ∈ es -> exists newer older, es = newer ++ e :: older /\ entry_ok e older.
Proof.
  induction es as [|e' es IH]; [set_solver|]. intros [He Ho] [->|Hin]%elem_of_cons.
  - by exists [], es.
  - destruct (IH Ho Hin) as (newer & older & -> & Hok). by exists (e' :: newer), older.
Qed.

Lemma sent_vote_logged s v :
  core_inv s -> broadcasts (CM_Vote v) s -> Ef_LogVote v ∈ effects s.
Proof.
  intros Hinv [addresses Hin].
  destruct (ordered_entry _ _ (ci_ordered _ Hinv) Hin) as (newer & older & -> & Hok).
  apply elem_of_app. right. by right.
Qed.
Lemma sent_timeout_logged s t :
  core_inv s -> broadcasts (CM_Timeout t) s -> Ef_LogTimeout t ∈ effects s.
Proof.
  intros Hinv [addresses Hin].
  destruct (ordered_entry _ _ (ci_ordered _ Hinv) Hin) as (newer & older & -> & Hok).
  apply elem_of_app. right. by right.
Qed.

Lemma ordered_normal es v v' :
  ordered es -> Ef_LogVote v ∈ es -> Ef_LogVote v' ∈ es ->
  vote_kind v = VT_Normal -> vote_kind v' = VT_Normal -> vote_round v = vote_round v' ->
  vote_blk_hash v = vote_blk_hash v'.
Proof.
  intros Ho Hv Hv' Hk Hk' Hr. induction es as [|e es IH]; [set_solver|]. destruct Ho as [He Ho].
  apply elem_of_cons in Hv as [<-|Hv], Hv' as [Hv'|Hv'].
  - congruence.
  - destruct He as (_ & He & _). symmetry. by apply He.
  - subst e. destruct He as (_ & He & _). by apply He.
  - by apply IH.
Qed.

Lemma ordered_commit es v v' :
  ordered es -> Ef_LogVote v ∈ es -> Ef_LogVote v' ∈ es ->
  vote_kind v = VT_Commit -> vote_kind v' = VT_Commit -> vote_round v = vote_round v' -> v = v'.
Proof.
  intros Ho Hv Hv' Hk Hk' Hr. induction es as [|e es IH]; [set_solver|]. destruct Ho as [He Ho].
  apply elem_of_cons in Hv as [<-|Hv], Hv' as [Hv'|Hv'].
  - congruence.
  - destruct He as (_ & _ & He). specialize (He v' Hv' Hk Hk'). lia.
  - subst e. destruct He as (_ & _ & He). specialize (He v Hv Hk' Hk). lia.
  - by apply IH.
Qed.

(** ** Voting discipline *)

(** C11: a node never equivocates: any two normal (prepare) votes it broadcasts
    for one round are for the same block, in every execution, whatever its
    peers, and the leaders, send it. *)
Theorem no_equivocation alive s v v' :
  reachable cfg alive s ->
  broadcasts (CM_Vote v) s -> broadcasts (CM_Vote v') s ->
  vote_kind v = VT_Normal -> vote_kind v' = VT_Normal -> vote_round v = vote_round v' ->
  vote_blk_hash v = vote_blk_hash v'.
Proof.
  intros Hs%reachable_inv Hv%sent_vote_logged Hv'%sent_vote_logged; [|done..].
  apply (ordered_normal (effects s)); [apply Hs|done..].
Qed.

(** C12: a node broadcasts at most one commit vote per round. *)
Theorem one_commit_vote_per_round alive s v v' :
  reachable cfg alive s ->
  broadcasts (CM_Vote v) s -> broadcasts (CM_Vote v') s ->
  vote_kind v = VT_Commit -> vote_kind v' = VT_Commit -> vote_round v = vote_round v' ->
  v = v'.
Proof.
  intros Hs%reachable_inv Hv%sent_vote_logged Hv'%sent_vote_logged; [|done..].
  apply (ordered_commit (effects s)); [apply Hs|done..].
Qed.

(** C13: once a node has signed a timeout for a round it signs no vote, normal or
    commit, for that round or a lower one. *)
Theorem no_vote_after_timeout alive s newer v older t :
  reachable cfg alive s ->
  effects s = newer ++ Ef_LogVote v :: older -> Ef_LogTimeout t ∈ older ->
  to_round t < vote_round v.
Proof.
  intros Hs%reachable_inv Heff Ht. pose proof (ci_ordered _ Hs) as Ho. rewrite Heff in Ho. clear Heff.
  induction newer as [|e newer IH]; simpl in Ho; [|by apply IH, Ho].
  destruct Ho as [(Hv & _) _]. by apply Hv.
Qed.

(** C14: a timeout reports everything the next leader must know: for any timeout
    and vote a node broadcasts, before or after, with the vote's round at most
    the timeout's, a normal vote is not above the high vote the timeout carries,
    and a commit vote is not above the round of the locked QC it carries. *)
Theorem timeout_reports_votes alive s t v :
  reachable cfg alive s ->
  broadcasts (CM_Timeout t) s -> broadcasts (CM_Vote v) s -> vote_round v <= to_round t ->
  match vote_kind v with
  | VT_Normal => vote_round v <= vote_round (to_high_vote t)
  | VT_Commit => vote_round v <= qc_round (to_high_qc t)
  end.
Proof.
  intros Hs%reachable_inv Ht%sent_timeout_logged Hv%sent_vote_logged Hr; [|done..].
  destruct (ci_timeout _ Hs t Ht) as [_ Hrep]. by apply Hrep.
Qed.

(** A node's commit vote is backed by its lock: from the moment it signs a
    commit vote its locked QC is of that round or a higher one. *)
Lemma commit_vote_locks alive s v :
  reachable cfg alive s -> broadcasts (CM_Vote v) s -> vote_kind v = VT_Commit ->
  vote_round v <= qc_round (co_locked s).
Proof.
  intros Hs%reachable_inv Hv%sent_vote_logged; [|done]. by apply (ci_commit _ Hs).
Qed.

(** ** The ledger *)
Lemma step_ledger s s' :
  step cfg LAll s s' -> core_inv s ->
  exists bs, ledger s' = ledger s ++ bs /\
    Forall (fun b => blk_round (co_last_commit s) < blk_round b) bs /\
    (bs = [] -> co_last_commit s' = co_last_commit s) /\
    (forall b, last bs = Some b -> co_last_commit s' = b).
Proof.
  intros Hstep Hinv. destruct Hstep;
    try (exists []; rewrite app_nil_r; split_and!; [reflexivity|constructor|done|done]).
  - exists []. rewrite app_nil_r. split_and!; [|constructor|done|done].
    unfold ledger. rewrite effects_emitted. unfold committed_of. by destruct e.
  - exists (bs ++ [b]). split_and!; [|done|by destruct bs|].
    + unfold ledger. change (effects (commit_cleanup b ?x)) with (effects x).
      rewrite effects_emitted_all, committed_of_app. f_equal. apply committed_of_commit.
    + intros b'. rewrite last_snoc. by intros [= <-].
Qed.

Lemma steps_ledger s s' :
  rtc (step cfg LAll) s s' -> core_inv s ->
  exists bs, ledger s' = ledger s ++ bs /\
    Forall (fun b => blk_round (co_last_commit s) < blk_round b) bs /\
    (bs = [] -> co_last_commit s' = co_last_commit s) /\
    (forall b, last bs = Some b -> co_last_commit s' = b).
Proof.
  induction 1 as [s|s1 s2 s3 Hstep _ IH]; intros Hinv.
  { exists []. rewrite app_nil_r. split_and!; [done|constructor|done|done]. }
  destruct (step_ledger _ _ Hstep Hinv) as (bs & Hl & Hall & Hnil & Hlast).
  destruct IH as (bs' & Hl' & Hall' & Hnil' & Hlast'); [by eapply step_inv|].
  assert (Hle : blk_round (co_last_commit s1) <= blk_round (co_last_commit s2)).
  { destruct (last bs) as [b|] eqn:Hb.
    - rewrite (Hlast b eq_refl). apply last_Some in Hb as [l ->].
      apply Forall_app in Hall as [_ [? _]%Forall_cons]. lia.
    - apply last_None in Hb. rewrite Hnil by done. lia. }
  exists (bs ++ bs'). split_and!.
  - by rewrite Hl', Hl, app_assoc.
  - apply Forall_app. split; [done|]. eapply Forall_impl; [exact Hall'|]. simpl. lia.
  - intros [-> ->]%app_eq_nil. rewrite Hnil', Hnil; done.
  - intros b Hb. rewrite last_app in Hb. destruct (last bs') as [b'|] eqn:Hb'.
    + injection Hb as ->. by apply Hlast'.
    + apply last_None in Hb' as ->. rewrite Hnil' by done. by apply Hlast.
Qed.

(** No committed block is of round 0. *)
Lemma reachable_ledger_rounds alive s :
  reachable cfg alive s -> Forall (fun b => 0 < blk_round b) (ledger s).
Proof.
  assert (Hext : forall s s', rtc (step cfg LAll) s s' -> core_inv s ->
            Forall (fun b => 0 < blk_round b) (ledger s) -> Forall (fun b => 0 < blk_round b) (ledger s')).
  { intros s1 s2 Hsteps Hinv Hr. destruct (steps_ledger _ _ Hsteps Hinv) as (bs & -> & Hall & _).
    apply Forall_app. split; [done|]. eapply Forall_impl; [exact Hall|]. simpl.
    pose proof (ci_last_commit _ Hinv). lia. }
  induction 1 as [st now|ev s0 Hs IH|s0 now Hs IH Hle|s0 command Hs IH]; [| |exact IH|exact IH].
  - eapply Hext; [apply boot_keeps, core_inv_spawn|apply core_inv_spawn|constructor].
  - eapply Hext; [apply (handle_event_keeps cfg LAll); [done|]|..|exact IH]; by eapply reachable_inv.
Qed.

(** C15: the blocks a node commits form one append-only hash chain: in every
    reachable state the ledger starts at the genesis block, each block's parent
    is the digest of the block before it, and the last one is [last_commit];
    handling any event only appends blocks, of rounds above the last commit. *)
Theorem ledger_append_only ev s :
  reachable cfg true s ->
  chain (digest Block_genesis) (ledger s) /\
  tip (digest Block_genesis) (ledger s) = digest (co_last_commit s) /\
  exists bs, ledger (handle_event cfg ev s).1 = ledger s ++ bs /\
    chain (digest (co_last_commit s)) bs /\
    Forall (fun b => blk_round (co_last_commit s) < blk_round b) bs.
Proof.
  intros Hs. pose proof (reachable_inv _ _ _ Hs) as Hinv.
  pose proof (handle_event_keeps cfg LAll eq_refl ev s Hinv) as Hsteps.
  pose proof (steps_inv _ _ _ _ Hsteps Hinv) as Hinv'.
  destruct (steps_ledger _ _ Hsteps Hinv) as (bs & Hl & Hall & _ & _).
  split; [apply (ci_chain _ Hinv)|]. split; [symmetry; apply (ci_tip _ Hinv)|]. exists bs. split_and!; [done| |done].
  pose proof (ci_chain _ Hinv') as Hch. rewrite Hl in Hch. apply chain_app in Hch as [_ Hch].
  by rewrite <-(ci_tip _ Hinv) in Hch.
Qed.

(** ** Monotonicity *)
Record progress s s' : Prop := {
  pg_round : co_round s <= co_round s';
  pg_last_commit : blk_round (co_last_commit s) <= blk_round (co_last_commit s');
  pg_locked : qc_round (co_locked s) <= qc_round (co_locked s');
  pg_high_wqc : wqc_round (co_high_wqc s) <= wqc_round (co_high_wqc s');
  pg_last_timeout : co_last_timeout s <= co_last_timeout s';
  pg_last_vote : vote_round (co_last_vote s) <= vote_round (co_last_vote s');
}.

#[local] Instance progress_preorder : PreOrder progress.
Proof. split; [intros s; split; lia|]. intros s1 s2 s3 [] []. split; lia. Qed.

Lemma step_progress s s' : step cfg LAll s s' -> core_inv s -> progress s s'.
Proof.
  intros Hstep Hinv. destruct Hstep; try (split; simpl; lia).
  - destruct (emitted_all_frame (concat (map (commit_effects cfg) (bs ++ [b]))) s) as [tr ->].
    match goal with Hr : Forall _ (bs ++ [b]) |- _ => apply Forall_app in Hr as [_ [? _]%Forall_cons] end. split; simpl; lia.
  - split; simpl; try lia. pose proof (ci_last_vote _ Hinv). lia.
Qed.

Lemma steps_progress s s' : rtc (step cfg LAll) s s' -> core_inv s -> progress s s'.
Proof.
  induction 1 as [s|s1 s2 s3 Hstep _ IH]; intros Hinv; [reflexivity|].
  etrans; [by apply step_progress|]. apply IH. by eapply step_inv.
Qed.

(** C20: the rounds a node remembers never go down: handling any event leaves the
    current round, the last committed round, the locked round, the highest weak
    certificate, the last timeout and the last vote at least as high as they
    were. *)
Theorem handle_event_progress ev s :
  reachable cfg true s -> progress s (handle_event cfg ev s).1.
Proof.
  intros Hs%reachable_inv. apply steps_progress; [|done]. by apply (handle_event_keeps cfg LAll).
Qed.

(** ** What may ever be emitted *)
Definition effect_ok e : Prop :=
  match e with
  | Ef_Proposer (PM_Propose trigger) =>
      get_leader (cc_leader_elector cfg) (u64_add (trigger_round trigger) 1) = Some (cc_name cfg) /\
      match trigger with PT_TC tc => TC_is_well_formed (cc_committee cfg) tc = Ok tt | PT_QC _ => True end
  | Ef_Broadcast _ m => is_sendable m = true
  | Ef_Send _ _ => False
  | Ef_SyncPeer _ _ m => exists qc, m = CM_QC qc
  | _ => True
  end.

Lemma step_effects_ok s s' :
  step cfg LAll s s' -> exists es, effects s' = es ++ effects s /\ Forall effect_ok es.
Proof.
  destruct 1; try (exists []; by split); try (eexists [_]; split; [reflexivity|by repeat constructor]).
  - exists [e]. split; [done|]. constructor; [|done].
    destruct e as [| | |? []| | |[]| | | |]; simpl in *; done.
  - eexists. split; [apply effects_emitted_all|]. apply Forall_reverse, Forall_forall.
    intros e He%commit_effects_quiet. by destruct e.
  - eexists [_]. split; [reflexivity|]. constructor; [by eexists|done].
Qed.

Lemma steps_effects_ok s s' :
  rtc (step cfg LAll) s s' -> Forall effect_ok (effects s) -> Forall effect_ok (effects s').
Proof.
  induction 1 as [|s1 s2 s3 Hstep _ IH]; [done|]. intros Hs. apply IH.
  destruct (step_effects_ok _ _ Hstep) as (es & -> & Hes). by apply Forall_app.
Qed.

Lemma reachable_effects_ok alive s : reachable cfg alive s -> Forall effect_ok (effects s).
Proof.
  induction 1 as [st now|ev s Hs IH|s now Hs IH Hle|s command Hs IH]; [| |done..].
  - eapply steps_effects_ok; [apply boot_keeps, core_inv_spawn|constructor].
  - eapply steps_effects_ok; [|exact IH]. apply (handle_event_keeps cfg LAll); [done|]. by eapply reachable_inv.
Qed.

(** A node asks its proposer for a proposal only when it leads the round
    after the certificate's, and on the basis of a timeout certificate only if
    that certificate passed [TC::is_well_formed]. *)
Lemma proposes_only_as_leader alive s trigger :
  reachable cfg alive s -> Ef_Proposer (PM_Propose trigger) ∈ effects s ->
  get_leader (cc_leader_elector cfg) (u64_add (trigger_round trigger) 1) = Some (cc_name cfg) /\
  match trigger with
  | PT_TC tc => TC_is_well_formed (cc_committee cfg) tc = Ok tt
  | PT_QC _ => True
  end.
Proof.
  intros Hs%reachable_effects_ok Hin. rewrite Forall_forall in Hs. exact (Hs _ Hin).
Qed.

(** No timeout certificate ever leaves the node: although [handle_tc] calls
    [send_to] to forward the TC to the next leader, [send_to] serializes it and
    then drops every message that is not a QC, a vote or a timeout. *)
Lemma tc_is_never_sent alive s tc :
  reachable cfg alive s ->
  ~ broadcasts (CM_TC tc) s /\
  (forall address, Ef_Send address (CM_TC tc) ∉ effects s) /\
  (forall peer address, Ef_SyncPeer peer address (CM_TC tc) ∉ effects s).
Proof.
  intros Hs%reachable_effects_ok. rewrite Forall_forall in Hs. split_and!.
  - by intros (addresses & Hin%Hs).
  - by intros address Hin%Hs.
  - intros peer address Hin%Hs. by destruct Hin.
Qed.

(** ** Rate limiting *)

(** Times are those of the node's clock, and the last service of each peer is
    remembered. *)
Record sync_limit s : Prop := {
  sl_now : forall at_ e, (at_, e) ∈ co_trace s -> at_ <= co_now s;
  sl_served : forall at_ peer address m, (at_, Ef_SyncPeer peer address m) ∈ co_trace s ->
    exists last, co_qc_syncs s !! peer = Some last /\ at_ <= last <= co_now s;
  sl_apart : forall newer older at1 at2 peer a1 a2 m1 m2,
    co_trace s = newer ++ (at2, Ef_SyncPeer peer a2 m2) :: older ->
    (at1, Ef_SyncPeer peer a1 m1) ∈ older -> cc_timeout_delay cfg <= at2 - at1;
}.

Lemma sync_limit_same s s' :
  co_trace s' = co_trace s -> co_qc_syncs s' = co_qc_syncs s -> co_now s <= co_now s' ->
  sync_limit s -> sync_limit s'.
Proof.
  intros Ht Hq Hn [H1 H2 H3]. split; rewrite ?Ht, ?Hq.
  - intros at_ e Hin. specialize (H1 at_ e Hin). lia.
  - intros at_ peer address m Hin. destruct (H2 _ _ _ _ Hin) as (last & ? & ?).
    exists last. split; [done|lia].
  - exact H3.
Qed.

Lemma sync_limit_emit e s :
  (forall peer address m, e <> Ef_SyncPeer peer address m) -> sync_limit s -> sync_limit (emitted e s).
Proof.
  intros He [H1 H2 H3]. split; simpl.
  - intros at_ e' [[= -> ->]|Hin]%elem_of_cons; [done|by apply (H1 _ e')].
  - intros at_ peer address m [[= -> <-]|Hin]%elem_of_cons; [by destruct (He peer address m)|].
    by apply (H2 _ _ address m).
  - intros newer older at1 at2 peer a1 a2 m1 m2 Heq Hin.
    destruct newer as [|x newer]; [injection Heq as _ -> _; by destruct (He peer a2 m2)|].
    injection Heq as _ Heq. by apply (H3 newer older at1 at2 peer a1 a2 m1 m2).
Qed.

Lemma sync_limit_emit_all es s :
  Forall (fun e => forall peer address m, e <> Ef_SyncPeer peer address m) es ->
  sync_limit s -> sync_limit (emitted_all es s).
Proof.
  intros Hes. revert s. induction Hes as [|e es He _ IH]; intros s Hs; [done|].
  unfold emitted_all in *. simpl. by apply IH, sync_limit_emit.
Qed.

Lemma sync_limit_serve peer address s :
  ~ rate_limited cfg s peer -> sync_limit s ->
  sync_limit (set_qc_syncs (<[peer := co_now s]> (co_qc_syncs s))
                (emitted (Ef_SyncPeer peer address (CM_QC (co_locked s))) s)).
Proof.
  intros Hfree [H1 H2 H3]. split; simpl.
  - intros at_ e' [[= -> ->]|Hin]%elem_of_cons; [done|by apply (H1 _ e')].
  - intros at_ peer' address' m [[= -> -> _ _]|Hin]%elem_of_cons.
    { exists (co_now s). by rewrite lookup_insert_eq. }
    destruct (decide (peer' = peer)) as [->|Hne].
    + exists (co_now s). rewrite lookup_insert_eq. split; [done|].
      specialize (H1 _ _ Hin). lia.
    + rewrite lookup_insert_ne by done. by apply (H2 _ _ address' m).
  - intros newer older at1 at2 peer' a1 a2 m1 m2 Heq Hin.
    destruct newer as [|x newer].
    + injection Heq as <- <- _ _ <-. destruct (H2 _ _ _ _ Hin) as (last & Hlast & Hle).
      destruct (decide (co_now s - last < cc_timeout_delay cfg)) as [Hlt|]; [|lia].
      destruct Hfree. by exists last.
    + injection Heq as _ Heq. by apply (H3 newer older at1 at2 peer' a1 a2 m1 m2).
Qed.

Lemma step_sync_limit s s' : step cfg LAll s s' -> sync_limit s -> sync_limit s'.
Proof.
  intros Hstep Hs. destruct Hstep; try (by apply (sync_limit_same s)).
  - apply sync_limit_emit; [|done]. by destruct e.
  - apply (sync_limit_same (emitted_all (concat (map (commit_effects cfg) (bs ++ [b]))) s)); [done..|].
    apply sync_limit_emit_all; [|done]. apply Forall_forall. intros e He%commit_effects_quiet.
    by destruct e.
  - apply (sync_limit_same (emitted (Ef_LogVote v) s)); [done..|]. by apply sync_limit_emit.
  - by apply sync_limit_emit.
  - apply (sync_limit_same (emitted (Ef_LogTimeout t) s)); [done..|]. by apply sync_limit_emit.
  - by apply sync_limit_serve.
Qed.

Lemma steps_sync_limit s s' : rtc (step cfg LAll) s s' -> sync_limit s -> sync_limit s'.
Proof. induction 1; eauto using step_sync_limit. Qed.

Lemma reachable_sync_limit alive s : reachable cfg alive s -> sync_limit s.
Proof.
  induction 1 as [st now|ev s Hs IH|s now Hs IH Hle|s command Hs IH].
  - eapply steps_sync_limit; [apply boot_keeps, core_inv_spawn|].
    split; simpl; [set_solver..|]. by intros [].
  - eapply steps_sync_limit; [|exact IH]. apply (handle_event_keeps cfg LAll); [done|]. by eapply reachable_inv.
  - by apply (sync_limit_same s).
  - by apply (sync_limit_same s).
Qed.

(** However many timeouts for old rounds a peer sends, the node serves it its
    locked QC at most once per [timeout_delay]: two services of one peer are at
    least that far apart. *)
Lemma sync_peer_rate_limited alive s newer older at1 at2 peer a1 a2 m1 m2 :
  reachable cfg alive s ->
  co_trace s = newer ++ (at2, Ef_SyncPeer peer a2 m2) :: older ->
  (at1, Ef_SyncPeer peer a1 m1) ∈ older ->
  cc_timeout_delay cfg <= at2 - at1.
Proof. intros Hs%reachable_sync_limit. by apply (sl_apart _ Hs). Qed.

(** ** A valid proposal gets a vote *)

(** The certificate was processed before, or is of no interest any more. *)
Definition qc_known s (qc : QC) : Prop :=
  qc_round qc <= blk_round (co_last_commit s) \/
  (qc_kind qc = VT_Normal /\ qc_fast_quorum qc = false /\ is_Some (co_uncommitted_qcs s !! qc_round qc)).

Lemma handle_known_qc s qc : qc_known s qc -> handle_qc cfg qc s = (s, Ok tt).
Proof.
  unfold handle_qc, handle_qc_with. run. intros [Hle|(Hk & Hf & Hq)].
  - by rewrite (proj2 (Z.ltb_ge _ _) Hle).
  - case_match; [|done]. rewrite bool_decide_false by congruence. rewrite Hf. simpl.
    unfold handle_prepare_qc_with. run. by rewrite bool_decide_true.
Qed.

(** The first valid proposal of the leader of the current round. *)
Record acceptable s b : Prop := {
  ac_round : blk_round b = co_round s;
  ac_recent : blk_round (co_last_commit s) < blk_round b;
  ac_first : co_pending_proposals s !! blk_round b = None;
  ac_uncertified : co_uncommitted_qcs s !! blk_round b = None;
  ac_not_committable : co_committable_blocks s !! digest b = None;
  ac_unrequested : digest b ∉ co_sync_requests s;
  ac_leader : get_leader (cc_leader_elector cfg) (blk_round b) = Some (blk_author b);
  ac_payload : cc_consensus_only cfg = true \/ mempool_verify (cc_committee cfg) b = Ok tt;
  ac_no_timeout : co_last_timeout s < blk_round b;
}.

Lemma can_accept_acceptable s b :
  acceptable s b ->
  can_accept_block cfg b s = (set_sync_requests (co_sync_requests s ∖ {[digest b]}) s, Ok true).
Proof.
  intros []. unfold can_accept_block. run. rewrite (proj2 (Z.leb_gt _ _)) by done.
  unfold take_sync_request.
  rewrite (run_bind _ _ _ (set_sync_requests (co_sync_requests s ∖ {[digest b]}) s) false);
    [|run; by rewrite bool_decide_false].
  cbv iota. runs. cbn [co_uncommitted_qcs set_sync_requests]. rewrite ac_uncertified0.
  unfold leader_of. rewrite ac_leader0. runs. rewrite bool_decide_true by done. runs.
  assert (Hpay : (if cc_consensus_only cfg then mret tt
                  else lift (mempool_verify (cc_committee cfg) b) : Exec Core ConsensusError unit) = mret tt).
  { destruct ac_payload0 as [->| ->]; [done|]. by destruct (cc_consensus_only cfg). }
  rewrite Hpay. runs. unfold is_non_equivocal_and_certifiable, gets. simpl.
  by rewrite bool_decide_true.
Qed.

(** The state in which the node votes for [b]. *)
Definition accepted_block s b : Core :=
  set_store (store_write (digest_bytes (digest b)) (block_encode b) (co_store s))
  (emitted (Ef_Proposer (PM_Observed (blk_payload b)))
  (set_uncommitted_blocks (<[digest b := b]> (co_uncommitted_blocks s))
  (set_pending_proposals (<[blk_round b := digest b]> (co_pending_proposals s)) s))).

Lemma store_block_acceptable s b :
  blk_round (co_last_commit s) < blk_round b -> co_pending_proposals s !! blk_round b = None ->
  store_block b s = (accepted_block s b, Ok tt).
Proof.
  intros Hlt Hp. unfold store_block. run. rewrite (proj2 (Z.ltb_lt _ _)) by done. run.
  rewrite (run_bind _ _ _ (set_pending_proposals (<[blk_round b := digest b]> (co_pending_proposals s)) s) tt);
    [done|].
  unfold update_pending_proposals. run. by rewrite bool_decide_false by (rewrite Hp; by intros []).
Qed.

(** The state in which the node has signed its vote for [b]. *)
Definition own_vote (kd : VoteType) b : Vote := Vote_new (cc_name cfg) (digest b) kd (blk_round b) (cc_bls_secret cfg).
Definition voted_state s b : Core :=
  let s2 := accepted_block (set_sync_requests (co_sync_requests s ∖ {[digest b]}) s) b in
  set_last_vote (own_vote VT_Normal b) (emitted (Ef_LogVote (own_vote VT_Normal b)) s2).

Lemma process_acceptable_run s b :
  acceptable s b -> process_block cfg b s = cast_vote cfg (handle_vote cfg) (own_vote VT_Normal b) (voted_state s b).
Proof.
  intros Hb. set (s2 := accepted_block (set_sync_requests (co_sync_requests s ∖ {[digest b]}) s) b).
  unfold process_block. rewrite (run_bind _ _ _ _ _ (can_accept_acceptable s b Hb)). cbv iota.
  rewrite (run_bind _ _ _ s2 tt); [|by apply store_block_acceptable; apply Hb].
  rewrite (run_bind _ _ _ s2 tt); cycle 1.
  { unfold try_commit_or_sync_ancestor. run.
    change (co_last_commit s2) with (co_last_commit s).
    rewrite (proj2 (Z.ltb_lt _ _)) by apply Hb. runs.
    change (co_committable_blocks s2) with (co_committable_blocks s).
    by rewrite (ac_not_committable _ _ Hb), bool_decide_false by (by intros []). }
  unfold try_vote, try_vote_with. runs. change (co_round s2) with (co_round s).
  change (co_pending_proposals s2) with (<[blk_round b := digest b]> (co_pending_proposals s)).
  rewrite <-(ac_round _ _ Hb), lookup_insert_eq. runs.
  change (co_uncommitted_blocks s2) with (<[digest b := b]> (co_uncommitted_blocks s)).
  rewrite lookup_insert_eq. runs. unfold can_vote.
  change (co_last_timeout s2) with (co_last_timeout s).
  rewrite Z.eqb_refl, (proj2 (Z.ltb_lt _ _)) by apply Hb.
  unfold send_prepare_vote_with, send_vote_with. fold (own_vote VT_Normal b).
  change (vote_kind (own_vote VT_Normal b)) with VT_Normal. rewrite decide_True by done. cbn [andb].
  unfold emit, cast_vote, voted_state, emitted. runs. cbv zeta. fold s2. reflexivity.
Qed.

Lemma process_acceptable s b :
  core_inv s -> acceptable s b ->
  Ef_LogVote (Vote_new (cc_name cfg) (digest b) VT_Normal (blk_round b) (cc_bls_secret cfg)) ∈
    effects (process_block cfg b s).1.
Proof.
  intros Hinv Hb. rewrite (process_acceptable_run s b Hb).
  set (s2 := accepted_block (set_sync_requests (co_sync_requests s ∖ {[digest b]}) s) b).
  apply (steps_effects cfg LAll _ (voted_state s b)); [|left].
  apply (cast_vote_steps cfg LAll (handle_vote cfg)); [apply handle_vote_keeps|left|].
  assert (Hs2 : core_inv s2).
  { eapply (steps_inv cfg LAll s); [|done]. eapply rtc_l; [apply st_sync_requests|].
    eapply rtc_l; [by apply (st_pending _ _ b); [|apply Hb..]|].
    eapply rtc_l; [by apply (st_block _ _ b); [|apply Hb]|].
    eapply rtc_l; [by apply (st_emit _ _ (Ef_Proposer (PM_Observed (blk_payload b))))|].
    by apply rtc_once, st_store. }
  eapply (step_inv cfg LAll s2); [|done]. apply (st_vote_normal cfg LAll b).
  - change (<[blk_round b := digest b]> (co_pending_proposals s) !! co_round s = Some (digest b)).
    rewrite <-(ac_round _ _ Hb). apply lookup_insert_eq.
  - apply Hb.
  - apply Hb.
Qed.

(** A well-formed proposal whose QC is known comes down to its block. *)
Lemma process_known_proposal s p :
  qc_known s (np_qc p) -> NormalProposal_is_well_formed (cc_committee cfg) p = Ok tt ->
  handle_proposal cfg (PM_N p) s = process_block cfg (np_block p) s.
Proof.
  intros Hqc Hwf. cbn [handle_proposal]. unfold process_normal_proposal.
  by rewrite (run_bind _ _ _ _ _ (handle_known_qc s _ Hqc)), Hwf.
Qed.

(** An honest leader's proposal gets the node's vote: a well-formed normal
    proposal of the leader of the node's current round, the first one for that
    round, whose QC the node has processed and for whose round it has not timed
    out, makes the node sign a normal vote for exactly that block and round. *)
Lemma votes_for_valid_proposal alive s p :
  reachable cfg alive s -> qc_known s (np_qc p) ->
  NormalProposal_is_well_formed (cc_committee cfg) p = Ok tt -> acceptable s (np_block p) ->
  Ef_LogVote (Vote_new (cc_name cfg) (digest (np_block p)) VT_Normal (blk_round (np_block p))
                (cc_bls_secret cfg)) ∈
    effects (handle_event cfg (Ev_Message (CM_Propose (PM_N p))) s).1.
Proof.
  intros Hs%reachable_inv Hqc Hwf Hb. cbn [handle_event handle_message].
  rewrite process_known_proposal by done. by apply process_acceptable.
Qed.

(** A timeout certificate that nobody signed, naming [parent]. *)
Definition forged_tc (parent : Digest) (r : Round) : TC :=
  mkTC (mkQC parent VT_Normal 0 ([], g1_default) false) WQC_genesis r [].

(** C23: a forged timeout certificate gets a vote: a node that is already in the
    round votes for the first fallback proposal of the round's leader on any
    parent whatsoever, with a TC without a single timeout, which
    [TC::is_well_formed] rejects: [handle_tc] verifies a TC only if it is of the
    current round or a later one, and [FallbackRecoveryProposal::is_well_formed]
    never does. *)
Theorem forged_tc_gets_vote alive s b :
  reachable cfg alive s -> acceptable s b -> Block_is_well_formed (cc_committee cfg) b = Ok tt ->
  0 < quorum_threshold (cc_committee cfg) ->
  let tc := forged_tc (blk_parent b) (u64_sub (blk_round b) 1) in
  TC_is_well_formed (cc_committee cfg) tc = Err CE_TCRequiresQuorum /\
  Ef_LogVote (Vote_new (cc_name cfg) (digest b) VT_Normal (blk_round b) (cc_bls_secret cfg)) ∈
    effects (handle_event cfg (Ev_Message (CM_Propose (PM_F (mkFallbackRecoveryProposal b tc)))) s).1.
Proof.
  intros Hs%reachable_inv Hb Hwf Hq tc. split.
  { unfold TC_is_well_formed. simpl. by rewrite (proj2 (Z.leb_gt _ _)). }
  cbn [handle_event handle_message handle_proposal]. unfold process_fallback_recovery_proposal.
  rewrite (run_bind _ _ _ s tt); cycle 1.
  { unfold handle_tc, handle_tc_with. run. rewrite (proj2 (Z.ltb_ge _ _)); [done|].
    cbn [fp_tc tc tc_round forged_tc]. rewrite <-(ac_round _ _ Hb).
    assert (1 <= blk_round b) by (rewrite (ac_round _ _ Hb); apply Hs).
    unfold u64_add, u64_sub, u64_wrap. rewrite Zplus_mod_idemp_l, Z.sub_add. apply Z.mod_le; lia. }
  assert (Hfp : FallbackRecoveryProposal_is_well_formed (cc_committee cfg)
                  (mkFallbackRecoveryProposal b tc) = Ok tt).
  { unfold FallbackRecoveryProposal_is_well_formed. cbn [fp_block fp_tc]. rewrite Hwf. simpl.
    rewrite Z.eqb_refl. simpl. by rewrite bool_decide_true. }
  rewrite Hfp. run. by apply process_acceptable.
Qed.

End props.
