(* ===== verification/CoreTermination.v ===== *)
(** * The handlers of the consensus core terminate

    The loops of [commit] and [have_all_ancestors] and the recursion of
    [handle_vote] and [handle_timeout] stop within the fuel the definitions
    give them, so that the outcome [OutOfFuel] does not occur, unless the parent
    links of the blocks that the node holds have a cycle. *)
From S2P Require Import Prelude Crypto Config BitVec DagMessages Messages Leader Store Proposer Synchronizer Mempool Aggregator Core CoreSteps.

Section termination.
Context `{Prim : Primitives} `{Order : HashIter} `{Rocks : RocksDB} `{Codec : !BlockCodec}.
Context (cfg : CoreConfig).
Implicit Types (s : Core) (v : Vote) (t : Timeout) (b : Block).

Abbreviation M := (Exec Core ConsensusError).

Definition halts {A} (m : M A) s : Prop := (m s).2 <> OutOfFuel.

Lemma halts_bind {A B} (m : M A) (k : A -> M B) s :
  halts m s -> (forall a s', m s = (s', Ok a) -> halts (k a) s') -> halts (m ≫= k) s.
Proof.
  unfold halts, mbind, exec_mbind, exec_bind. intros Hm Hk.
  destruct (m s) as [s' [a|e|msg|]]; simpl in *; [by apply Hk|done..].
Qed.
Lemma halts_gets {A B} (f : Core -> A) (k : A -> M B) s : halts (k (f s)) s -> halts (gets f ≫= k) s.
Proof. done. Qed.
Lemma halts_modify {B} f (k : unit -> M B) s : halts (k tt) (f s) -> halts (modify f ≫= k) s.
Proof. done. Qed.
Lemma halts_expect {A B} (o : option A) msg (k : A -> M B) s :
  (forall a, o = Some a -> halts (k a) s) -> halts (expect o msg ≫= k) s.
Proof. destruct o; [|done]. intros Hk. by apply Hk. Qed.
Lemma halts_assert {B} (c : bool) msg (k : unit -> M B) s :
  (c = true -> halts (k tt) s) -> halts (assert_that c msg ≫= k) s.
Proof. destruct c; [|done]. intros Hk. by apply Hk. Qed.
Lemma halts_ignore {A} (m : M A) s : halts m s -> halts (ignore_err m) s.
Proof. unfold halts, ignore_err. by destruct (m s) as [s' []]. Qed.

(** ** What the vote and timeout paths leave alone *)
Record frame s s' : Prop := {
  fr_store : co_store s' = co_store s;
  fr_blocks : co_uncommitted_blocks s' ⊆ co_uncommitted_blocks s;
  fr_pending : co_pending_proposals s' ⊆ co_pending_proposals s;
  fr_round : co_round s <= co_round s';
  fr_last_commit : blk_round (co_last_commit s) <= blk_round (co_last_commit s');
  fr_syncs : co_timeout_syncs s ⊆ co_timeout_syncs s';
}.
#[local] Instance frame_preorder : PreOrder frame.
Proof.
  split; [intros s; by split|]. intros s1 s2 s3 [] []. split; try lia; try congruence.
  - by etrans.
  - by etrans.
  - set_solver.
Qed.

Lemma step_frame L s s' : L <> LAll -> step cfg L s s' -> frame s s'.
Proof.
  intros HL Hstep. destruct Hstep; try done; try (by split).
  - split; try done. simpl. apply delete_subseteq.
  - destruct (emitted_all_frame (concat (map (commit_effects cfg) (bs ++ [b]))) s) as [tr ->].
    match goal with Hr : Forall _ (bs ++ [b]) |- _ => apply Forall_app in Hr as [_ [? _]%Forall_cons] end.
    split; simpl; [done|apply map_filter_subseteq|apply map_filter_subseteq|done|lia|done].
  - split; simpl; try done. lia.
  - split; simpl; try done; try lia. auto.
Qed.
Lemma steps_frame L s s' : L <> LAll -> rtc (step cfg L) s s' -> frame s s'.
Proof.
  intros HL. induction 1 as [|s1 s2 s3 Hstep _ IH]; [reflexivity|].
  etrans; [by eapply step_frame|done].
Qed.
Lemma steps_syncs s s' : rtc (step cfg LVote) s s' -> co_timeout_syncs s' = co_timeout_syncs s.
Proof.
  induction 1 as [|s1 s2 s3 Hstep _ IH]; [done|]. rewrite IH. clear IH. destruct Hstep; try done.
  destruct (emitted_all_frame (concat (map (commit_effects cfg) (bs ++ [b]))) s) as [tr ->]. done.
Qed.

(** ** Chains of blocks that go down *)

(** The block that the synchronizer reads from storage under [d]. *)
Definition stored (st : Store) (d : Digest) : option Block :=
  match sync_get_block d PublicKey_default None st with
  | Ok (Some b, _) => Some b
  | _ => None
  end.

(** Writing a block changes what is stored under its digest alone. *)
Lemma stored_write {DbLaws : RocksDBLaws} {CodecLaws : BlockCodecLaws} st b d :
  stored (store_write (digest_bytes (digest b)) (block_encode b) st) d = stored st d \/
  (d = digest b /\ stored (store_write (digest_bytes (digest b)) (block_encode b) st) d = Some b) \/
  d = qc_blk_hash QC_genesis.
Proof.
  unfold stored, sync_get_block. case_decide; [by right; right|].
  destruct (decide (digest_bytes (digest b) = digest_bytes d)) as [Heq|Hne];
    [|left; by rewrite store_read_write_ne].
  pose proof Heq as ->%digest_bytes_inj.
  destruct ((db_put (st_db st) (digest_bytes d) (block_encode b)).2) as [e|] eqn:Hput.
  - left. unfold store_read, store_write, store_handle.
    destruct (db_put (st_db st) (digest_bytes d) (block_encode b)) as [db o] eqn:Hdb. simpl in Hput. subst o.
    apply db_put_failed in Hdb as ->. by destruct (st_obligations st !! digest_bytes d).
  - right. left. split; [done|]. by rewrite store_read_write, block_decode_encode.
Qed.
Definition parent_of s b p : Prop :=
  co_uncommitted_blocks s !! blk_parent b = Some p \/ stored (co_store s) (blk_parent b) = Some p.
Definition known s b : Prop :=
  (exists d, co_uncommitted_blocks s !! d = Some b) \/ exists d, stored (co_store s) d = Some b.

(** The parent links that the node holds, from blocks above the last commit, have
    no cycle: the blocks can be ranked by at most as many ranks as there are
    digests.  A cycle would be a cycle of hashes. *)
Context (rank : Block -> Z) (Hrank : forall b, rank b < 2 ^ 256).
Definition links_ok s : Prop :=
  forall b p, known s b -> blk_round (co_last_commit s) < blk_round b -> parent_of s b p ->
  0 <= rank p < rank b.

Lemma known_frame s s' b : frame s s' -> known s' b -> known s b.
Proof.
  intros Hf [[d Hd]|[d Hd]]; [left|right]; exists d.
  - eapply lookup_weaken; [done|apply Hf].
  - by rewrite <-(fr_store _ _ Hf).
Qed.
Lemma links_frame s s' : frame s s' -> links_ok s -> links_ok s'.
Proof.
  intros Hf Hl b p Hb Hlt Hp. pose proof (fr_last_commit _ _ Hf).
  apply Hl; [by eapply known_frame|lia|]. destruct Hp as [Hp|Hp]; [left|right].
  - eapply lookup_weaken; [done|apply Hf].
  - by rewrite <-(fr_store _ _ Hf).
Qed.

(** The invariant the proofs below run in. *)
Record good s : Prop := { gd_inv : core_inv s; gd_links : links_ok s }.

Lemma good_keeps L {A} (m : M A) s s' a :
  L <> LAll -> keeps (Steps cfg L) m -> good s -> m s = (s', Ok a) -> frame s s' /\ good s'.
Proof.
  intros HL Hm [Hinv Hl] Hrun. specialize (Hm s Hinv). rewrite Hrun in Hm. simpl in Hm.
  pose proof (steps_frame _ _ _ HL Hm). split; [done|].
  split; [by eapply steps_inv|by eapply links_frame].
Qed.

(** ** The loops *)
Lemma get_block_result d p resume s b s' :
  synchronizer_get_block d p resume s = (s', Ok (Some b)) ->
  frame s s' /\ stored (co_store s) d = Some b /\ co_uncommitted_blocks s' = co_uncommitted_blocks s /\
  co_last_commit s' = co_last_commit s.
Proof.
  unfold synchronizer_get_block, stored, sync_get_block. run. intros Hrun.
  destruct (decide (d = qc_blk_hash QC_genesis)).
  { injection Hrun as <- <-. by split_and!. }
  destruct (store_read (digest_bytes d) (co_store s)) as [|[bytes|]]; try done.
  destruct (block_decode bytes); [|done]. injection Hrun as <- <-. by split_and!.
Qed.
Lemma get_block_halts d p resume s : halts (synchronizer_get_block d p resume) s.
Proof.
  unfold halts, synchronizer_get_block. run. unfold sync_get_block.
  destruct (decide _); [done|]. destruct (store_read _ _) as [|[bytes|]]; [done| |done].
  by destruct (block_decode bytes).
Qed.

Lemma trace_ancestors_halts fuel block b s :
  links_ok s -> known s b -> (Z.to_nat (rank b) < fuel)%nat ->
  blk_round (co_last_commit s) < blk_round b ->
  halts (trace_ancestors fuel block b) s.
Proof.
  revert b s. induction fuel as [|fuel IH]; intros b s Hl Hb Hfuel Hlt; [lia|].
  change (halts (trace_ancestors_pass block (trace_ancestors fuel block) b) s).
  unfold trace_ancestors_pass. apply halts_gets. apply halts_bind.
  { destruct (co_uncommitted_blocks s !! blk_parent b); [done|apply get_block_halts]. }
  intros maybe_parent s' Hrun.
  assert (Hp : forall p, maybe_parent = Some p ->
    links_ok s' /\ known s' p /\ parent_of s b p /\ co_last_commit s' = co_last_commit s).
  { intros p ->. destruct (co_uncommitted_blocks s !! blk_parent b) as [p'|] eqn:Hparent.
    - injection Hrun as <- <-. split_and!; [done|left; by eexists|by left|done].
    - destruct (get_block_result _ _ _ _ _ _ Hrun) as (Hf & Hst & Hub & Hlc).
      split_and!; [by eapply links_frame|right|by right|done].
      exists (blk_parent b). by rewrite (fr_store _ _ Hf). }
  apply halts_gets. destruct maybe_parent as [p|]; [|done].
  destruct (Hp p eq_refl) as (Hl' & Hknown & Hparent & Hlc). rewrite Hlc.
  destruct (blk_round p =? blk_round (co_last_commit s)); [done|].
  apply halts_assert. intros Hlt'%Z.ltb_lt. specialize (Hl b p Hb Hlt Hparent).
  apply IH; rewrite ?Hlc; [done..|lia|done].
Qed.

Lemma have_all_ancestors_halts block s :
  links_ok s -> known s block -> halts (have_all_ancestors block) s.
Proof.
  intros Hl Hb. unfold have_all_ancestors. apply halts_gets. case_match; [done|].
  apply halts_assert. intros Hlt%Z.ltb_lt. apply halts_gets, halts_assert. intros _.
  rewrite trace_ancestors_loop. apply trace_ancestors_halts; [done..| |done]. unfold ancestors_depth.
  apply below_pow. pose proof (Hrank block).
  pose proof (Z.pow_le_mono_r 2 256 (Z.of_nat (256 + Z.to_nat (blk_round block - blk_round (co_last_commit s))))). lia.
Qed.

Lemma collect_ancestors_halts fuel ancestor acc s :
  (size (co_uncommitted_blocks s) < fuel)%nat -> halts (collect_ancestors fuel ancestor acc) s.
Proof.
  revert ancestor acc s. induction fuel as [|fuel IH]; intros ancestor acc s Hfuel; [lia|].
  cbn [collect_ancestors]. apply halts_gets. case_decide; [done|].
  apply halts_gets, halts_expect. intros parent Hparent. apply halts_modify, halts_assert.
  intros _. apply IH. simpl. pose proof (map_size_delete (blk_parent ancestor) (co_uncommitted_blocks s)) as Hsz.
  rewrite Hparent in Hsz. assert (size (co_uncommitted_blocks s) <> 0%nat); [|lia].
  intros Hz%map_size_empty_inv. rewrite Hz in Hparent. by rewrite lookup_empty in Hparent.
Qed.

(** [commit] always stops, in any state. *)
Lemma commit_halts block s : halts (commit cfg block) s.
Proof.
  unfold commit. case_match; [done|]. apply halts_gets, halts_assert. intros _. apply halts_gets.
  apply halts_bind; [apply collect_ancestors_halts; lia|]. intros to_commit s' _.
  apply halts_bind; [|done]. unfold halts. by rewrite emit_all_run.
Qed.

Lemma schedule_commit_halts d r s : links_ok s -> halts (schedule_commit cfg d r) s.
Proof.
  intros Hl. unfold schedule_commit. apply halts_modify, halts_gets.
  destruct (_ !! d) as [block|] eqn:Hd; [|done]. apply halts_bind.
  - apply have_all_ancestors_halts; [exact Hl|]. left. by exists d.
  - intros [] s' _; [apply commit_halts|done].
Qed.

Lemma handle_commit_qc_halts qc s : links_ok s -> halts (handle_commit_qc cfg qc) s.
Proof.
  intros Hl. unfold handle_commit_qc. apply halts_gets. case_match; [done|].
  apply halts_bind; [by apply schedule_commit_halts|done].
Qed.

Lemma get_block_core_halts d r s : halts (get_block cfg d r) s.
Proof.
  unfold get_block. apply halts_gets. case_match; [|done]. apply halts_gets, halts_assert.
  intros _. unfold leader_of. apply halts_expect. intros p _. apply halts_gets. case_match; [done|].
  apply halts_bind; [apply get_block_halts|]. intros maybe_b s' _. by apply halts_assert.
Qed.

(** ** The vote path *)

(** The pending proposals that the node has not reached yet. *)
Definition ahead s : nat := size (filter (fun x => co_round s < x.1) (co_pending_proposals s)).

Lemma ahead_lookup s s' r d :
  frame s s' ->
  filter (fun x => co_round s' < x.1) (co_pending_proposals s') !! r = Some d ->
  filter (fun x => co_round s < x.1) (co_pending_proposals s) !! r = Some d /\ co_round s' < r.
Proof.
  intros Hf [Hd Hr]%map_lookup_filter_Some. simpl in Hr. split; [|done].
  apply map_lookup_filter_Some. pose proof (fr_round _ _ Hf). simpl. split; [|lia].
  eapply lookup_weaken; [done|apply Hf].
Qed.
Lemma ahead_frame s s' : frame s s' -> (ahead s' <= ahead s)%nat.
Proof.
  intros Hf. apply map_subseteq_size. apply map_subseteq_spec. intros r d Hd.
  by apply (ahead_lookup s s').
Qed.
(** Entering a round that has a pending proposal uses it up. *)
Lemma ahead_enter s s' d :
  frame s s' -> co_round s < co_round s' -> co_pending_proposals s' !! co_round s' = Some d ->
  (ahead s' < ahead s)%nat.
Proof.
  intros Hf Hr Hd. unfold ahead.
  set (m := filter (fun x => co_round s < x.1) (co_pending_proposals s)).
  assert (Hm : m !! co_round s' = Some d).
  { apply map_lookup_filter_Some. split; [|done]. eapply lookup_weaken; [done|apply Hf]. }
  assert (Hsz : size (delete (co_round s') m) = Nat.pred (size m)).
  { rewrite map_size_delete, Hm. done. }
  assert (size m <> 0%nat) by (intros Hz%map_size_empty_inv; rewrite Hz in Hm; by rewrite lookup_empty in Hm).
  apply Nat.le_lt_trans with (size (delete (co_round s') m)); [|lia].
  apply map_subseteq_size, map_subseteq_spec. intros r d' Hd'.
  destruct (ahead_lookup s s' r d' Hf Hd') as [Hin Hlt].
  apply lookup_delete_Some. split; [lia|done].
Qed.

Lemma good_step L s s' : L <> LAll -> step cfg L s s' -> good s -> good s' /\ frame s s'.
Proof.
  intros HL Hstep [Hinv Hl]. pose proof (step_frame _ _ _ HL Hstep).
  split; [split|done]; [by eapply step_inv|by eapply links_frame].
Qed.
Lemma good_steps L s s' : L <> LAll -> rtc (step cfg L) s s' -> good s -> good s' /\ frame s s'.
Proof.
  intros HL Hsteps [Hinv Hl]. pose proof (steps_frame _ _ _ HL Hsteps).
  split; [split|done]; [by eapply steps_inv|by eapply links_frame].
Qed.

Section vote_path.
Context (handle_vote : Vote -> M unit) (n : nat).
Context (Hkeeps : forall v, keeps (Steps cfg LVote) (handle_vote v)).
Context (Hhalts : forall v s, good s -> vote_kind v = VT_Commit \/ (ahead s < n)%nat ->
  halts (handle_vote v) s).

Lemma cast_vote_halts v s :
  good s -> vote_kind v = VT_Commit \/ (ahead s < n)%nat -> halts (cast_vote cfg handle_vote v) s.
Proof.
  intros Hs Hv. unfold cast_vote. apply halts_bind; [by apply halts_ignore, Hhalts|done].
Qed.

Lemma try_vote_halts s :
  good s -> (forall d, co_pending_proposals s !! co_round s = Some d -> (ahead s < n)%nat) ->
  halts (try_vote_with cfg handle_vote) s.
Proof.
  intros Hs Ha. unfold try_vote_with. do 2 apply halts_gets.
  destruct (co_pending_proposals s !! co_round s) as [d|] eqn:Hp; [|done]. specialize (Ha d eq_refl).
  apply halts_gets, halts_expect. intros b Hb. apply halts_gets.
  pose proof (ci_keyed _ (gd_inv _ Hs) _ _ Hb) as <-.
  destruct (Z.eqb_spec (co_round s) (blk_round b)) as [Hr|]; [|done].
  destruct (can_vote s b) eqn:Ht; [|done]. apply Z.ltb_lt in Ht.
  destruct (good_step LVote _ _ ltac:(done) (st_vote_normal cfg LVote b s Hp (eq_sym Hr) Ht) Hs) as [Hs1 _].
  apply (cast_vote_halts _ _ Hs1). right. exact Ha.
Qed.

Lemma advance_halts r s :
  good s -> (ahead s <= n)%nat -> halts (advance_to_round_with cfg handle_vote r) s.
Proof.
  intros Hs Ha. unfold advance_to_round_with. apply halts_gets.
  destruct (Z.ltb_spec (co_round s) r) as [Hlt|]; [|done].
  set (s0 := emitted (Ef_Proposer (PM_Cleanup (u64_sub r 1))) s).
  assert (H0 : step cfg LVote s s0) by by apply st_emit.
  assert (H1 : step cfg LVote s0 (set_round r s0)) by by apply st_round.
  set (s2 := set_timer (co_now s + cc_timeout_delay cfg) (set_round r s0)).
  assert (H2 : step cfg LVote (set_round r s0) s2) by constructor.
  destruct (good_steps LVote s s2 ltac:(done)) as [Hs2 Hf]; [|done|].
  { eapply rtc_l; [exact H0|]. eapply rtc_l; [exact H1|]. by apply rtc_once. }
  change (halts (try_vote_with cfg handle_vote) s2). apply try_vote_halts; [done|].
  intros d Hd. pose proof (ahead_enter s s2 d Hf Hlt Hd). lia.
Qed.

Lemma lock_qc_halts qc s : good s -> halts (lock_qc_with cfg handle_vote qc) s.
Proof.
  intros Hs. unfold lock_qc_with. apply halts_gets.
  destruct (Z.ltb_spec (qc_round (co_locked s)) (qc_round qc)) as [Hlt|]; [|done].
  apply halts_modify, halts_modify, halts_gets. cbn [co_last_timeout set_aggregator set_locked].
  destruct (Z.ltb_spec (co_last_timeout s) (qc_round qc)) as [Ht|]; [|done].
  set (s1 := set_aggregator _ (set_locked qc s)).
  set (v := Vote_new (cc_name cfg) (qc_blk_hash qc) VT_Commit (qc_round qc) (cc_bls_secret cfg)).
  destruct (good_steps LVote s (emitted (Ef_LogVote v) s1) ltac:(done)) as [Hs1 _]; [|done|].
  - eapply rtc_l; [by apply (st_lock _ _ qc)|]. eapply rtc_l;
      [apply (st_aggregator cfg LVote (cleanup_timeouts (qc_round qc) (co_aggregator s))); constructor|].
    apply rtc_once. apply (st_vote_commit cfg LVote (qc_blk_hash qc) s1); [|done..].
    intros v' Hv' Hk. pose proof (ci_commit _ (gd_inv _ Hs) v' Hv' Hk). simpl. lia.
  - apply (cast_vote_halts _ _ Hs1). by left.
Qed.

Lemma handle_prepare_qc_halts qc s :
  good s -> (ahead s <= n)%nat -> halts (handle_prepare_qc_with cfg handle_vote qc) s.
Proof.
  intros Hs Ha. unfold handle_prepare_qc_with. apply halts_gets.
  case_bool_decide as Hq; [done|]. apply halts_modify, halts_gets.
  set (s1 := set_uncommitted_qcs _ s).
  destruct (good_step LVote s s1 ltac:(done)) as [Hs1 Hf1]; [|done|].
  { apply st_qc. by apply eq_None_not_Some. }
  apply halts_bind.
  { case_match; [|done]. unfold propose_normal, propose_if_leader, leader_of.
    apply halts_expect. intros leader _. by case_decide. }
  intros [] s2 Hrun2.
  assert (Hk2 : forall c : bool, keeps (Steps cfg LVote) (if c then propose_normal cfg qc else mret tt)).
  { intros []; [apply propose_normal_keeps|by intros s0 _]. }
  destruct (good_keeps LVote _ _ _ _ ltac:(done) (Hk2 _) Hs1 Hrun2) as [Hf2 Hs2].
  apply halts_bind; [by apply lock_qc_halts|]. intros [] s3 Hrun3.
  destruct (good_keeps LVote _ _ _ _ ltac:(done) (lock_qc_keeps cfg LVote _ Hkeeps qc) Hs2 Hrun3) as [Hf3 Hs3].
  apply halts_bind; [apply get_block_core_halts|]. intros a s4 Hrun4.
  destruct (good_keeps LVote _ _ _ _ ltac:(done) (get_block_keeps cfg LVote _ _) Hs3 Hrun4) as [Hf4 Hs4].
  apply halts_bind; [done|]. intros [] s5 Hrun5.
  destruct (good_keeps LVote _ _ _ _ ltac:(done) (broadcast_qc_keeps cfg LVote qc) Hs4 Hrun5) as [Hf5 Hs5].
  apply advance_halts; [done|]. etrans; [|exact Ha].
  etrans; [apply ahead_frame, Hf5|]. etrans; [apply ahead_frame, Hf4|].
  etrans; [apply ahead_frame, Hf3|]. etrans; [apply ahead_frame, Hf2|apply ahead_frame, Hf1].
Qed.

Lemma handle_qc_halts qc s :
  good s -> (ahead s <= n)%nat -> halts (handle_qc_with cfg handle_vote qc) s.
Proof.
  intros Hs Ha. unfold handle_qc_with. apply halts_gets. case_match; [|done].
  case_match; [apply handle_commit_qc_halts, Hs|by apply handle_prepare_qc_halts].
Qed.

End vote_path.

Lemma with_aggregator_ends {A} (P : A -> Prop) (m : Exec Aggregator ConsensusError A) :
  ends P m -> ends P (with_aggregator m).
Proof. apply ends_zoom. Qed.
Lemma ends_halts {A} (P : A -> Prop) (m : M A) s :
  ends P m -> halts m s /\ forall a s', m s = (s', Ok a) -> P a.
Proof.
  intros Hm. specialize (Hm s). unfold halts. split.
  - destruct (m s) as [s' []]; simpl in *; done.
  - intros a s' Hrun. by rewrite Hrun in Hm.
Qed.

Lemma handle_vote_fuel_halts fuel v s :
  good s -> (vote_kind v = VT_Commit -> 1 <= fuel)%nat ->
  (vote_kind v = VT_Normal -> ahead s + 2 <= fuel)%nat -> halts (handle_vote_fuel cfg fuel v) s.
Proof.
  revert v s. induction fuel as [|fuel IH]; intros v s Hs Hc Hn.
  { destruct (vote_kind v); [specialize (Hc eq_refl)|specialize (Hn eq_refl)]; lia. }
  cbn [handle_vote_fuel]. unfold handle_vote_body. apply halts_gets. case_match; [|done].
  destruct (vote_kind v) eqn:Hk.
  - destruct (ends_halts (qc_of v) (with_aggregator (add_commit_vote v)) s) as [Hh Hof].
    { apply with_aggregator_ends, add_commit_vote_ends. }
    apply halts_bind; [done|]. intros qc s1 Hrun1. specialize (Hof _ _ Hrun1).
    destruct qc as [qc|]; [|done]. destruct (Hof qc eq_refl) as (Hkind & _).
    destruct (good_keeps LVote _ _ _ _ ltac:(done)
      (with_aggregator_keeps cfg LVote (add_commit_vote v) ltac:(constructor)) Hs Hrun1) as [_ Hs1].
    unfold handle_qc_with. apply halts_gets. case_match; [|done].
    rewrite bool_decide_true by congruence. simpl. apply handle_commit_qc_halts, Hs1.
  - specialize (Hn eq_refl).
    destruct (ends_halts (qc_of v) (with_aggregator (add_normal_vote v)) s) as [Hh Hof].
    { apply with_aggregator_ends, add_normal_vote_ends. }
    apply halts_bind; [done|]. intros qc s1 Hrun1. destruct qc as [qc|]; [|done].
    destruct (good_keeps LVote _ _ _ _ ltac:(done)
      (with_aggregator_keeps cfg LVote (add_normal_vote v) ltac:(constructor)) Hs Hrun1) as [Hf1 Hs1].
    apply (handle_qc_halts _ (ahead s)); [| |done|by apply ahead_frame].
    + intros v'. apply handle_vote_fuel_keeps.
    + intros v' s' Hs' Hv'. apply IH; [done|intros; lia|].
      intros Hk'. destruct Hv' as [|Hv']; [congruence|lia].
Qed.

Lemma handle_vote_halts v s : good s -> halts (handle_vote cfg v) s.
Proof.
  intros Hs. pose proof (handle_vote_fuel_halts (vote_fuel s) v s Hs) as Hh.
  unfold halts in *. unfold handle_vote. apply Hh; unfold vote_fuel, ahead; lia.
Qed.

Lemma handle_qc_top_halts qc s : good s -> halts (handle_qc cfg qc) s.
Proof.
  intros Hs. apply (handle_qc_halts _ (ahead s)); [apply handle_vote_keeps|..|done|done].
  intros v s' Hs' _. by apply handle_vote_halts.
Qed.
Lemma advance_top_halts r s : good s -> halts (advance_to_round cfg r) s.
Proof.
  intros Hs. apply (advance_halts _ (ahead s)); [..|done|done].
  intros v s' Hs' _. by apply handle_vote_halts.
Qed.
Lemma try_vote_top_halts s : good s -> halts (try_vote cfg) s.
Proof.
  intros Hs. apply (try_vote_halts _ (S (ahead s))); [..|done|intros; lia].
  intros v s' Hs' _. by apply handle_vote_halts.
Qed.

(** ** The timeout path *)
Lemma handle_qc_frame qc s s' :
  good s -> handle_qc cfg qc s = (s', Ok tt) ->
  frame s s' /\ good s' /\ co_timeout_syncs s' = co_timeout_syncs s.
Proof.
  intros Hs Hrun. destruct (good_keeps LVote _ _ _ _ ltac:(done) (handle_qc_top_keeps cfg LVote qc) Hs Hrun).
  split_and!; [done..|]. pose proof (handle_qc_top_keeps cfg LVote qc s (gd_inv _ Hs)) as Hr.
  rewrite Hrun in Hr. by apply steps_syncs in Hr.
Qed.

Section send_timeout.
Context (ht : Timeout -> M unit).

(** A timeout that was already created is not created again. *)
Lemma send_timeout_known r s : r ∈ co_timeout_syncs s -> halts (send_timeout_with cfg ht r) s.
Proof. intros Hr. unfold send_timeout_with. apply halts_gets. by rewrite bool_decide_true. Qed.

Lemma send_timeout_halts r s :
  good s ->
  (forall t s', good s' -> to_round t = r -> r ∈ co_timeout_syncs s' -> co_round s' = co_round s ->
     halts (ht t) s') ->
  halts (send_timeout_with cfg ht r) s.
Proof.
  intros Hs Hh. unfold send_timeout_with. apply halts_gets. case_bool_decide as Hr; [done|].
  destruct (Timeout_new (co_last_vote s) (co_locked s) (co_high_wqc s) r (cc_name cfg) (cc_secret cfg))
    as [t|] eqn:Ht; cycle 1.
  { unfold halts, mbind, exec_mbind, exec_bind. by rewrite Ht. }
  destruct (Timeout_new_fields _ _ _ _ _ _ _ Ht) as (Hv & Hq & Hw & Htr & Ha).
  set (s1 := set_timer (co_now s + cc_timeout_delay cfg)
               (set_timeout_syncs ({[r]} ∪ co_timeout_syncs s)
                 (set_last_timeout (Z.max (to_round t) (co_last_timeout s)) (emitted (Ef_LogTimeout t) s)))).
  assert (Hs1 : good s1).
  { apply (good_steps LTimeout s s1 ltac:(done)); [|done].
    eapply rtc_l; [by apply (st_timeout cfg LTimeout t)|].
    eapply rtc_l; [apply st_timeout_syncs; [done|]|apply rtc_once, st_timer].
    intros _. simpl. set_solver. }
  assert (Hrest : halts (_ ← ht t; broadcast cfg (CM_Timeout t)) s1).
  { apply halts_bind; [|done]. apply Hh; [done|done| |done]. simpl. set_solver. }
  unfold halts in *. unfold mbind at 1, exec_mbind, exec_bind. rewrite Ht.
  unfold s1 in Hrest. rewrite Htr in Hrest. exact Hrest.
Qed.

Context (Hk : forall t, keeps (Steps cfg LTimeout) (ht t)).

Lemma handle_tc_halts tc s :
  good s ->
  (forall s', good s' -> co_timeout_syncs s ⊆ co_timeout_syncs s' ->
     halts (send_timeout_with cfg ht (tc_round tc)) s') ->
  halts (handle_tc_with cfg ht tc) s.
Proof.
  intros Hs Hst. unfold handle_tc_with. apply halts_gets. case_match; [|done].
  apply halts_bind; [by apply handle_qc_top_halts|]. intros [] s1 Hrun1.
  destruct (handle_qc_frame _ _ _ Hs Hrun1) as (Hf1 & Hs1 & Hy1).
  apply halts_bind.
  { unfold handle_wqc. apply halts_gets. by case_match. }
  intros [] s2 Hrun2.
  destruct (good_keeps LTimeout _ _ _ _ ltac:(done) (handle_wqc_keeps cfg LTimeout ltac:(done) _) Hs1 Hrun2)
    as [Hf2 Hs2].
  apply halts_bind.
  { unfold halts. simpl. destruct (TC_is_well_formed (cc_committee cfg) tc) eqn:Htc; try done.
    pose proof (TC_is_well_formed_ends (cc_committee cfg) tc) as He. by rewrite Htc in He. }
  intros [] s3 Hrun3. injection Hrun3 as <- Htc.
  apply halts_bind.
  { unfold propose_fallback, propose_if_leader, leader_of. apply halts_expect. intros leader _. by case_decide. }
  intros [] s4 Hrun4.
  destruct (good_keeps LTimeout _ _ _ _ ltac:(done) (propose_fallback_keeps cfg LTimeout tc Htc) Hs2 Hrun4)
    as [Hf4 Hs4].
  unfold leader_of. apply halts_expect. intros next _. apply halts_bind.
  { unfold send_to. case_decide; [done|]. by apply halts_expect. }
  intros [] s5 Hrun5.
  destruct (good_keeps LTimeout _ _ _ _ ltac:(done) (send_tc_keeps cfg LTimeout tc next) Hs4 Hrun5) as [Hf5 Hs5].
  apply halts_bind.
  { apply Hst; [done|]. rewrite <-Hy1. etrans; [apply Hf2|]. etrans; [apply Hf4|apply Hf5]. }
  intros [] s6 Hrun6.
  destruct (good_keeps LTimeout _ _ _ _ ltac:(done)
    (send_timeout_keeps cfg LTimeout ltac:(done) ht Hk (tc_round tc)) Hs5 Hrun6) as [_ Hs6].
  by apply advance_top_halts.
Qed.

(** One handling of a timeout, given that creating one for its round, and for
    the round before the current one, stops. *)
Lemma handle_timeout_body_halts t s :
  good s ->
  (forall s', good s' -> co_timeout_syncs s ⊆ co_timeout_syncs s' -> co_round s <= to_round t ->
     halts (send_timeout_with cfg ht (to_round t)) s') ->
  (to_round t < co_round s -> halts (send_timeout_with cfg ht (u64_sub (co_round s) 1)) s) ->
  halts (handle_timeout_body cfg ht t) s.
Proof.
  intros Hs Hst Hprev. unfold handle_timeout_body. apply halts_gets. case_match.
  { apply halts_bind.
    - unfold halts. simpl. unfold Timeout_author_is_authorised. by destruct (0 <? _).
    - intros [] s' _; [|done]. unfold sync_peer. do 2 apply halts_gets. case_match; [done|].
      by apply halts_expect. }
  apply halts_gets. destruct (Z.leb_spec (co_round s) (to_round t)) as [Hle|Hlt]; [|by apply Hprev].
  apply halts_bind; [by apply handle_qc_top_halts|]. intros [] s1 Hrun1.
  destruct (handle_qc_frame _ _ _ Hs Hrun1) as (Hf1 & Hs1 & Hy1).
  destruct (ends_halts (tc_of t) (with_aggregator (add_timeout t)) s1) as [Hh Hof].
  { apply with_aggregator_ends, add_timeout_ends. }
  apply halts_bind; [done|]. intros [votes maybe_tc] s2 Hrun2. specialize (Hof _ _ Hrun2).
  destruct (good_keeps LTimeout _ _ _ _ ltac:(done)
    (with_aggregator_keeps cfg LTimeout (add_timeout t) ltac:(constructor)) Hs1 Hrun2) as [Hf2 Hs2].
  assert (Hsub : co_timeout_syncs s ⊆ co_timeout_syncs s2) by (rewrite <-Hy1; apply Hf2).
  case_match; [|done]. apply halts_bind; [by apply Hst|]. intros [] s3 Hrun3.
  destruct (good_keeps LTimeout _ _ _ _ ltac:(done)
    (send_timeout_keeps cfg LTimeout ltac:(done) ht Hk (to_round t)) Hs2 Hrun3) as [Hf3 Hs3].
  destruct maybe_tc as [tc|]; [|done]. specialize (Hof tc eq_refl).
  apply handle_tc_halts; [done|]. intros s4 Hs4 Hsub4. rewrite Hof. apply Hst; [done| |done].
  etrans; [exact Hsub|]. etrans; [apply Hf3|done].
Qed.

End send_timeout.

Lemma timeout_fuel_keeps fuel t : keeps (Steps cfg LTimeout) (handle_timeout_fuel cfg fuel t).
Proof. by apply handle_timeout_fuel_keeps. Qed.

Lemma u64_pred_le s : good s -> u64_sub (co_round s) 1 < co_round s.
Proof.
  intros Hs. pose proof (ci_round _ (gd_inv _ Hs)). unfold u64_sub, u64_wrap.
  pose proof (Z.mod_le (co_round s - 1) (2 ^ 64)). lia.
Qed.

(** The node's own timeout for the round before the current one. *)
Lemma own_previous_halts fuel t s :
  good s -> to_round t = u64_sub (co_round s) 1 -> to_round t ∈ co_timeout_syncs s ->
  halts (handle_timeout_fuel cfg (S fuel) t) s.
Proof.
  intros Hs Hr Hin. pose proof (u64_pred_le s Hs).
  apply handle_timeout_body_halts; [apply timeout_fuel_keeps|done|lia|].
  intros _. apply send_timeout_known. by rewrite <-Hr.
Qed.

(** The node's own timeout for any round. *)
Lemma own_timeout_halts fuel t s :
  good s -> to_round t ∈ co_timeout_syncs s -> halts (handle_timeout_fuel cfg (S (S fuel)) t) s.
Proof.
  intros Hs Hin. change (halts (handle_timeout_body cfg (handle_timeout_fuel cfg (S fuel)) t) s).
  apply handle_timeout_body_halts; [apply timeout_fuel_keeps|done| |].
  - intros s' Hs' Hsub _. apply send_timeout_known. set_solver.
  - intros _. apply send_timeout_halts; [done|]. intros t' s' Hs' Hr' Hin' Hround.
    apply own_previous_halts; [done| |by rewrite Hr']. by rewrite Hround.
Qed.

(** Creating a timeout, and handling anybody's. *)
Lemma create_timeout_halts fuel r s :
  good s -> halts (send_timeout_with cfg (handle_timeout_fuel cfg (S (S fuel))) r) s.
Proof.
  intros Hs. apply send_timeout_halts; [done|]. intros t s' Hs' Hr Hin _.
  apply own_timeout_halts; [done|by rewrite Hr].
Qed.

Lemma handle_timeout_halts t s : good s -> halts (handle_timeout cfg t) s.
Proof.
  intros Hs. change (halts (handle_timeout_body cfg (handle_timeout_fuel cfg 2) t) s).
  apply handle_timeout_body_halts; [apply timeout_fuel_keeps|done| |].
  - intros s' Hs' _ _. by apply create_timeout_halts.
  - intros _. by apply create_timeout_halts.
Qed.
Lemma send_timeout_top_halts r s : good s -> halts (send_timeout cfg r) s.
Proof. apply create_timeout_halts. Qed.
Lemma handle_tc_top_halts tc s : good s -> halts (handle_tc cfg tc) s.
Proof.
  intros Hs. apply handle_tc_halts; [apply timeout_fuel_keeps|done|].
  intros s' Hs' _. by apply send_timeout_top_halts.
Qed.

(** ** Blocks and events *)

(** The state once [b] was stored. *)
Definition add_block b s : Core :=
  set_store (store_write (digest_bytes (digest b)) (block_encode b) (co_store s))
    (set_uncommitted_blocks (<[digest b := b]> (co_uncommitted_blocks s)) s).

Lemma links_add_frame b s s' : frame s s' -> links_ok (add_block b s) -> links_ok (add_block b s').
Proof.
  intros Hf. apply links_frame. destruct Hf. split; simpl; [congruence| |done..]. by apply insert_mono.
Qed.

Lemma links_same s s' :
  co_store s' = co_store s -> co_uncommitted_blocks s' = co_uncommitted_blocks s ->
  co_last_commit s' = co_last_commit s -> links_ok s -> links_ok s'.
Proof.
  intros Hst Hub Hlc Hl b p. unfold known, parent_of. rewrite Hst, Hub, Hlc. apply Hl.
Qed.

Lemma update_pending_frame b s s' :
  update_pending_proposals b s = (s', Ok tt) ->
  co_store s' = co_store s /\ co_uncommitted_blocks s' = co_uncommitted_blocks s /\
  co_last_commit s' = co_last_commit s.
Proof. unfold update_pending_proposals. run. case_bool_decide; intros [= <-]; done. Qed.

Lemma store_block_run b s s' :
  store_block b s = (s', Ok tt) ->
  co_store s' = co_store (add_block b s) /\
  co_uncommitted_blocks s' = co_uncommitted_blocks (add_block b s) /\
  co_last_commit s' = co_last_commit s.
Proof.
  unfold store_block. run. destruct (_ <? _); [|done]. run.
  destruct (update_pending_proposals b s) as [s1 [[]|e|msg|]] eqn:Hrun;
    [rewrite (run_bind _ _ _ _ _ Hrun)|by rewrite (run_bind_Err _ _ _ _ _ Hrun)
    |by rewrite (run_bind_Panicked _ _ _ _ _ Hrun)|].
  - destruct (update_pending_frame _ _ _ Hrun) as (Hst & Hub & Hlc).
    intros [= <-]. simpl. by rewrite Hst, Hub.
  - unfold mbind, exec_mbind, exec_bind. by rewrite Hrun.
Qed.
Lemma store_block_halts b s : halts (store_block b) s.
Proof.
  unfold store_block. apply halts_gets, halts_assert. intros _. apply halts_bind; [|done].
  unfold update_pending_proposals. apply halts_gets. by case_match.
Qed.

Lemma store_block_good b s s' :
  core_inv s -> links_ok (add_block b s) -> store_block b s = (s', Ok tt) -> good s' /\ known s' b.
Proof.
  intros Hinv Hl Hrun. destruct (store_block_run _ _ _ Hrun) as (Hst & Hub & Hlc). split; [split|].
  - pose proof (store_block_keeps cfg LAll eq_refl b s Hinv) as Hk. rewrite Hrun in Hk.
    by eapply steps_inv.
  - by eapply (links_same (add_block b s)).
  - left. exists (digest b). rewrite Hub. simpl. apply lookup_insert_eq.
Qed.

Lemma try_commit_halts b s : links_ok s -> known s b -> halts (try_commit_or_sync_ancestor cfg b) s.
Proof.
  intros Hl Hb. unfold try_commit_or_sync_ancestor. apply halts_gets, halts_assert. intros _.
  apply halts_gets. case_match; [|done]. apply halts_bind; [by apply have_all_ancestors_halts|].
  intros [] s' _; [apply commit_halts|done].
Qed.

Lemma verify_payload_ends c payload : ends_o (fun _ => True) (verify_payload c payload).
Proof.
  induction payload as [|cert payload IH]; [done|]. cbn [verify_payload].
  eapply (ends_o_bind (fun _ => True)); [|by intros _ _].
  unfold Certificate_verify. destruct (combine_key_from_ids _ _); [|done]. simpl.
  by destruct (bls_verify _ _ _).
Qed.

Lemma can_accept_block_halts b s : halts (can_accept_block cfg b) s.
Proof.
  unfold can_accept_block. apply halts_gets. case_match; [done|]. apply halts_bind; [done|].
  intros [] s' _; [done|]. do 2 apply halts_gets. case_match; [by apply halts_assert|].
  unfold leader_of. apply halts_expect. intros leader _.
  destruct (bool_decide _); [|done]. apply halts_bind; [done|]. intros [] s2 _.
  apply halts_bind; [|done]. destruct (cc_consensus_only cfg); [done|].
  unfold halts, mempool_verify. simpl. pose proof (verify_payload_ends (cc_committee cfg) (blk_payload b)).
  by destruct (verify_payload _ _).
Qed.

Lemma process_block_halts b s :
  good s -> links_ok (add_block b s) -> halts (process_block cfg b) s.
Proof.
  intros Hs Hl. unfold process_block. apply halts_bind; [apply can_accept_block_halts|].
  intros accepted s1 Hrun1.
  destruct (good_keeps LVote _ _ _ _ ltac:(done) (can_accept_block_keeps cfg LVote b) Hs Hrun1) as [Hf1 Hs1].
  destruct accepted; [|done]. apply halts_bind; [apply store_block_halts|]. intros [] s2 Hrun2.
  destruct (store_block_good b s1 s2 (gd_inv _ Hs1)) as [Hs2 Hb]; [by eapply links_add_frame|done|].
  apply halts_bind; [apply try_commit_halts; [apply Hs2|done]|]. intros [] s3 Hrun3.
  destruct (good_keeps LVote _ _ _ _ ltac:(done) (try_commit_keeps cfg LVote b) Hs2 Hrun3) as [_ Hs3].
  by apply try_vote_top_halts.
Qed.

(** The blocks an event brings must fit what the node holds; a block that comes
    back from the synchronizer is one the core held before. *)
Definition event_ok (ev : CoreEvent) s : Prop :=
  match ev with
  | Ev_Message (CM_Propose p) | Ev_Proposer p => links_ok (add_block (proposal_block p) s)
  | Ev_Message (CM_SyncResponse b) => links_ok (add_block b s)
  | Ev_Synchronizer b => known s b
  | _ => True
  end.

Lemma check_halts {A B} (o : Outcome ConsensusError A) (k : A -> M B) s :
  ends_o (fun _ => True) o -> (forall a, o = Ok a -> halts (k a) s) -> halts (lift o ≫= k) s.
Proof. destruct o; simpl; try done. intros _ Hk. by apply Hk. Qed.

Lemma Block_is_well_formed_ends c b : ends_o (fun _ => True) (Block_is_well_formed c b).
Proof.
  unfold Block_is_well_formed. case_decide; [done|].
  eapply ends_o_bind; [apply ends_o_ensure|intros _ _]. by destruct (Signature_verify _ _ _).
Qed.

Lemma handle_proposal_halts p s :
  good s -> links_ok (add_block (proposal_block p) s) -> halts (handle_proposal cfg p) s.
Proof.
  intros Hs Hl. destruct p as [f|np]; cbn [handle_proposal proposal_block] in *.
  - unfold process_fallback_recovery_proposal.
    apply halts_bind; [by apply handle_tc_top_halts|]. intros [] s1 Hrun1.
    destruct (good_keeps LTimeout _ _ _ _ ltac:(done) (handle_tc_top_keeps cfg LTimeout ltac:(done) (fp_tc f)) Hs Hrun1)
      as [Hf1 Hs1].
    apply check_halts; [|intros _ _; apply process_block_halts; [done|by eapply links_add_frame]].
    unfold FallbackRecoveryProposal_is_well_formed.
    eapply ends_o_bind; [apply Block_is_well_formed_ends|intros _ _].
    eapply ends_o_bind; [apply ends_o_ensure|intros _ _]. by destruct (bool_decide _).
  - unfold process_normal_proposal.
    apply halts_bind; [by apply handle_qc_top_halts|]. intros [] s1 Hrun1.
    destruct (handle_qc_frame _ _ _ Hs Hrun1) as (Hf1 & Hs1 & _).
    apply check_halts; [|intros _ _; apply process_block_halts; [done|by eapply links_add_frame]].
    unfold NormalProposal_is_well_formed.
    eapply ends_o_bind; [apply Block_is_well_formed_ends|intros _ _]. by destruct (_ && _).
Qed.

Lemma handle_sync_response_halts b s :
  good s -> links_ok (add_block b s) -> halts (handle_sync_response cfg b) s.
Proof.
  intros Hs Hl. unfold handle_sync_response. apply halts_bind; [done|]. intros requested s1 Hrun1.
  destruct (good_keeps LVote _ _ _ _ ltac:(done) (take_sync_request_keeps cfg LVote (digest b)) Hs Hrun1)
    as [Hf1 Hs1].
  apply halts_gets. case_match; [|done]. apply halts_bind; [apply store_block_halts|]. intros [] s2 Hrun2.
  destruct (store_block_good b s1 s2 (gd_inv _ Hs1)) as [Hs2 Hb]; [by eapply links_add_frame|done|].
  apply try_commit_halts; [apply Hs2|done].
Qed.

Lemma handle_event_halts ev s : good s -> event_ok ev s -> halts (handle_event cfg ev) s.
Proof.
  intros Hs Hev. destruct ev as [[p|v|v|t|qc|tc|d p|b]|p|b|]; cbn [handle_event handle_message event_ok] in *.
  - by apply handle_proposal_halts.
  - by apply handle_vote_halts.
  - done.
  - by apply handle_timeout_halts.
  - apply halts_bind.
    + unfold sanitize_certificate. apply halts_gets. case_match; [|done].
      destruct (qc_kind qc); apply halts_gets; (case_match; [done|]);
        unfold halts; simpl; pose proof (QC_is_well_formed_ends (cc_committee cfg) qc);
        by destruct (QC_is_well_formed _ _).
    + intros [] s1 Hrun1.
      destruct (good_keeps LVote _ _ _ _ ltac:(done) (sanitize_certificate_keeps cfg LVote qc) Hs Hrun1)
        as [_ Hs1]. by apply handle_qc_top_halts.
  - by apply handle_tc_top_halts.
  - done.
  - by apply handle_sync_response_halts.
  - by apply handle_proposal_halts.
  - unfold handle_synchronizer_loopback. apply halts_gets. case_match; [|done].
    apply try_commit_halts; [apply Hs|done].
  - unfold local_timeout_round. apply halts_modify, halts_gets. apply send_timeout_top_halts.
    destruct Hs as [[] Hl]. split; [by split|exact Hl].
Qed.

(** C18: every handler of the consensus core returns: from any reachable state, if
    the parent links among the blocks that the node holds, and those the event
    brings, have no cycle, then the walk over the ancestors, the commit loop and the
    mutual recursion of votes, QCs, timeouts and TCs, which may assemble
    certificates from within certificates, all stop; the outcome is a result, an
    error or a panic, never divergence.  No relation between the rounds of the
    blocks is assumed.  A cycle of parent links is a cycle of hashes; on one the
    walk of the code does not end. *)
Theorem handle_event_terminates ev s :
  reachable cfg true s -> links_ok s -> event_ok ev s ->
  (handle_event cfg ev s).2 <> OutOfFuel.
Proof.
  intros Hs Hl. apply handle_event_halts. split; [by eapply reachable_inv|done].
Qed.

End termination.
