(* ===== verification/CoreLiveness.v ===== *)
(** * What a node does with a commit certificate, and with its data after a restart

    A commit certificate for a block whose uncommitted ancestors the node holds
    commits all of them at once.  A node that comes back with the blocks it has
    stored but without its memory stops at the first certificate for one of
    them. *)
From S2P Require Import Prelude Crypto Config BitVec DagMessages Messages Leader Store Proposer Synchronizer Mempool Aggregator AggregatorProps Core CoreSteps CoreProps CoreTermination.

Section liveness.
Context `{Prim : Primitives} `{Order : HashIter} `{Rocks : RocksDB} `{Codec : !BlockCodec}.
Context (cfg : CoreConfig).
Implicit Types (s : Core) (v : Vote) (b p : Block) (bs : list Block) (d : Digest).

Abbreviation M := (Exec Core ConsensusError).

(** ** The blocks between the last commit and a block *)

(** The last commit can be read back, from memory or from storage. *)
Definition tip_held s : Prop :=
  exists p, blk_round p = blk_round (co_last_commit s) /\
    (co_uncommitted_blocks s !! digest (co_last_commit s) = Some p \/
     co_uncommitted_blocks s !! digest (co_last_commit s) = None /\
     stored (co_store s) (digest (co_last_commit s)) = Some p).

(** [bs], oldest first, hang on the last commit, have increasing rounds, and are
    in memory. *)
Record held s bs : Prop := {
  hd_chain : chain (digest (co_last_commit s)) bs;
  hd_sorted : StronglySorted Z.lt (blk_round (co_last_commit s) :: map blk_round bs);
  hd_blocks : Forall (fun b => co_uncommitted_blocks s !! digest b = Some b) bs;
}.

Lemma stored_get s d p server resume :
  stored (co_store s) d = Some p -> synchronizer_get_block d server resume s = (s, Ok (Some p)).
Proof.
  unfold stored, synchronizer_get_block, sync_get_block. run. case_decide; [by intros [= ->]|].
  destruct (store_read _ _) as [|[bytes|]]; try done. destruct (block_decode bytes); [|done].
  by intros [= ->].
Qed.

Lemma sorted_snoc_lt (r : Z) bs b :
  StronglySorted Z.lt (r :: map blk_round (bs ++ [b])) ->
  r < blk_round b /\ StronglySorted Z.lt (r :: map blk_round bs) /\
  forall p, p ∈ bs -> r < blk_round p < blk_round b.
Proof.
  revert r. induction bs as [|p bs IH]; intros r [Hs Hall]%StronglySorted_inv; simpl in *.
  - apply Forall_cons in Hall as [Hlt _]. split_and!; [done|by repeat constructor|set_solver].
  - destruct (IH (blk_round p) Hs) as (Hpb & Hsp & Hin). apply Forall_cons in Hall as [Hrp Hall].
    rewrite map_app, Forall_app in Hall. destruct Hall as [Hall [Hrb _]%Forall_cons].
    split_and!; [done| |].
    + constructor; [done|]. by constructor.
    + intros q [->|Hq]%elem_of_cons; [done|]. specialize (Hin q Hq). lia.
Qed.

Lemma held_prefix s bs b : held s (bs ++ [b]) -> held s bs.
Proof.
  intros [[Hch _]%chain_app (_ & Hs & _)%sorted_snoc_lt [Hb _]%Forall_app]. by split.
Qed.

Lemma trace_held fuel block bs b s :
  tip_held s -> held s (bs ++ [b]) ->
  (Z.to_nat (blk_round b - blk_round (co_last_commit s)) < fuel)%nat ->
  trace_ancestors fuel block b s = (s, Ok true).
Proof.
  intros (tip_block & Htr & Htip). revert bs b.
  induction fuel as [|fuel IH]; intros bs b Hheld Hfuel; [lia|].
  destruct (sorted_snoc_lt _ _ _ (hd_sorted _ _ Hheld)) as (Hb & _ & Hrounds).
  pose proof (hd_chain _ _ Hheld) as [_ [Hpar _]]%chain_app.
  change (trace_ancestors_pass block (trace_ancestors fuel block) b s = (s, Ok true)). unfold trace_ancestors_pass. run.
  destruct bs as [|p bs _] using rev_ind.
  - unfold CoreSteps.tip in Hpar. simpl in Hpar. rewrite Hpar.
    destruct Htip as [->|[-> Hst]]; [|rewrite (run_bind _ _ _ _ _ (stored_get _ _ _ _ _ Hst))]; run;
      by rewrite Htr, Z.eqb_refl.
  - rewrite tip_snoc in Hpar. rewrite Hpar.
    pose proof (hd_blocks _ _ (held_prefix _ _ _ Hheld)) as [_ [Hp _]%Forall_cons]%Forall_app.
    rewrite Hp. run. destruct (Hrounds p) as [Hlp Hpb]; [set_solver|].
    rewrite (proj2 (Z.eqb_neq _ _)), (proj2 (Z.ltb_lt _ _)) by lia. run.
    apply (IH bs); [by eapply held_prefix|lia].
Qed.

Lemma have_held bs b s :
  tip_held s -> held s (bs ++ [b]) -> 0 <= blk_round (co_last_commit s) ->
  is_Some (co_committable_blocks s !! digest b) ->
  have_all_ancestors b s = (s, Ok true).
Proof.
  intros Ht Hh H0 Hc. destruct (sorted_snoc_lt _ _ _ (hd_sorted _ _ Hh)) as (Hb & _ & _).
  unfold have_all_ancestors. run. destruct ((_ =? _) || _); [done|].
  rewrite (proj2 (Z.ltb_lt _ _)) by done. runs. rewrite bool_decide_true by done. runs.
  rewrite trace_ancestors_loop. apply (trace_held _ _ bs); [done..|]. unfold ancestors_depth.
  apply below_pow. pose proof (Z.pow_gt_lin_r 2 (Z.of_nat (256 + Z.to_nat (blk_round b - blk_round (co_last_commit s))))). lia.
Qed.

(** No uncommitted block hides behind the digest of the last commit. *)
Definition tip_clear s : Prop :=
  forall p, co_uncommitted_blocks s !! digest (co_last_commit s) = Some p ->
  blk_round p = blk_round (co_last_commit s).
Lemma tip_held_clear s : tip_held s -> tip_clear s.
Proof. intros (p & Hr & [Hp|[Hn _]]) q Hq; congruence. Qed.

Lemma collect_held fuel bs b acc s :
  tip_clear s -> chain (digest (co_last_commit s)) (bs ++ [b]) ->
  StronglySorted Z.lt (blk_round (co_last_commit s) :: map blk_round (bs ++ [b])) ->
  Forall (fun b => co_uncommitted_blocks s !! digest b = Some b) bs ->
  (size (co_uncommitted_blocks s) < fuel)%nat ->
  exists m, collect_ancestors fuel b acc s = (set_uncommitted_blocks m s, Ok (bs ++ b :: acc)).
Proof.
  revert bs b acc s. induction fuel as [|fuel IH]; intros bs b acc s Hclear Hch Hs Hbs Hfuel; [lia|].
  pose proof Hch as [Hch' [Hpar _]]%chain_app.
  destruct (sorted_snoc_lt _ _ _ Hs) as (_ & Hs' & Hrounds). cbn [collect_ancestors]. run.
  destruct bs as [|p bs _] using rev_ind.
  { rewrite decide_True by done. exists (co_uncommitted_blocks s). by destruct s. }
  rewrite tip_snoc in Hpar. apply Forall_app in Hbs as [Hbs [Hp _]%Forall_cons].
  destruct (Hrounds p) as [Hlp _]; [set_solver|].
  rewrite decide_False, Hpar; cycle 1.
  { rewrite Hpar. intros Heq. rewrite Heq in Hp. pose proof (Hclear p Hp). lia. }
  runs. rewrite Hp. run. rewrite (proj2 (Z.ltb_lt _ _)) by done. run.
  destruct (sorted_snoc_lt _ _ _ Hs') as (_ & _ & Hrounds').
  set (s1 := set_uncommitted_blocks _ s).
  destruct (IH bs p (b :: acc) s1) as (m & Hrun); [|done|done| | |].
  - intros q Hq. apply Hclear. simpl in Hq. by apply lookup_delete_Some in Hq as [_ ?].
  - apply Forall_forall. intros q Hq. rewrite Forall_forall in Hbs. apply lookup_delete_Some.
    split; [|by apply Hbs]. intros Heq. specialize (Hbs q Hq). rewrite <-Heq, Hp in Hbs.
    injection Hbs as ->. specialize (Hrounds' q Hq). lia.
  - simpl. pose proof (map_size_delete (digest p) (co_uncommitted_blocks s)) as Hsz. rewrite Hp in Hsz.
    assert (size (co_uncommitted_blocks s) <> 0%nat); [|lia].
    intros Hz%map_size_empty_inv. rewrite Hz in Hp. by rewrite lookup_empty in Hp.
  - exists m. rewrite Hrun, <-app_assoc. done.
Qed.

(** What a commit of [bs ++ [b]] leaves. *)
Record committed s s' bs b : Prop := {
  cm_ledger : ledger s' = ledger s ++ bs ++ [b];
  cm_last : co_last_commit s' = b;
  cm_delivered : effects s' = reverse (concat (map (commit_effects cfg) (bs ++ [b]))) ++ effects s;
  cm_store : co_store s' = co_store s;
}.

Lemma commit_held bs b s :
  tip_clear s -> held s (bs ++ [b]) -> 0 <= blk_round (co_last_commit s) ->
  exists s', commit cfg b s = (s', Ok tt) /\ committed s s' bs b.
Proof.
  intros Ht [Hch Hs [Hbs _]%Forall_app] H0.
  destruct (sorted_snoc_lt _ _ _ Hs) as (Hb & _ & _). unfold commit.
  rewrite (proj2 (Z.eqb_neq _ GENESIS)) by (unfold GENESIS; lia). run.
  rewrite (proj2 (Z.ltb_lt _ _)) by done. runs.
  destruct (collect_held (S (size (co_uncommitted_blocks s))) bs b [] s) as (m & Hrun); [done..|lia|].
  rewrite (run_bind _ _ _ _ _ Hrun), (run_bind _ _ _ _ _ (emit_all_run _ _)).
  eexists. split; [reflexivity|].
  set (s1 := set_uncommitted_blocks m s).
  destruct (emitted_all_frame (concat (map (commit_effects cfg) (bs ++ [b]))) s1) as [tr Htr].
  pose proof (effects_emitted_all (concat (map (commit_effects cfg) (bs ++ [b]))) s1) as Heff.
  assert (Hdel : effects (commit_cleanup b (emitted_all (concat (map (commit_effects cfg) (bs ++ [b]))) s1)) =
                 reverse (concat (map (commit_effects cfg) (bs ++ [b]))) ++ effects s) by exact Heff.
  split; [|done|done|].
  - unfold ledger. by rewrite Hdel, committed_of_app, committed_of_commit.
  - by rewrite Htr.
Qed.

(** Marking a block for commit does not change what the lemmas look at. *)
Lemma handle_commit_held qc bs b s :
  tip_held s -> held s (bs ++ [b]) -> 0 <= blk_round (co_last_commit s) ->
  co_committable_blocks s !! qc_blk_hash qc = None -> qc_blk_hash qc = digest b ->
  exists s', handle_commit_qc cfg qc s = (s', Ok tt) /\ committed s s' bs b.
Proof.
  intros Ht Hh H0 Hnew Hd. unfold handle_commit_qc. run. rewrite Hnew, bool_decide_false by (by intros []).
  set (s1 := set_committable_blocks (<[digest b := qc_round qc]> (co_committable_blocks s)) s).
  assert (Hh1 : held s1 (bs ++ [b])) by by destruct Hh.
  destruct (commit_held bs b s1) as (s2 & Hrun & Hc); [by apply tip_held_clear|done..|].
  exists (set_aggregator (cleanup_prepares (qc_round qc) (co_aggregator s2)) s2).
  split; [|by destruct Hc].
  rewrite (run_bind _ _ _ s2 tt); [done|]. unfold schedule_commit. runs. rewrite Hd. fold s1.
  pose proof (hd_blocks _ _ Hh) as [_ [Hb _]%Forall_cons]%Forall_app.
  change (co_uncommitted_blocks s1) with (co_uncommitted_blocks s). rewrite Hb.
  rewrite (run_bind _ _ _ s1 true); [done|]. apply (have_held bs); [done..|].
  simpl. rewrite lookup_insert_eq. by eexists.
Qed.

(** C19: a commit certificate commits: when a node that holds a block and its
    uncommitted ancestors receives a valid commit certificate for it, plain or
    fast, it appends exactly these blocks to its ledger, oldest first, and sends
    their certificates to the committer and the mempool, in that order, without
    an error. *)
Theorem commit_qc_commits alive s qc bs b :
  reachable cfg alive s -> tip_held s -> held s (bs ++ [b]) ->
  qc_kind qc = VT_Commit \/ qc_fast_quorum qc = true ->
  qc_blk_hash qc = digest b -> co_committable_blocks s !! digest b = None ->
  blk_round (co_last_commit s) < qc_round qc -> QC_is_well_formed (cc_committee cfg) qc = Ok tt ->
  exists s', handle_event cfg (Ev_Message (CM_QC qc)) s = (s', Ok tt) /\
    ledger s' = ledger s ++ bs ++ [b] /\ co_last_commit s' = b /\
    effects s' = reverse (concat (map (commit_effects cfg) (bs ++ [b]))) ++ effects s.
Proof.
  intros Hr%reachable_inv Ht Hh Hk Hd Hnew Hround Hwf.
  destruct (handle_commit_held qc bs b s) as (s' & Hrun & [Hl Hlc He _]);
    [done..|by apply Hr|by rewrite Hd|done|].
  exists s'. split; [|done]. cbn [handle_event handle_message].
  rewrite (run_bind _ _ _ s tt); cycle 1.
  { unfold sanitize_certificate. run. rewrite (proj2 (Z.ltb_lt _ _)) by done. rewrite Hwf.
    destruct (qc_kind qc); run; by case_bool_decide. }
  unfold handle_qc, handle_qc_with. run. rewrite (proj2 (Z.ltb_lt _ _)) by done.
  rewrite (proj2 (orb_true_iff _ _)); [done|].
  destruct Hk; [left; by apply bool_decide_eq_true|by right].
Qed.

(** ** Votes *)

(** Handling votes one after the other. *)
Definition receive_votes (vs : list Vote) s : Core :=
  foldl (fun s v => (handle_event cfg (Ev_Message (CM_Vote v)) s).1) s vs.

(** The choice that [handle_vote] makes by the kind of the vote. *)
Definition add_vote v : Exec Aggregator ConsensusError (option QC) :=
  match vote_kind v with VT_Commit => add_commit_vote v | VT_Normal => add_normal_vote v end.

Lemma vote_fuel_run fuel v s a o :
  blk_round (co_last_commit s) < vote_round v -> add_vote v (co_aggregator s) = (a, Ok o) ->
  handle_vote_fuel cfg (S fuel) v s =
    match o with
    | None => (set_aggregator a s, Ok tt)
    | Some qc => handle_qc_with cfg (handle_vote_fuel cfg fuel) qc (set_aggregator a s)
    end.
Proof.
  intros Hr Hadd. cbn [handle_vote_fuel]. unfold handle_vote_body. run. rewrite (proj2 (Z.ltb_lt _ _)) by done.
  rewrite (run_bind _ _ _ (set_aggregator a s) o); [by destruct o|].
  unfold add_vote in Hadd. unfold with_aggregator, zoom. destruct (vote_kind v); by rewrite Hadd.
Qed.

Section counting.
Context {Laws : G2Laws} {Bls : BlsLaws}.
Let c := cc_committee cfg.
Context (Hc : committee_wf c) (Hn : (committee_size c <= Z.to_nat (comm_n c))%nat).
Context (Hstake : forall name, 0 <= stake c name).
Context (Htotal : set_weight (stake c) (list_to_set (get_public_keys c)) < 2 ^ 32).
Implicit Types (a : Aggregator) (kd : VoteType).

(** Votes of one kind for [b]. *)
Definition votes_for kd b vs : Prop :=
  countable c kd vs /\ Forall (fun v => vote_round v = blk_round b /\ vote_blk_hash v = digest b) vs.

Definition maker kd b a : QCMaker :=
  match kd with VT_Normal => ag_vote_maker a (blk_round b) (digest b) | VT_Commit => ag_commit_maker a (blk_round b) end.
Definition put_maker kd b (m : QCMaker) a : Aggregator :=
  match kd with VT_Normal => ag_put_vote_maker (blk_round b) (digest b) m a | VT_Commit => ag_put_commit_maker (blk_round b) m a end.

Lemma maker_same kd b m a : maker kd b (put_maker kd b m a) = m.
Proof. destruct kd; simpl; [unfold ag_commit_maker|unfold ag_vote_maker]; simpl; rewrite !lookup_insert_eq; simpl; by rewrite ?lookup_insert_eq. Qed.
Lemma maker_other kd kd' b m a : kd <> kd' -> maker kd b (put_maker kd' b m a) = maker kd b a.
Proof. by destruct kd, kd'. Qed.
Lemma put_maker_committee kd b m a : ag_committee (put_maker kd b m a) = ag_committee a.
Proof. by destruct kd. Qed.

(** The aggregator is still collecting the votes of kind [kd] for [b]; so far it
    has counted [vs]. *)
Record gathered kd b vs a : Prop := {
  ga_committee : ag_committee a = c;
  ga_counted : qm_inv c (Z.to_nat (comm_n c)) (maker kd b a) vs;
  ga_open : qm_is_qc_formed (maker kd b a) = false;
}.
Lemma gathered_new kd b a :
  ag_committee a = c -> maker kd b a = QCMaker_new (Z.to_nat (comm_n c)) -> gathered kd b [] a.
Proof. intros Hca Hm. split; rewrite ?Hm; [done|apply QCMaker_new_inv|done]. Qed.

Section one_kind.
Context (kd : VoteType) (Hqf : kd = VT_Normal -> quorum_threshold c <= fast_commit_quorum_threshold c).

Lemma add_vote_run b v vs a :
  votes_for kd b (vs ++ [v]) -> ag_committee a = c ->
  add_vote v a =
    let r := QCMaker_append v c (bool_decide (kd = VT_Normal)) (maker kd b a) in
    (put_maker kd b r.1 a, r.2).
Proof.
  intros [Hcn [_ [[Hr Hd] _]%Forall_cons]%Forall_app] Hca.
  destruct (countable_snoc _ _ _ _ Hcn) as (_ & _ & _ & Hk). unfold add_vote. rewrite Hk.
  destruct kd; unfold add_commit_vote, add_normal_vote, zoom; run; rewrite Hr, ?Hd, Hca;
    cbn [bool_decide maker put_maker]; by destruct (QCMaker_append _ _ _ _).
Qed.

(** Away from the thresholds a vote is counted. *)
Lemma add_collecting b v vs a :
  votes_for kd b (vs ++ [v]) -> no_hit c kd (Z.of_nat (length (vs ++ [v]))) ->
  gathered kd b vs a ->
  exists m, add_vote v a = (put_maker kd b m a, Ok None) /\ gathered kd b (vs ++ [v]) (put_maker kd b m a).
Proof.
  intros Hvs Hlen [Hca Hinv Hf]. rewrite (add_vote_run b v vs a Hvs Hca).
  destruct (append_collecting c Hc _ Hn Hstake Htotal kd (bool_decide (kd = VT_Normal)) _ vs v (proj1 Hvs) Hinv Hf Hlen)
    as (m & Happ & Hinv' & Hf').
  exists m. rewrite Happ. split; [done|]. split; by rewrite ?put_maker_committee, ?maker_same.
Qed.

(** The vote that reaches the threshold makes the certificate. *)
Lemma add_completing b v vs a :
  votes_for kd b (vs ++ [v]) -> Forall (share_valid c (digest v)) (vs ++ [v]) ->
  Z.of_nat (length (vs ++ [v])) = vote_threshold c kd -> gathered kd b vs a ->
  exists m qc, add_vote v a = (put_maker kd b m a, Ok (Some qc)) /\
    (kd = VT_Normal -> gathered kd b (vs ++ [v]) (put_maker kd b m a)) /\
    qc_blk_hash qc = digest b /\ qc_round qc = blk_round b /\ qc_kind qc = kd /\ qc_fast_quorum qc = false.
Proof.
  intros Hvs Hval Hlen [Hca Hinv Hf]. rewrite (add_vote_run b v vs a Hvs Hca).
  destruct (append_completing c Hc _ Hn Hstake Htotal kd (bool_decide (kd = VT_Normal)) _ vs v (proj1 Hvs) Hinv Hf Hval Hlen)
    as (m & qc & Happ & Hopen & Hqh & Hqr & Hqk & Hqf').
  destruct Hvs as [_ [_ [[Hr Hd] _]%Forall_cons]%Forall_app].
  exists m, qc. rewrite Happ. split_and!; [done| |congruence..|done|done].
  intros Hkd. destruct (Hopen (bool_decide_eq_true_2 _ Hkd)). by split; rewrite ?put_maker_committee, ?maker_same.
Qed.

(** So does the one that reaches the fast threshold. *)
Lemma add_fast b v vs a :
  kd = VT_Normal -> quorum_threshold c < fast_commit_quorum_threshold c ->
  votes_for kd b (vs ++ [v]) -> Forall (share_valid c (digest v)) (vs ++ [v]) ->
  Z.of_nat (length (vs ++ [v])) = fast_commit_quorum_threshold c -> gathered kd b vs a ->
  exists m qc, add_vote v a = (put_maker kd b m a, Ok (Some qc)) /\
    qc_blk_hash qc = digest b /\ qc_round qc = blk_round b /\ qc_fast_quorum qc = true.
Proof.
  intros Hkd Hlt Hvs Hval Hlen [Hca Hinv Hf]. rewrite (add_vote_run b v vs a Hvs Hca).
  destruct (append_fast c Hc _ Hn Hstake Htotal kd (bool_decide (kd = VT_Normal)) _ vs v (proj1 Hvs) Hinv Hf Hval Hkd Hlt Hlen)
    as (m & qc & Happ & Hqh & Hqr & _ & Hqf').
  destruct Hvs as [_ [_ [[Hr Hd] _]%Forall_cons]%Forall_app].
  exists m, qc. rewrite Happ. split_and!; [done|congruence..|done].
Qed.

(** Away from the thresholds, received votes change the maker alone. *)
Lemma receive_collecting b vs0 vs s :
  votes_for kd b (vs0 ++ vs) ->
  (forall k, (length vs0 < k <= length (vs0 ++ vs))%nat -> no_hit c kd (Z.of_nat k)) ->
  blk_round (co_last_commit s) < blk_round b -> gathered kd b vs0 (co_aggregator s) ->
  exists a, receive_votes vs s = set_aggregator a s /\ gathered kd b (vs0 ++ vs) a /\
    forall kd', kd' <> kd -> maker kd' b a = maker kd' b (co_aggregator s).
Proof.
  intros Hvs Hlen Hr Hg. induction vs as [|v vs IH] using rev_ind.
  { exists (co_aggregator s). rewrite app_nil_r. split_and!; [by destruct s|done|done]. }
  rewrite app_assoc in Hvs, Hlen |- *. pose proof Hvs as [Hcn [Hfor [[Hvr _] _]%Forall_cons]%Forall_app].
  destruct (countable_snoc _ _ _ _ Hcn) as (Hcn' & _). rewrite (length_app (vs0 ++ vs)) in Hlen. simpl in Hlen.
  destruct IH as (a & Hrun & Hga & Hother); [by split|intros k ?; apply Hlen; lia|].
  destruct (add_collecting b v _ a Hvs) as (m & Hadd & Hgm);
    [apply Hlen; rewrite !length_app; simpl; lia|done|].
  exists (put_maker kd b m a). split_and!; [|done|].
  - unfold receive_votes in *. rewrite foldl_snoc, Hrun. cbn [handle_event handle_message]. unfold handle_vote, vote_fuel.
    by rewrite (vote_fuel_run _ v _ (put_maker kd b m a) None) by (by rewrite ?Hvr).
  - intros kd' Hne. rewrite maker_other by done. by apply Hother.
Qed.

(** The votes up to the threshold hand the certificate to [handle_qc]. *)
Lemma receive_completing b vs0 vs v s :
  votes_for kd b (vs0 ++ vs ++ [v]) -> Forall (share_valid c (digest v)) (vs0 ++ vs ++ [v]) ->
  Z.of_nat (length (vs0 ++ vs ++ [v])) = vote_threshold c kd ->
  blk_round (co_last_commit s) < blk_round b -> gathered kd b vs0 (co_aggregator s) ->
  exists a qc fuel, receive_votes (vs ++ [v]) s = (handle_qc_with cfg (handle_vote_fuel cfg (S fuel)) qc (set_aggregator a s)).1 /\
    ag_committee a = c /\ (kd = VT_Normal -> gathered kd b (vs0 ++ vs ++ [v]) a) /\ (forall kd', kd' <> kd -> maker kd' b a = maker kd' b (co_aggregator s)) /\
    qc_blk_hash qc = digest b /\ qc_round qc = blk_round b /\ qc_kind qc = kd /\ qc_fast_quorum qc = false.
Proof.
  rewrite app_assoc. intros Hvs Hval Hlen Hr Hg.
  pose proof Hvs as [Hcn [Hfor [[Hvr _] _]%Forall_cons]%Forall_app].
  destruct (countable_snoc _ _ _ _ Hcn) as (Hcn' & _).
  destruct (receive_collecting b vs0 vs s) as (a & Hrun & Hga & Hother); [by split| |done..|].
  { intros k Hk. apply below_no_hit; [done|]. rewrite length_app in Hlen. simpl in Hlen. lia. }
  destruct (add_completing b v _ a Hvs Hval Hlen Hga) as (m & qc & Hadd & Hopen & Hqc).
  exists (put_maker kd b m a), qc. unfold receive_votes in *. rewrite foldl_snoc, Hrun.
  cbn [handle_event handle_message]. unfold handle_vote, vote_fuel.
  rewrite (vote_fuel_run _ v _ (put_maker kd b m a) (Some qc)) by (by rewrite ?Hvr). eexists.
  split; [reflexivity|]. rewrite put_maker_committee. split_and!; [apply Hga|done| |apply Hqc..].
  intros kd' Hne. rewrite maker_other by done. by apply Hother.
Qed.
End one_kind.

(** Normal votes beyond the quorum, up to the fast threshold. *)
Lemma receive_fast b vs0 vs v s :
  quorum_threshold c < fast_commit_quorum_threshold c ->
  votes_for VT_Normal b (vs0 ++ vs ++ [v]) -> Forall (share_valid c (digest v)) (vs0 ++ vs ++ [v]) ->
  quorum_threshold c <= Z.of_nat (length vs0) ->
  Z.of_nat (length (vs0 ++ vs ++ [v])) = fast_commit_quorum_threshold c ->
  blk_round (co_last_commit s) < blk_round b -> gathered VT_Normal b vs0 (co_aggregator s) ->
  exists a qc fuel, receive_votes (vs ++ [v]) s = (handle_qc_with cfg (handle_vote_fuel cfg (S fuel)) qc (set_aggregator a s)).1 /\
    qc_blk_hash qc = digest b /\ qc_round qc = blk_round b /\ qc_fast_quorum qc = true.
Proof.
  rewrite app_assoc. intros Hlt Hvs Hval H0 Hlen Hr Hg. pose proof Hlen as Hlen'. rewrite length_app in Hlen'. simpl in Hlen'.
  pose proof Hvs as [Hcn [Hfor [[Hvr _] _]%Forall_cons]%Forall_app].
  destruct (countable_snoc _ _ _ _ Hcn) as (Hcn' & _).
  destruct (receive_collecting VT_Normal ltac:(lia) b vs0 vs s) as (a & Hrun & Hga & _);
    [by split|intros k Hk; simpl; lia|done..|].
  destruct (add_fast VT_Normal ltac:(intros _; lia) b v _ a eq_refl Hlt Hvs Hval Hlen Hga) as (m & qc & Hadd & Hqc).
  exists (put_maker VT_Normal b m a), qc. unfold receive_votes in *. rewrite foldl_snoc, Hrun.
  cbn [handle_event handle_message]. unfold handle_vote, vote_fuel.
  rewrite (vote_fuel_run _ v _ (put_maker VT_Normal b m a) (Some qc)) by (by rewrite ?Hvr). by eexists.
Qed.

(** A commit or fast certificate, once it is assembled, commits. *)
Lemma assembled_commits s bs b a qc hv :
  tip_held s -> held s (bs ++ [b]) -> 0 <= blk_round (co_last_commit s) ->
  co_committable_blocks s !! digest b = None ->
  qc_blk_hash qc = digest b -> qc_round qc = blk_round b -> qc_kind qc = VT_Commit \/ qc_fast_quorum qc = true ->
  committed s (handle_qc_with cfg hv qc (set_aggregator a s)).1 bs b.
Proof.
  intros Ht Hh H0 Hnew Hqh Hqr Hk. destruct (sorted_snoc_lt _ _ _ (hd_sorted _ _ Hh)) as (Hr & _ & _).
  destruct (handle_commit_held qc bs b (set_aggregator a s)) as (s' & Hcommit & Hcm);
    [done|by destruct Hh|done|by rewrite Hqh|done|].
  unfold handle_qc_with. run. simpl co_last_commit. rewrite (proj2 (Z.ltb_lt _ _)) by (by rewrite Hqr).
  rewrite (proj2 (orb_true_iff _ _)) by (destruct Hk; [left; by apply bool_decide_eq_true|by right]).
  rewrite Hcommit. by destruct Hcm.
Qed.

(** Normal votes for [b] up to the fast threshold commit it, too. *)
Lemma receive_fast_votes s vs0 vs v bs b :
  quorum_threshold c < fast_commit_quorum_threshold c ->
  tip_held s -> held s (bs ++ [b]) -> 0 <= blk_round (co_last_commit s) ->
  co_committable_blocks s !! digest b = None -> gathered VT_Normal b vs0 (co_aggregator s) ->
  votes_for VT_Normal b (vs0 ++ vs ++ [v]) -> Forall (share_valid c (digest v)) (vs0 ++ vs ++ [v]) ->
  quorum_threshold c <= Z.of_nat (length vs0) ->
  Z.of_nat (length (vs0 ++ vs ++ [v])) = fast_commit_quorum_threshold c ->
  committed s (receive_votes (vs ++ [v]) s) bs b.
Proof.
  intros Hlt Ht Hh H0 Hnew Hg Hvs Hval Hq Hlen. destruct (sorted_snoc_lt _ _ _ (hd_sorted _ _ Hh)) as (Hr & _ & _).
  destruct (receive_fast b vs0 vs v s) as (a & qc & fuel & -> & Hqh & Hqr & Hf); [done..|].
  apply assembled_commits; try done. by right.
Qed.

(** Commit votes for [b] up to the threshold commit it with its ancestors. *)
Lemma receive_commit_votes s vs0 vs v bs b :
  tip_held s -> held s (bs ++ [b]) -> 0 <= blk_round (co_last_commit s) ->
  co_committable_blocks s !! digest b = None -> gathered VT_Commit b vs0 (co_aggregator s) ->
  votes_for VT_Commit b (vs0 ++ vs ++ [v]) -> Forall (share_valid c (digest v)) (vs0 ++ vs ++ [v]) ->
  Z.of_nat (length (vs0 ++ vs ++ [v])) = slow_commit_threshold c ->
  committed s (receive_votes (vs ++ [v]) s) bs b.
Proof.
  intros Ht Hh H0 Hnew Hg Hvs Hval Hlen. destruct (sorted_snoc_lt _ _ _ (hd_sorted _ _ Hh)) as (Hr & _ & _).
  destruct (receive_completing VT_Commit ltac:(done) b vs0 vs v s)
    as (a & qc & fuel & -> & _ & _ & _ & Hqh & Hqr & Hqk & _); [done..|].
  apply assembled_commits; try done. by left.
Qed.

(** Commit votes commit: when a node that holds a block and its uncommitted
    ancestors receives, in any order, valid commit votes for it of distinct
    authorities of stake one up to the slow commit threshold, its ledger grows by
    exactly these blocks. *)
Lemma commit_votes_commit alive s vs v bs b :
  reachable cfg alive s -> tip_held s -> held s (bs ++ [b]) ->
  co_committable_blocks s !! digest b = None ->
  ag_committee (co_aggregator s) = c ->
  ag_commit_maker (co_aggregator s) (blk_round b) = QCMaker_new (Z.to_nat (comm_n c)) ->
  votes_for VT_Commit b (vs ++ [v]) -> Forall (share_valid c (digest v)) (vs ++ [v]) ->
  Z.of_nat (length (vs ++ [v])) = slow_commit_threshold c ->
  ledger (receive_votes (vs ++ [v]) s) = ledger s ++ bs ++ [b] /\
  co_last_commit (receive_votes (vs ++ [v]) s) = b.
Proof.
  intros Hs%reachable_inv Ht Hh Hnew Hag Hmk Hvs Hval Hlen.
  destruct (receive_commit_votes s [] vs v bs b); try done; [apply Hs|by apply gathered_new].
Qed.
End counting.

(** ** A restart *)

(** What a node remembers of blocks and certificates. *)
Record still s s' : Prop := {
  sl_blocks : co_uncommitted_blocks s' = co_uncommitted_blocks s;
  sl_qcs : co_uncommitted_qcs s' = co_uncommitted_qcs s;
  sl_last_commit : co_last_commit s' = co_last_commit s;
  sl_store : co_store s' = co_store s;
}.
#[local] Instance still_preorder : PreOrder still.
Proof. split; [intros s; by split|]. intros s1 s2 s3 [] []. split; congruence. Qed.

(** [m] remembers the same, halts, and reports an error only if [err]. *)
Definition quiet (err : bool) {A} (m : M A) s : Prop :=
  step_in still m s /\
  match (m s).2 with Ok _ | Panicked _ => True | Err _ => err = true | OutOfFuel => False end.

Lemma quiet_bind err {A B} (m : M A) (k : A -> M B) s :
  quiet err m s -> (forall a s', m s = (s', Ok a) -> still s s' -> quiet err (k a) s') -> quiet err (m ≫= k) s.
Proof.
  unfold quiet, step_in, mbind, exec_mbind, exec_bind. intros [Hm He] Hk.
  destruct (m s) as [s' [a|e|msg|]]; simpl in *; try done.
  destruct (Hk a s' eq_refl Hm) as [Hs Hk']. split; [by etrans|done].
Qed.
Lemma quiet_gets err {A B} (f : Core -> A) (k : A -> M B) s : quiet err (k (f s)) s -> quiet err (gets f ≫= k) s.
Proof. done. Qed.
Lemma quiet_modify err {B} f (k : unit -> M B) s :
  still s (f s) -> quiet err (k tt) (f s) -> quiet err (modify f ≫= k) s.
Proof. intros Hf [Hk Ho]. split; [|exact Ho]. unfold step_in in *. etrans; [exact Hf|exact Hk]. Qed.
Lemma quiet_end err f s : still s (f s) -> quiet err (modify f) s.
Proof. by split. Qed.
Lemma quiet_ret err {A} (a : A) s : quiet err (mret a) s.
Proof. split; [by apply keeps_ret, _|done]. Qed.
Lemma quiet_expect err {A} (o : option A) msg s : quiet err (expect o msg) s.
Proof. split; [by apply keeps_expect, _|by destruct o]. Qed.
Lemma quiet_ignore err {A} (m : M A) s : quiet true m s -> quiet err (ignore_err m) s.
Proof.
  intros [Hm Ho]. split; [by apply step_in_ignore|]. unfold ignore_err. by destruct (m s) as [s' []].
Qed.
Lemma quiet_aggregator {A} (P : A -> Prop) (m : Exec Aggregator ConsensusError A) s :
  ends P m -> quiet true (with_aggregator m) s.
Proof.
  intros Hm. specialize (Hm (co_aggregator s)). unfold quiet, step_in, with_aggregator, zoom.
  destruct (m (co_aggregator s)) as [a [x|e|msg|]]; split; done.
Qed.

(** A commit certificate or vote for a block that is not in memory commits
    nothing. *)
Lemma commit_qc_quiet qc s :
  co_uncommitted_blocks s !! qc_blk_hash qc = None -> quiet true (handle_commit_qc cfg qc) s.
Proof.
  intros Hb. unfold handle_commit_qc. apply quiet_gets. case_match; [apply quiet_ret|].
  apply quiet_bind; [|intros [] s' _ _; by apply quiet_end].
  unfold schedule_commit. apply quiet_modify; [done|]. apply quiet_gets. simpl. rewrite Hb. apply quiet_ret.
Qed.
Lemma commit_vote_quiet hv v s :
  vote_kind v = VT_Commit -> co_uncommitted_blocks s !! vote_blk_hash v = None ->
  quiet true (handle_vote_body cfg hv v) s.
Proof.
  intros Hk Hb. unfold handle_vote_body. apply quiet_gets. case_match; [|apply quiet_ret]. rewrite Hk.
  apply quiet_bind; [eapply quiet_aggregator, add_commit_vote_ends|].
  intros [qc|] s' Hrun Hs'; [|apply quiet_ret].
  pose proof (add_commit_vote_ends v (co_aggregator s)) as Hends.
  unfold with_aggregator, zoom in Hrun. destruct (add_commit_vote v (co_aggregator s)) as [a o].
  injection Hrun as _ ->. destruct (Hends qc eq_refl) as (Hkind & _ & Hhash).
  unfold handle_qc_with. apply quiet_gets. case_match; [|apply quiet_ret].
  rewrite Hkind, Hk, bool_decide_true by done. apply commit_qc_quiet. by rewrite (sl_blocks _ _ Hs'), Hhash.
Qed.
Lemma handle_vote_quiet v s :
  vote_kind v = VT_Commit -> co_uncommitted_blocks s !! vote_blk_hash v = None ->
  quiet true (handle_vote cfg v) s.
Proof.
  intros Hk Hb. unfold quiet, step_in, handle_vote, vote_fuel. cbn [handle_vote_fuel].
  by apply commit_vote_quiet.
Qed.
Lemma lock_quiet qc s :
  co_uncommitted_blocks s !! qc_blk_hash qc = None -> quiet false (lock_qc_with cfg (handle_vote cfg) qc) s.
Proof.
  intros Hb. unfold lock_qc_with. apply quiet_gets. case_match; [|apply quiet_ret].
  do 2 (apply quiet_modify; [done|]). apply quiet_gets. case_match; [|apply quiet_ret]. unfold send_vote_with.
  apply quiet_modify; [done|]. rewrite decide_False by done.
  apply quiet_bind; [apply quiet_ret|intros [] s4 [= <-] _].
  apply quiet_bind; [|intros [] s5 _ _; by apply quiet_end].
  apply quiet_ignore, handle_vote_quiet; [done|exact Hb].
Qed.
Lemma propose_quiet qc s : quiet false (propose_normal cfg qc) s.
Proof.
  unfold propose_normal, propose_if_leader, leader_of. apply quiet_bind; [apply quiet_expect|intros l s1 _ _].
  case_decide; [by apply quiet_end|apply quiet_ret].
Qed.

(** [m] panics, at the latest after a quiet start. *)
Definition panics {A} (m : M A) s : Prop := exists msg, (m s).2 = Panicked msg.
Lemma panics_bind {A B} (m : M A) (k : A -> M B) s :
  quiet false m s -> (forall a s', still s s' -> panics (k a) s') -> panics (m ≫= k) s.
Proof.
  unfold quiet, panics, step_in, mbind, exec_mbind, exec_bind. intros [Hm Ho] Hk.
  destruct (m s) as [s' [a|e|msg|]]; simpl in *; [by apply Hk|done|by eexists|done].
Qed.
Lemma panics_first {A B} (m : M A) (k : A -> M B) s : panics m s -> panics (m ≫= k) s.
Proof.
  unfold panics, mbind, exec_mbind, exec_bind. intros [msg Hm].
  destruct (m s) as [s' o]; simpl in *; subst o. by eexists.
Qed.

Lemma get_block_panics d r p s :
  blk_round (co_last_commit s) < r -> is_Some (co_uncommitted_qcs s !! r) ->
  co_uncommitted_blocks s !! d = None -> stored (co_store s) d = Some p ->
  panics (get_block cfg d r) s.
Proof.
  intros Hr Hq Hb Hst. unfold get_block, panics. run. rewrite (proj2 (Z.ltb_lt _ _)) by done. runs.
  rewrite bool_decide_true by done. runs. unfold leader_of.
  destruct (get_leader _ _) as [l|]; [|by eexists]. runs. rewrite Hb.
  rewrite (run_bind _ _ _ _ _ (stored_get _ _ _ _ _ Hst)), bool_decide_false by done. by eexists.
Qed.

(** C24: a node that comes back with its data stops: in any state in which a block
    is in storage but not in memory, as after a restart, the first valid prepare
    certificate for this block, that of a plain quorum of normal votes, of a round
    above the last commit for which the node has no certificate yet, ends the core
    task with a panic, since [get_block] asserts that storage does not have the
    block.  A commit certificate or one of a fast quorum does not: it does not come
    to [get_block]. *)
Theorem stored_block_stops_node s qc p :
  qc_kind qc = VT_Normal -> qc_fast_quorum qc = false ->
  blk_round (co_last_commit s) < qc_round qc -> QC_is_well_formed (cc_committee cfg) qc = Ok tt ->
  co_uncommitted_qcs s !! qc_round qc = None ->
  co_uncommitted_blocks s !! qc_blk_hash qc = None -> stored (co_store s) (qc_blk_hash qc) = Some p ->
  exists msg, (handle_event cfg (Ev_Message (CM_QC qc)) s).2 = Panicked msg.
Proof.
  intros Hk Hf Hr Hwf Hq Hb Hst. cbn [handle_event handle_message].
  rewrite (run_bind _ _ _ s tt); cycle 1.
  { unfold sanitize_certificate. run. rewrite (proj2 (Z.ltb_lt _ _)) by done. rewrite Hwf, Hk. run.
    by case_bool_decide. }
  unfold handle_qc, handle_qc_with. run. rewrite (proj2 (Z.ltb_lt _ _)), Hk, Hf by done.
  rewrite bool_decide_false by done. cbn [orb]. unfold handle_prepare_qc_with. run.
  rewrite Hq, bool_decide_false by (by intros []). runs.
  set (s1 := set_uncommitted_qcs (<[qc_round qc:=qc]> (co_uncommitted_qcs s)) s).
  assert (Hq1 : is_Some (co_uncommitted_qcs s1 !! qc_round qc)) by (simpl; rewrite lookup_insert_eq; by eexists).
  apply panics_bind; [case_match; [apply propose_quiet|apply quiet_ret]|intros _ s2 H2].
  apply panics_bind; [apply lock_quiet; by rewrite (sl_blocks _ _ H2)|intros _ s3 H3].
  destruct (transitivity H2 H3) as [Hbl Hqc Hlc Hs]. apply panics_first.
  by apply (get_block_panics _ _ p); rewrite ?Hlc, ?Hqc, ?Hbl, ?Hs.
Qed.
End liveness.
