(* ===== verification/GoodRound.v ===== *)
(** * GoodRound: a round with an honest leader and a quorum of correct nodes

    What happens in the whole network when the proposal of a round reaches every
    correct node, then a quorum of the prepare votes they cast, then a quorum of
    the commit votes they cast: each of them commits the block.  Every message
    that the nodes handle, the proposal apart, is one that another of them has
    broadcast. *)
From S2P Require Import Prelude Crypto Config BitVec DagMessages Messages Signers Leader Store Proposer Synchronizer Mempool Aggregator AggregatorProps Core CoreSteps CoreProps CoreTermination CoreLiveness.

Section node.
Context `{Prim : Primitives} `{Order : HashIter} {Laws : G2Laws} {Bls : BlsLaws}.
Context `{Rocks : RocksDB} {DbLaws : RocksDBLaws} `{Codec : !BlockCodec} {CodecLaws : BlockCodecLaws}.
Context (cfg : CoreConfig).
Let c := cc_committee cfg.
Context (Hc : committee_wf c) (Hn : (committee_size c <= Z.to_nat (comm_n c))%nat).
Context (Hstake : forall name, 0 <= stake c name).
Context (Htotal : set_weight (stake c) (list_to_set (get_public_keys c)) < 2 ^ 32).
Context (Hqf : quorum_threshold c <= fast_commit_quorum_threshold c).
Implicit Types (s : Core) (v : Vote) (vs : list Vote) (b : Block) (bs : list Block) (a : Aggregator).

(** The node can take part in the round of [b]: the proposal is the first of its
    round, the node has neither timed out nor locked there, nothing of the next
    round has arrived, and no vote of the round either. *)
Record ready s b : Prop := {
  rd_accept : acceptable cfg s b;
  rd_new : co_uncommitted_blocks s !! digest b = None;
  rd_not_tip : digest b <> digest (co_last_commit s);
  rd_next : co_pending_proposals s !! (blk_round b + 1) = None;
  rd_locked : qc_round (co_locked s) < blk_round b;
  rd_range : 0 <= blk_round b + 1 < 2 ^ 64;
  rd_next_leader : is_Some (get_leader (cc_leader_elector cfg) (blk_round b + 1));
  rd_committee : ag_committee (co_aggregator s) = c;
  rd_makers : forall kd, maker kd b (co_aggregator s) = QCMaker_new (Z.to_nat (comm_n c));
}.

(** [bs ++ [b]] continue the ledger; [bs] are in memory. *)
Record extends s bs b : Prop := {
  ex_tip : tip_held s;
  ex_chain : chain (digest (co_last_commit s)) (bs ++ [b]);
  ex_sorted : StronglySorted Z.lt (blk_round (co_last_commit s) :: map blk_round (bs ++ [b]));
  ex_held : Forall (fun p => co_uncommitted_blocks s !! digest p = Some p) bs;
}.

(** ** Voting *)

(** A vote that does not reach the threshold is counted and sent. *)
Lemma cast_collecting kd hv fuel vs v b s :
  (forall s', hv v s' = handle_vote_fuel cfg (S (fuel s')) v s') ->
  votes_for cfg kd b (vs ++ [v]) -> Z.of_nat (length (vs ++ [v])) < vote_threshold c kd ->
  blk_round (co_last_commit s) < blk_round b -> gathered cfg kd b vs (co_aggregator s) ->
  exists a, cast_vote cfg hv v s =
      (emitted (Ef_Broadcast (others_consensus_sockets c (cc_name cfg)) (CM_Vote v)) (set_aggregator a s), Ok tt) /\
    gathered cfg kd b (vs ++ [v]) a /\
    forall kd', kd' <> kd -> maker kd' b a = maker kd' b (co_aggregator s).
Proof.
  intros Hhv Hvs Hlen Hr Hg. pose proof Hvs as [_ [_ [[Hvr _] _]%Forall_cons]%Forall_app].
  destruct (add_collecting cfg Hc Hn Hstake Htotal kd ltac:(done) b v vs (co_aggregator s) Hvs (below_no_hit _ _ _ ltac:(done) Hlen) Hg) as (m & Hadd & Hgm).
  exists (put_maker kd b m (co_aggregator s)). split_and!; [|done|intros kd' Hne; by apply maker_other].
  unfold cast_vote. rewrite (run_bind _ _ _ (set_aggregator (put_maker kd b m (co_aggregator s)) s) tt); [reflexivity|].
  unfold ignore_err. rewrite Hhv.
  by rewrite (vote_fuel_run cfg _ v s (put_maker kd b m (co_aggregator s)) None) by (by rewrite ?Hvr).
Qed.

(** What the phases of a round leave alone. *)
Record same_chain s s' : Prop := {
  sc_last_commit : co_last_commit s' = co_last_commit s;
  sc_ledger : ledger s' = ledger s;
  sc_committable : co_committable_blocks s' = co_committable_blocks s;
  sc_blocks : co_uncommitted_blocks s' = co_uncommitted_blocks s;
  sc_store : co_store s' = co_store s;
}.

Lemma same_chain_tip s s' : same_chain s s' -> tip_held s -> tip_held s'.
Proof. intros [Hlc _ _ Hb Hst] (p & Hr & Hp). exists p. by rewrite Hlc, Hb, Hst. Qed.
Lemma same_chain_held s s' bs : same_chain s s' -> held s bs -> held s' bs.
Proof. intros [Hlc _ _ Hb _] [H1 H2 H3]. split; by rewrite ?Hlc, ?Hb. Qed.

(** ** The proposal *)

(** The node that has accepted and voted for [b]. *)
Record prepared s b : Prop := {
  pr_round : co_round s = blk_round b;
  pr_last_commit : blk_round (co_last_commit s) < blk_round b;
  pr_locked : qc_round (co_locked s) < blk_round b;
  pr_last_timeout : co_last_timeout s < blk_round b;
  pr_block : co_uncommitted_blocks s !! digest b = Some b;
  pr_next : co_pending_proposals s !! (blk_round b + 1) = None;
  pr_range : 0 <= blk_round b + 1 < 2 ^ 64;
  pr_leaders : is_Some (get_leader (cc_leader_elector cfg) (blk_round b)) /\
    is_Some (get_leader (cc_leader_elector cfg) (blk_round b + 1));
  pr_commits : gathered cfg VT_Commit b [] (co_aggregator s);
}.

(** ** The prepare certificate *)

(** Locking the certificate casts the commit vote. *)
Lemma lock_phase fuel qc b s :
  prepared s b -> stake c (cc_name cfg) = 1 -> 1 < vote_threshold c VT_Commit ->
  qc_blk_hash qc = digest b -> qc_round qc = blk_round b ->
  let v := own_vote cfg VT_Commit b in
  exists s', lock_qc_with cfg (handle_vote_fuel cfg (S fuel)) qc s = (s', Ok tt) /\
    same_chain s s' /\ gathered cfg VT_Commit b [v] (co_aggregator s') /\
    Ef_Broadcast (others_consensus_sockets c (cc_name cfg)) (CM_Vote v) ∈ effects s' /\
    co_uncommitted_qcs s' = co_uncommitted_qcs s /\ co_round s' = co_round s /\
    co_pending_proposals s' = co_pending_proposals s /\
    maker VT_Normal b (co_aggregator s') = maker VT_Normal b (co_aggregator s).
Proof.
  intros Hp H1 Hth Hh Hr v. unfold lock_qc_with. run.
  rewrite (proj2 (Z.ltb_lt _ _)) by (rewrite Hr; apply Hp). runs. rewrite Hr, Hh.
  change (co_last_timeout _) with (co_last_timeout s) at 1. rewrite (proj2 (Z.ltb_lt _ _)) by apply Hp.
  unfold send_vote_with. fold (own_vote cfg VT_Commit b). fold v.
  rewrite decide_False by done. unfold emit. runs.
  set (s1 := set_trace _ _).
  destruct (cast_collecting VT_Commit (handle_vote_fuel cfg (S fuel)) (fun _ => fuel) [] v b s1) as (a & Hrun & Hg & Hother).
  - done.
  - split; [split|]; repeat constructor; [by apply not_elem_of_nil|done].
  - done.
  - apply Hp.
  - destruct (pr_commits _ _ Hp) as [Hca Hi Ho]. by split.
  - unfold cast_vote in Hrun. rewrite Hrun. eexists. split; [reflexivity|].
    split; [by split|]. split; [exact Hg|]. split_and!; [left|done..|by apply Hother].
Qed.

(** The certificate is handled to the end: the node moves on to the next round. *)
Lemma prepare_phase fuel qc b s :
  prepared s b -> co_uncommitted_qcs s !! blk_round b = None ->
  stake c (cc_name cfg) = 1 -> 1 < vote_threshold c VT_Commit ->
  qc_blk_hash qc = digest b -> qc_round qc = blk_round b -> qc_kind qc = VT_Normal -> qc_fast_quorum qc = false ->
  let v := own_vote cfg VT_Commit b in
  exists s', handle_qc_with cfg (handle_vote_fuel cfg (S fuel)) qc s = (s', Ok tt) /\
    same_chain s s' /\ gathered cfg VT_Commit b [v] (co_aggregator s') /\
    Ef_Broadcast (others_consensus_sockets c (cc_name cfg)) (CM_Vote v) ∈ effects s' /\
    maker VT_Normal b (co_aggregator s') = maker VT_Normal b (co_aggregator s).
Proof.
  intros Hp Hnew H1 Hth Hh Hr Hk Hf v. destruct (pr_leaders _ _ Hp) as [[l Hl] [l' Hl']].
  pose proof (u64_add_small _ _ (pr_range _ _ Hp)) as Hadd.
  unfold handle_qc_with. run. rewrite (proj2 (Z.ltb_lt _ _)) by (rewrite Hr; apply Hp).
  rewrite Hk, Hf, bool_decide_false by done. cbn [orb]. unfold handle_prepare_qc_with. run.
  rewrite Hr, Hnew, bool_decide_false by (by intros []). runs.
  set (s1 := set_uncommitted_qcs (<[blk_round b:=qc]> (co_uncommitted_qcs s)) s).
  change (co_round s1) with (co_round s). rewrite Hadd, (pr_round _ _ Hp), (proj2 (Z.ltb_lt _ _)) by lia.
  (* the next leader proposes *)
  assert (Hprop : exists s2, propose_normal cfg qc s1 = (s2, Ok tt) /\ same_chain s1 s2 /\
            co_uncommitted_qcs s2 = co_uncommitted_qcs s1 /\ prepared s2 b /\ co_aggregator s2 = co_aggregator s1).
  { unfold propose_normal, propose_if_leader, leader_of. rewrite Hr, Hadd, Hl'. run.
    case_decide; eexists; (split; [reflexivity|]); (split; [by split|]); (split; [done|]); (split; [by destruct Hp|done]). }
  destruct Hprop as (s2 & Hrun & H12 & Hq2 & Hp2 & Ha2). rewrite (run_bind _ _ _ _ _ Hrun). clear Hrun.
  destruct (lock_phase fuel qc b s2 Hp2 H1 Hth Hh Hr) as (s3 & Hrun & H23 & Hg & Hsent & Hq3 & Hr3 & Hp3 & Hm3).
  rewrite (run_bind _ _ _ _ _ Hrun). clear Hrun.
  destruct H12 as [Hlc2 Hld2 Hcm2 Hbl2 Hst2], H23 as [Hlc3 Hld3 Hcm3 Hbl3 Hst3].
  (* the block is there *)
  rewrite (run_bind _ _ _ s3 (Some b)); cycle 1.
  { unfold get_block. run. rewrite Hlc3, (proj2 (Z.ltb_lt _ _)) by apply Hp2. run.
    rewrite Hq3, Hq2. simpl co_uncommitted_qcs. rewrite lookup_insert_eq, bool_decide_true by (by eexists). run.
    unfold leader_of. rewrite Hl. runs. by rewrite Hbl3, Hh, (pr_block _ _ Hp2). }
  unfold broadcast at 1. cbn [is_sendable]. unfold emit. run.
  unfold advance_to_round_with, cleanup_proposals, timer_reset, emit. run.
  change (co_round (set_trace _ s3)) with (co_round s3). rewrite Hr3, (pr_round _ _ Hp2), (proj2 (Z.ltb_lt _ _)) by lia.
  runs. unfold try_vote_with. runs. cbn [co_round set_timer set_round].
  match goal with |- context [co_pending_proposals ?s] => change (co_pending_proposals s) with (co_pending_proposals s3) end.
  rewrite Hp3, (pr_next _ _ Hp2). eexists. split; [reflexivity|].
  split; [split; try (etrans; eassumption)|split; [exact Hg|split; [do 2 right; exact Hsent|]]].
  etrans; [exact Hm3|]. by rewrite Ha2.
Qed.

(** ** The proposal *)
Lemma propose_phase p s :
  let b := np_block p in let v := own_vote cfg VT_Normal b in
  qc_known s (np_qc p) -> NormalProposal_is_well_formed c p = Ok tt -> ready s b ->
  stake c (cc_name cfg) = 1 -> 1 < vote_threshold c VT_Normal ->
  exists s', handle_proposal cfg (PM_N p) s = (s', Ok tt) /\
    prepared s' b /\ co_uncommitted_qcs s' !! blk_round b = None /\
    gathered cfg VT_Normal b [v] (co_aggregator s') /\
    Ef_Broadcast (others_consensus_sockets c (cc_name cfg)) (CM_Vote v) ∈ effects s' /\
    same_chain (add_block b s) s'.
Proof.
  intros b v Hqc Hwf Hrd H1 Hth. rewrite (process_known_proposal cfg s p Hqc Hwf). fold b.
  pose proof (rd_accept _ _ Hrd) as Hac. rewrite (process_acceptable_run cfg s b Hac). fold v.
  destruct (cast_collecting VT_Normal (handle_vote cfg) (fun s' => S (size (filter (fun x => co_round s' < x.1) (co_pending_proposals s'))))
              [] v b (voted_state cfg s b)) as (a & Hrun & Hg & Hother).
  - done.
  - split; [split|]; repeat constructor; [by apply not_elem_of_nil|done].
  - done.
  - apply Hac.
  - apply gathered_new; apply Hrd.
  - rewrite Hrun. eexists. split; [reflexivity|].
    split_and!; [|apply Hac|done|left|by split].
    split; try (simpl; apply Hac); try apply Hrd.
    + simpl. symmetry. apply Hac.
    + apply (lookup_insert_eq (co_uncommitted_blocks s)).
    + change (<[blk_round b := digest b]> (co_pending_proposals s) !! (blk_round b + 1) = None).
      rewrite lookup_insert_ne by lia. apply Hrd.
    + split; [by rewrite (ac_leader _ _ _ Hac)|apply Hrd].
    + apply gathered_new; [apply Hg|]. change (maker VT_Commit b a = QCMaker_new (Z.to_nat (comm_n c))).
      rewrite Hother by done. apply Hrd.
Qed.

(** Adding the block keeps what the commit needs. *)
Lemma extends_held bs b s :
  ready s b -> extends s bs b -> tip_held (add_block b s) /\ held (add_block b s) (bs ++ [b]).
Proof.
  intros Hrd [(p & Hr & Hp) Hch Hs Hb]. split.
  - exists p. split; [done|]. simpl. rewrite lookup_insert_ne by apply Hrd.
    destruct Hp as [?|[Hn' Hst]]; [by left|right]. split; [done|].
    change (stored (store_write (digest_bytes (digest b)) (block_encode b) (co_store s)) (digest (co_last_commit s)) = Some p).
    destruct (stored_write (co_store s) b (digest (co_last_commit s))) as [->|[[Heq _]|Hgen]]; [done| |].
    + by destruct (rd_not_tip _ _ Hrd).
    + revert Hst. unfold stored, sync_get_block. by rewrite !decide_True by done.
  - split; [done|done|]. apply Forall_app. split; [|by repeat constructor; apply lookup_insert_eq].
    eapply Forall_impl; [exact Hb|]. intros q Hq. simpl. rewrite lookup_insert_ne; [done|].
    intros Heq. pose proof (rd_new _ _ Hrd) as Hnew. by rewrite Heq, Hq in Hnew.
Qed.

(** ** The round of one node *)

(** Votes of one kind for one block are votes for the same message. *)
Lemma votes_digest kd b vs v v' : votes_for cfg kd b vs -> v ∈ vs -> v' ∈ vs -> digest v = digest v'.
Proof.
  intros [[_ _ Hk] Hb] Hv Hv'. rewrite Forall_forall in Hk, Hb. unfold digest, Vote_hash.
  destruct (Hb v Hv) as [-> ->], (Hb v' Hv') as [-> ->]. by rewrite (Hk v Hv), (Hk v' Hv').
Qed.

(** The votes of the others that complete a quorum with the node's own. *)
Record completes kd b vs : Prop := {
  cp_votes : votes_for cfg kd b (own_vote cfg kd b :: vs);
  cp_shares : Forall (share_valid c (digest (own_vote cfg kd b))) (own_vote cfg kd b :: vs);
  cp_some : vs <> [];
  cp_length : Z.of_nat (S (length vs)) = vote_threshold c kd;
}.

Lemma completes_last kd b vs :
  completes kd b vs -> 1 < vote_threshold c kd /\
  exists vs' v, vs = vs' ++ [v] /\ Forall (share_valid c (digest v)) ([own_vote cfg kd b] ++ vs' ++ [v]).
Proof.
  intros [Hv Hs Hne Hl]. destruct vs as [|v vs _] using rev_ind; [done|]. clear Hne.
  rewrite length_app in Hl. simpl in Hl. split; [lia|]. exists vs, v. split; [done|].
  rewrite (votes_digest kd b _ v (own_vote cfg kd b) Hv); [done|set_solver|set_solver].
Qed.

(** The proposal and a quorum of prepare votes. *)
Lemma certified_phase p s nvs :
  let b := np_block p in
  let s1 := (handle_proposal cfg (PM_N p) s).1 in
  let s2 := receive_votes cfg nvs s1 in
  qc_known s (np_qc p) -> NormalProposal_is_well_formed c p = Ok tt ->
  ready s b -> stake c (cc_name cfg) = 1 -> 1 < vote_threshold c VT_Commit -> completes VT_Normal b nvs ->
  Ef_Broadcast (others_consensus_sockets c (cc_name cfg)) (CM_Vote (own_vote cfg VT_Normal b)) ∈ effects s1 /\
  Ef_Broadcast (others_consensus_sockets c (cc_name cfg)) (CM_Vote (own_vote cfg VT_Commit b)) ∈ effects s2 /\
  same_chain (add_block b s) s2 /\
  gathered cfg VT_Normal b (own_vote cfg VT_Normal b :: nvs) (co_aggregator s2) /\
  gathered cfg VT_Commit b [own_vote cfg VT_Commit b] (co_aggregator s2).
Proof.
  intros b s1 s2 Hqc Hwf Hrd H1 Hcth Hnv. destruct (completes_last _ _ _ Hnv) as (Hnth & nvs' & nv & -> & Hns).
  destruct (propose_phase p s Hqc Hwf Hrd H1 Hnth) as (s1' & Hrun & Hp & Hnew & Hg & Hsent & Hsame).
  assert (s1 = s1') as <- by (unfold s1; by rewrite Hrun). clear Hrun. fold b in Hp, Hnew, Hg, Hsent, Hsame.
  split; [exact Hsent|].
  destruct (receive_completing cfg Hc Hn Hstake Htotal VT_Normal ltac:(done) b [own_vote cfg VT_Normal b] nvs' nv s1)
    as (a & qc & fuel & Hs2 & Hca & Hopen & Hother & Hqh & Hqr & Hqk & Hqfast); [apply Hnv|done|apply Hnv|apply Hp|done|].
  fold s2 in Hs2.
  destruct (prepare_phase fuel qc b (set_aggregator a s1)) as (s2' & Hrun & Hsame2 & Hg2 & Hsent2 & Hm2); [|done..|].
  { destruct Hp. split; try done. destruct pr_commits0 as [_ Hi Ho]. by split; simpl co_aggregator; rewrite ?Hother. }
  assert (s2 = s2') as <- by by rewrite Hs2, Hrun. split; [exact Hsent2|]. split_and!; [| |done].
  - destruct Hsame as [? ? ? ? ?], Hsame2 as [? ? ? ? ?]. split; (etrans; [eassumption|]); simpl; assumption.
  - destruct (Hopen eq_refl) as [_ Hi Ho]. split; [apply Hg2|by rewrite Hm2..].
Qed.

(** A quorum of commit votes after it. *)
Lemma node_round p s bs nvs cvs :
  let b := np_block p in
  let s1 := (handle_proposal cfg (PM_N p) s).1 in
  let s2 := receive_votes cfg nvs s1 in
  qc_known s (np_qc p) -> NormalProposal_is_well_formed c p = Ok tt -> 0 <= blk_round (co_last_commit s) ->
  ready s b -> extends s bs b -> stake c (cc_name cfg) = 1 ->
  completes VT_Normal b nvs -> completes VT_Commit b cvs ->
  Ef_Broadcast (others_consensus_sockets c (cc_name cfg)) (CM_Vote (own_vote cfg VT_Normal b)) ∈ effects s1 /\
  Ef_Broadcast (others_consensus_sockets c (cc_name cfg)) (CM_Vote (own_vote cfg VT_Commit b)) ∈ effects s2 /\
  ledger (receive_votes cfg cvs s2) = ledger s ++ bs ++ [b].
Proof.
  intros b s1 s2 Hqc Hwf H0 Hrd Hex H1 Hnv Hcv. destruct (completes_last _ _ _ Hcv) as (Hcth & cvs' & cv & -> & Hcs).
  destruct (certified_phase p s nvs Hqc Hwf Hrd H1 Hcth Hnv) as (Hsent & Hsent2 & Hchain & _ & Hg2).
  split; [exact Hsent|]. split; [exact Hsent2|]. fold b s1 s2 in Hchain, Hg2.
  destruct (extends_held bs b s Hrd Hex) as [Htip Hheld].
  destruct (receive_commit_votes cfg Hc Hn Hstake Htotal s2 [own_vote cfg VT_Commit b] cvs' cv bs b) as [Hl _ _ _];
    [by eapply same_chain_tip|by eapply same_chain_held|rewrite (sc_last_commit _ _ Hchain); exact H0
    |rewrite (sc_committable _ _ Hchain); apply (rd_accept _ _ Hrd)|done|apply Hcv|done|apply Hcv|].
  rewrite Hl, (sc_ledger _ _ Hchain). reflexivity.
Qed.

(** More prepare votes instead, up to the fast threshold. *)
Lemma node_fast_round p s bs nvs fvs :
  let b := np_block p in
  let s1 := (handle_proposal cfg (PM_N p) s).1 in
  qc_known s (np_qc p) -> NormalProposal_is_well_formed c p = Ok tt -> 0 <= blk_round (co_last_commit s) ->
  ready s b -> extends s bs b -> stake c (cc_name cfg) = 1 -> 1 < vote_threshold c VT_Commit ->
  quorum_threshold c < fast_commit_quorum_threshold c ->
  completes VT_Normal b nvs ->
  votes_for cfg VT_Normal b (own_vote cfg VT_Normal b :: nvs ++ fvs) ->
  Forall (share_valid c (digest (own_vote cfg VT_Normal b))) (own_vote cfg VT_Normal b :: nvs ++ fvs) ->
  Z.of_nat (S (length (nvs ++ fvs))) = fast_commit_quorum_threshold c ->
  Ef_Broadcast (others_consensus_sockets c (cc_name cfg)) (CM_Vote (own_vote cfg VT_Normal b)) ∈ effects s1 /\
  ledger (receive_votes cfg (nvs ++ fvs) s1) = ledger s ++ bs ++ [b].
Proof.
  intros b s1 Hqc Hwf H0 Hrd Hex H1 Hcth Hlt Hnv Hvs Hval Hlen.
  destruct (certified_phase p s nvs Hqc Hwf Hrd H1 Hcth Hnv) as (Hsent & _ & Hchain & Hg & _).
  split; [exact Hsent|]. fold b s1 in Hchain, Hg.
  assert (Hsplit : receive_votes cfg (nvs ++ fvs) s1 = receive_votes cfg fvs (receive_votes cfg nvs s1)) by apply foldl_app.
  rewrite Hsplit. set (s2 := receive_votes cfg nvs s1) in *.
  assert (Hq : Z.of_nat (S (length nvs)) = quorum_threshold c) by apply (cp_length _ _ _ Hnv).
  destruct fvs as [|v fvs _] using rev_ind; [rewrite app_nil_r in Hlen; lia|].
  destruct (extends_held bs b s Hrd Hex) as [Htip Hheld].
  destruct (receive_fast_votes cfg Hc Hn Hstake Htotal s2 (own_vote cfg VT_Normal b :: nvs) fvs v bs b) as [Hl _ _ _];
    [done|by eapply same_chain_tip|by eapply same_chain_held|rewrite (sc_last_commit _ _ Hchain); exact H0
    |rewrite (sc_committable _ _ Hchain); apply (rd_accept _ _ Hrd)|done|done| |by apply Z.eq_le_incl|exact Hlen|].
  { rewrite (votes_digest VT_Normal b _ v (own_vote cfg VT_Normal b) Hvs); [done|set_solver|set_solver]. }
  rewrite Hl, (sc_ledger _ _ Hchain). reflexivity.
Qed.

End node.

(** ** The round of the network *)
Section network.
Context `{Prim : Primitives} `{Order : HashIter} {Laws : G2Laws} {Bls : BlsLaws}.
Context `{Rocks : RocksDB} {DbLaws : RocksDBLaws} `{Codec : !BlockCodec} {CodecLaws : BlockCodecLaws}.
Context (c : Committee) (Hc : committee_wf c) (Hn : (committee_size c <= Z.to_nat (comm_n c))%nat).
Context (Hstake : forall name, 0 <= stake c name).
Context (Htotal : set_weight (stake c) (list_to_set (get_public_keys c)) < 2 ^ 32).
Context (Hqf : quorum_threshold c <= fast_commit_quorum_threshold c).
(** The correct nodes, of stake one, and their configurations. *)
Context (H : gset PublicKey) (config : PublicKey -> CoreConfig).
Implicit Types (x y : PublicKey) (kd : VoteType).

(** What a node signs with its BLS secret verifies under its key of the committee. *)
Record correct x : Prop := {
  ct_name : cc_name (config x) = x;
  ct_committee : cc_committee (config x) = c;
  ct_stake : stake c x = 1;
  ct_keys : exists k, get_bls_public_g2 c x = Some k /\
    forall d, bls_verify d k (bls_sign d (cc_bls_secret (config x))) = true;
}.

(** The vote that [x] casts for [b], and its place on the record of [x]. *)
Definition vote_by kd b x : Vote := own_vote (config x) kd b.
Definition sent kd b x (s : Core) : Prop :=
  Ef_Broadcast (others_consensus_sockets c x) (CM_Vote (vote_by kd b x)) ∈ effects s.

(** Nodes other than [x] whose votes complete a quorum with that of [x]. *)
Record heard kd x (ys : list PublicKey) : Prop := {
  he_correct : forall y, y ∈ ys -> y ∈ H;
  he_distinct : NoDup (x :: ys);
  he_some : ys <> [];
  he_quorum : Z.of_nat (S (length ys)) = vote_threshold c kd;
}.

(** The proposal comes over the network, or from the node's own proposer. *)
Definition arrives (p : NormalProposal) (ev : CoreEvent) : Prop :=
  ev = Ev_Message (CM_Propose (PM_N p)) \/ ev = Ev_Proposer (PM_N p).

(** A node before the round: [bs] are the ancestors of the proposed block that it
    has not committed yet. *)
Record before_round x s (p : NormalProposal) (bs : list Block) : Prop := {
  br_reachable : reachable (config x) true s;
  br_parent : qc_known s (np_qc p);
  br_ready : ready (config x) s (np_block p);
  br_extends : extends s bs (np_block p);
}.

(** The votes of correct nodes count. *)
Lemma correct_votes kd b x ys :
  (forall y, y ∈ x :: ys -> correct y) -> NoDup (x :: ys) ->
  votes_for (config x) kd b (own_vote (config x) kd b :: map (vote_by kd b) ys) /\
  Forall (share_valid (cc_committee (config x)) (digest (own_vote (config x) kd b)))
    (own_vote (config x) kd b :: map (vote_by kd b) ys).
Proof.
  intros Hall Hd. assert (Hcomm : cc_committee (config x) = c) by (apply Hall; left).
  assert (Hauth : authors (map (vote_by kd b) (x :: ys)) = x :: ys).
  { rewrite <-(map_id (x :: ys)) at 2. unfold authors. rewrite map_map. apply map_ext_in.
    intros y Hy%list_elem_of_In. by destruct (Hall y Hy). }
  split; rewrite ?Hcomm; [split; [split|]|];
    change (own_vote (config x) kd b :: map (vote_by kd b) ys) with (map (vote_by kd b) (x :: ys)).
  - by rewrite Hauth.
  - apply Forall_map, Forall_forall. intros y Hy. destruct (Hall y Hy) as [Hname _ H1 _].
    cbn. rewrite Hname, Hcomm. exact H1.
  - by apply Forall_map, Forall_true.
  - by apply Forall_map, Forall_true.
  - apply Forall_map, Forall_forall. intros y Hy. destruct (Hall y Hy) as [Hname _ _ (k & Hk & Hv)].
    exists k. split; [by cbn; rewrite Hname|]. apply Hv.
Qed.

Lemma heard_completes kd b x ys :
  (forall y, y ∈ H -> correct y) -> x ∈ H -> heard kd x ys ->
  completes (config x) kd b (map (vote_by kd b) ys).
Proof.
  intros Hok Hx [Hin Hd Hne Hq].
  destruct (correct_votes kd b x ys) as [Hv Hs]; [intros y [->|?]%elem_of_cons; auto|done|].
  pose proof (ct_committee x (Hok x Hx)) as Hcomm.
  split; [done|done|by destruct ys|]. by rewrite length_map, Hcomm.
Qed.

(** One node with its arrival and the events it handles. *)
Lemma arrival_run x p ev s :
  arrives p ev -> (handle_event (config x) ev s).1 = (handle_proposal (config x) (PM_N p) s).1.
Proof. intros [->| ->]; reflexivity. Qed.

(** C6: a round with an honest leader commits everywhere: take nodes of stake one
    that hold the uncommitted ancestors of a well-formed proposal of the leader
    of their round and have not timed out.  When each of them handles the
    proposal, then the prepare votes of a quorum, then the commit votes of a
    slow commit quorum, every one of these votes has been broadcast by the
    correct node that signs it in the phase before, and every one of the nodes
    has appended the ancestors and the block to its ledger, without waiting for a
    timer. *)
Theorem honest_round_commits (p : NormalProposal) (S : PublicKey -> Core) (bs : PublicKey -> list Block)
    (arrival : PublicKey -> CoreEvent) (from : VoteType -> PublicKey -> list PublicKey) :
  (forall x, x ∈ H -> correct x) ->
  NormalProposal_is_well_formed c p = Ok tt ->
  (forall x, x ∈ H -> before_round x (S x) p (bs x)) ->
  (forall x, x ∈ H -> arrives p (arrival x)) ->
  (forall kd x, x ∈ H -> heard kd x (from kd x)) ->
  let b := np_block p in
  let S1 x := (handle_event (config x) (arrival x) (S x)).1 in
  let S2 x := receive_votes (config x) (map (vote_by VT_Normal b) (from VT_Normal x)) (S1 x) in
  let S3 x := receive_votes (config x) (map (vote_by VT_Commit b) (from VT_Commit x)) (S2 x) in
  forall x, x ∈ H ->
    (forall y, y ∈ from VT_Normal x -> sent VT_Normal b y (S1 y)) /\
    (forall y, y ∈ from VT_Commit x -> sent VT_Commit b y (S2 y)) /\
    ledger (S3 x) = ledger (S x) ++ bs x ++ [b].
Proof.
  intros Hok Hwf Hbefore Harr Hheard b S1 S2 S3.
  assert (Hnode : forall x, x ∈ H -> sent VT_Normal b x (S1 x) /\ sent VT_Commit b x (S2 x) /\
            ledger (S3 x) = ledger (S x) ++ bs x ++ [b]).
  { intros x Hx. destruct (Hok x Hx) as [Hname Hcomm Hst _], (Hbefore x Hx) as [Hr Hqc Hrd Hex].
    pose proof (arrival_run x p (arrival x) (S x) (Harr x Hx)) as Hrun. fold (S1 x) in Hrun.
    unfold S3, S2, sent, vote_by at 1 3. rewrite Hrun.
    pose proof (node_round (config x)) as Hround. rewrite Hcomm, Hname in Hround.
    apply Hround; try done; [by apply reachable_inv in Hr; apply Hr|by apply heard_completes; auto..]. }
  intros x Hx. split_and!; [intros y Hy; apply Hnode, (he_correct _ _ _ (Hheard VT_Normal x Hx)), Hy
                           |intros y Hy; apply Hnode, (he_correct _ _ _ (Hheard VT_Commit x Hx)), Hy|by apply Hnode].
Qed.

(** Nodes other than [x] whose prepare votes complete a fast quorum with that of
    [x]. *)
Record heard_fast x (ys : list PublicKey) : Prop := {
  hf_correct : forall y, y ∈ ys -> y ∈ H;
  hf_distinct : NoDup (x :: ys);
  hf_quorum : Z.of_nat (S (length ys)) = fast_commit_quorum_threshold c;
}.

(** C7: the fast path: in the same setting, when each node handles the proposal and
    then the prepare votes of a fast quorum, in any order, it has committed the
    block and its ancestors, one message delay earlier and without a commit vote
    from anyone else; every one of these votes has been broadcast by the correct
    node that signs it when it handled the proposal. *)
Theorem fast_round_commits (p : NormalProposal) (S : PublicKey -> Core) (bs : PublicKey -> list Block)
    (arrival : PublicKey -> CoreEvent) (from : PublicKey -> list PublicKey) :
  1 < quorum_threshold c < fast_commit_quorum_threshold c -> 1 < slow_commit_threshold c ->
  (forall x, x ∈ H -> correct x) ->
  NormalProposal_is_well_formed c p = Ok tt ->
  (forall x, x ∈ H -> before_round x (S x) p (bs x)) ->
  (forall x, x ∈ H -> arrives p (arrival x)) ->
  (forall x, x ∈ H -> heard_fast x (from x)) ->
  let b := np_block p in
  let S1 x := (handle_event (config x) (arrival x) (S x)).1 in
  let S2 x := receive_votes (config x) (map (vote_by VT_Normal b) (from x)) (S1 x) in
  forall x, x ∈ H ->
    (forall y, y ∈ from x -> sent VT_Normal b y (S1 y)) /\
    ledger (S2 x) = ledger (S x) ++ bs x ++ [b].
Proof.
  intros [Hq1 Hlt] Hslow Hok Hwf Hbefore Harr Hheard b S1 S2.
  assert (Hnode : forall x, x ∈ H -> sent VT_Normal b x (S1 x) /\ ledger (S2 x) = ledger (S x) ++ bs x ++ [b]).
  { intros x Hx. destruct (Hok x Hx) as [Hname Hcomm Hst _], (Hbefore x Hx) as [Hr Hqc Hrd Hex].
    destruct (Hheard x Hx) as [Hin Hd Hlen].
    pose proof (arrival_run x p (arrival x) (S x) (Harr x Hx)) as Hrun. fold (S1 x) in Hrun.
    set (k := Z.to_nat (quorum_threshold c - 1)). rewrite <-(take_drop k (from x)) in Hin, Hd, Hlen.
    destruct (correct_votes VT_Normal b x (take k (from x) ++ drop k (from x))) as [Hvs Hval];
      [intros y [->|?]%elem_of_cons; auto|done|].
    assert (Htake : length (take k (from x)) = k).
    { apply length_take_le. rewrite take_drop in Hlen. unfold k. lia. }
    assert (Hcompl : completes (config x) VT_Normal b (map (vote_by VT_Normal b) (take k (from x)))).
    { apply heard_completes; [done..|]. split.
      - intros y Hy. apply Hin. set_solver.
      - change (NoDup ((x :: take k (from x)) ++ drop k (from x))) in Hd. by apply NoDup_app in Hd as [? _].
      - intros Hnil. rewrite Hnil in Htake. unfold k in Htake. simpl in Htake. lia.
      - rewrite Htake. simpl vote_threshold. unfold k. lia. }
    unfold S2, sent, vote_by at 1. rewrite <-(take_drop k (from x)) at 1. rewrite Hrun, map_app.
    pose proof (node_fast_round (config x)) as Hround. rewrite Hcomm, Hname in Hround. rewrite Hcomm in Hval.
    rewrite map_app in Hvs, Hval.
    apply Hround; try done; [by apply reachable_inv in Hr; apply Hr|].
    rewrite <-map_app, length_map. exact Hlen. }
  intros x Hx. split; [intros y Hy; apply Hnode, (hf_correct _ _ (Hheard x Hx)), Hy|by apply Hnode].
Qed.
End network.
