(* ===== verification/ViewChange.v ===== *)
(** * ViewChange: a round in which the timers of a quorum of correct nodes expire

    The counterpart of [GoodRound] for a round without progress: every correct
    node times out, a view change quorum of the timeouts that they broadcast
    reaches each of them, and each enters the next round with a timeout
    certificate, which the leader of that round is to propose on. *)
From S2P Require Import Prelude Crypto Config BitVec DagMessages Messages Signers Leader Store Proposer Synchronizer Mempool Aggregator AggregatorProps Core CoreSteps CoreProps CoreTermination CoreLiveness GoodRound.

(** ** The maker *)
Section maker.
Context `{Prim : Primitives} `{Order : HashIter} {OrderLaws : HashIterLaws} {Laws : G2Laws}.
Context (c : Committee) (Hc : committee_wf c) (Hn : (committee_size c <= Z.to_nat (comm_n c))%nat).
Context (Hstake : forall name, 0 <= stake c name).
Context (Htotal : set_weight (stake c) (list_to_set (get_public_keys c)) < 2 ^ 32).
Context (r : Round).
Implicit Types (m : TCMaker) (t : Timeout) (ts : list Timeout) (v : Vote) (vs : list Vote).

(** The groups hold the votes, and none is empty. *)
Lemma group_by_round_groups vs r' group :
  group_by_round vs !! r' = Some group -> group <> [] /\ forall v, v ∈ group -> v ∈ vs.
Proof.
  unfold group_by_round. revert r' group. induction vs as [|v vs IH] using rev_ind; intros r' group; [done|].
  rewrite foldl_snoc. intros [[<- <-]|[_ Hg]]%lookup_insert_Some.
  - split; [by destruct (default [] _)|]. intros x [Hx|Hx]%elem_of_app; [|set_solver].
    destruct (_ !! vote_round v) as [g|] eqn:Hg; simpl in Hx; [|by apply not_elem_of_nil in Hx].
    apply elem_of_app. left. by apply (IH _ _ Hg).
  - destruct (IH _ _ Hg) as [? Hin]. split; [done|]. intros x Hx. apply elem_of_app. left. by apply Hin.
Qed.

Lemma wqc_collect_runs vs bits ids agg first :
  Forall (fun v => 0 < stake c (vote_author v)) vs -> (committee_size c <= length bits * 128)%nat ->
  Forall (fun i => is_Some (sorted_keys c !! i)) ids ->
  exists bits' ids' agg', wqc_collect c vs bits ids agg first = Ok (bits', ids ++ ids', agg') /\
    length ids' = length vs /\ Forall (fun i => is_Some (sorted_keys c !! i)) (ids ++ ids').
Proof.
  intros Hvs. revert bits ids agg first. induction Hvs as [|v vs Hv _ IH]; intros bits ids agg first Hb Hids.
  { exists bits, [], agg. by rewrite app_nil_r. }
  destruct (key_index_member c Hc (vote_author v)) as (key & i & Hkey & Hi & Hlk & Hlt).
  { by apply stake_pos_member. }
  destruct (clear_signer_is_Some bits i) as [bits1 Hbits1]; [lia|].
  destruct (IH bits1 (ids ++ [i]) (if first then agg else aggregate_sign agg (vote_signature v)) false)
    as (bits' & ids' & agg' & Hrun & Hlen & Hall).
  { by rewrite (clear_signer_length _ _ _ Hbits1). }
  { apply Forall_app. split; [done|]. constructor; [by eexists|done]. }
  exists bits', (i :: ids'), agg'. rewrite <-app_assoc in Hrun, Hall. split_and!; [|simpl; by rewrite Hlen|done].
  cbn [wqc_collect]. rewrite Hkey. simpl. rewrite Hi. simpl. rewrite Hbits1. exact Hrun.
Qed.

(** Looking for a weak certificate among votes of members never stops the node. *)
Lemma check_wqc_runs m :
  Forall (fun v => 0 < stake c (vote_author v)) (tm_high_votes m) -> exists o, check_wqc m c = Ok o.
Proof.
  intros Hm. unfold check_wqc. destruct (list_find _ _) as [[j [r' group]]|] eqn:Hf; [|by eexists].
  apply list_find_Some in Hf as (Hin%list_elem_of_lookup_2 & _ & _).
  rewrite hash_iter_perm, elem_of_map_to_list in Hin.
  destruct (group_by_round_groups _ _ _ Hin) as [Hne Hsub].
  assert (Hg : Forall (fun v => 0 < stake c (vote_author v)) group).
  { rewrite Forall_forall in Hm |- *. auto. }
  destruct group as [|v group]; [done|]. simpl head. simpl expect_o. cbn [mbind outcome_mbind].
  destruct (wqc_collect_runs (v :: group) (full_bits (Z.to_nat (comm_n c))) [] (vote_signature v) true)
    as (bits & ids & agg & -> & Hlen & Hids); [done|pose proof (length_full_bits (Z.to_nat (comm_n c))); lia|done|].
  cbn [mbind outcome_mbind app] in *.
  destruct (mapM_is_Some_2 (fun i => sorted_keys c !! i) ids Hids) as [keys Hkeys].
  assert (Hpk : is_Some (combine_key_from_ids ids (sorted_keys c))).
  { unfold combine_key_from_ids. rewrite Hkeys. simpl. apply mapM_Some_1, Forall2_length in Hkeys.
    destruct keys; [simpl in *; lia|]. by eexists. }
  destruct Hpk as [pk ->]. simpl expect_o. cbn [mbind outcome_mbind].
  destruct (last (v :: group)) as [v'|] eqn:Hl; [|by apply last_None in Hl].
  simpl expect_o. cbn [mbind outcome_mbind]. case_match; by eexists.
Qed.

(** A valid timeout of this round by an authority of stake one that reports the
    vote of a member. *)
Record valid_timeout t : Prop := {
  vo_round : to_round t = r;
  vo_well_formed : Timeout_is_well_formed c t = Ok tt;
  vo_stake : stake c (to_author t) = 1;
  vo_vote : 0 < stake c (vote_author (to_high_vote t));
}.

(** What the maker knows of the certificates that [ts] report. *)
Definition highest ts (qc : QC) : Prop :=
  (qc = QC_genesis \/ exists t, t ∈ ts /\ qc = to_high_qc t) /\
  forall t, t ∈ ts -> qc_round (to_high_qc t) <= qc_round qc.

(** The maker has counted [ts]. *)
Record counted ts m : Prop := {
  cd_inv : tm_inv c r m;
  cd_names : tc_names (tm_votes m) = map to_author ts;
  cd_valid : Forall valid_timeout ts;
  cd_votes : tm_high_votes m = map to_high_vote ts;
  cd_highest : highest ts (tm_high_qc m);
}.

Lemma counted_new : counted [] TCMaker_new.
Proof. split; [apply TCMaker_new_inv|done|done|done|split; [by left|]]. by intros t ?%not_elem_of_nil. Qed.

Lemma counted_weight ts m : counted ts m -> tm_weight m = Z.of_nat (length ts).
Proof.
  intros [Hinv Hnames Hv _ _]. rewrite (ti_weight _ _ _ Hinv), Hnames. clear Hnames.
  induction Hv as [|t ts Ht _ IH]; [done|]. simpl. rewrite (vo_stake _ Ht), IH. lia.
Qed.

Lemma counted_record ts m t :
  counted ts m -> valid_timeout t -> to_author t ∉ map to_author ts -> counted (ts ++ [t]) (tm_record t c m).
Proof.
  intros [Hinv Hnames Hall Hvotes [Hfrom Hmax]] Ht Hnew. destruct Ht as [Hr Hwf H1 Hv] eqn:HHt. clear HHt.
  split.
  - apply tm_record_inv; [done..| |done]. rewrite (ti_used _ _ _ Hinv), Hnames. by rewrite elem_of_list_to_set.
  - simpl. unfold tc_names in *. by rewrite !map_app, Hnames.
  - apply Forall_app. split; [done|by constructor].
  - simpl. by rewrite map_app, Hvotes.
  - simpl. destruct (Z.ltb_spec (qc_round (tm_high_qc m)) (qc_round (to_high_qc t))) as [Hlt|Hle]; split.
    + right. exists t. split; [set_solver|done].
    + intros t' [Ht'| ->%list_elem_of_singleton]%elem_of_app; [specialize (Hmax t' Ht'); lia|lia].
    + destruct Hfrom as [?|(t' & ? & ?)]; [by left|right]. exists t'. split; [set_solver|done].
    + intros t' [Ht'| ->%list_elem_of_singleton]%elem_of_app; [by apply Hmax|lia].
Qed.

(** Below the threshold a timeout is counted, and nothing else happens. *)
Lemma append_counting ts m t :
  counted ts m -> valid_timeout t -> to_author t ∉ map to_author ts ->
  Z.of_nat (length (ts ++ [t])) < view_change_threshold c ->
  TCMaker_append t c m = (tm_record t c m, Ok (Z.of_nat (length (ts ++ [t])), None)).
Proof.
  intros Hc' Ht Hnew Hlen. pose proof (counted_weight _ _ (counted_record _ _ _ Hc' Ht Hnew)) as Hw.
  unfold TCMaker_append. run. rewrite bool_decide_false, (vo_well_formed _ Ht); cycle 1.
  { rewrite (ti_used _ _ _ (cd_inv _ _ Hc')), (cd_names _ _ Hc'). by rewrite elem_of_list_to_set. }
  runs. unfold id. rewrite Hw, (proj2 (Z.leb_gt _ _)) by done. done.
Qed.

(** The timeout that reaches it makes a certificate that everybody accepts. *)
Lemma append_certifying ts m t :
  quorum_threshold c <= view_change_threshold c ->
  counted ts m -> valid_timeout t -> to_author t ∉ map to_author ts ->
  Z.of_nat (length (ts ++ [t])) = view_change_threshold c ->
  exists m' tc, TCMaker_append t c m = (m', Ok (view_change_threshold c, Some tc)) /\
    tc_round tc = r /\ TC_is_well_formed c tc = Ok tt /\ highest (ts ++ [t]) (tc_high_qc tc).
Proof.
  intros Hq Hc' Ht Hnew Hlen. pose proof (counted_record _ _ _ Hc' Ht Hnew) as Hrec.
  destruct (check_wqc_runs (tm_record t c m)) as [o Ho].
  { rewrite (cd_votes _ _ Hrec). apply Forall_map. eapply Forall_impl; [apply (cd_valid _ _ Hrec)|]. by intros ? []. }
  assert (Hraise : forall m1, tm_weight (tm_raise_wqc o m1) = tm_weight m1 /\ tm_high_qc (tm_raise_wqc o m1) = tm_high_qc m1).
  { intros m1. unfold tm_raise_wqc. destruct o; [|done]. by case_match. }
  assert (Hrun : exists m' tc, TCMaker_append t c m = (m', Ok (view_change_threshold c, Some tc)) /\
            tc_high_qc tc = tm_high_qc (tm_record t c m)).
  { unfold TCMaker_append. run. rewrite bool_decide_false, (vo_well_formed _ Ht); cycle 1.
    { rewrite (ti_used _ _ _ (cd_inv _ _ Hc')), (cd_names _ _ Hc'). by rewrite elem_of_list_to_set. }
    runs. unfold id. rewrite (counted_weight _ _ Hrec), Hlen, Z.leb_refl, Ho. runs.
    destruct (Hraise (tm_record t c m)) as [-> Hqc]. rewrite (counted_weight _ _ Hrec), Hlen.
    do 2 eexists. split; [reflexivity|]. exact Hqc. }
  destruct Hrun as (m' & tc & Hrun & Hqc). exists m', tc. split; [done|].
  destruct (TCMaker_append_tc c r Hstake Htotal t m m' (view_change_threshold c) tc) as [Htr Hwf];
    [done|apply Hc'|apply Ht|done|]. split_and!; [done|done|]. rewrite Hqc. apply Hrec.
Qed.

End maker.

(** ** What a view change leaves alone *)
Section kept.
Context `{Prim : Primitives} `{Rocks : RocksDB}.
Implicit Types (s : Core).

Record kept s s' : Prop := {
  kp_last_commit : co_last_commit s' = co_last_commit s;
  kp_ledger : ledger s' = ledger s;
  kp_locked : co_locked s' = co_locked s;
  kp_qcs : co_uncommitted_qcs s' = co_uncommitted_qcs s;
  kp_last_timeout : co_last_timeout s <= co_last_timeout s';
}.
#[export] Instance kept_preorder : PreOrder kept.
Proof.
  split; [intros s; by split|]. intros s1 s2 s3 [] []. split; try congruence. by etrans.
Qed.
Lemma kept_known s s' qc : kept s s' -> qc_known s qc -> qc_known s' qc.
Proof. intros [Hlc _ _ Hqcs _]. unfold qc_known. by rewrite Hlc, Hqcs. Qed.

End kept.

(** ** One node *)
Section node.
Context `{Prim : Primitives} `{Order : HashIter} {OrderLaws : HashIterLaws} {Laws : G2Laws}.
Context `{Rocks : RocksDB} `{Codec : !BlockCodec}.
Context (cfg : CoreConfig).
Let c := cc_committee cfg.
Context (Hc : committee_wf c) (Hn : (committee_size c <= Z.to_nat (comm_n c))%nat).
Context (Hstake : forall name, 0 <= stake c name).
Context (Htotal : set_weight (stake c) (list_to_set (get_public_keys c)) < 2 ^ 32).
Context (Hq : quorum_threshold c <= view_change_threshold c).
Context (Hvalidity : validity_threshold c <= view_change_threshold c).
(** The round, and the leader of the next, who can be reached. *)
Context (r : Round) (Hr : 0 <= r + 1 < 2 ^ 64).
Context (leader : PublicKey) (Hleader : get_leader (cc_leader_elector cfg) (r + 1) = Some leader).
Context (Haddress : leader = cc_name cfg \/ is_Some (consensus_address cfg leader)).
Implicit Types (s : Core) (t : Timeout) (ts : list Timeout) (tc : TC).

(** The node has timed out and has counted [ts], its own timeout among them. *)
Record waiting s ts : Prop := {
  wt_round : co_round s = r;
  wt_last_commit : 0 <= blk_round (co_last_commit s);
  wt_locked : qc_round (co_locked s) < r;
  wt_synced : r ∈ co_timeout_syncs s;
  wt_next : co_pending_proposals s !! (r + 1) = None;
  wt_committee : ag_committee (co_aggregator s) = c;
  wt_counted : counted c r ts (ag_timeout_maker (co_aggregator s) r);
  wt_known : forall t, t ∈ ts -> qc_known s (to_high_qc t);
}.

(** A timeout of the round reaches the aggregator. *)
Lemma timeout_reaches fuel t s a o :
  co_round s = r -> qc_round (co_locked s) < r -> to_round t = r -> qc_known s (to_high_qc t) ->
  add_timeout t (co_aggregator s) = (a, Ok o) ->
  handle_timeout_fuel cfg (S fuel) t s =
    (if validity_threshold c <=? o.1 then
       _ ← send_timeout_with cfg (handle_timeout_fuel cfg fuel) r;
       match o.2 with Some tc => handle_tc_with cfg (handle_timeout_fuel cfg fuel) tc | None => mret tt end
     else mret tt) (set_aggregator a s).
Proof.
  intros Hround Hlock Ht Hk Hadd. cbn [handle_timeout_fuel]. unfold handle_timeout_body. cbv zeta. runs.
  rewrite Ht, (proj2 (Z.leb_gt _ _)) by done. runs. rewrite Hround, Z.leb_refl.
  rewrite (run_bind _ _ _ _ _ (handle_known_qc cfg s _ Hk)).
  rewrite (run_bind _ _ _ (set_aggregator a s) o); [by destruct o|].
  unfold with_aggregator, zoom. by rewrite Hadd.
Qed.

Lemma add_timeout_run t s m o :
  ag_committee (co_aggregator s) = c -> to_round t = r ->
  TCMaker_append t c (ag_timeout_maker (co_aggregator s) r) = (m, o) ->
  add_timeout t (co_aggregator s) = (ag_put_timeout_maker r m (co_aggregator s), o).
Proof. intros Hca Ht Happ. unfold add_timeout, zoom. run. by rewrite Hca, Ht, Happ. Qed.
Lemma timeout_maker_same m a : ag_timeout_maker (ag_put_timeout_maker r m a) r = m.
Proof. unfold ag_timeout_maker. simpl. by rewrite lookup_insert_eq. Qed.

Lemma synced_no_timeout ht s : r ∈ co_timeout_syncs s -> send_timeout_with cfg ht r s = (s, Ok tt).
Proof. intros Hs. unfold send_timeout_with. run. by rewrite bool_decide_true. Qed.

(** A timeout below the threshold is counted. *)
Lemma count_phase fuel t ts s :
  waiting s ts -> valid_timeout c r t -> to_author t ∉ map to_author ts -> qc_known s (to_high_qc t) ->
  Z.of_nat (length (ts ++ [t])) < view_change_threshold c ->
  exists a, handle_timeout_fuel cfg (S fuel) t s = (set_aggregator a s, Ok tt) /\ waiting (set_aggregator a s) (ts ++ [t]).
Proof.
  intros [Hround Hlc Hlock Hsync Hnext Hca Hcd Hkn] Ht Hnew Hk Hlen.
  pose proof (append_counting c Hc Hn Hstake Htotal r ts _ t Hcd Ht Hnew Hlen) as Happ.
  exists (ag_put_timeout_maker r (tm_record t c (ag_timeout_maker (co_aggregator s) r)) (co_aggregator s)). split.
  - rewrite (timeout_reaches fuel t s _ _ Hround Hlock (vo_round _ _ _ Ht) Hk
               (add_timeout_run t s _ _ Hca (vo_round _ _ _ Ht) Happ)).
    simpl fst. simpl snd. case_match; [|done]. by rewrite (run_bind _ _ _ _ _ (synced_no_timeout _ (set_aggregator _ s) Hsync)).
  - split; try done; simpl co_aggregator.
    + rewrite timeout_maker_same. by apply (counted_record c Hc Hn Hstake Htotal).
    + intros t' [Ht'| ->%list_elem_of_singleton]%elem_of_app; [by apply Hkn|done].
Qed.

(** The certificate takes the node to the next round. *)
Lemma enter_phase fuel tc s :
  co_round s = r -> r ∈ co_timeout_syncs s -> co_pending_proposals s !! (r + 1) = None ->
  qc_known s (tc_high_qc tc) -> tc_round tc = r -> TC_is_well_formed c tc = Ok tt ->
  exists s', handle_tc_with cfg (handle_timeout_fuel cfg fuel) tc s = (s', Ok tt) /\ kept s s' /\ co_round s' = r + 1 /\
    (leader = cc_name cfg -> Ef_Proposer (PM_Propose (PT_TC tc)) ∈ effects s').
Proof.
  intros Hround Hsync Hnext Hk Htr Hwf. pose proof (u64_add_small _ _ Hr) as Hadd.
  unfold handle_tc_with. run. rewrite Hround, Htr, Hadd, (proj2 (Z.ltb_lt _ _)) by lia.
  rewrite (run_bind _ _ _ _ _ (handle_known_qc cfg s _ Hk)).
  (* the weak certificate *)
  assert (Hwqc : exists s1, handle_wqc (tc_high_wqc tc) s = (s1, Ok tt) /\ kept s s1 /\ co_round s1 = r /\
            r ∈ co_timeout_syncs s1 /\ co_pending_proposals s1 !! (r + 1) = None).
  { unfold handle_wqc. run. case_match; eexists; (split; [reflexivity|]); by split_and!. }
  destruct Hwqc as (s1 & Hrun & H01 & Hround1 & Hsync1 & Hnext1). rewrite (run_bind _ _ _ _ _ Hrun). clear Hrun. fold c. rewrite Hwf. run.
  (* the next leader is to propose *)
  assert (Hprop : exists s2, propose_fallback cfg tc s1 = (s2, Ok tt) /\ kept s1 s2 /\ co_round s2 = r /\
            r ∈ co_timeout_syncs s2 /\ co_pending_proposals s2 !! (r + 1) = None /\
            (leader = cc_name cfg -> Ef_Proposer (PM_Propose (PT_TC tc)) ∈ effects s2)).
  { unfold propose_fallback, propose_if_leader, leader_of. rewrite Htr, Hadd, Hleader. run.
    case_decide as Hname; eexists; (split; [reflexivity|]); split_and!; try done.
    intros _. left. }
  destruct Hprop as (s2 & Hrun & H12 & Hround2 & Hsync2 & Hnext2 & Hsent). rewrite (run_bind _ _ _ _ _ Hrun). clear Hrun.
  unfold leader_of. rewrite Hleader. run.
  rewrite (run_bind _ _ _ s2 tt); cycle 1.
  { unfold send_to. case_decide as Hname; [done|]. destruct Haddress as [->|[address ->]]; [done|]. by run. }
  rewrite (run_bind _ _ _ _ _ (synced_no_timeout _ _ Hsync2)).
  unfold advance_to_round, advance_to_round_with, cleanup_proposals, timer_reset, emit. run.
  rewrite Hround2, (proj2 (Z.ltb_lt _ _)) by lia. runs. unfold try_vote_with. runs. cbn [co_round set_timer set_round].
  match goal with |- context [co_pending_proposals ?s] => change (co_pending_proposals s) with (co_pending_proposals s2) end.
  rewrite Hnext2. eexists. split; [reflexivity|]. split; [|split; [done|]].
  - etrans; [exact H01|]. etrans; [exact H12|]. by split.
  - intros Hname. right. by apply Hsent.
Qed.

(** The timeout that completes the quorum. *)
Lemma certify_phase fuel t ts s :
  waiting s ts -> valid_timeout c r t -> to_author t ∉ map to_author ts -> qc_known s (to_high_qc t) ->
  Z.of_nat (length (ts ++ [t])) = view_change_threshold c ->
  exists s' tc, handle_timeout_fuel cfg (S fuel) t s = (s', Ok tt) /\ kept s s' /\ co_round s' = r + 1 /\
    tc_round tc = r /\ TC_is_well_formed c tc = Ok tt /\ highest (ts ++ [t]) (tc_high_qc tc) /\
    (leader = cc_name cfg -> Ef_Proposer (PM_Propose (PT_TC tc)) ∈ effects s').
Proof.
  intros [Hround Hlc Hlock Hsync Hnext Hca Hcd Hkn] Ht Hnew Hk Hlen.
  destruct (append_certifying c Hc Hn Hstake Htotal r ts _ t Hq Hcd Ht Hnew Hlen) as (m & tc & Happ & Htr & Hwf & Hhigh).
  rewrite (timeout_reaches fuel t s _ _ Hround Hlock (vo_round _ _ _ Ht) Hk
             (add_timeout_run t s _ _ Hca (vo_round _ _ _ Ht) Happ)).
  set (s1 := set_aggregator _ s). simpl fst. simpl snd. rewrite (proj2 (Z.leb_le _ _)) by done.
  rewrite (run_bind _ _ _ _ _ (synced_no_timeout _ s1 Hsync)).
  destruct (enter_phase fuel tc s1) as (s' & Hrun & [] & Hround' & Hsent); [done..| |done|done|].
  { apply (kept_known s); [by split|]. destruct (proj1 Hhigh) as [->|(t' & Ht' & ->)]; [by left|].
    apply elem_of_app in Ht' as [?| ->%list_elem_of_singleton]; [by apply Hkn|done]. }
  exists s', tc. by split_and!.
Qed.

(** Handling the timeouts of others one after the other. *)
Definition receive_timeouts ts s : Core :=
  foldl (fun s t => (handle_event cfg (Ev_Message (CM_Timeout t)) s).1) s ts.
Lemma receive_snoc ts t s :
  receive_timeouts (ts ++ [t]) s = (handle_timeout_fuel cfg timeout_fuel t (receive_timeouts ts s)).1.
Proof. unfold receive_timeouts. by rewrite foldl_snoc. Qed.

Lemma receive_counting ts0 ts s :
  waiting s ts0 -> Forall (valid_timeout c r) ts -> NoDup (map to_author (ts0 ++ ts)) ->
  (forall t, t ∈ ts -> qc_known s (to_high_qc t)) -> Z.of_nat (length (ts0 ++ ts)) < view_change_threshold c ->
  waiting (receive_timeouts ts s) (ts0 ++ ts) /\ kept s (receive_timeouts ts s).
Proof.
  intros Hw Hv Hnd Hk Hlen. induction ts as [|t ts IH] using rev_ind; [by rewrite app_nil_r|].
  rewrite app_assoc in *. apply Forall_app in Hv as [Hv [Ht _]%Forall_cons].
  rewrite map_app in Hnd. apply NoDup_app in Hnd as (Hnd & Hnew & _).
  destruct IH as [Hw' Hkept]; [done|done|intros t' ?; apply Hk; set_solver|rewrite length_app in Hlen; simpl in Hlen; lia|].
  destruct (count_phase 2 t (ts0 ++ ts) (receive_timeouts ts s)) as (a & Hrun & Hwa);
    [done|done|intros Hin; apply (Hnew _ Hin); left|eapply kept_known; [done|apply Hk; set_solver]|done|].
  rewrite receive_snoc. unfold timeout_fuel. rewrite Hrun. split; [done|]. by etrans; [exact Hkept|].
Qed.

Lemma receive_certifying ts0 ts t s :
  waiting s ts0 -> Forall (valid_timeout c r) (ts ++ [t]) -> NoDup (map to_author (ts0 ++ ts ++ [t])) ->
  (forall t', t' ∈ ts ++ [t] -> qc_known s (to_high_qc t')) ->
  Z.of_nat (length (ts0 ++ ts ++ [t])) = view_change_threshold c ->
  let s' := receive_timeouts (ts ++ [t]) s in
  kept s s' /\ co_round s' = r + 1 /\
  exists tc, tc_round tc = r /\ TC_is_well_formed c tc = Ok tt /\ highest (ts0 ++ ts ++ [t]) (tc_high_qc tc) /\
    (leader = cc_name cfg -> Ef_Proposer (PM_Propose (PT_TC tc)) ∈ effects s').
Proof.
  rewrite app_assoc. intros Hw Hv Hnd Hk Hlen. apply Forall_app in Hv as [Hv [Ht _]%Forall_cons].
  rewrite map_app in Hnd. apply NoDup_app in Hnd as (Hnd & Hnew & _).
  destruct (receive_counting ts0 ts s) as [Hw' Hkept];
    [done|done|done|intros t' ?; apply Hk; set_solver|rewrite length_app in Hlen; simpl in Hlen; lia|].
  destruct (certify_phase 2 t (ts0 ++ ts) (receive_timeouts ts s)) as (s' & tc & Hrun & Hkept' & Hround & Htc);
    [done|done|intros Hin; apply (Hnew _ Hin); left|eapply kept_known; [done|apply Hk; set_solver]|done|].
  rewrite receive_snoc. unfold timeout_fuel. rewrite Hrun. split; [by etrans|]. split; [done|]. by exists tc.
Qed.

(** ** The timer *)

(** The node is in the round without a lock of it, nothing of the next round has
    arrived, and no timeout of the round. *)
Record stuck s : Prop := {
  sk_round : co_round s = r;
  sk_locked : qc_round (co_locked s) < r;
  sk_next : co_pending_proposals s !! (r + 1) = None;
  sk_committee : ag_committee (co_aggregator s) = c;
  sk_fresh : ag_timeout_maker (co_aggregator s) r = TCMaker_new;
  sk_lock : QC_eqb (co_locked s) QC_genesis = true \/ QC_is_well_formed c (co_locked s) = Ok tt;
  sk_known : qc_known s (co_locked s);
  sk_vote : 0 < stake c (vote_author (co_last_vote s));
}.

(** The timeout that the node signs. *)
Definition own_timeout s : option Timeout :=
  Timeout_new (co_last_vote s) (co_locked s) (co_high_wqc s) r (cc_name cfg) (cc_secret cfg).

Lemma own_timeout_valid s :
  ed_keypair (cc_secret cfg) (cc_name cfg) -> stake c (cc_name cfg) = 1 -> stuck s ->
  exists t, own_timeout s = Some t /\ valid_timeout c r t /\ to_author t = cc_name cfg /\ to_high_qc t = co_locked s.
Proof.
  intros Hkeys H1 Hs. set (t0 := mkTimeout (co_last_vote s) (co_locked s) (co_high_wqc s) r (cc_name cfg) Signature_default).
  destruct (Signature_new_verify _ _ (digest t0) Hkeys) as (sig & Hsig & Hver).
  exists (mkTimeout (co_last_vote s) (co_locked s) (co_high_wqc s) r (cc_name cfg) sig).
  split_and!; [|split; simpl; [done| |done|apply Hs]|done|done].
  - unfold own_timeout, Timeout_new. fold t0. by rewrite Hsig.
  - unfold Timeout_is_well_formed, Timeout_author_is_authorised. simpl. rewrite H1. simpl.
    change (digest (mkTimeout _ _ _ _ _ sig)) with (digest t0). rewrite Hver. simpl.
    destruct (sk_lock _ Hs) as [->| ->]; [done|]. by case_match.
Qed.

Lemma timer_phase s :
  ed_keypair (cc_secret cfg) (cc_name cfg) -> stake c (cc_name cfg) = 1 -> 1 < view_change_threshold c ->
  0 <= blk_round (co_last_commit s) -> stuck s ->
  exists t s', own_timeout s = Some t /\ handle_event cfg Ev_Timer s = (s', Ok tt) /\ kept s s' /\ waiting s' [t] /\
    Ef_Broadcast (others_consensus_sockets c (cc_name cfg)) (CM_Timeout t) ∈ effects s'.
Proof.
  intros Hkeys H1 Hth Hlc Hs. destruct (own_timeout_valid s Hkeys H1 Hs) as (t & Hown & Ht & _ & Hqc).
  exists t. cbn [handle_event]. unfold local_timeout_round. runs.
  change (co_round (set_timeout_syncs ∅ s)) with (co_round s). rewrite (sk_round _ Hs).
  unfold send_timeout, send_timeout_with. runs. rewrite bool_decide_false by (simpl; set_solver).
  rewrite (run_bind _ _ _ (set_timeout_syncs ∅ s) t); cycle 1.
  { change (Timeout_new _ _ _ _ _ _) with (own_timeout s) at 1. by rewrite Hown. }
  unfold emit, timer_reset. runs.
  match goal with |- context [(handle_timeout cfg t ≫= _) ?x] => set (s1 := x) end.
  assert (H01 : kept s s1) by (split; [done..|]; simpl; lia).
  destruct (count_phase 2 t [] s1) as (a & Hrun & Hw).
  - split; try done; try apply Hs; [simpl; set_solver|simpl; rewrite (sk_fresh _ Hs); apply counted_new|].
    by intros t' ?%not_elem_of_nil.
  - done.
  - by apply not_elem_of_nil.
  - rewrite Hqc. eapply kept_known; [done|apply Hs].
  - done.
  - eexists. split; [done|]. split.
    + change (handle_timeout cfg t) with (handle_timeout_fuel cfg 3 t). rewrite (run_bind _ _ _ _ _ Hrun).
      unfold broadcast. cbn [is_sendable]. unfold emit. reflexivity.
    + split; [by etrans; [exact H01|]|]. split; [by destruct Hw|left].
Qed.

End node.

(** ** The network *)
Section network.
Context `{Prim : Primitives} `{Order : HashIter} {OrderLaws : HashIterLaws} {Laws : G2Laws}.
Context `{Rocks : RocksDB} `{Codec : !BlockCodec}.
Context (c : Committee) (Hc : committee_wf c) (Hn : (committee_size c <= Z.to_nat (comm_n c))%nat).
Context (Hstake : forall name, 0 <= stake c name).
Context (Htotal : set_weight (stake c) (list_to_set (get_public_keys c)) < 2 ^ 32).
Context (Hq : quorum_threshold c <= view_change_threshold c).
Context (Hvalidity : validity_threshold c <= view_change_threshold c).
(** The correct nodes, of stake one, their configurations, and the round. *)
Context (H : gset PublicKey) (config : PublicKey -> CoreConfig).
Context (r : Round) (Hr : 0 <= r + 1 < 2 ^ 64) (leader : PublicKey).
Implicit Types (x y : PublicKey).

(** A correct node signs with its own key, and can reach the next leader. *)
Record sound x : Prop := {
  so_name : cc_name (config x) = x;
  so_committee : cc_committee (config x) = c;
  so_stake : stake c x = 1;
  so_keys : ed_keypair (cc_secret (config x)) x;
  so_leader : get_leader (cc_leader_elector (config x)) (r + 1) = Some leader;
  so_address : leader = x \/ is_Some (consensus_address (config x) leader);
}.

(** The timer of a node in the round has expired. *)
Record expired x s : Prop := {
  xp_reachable : reachable (config x) true s;
  xp_due : enabled Ev_Timer s;
  xp_stuck : stuck (config x) r s;
}.

(** Nodes other than [x] whose timeouts complete a view change quorum with that
    of [x]. *)
Record told x (ys : list PublicKey) : Prop := {
  td_correct : forall y, y ∈ ys -> y ∈ H;
  td_distinct : NoDup (x :: ys);
  td_some : ys <> [];
  td_quorum : Z.of_nat (S (length ys)) = view_change_threshold c;
}.

(** The timeout of each node, and what it says. *)
Definition tells (S : PublicKey -> Core) y t : Prop :=
  own_timeout (config y) r (S y) = Some t /\ valid_timeout c r t /\ to_author t = y /\ to_high_qc t = co_locked (S y).

Lemma sound_tells S y : sound y -> expired y (S y) -> exists t, tells S y t.
Proof.
  intros [Hname Hcomm H1 Hkeys _ _] [_ _ Hs].
  pose proof (own_timeout_valid (config y) r (S y)) as Hown. rewrite Hname, Hcomm in Hown.
  destruct Hown as (t & ? & ? & ? & ?); [done..|]. by exists t.
Qed.

Lemma told_tells S x ys :
  (forall y, y ∈ H -> sound y) -> (forall y, y ∈ H -> expired y (S y)) -> told x ys ->
  Forall2 (tells S) ys (omap (fun y => own_timeout (config y) r (S y)) ys).
Proof.
  intros Hok Hex [Hin _ _ _]. induction ys as [|y ys IH]; [by constructor|].
  destruct (sound_tells S y) as [t Ht]; [apply Hok, Hin; left|apply Hex, Hin; left|].
  simpl. rewrite (proj1 Ht). constructor; [done|]. apply IH. intros y' Hy'. apply Hin. by right.
Qed.

Lemma tells_authors S ys ts : Forall2 (tells S) ys ts -> map to_author ts = ys.
Proof. induction 1 as [|y t ys ts (_ & _ & Ha & _) _ IH]; [done|]. simpl. by rewrite Ha, IH. Qed.

Lemma tells_in S ys ts t : Forall2 (tells S) ys ts -> t ∈ ts -> exists y, y ∈ ys /\ tells S y t.
Proof.
  intros Hall [i Hi]%list_elem_of_lookup. destruct (Forall2_lookup_r _ _ _ _ _ Hall Hi) as (y & Hy & Ht).
  exists y. split; [by eapply list_elem_of_lookup_2|done].
Qed.
Lemma in_tells S ys ts y : Forall2 (tells S) ys ts -> y ∈ ys -> exists t, t ∈ ts /\ tells S y t.
Proof.
  intros Hall [i Hi]%list_elem_of_lookup. destruct (Forall2_lookup_l _ _ _ _ _ Hall Hi) as (t & Ht & Hy).
  exists t. split; [by eapply list_elem_of_lookup_2|done].
Qed.

(** What happens at one node. *)
Lemma node_view_change S x ts :
  sound x -> expired x (S x) -> qc_known (S x) (co_locked (S x)) ->
  Forall (valid_timeout c r) ts -> NoDup (x :: map to_author ts) ->
  (forall t, t ∈ ts -> qc_known (S x) (to_high_qc t)) ->
  ts <> [] -> Z.of_nat (1 + length ts) = view_change_threshold c ->
  let s1 := (handle_event (config x) Ev_Timer (S x)).1 in
  let s2 := receive_timeouts (config x) ts s1 in
  (exists t, own_timeout (config x) r (S x) = Some t /\
     Ef_Broadcast (others_consensus_sockets c x) (CM_Timeout t) ∈ effects s1) /\
  co_round s2 = r + 1 /\ co_locked s2 = co_locked (S x) /\ ledger s2 = ledger (S x) /\
  (leader = x -> exists tc, Ef_Proposer (PM_Propose (PT_TC tc)) ∈ effects s2 /\
     tc_round tc = r /\ TC_is_well_formed c tc = Ok tt /\
     qc_round (co_locked (S x)) <= qc_round (tc_high_qc tc) /\
     forall t, t ∈ ts -> qc_round (to_high_qc t) <= qc_round (tc_high_qc tc)).
Proof.
  intros Hso [Hreach%reachable_inv _ Hs] Hk Hv Hnd Hkn Hne Hlen s1 s2.
  destruct Hso as [Hname Hcomm H1 Hkeys Hlead Haddr]. destruct ts as [|t ts _] using rev_ind; [done|]. clear Hne.
  rewrite length_app in Hlen. simpl in Hlen.
  pose proof (own_timeout_valid (config x) r (S x)) as Hown. rewrite Hname, Hcomm in Hown.
  destruct Hown as (t0 & Hown & Ht0 & Ha0 & Hq0); [done..|].
  pose proof (timer_phase (config x)) as Htimer. rewrite Hname, Hcomm in Htimer.
  destruct (Htimer Hc Hn Hstake Htotal Hq Hvalidity r Hr leader Hlead Haddr (S x))
    as (t0' & s1' & Hown' & Hrun & H01 & Hw & Hsent); [done|done|lia|apply Hreach|done|].
  assert (t0' = t0) as -> by congruence. clear Hown'. assert (s1 = s1') as <- by (unfold s1; by rewrite Hrun). clear Hrun Htimer.
  split; [by exists t0|].
  pose proof (receive_certifying (config x)) as Hcert. rewrite Hname, Hcomm in Hcert.
  destruct (Hcert Hc Hn Hstake Htotal Hq Hvalidity r Hr leader Hlead Haddr [t0] ts t s1)
    as (Hkept & Hround & tc & Htr & Hwf & Hhigh & Hprop);
    [done|done|by simpl; rewrite Ha0|intros t' Ht'; eapply kept_known; [exact H01|by apply Hkn]|
     simpl; rewrite length_app; simpl; lia|].
  fold s2 in Hkept, Hround, Hprop. pose proof (transitivity H01 Hkept) as Hall. split; [done|].
  split; [apply Hall|]. split; [apply Hall|]. intros Hl. exists tc. split_and!; [by apply Hprop|done|done| |].
  - rewrite <-Hq0. apply Hhigh. left.
  - intros t' Ht'. apply Hhigh. by right.
Qed.

End network.
