(* ===== verification/ConsensusTasks.v ===== *)
(** * ConsensusTasks: the receiver, the helper and the committer of consensus
    (src/hydrangea/src/consensus.rs, src/hydrangea/src/helper.rs,
    src/hydrangea/src/committer.rs)

    The store is shared by all tasks; an iteration sees it as it is when the
    message is handled. *)
From S2P Require Import Prelude Crypto Config DagMessages Messages Store Synchronizer DagCore Executor Accounts AptosDb Core.

Section consensus_tasks.
Context `{Prim : Primitives} `{Txns : Transactions} `{Order : HashIter} `{Rocks : RocksDB}.
Context `{Codec : !BlockCodec} `{Codec' : !DagCodec} `{Vm : !AptosVM}.

(** ** The network receiver *)
Inductive ConsensusOutput :=
| CO_Ack
| CO_Helper (missing : Digest) (origin : PublicKey)
| CO_Core (m : ConsensusMessage).

(** [ConsensusReceiverHandler::dispatch] on a message that [bincode] decoded, or
    not. *)
Definition consensus_dispatch (decoded : option ConsensusMessage)
    : list ConsensusOutput * Outcome ConsensusError unit :=
  match decoded with
  | None => ([], Err CE_SerializationError)
  | Some (CM_SyncRequest missing origin) => ([CO_Helper missing origin], Ok tt)
  | Some (CM_Propose p) => ([CO_Ack; CO_Core (CM_Propose p)], Ok tt)
  | Some message => ([CO_Core message], Ok tt)
  end.

(** Any peer can stop a node: the receiver passes a [VerifiedVote], which
    nothing sends, on to the core, whose loop panics on it, in every state. *)
Lemma verified_vote_kills_core cfg s v :
  reachable cfg true s ->
  consensus_dispatch (Some (CM_VerifiedVote v)) = ([CO_Core (CM_VerifiedVote v)], Ok tt) /\
  handle_event cfg (Ev_Message (CM_VerifiedVote v)) s = (s, Panicked "Unexpected protocol message") /\
  reachable cfg false s.
Proof.
  intros Hs. split_and!; [done..|].
  apply (reach_event cfg (Ev_Message (CM_VerifiedVote v)) s Hs). done.
Qed.

(** ** The helper *)

(** One iteration of [Helper::run]: the reply that is sent. *)
Definition sync_helper (c : Committee) (st : Store) (d : Digest) (origin : PublicKey)
    : Outcome ConsensusError (option (SocketAddr * ConsensusMessage)) :=
  match consensus c origin with
  | inl _ => Ok None
  | inr x =>
      found ← expect_o (match store_read (digest_bytes d) st with inr y => Some y | inl _ => None end)
                "Failed to read from storage";
      match found with
      | None => Ok None
      | Some bytes =>
          block ← expect_o (block_decode bytes) "Failed to deserialize our own block";
          Ok (Some (consensus_to_consensus x, CM_SyncResponse block))
      end
  end.

(** A stored block is served to every member that asks for it. *)
Lemma sync_helper_serves {Laws : RocksDBLaws} {CLaws : BlockCodecLaws} c st b origin x :
  consensus c origin = inr x ->
  (db_put (st_db st) (digest_bytes (digest b)) (block_encode b)).2 = None ->
  sync_helper c (store_write (digest_bytes (digest b)) (block_encode b) st) (digest b) origin =
    Ok (Some (consensus_to_consensus x, CM_SyncResponse b)).
Proof.
  intros Hx Hput. unfold sync_helper. rewrite Hx, (store_read_write _ _ _ Hput). simpl.
  by rewrite block_decode_encode.
Qed.

(** Any member can end the task by asking for a key that is not a block, such as
    a header. *)
Lemma sync_helper_panics c st d origin x bytes :
  consensus c origin = inr x -> store_read (digest_bytes d) st = inr (Some bytes) ->
  block_decode bytes = None ->
  sync_helper c st d origin = Panicked "Failed to deserialize our own block".
Proof. intros Hx Hr Hd. unfold sync_helper. by rewrite Hx, Hr; simpl; rewrite Hd. Qed.

(** ** The committer *)
Section committer.

(** [cm_log]: the blocks executed and their results, newest first. *)
Record Committer := mkCommitter {
  cm_store : Store;
  cm_executor : TestDbReader;
  cm_log : list (list Transaction * list TransactionResult);
}.

(** Whether the log level is [info] or finer. *)
Context (info_enabled : bool).

(** [load_header] *)
Definition load_header (st : Store) (certificate : Certificate) : option Header :=
  match store_read (digest_bytes (cert_id certificate)) st with
  | inr (Some bytes) => header_decode bytes
  | inr None | inl _ => None
  end.

(** The loop of [deduplicate_transactions]. *)
Fixpoint dedup (seen : gset (list Z)) (transactions : list Transaction) : list Transaction :=
  match transactions with
  | [] => []
  | txn :: transactions' =>
      match bcs_to_bytes txn with
      | Some bytes =>
          if bool_decide (bytes ∈ seen) then dedup seen transactions'
          else txn :: dedup ({[bytes]} ∪ seen) transactions'
      | None => txn :: dedup seen transactions'
      end
  end.
Definition deduplicate_transactions (transactions : list Transaction) : list Transaction :=
  dedup ∅ transactions.

(** The transactions of the headers that are found. *)
Definition committed_transactions (st : Store) (certificates : list Certificate) : list Transaction :=
  concat (map hdr_payload (omap (load_header st) certificates)).

(** [log_execution_results]: the arguments of [info!] are computed when its level
    is enabled; [serialized_len] fails on what BCS does not serialize.  What is
    logged is recorded in [cm_log]. *)
Fixpoint log_lines (lines : list (Transaction * TransactionResult)) : Outcome ConsensusError unit :=
  match lines with
  | [] => Ok tt
  | (txn, _) :: lines' =>
      _ ← (if info_enabled then
             expect_o (bcs_to_bytes txn) "failed to compute serialized transaction size"
           else Ok []);
      log_lines lines'
  end.
Definition log_execution_results (transactions : list Transaction)
    (results : list TransactionResult) : Exec Committer ConsensusError unit :=
  _ ← modify (fun s => mkCommitter (cm_store s) (cm_executor s) ((transactions, results) :: cm_log s));
  lift (log_lines (zip transactions results)).

(** One iteration of [Committer::run]. *)
Definition committer_step (certificates : list Certificate) : Exec Committer ConsensusError unit :=
  st ← gets cm_store;
  let transactions := committed_transactions st certificates in
  match transactions with
  | [] => mret tt
  | _ =>
      let transactions := deduplicate_transactions transactions in
      match transactions with
      | [] => mret tt
      | _ =>
          results ← zoom cm_executor (fun d s => mkCommitter (cm_store s) d (cm_log s))
                      (execute_block transactions);
          log_execution_results transactions results
      end
  end.

Lemma dedup_sublist seen txs : dedup seen txs `sublist_of` txs.
Proof.
  revert seen. induction txs as [|tx txs IH]; intros seen; simpl; [done|].
  destruct (bcs_to_bytes tx); [|by constructor]. case_bool_decide; by constructor.
Qed.

Lemma dedup_Forall P txs : Forall P txs -> Forall P (deduplicate_transactions txs).
Proof.
  rewrite !Forall_forall. intros Hall tx Htx. apply Hall.
  eapply elem_of_submseteq; [exact Htx|]. apply sublist_submseteq, dedup_sublist.
Qed.

Lemma dedup_fresh seen txs bytes :
  bytes ∈ omap bcs_to_bytes (dedup seen txs) -> bytes ∉ seen.
Proof.
  revert seen. induction txs as [|tx txs IH]; intros seen; simpl; [by intros ?%not_elem_of_nil|].
  destruct (bcs_to_bytes tx) as [b|] eqn:Hb; simpl; [|rewrite Hb; apply IH].
  case_bool_decide as Hin; [apply IH|]. simpl. rewrite Hb.
  intros [->|Hrest%IH]%elem_of_cons; [done|]. set_solver.
Qed.

Lemma dedup_NoDup seen txs : NoDup (omap bcs_to_bytes (dedup seen txs)).
Proof.
  revert seen. induction txs as [|tx txs IH]; intros seen; simpl; [constructor|].
  destruct (bcs_to_bytes tx) as [b|] eqn:Hb; simpl; [|rewrite Hb; apply IH].
  case_bool_decide; [apply IH|]. simpl. rewrite Hb. constructor; [|apply IH].
  intros Hin%dedup_fresh. set_solver.
Qed.

Lemma dedup_complete seen txs tx :
  tx ∈ txs -> (forall bytes, bcs_to_bytes tx = Some bytes -> bytes ∉ seen) ->
  exists tx', tx' ∈ dedup seen txs /\ bcs_to_bytes tx' = bcs_to_bytes tx.
Proof.
  revert seen. induction txs as [|tx0 txs IH]; intros seen Hin Hseen; [by apply not_elem_of_nil in Hin|].
  simpl. destruct (bcs_to_bytes tx0) as [b|] eqn:Hb.
  - destruct (decide (bcs_to_bytes tx = Some b)) as [Heq|Hne].
    + rewrite bool_decide_eq_false_2 by by apply Hseen. exists tx0. split; [left|congruence].
    + apply elem_of_cons in Hin as [->|Hin]; [congruence|]. case_bool_decide; [by apply IH|].
      destruct (IH ({[b]} ∪ seen) Hin) as (tx' & Hin' & Heq); [|exists tx'; split; [by right|done]].
      intros bytes Hbytes. specialize (Hseen _ Hbytes).
      assert (bytes <> b) by congruence. set_solver.
  - apply elem_of_cons in Hin as [->|Hin]; [exists tx0; split; [left|done]|].
    destruct (IH seen Hin Hseen) as (tx' & Hin' & Heq). exists tx'. split; [by right|done].
Qed.

(** Decoded transactions can be serialized, so the log does not panic. *)
Lemma log_lines_run txns results :
  Forall (fun tx => is_Some (bcs_to_bytes tx)) txns -> log_lines (zip txns results) = Ok tt.
Proof.
  intros Htx. revert results. induction Htx as [|tx txns [bytes Hb] _ IH]; intros [|r results]; try done.
  simpl. rewrite Hb. destruct info_enabled; apply IH.
Qed.

(** A certificate whose header is not in the store is passed over. *)
Lemma missing_header_skipped st certificate certificates :
  load_header st certificate = None ->
  committed_transactions st (certificate :: certificates) = committed_transactions st certificates.
Proof. intros Hl. unfold committed_transactions. simpl. by rewrite Hl. Qed.

(** C28: committed transactions run once: for every list of committed certificates
    the committer executes, in the order of the payloads of the headers it
    finds, one transaction of each distinct encoding, after which its log holds
    one result per transaction and the executor's state is the one
    [execute_block] leaves; nothing is executed when there is nothing to run. *)
Theorem commit_executes_once certificates s :
  (forall output, is_Some (write_ops output)) ->
  Forall (fun tx => is_Some (bcs_to_bytes tx)) (committed_transactions (cm_store s) certificates) ->
  exists txns results s',
    committer_step certificates s = (s', Ok tt) /\
    txns `sublist_of` committed_transactions (cm_store s) certificates /\
    NoDup (omap bcs_to_bytes txns) /\
    (forall tx, tx ∈ committed_transactions (cm_store s) certificates ->
       exists tx', tx' ∈ txns /\ bcs_to_bytes tx' = bcs_to_bytes tx) /\
    execute_block (E := ConsensusError) txns (cm_executor s) = (cm_executor s', Ok results) /\
    length results = length txns /\
    cm_store s' = cm_store s /\
    cm_log s' = (match txns with [] => [] | _ => [(txns, results)] end) ++ cm_log s.
Proof.
  intros Hops Htx. set (txs := committed_transactions (cm_store s) certificates).
  destruct (execute_block_runs (E := ConsensusError) (deduplicate_transactions txs) (cm_executor s) Hops)
    as (d & results & Hrun & Hlen & _).
  exists (deduplicate_transactions txs), results,
    (mkCommitter (cm_store s) d
       ((match deduplicate_transactions txs with [] => [] | txns => [(txns, results)] end) ++ cm_log s)).
  split; [|split_and!; [apply dedup_sublist|apply dedup_NoDup| |done..|]].
  - unfold committer_step. runs. fold txs. destruct txs as [|tx txs'] eqn:Htxs.
    + injection Hrun as <- <-. by destruct s.
    + destruct (deduplicate_transactions (tx :: txs')) as [|tx1 txns1] eqn:Hd.
      * injection Hrun as <- <-. by destruct s.
      * unfold log_execution_results, mbind, exec_mbind, exec_bind, zoom, lift. rewrite Hrun.
        cbn [modify cm_store cm_executor cm_log]. rewrite log_lines_run; [done|].
        rewrite <-Hd. apply dedup_Forall. by rewrite <-Htxs.
  - intros tx Hin. by apply dedup_complete.
  - by destruct (deduplicate_transactions txs).
Qed.

End committer.
End consensus_tasks.

(** ** The start of the committer *)
Section spawn.
Context `{Prim : Primitives} `{Rocks : RocksDB} `{Res : AptosResources}.

(** [Committer::spawn], up to the loop: an executor that cannot be made ends the
    task. *)
Definition Committer_spawn (st : Store) : Outcome AnyhowError Committer :=
  executor ← new_with_genesis;
  let '(executor, o) := bootstrap_accounts PRE_FUNDED_ACCOUNT_SEEDS executor in
  _ ← o;
  Ok (mkCommitter st executor []).

(** C29: a committer starts and the pre-funded accounts can pay: building the
    executor from genesis and bootstrapping the four seeds succeeds, and then
    [account_balance] of every account that can be generated is the initial
    balance of 1 000 000 000 000 plus the gas buffer of 1 000 000 000, whatever
    the genesis change set contains. *)
Theorem committer_starts_funded {Laws : AptosResourcesLaws} {Total : AptosTotal} st :
  supply_group_decodes -> distinct_accounts PRE_FUNDED_ACCOUNT_SEEDS ->
  exists c, Committer_spawn st = Ok c /\ cm_store c = st /\ cm_log c = [] /\
    forall seed acct, seed ∈ PRE_FUNDED_ACCOUNT_SEEDS -> generate seed = Ok acct ->
      account_balance (la_address acct) (cm_executor c) = Ok 1001000000000.
Proof.
  intros Hsup Hdist.
  destruct (genesis_accounts_funded (E := AnyhowError) Hsup Hdist) as (d & d' & Hd & Hrun & Hall).
  exists (mkCommitter st d' []). split_and!; [|done..]. unfold Committer_spawn, mbind, outcome_mbind. by rewrite Hd, Hrun.
Qed.
End spawn.
