(* ===== verification/Replication.v ===== *)
(** * Replication: the consensus core and its committer together
    (src/hydrangea/src/core.rs, src/hydrangea/src/committer.rs)

    The core sends the payload of every block it commits over [tx_commit]; the
    committer executes the payloads in the order in which they arrive.  Two
    nodes that committed up to the same block have therefore executed the same
    blocks of transactions. *)
From S2P Require Import Prelude Crypto Config BitVec DagMessages Messages Leader Store Proposer Synchronizer Mempool Aggregator DagCore Executor Core CoreSteps CoreProps ConsensusTasks.

(** ** The channel from the core to the committer *)
Section delivery.
Context `{Prim : Primitives} `{Order : HashIter} `{Rocks : RocksDB} `{Codec : !BlockCodec}.
Context (cfg : CoreConfig).
Implicit Types (s : Core) (es : list Effect) (b : Block).

Definition delivered_of es : list (list Certificate) :=
  reverse (omap (fun e => match e with Ef_TxCommit certificates => Some certificates | _ => None end) es).

(** What was sent over [tx_commit], oldest first. *)
Definition deliveries s : list (list Certificate) := delivered_of (effects s).

Lemma delivered_of_app es es' : delivered_of (es ++ es') = delivered_of es' ++ delivered_of es.
Proof. unfold delivered_of. by rewrite omap_app, reverse_app. Qed.

Lemma delivered_of_snoc es e :
  delivered_of (es ++ [e]) =
    match e with Ef_TxCommit certificates => [certificates] | _ => [] end ++ delivered_of es.
Proof. rewrite delivered_of_app. f_equal. by destruct e. Qed.

Lemma delivered_of_mempool certificates :
  delivered_of (reverse (map Ef_Mempool certificates)) = [].
Proof.
  induction certificates as [|c cs IH]; [done|]. cbn [map].
  by rewrite reverse_cons, delivered_of_snoc.
Qed.

(** The deliveries of a commit are the payloads of its blocks, in order. *)
Lemma delivered_of_commit bs :
  cc_consensus_only cfg = false ->
  delivered_of (reverse (concat (map (commit_effects cfg) bs))) = map blk_payload bs.
Proof.
  intros Honly. induction bs as [|b bs IH]; [done|].
  cbn [map concat]. rewrite reverse_app, delivered_of_app, IH. unfold commit_effects.
  by rewrite Honly, !reverse_cons, !delivered_of_snoc, delivered_of_mempool.
Qed.

(** The payloads delivered are those of the committed blocks. *)
Lemma step_deliveries s s' :
  cc_consensus_only cfg = false -> step cfg LAll s s' ->
  deliveries s = map blk_payload (ledger s) -> deliveries s' = map blk_payload (ledger s').
Proof.
  intros Honly Hstep Hp. destruct Hstep; try done.
  - assert (Hl : ledger (emitted e s) = ledger s /\ deliveries (emitted e s) = deliveries s)
      by (unfold ledger, deliveries; rewrite effects_emitted; by destruct e).
    destruct Hl as [-> ->]. done.
  - match goal with |- context [commit_cleanup b ?x] =>
      assert (Heff : effects (commit_cleanup b x) = effects x) by done end.
    unfold deliveries, ledger in *. rewrite Heff, effects_emitted_all, delivered_of_app, committed_of_app,
      delivered_of_commit, committed_of_commit, Hp by done. symmetry. apply map_app.
Qed.

Lemma reachable_deliveries alive s :
  cc_consensus_only cfg = false -> reachable cfg alive s -> deliveries s = map blk_payload (ledger s).
Proof.
  intros Honly.
  assert (Hext : forall s s', rtc (step cfg LAll) s s' ->
            deliveries s = map blk_payload (ledger s) -> deliveries s' = map blk_payload (ledger s')).
  { induction 1; eauto using step_deliveries. }
  induction 1 as [st now|ev s0 Hs IH|s0 now Hs IH Hle|s0 command Hs IH]; [| |exact IH|exact IH].
  - eapply Hext; [apply boot_keeps, core_inv_spawn|done].
  - eapply Hext; [|exact IH]. apply (handle_event_keeps cfg LAll); [done|]. by eapply reachable_inv.
Qed.
End delivery.

(** ** Ledgers with the same tip *)
Section ledgers.
Context `{Prim : Primitives}.
Implicit Types (b : Block) (bs : list Block).

(** Walking back from equal tips, among blocks [P] whose digests determine them
    unless [Q]: the blocks hash to the same digests, so they have equal parents,
    and no block above genesis hashes to the genesis digest. *)
Lemma chains_agree_on (P : Block -> Prop) (Q : Prop) bs bs' :
  P Block_genesis ->
  (forall b b', P b -> P b' -> digest b = digest b' -> same_block b b' \/ Q) ->
  chain (digest Block_genesis) bs -> chain (digest Block_genesis) bs' ->
  Forall (fun b => 0 < blk_round b) bs -> Forall (fun b => 0 < blk_round b) bs' ->
  Forall P bs -> Forall P bs' ->
  tip (digest Block_genesis) bs = tip (digest Block_genesis) bs' ->
  Forall2 same_block bs bs' \/ Q.
Proof.
  intros Hg HP. revert bs'.
  induction bs as [|b bs IH] using rev_ind; intros bs' Hc Hc' Hr Hr' Hs Hs' Ht;
    destruct bs' as [|b' bs' _] using rev_ind; [by left|..].
  - rewrite tip_snoc in Ht. apply Forall_app in Hr' as [_ [Hr' _]%Forall_cons], Hs' as [_ [Hs' _]%Forall_cons].
    destruct (HP _ _ Hg Hs' Ht) as [(_ & _ & Heq & _)|]; [|by right].
    simpl in Heq. lia.
  - rewrite tip_snoc in Ht. apply Forall_app in Hr as [_ [Hr _]%Forall_cons], Hs as [_ [Hs _]%Forall_cons].
    destruct (HP _ _ Hs Hg Ht) as [(_ & _ & Heq & _)|]; [|by right].
    simpl in Heq. lia.
  - rewrite !tip_snoc in Ht.
    apply Forall_app in Hr as [Hr _], Hr' as [Hr' _], Hs as [Hs [Hb _]%Forall_cons],
      Hs' as [Hs' [Hb' _]%Forall_cons].
    apply chain_app in Hc as [Hc [Hp _]], Hc' as [Hc' [Hp' _]].
    destruct (HP _ _ Hb Hb' Ht) as [Hsame|]; [|by right].
    assert (Hpar : blk_parent b = blk_parent b') by apply Hsame.
    destruct (IH bs' Hc Hc' Hr Hr' Hs Hs') as [Hall|]; [congruence| |by right].
    left. apply Forall2_app; [done|by constructor].
Qed.

Lemma chains_agree bs bs' :
  chain (digest Block_genesis) bs -> chain (digest Block_genesis) bs' ->
  Forall (fun b => 0 < blk_round b) bs -> Forall (fun b => 0 < blk_round b) bs' ->
  Forall sized_block bs -> Forall sized_block bs' ->
  tip (digest Block_genesis) bs = tip (digest Block_genesis) bs' ->
  Forall2 same_block bs bs' \/ sha512_collision.
Proof. apply chains_agree_on; [apply sized_block_genesis|]. intros b b'. apply Block_digest_binding. Qed.
End ledgers.

(** ** Replicas execute alike *)
Section replicas.
Context `{Prim : Primitives} `{Txns : Transactions} `{Order : HashIter} `{Rocks : RocksDB}.
Context `{Codec : !BlockCodec} `{Codec' : !DagCodec} `{Vm : !AptosVM}.
Context (info_enabled : bool).
Implicit Types (c : Committer) (feed : list (Store * list Certificate)).

(** The store is shared: it changes between two iterations of the loop. *)
Definition set_cm_store (st : Store) c : Committer := mkCommitter st (cm_executor c) (cm_log c).

(** The loop of [Committer::run] on what it receives, each payload with the store
    as it is at that time. *)
Fixpoint run_commits feed : Exec Committer ConsensusError unit :=
  match feed with
  | [] => mret tt
  | (st, certificates) :: feed' =>
      _ ← modify (set_cm_store st);
      _ ← committer_step info_enabled certificates;
      run_commits feed'
  end.

(** What a committer has done, whatever its store. *)
Record same_execution c c' : Prop := {
  se_executor : cm_executor c = cm_executor c';
  se_log : cm_log c = cm_log c';
}.

Definition same_run {A} (r r' : Committer * Outcome ConsensusError A) : Prop :=
  r.2 = r'.2 /\ same_execution r.1 r'.1.

(** The two stores hold the same headers under the certificates' ids. *)
Definition headers_agree (x x' : Store * list Certificate) : Prop :=
  Forall2 (fun cert cert' => load_header x.1 cert = load_header x'.1 cert') x.2 x'.2.

Lemma committed_transactions_agree x x' :
  headers_agree x x' -> committed_transactions x.1 x.2 = committed_transactions x'.1 x'.2.
Proof.
  destruct x as [st cs], x' as [st' cs']. unfold headers_agree, committed_transactions. simpl.
  induction 1 as [|cert cert' cs cs' Heq _ IH]; [done|]. simpl. rewrite <-Heq.
  destruct (load_header st cert); simpl; [f_equal|]; exact IH.
Qed.

(** One iteration depends on the store only through the transactions it finds. *)
Lemma committer_step_agree x x' c c' :
  headers_agree x x' -> same_execution c c' ->
  same_run (committer_step info_enabled x.2 (set_cm_store x.1 c)) (committer_step info_enabled x'.2 (set_cm_store x'.1 c')).
Proof.
  intros Hh [He Hl]. unfold committer_step. run. cbn [cm_store set_cm_store].
  rewrite (committed_transactions_agree _ _ Hh).
  destruct (committed_transactions x'.1 x'.2) as [|tx txs]; [by split_and!|].
  destruct (deduplicate_transactions (tx :: txs)) as [|tx1 txs1]; [by split_and!|].
  unfold mbind, exec_mbind, exec_bind, zoom. cbn [cm_executor set_cm_store]. rewrite He.
  destruct (execute_block (tx1 :: txs1) (cm_executor c')) as [d [results|e|msg|]];
    try (by repeat split).
  unfold log_execution_results. run. cbn [cm_log set_cm_store]. rewrite Hl. by split.
Qed.

Lemma run_commits_agree feed feed' c c' :
  Forall2 headers_agree feed feed' -> same_execution c c' ->
  same_run (run_commits feed c) (run_commits feed' c').
Proof.
  intros Hf. revert c c'. induction Hf as [|x x' feed feed' Hx _ IH]; intros c c' Hc; [by split|].
  pose proof (committer_step_agree x x' c c' Hx Hc) as [Ho Hs].
  destruct x as [st cs], x' as [st' cs']. cbn [run_commits fst snd] in *. run.
  unfold mbind, exec_mbind, exec_bind.
  destruct (committer_step info_enabled cs (set_cm_store st c)) as [c1 o],
    (committer_step info_enabled cs' (set_cm_store st' c')) as [c1' o']. simpl in Ho, Hs. subst o'.
  destruct o; [by apply IH|by split..].
Qed.

(** The headers of one payload, at two nodes, when each pair of certificates with
    one id finds one header. *)
Lemma headers_agree_ids x x' :
  map cert_id x.2 = map cert_id x'.2 ->
  (forall cert cert', cert ∈ x.2 -> cert' ∈ x'.2 -> cert_id cert = cert_id cert' ->
     load_header x.1 cert = load_header x'.1 cert') ->
  headers_agree x x'.
Proof.
  destruct x as [st cs], x' as [st' cs']. unfold headers_agree. simpl. revert cs'.
  induction cs as [|cert cs IH]; intros [|cert' cs'] [=]; [constructor|].
  intros Hall. constructor; [apply Hall; [left..|done]|].
  apply IH; [done|]. intros. apply Hall; [by right..|done].
Qed.

Lemma feeds_agree feed feed' :
  map (map cert_id) (map snd feed) = map (map cert_id) (map snd feed') ->
  (forall i x x' cert cert', feed !! i = Some x -> feed' !! i = Some x' ->
     cert ∈ x.2 -> cert' ∈ x'.2 -> cert_id cert = cert_id cert' ->
     load_header x.1 cert = load_header x'.1 cert') ->
  Forall2 headers_agree feed feed'.
Proof.
  revert feed'. induction feed as [|x feed IH]; intros [|x' feed'] Hids Hloads; try done.
  injection Hids as Hx Hids. constructor.
  - apply headers_agree_ids; [done|]. intros. by apply (Hloads 0%nat).
  - apply IH; [done|]. intros i. apply (Hloads (S i)).
Qed.

Lemma same_blocks_payload bs bs' :
  Forall2 same_block bs bs' ->
  map (map cert_id) (map blk_payload bs) = map (map cert_id) (map blk_payload bs').
Proof.
  induction 1 as [|b b' bs bs' Hb _ IH]; [done|]. simpl. rewrite IH. f_equal. apply Hb.
Qed.

(** C16: state machine replication: when one node's last commit is the [n]-th
    block another node committed, then, unless SHA-512 collides, the first [n]
    payloads both cores sent to their committers are the same headers, and two
    committers that start alike end with the same outcome, the same executor state
    and the same log of results, whatever messages the two nodes received, provided
    that for every certificate in them they find the same header in their stores,
    or both none. *)
Theorem replicas_execute_alike cfg cfg' alive alive' s s' n feed feed' c c' :
  cc_consensus_only cfg = false -> cc_consensus_only cfg' = false ->
  reachable cfg alive s -> reachable cfg' alive' s' ->
  Forall sized_block (ledger s) -> Forall sized_block (ledger s') ->
  digest (co_last_commit s) = tip (digest Block_genesis) (take n (ledger s')) ->
  map snd feed = deliveries s -> map snd feed' = take n (deliveries s') ->
  (forall i x x' cert cert', feed !! i = Some x -> feed' !! i = Some x' ->
     cert ∈ x.2 -> cert' ∈ x'.2 -> cert_id cert = cert_id cert' ->
     load_header x.1 cert = load_header x'.1 cert') ->
  same_execution c c' ->
  (map (map cert_id) (deliveries s) = map (map cert_id) (take n (deliveries s')) /\
   same_run (run_commits feed c) (run_commits feed' c')) \/
  sha512_collision.
Proof.
  intros Honly Honly' Hs Hs' Hz Hz' Htip Hfeed Hfeed' Hloads Hc.
  pose proof (reachable_deliveries _ _ _ Honly Hs) as Hd. pose proof (reachable_deliveries _ _ _ Honly' Hs') as Hd'.
  pose proof (reachable_ledger_rounds _ _ _ Hs) as Hr. pose proof (reachable_ledger_rounds _ _ _ Hs') as Hr'.
  apply reachable_inv in Hs, Hs'. rewrite (ci_tip _ Hs) in Htip.
  pose proof (ci_chain _ Hs') as Hc'. rewrite <-(take_drop n (ledger s')) in Hc'.
  apply chain_app in Hc' as [Hc' _].
  destruct (chains_agree (ledger s) (take n (ledger s'))) as [Hall%same_blocks_payload|];
    [apply Hs|done..|by apply Forall_take|done|by apply Forall_take|done|left|by right].
  rewrite Hd, Hd', <-!firstn_map in *. split; [done|].
  apply run_commits_agree; [|done]. apply feeds_agree; [|done]. by rewrite Hfeed, Hfeed', Hall, firstn_map.
Qed.
End replicas.
