(* ===== verification/Safety.v ===== *)
(** * Safety: why a slow commit is never contradicted, and what forgets another

    The argument of the protocol on the records of its nodes alone, without their
    code.  A world is what every honest node has put on its trace; [certified]
    and [legit] say that a certificate, or the parent of a block, rests on votes
    and timeouts that really are in the world.  If every honest node votes only
    for legitimate blocks and signs commit votes only for certified ones, then a
    block with a slow commit quorum is an ancestor of every legitimate block of a
    higher round; and so is any certified block, unless a TC of a fallback proposal
    has forgotten it.  [CoreVetted] shows that the code keeps these conditions. *)
From S2P Require Import Prelude Crypto Config BitVec DagMessages Messages Leader Store Proposer Synchronizer Mempool Aggregator AggregatorProps Core CoreSteps CoreProps.

Create HintDb safety.

Section safety.
Context `{Prim : Primitives} `{Order : HashIter}.
(** The committee, its Byzantine authorities, and the blocks and the TCs of fallback
    proposals that occur. *)
Context (c : Committee) (B : gset PublicKey) (Blk : Block -> Prop) (Tcs : TC -> Prop).
Implicit Types (b p : Block) (d : Digest) (r : Round) (v : Vote) (x : PublicKey).

(** ** Worlds *)
Definition World : Type := PublicKey -> list Effect.
Implicit Types (w : World).

Definition world_le w w' : Prop := forall x, w x ⊆ w' x.

#[export] Instance world_le_preorder : PreOrder world_le.
Proof. split; [by intros w x|]. intros w1 w2 w3 H12 H23 x. etrans; [apply H12|apply H23]. Qed.

(** Node [x] signed a vote of kind [k] for block [d] in round [r]. *)
Definition voted w x (k : VoteType) d r : Prop :=
  exists v, Ef_LogVote v ∈ w x /\ vote_kind v = k /\ vote_blk_hash v = d /\ vote_round v = r.

(** A quorum whose honest members voted. *)
Definition certified w k d r : Prop :=
  exists X : gset PublicKey, X ⊆ Quorums.members c /\ vote_threshold c k <= Quorums.weight c X /\
    forall x, x ∈ X -> x ∉ B -> voted w x k d r.

(** A QC that certifies something: the genesis block, or the votes of a quorum. *)
Definition genuine w (qc : QC) : Prop :=
  (qc_round qc = 0 /\ qc_blk_hash qc = digest Block_genesis) \/
  (0 < qc_round qc /\ certified w (qc_kind qc) (qc_blk_hash qc) (qc_round qc)).
Definition genuine_wqc w (wqc : WQC) : Prop :=
  (wqc_round wqc = 0 /\ wqc_blk_hash wqc = digest Block_genesis) \/
  (0 < wqc_round wqc /\ exists x, (x ∉ B) /\ voted w x VT_Normal (wqc_blk_hash wqc) (wqc_round wqc)).

(** A TC that rests on the timeouts of a view change quorum, none of which
    reports a lock above the TC's high QC. *)
Record genuine_tc w (tc : TC) : Prop := {
  gt_high_qc : genuine w (tc_high_qc tc);
  gt_high_wqc : genuine_wqc w (tc_high_wqc tc);
  gt_rounds : qc_round (tc_high_qc tc) <= tc_round tc /\ wqc_round (tc_high_wqc tc) <= tc_round tc;
  gt_quorum : exists X : gset PublicKey, X ⊆ Quorums.members c /\
    view_change_threshold c <= Quorums.weight c X /\
    forall x, x ∈ X -> x ∉ B -> exists t, Ef_LogTimeout t ∈ w x /\ to_round t = tc_round tc /\
      qc_round (to_high_qc t) <= qc_round (tc_high_qc tc);
}.

(** What justifies a block: a certificate for its parent from the round before,
    or a TC of the round before, from a fallback proposal, that names the parent. *)
Definition legit w b : Prop :=
  0 < blk_round b /\
  ((exists qc, genuine w qc /\ qc_blk_hash qc = blk_parent b /\ qc_round qc = blk_round b - 1) \/
   (exists tc, Tcs tc /\ genuine_tc w tc /\ tc_round tc = blk_round b - 1 /\ blk_parent b = safe_blk_hash tc)).

(** What justifies a vote. *)
Definition vote_ok w v : Prop :=
  match vote_kind v with
  | VT_Normal => exists b, Blk b /\ digest b = vote_blk_hash v /\ blk_round b = vote_round v /\ legit w b
  | VT_Commit => 0 < vote_round v /\ certified w VT_Normal (vote_blk_hash v) (vote_round v)
  end.
Definition world_ok w : Prop := forall x v, x ∉ B -> Ef_LogVote v ∈ w x -> vote_ok w v.

(** *** Everything is monotone in the world *)
Section mono.
Context w w' (Hle : world_le w w').

Lemma voted_mono x k d r : voted w x k d r -> voted w' x k d r.
Proof. intros (v & Hv & Hrest). exists v. split; [by apply Hle|done]. Qed.
Lemma certified_mono k d r : certified w k d r -> certified w' k d r.
Proof. intros (X & Hm & Hw & Hall). exists X. split_and!; eauto using voted_mono. Qed.
Lemma genuine_mono qc : genuine w qc -> genuine w' qc.
Proof. intros [?|[? ?]]; [by left|right]. eauto using certified_mono. Qed.
Lemma genuine_wqc_mono wqc : genuine_wqc w wqc -> genuine_wqc w' wqc.
Proof. intros [?|(? & x & ? & ?)]; [by left|right]. split; [done|]. exists x. eauto using voted_mono. Qed.
Lemma genuine_tc_mono tc : genuine_tc w tc -> genuine_tc w' tc.
Proof.
  intros [Hq Hw Hr (X & Hm & Hx & Hall)]. split; eauto using genuine_mono, genuine_wqc_mono.
  exists X. split_and!; [done..|]. intros x Hin HB. destruct (Hall x Hin HB) as (t & Ht & Hrest).
  exists t. split; [by apply Hle|done].
Qed.
Lemma legit_mono b : legit w b -> legit w' b.
Proof.
  intros [H0 [(qc & Hqc & Hrest)|(tc & Hoc & Htc & Hrest)]]; split; [done| |done|].
  - left. exists qc. eauto using genuine_mono.
  - right. exists tc. eauto using genuine_tc_mono.
Qed.
Lemma vote_ok_mono v : vote_ok w v -> vote_ok w' v.
Proof.
  unfold vote_ok. destruct (vote_kind v); [intros [? ?]; eauto using certified_mono|].
  intros (b & ? & ? & ? & ?). exists b. eauto using legit_mono.
Qed.
End mono.

(** Legitimacy depends on what the digest commits to. *)
Lemma legit_same w b b' : same_block b b' -> legit w b -> legit w b'.
Proof. intros (_ & Hp & Hr & _). unfold legit. by rewrite Hp, Hr. Qed.

(** ** Quorums of honest votes *)
Context (n f cr k : Z) (Hres : Quorums.resilient n f cr k) (Hconf : Quorums.configured c n f cr k).
Context (HB : Quorums.weight c B <= f).

Lemma vote_threshold_honest kd : f < vote_threshold c kd.
Proof.
  destruct Hres. destruct kd; simpl.
  - rewrite (Quorums.conf_slow _ _ _ _ _ Hconf), (Quorums.compute_slow_eq n f cr k Hres). lia.
  - rewrite (Quorums.conf_quorum _ _ _ _ _ Hconf), (Quorums.compute_quorum_eq n f cr k Hres). zlia.
Qed.

Lemma certified_voter w kd d r : certified w kd d r -> exists x, (x ∉ B) /\ voted w x kd d r.
Proof.
  intros (X & _ & Hw & Hall). pose proof (vote_threshold_honest kd).
  destruct (Quorums.honest_member c n f cr k Hconf X B) as (x & Hx & HxB); [lia|]. eauto.
Qed.

(** ** The argument *)

(** What [core_inv] says of the record of an honest node. *)
Record record_ok (es : list Effect) : Prop := {
  rk_ordered : ordered es;
  rk_timeouts : forall t v, Ef_LogTimeout t ∈ es -> Ef_LogVote v ∈ es ->
    vote_kind v = VT_Commit -> vote_round v <= to_round t ->
    vote_round v <= qc_round (to_high_qc t);
}.

Context (Hgen : Blk Block_genesis).
Context (Hcf : forall b b', Blk b -> Blk b' -> digest b = digest b' -> same_block b b').

(** A block that a world can certify. *)
Lemma voted_block w x d r :
  world_ok w -> x ∉ B -> voted w x VT_Normal d r ->
  exists b, Blk b /\ digest b = d /\ blk_round b = r /\ legit w b.
Proof.
  intros Hok Hx (v & Hv & Hk & Hd & Hr). pose proof (Hok x v Hx Hv) as Hvote. unfold vote_ok in Hvote.
  rewrite Hk, Hd, Hr in Hvote. exact Hvote.
Qed.

(** Commit votes are cast only for certified blocks, so both kinds of quorum
    certify in the same sense. *)
Lemma certified_normal w kd d r : world_ok w -> certified w kd d r -> certified w VT_Normal d r.
Proof.
  intros Hok Hc. destruct kd; [|done].
  destruct (certified_voter _ _ _ _ Hc) as (x & Hx & v & Hv & Hk & Hd & Hr).
  pose proof (Hok x v Hx Hv) as Hvote. unfold vote_ok in Hvote. rewrite Hk, Hd, Hr in Hvote. apply Hvote.
Qed.
Lemma certified_block w kd d r :
  world_ok w -> certified w kd d r -> exists b, Blk b /\ digest b = d /\ blk_round b = r /\ legit w b.
Proof.
  intros Hok Hc. destruct (certified_voter w VT_Normal d r) as (x & Hx & Hv);
    [by eapply certified_normal|]. by eapply voted_block.
Qed.

(** The parent of a legitimate block is the genesis block or legitimate. *)
Lemma legit_parent w b p :
  world_ok w -> legit w b -> Blk p -> digest p = blk_parent b -> blk_round p = 0 \/ legit w p.
Proof.
  intros Hok [_ Hj] Hp Hd.
  assert (Hgenesis : digest p = digest Block_genesis -> blk_round p = 0).
  { intros Heq. destruct (Hcf _ _ Hp Hgen Heq) as (_ & _ & Hr & _). done. }
  assert (Hvia : forall p', Blk p' -> digest p' = digest p -> legit w p' -> legit w p).
  { intros p' Hp' Heq. by apply legit_same, Hcf. }
  assert (Hqc : forall qc, genuine w qc -> qc_blk_hash qc = digest p -> blk_round p = 0 \/ legit w p).
  { intros qc [[_ Heq]|[_ Hc]] Hh; [left; apply Hgenesis; congruence|right].
    destruct (certified_block _ _ _ _ Hok Hc) as (p' & ? & ? & _ & ?). eapply Hvia; eauto. congruence. }
  destruct Hj as [(qc & Hg & Hh & _)|(tc & _ & [Hq Hw _ _] & _ & Hs)]; [apply (Hqc qc); congruence|].
  unfold safe_blk_hash in Hs. destruct (qc_round (tc_high_qc tc) <? wqc_round (tc_high_wqc tc)).
  - destruct Hw as [[_ Heq]|(_ & x & Hx & Hv)]; [left; apply Hgenesis; congruence|right].
    destruct (voted_block _ _ _ _ Hok Hx Hv) as (p' & ? & ? & _ & ?). eapply Hvia; eauto. congruence.
  - apply (Hqc (tc_high_qc tc)); congruence.
Qed.

Section commit.
Context (w : World) (Hok : world_ok w).
Context (Hrec : forall x, x ∉ B -> record_ok (w x)).

Lemma certified_unique d d' r : certified w VT_Normal d r -> certified w VT_Normal d' r -> d = d'.
Proof.
  intros (X & HX & HwX & HallX) (Y & HY & HwY & HallY).
  pose proof (Quorums.quorum_overlap c n f cr k Hres Hconf X Y HX HY HwX HwY) as Ho.
  destruct (Quorums.honest_member c n f cr k Hconf (X ∩ Y) B) as (x & [Hx Hy]%elem_of_intersection & HxB); [lia|].
  destruct (HallX x Hx HxB) as (v & Hv & Hk & <- & Hr), (HallY x Hy HxB) as (v' & Hv' & Hk' & <- & Hr').
  apply (ordered_normal (w x)); try done; [by apply Hrec|congruence].
Qed.

(** A TC of a round not below a slow commit carries a high QC that is not below
    it: an honest authority signed the commit vote and the timeout. *)
Lemma tc_sees_commit d r tc :
  certified w VT_Commit d r -> genuine_tc w tc -> r <= tc_round tc -> r <= qc_round (tc_high_qc tc).
Proof.
  intros (X & HX & HwX & HallX) [_ _ _ (Y & HY & HwY & HallY)] Hr.
  pose proof (Quorums.slow_commit_view_change_overlap c n f cr k Hres Hconf X Y HX HY HwX HwY) as Ho.
  destruct (Quorums.honest_member c n f cr k Hconf (X ∩ Y) B) as (x & [Hx Hy]%elem_of_intersection & HxB); [lia|].
  destruct (HallX x Hx HxB) as (v & Hv & Hk & _ & Hvr), (HallY x Hy HxB) as (t & Ht & Htr & Hle).
  pose proof (rk_timeouts _ (Hrec x HxB) t v Ht Hv Hk). lia.
Qed.

(** [descends d b]: block [d] is [b] or one of its ancestors. *)
Inductive descends d : Block -> Prop :=
| ds_self b : digest b = d -> descends d b
| ds_parent b p :
    Blk p -> 0 < blk_round b -> digest p = blk_parent b -> descends d p -> descends d b.

(** A TC of a fallback proposal, of a round not below [r], that has forgotten block
    [d] of round [r]: its high QC is older, and its weak certificate, as the proposal
    carries it, is older or names another block of that round.  If an aggregator
    made this TC, no timeout that it counted carries a newer weak certificate, and
    none can be made of the votes that they report. *)
Record forgets d r tc : Prop := {
  fg_occurs : Tcs tc;
  fg_genuine : genuine_tc w tc;
  fg_round : r <= tc_round tc;
  fg_high_qc : qc_round (tc_high_qc tc) < r;
  fg_high_wqc : wqc_round (tc_high_wqc tc) < r \/
    (wqc_round (tc_high_wqc tc) = r /\ wqc_blk_hash (tc_high_wqc tc) <> d);
  fg_assembled : forall ts, assembled c ts tc ->
    Forall (fun t => wqc_round (to_high_wqc t) <= wqc_round (tc_high_wqc tc)) ts /\
    forall wqc, reported_wqc c ts = Ok (Some wqc) -> wqc_round wqc <= wqc_round (tc_high_wqc tc);
}.

Lemma slow_commit_remembered d r tc : certified w VT_Commit d r -> ~ forgets d r tc.
Proof. intros Hc [_ Htc Hr Hq _ _]. pose proof (tc_sees_commit _ _ _ Hc Htc Hr). lia. Qed.

(** A certified block binds every later legitimate block, unless a TC has
    forgotten it. *)
Lemma legit_descends d r b :
  0 < r -> certified w VT_Normal d r -> Blk b -> legit w b -> r < blk_round b ->
  descends d b \/ exists tc, forgets d r tc.
Proof.
  intros Hr0 Hn. remember (Z.to_nat (blk_round b)) as m eqn:Hm. revert b Hm.
  induction m as [m IH] using lt_wf_ind. intros b Hm Hb Hl Hlt. pose proof Hl as [H0 Hj].
  (* a legitimate parent, not below the certified block *)
  assert (Hparent : forall p, Blk p -> legit w p -> digest p = blk_parent b -> blk_round p < blk_round b ->
            (digest p = d \/ r < blk_round p) -> descends d b \/ exists tc, forgets d r tc).
  { intros p Hp Hlp Hd Hlt' [|Hgt]; [left; apply (ds_parent _ _ p); [done..|by apply ds_self]|].
    destruct (IH (Z.to_nat (blk_round p)) ltac:(lia) p eq_refl Hp Hlp Hgt); [left|by right].
    by apply (ds_parent _ _ p). }
  (* the parent that a certificate names *)
  assert (Hqc : forall qc, genuine w qc -> qc_blk_hash qc = blk_parent b ->
            r <= qc_round qc < blk_round b -> descends d b \/ exists tc, forgets d r tc).
  { intros qc Hg Hh Hround. destruct Hg as [[? _]|[_ Hcq]]; [lia|].
    destruct (certified_block _ _ _ _ Hok Hcq) as (p & Hp & Hdp & Hrp & Hlp).
    apply (Hparent p); [done..|congruence|lia|].
    destruct (decide (qc_round qc = r)) as [Heq|]; [left|right; lia].
    apply certified_normal in Hcq; [|done]. rewrite Heq in Hcq. rewrite Hdp.
    by eapply certified_unique. }
  destruct Hj as [(qc & Hg & Hh & Hqr)|(tc & Hoc & Htc & Htr & Hs)]; [apply (Hqc qc); [done..|lia]|].
  pose proof (gt_rounds _ _ Htc) as [Hqr Hwr]. unfold safe_blk_hash in Hs.
  assert (Hforgets : genuine_tc w tc -> r <= tc_round tc -> qc_round (tc_high_qc tc) < r ->
            wqc_round (tc_high_wqc tc) < r \/
              (wqc_round (tc_high_wqc tc) = r /\ wqc_blk_hash (tc_high_wqc tc) <> d) -> forgets d r tc).
  { intros. split; [done..|]. intros ts. by apply assembled_wqc. }
  destruct (Z.ltb_spec (qc_round (tc_high_qc tc)) (wqc_round (tc_high_wqc tc))); cycle 1.
  { destruct (decide (r <= qc_round (tc_high_qc tc))); [apply (Hqc (tc_high_qc tc)); [apply Htc|done|lia]|].
    right. exists tc. apply Hforgets; [done|lia|lia|left; lia]. }
  destruct (decide (wqc_round (tc_high_wqc tc) < r)).
  { right. exists tc. apply Hforgets; [done|lia|lia|by left]. }
  destruct (gt_high_wqc _ _ Htc) as [[? _]|(_ & x & Hx & Hv)]; [lia|].
  destruct (voted_block _ _ _ _ Hok Hx Hv) as (p & Hp & Hdp & Hrp & Hlp).
  destruct (decide (r < wqc_round (tc_high_wqc tc))); [apply (Hparent p); [done..|congruence|lia|right; lia]|].
  destruct (decide (digest p = d)); [apply (Hparent p); [done..|congruence|lia|by left]|].
  destruct (decide (r <= qc_round (tc_high_qc tc))); [lia|].
  right. exists tc. apply Hforgets; [done|lia|lia|right; split; [lia|congruence]].
Qed.

(** A chain of blocks on the genesis block passes through the ancestors of its
    tip. *)
Lemma chain_passes d b bs :
  descends d b -> Blk b -> chain (digest Block_genesis) bs -> Forall Blk bs ->
  tip (digest Block_genesis) bs = digest b ->
  exists m, (m <= length bs)%nat /\ tip (digest Block_genesis) (take m bs) = d.
Proof.
  intros Hd. revert bs. induction Hd as [b <-|b p Hp H0 Hpar _ IH]; intros bs Hb Hch Hbs Ht.
  { exists (length bs). by rewrite firstn_all. }
  destruct bs as [|b' bs _] using rev_ind.
  { destruct (Hcf _ _ Hgen Hb Ht) as (_ & _ & Hr & _). simpl in Hr. lia. }
  rewrite tip_snoc in Ht. apply Forall_app in Hbs as [Hbs [Hb' _]%Forall_cons].
  apply chain_app in Hch as [Hch [Hp' _]].
  destruct (Hcf _ _ Hb' Hb Ht) as (_ & Hsame & _).
  destruct (IH bs Hp Hch Hbs) as (m & Hle & Htip); [congruence|].
  exists m. rewrite length_app, take_app_le by done. split; [lia|done].
Qed.

(** Two certified tips: the chain of the higher passes through the lower, unless
    a TC has forgotten the lower. *)
Lemma commit_on_chain d r kd kd' r' b bs :
  0 < r -> certified w kd d r -> certified w kd' (digest b) r' -> r <= r' -> Blk b ->
  chain (digest Block_genesis) bs -> Forall Blk bs -> tip (digest Block_genesis) bs = digest b ->
  (exists m, (m <= length bs)%nat /\ tip (digest Block_genesis) (take m bs) = d) \/
  exists tc, forgets d r tc.
Proof.
  intros Hr0 Hc%certified_normal Hc' Hle Hb Hch Hbs Htip; [|done].
  destruct (certified_block _ _ _ _ Hok Hc') as (b' & Hb' & Hd & Hr & Hl).
  assert (Hsame : same_block b' b) by by apply Hcf.
  pose proof Hsame as (_ & _ & Hbr & _).
  assert (Hdesc : descends d b \/ exists tc, forgets d r tc); cycle 1.
  { destruct Hdesc as [Hdesc|?]; [left|by right]. by apply (chain_passes d b). }
  destruct (decide (r = r')) as [->|Hne].
  - left. apply ds_self. apply certified_normal in Hc'; [|done]. by eapply certified_unique.
  - apply (legit_descends _ r); [done..|by eapply legit_same|lia].
Qed.
End commit.
End safety.

#[export] Hint Resolve voted_mono certified_mono genuine_mono genuine_wqc_mono genuine_tc_mono legit_mono
  vote_ok_mono : safety.
