(* ===== verification/AggregatorVetted.v ===== *)
(** * AggregatorVetted: what an aggregator makes of votes that really were cast

    [agg_ok] is the invariant of an aggregator that is fed only votes whose honest
    authors signed them and timeouts with genuine high QCs: the QCs and TCs it
    hands out are then genuine in the sense of [Safety]. *)
From S2P Require Import Prelude Crypto Config BitVec DagMessages Messages Signers Aggregator AggregatorProps Agreement Core Safety.

Section aggregation.
Context `{Prim : Primitives} `{Order : HashIter} {Laws : G2Laws}.
Context (c : Committee) (Hc : committee_wf c).
Context (Hn : (committee_size c <= Z.to_nat (comm_n c))%nat).
Context (n f cr k : Z) (Hres : Quorums.resilient n f cr k) (Hconf : Quorums.configured c n f cr k).
Context (B : gset PublicKey) (Seen : Vote -> Prop).
Implicit Types (w : World) (a : Aggregator) (v : Vote) (vs : list Vote) (t : Timeout).

Lemma configured_total : set_weight (stake c) (list_to_set (get_public_keys c)) < 2 ^ 32.
Proof. pose proof (Quorums.conf_total _ _ _ _ _ Hconf). destruct Hres. lia. Qed.

(** A vote that arrives: if its author is honest, the author signed it. *)
Record vote_in w v : Prop := {
  vi_honest : vote_author v ∉ B -> Ef_LogVote v ∈ w (vote_author v);
  vi_seen : Seen v;
}.
Definition filed w (kd : VoteType) r v : Prop := vote_in w v /\ vote_kind v = kd /\ vote_round v = r.

(** No aggregate is forged: when a sum of commit shares of one round verifies
    for the message of its last vote, its honest votes are for that message. *)
Definition unforged : Prop := forall vs v,
  Forall Seen (vs ++ [v]) -> NoDup (authors (vs ++ [v])) ->
  Forall (fun x => vote_kind x = VT_Commit /\ vote_round x = vote_round v) (vs ++ [v]) ->
  shares_verify c (vs ++ [v]) v = true ->
  forall x, x ∈ vs ++ [v] -> vote_author x ∉ B -> vote_blk_hash x = vote_blk_hash v.

(** The makers hold votes that arrived, under their rounds and kinds, and high
    QCs that are genuine. *)
Record agg_ok w a : Prop := {
  ao_committee : ag_committee a = c;
  ao_votes : forall r d, exists vs, qm_inv c (Z.to_nat (comm_n c)) (ag_vote_maker a r d) vs /\
    Forall (fun v => filed w VT_Normal r v /\ vote_blk_hash v = d) vs;
  ao_commits : forall r, exists vs, qm_inv c (Z.to_nat (comm_n c)) (ag_commit_maker a r) vs /\
    Forall (filed w VT_Commit r) vs;
  ao_timeouts : forall r, genuine c B w (tm_high_qc (ag_timeout_maker a r));
}.

Lemma vote_in_mono w w' v : world_le w w' -> vote_in w v -> vote_in w' v.
Proof. intros Hle [Hh Hs]. split; [|done]. intros HB. by apply Hle, Hh. Qed.

Lemma agg_ok_mono w w' a : world_le w w' -> agg_ok w a -> agg_ok w' a.
Proof.
  intros Hle [Hcomm Hv Hcm Ht].
  assert (Hf : forall kd r v, filed w kd r v -> filed w' kd r v)
    by (intros kd r v [? ?]; split; eauto using vote_in_mono).
  split; [done|..].
  - intros r d. destruct (Hv r d) as (vs & ? & Hall). exists vs. split; [done|].
    eapply Forall_impl; [exact Hall|]. intros v [? ?]. auto.
  - intros r. destruct (Hcm r) as (vs & ? & Hall). exists vs. split; [done|].
    eapply Forall_impl; [exact Hall|]. auto.
  - eauto with safety.
Qed.

Lemma agg_ok_new w : agg_ok w (Aggregator_new c).
Proof.
  split; [done|..].
  - intros r d. exists []. split; [apply QCMaker_new_inv|constructor].
  - intros r. exists []. split; [apply QCMaker_new_inv|constructor].
  - intros r. by left.
Qed.

(** A QC over votes of which the honest ones agree with it. *)
Lemma qc_genuine w m vs qc :
  qm_inv c (Z.to_nat (comm_n c)) m vs -> 0 < qc_round qc ->
  list_weight (stake c) (authors vs) = qc_threshold c qc ->
  Forall (fun v => filed w (qc_kind qc) (qc_round qc) v /\
                   (vote_author v ∉ B -> vote_blk_hash v = qc_blk_hash qc)) vs ->
  (qc_kind qc = VT_Commit -> qc_fast_quorum qc = false) ->
  genuine c B w qc.
Proof.
  intros Hinv H0 Hw Hall Hfast. right. split; [done|]. exists (list_to_set (authors vs)).
  split; [by eapply authors_members|]. rewrite (authors_set_weight _ _ _ _ Hinv), Hw. split.
  - pose proof (Quorums.quorum_le_fast c n f cr k Hres Hconf). unfold qc_threshold.
    destruct (qc_kind qc); [rewrite Hfast by done; simpl; lia|].
    destruct (qc_fast_quorum qc); simpl; lia.
  - intros x Hx%elem_of_list_to_set HxB. apply list_elem_of_fmap in Hx as (v & -> & Hv). rewrite Forall_forall in Hall.
    destruct (Hall v Hv) as ([Hin [Hk Hr]] & Hd). exists v. split_and!; [by apply Hin|done|by apply Hd|done].
Qed.

Lemma filed_append w kd r (P : Vote -> Prop) m vs v cf :
  qm_inv c (Z.to_nat (comm_n c)) m vs -> Forall (fun x => filed w kd r x /\ P x) vs ->
  filed w kd r v -> P v ->
  exists vs', qm_inv c (Z.to_nat (comm_n c)) (QCMaker_append v c cf m).1 vs' /\
    Forall (fun x => filed w kd r x /\ P x) vs'.
Proof.
  intros Hinv Hall Hf HP.
  destruct (QCMaker_append_inv c Hc _ Hn (Quorums.conf_stake _ _ _ _ _ Hconf) configured_total
              m vs v cf Hinv) as (vs' & Hinv' & Hvs'). exists vs'. split; [done|].
  destruct Hvs' as [->| ->]; [done|]. apply Forall_app. split; [done|]. by constructor.
Qed.

Lemma add_normal_vote_ok w v a a' o :
  agg_ok w a -> vote_in w v -> vote_kind v = VT_Normal -> 0 < vote_round v ->
  add_normal_vote v a = (a', o) ->
  agg_ok w a' /\ forall qc, o = Ok (Some qc) -> genuine c B w qc.
Proof.
  intros [Hcomm Hv Hcm Ht] Hin Hk H0. unfold add_normal_vote. run. unfold zoom. rewrite Hcomm.
  set (m := ag_vote_maker a (vote_round v) (vote_blk_hash v)).
  destruct (QCMaker_append v c true m) as [m' o'] eqn:Happ. intros [= <- <-].
  destruct (Hv (vote_round v) (vote_blk_hash v)) as (vs & Hinv & Hall). fold m in Hinv. split.
  - split; [done| |exact Hcm|exact Ht]. intros r d.
    destruct (decide ((vote_round v, vote_blk_hash v) = (r, d))) as [[= <- <-]|Hne];
      [|rewrite ag_put_vote_maker_other by done; apply Hv].
    rewrite ag_put_vote_maker_same. replace m' with (QCMaker_append v c true m).1 by by rewrite Happ.
    by apply (filed_append w VT_Normal _ (fun x => vote_blk_hash x = vote_blk_hash v) m vs).
  - intros qc ->.
    destruct (QCMaker_append_Some c Hc _ Hn (Quorums.conf_stake _ _ _ _ _ Hconf) configured_total
                _ vs v true _ _ Hinv Happ) as (Hinv' & Hh & Hqk & Hqr & Hw & _).
    apply (qc_genuine w m' (vs ++ [v])); [done|lia|done| |congruence].
    rewrite Hqk, Hqr, Hk, Hh. apply Forall_app. split; [|by constructor].
    eapply Forall_impl; [exact Hall|]. by intros x [? ?].
Qed.

Lemma add_commit_vote_ok w v a a' o :
  unforged -> agg_ok w a -> vote_in w v -> vote_kind v = VT_Commit -> 0 < vote_round v ->
  add_commit_vote v a = (a', o) ->
  agg_ok w a' /\ forall qc, o = Ok (Some qc) -> genuine c B w qc.
Proof.
  intros Hunf [Hcomm Hv Hcm Ht] Hin Hk H0. unfold add_commit_vote. run. unfold zoom. rewrite Hcomm.
  set (m := ag_commit_maker a (vote_round v)).
  destruct (QCMaker_append v c false m) as [m' o'] eqn:Happ. intros [= <- <-].
  destruct (Hcm (vote_round v)) as (vs & Hinv & Hall). fold m in Hinv. split.
  - split; [done|exact Hv| |exact Ht]. intros r. unfold ag_commit_maker. simpl.
    destruct (decide (vote_round v = r)) as [<-|Hne]; [|rewrite lookup_insert_ne by done; apply Hcm].
    rewrite lookup_insert_eq. simpl. replace m' with (QCMaker_append v c false m).1 by by rewrite Happ.
    destruct (filed_append w VT_Commit (vote_round v) (fun _ => True) m vs v false) as (vs' & ? & Hall');
      [done| |done|done|].
    + eapply Forall_impl; [exact Hall|]. done.
    + exists vs'. split; [done|]. eapply Forall_impl; [exact Hall'|]. by intros x [? _].
  - intros qc ->.
    destruct (QCMaker_append_Some c Hc _ Hn (Quorums.conf_stake _ _ _ _ _ Hconf) configured_total
                _ vs v false _ _ Hinv Happ) as (Hinv' & Hh & Hqk & Hqr & Hw & _ & Hsh & Hslow).
    assert (Hall' : Forall (filed w VT_Commit (vote_round v)) (vs ++ [v])).
    { apply Forall_app. split; [done|by constructor]. }
    rewrite Forall_forall in Hall'.
    apply (qc_genuine w m' (vs ++ [v])); [done|lia|done| |].
    + rewrite Hqk, Hqr, Hk, Hh. apply Forall_forall. intros x Hx. split; [by apply Hall'|]. intros HxB.
      apply (Hunf vs v); try done; [|apply Hinv'|]; apply Forall_forall; intros y Hy;
        destruct (Hall' y Hy) as ([_ ?] & ? & ?); done.
    + by rewrite Hqk.
Qed.

Lemma add_timeout_ok w t a a' o :
  agg_ok w a -> genuine c B w (to_high_qc t) -> add_timeout t a = (a', o) ->
  agg_ok w a' /\ forall x tc, o = Ok (x, Some tc) -> genuine c B w (tc_high_qc tc).
Proof.
  intros [Hcomm Hv Hcm Ht] Hg. unfold add_timeout. run. unfold zoom. rewrite Hcomm.
  set (m := ag_timeout_maker a (to_round t)). specialize (Ht (to_round t)) as Hm. fold m in Hm.
  destruct (TCMaker_append t c m) as [m' o'] eqn:Happ. intros [= <- <-].
  assert (Hm' : genuine c B w (tm_high_qc m') /\
                forall x tc, o' = Ok (x, Some tc) -> genuine c B w (tc_high_qc tc)).
  { revert Happ. unfold TCMaker_append. run. case_bool_decide; [by intros [= <- <-]|].
    destruct (Timeout_is_well_formed c t) as [[]|e|msg|]; try (by intros [= <- <-]). runs. unfold id.
    assert (Hrec : genuine c B w (tm_high_qc (tm_record t c m))) by (simpl; by case_match).
    assert (Hraise : forall o m1, tm_high_qc (tm_raise_wqc o m1) = tm_high_qc m1).
    { intros o m1. unfold tm_raise_wqc. destruct o; [|done]. by case_match. }
    case_match; [|by intros [= <- <-]].
    destruct (check_wqc (tm_record t c m) c) as [wqc|e|msg|]; try (by intros [= <- <-]). runs.
    intros [= <- <-]. rewrite Hraise. split; [done|]. intros x tc [= _ <-]. exact Hrec. }
  destruct Hm' as [Hm' Ho]. split; [|done]. split; [done|exact Hv|exact Hcm|].
  intros r. unfold ag_timeout_maker. simpl. destruct (decide (to_round t = r)) as [<-|Hne].
  - by rewrite lookup_insert_eq.
  - rewrite lookup_insert_ne by done. apply Ht.
Qed.

Lemma cleanup_prepares_ok w r a : agg_ok w a -> agg_ok w (cleanup_prepares r a).
Proof.
  intros [Hcomm Hv Hcm Ht]. split; [done|..|exact Ht].
  - intros r' d. destruct (ag_cleanup_maker c Hn r a r' d) as [->| ->]; [apply Hv|]. rewrite Hcomm.
    exists []. split; [apply QCMaker_new_inv|constructor].
  - intros r'. unfold ag_commit_maker. simpl. destruct (filter _ (ag_commits a) !! r') as [m|] eqn:Hm.
    + apply map_lookup_filter_Some in Hm as [Hm _]. specialize (Hcm r'). unfold ag_commit_maker in Hcm.
      by rewrite Hm in Hcm.
    + simpl. rewrite Hcomm. exists []. split; [apply QCMaker_new_inv|constructor].
Qed.
Lemma cleanup_timeouts_ok w r a : agg_ok w a -> agg_ok w (cleanup_timeouts r a).
Proof.
  intros [Hcomm Hv Hcm Ht]. split; [done|exact Hv|exact Hcm|].
  intros r'. unfold ag_timeout_maker. simpl. destruct (filter _ (ag_timeouts a) !! r') as [m|] eqn:Hm.
  - apply map_lookup_filter_Some in Hm as [Hm _]. specialize (Ht r'). unfold ag_timeout_maker in Ht.
    by rewrite Hm in Ht.
  - simpl. by left.
Qed.

End aggregation.
