(* ===== verification/CoreVetted.v ===== *)
(** * CoreVetted: what an honest node's code lets into its state

    The conditions of [Safety] hold in every state of a node, as long as the
    certificates in the messages it receives are genuine: it votes only for
    legitimate blocks, signs commit votes only for certified ones, and commits
    only certified blocks.  [ninv] is the invariant of the node in a world in
    which the other nodes do not move; one lemma per method of [Core] shows that
    the method keeps it. *)
From S2P Require Import Prelude Crypto Config BitVec DagMessages Messages Signers Leader Store Proposer Synchronizer Mempool Aggregator AggregatorProps Core CoreSteps CoreTermination Safety AggregatorVetted.

Create HintDb vet.

Section vetted.
Context `{Prim : Primitives} `{Order : HashIter} {Laws : G2Laws}.
Context `{Rocks : RocksDB} {DbLaws : RocksDBLaws} `{Codec : !BlockCodec} {CodecLaws : BlockCodecLaws}.
Context (cfg : CoreConfig).
Abbreviation c := (cc_committee cfg).
Context (Hc : committee_wf c).
Context (Hn : (committee_size c <= Z.to_nat (comm_n c))%nat).
Context (n f cr k : Z) (Hres : Quorums.resilient n f cr k) (Hconf : Quorums.configured c n f cr k).
Context (B : gset PublicKey) (HB : Quorums.weight c B <= f).
Context (Blk : Block -> Prop) (Tcs : TC -> Prop) (Seen : Vote -> Prop).
Context (Hgen : Blk Block_genesis).
Context (Hcf : forall b b', Blk b -> Blk b' -> digest b = digest b' -> same_block b b').
Context (Hrange : forall b, Blk b -> u64 (blk_round b)).
Context (Hunf : unforged c B Seen).
(** The node is honest; the records of the others. *)
Context (Hself : cc_name cfg ∉ B) (w0 : World).
Implicit Types (s : Core) (w : World) (e : Effect) (v : Vote) (t : Timeout) (b : Block) (d : Digest).

Abbreviation M := (Exec Core ConsensusError).

Definition world_with (es : list Effect) : World :=
  fun x => if decide (x = cc_name cfg) then es else w0 x.
Definition W s : World := world_with (effects s).

(** The votes it has signed are among those that occur. *)
Definition within s : Prop := forall v, Ef_LogVote v ∈ effects s -> Seen v.

(** ** The invariant *)

(** Whatever decodes under a digest is a block with that digest. *)
Definition store_ok (st : Store) : Prop := forall d b, stored st d = Some b -> Blk b /\ digest b = d.

(** Any block with the digest is the genesis block or legitimate. *)
Definition legit_digest w d : Prop :=
  forall b, Blk b -> digest b = d -> blk_round b = 0 \/ legit c B Tcs w b.

Definition committed_ok w b : Prop := exists kd r, 0 < r /\ certified c B w kd (digest b) r.

Record vetted w s : Prop := {
  vt_locked : genuine c B w (co_locked s);
  vt_committable : forall d r, co_committable_blocks s !! d = Some r ->
    exists kd r', 0 < r' /\ certified c B w kd d r';
  vt_last_commit : Blk (co_last_commit s) /\
    (co_last_commit s = Block_genesis \/ committed_ok w (co_last_commit s));
  vt_blocks : forall d b, co_uncommitted_blocks s !! d = Some b ->
    Blk b /\ (blk_round b = 0 \/ legit c B Tcs w b);
  vt_requests : forall d, d ∈ co_sync_requests s -> legit_digest w d;
  vt_store : store_ok (co_store s);
  vt_aggregator : agg_ok c B Seen w (co_aggregator s);
}.

Record ninv s : Prop := {
  nv_world : world_ok c B Blk Tcs (W s);
  nv_state : vetted (W s) s;
  nv_ledger : forall b, Ef_LogCommitted b ∈ effects s -> Blk b;
}.

Lemma legit_digest_mono w w' d : world_le w w' -> legit_digest w d -> legit_digest w' d.
Proof. intros Hle Hd b Hb Heq. destruct (Hd b Hb Heq); eauto with safety. Qed.
Lemma committed_ok_mono w w' b : world_le w w' -> committed_ok w b -> committed_ok w' b.
Proof. intros Hle (kd & r & ? & ?). exists kd, r. eauto with safety. Qed.

Lemma vetted_mono w w' s : world_le w w' -> vetted w s -> vetted w' s.
Proof.
  intros Hle [Hl Hcm [Hb Hlc] Hbl Hrq Hst Hag]. split; eauto using agg_ok_mono, legit_digest_mono with safety.
  - intros d r Hd. destruct (Hcm d r Hd) as (kd & r' & ? & ?). exists kd, r'. eauto with safety.
  - split; [done|]. destruct Hlc; eauto using committed_ok_mono.
  - intros d b Hd. destruct (Hbl d b Hd) as [? []]; eauto with safety.
Qed.

Lemma world_with_le es es' : es ⊆ es' -> world_le (world_with es) (world_with es').
Proof. intros Hes x. unfold world_with. by case_decide. Qed.

(** ** Moves that keep it *)

(** Protocol steps that keep the invariant, provided the votes signed on the
    way occur. *)
Definition moves s s' : Prop :=
  Steps cfg LAll s s' /\ (core_inv s -> within s' -> ninv s -> ninv s').

#[local] Existing Instance Steps_preorder.
#[local] Instance moves_preorder : PreOrder moves.
Proof.
  split; [by intros s; split|]. intros s1 s2 s3 [H12 N12] [H23 N23]. split; [by etrans|].
  intros Hinv Hw Hs. specialize (H12 Hinv). pose proof (steps_inv _ _ _ _ H12 Hinv) as Hinv2.
  apply N23; [done..|]. apply N12; [done| |done].
  intros v Hv. by eapply Hw, steps_effects; [apply H23|].
Qed.

Lemma moves_world s s' : moves s s' -> core_inv s -> world_le (W s) (W s').
Proof. intros [Hs _] Hinv. apply world_with_le. intros e. by apply (steps_effects cfg LAll), Hs. Qed.

(** A method may be verified under the invariant. *)
Lemma moves_pre {A} (m : M A) s :
  step_in (Steps cfg LAll) m s ->
  (core_inv s -> within s -> ninv s -> step_in moves m s) -> step_in moves m s.
Proof.
  intros Hk Hm. split; [exact Hk|]. intros Hinv Hw Hs. apply Hm; [done| |done..].
  intros v Hv. eapply Hw, steps_effects; [by apply Hk|done].
Qed.

(** A step that puts nothing on the trace. *)
Lemma ninv_same s s' : effects s' = effects s -> vetted (W s) s' -> ninv s -> ninv s'.
Proof.
  intros He Hv Hs. assert (HW : W s' = W s) by (unfold W; by rewrite He).
  split; rewrite ?HW, ?He; [apply Hs|done|apply Hs].
Qed.

Lemma moves_step s s' :
  (core_inv s -> step cfg LAll s s') -> effects s' = effects s ->
  (core_inv s -> within s -> ninv s -> vetted (W s) s') -> moves s s'.
Proof.
  intros Hstep He Hv. split; [by apply step_Steps|]. intros Hinv Hw Hs.
  apply (ninv_same s); [done| |done]. apply Hv; [done| |done]. intros v. rewrite <-He. apply Hw.
Qed.

(** An entry of the trace that is no vote and no commit. *)
Definition quiet e : Prop := match e with Ef_LogVote _ | Ef_LogCommitted _ => False | _ => True end.

Lemma ninv_extend s s' es :
  effects s' = es ++ effects s ->
  (forall e, e ∈ es -> match e with
     | Ef_LogVote v => vote_ok c B Blk Tcs (W s') v | Ef_LogCommitted b => Blk b | _ => True end) ->
  (world_le (W s) (W s') -> vetted (W s') s') -> ninv s -> ninv s'.
Proof.
  intros He Hes Hv Hs.
  assert (Hle : world_le (W s) (W s')) by (apply world_with_le; rewrite He; set_solver).
  split; [|by apply Hv|].
  - intros x v Hx Hlog. unfold W, world_with in Hlog. case_decide as Hname.
    + rewrite He, elem_of_app in Hlog. destruct Hlog as [Hlog|Hlog]; [exact (Hes _ Hlog)|].
      apply (vote_ok_mono c B Blk Tcs (W s)); [done|]. apply (nv_world _ Hs x); [done|].
      unfold W, world_with. by rewrite decide_True.
    + apply (vote_ok_mono c B Blk Tcs (W s)); [done|]. apply (nv_world _ Hs x); [done|].
      unfold W, world_with. by rewrite decide_False.
  - intros b. rewrite He, elem_of_app. intros [Hb|Hb]; [exact (Hes _ Hb)|by apply Hs].
Qed.

(** The trace is no part of what is vetted. *)
Lemma vetted_emitted w e s : vetted w s -> vetted w (emitted e s).
Proof. intros []. by split. Qed.

Lemma moves_emit e s : (core_inv s -> allowed cfg e s) -> quiet e -> moves s (emitted e s).
Proof.
  intros Ha Hq. split; [apply step_Steps; intros Hinv; by apply st_emit, Ha|]. intros _ _ Hs.
  apply (ninv_extend s _ [e]); [done| |intros Hle; by apply vetted_emitted, (vetted_mono (W s)), Hs|done].
  intros e' ->%list_elem_of_singleton. by destruct e.
Qed.

(** ** Methods that leave what is vetted alone *)
Lemma moves_modify g s :
  (core_inv s -> step cfg LAll s (g s)) -> effects (g s) = effects s ->
  (core_inv s -> within s -> ninv s -> vetted (W s) (g s)) -> step_in moves (modify g : M unit) s.
Proof. apply moves_step. Qed.

Lemma emit_moves e s : (core_inv s -> allowed cfg e s) -> quiet e -> step_in moves (emit e) s.
Proof. apply moves_emit. Qed.

Lemma moves_still {A} (m : M A) s : (m s).1 = s -> step_in moves m s.
Proof. unfold step_in. by intros ->. Qed.

(** A change of fields that the invariant does not mention. *)
Ltac unvetted :=
  apply moves_modify; [intros _; by constructor|done|intros _ _ [_ [] _]; by split].
Ltac calm :=
  repeat first
    [ solve [eauto with vet]
    | apply keeps_bind; [apply _| |intros ?]
    | apply keeps_ret; apply _ | apply keeps_gets; apply _ | apply keeps_fail; apply _
    | apply keeps_panic; apply _ | apply keeps_out_of_fuel; apply _ | apply keeps_lift; apply _
    | apply keeps_ensure; apply _ | apply keeps_assert; apply _ | apply keeps_expect; apply _
    | apply keeps_ignore
    | case_match ].

Lemma timer_reset_moves : keeps moves (timer_reset cfg).
Proof. intros s. unvetted. Qed.
Lemma broadcast_qc_moves qc : keeps moves (broadcast cfg (CM_QC qc)).
Proof. intros s. by apply emit_moves. Qed.
Lemma leader_of_moves r : keeps moves (leader_of cfg r).
Proof. unfold leader_of. calm. Qed.
Lemma send_tc_moves tc p : keeps moves (send_to cfg (CM_TC tc) p).
Proof. unfold send_to. simpl. calm. Qed.
Lemma take_sync_request_moves d : keeps moves (take_sync_request d).
Proof.
  intros s. unfold take_sync_request. apply step_in_gets.
  apply step_in_bind; [apply _| |intros _ _; by apply keeps_ret; apply _].
  apply moves_modify; [intros _; by constructor|done|]. intros _ _ [_ [] _]. split; try done.
  simpl. set_solver.
Qed.
Lemma synchronizer_get_block_moves d p resume : keeps moves (synchronizer_get_block d p resume).
Proof. unfold synchronizer_get_block. calm. intros s'. by apply emit_moves. Qed.
#[local] Hint Resolve timer_reset_moves broadcast_qc_moves leader_of_moves send_tc_moves
  take_sync_request_moves synchronizer_get_block_moves : vet.

Lemma propose_if_leader_moves r trigger :
  r = u64_add (trigger_round trigger) 1 ->
  match trigger with PT_TC tc => TC_is_well_formed c tc = Ok tt | PT_QC _ => True end ->
  keeps moves (propose_if_leader cfg r trigger).
Proof.
  intros -> Htc s. unfold propose_if_leader, leader_of.
  destruct (get_leader _ _) as [leader|] eqn:Hl; [|by apply moves_still].
  apply step_in_bind_run; [apply _|by apply moves_still|]. intros a s0 [= <- <-] _.
  case_decide as Hname; [|by apply moves_still]. apply emit_moves; [|done]. intros _. simpl. by rewrite Hname.
Qed.
Lemma propose_normal_moves qc : keeps moves (propose_normal cfg qc).
Proof. by apply propose_if_leader_moves. Qed.
Lemma handle_wqc_moves wqc : keeps moves (handle_wqc wqc).
Proof.
  intros s. unfold handle_wqc. apply step_in_gets.
  destruct (Z.ltb_spec (wqc_round (co_high_wqc s)) (wqc_round wqc)); [|by apply moves_still]. unvetted.
Qed.
#[local] Hint Resolve propose_normal_moves handle_wqc_moves : vet.

Lemma sync_peer_moves peer : keeps moves (sync_peer cfg peer).
Proof.
  intros s. pose proof (sync_peer_keeps cfg LAll ltac:(done) peer s) as Hsteps. split; [done|].
  intros Hinv _ Hs. revert Hsteps. unfold step_in, sync_peer. runs. case_match; [done|].
  destruct (consensus_address cfg peer) as [address|]; [|done]. runs. intros _.
  apply (ninv_extend s _ [Ef_SyncPeer peer address (CM_QC (co_locked s))]); [done| | |done].
  - by intros e ->%list_elem_of_singleton.
  - intros Hle. pose proof (vetted_mono _ _ _ Hle (nv_state _ Hs)) as []. by split.
Qed.
#[local] Hint Resolve sync_peer_moves : vet.

(** ** Blocks and their ancestors *)
Lemma add_sync_request_moves d s : legit_digest (W s) d -> step_in moves (add_sync_request d) s.
Proof.
  intros Hd. apply moves_modify; [intros _; by constructor|done|]. intros _ _ [_ [] _].
  split; try done. simpl. intros d' [->%elem_of_singleton|]%elem_of_union; auto.
Qed.

(** The digest of a certificate, and that of a legitimate block's parent. *)
Lemma certified_legit s kd d r :
  ninv s -> certified c B (W s) kd d r -> legit_digest (W s) d.
Proof.
  intros Hs Hcert b Hb Hd. right.
  destruct (certified_block c B Blk Tcs n f cr k Hres Hconf HB _ _ _ _ (nv_world _ Hs) Hcert)
    as (b' & Hb' & Hd' & _ & Hl).
  eapply legit_same; [|exact Hl]. apply Hcf; [done..|congruence].
Qed.
Lemma parent_legit s b : ninv s -> legit c B Tcs (W s) b -> legit_digest (W s) (blk_parent b).
Proof.
  intros Hs Hl p Hp Hd.
  by apply (legit_parent c B Blk Tcs n f cr k Hres Hconf HB Hgen Hcf _ b p (nv_world _ Hs) Hl).
Qed.

Lemma get_block_moves d r s : legit_digest (W s) d -> step_in moves (get_block cfg d r) s.
Proof.
  intros Hd. apply moves_pre; [apply get_block_keeps|]. intros Hinv _ _.
  unfold get_block. apply step_in_gets. case_match; [|by apply moves_still]. apply step_in_gets.
  apply step_in_bind_run; [apply _|by apply keeps_assert, _|]. intros [] s1 Hrun _.
  assert (s1 = s) as -> by (revert Hrun; unfold assert_that; case_match; by intros [= <-]). clear Hrun.
  apply step_in_bind_run; [apply _|by apply leader_of_moves|]. intros p s1 Hrun _.
  assert (s1 = s) as -> by (revert Hrun; unfold leader_of, expect; case_match; by intros [= <-]). clear Hrun.
  apply step_in_gets. case_match; [by apply moves_still|].
  apply step_in_bind_run; [apply _|apply synchronizer_get_block_moves|]. intros mb s2 _ H2.
  apply step_in_bind_run; [apply _|by apply keeps_assert, _|]. intros [] s3 _ H23.
  assert (Hle : world_le (W s) (W s3)) by (apply moves_world; [by etrans|done]).
  apply step_in_bind; [apply _|by eapply add_sync_request_moves, legit_digest_mono|].
  intros _ _. by apply moves_still.
Qed.

(** The parent that [trace_ancestors] finds. *)
Lemma parent_found s s' b block p :
  ninv s -> legit c B Tcs (W s) b ->
  match co_uncommitted_blocks s !! blk_parent b with
  | Some parent => mret (Some parent)
  | None => synchronizer_get_block (blk_parent b) (blk_author b) (Some block)
  end s = (s', Ok (Some p)) ->
  blk_round p = 0 \/ legit c B Tcs (W s) p.
Proof.
  intros Hs Hl. destruct (co_uncommitted_blocks s !! blk_parent b) as [p'|] eqn:Hp'.
  - intros [= _ <-]. by apply (vt_blocks _ _ (nv_state _ Hs) _ _ Hp').
  - intros Hrun. destruct (get_block_result _ _ _ _ _ _ Hrun) as (_ & Hst & _).
    destruct (vt_store _ _ (nv_state _ Hs) _ _ Hst) as [Hp Hd]. by apply (parent_legit s b).
Qed.

Lemma last_commit_nonneg s : ninv s -> 0 <= blk_round (co_last_commit s).
Proof. intros Hs. destruct (vt_last_commit _ _ (nv_state _ Hs)) as [Hb%Hrange _]. apply Hb. Qed.

Lemma trace_ancestors_moves fuel block b s :
  legit c B Tcs (W s) b -> step_in moves (trace_ancestors fuel block b) s.
Proof.
  revert b s. induction fuel as [|fuel IH]; intros b s Hl; [by apply moves_still|].
  apply moves_pre; [apply trace_ancestors_keeps|]. intros Hinv _ Hs.
  change (step_in moves (trace_ancestors_pass block (trace_ancestors fuel block) b) s).
  unfold trace_ancestors_pass.
  apply step_in_gets. apply step_in_bind_run; [apply _|..].
  { destruct (co_uncommitted_blocks s !! blk_parent b); [by apply moves_still|].
    apply synchronizer_get_block_moves. }
  intros mp s' Hrun Hmv. pose proof (moves_world _ _ Hmv Hinv) as Hle. apply step_in_gets.
  destruct mp as [p|]; cycle 1.
  { apply step_in_bind; [apply _| |intros _ _; by apply moves_still].
    apply add_sync_request_moves. by eapply legit_digest_mono, parent_legit. }
  destruct (_ =? _); [by apply moves_still|].
  destruct (Z.ltb_spec (blk_round (co_last_commit s')) (blk_round p)) as [Hlt|]; [|by apply moves_still].
  change (step_in moves (trace_ancestors fuel block p) s').
  apply moves_pre; [apply trace_ancestors_keeps|]. intros _ _ Hs'. apply IH.
  pose proof (last_commit_nonneg _ Hs').
  destruct (parent_found s s' b block p Hs Hl Hrun); [lia|eauto with safety].
Qed.

Lemma have_all_ancestors_moves block s :
  blk_round block = 0 \/ legit c B Tcs (W s) block -> step_in moves (have_all_ancestors block) s.
Proof.
  intros Hl. unfold have_all_ancestors. apply step_in_gets.
  destruct (Z.eqb_spec (blk_round block) GENESIS) as [|Hne]; [by apply moves_still|]. rewrite orb_false_l.
  case_bool_decide; [by apply moves_still|].
  destruct (_ <? _); [|by apply moves_still]. apply step_in_bind_run; [apply _|by apply moves_still|].
  intros u s1 [= <- _] _. apply step_in_gets.
  case_bool_decide; [|by apply moves_still]. apply step_in_bind_run; [apply _|by apply moves_still|].
  intros u' s1 [= <- _] _. rewrite trace_ancestors_loop. apply trace_ancestors_moves. by destruct Hl.
Qed.

(** ** Committing *)
Lemma collect_ancestors_vetted fuel w ancestor acc s s' o :
  vetted w s -> Blk ancestor -> Forall Blk acc ->
  collect_ancestors fuel ancestor acc s = (s', o) ->
  vetted w s' /\ effects s' = effects s /\ forall bs, o = Ok bs -> Forall Blk bs.
Proof.
  revert ancestor acc s. induction fuel as [|fuel IH]; intros ancestor acc s Hs Hb Hacc.
  { by intros [= <- <-]. }
  cbn [collect_ancestors]. run. destruct (decide (blk_parent ancestor = digest (co_last_commit s))).
  { intros [= <- <-]. split_and!; [done..|]. intros bs [= <-]. by constructor. }
  run. destruct (co_uncommitted_blocks s !! blk_parent ancestor) as [parent|] eqn:Hp;
    [|by intros [= <- <-]].
  runs. set (s1 := set_uncommitted_blocks (delete (blk_parent ancestor) (co_uncommitted_blocks s)) s).
  assert (Hs1 : vetted w s1).
  { pose proof (vt_blocks _ _ Hs) as Hbl. destruct Hs. split; try done. simpl.
    intros d b' [_ Hd]%lookup_delete_Some. by apply (Hbl d). }
  destruct (_ <? _); [|by intros [= <- <-]]. run.
  intros Hrun. apply (IH parent (ancestor :: acc) s1); [done| |by constructor|done].
  apply (vt_blocks _ _ Hs _ _ Hp).
Qed.

Lemma commit_effects_blocks bs b :
  Ef_LogCommitted b ∈ concat (map (commit_effects cfg) bs) -> b ∈ bs.
Proof.
  induction bs as [|b' bs IH]; simpl; [set_solver|].
  intros [[= ->]|[He|He]%elem_of_app]%elem_of_cons; [left| |right; by apply IH].
  destruct (cc_consensus_only cfg); [set_solver|].
  rewrite !elem_of_cons, list_elem_of_fmap in He. destruct He as [|[|(? & ? & _)]]; done.
Qed.

Lemma vetted_commit w block s :
  vetted w s -> Blk block -> committed_ok w block -> vetted w (commit_cleanup block s).
Proof.
  intros Hs Hb Hc'. pose proof (vt_blocks _ _ Hs) as Hbl. pose proof (vt_committable _ _ Hs) as Hcm.
  destruct Hs. split; try done; simpl.
  - intros d r [Hd _]%map_lookup_filter_Some. by apply (Hcm d r).
  - split; [done|by right].
  - intros d b [Hd _]%map_lookup_filter_Some. by apply (Hbl d).
Qed.

Lemma commit_moves block s : Blk block -> committed_ok (W s) block -> step_in moves (commit cfg block) s.
Proof.
  intros Hb Hcert. pose proof (commit_keeps cfg LAll block s) as Hsteps. split; [done|].
  intros _ _ Hs. revert Hsteps. unfold step_in, commit. case_match; [done|]. runs.
  destruct (_ <? _); [|done]. runs.
  destruct (collect_ancestors (S (size (co_uncommitted_blocks s))) block [] s) as [s' o] eqn:Hrun.
  destruct (collect_ancestors_vetted _ (W s) block [] s s' o (nv_state _ Hs) Hb ltac:(constructor) Hrun)
    as (Hs' & He & Hbs).
  destruct o as [bs|e|msg|];
    [rewrite (run_bind _ _ _ _ _ Hrun)|unfold mbind, exec_mbind, exec_bind; rewrite Hrun..];
    cycle 1; [intros _; by apply (ninv_same s)..|].
  rewrite (run_bind _ _ _ _ _ (emit_all_run _ _)). simpl. intros _.
  set (es := concat (map (commit_effects cfg) bs)).
  apply (ninv_extend s _ (reverse es)).
  - etrans; [apply effects_emitted_all|]. by rewrite He.
  - intros e Hin. rewrite elem_of_reverse in Hin. pose proof (commit_effects_quiet cfg bs e Hin).
    destruct e; try done. specialize (Hbs bs eq_refl). rewrite Forall_forall in Hbs.
    by apply Hbs, commit_effects_blocks.
  - intros Hle. destruct (emitted_all_frame es s') as [tr Htr]. rewrite Htr in *.
    apply vetted_commit; [|done|by eapply committed_ok_mono].
    pose proof (vetted_mono _ _ _ Hle Hs') as []. by split.
  - done.
Qed.

Lemma schedule_commit_moves d r s :
  (exists kd r', 0 < r' /\ certified c B (W s) kd d r') -> step_in moves (schedule_commit cfg d r) s.
Proof.
  intros (kd & r' & H0 & Hcert). unfold schedule_commit.
  apply step_in_bind_run; [apply _| |].
  { apply moves_modify; [intros _; by constructor|done|]. intros _ _ [_ Hs _].
    pose proof (vt_committable _ _ Hs) as Hcm. destruct Hs. split; try done. simpl.
    intros d' r1 [[<- _]|[_ Hd]]%lookup_insert_Some; eauto. }
  intros [] s1 [= <-] _. cbn [W]. set (s1 := set_committable_blocks _ s).
  change (certified c B (W s1) kd d r') in Hcert. clearbody s1. apply step_in_gets.
  destruct (co_uncommitted_blocks s1 !! d) as [block|] eqn:Hd; [|by apply moves_still].
  assert (Hk : keeps (Steps cfg LAll) (complete ← have_all_ancestors block; if (complete : bool) then commit cfg block else mret tt)).
  { apply keeps_bind; [apply _|apply have_all_ancestors_keeps|]. intros []; [apply commit_keeps|apply keeps_ret, _]. }
  apply moves_pre; [done|]. intros Hinv _ Hs.
  destruct (vt_blocks _ _ (nv_state _ Hs) _ _ Hd) as [Hb Hl].
  pose proof (ci_keyed _ Hinv _ _ Hd) as <-.
  apply step_in_bind_run; [apply _|by apply have_all_ancestors_moves|]. intros [] s2 _ H12; [|by apply moves_still].
  apply commit_moves; [done|]. exists kd, r'. split; [done|].
  eapply certified_mono; [by apply moves_world|done].
Qed.

Lemma handle_commit_qc_moves qc s :
  0 < qc_round qc -> certified c B (W s) (qc_kind qc) (qc_blk_hash qc) (qc_round qc) ->
  step_in moves (handle_commit_qc cfg qc) s.
Proof.
  intros H0 Hcert. unfold handle_commit_qc. apply step_in_gets. case_match; [by apply moves_still|].
  apply step_in_bind_run; [apply _|apply schedule_commit_moves; eauto|]. intros [] s1 _ _.
  apply moves_modify; [intros _; do 2 constructor|done|]. intros _ _ [_ [] _]. split; try done.
  by apply cleanup_prepares_ok.
Qed.

Lemma try_commit_moves block s :
  Blk block -> step_in moves (try_commit_or_sync_ancestor cfg block) s.
Proof.
  intros Hb. apply moves_pre; [apply try_commit_keeps|]. intros Hinv _ Hs.
  unfold try_commit_or_sync_ancestor. apply step_in_gets.
  destruct (_ <? _); [|by apply moves_still]. apply step_in_bind_run; [apply _|by apply moves_still|].
  intros u s1 [= <- _] _. apply step_in_gets. case_bool_decide as Hcm; [|by apply moves_still]. destruct Hcm as [r Hr].
  destruct (vt_committable _ _ (nv_state _ Hs) _ _ Hr) as (kd & r' & H0 & Hcert).
  apply step_in_bind_run; [apply _| |].
  { apply have_all_ancestors_moves. by apply (certified_legit s kd (digest block) r' Hs Hcert block). }
  intros [] s2 _ H12; [|by apply moves_still]. apply commit_moves; [done|]. exists kd, r'. split; [done|].
  eapply certified_mono; [by apply moves_world|done].
Qed.

(** ** Storing *)
Lemma store_write_ok st b :
  store_ok st -> Blk b -> store_ok (store_write (digest_bytes (digest b)) (block_encode b) st).
Proof.
  intros Hst Hb d b' Hd. destruct (stored_write st b d) as [Heq|[[-> Heq]| ->]].
  - rewrite Heq in Hd. by apply Hst.
  - rewrite Heq in Hd. by injection Hd as <-.
  - apply Hst. unfold stored, sync_get_block in *. by rewrite decide_True in * by done.
Qed.

Lemma store_block_moves block s :
  Blk block -> legit c B Tcs (W s) block -> step_in moves (store_block block) s.
Proof.
  intros Hb Hl. unfold store_block. apply step_in_gets.
  destruct (Z.ltb_spec (blk_round (co_last_commit s)) (blk_round block)) as [Hlt|]; [|by apply moves_still].
  apply step_in_bind_run; [apply _|by apply moves_still|]. intros u s1 [= <- _] _.
  apply (step_in_bind_run _ _ _ _ (A := unit)).
  { unfold update_pending_proposals. apply step_in_gets. case_bool_decide as Hp; [by apply moves_still|].
    apply moves_modify; [intros _; by (apply st_pending; [|apply eq_None_not_Some|])|done|].
    intros _ _ [_ [] _]. by split. }
  intros u' s1 Hrun _.
  assert (Hs1 : co_last_commit s1 = co_last_commit s /\ effects s1 = effects s).
  { revert Hrun. unfold update_pending_proposals. run. by case_bool_decide; intros [= <-]. }
  destruct Hs1 as [Hlc He]. apply step_in_bind_run; [apply _| |].
  { apply moves_modify; [intros _; apply st_block; [done|by rewrite Hlc]|done|]. intros _ _ [_ Hs _].
    pose proof (vt_blocks _ _ Hs) as Hbl. destruct Hs. split; try done. simpl.
    intros d b [[<- <-]|[_ Hd]]%lookup_insert_Some; [|by apply (Hbl d)].
    split; [done|right]. unfold W. by rewrite He. }
  intros [] s2 _ _. apply step_in_bind_run; [apply _| |].
  { apply step_in_ignore. by apply emit_moves. }
  intros [] s3 _ _. apply moves_modify; [intros _; by apply st_store|done|]. intros _ _ [_ [] _].
  split; try done. by apply store_write_ok.
Qed.

(** ** The vote path *)
Lemma with_aggregator_run {A} (m : Exec Aggregator ConsensusError A) s s' o :
  with_aggregator m s = (s', o) -> exists a', m (co_aggregator s) = (a', o) /\ s' = set_aggregator a' s.
Proof. unfold with_aggregator, zoom. destruct (m (co_aggregator s)) as [a' o']. intros [= <- <-]. by exists a'. Qed.

Section vote_path.
Context (handle_vote : Vote -> M unit).
Context (Hk : forall v, keeps (Steps cfg LAll) (handle_vote v)).
Context (Hhv : forall v s, vote_in B Seen (W s) v -> step_in moves (handle_vote v) s).

(** A vote just signed. *)
Lemma cast_vote_moves v s :
  vote_author v = cc_name cfg -> Ef_LogVote v ∈ effects s ->
  step_in moves (cast_vote cfg handle_vote v) s.
Proof.
  intros Ha Hlog. apply moves_pre; [by apply cast_vote_steps|].
  intros Hinv Hw _. unfold cast_vote.
  apply step_in_bind_run; [apply _| |].
  - apply step_in_ignore. apply Hhv. split; [|by apply Hw]. intros _.
    unfold W, world_with. by rewrite Ha, decide_True.
  - intros [] s' _ Hm. apply emit_moves; [|done]. intros _. simpl.
    apply (steps_effects cfg LAll _ s); [by apply Hm|done].
Qed.
(** A vote signed for something that justifies it. *)
Lemma moves_vote v s s' :
  Steps cfg LAll s s' -> effects s' = Ef_LogVote v :: effects s -> vote_ok c B Blk Tcs (W s) v ->
  (forall w, vetted w s -> vetted w s') -> moves s s'.
Proof.
  intros Hsteps He Hv Hs'. split; [done|]. intros _ _ Hs.
  assert (Hle : world_le (W s) (W s')) by (apply world_with_le; rewrite He; set_solver).
  apply (ninv_extend s _ [Ef_LogVote v]); [done| | |done].
  - intros e ->%list_elem_of_singleton. by eapply vote_ok_mono.
  - intros _. by apply Hs', (vetted_mono (W s)), Hs.
Qed.

Lemma send_prepare_vote_moves b s :
  co_pending_proposals s !! co_round s = Some (digest b) -> blk_round b = co_round s ->
  co_last_timeout s < blk_round b -> Blk b -> legit c B Tcs (W s) b ->
  step_in moves (send_prepare_vote_with cfg handle_vote b) s.
Proof.
  intros Hp Hr Ht Hb Hl. set (v := Vote_new (cc_name cfg) (digest b) VT_Normal (blk_round b) (cc_bls_secret cfg)).
  apply step_in_run with (m' := cast_vote cfg handle_vote v) (s' := set_last_vote v (emitted (Ef_LogVote v) s));
    [apply _|reflexivity| |apply cast_vote_moves; [done|left]].
  apply (moves_vote v); [apply step_Steps; intros _; by apply (st_vote_normal _ _ b)|done| |].
  - exists b. by split_and!.
  - intros w []. by split.
Qed.

Lemma try_vote_moves : keeps moves (try_vote_with cfg handle_vote).
Proof.
  intros s. apply moves_pre; [by apply try_vote_keeps|]. intros Hinv _ Hs.
  unfold try_vote_with. do 2 apply step_in_gets.
  destruct (co_pending_proposals s !! co_round s) as [accepted|] eqn:Hp; [|by apply moves_still].
  apply step_in_gets. destruct (co_uncommitted_blocks s !! accepted) as [b|] eqn:Hb; [|by apply moves_still].
  pose proof (ci_keyed _ Hinv _ _ Hb) as <-. destruct (vt_blocks _ _ (nv_state _ Hs) _ _ Hb) as [HBlk Hl].
  apply step_in_bind_run; [apply _|by apply moves_still|]. intros a s0 [= <- <-] _. apply step_in_gets.
  destruct (Z.eqb_spec (co_round s) (blk_round b)) as [Hr|]; [|by apply moves_still].
  unfold can_vote. destruct (Z.ltb_spec (co_last_timeout s) (blk_round b)); [|by apply moves_still].
  pose proof (ci_round _ Hinv). apply send_prepare_vote_moves; [done..|]. destruct Hl; [lia|done].
Qed.

Lemma advance_moves r : keeps moves (advance_to_round_with cfg handle_vote r).
Proof.
  intros s. unfold advance_to_round_with. apply step_in_gets.
  destruct (Z.ltb_spec (co_round s) r) as [Hlt|]; [|by apply moves_still].
  apply step_in_bind_run; [apply _|by apply emit_moves|]. intros [] s1 [= <-] _.
  apply step_in_bind; [apply _| |intros _ _].
  - apply moves_modify; [intros _; by apply st_round|done|intros _ _ [_ [] _]; by split].
  - apply step_in_bind; [apply _|apply timer_reset_moves|intros _ _; apply try_vote_moves].
Qed.

Lemma lock_qc_moves qc s :
  genuine c B (W s) qc -> qc_kind qc = VT_Normal -> step_in moves (lock_qc_with cfg handle_vote qc) s.
Proof.
  intros Hg Hkind. apply moves_pre; [by apply lock_qc_keeps|]. intros Hinv _ Hs.
  unfold lock_qc_with. apply step_in_gets.
  destruct (Z.ltb_spec (qc_round (co_locked s)) (qc_round qc)) as [Hlt|]; [|by apply moves_still].
  apply step_in_bind_run; [apply _| |].
  { apply moves_modify; [intros _; by apply (st_lock _ _ qc)|done|]. intros _ _ [_ [] _]. by split. }
  intros [] s1 [= <-] _. apply step_in_bind_run; [apply _| |].
  { apply moves_modify; [intros _; do 2 constructor|done|]. intros _ _ [_ [] _]. split; try done.
    by apply cleanup_timeouts_ok. }
  intros [] s2 [= <-] _. set (s2 := set_aggregator _ _).
  apply step_in_gets. destruct (Z.ltb_spec (co_last_timeout s2) (qc_round qc)) as [Ht|]; [|by apply moves_still].
  set (v := Vote_new (cc_name cfg) (qc_blk_hash qc) VT_Commit (qc_round qc) (cc_bls_secret cfg)).
  apply step_in_run with (m' := cast_vote cfg handle_vote v) (s' := emitted (Ef_LogVote v) s2);
    [apply _|reflexivity| |apply cast_vote_moves; [done|left]].
  apply (moves_vote v); [|done| |intros w []; by split].
  - apply step_Steps. intros _. apply (st_vote_commit _ _ (qc_blk_hash qc) s2); [|done|done].
    intros v' Hv' Hk'. pose proof (ci_commit _ Hinv v' Hv' Hk'). simpl. lia.
  - unfold vote_ok. simpl.
    assert (0 <= qc_round (co_locked s)) by (destruct (vt_locked _ _ (nv_state _ Hs)) as [[-> _]|[? _]]; lia).
    destruct Hg as [[? _]|[H0 Hcert]]; [lia|]. rewrite Hkind in Hcert. done.
Qed.

Lemma handle_prepare_qc_moves qc s :
  genuine c B (W s) qc -> qc_kind qc = VT_Normal -> 0 < qc_round qc ->
  step_in moves (handle_prepare_qc_with cfg handle_vote qc) s.
Proof.
  intros Hg Hkind H0. apply moves_pre; [by apply handle_prepare_qc_keeps|]. intros Hinv _ Hs.
  assert (Hd : legit_digest (W s) (qc_blk_hash qc)).
  { destruct Hg as [[? _]|[_ Hcert]]; [lia|]. by eapply certified_legit. }
  unfold handle_prepare_qc_with. apply step_in_gets. case_bool_decide as Hsome; [by apply moves_still|].
  apply step_in_bind_run; [apply _| |intros [] s1 _ H1].
  { apply moves_modify; [intros _; apply st_qc; by apply eq_None_not_Some|done|].
    intros _ _ [_ [] _]. by split. }
  apply step_in_gets. apply step_in_bind_run; [apply _|case_match; [|by apply moves_still]; by apply propose_normal_moves|].
  intros [] s2 _ H2. assert (H12 : moves s s2) by (by etrans).
  apply step_in_bind_run; [apply _| |intros [] s3 _ H3].
  { apply lock_qc_moves; [|done]. eapply genuine_mono; [by apply moves_world|done]. }
  assert (H13 : moves s s3) by (by etrans).
  apply step_in_bind_run; [apply _| |intros o s4 _ _].
  { apply get_block_moves. eapply legit_digest_mono; [by apply moves_world|done]. }
  apply step_in_bind; [apply _|by apply broadcast_qc_moves|intros _ _]. apply advance_moves.
Qed.

Lemma handle_qc_moves qc s :
  genuine c B (W s) qc -> step_in moves (handle_qc_with cfg handle_vote qc) s.
Proof.
  intros Hg. apply moves_pre; [by apply handle_qc_keeps|]. intros Hinv _ Hs.
  unfold handle_qc_with. apply step_in_gets.
  destruct (Z.ltb_spec (blk_round (co_last_commit s)) (qc_round qc)) as [Hlt|]; [|by apply moves_still].
  pose proof (last_commit_nonneg _ Hs).
  assert (Hcert : certified c B (W s) (qc_kind qc) (qc_blk_hash qc) (qc_round qc))
    by (destruct Hg as [[? _]|[_ ?]]; [lia|done]).
  destruct (bool_decide (qc_kind qc = VT_Commit) || qc_fast_quorum qc) eqn:Hkind.
  - apply handle_commit_qc_moves; [lia|done].
  - apply orb_false_iff in Hkind as [Hkind%bool_decide_eq_false _].
    apply handle_prepare_qc_moves; [done| |lia]. by destruct (qc_kind qc).
Qed.

Lemma handle_vote_body_moves v s :
  vote_in B Seen (W s) v -> step_in moves (handle_vote_body cfg handle_vote v) s.
Proof.
  intros Hin. apply moves_pre; [by apply handle_vote_body_keeps|]. intros Hinv Hw Hs.
  unfold handle_vote_body. apply step_in_gets.
  destruct (Z.ltb_spec (blk_round (co_last_commit s)) (vote_round v)) as [Hlt|]; [|by apply moves_still].
  pose proof (last_commit_nonneg _ Hs).
  (* one run of the aggregator *)
  assert (Hagg : forall m : Exec Aggregator ConsensusError (option QC),
    (forall a, agg_step a (m a).1) ->
    (forall a' o, m (co_aggregator s) = (a', o) ->
       agg_ok c B Seen (W s) a' /\ forall qc, o = Ok (Some qc) -> genuine c B (W s) qc) ->
    step_in moves (qc ← with_aggregator m;
      match qc with Some qc => handle_qc_with cfg handle_vote qc | None => mret tt end) s).
  { intros m Hstep Hm. apply step_in_bind_run; [apply _| |].
    - unfold step_in. destruct (with_aggregator m s) as [s' o] eqn:Hrun.
      destruct (with_aggregator_run _ _ _ _ Hrun) as (a' & Ha & ->). simpl.
      apply moves_step; [intros _; apply st_aggregator; specialize (Hstep (co_aggregator s)); by rewrite Ha in Hstep|done|].
      intros _ _ [_ [] _]. split; try done. by eapply Hm.
    - intros qc s' Hrun _. destruct (with_aggregator_run _ _ _ _ Hrun) as (a' & Ha & ->).
      destruct qc as [qc|]; [|by apply moves_still]. apply handle_qc_moves.
      destruct (Hm _ _ Ha) as [_ Hqc]. by apply Hqc. }
  pose proof (vt_aggregator _ _ (nv_state _ Hs)) as Hok.
  assert (H0 : 0 < vote_round v) by lia.
  destruct (vote_kind v) eqn:Hkind; apply Hagg.
  - intros a. apply ags_commit.
  - intros a' o. by apply (add_commit_vote_ok c Hc Hn n f cr k Hres Hconf B Seen).
  - intros a. apply ags_normal.
  - intros a' o. by apply (add_normal_vote_ok c Hc Hn n f cr k Hres Hconf B Seen).
Qed.

End vote_path.

Lemma handle_vote_fuel_moves fuel v s :
  vote_in B Seen (W s) v -> step_in moves (handle_vote_fuel cfg fuel v) s.
Proof.
  revert v s. induction fuel as [|fuel IH]; intros v s Hin; cbn [handle_vote_fuel]; [by apply moves_still|].
  apply handle_vote_body_moves; [|done..]. intros v'. apply handle_vote_fuel_keeps.
Qed.
Lemma handle_vote_moves v s : vote_in B Seen (W s) v -> step_in moves (handle_vote cfg v) s.
Proof.
  intros Hin. pose proof (handle_vote_fuel_moves (vote_fuel s) v s Hin) as Hm.
  unfold step_in in *. unfold handle_vote. exact Hm.
Qed.
Lemma handle_qc_top_moves qc s : genuine c B (W s) qc -> step_in moves (handle_qc cfg qc) s.
Proof. apply handle_qc_moves; [apply handle_vote_keeps|apply handle_vote_moves]. Qed.
Lemma advance_top_moves r : keeps moves (advance_to_round cfg r).
Proof. apply advance_moves; [apply handle_vote_keeps|apply handle_vote_moves]. Qed.
Lemma try_vote_top_moves : keeps moves (try_vote cfg).
Proof. apply try_vote_moves; [apply handle_vote_keeps|apply handle_vote_moves]. Qed.
#[local] Hint Resolve advance_top_moves try_vote_top_moves : vet.

(** ** The timeout path *)
Section timeout_path.
Context (handle_timeout : Timeout -> M unit).
Context (Hk : forall t, keeps (Steps cfg LAll) (handle_timeout t)).
Context (Hht : forall t s, genuine c B (W s) (to_high_qc t) -> step_in moves (handle_timeout t) s).

Lemma send_timeout_moves r : keeps moves (send_timeout_with cfg handle_timeout r).
Proof.
  intros s. apply moves_pre; [by apply send_timeout_keeps|]. intros Hinv _ Hs.
  unfold send_timeout_with. apply step_in_gets. case_bool_decide; [by apply moves_still|].
  destruct (Timeout_new (co_last_vote s) (co_locked s) (co_high_wqc s) r (cc_name cfg) (cc_secret cfg))
    as [t|] eqn:Ht; cycle 1.
  { apply moves_still. unfold mbind, exec_mbind, exec_bind. by rewrite Ht. }
  destruct (Timeout_new_fields _ _ _ _ _ _ _ Ht) as (Hv & Hq & Hw & Hr & Ha).
  set (s1 := set_timeout_syncs ({[r]} ∪ co_timeout_syncs s)
               (set_last_timeout (Z.max (to_round t) (co_last_timeout s)) (emitted (Ef_LogTimeout t) s))).
  assert (H1 : moves s s1).
  { split.
    - intros _. eapply rtc_l; [by apply (st_timeout _ _ t)|]. by apply rtc_once, st_timeout_syncs.
    - intros _ _ _. apply (ninv_extend s _ [Ef_LogTimeout t]); [done| | |done].
      + by intros e ->%list_elem_of_singleton.
      + intros Hle. pose proof (vetted_mono _ _ _ Hle (nv_state _ Hs)) as []. by split. }
  apply step_in_run with (s' := s1)
    (m' := _ ← timer_reset cfg; _ ← handle_timeout t; broadcast cfg (CM_Timeout t)); [apply _| |exact H1|].
  - unfold mbind at 1, exec_mbind, exec_bind. rewrite Ht. unfold s1. by rewrite Hr.
  - apply step_in_bind_run; [apply _|apply timer_reset_moves|]. intros [] s2 _ H2.
    assert (H12 : moves s s2) by (by etrans). apply step_in_bind_run; [apply _| |].
    + apply Hht. rewrite Hq. eapply genuine_mono; [by apply moves_world|apply Hs].
    + intros [] s3 _ H3. apply emit_moves; [|done]. intros _. simpl.
      apply (steps_effects cfg LAll _ s1); [|left].
      assert (H13 : moves s1 s3) by (by etrans). apply H13. eapply steps_inv; [by apply H1|done].
Qed.

Lemma handle_tc_moves tc s :
  genuine c B (W s) (tc_high_qc tc) -> step_in moves (handle_tc_with cfg handle_timeout tc) s.
Proof.
  intros Hg. unfold handle_tc_with. apply step_in_gets. case_match; [|by apply moves_still].
  apply step_in_bind; [apply _|by apply handle_qc_top_moves|intros _ _].
  apply step_in_bind; [apply _|by apply handle_wqc_moves|intros _ _].
  set (s2 := (handle_wqc _ _).1). clearbody s2.
  destruct (TC_is_well_formed c tc) as [[]|e|msg|] eqn:Htc; try by apply moves_still.
  apply step_in_bind; [apply _|by apply moves_still|intros _ _].
  apply step_in_bind; [apply _|by apply propose_if_leader_moves|intros _ _].
  apply step_in_bind; [apply _|by apply leader_of_moves|intros leader _].
  apply step_in_bind; [apply _|by apply send_tc_moves|intros _ _].
  apply step_in_bind; [apply _|by apply send_timeout_moves|intros _ _]. apply advance_top_moves.
Qed.

Lemma handle_timeout_body_moves t s :
  genuine c B (W s) (to_high_qc t) -> step_in moves (handle_timeout_body cfg handle_timeout t) s.
Proof.
  intros Hg. apply moves_pre; [by apply handle_timeout_body_keeps|]. intros Hinv _ _.
  unfold handle_timeout_body. apply step_in_gets. case_match.
  { apply step_in_bind; [apply _|by apply moves_still|intros [] _; [apply sync_peer_moves|by apply moves_still]]. }
  apply step_in_gets. case_match; [|apply send_timeout_moves].
  apply step_in_bind_run; [apply _|by apply handle_qc_top_moves|intros [] s1 _ H1].
  assert (Ha : keeps (Steps cfg LAll) (with_aggregator (add_timeout t)))
    by (apply with_aggregator_keeps; constructor).
  apply moves_pre.
  { apply step_in_bind; [apply _|by apply Ha|intros [votes maybe_tc] _]. case_match; [|by intros _].
    apply step_in_bind; [apply _|by apply send_timeout_keeps|intros _ _].
    case_match; [by apply handle_tc_keeps|by intros _]. }
  intros _ _ Hs1.
  assert (Hadd : forall a' o, add_timeout t (co_aggregator s1) = (a', o) ->
    agg_ok c B Seen (W s1) a' /\ forall x tc, o = Ok (x, Some tc) -> genuine c B (W s1) (tc_high_qc tc)).
  { intros a' o. apply add_timeout_ok; [by apply Hs1|]. eapply genuine_mono; [by apply moves_world|done]. }
  apply step_in_bind_run; [apply _| |].
  { unfold step_in. destruct (with_aggregator (add_timeout t) s1) as [s' o] eqn:Hrun.
    destruct (with_aggregator_run _ _ _ _ Hrun) as (a' & Hadd' & ->). simpl.
    apply moves_step; [intros _; apply st_aggregator; replace a' with (add_timeout t (co_aggregator s1)).1
      by (by rewrite Hadd'); constructor|done|].
    intros _ _ [_ [] _]. split; try done. by eapply Hadd. }
  intros [votes maybe_tc] s2 Hrun H2. destruct (with_aggregator_run _ _ _ _ Hrun) as (a' & Hadd' & ->).
  destruct (Hadd _ _ Hadd') as [_ Htc]. pose proof (nv_state _ Hs1) as _.
  case_match; [|by apply moves_still]. apply moves_pre.
  { apply step_in_bind; [apply _|by apply send_timeout_keeps|intros _ _].
    case_match; [by apply handle_tc_keeps|by intros _]. }
  intros Hinv2 _ _. apply step_in_bind_run; [apply _|by apply send_timeout_moves|].
  intros [] s3 _ Hm. destruct maybe_tc as [tc|]; [|by apply moves_still]. apply handle_tc_moves.
  eapply genuine_mono; [by apply moves_world|]. by apply (Htc votes).
Qed.
End timeout_path.

Lemma handle_timeout_fuel_moves fuel t s :
  genuine c B (W s) (to_high_qc t) -> step_in moves (handle_timeout_fuel cfg fuel t) s.
Proof.
  revert t s. induction fuel as [|fuel IH]; intros t s Hg; cbn [handle_timeout_fuel]; [by apply moves_still|].
  apply handle_timeout_body_moves; [|done..]. intros t'. by apply handle_timeout_fuel_keeps.
Qed.
Lemma handle_timeout_moves t s :
  genuine c B (W s) (to_high_qc t) -> step_in moves (handle_timeout cfg t) s.
Proof. exact (handle_timeout_fuel_moves timeout_fuel t s). Qed.
Lemma send_timeout_top_moves r : keeps moves (send_timeout cfg r).
Proof. apply send_timeout_moves; [intros t; by apply handle_timeout_keeps|apply handle_timeout_moves]. Qed.
Lemma handle_tc_top_moves tc s :
  genuine c B (W s) (tc_high_qc tc) -> step_in moves (handle_tc cfg tc) s.
Proof. apply handle_tc_moves; [intros t; by apply handle_timeout_keeps|apply handle_timeout_moves]. Qed.

(** ** Proposals, blocks and the loop *)
Lemma can_accept_block_moves block : keeps moves (can_accept_block cfg block).
Proof. unfold can_accept_block. calm. Qed.

Lemma can_accept_block_round block s s' :
  can_accept_block cfg block s = (s', Ok true) -> blk_round (co_last_commit s) < blk_round block.
Proof.
  unfold can_accept_block. run. destruct (Z.leb_spec (blk_round block) (blk_round (co_last_commit s))); [|done].
  by intros [=].
Qed.

Lemma process_block_moves block s :
  Blk block -> (0 < blk_round block -> legit c B Tcs (W s) block) ->
  step_in moves (process_block cfg block) s.
Proof.
  intros Hb Hl. apply moves_pre; [by apply process_block_keeps|]. intros Hinv _ Hs.
  unfold process_block. apply step_in_bind_run; [apply _|apply can_accept_block_moves|].
  intros [] s1 Hrun H1; [|by apply moves_still]. apply can_accept_block_round in Hrun.
  pose proof (last_commit_nonneg _ Hs). assert (Hl1 : legit c B Tcs (W s1) block).
  { eapply legit_mono; [by apply moves_world|apply Hl; lia]. }
  apply step_in_bind; [apply _|by apply store_block_moves|intros _ _].
  apply step_in_bind; [apply _|by apply try_commit_moves|intros _ _]. apply try_vote_top_moves.
Qed.

(** The justification that a proposal carries is genuine. *)
Definition proposal_in w (p : ProposalMessage) : Prop :=
  match p with
  | PM_N p => Blk (np_block p) /\ genuine c B w (np_qc p)
  | PM_F p => Blk (fp_block p) /\ Tcs (fp_tc p) /\ genuine_tc c B w (fp_tc p)
  end.

Lemma block_round_pred b : Blk b -> 0 < blk_round b -> u64_sub (blk_round b) 1 = blk_round b - 1.
Proof. intros Hb%Hrange H0. apply u64_sub_small. destruct Hb. lia. Qed.

Lemma normal_proposal_legit w p :
  Blk (np_block p) -> genuine c B w (np_qc p) -> NormalProposal_is_well_formed c p = Ok tt ->
  0 < blk_round (np_block p) -> legit c B Tcs w (np_block p).
Proof.
  intros Hb Hg (u & _ & [Hh Hr]%ensure_o_Ok%andb_true_iff)%outcome_bind_Ok H0.
  apply bool_decide_eq_true in Hh. apply Z.eqb_eq in Hr. rewrite block_round_pred in Hr by done.
  split; [done|]. left. by exists (np_qc p).
Qed.
Lemma fallback_proposal_legit w p :
  Blk (fp_block p) -> Tcs (fp_tc p) -> genuine_tc c B w (fp_tc p) ->
  FallbackRecoveryProposal_is_well_formed c p = Ok tt ->
  0 < blk_round (fp_block p) -> legit c B Tcs w (fp_block p).
Proof.
  intros Hb Hoc Hg (u & _ & (u' & Hr%ensure_o_Ok%Z.eqb_eq & Hs%ensure_o_Ok%bool_decide_eq_true)%outcome_bind_Ok)%outcome_bind_Ok H0.
  rewrite block_round_pred in Hr by done. split; [done|]. right. by exists (fp_tc p).
Qed.

Lemma handle_proposal_moves p s : proposal_in (W s) p -> step_in moves (handle_proposal cfg p) s.
Proof.
  intros Hin. apply moves_pre; [by apply handle_proposal_keeps|]. intros Hinv _ _.
  destruct p as [p|p]; cbn [handle_proposal]; [destruct Hin as (Hb & Hoc & Hg)|destruct Hin as [Hb Hg]].
  - unfold process_fallback_recovery_proposal.
    apply step_in_bind_run; [apply _|by apply handle_tc_top_moves, Hg|intros [] s1 _ H1].
    destruct (FallbackRecoveryProposal_is_well_formed c p) as [[]|e|msg|] eqn:Hwf; try by apply moves_still.
    apply step_in_bind_run; [apply _|by apply moves_still|intros [] s2 [= <-] _].
    apply process_block_moves; [done|]. apply fallback_proposal_legit; [done..| |done].
    eapply genuine_tc_mono; [by apply moves_world|done].
  - unfold process_normal_proposal.
    apply step_in_bind_run; [apply _|by apply handle_qc_top_moves|intros [] s1 _ H1].
    destruct (NormalProposal_is_well_formed c p) as [[]|e|msg|] eqn:Hwf; try by apply moves_still.
    apply step_in_bind_run; [apply _|by apply moves_still|intros [] s2 [= <-] _].
    apply process_block_moves; [done|]. apply normal_proposal_legit; [done| |done].
    eapply genuine_mono; [by apply moves_world|done].
Qed.

Lemma handle_sync_response_moves block s :
  Blk block -> step_in moves (handle_sync_response cfg block) s.
Proof.
  intros Hb. apply moves_pre; [by apply handle_sync_response_keeps|]. intros Hinv _ Hs.
  unfold handle_sync_response.
  apply step_in_bind_run; [apply _|apply take_sync_request_moves|intros requested s1 Hrun H1].
  unfold take_sync_request in Hrun. revert Hrun. runs. intros [= <- <-]. apply step_in_gets.
  case_bool_decide as Hd; [|by apply moves_still].
  destruct (Z.ltb_spec (blk_round (co_last_commit s)) (blk_round block)) as [Hlt|]; cycle 1.
  { simpl. rewrite (proj2 (Z.ltb_ge _ _)) by done. by apply moves_still. }
  simpl. rewrite (proj2 (Z.ltb_lt _ _)) by done. pose proof (last_commit_nonneg _ Hs).
  assert (Hl : legit c B Tcs (W s) block).
  { destruct (vt_requests _ _ (nv_state _ Hs) _ Hd block Hb eq_refl); [lia|done]. }
  apply step_in_bind; [apply _| |intros _ _; by apply try_commit_moves].
  apply store_block_moves; [done|]. eapply legit_mono; [by apply moves_world|done].
Qed.

Lemma handle_loopback_moves block s :
  Blk block -> step_in moves (handle_synchronizer_loopback cfg block) s.
Proof.
  intros Hb. unfold handle_synchronizer_loopback. apply step_in_gets.
  case_match; [by apply try_commit_moves|by apply moves_still].
Qed.

Lemma local_timeout_moves : keeps moves (local_timeout_round cfg).
Proof.
  intros s. unfold local_timeout_round. apply step_in_bind; [apply _| |intros _ _].
  - apply moves_modify; [intros _; by apply st_timeout_syncs|done|intros _ _ [_ [] _]; by split].
  - apply step_in_gets. apply send_timeout_top_moves.
Qed.

Lemma sanitize_moves qc : keeps moves (sanitize_certificate cfg qc).
Proof. unfold sanitize_certificate. calm. Qed.

(** What may be delivered to the node: certificates that are genuine, votes that
    were cast, blocks that occur. *)
Definition authentic w (ev : CoreEvent) : Prop :=
  match ev with
  | Ev_Message (CM_Propose p) | Ev_Proposer p => proposal_in w p
  | Ev_Message (CM_Vote v) => vote_in B Seen w v
  | Ev_Message (CM_Timeout t) => genuine c B w (to_high_qc t)
  | Ev_Message (CM_QC qc) => genuine c B w qc
  | Ev_Message (CM_TC tc) => genuine c B w (tc_high_qc tc)
  | Ev_Message (CM_SyncResponse b) | Ev_Synchronizer b => Blk b
  | Ev_Message (CM_VerifiedVote _) | Ev_Message (CM_SyncRequest _ _) | Ev_Timer => True
  end.

Lemma authentic_mono w w' ev : world_le w w' -> authentic w ev -> authentic w' ev.
Proof.
  intros Hle. assert (Hp : forall p, proposal_in w p -> proposal_in w' p).
  { intros [p|p]; [intros (? & ? & ?)|intros [? ?]]; cbn [proposal_in]; eauto with safety. }
  destruct ev as [[]|p|b|]; cbn [authentic]; eauto using vote_in_mono with safety.
Qed.

Lemma handle_event_moves ev s : authentic (W s) ev -> step_in moves (handle_event cfg ev) s.
Proof.
  intros Hev. destruct ev as [[]|p|b|]; cbn [handle_event handle_message authentic] in *;
    eauto using handle_proposal_moves, handle_vote_moves, handle_timeout_moves, handle_tc_top_moves,
      handle_sync_response_moves, handle_loopback_moves; try (by apply moves_still).
  - apply moves_pre; [|intros Hinv _ _].
    { apply step_in_bind; [apply _|by apply sanitize_certificate_keeps|intros _ _]. by apply handle_qc_top_keeps. }
    apply step_in_bind_run; [apply _|apply sanitize_moves|intros [] s1 _ H1].
    apply handle_qc_top_moves. eapply genuine_mono; [by apply moves_world|done].
  - apply local_timeout_moves.
Qed.

(** ** The start *)
Lemma boot_moves : keeps moves (boot cfg).
Proof.
  intros s. unfold boot. apply step_in_bind; [apply _|apply timer_reset_moves|intros _ _].
  apply propose_normal_moves.
Qed.

Lemma ninv_spawn st now :
  (forall x v, x ∉ B -> x <> cc_name cfg -> Ef_LogVote v ∈ w0 x -> vote_ok c B Blk Tcs (world_with []) v) ->
  store_ok st -> ninv (Core_spawn cfg st now).
Proof.
  intros Hw Hst. split.
  - intros x v Hx. unfold W, world_with at 1. case_decide; [|by apply Hw]. set_solver.
  - split; simpl; try done.
    + by left.
    + split; [done|by left].
    + intros d b [<- <-]%lookup_singleton_Some. split; [done|by left].
    + apply agg_ok_new.
  - set_solver.
Qed.

End vetted.
