(* ===== verification/GlobalSafety.v ===== *)
(** * GlobalSafety: executions of a whole network of consensus nodes

    Every honest authority runs the core of [Core]; the Byzantine ones, of weight
    at most [f], and the network deliver to it anything that is [authentic]: any
    blocks, votes, timeouts and proposals whose certificates rest on votes and
    timeouts that honest nodes really signed.  The theorems: every vote an honest
    node signs is justified; a ledger whose last block has a slow commit quorum is
    a prefix of the ledger of every node that is at least as far, so that their
    committers execute the same transactions; and any other ledger is so too,
    unless a TC has forgotten its last block. *)
From S2P Require Import Prelude Crypto Config BitVec DagMessages Messages Signers Leader Store Proposer Synchronizer Mempool Aggregator AggregatorProps DagCore Executor Core CoreSteps CoreProps ConsensusTasks Replication Safety AggregatorVetted CoreVetted.

Section global.
Context `{Prim : Primitives} `{Order : HashIter} {Laws : G2Laws}.
Context `{Rocks : RocksDB} {DbLaws : RocksDBLaws} `{Codec : !BlockCodec} {CodecLaws : BlockCodecLaws}.
(** The committee, its Byzantine authorities, and the configuration of each node. *)
Context (c : Committee) (B : gset PublicKey) (config : PublicKey -> CoreConfig).
(** The blocks, the TCs of fallback proposals and the votes that occur. *)
Context (Blk : Block -> Prop) (Tcs : TC -> Prop) (Seen : Vote -> Prop).
Implicit Types (x y : PublicKey) (s : Core) (v : Vote) (b : Block) (d : Digest).

(** ** Executions *)

(** A node is alive or has panicked, with the state of its core. *)
Definition Net : Type := PublicKey -> bool * Core.
Implicit Types (g : Net).

Definition world g : World := fun x => effects (g x).2.
Definition update x (node : bool * Core) g : Net := fun y => if decide (y = x) then node else g y.

Definition booted x st now : bool * Core :=
  let r := boot (config x) (Core_spawn (config x) st now) in (alive r.2, r.1).
Definition handled x ev s : bool * Core :=
  let r := handle_event (config x) ev s in (alive r.2, r.1).

(** The nodes boot; then, in any order, a node that is alive handles an event
    that may be delivered to it, time passes at a node, or another task of the
    node uses the store. *)
Inductive execution : Net -> Prop :=
| ex_boot st now :
    (forall x, store_ok Blk (st x)) -> execution (fun x => booted x (st x) (now x))
| ex_event x ev g :
    execution g -> x ∉ B -> (g x).1 = true -> enabled ev (g x).2 ->
    authentic (config x) B Blk Tcs Seen (world g) ev -> within Seen (handled x ev (g x).2).2 ->
    execution (update x (handled x ev (g x).2) g)
| ex_time x now g :
    execution g -> x ∉ B -> (g x).1 = true -> co_now (g x).2 <= now ->
    execution (update x (true, set_now now (g x).2) g)
| ex_store x command g :
    execution g -> x ∉ B -> (g x).1 = true ->
    store_ok Blk (store_handle command (co_store (g x).2)).1 ->
    execution (update x (true, set_store (store_handle command (co_store (g x).2)).1 (g x).2) g).

Lemma update_same x node g : update x node g x = node.
Proof. unfold update. by rewrite decide_True. Qed.
Lemma update_other x y node g : y <> x -> update x node g y = g y.
Proof. intros Hne. unfold update. by rewrite decide_False. Qed.

(** Each honest node goes through states of its own that are reachable. *)
Lemma execution_reachable g x : execution g -> x ∉ B -> reachable (config x) (g x).1 (g x).2.
Proof.
  intros Hg Hx. revert x Hx. induction Hg as [st now Hst|y ev g _ IH Hy Ha He _ _|y now g _ IH Hy Ha Hle|y command g _ IH Hy Ha _];
    intros x Hx; [apply reach_boot|..];
    (destruct (decide (x = y)) as [->|Hne]; [rewrite update_same|rewrite update_other by done; by apply IH]);
    specialize (IH y Hy); rewrite Ha in IH.
  - by apply reach_event.
  - by apply reach_time.
  - by apply reach_store.
Qed.

(** ** The invariant of the network *)
Section invariant.
Context (Hc : committee_wf c).
Context (Hn : (committee_size c <= Z.to_nat (comm_n c))%nat).
Context (n f cr k : Z) (Hres : Quorums.resilient n f cr k) (Hconf : Quorums.configured c n f cr k).
Context (HB : Quorums.weight c B <= f).
Context (Hcfg : forall x, cc_name (config x) = x /\ cc_committee (config x) = c).
Context (Hgen : Blk Block_genesis).
Context (Hcf : forall b b', Blk b -> Blk b' -> digest b = digest b' -> same_block b b').
Context (Hrange : forall b, Blk b -> u64 (blk_round b)).
Context (Hunf : unforged c B Seen).

Record net_inv g : Prop := {
  ni_world : world_ok c B Blk Tcs (world g);
  ni_nodes : forall x, x ∉ B -> vetted (config x) B Blk Tcs Seen (world g) (g x).2;
  ni_ledgers : forall x b, x ∉ B -> Ef_LogCommitted b ∈ world g x -> Blk b;
}.

(** The world as node [x] sees it. *)
Lemma world_seen g x y : W (config x) (world g) (g x).2 y = world g y.
Proof.
  unfold W, world_with. destruct (Hcfg x) as [-> _]. by case_decide as Heq; [rewrite Heq|].
Qed.
Lemma world_le_ext (w w' : World) : (forall x, w x = w' x) -> world_le w w'.
Proof. intros Heq x. by rewrite Heq. Qed.
Lemma world_ok_ext (w w' : World) : (forall x, w x = w' x) -> world_ok c B Blk Tcs w -> world_ok c B Blk Tcs w'.
Proof.
  intros Heq Hok x v Hx Hv. rewrite <-Heq in Hv.
  eapply vote_ok_mono; [by apply world_le_ext|]. by eapply Hok.
Qed.

(** When one node moves and keeps its invariant, the network keeps its. *)
Lemma net_inv_update g x node :
  net_inv g -> x ∉ B -> effects (g x).2 ⊆ effects node.2 ->
  (ninv (config x) B Blk Tcs Seen (world g) (g x).2 -> ninv (config x) B Blk Tcs Seen (world g) node.2) ->
  net_inv (update x node g).
Proof.
  intros [Hw Hv Hl] Hx Heff Hmove. destruct (Hcfg x) as [Hname Hcomm].
  assert (Hpre : ninv (config x) B Blk Tcs Seen (world g) (g x).2).
  { split; [| |intros b; by apply (Hl x)].
    - rewrite Hcomm. eapply world_ok_ext; [|exact Hw]. intros y. by rewrite world_seen.
    - eapply vetted_mono; [|by apply Hv]. apply world_le_ext. intros y. by rewrite world_seen. }
  destruct (Hmove Hpre) as [Hw' Hv' Hl']. rewrite Hcomm in Hw'.
  assert (Hnew : forall y, W (config x) (world g) node.2 y = world (update x node g) y).
  { intros y. unfold W, world_with, world, update. rewrite Hname. by case_decide. }
  assert (Hle : world_le (world g) (world (update x node g))).
  { intros y. unfold world, update. by case_decide as Heq; [rewrite Heq|]. }
  split; [by eapply world_ok_ext|..].
  - intros y Hy. destruct (decide (y = x)) as [->|Hne]; [rewrite update_same|rewrite update_other by done].
    + eapply vetted_mono; [by apply world_le_ext|done].
    + eapply vetted_mono; [exact Hle|by apply Hv].
  - intros y b Hy. unfold world.
    destruct (decide (y = x)) as [->|Hne]; [rewrite update_same|rewrite update_other by done];
      [apply Hl'|by apply (Hl y)].
Qed.

Lemma boot_effects cfg st now e :
  e ∈ effects (boot cfg (Core_spawn cfg st now)).1 -> exists m, e = Ef_Proposer m.
Proof.
  unfold boot, timer_reset, propose_normal, propose_if_leader, leader_of. runs.
  destruct (get_leader _ _) as [leader|]; [|set_solver]. run. case_decide; [|set_solver].
  simpl. intros ->%list_elem_of_singleton. by eexists.
Qed.

Lemma net_inv_boot st now :
  (forall x, store_ok Blk (st x)) -> net_inv (fun x => booted x (st x) (now x)).
Proof.
  intros Hst. split.
  - intros x v _ Hv. by destruct (boot_effects _ _ _ _ Hv).
  - intros x Hx. simpl. destruct (Hcfg x) as [Hname Hcomm].
    assert (Hspawn : ninv (config x) B Blk Tcs Seen (fun _ => []) (Core_spawn (config x) (st x) (now x))).
    { eapply (ninv_spawn _ ltac:(by rewrite Hcomm)); rewrite ?Hcomm, ?Hname; try done. set_solver. }
    assert (Hboot : ninv (config x) B Blk Tcs Seen (fun _ => []) (boot (config x) (Core_spawn (config x) (st x) (now x))).1).
    { eapply (boot_moves _ ltac:(by rewrite Hcomm)); rewrite ?Hcomm, ?Hname; try done; [apply core_inv_spawn|].
      intros v Hv. by destruct (boot_effects _ _ _ _ Hv). }
    eapply vetted_mono; [|apply Hboot]. intros y e. unfold W, world_with. rewrite Hname.
    by case_decide as Heq; [rewrite Heq|set_solver].
  - intros x b _ Hb. by destruct (boot_effects _ _ _ _ Hb).
Qed.

Lemma execution_inv g : execution g -> net_inv g.
Proof.
  induction 1 as [st now Hst|x ev g Hg IH Hx Ha He Hauth Hseen|x now g Hg IH Hx Ha Hle|x command g Hg IH Hx Ha Hst].
  - by apply net_inv_boot.
  - destruct (Hcfg x) as [Hname Hcomm].
    pose proof (execution_reachable g x Hg Hx) as Hreach%reachable_inv.
    assert (Hmoves : step_in (moves (config x) B Blk Tcs Seen (world g)) (handle_event (config x) ev) (g x).2).
    { eapply (handle_event_moves (config x)); rewrite ?Hcomm, ?Hname; try done.
      eapply authentic_mono; [|exact Hauth]. apply world_le_ext. intros y. by rewrite world_seen. }
    destruct Hmoves as [Hsteps Hmoves]. apply net_inv_update; [done..| |by apply Hmoves].
    intros e. by apply (steps_effects (config x) LAll), Hsteps.
  - apply net_inv_update; [done..|]. intros [? [] ?]. by split.
  - apply net_inv_update; [done..|]. intros [? [] ?]. by split.
Qed.
Lemma honest_record g x : execution g -> x ∉ B -> record_ok (world g x).
Proof.
  intros Hg Hx. pose proof (execution_reachable g x Hg Hx) as Hinv%reachable_inv.
  split; [apply (ci_ordered _ Hinv)|]. intros t v Ht Hv Hk Hr.
  destruct (ci_timeout _ Hinv t Ht) as [_ Hrep]. specialize (Hrep v Hv Hr). by rewrite Hk in Hrep.
Qed.

(** The last commit of a node that has committed is certified for its round. *)
Lemma last_commit_certified g x :
  execution g -> x ∉ B -> 0 < blk_round (co_last_commit (g x).2) ->
  Blk (co_last_commit (g x).2) /\
  exists kd, certified c B (world g) kd (digest (co_last_commit (g x).2)) (blk_round (co_last_commit (g x).2)).
Proof.
  intros Hg Hx H0. pose proof (execution_inv g Hg) as [Hw Hv _]. destruct (Hcfg x) as [_ Hcomm].
  destruct (vt_last_commit _ _ _ _ _ _ _ (Hv x Hx)) as [Hb Hcert]. split; [done|].
  unfold committed_ok in Hcert. rewrite Hcomm in Hcert.
  destruct Hcert as [Heq|(kd & r & _ & Hcert)]; [rewrite Heq in H0; simpl in H0; lia|].
  destruct (certified_block c B Blk Tcs n f cr k Hres Hconf HB _ _ _ _ Hw Hcert) as (b & Hb' & Hd & <- & _).
  exists kd. by destruct (Hcf _ _ Hb' Hb Hd) as (_ & _ & <- & _).
Qed.

(** A commit is on the ledger of everyone who is as far, unless a TC has
    forgotten it. *)
Lemma commit_prefix g i j :
  execution g -> i ∉ B -> j ∉ B ->
  let bi := co_last_commit (g i).2 in
  0 < blk_round bi -> blk_round bi <= blk_round (co_last_commit (g j).2) ->
  Forall2 same_block (ledger (g i).2) (take (length (ledger (g i).2)) (ledger (g j).2)) \/
  exists tc, forgets c B Tcs (world g) (digest bi) (blk_round bi) tc.
Proof.
  intros Hg Hi Hj bi H0 Hle. pose proof (execution_inv g Hg) as [Hw _ Hl].
  pose proof (execution_reachable g i Hg Hi) as Hri. pose proof (execution_reachable g j Hg Hj) as Hrj.
  pose proof (reachable_inv _ _ _ Hri) as Hii. pose proof (reachable_inv _ _ _ Hrj) as Hij.
  destruct (last_commit_certified g i Hg Hi H0) as (_ & kdi & Hci).
  destruct (last_commit_certified g j Hg Hj) as (Hbj & kd & Hcj); [lia|].
  assert (Hblocks : forall x, x ∉ B -> Forall Blk (ledger (g x).2)).
  { intros x Hx. apply Forall_forall. intros b Hb. apply (Hl x); [done|].
    unfold ledger, committed_of in Hb. rewrite elem_of_reverse, list_elem_of_omap in Hb.
    destruct Hb as (e & He & Hb). destruct e; try done. by injection Hb as ->. }
  destruct (commit_on_chain c B Blk Tcs n f cr k Hres Hconf HB Hgen Hcf (world g) Hw
              (fun x => honest_record g x Hg) (digest bi) (blk_round bi) kdi kd
              (blk_round (co_last_commit (g j).2)) (co_last_commit (g j).2) (ledger (g j).2)
              H0 Hci Hcj Hle Hbj (ci_chain _ Hij) (Hblocks j Hj) (eq_sym (ci_tip _ Hij)))
    as [(m & Hm & Htip)|?]; [left|by right].
  pose proof (ci_chain _ Hij) as Hch. rewrite <-(take_drop m (ledger (g j).2)) in Hch.
  apply chain_app in Hch as [Hch _].
  destruct (chains_agree_on Blk False (ledger (g i).2) (take m (ledger (g j).2))) as [Hall|[]]; try done.
  - intros b b' Hb Hb' Hd. left. by apply Hcf.
  - apply (ci_chain _ Hii).
  - by eapply reachable_ledger_rounds.
  - by eapply Forall_take, reachable_ledger_rounds.
  - by apply Hblocks.
  - by apply Forall_take, Hblocks.
  - rewrite Htip. symmetry. apply (ci_tip _ Hii).
  - pose proof (Forall2_length _ _ _ Hall) as Hlen. rewrite length_take_le in Hlen by done. by rewrite Hlen.
Qed.

(** No TC forgets a slow commit. *)
Lemma slow_commit_prefix g i j :
  execution g -> i ∉ B -> j ∉ B ->
  let bi := co_last_commit (g i).2 in
  certified c B (world g) VT_Commit (digest bi) (blk_round bi) ->
  blk_round bi <= blk_round (co_last_commit (g j).2) ->
  Forall2 same_block (ledger (g i).2) (take (length (ledger (g i).2)) (ledger (g j).2)).
Proof.
  intros Hg Hi Hj bi Hslow Hle. pose proof (execution_inv g Hg) as [Hw _ _].
  destruct (certified_voter c B n f cr k Hres Hconf HB _ _ _ _ Hslow) as (x & Hx & v & Hv & Hk & _ & Hr).
  pose proof (Hw x v Hx Hv) as Hok. unfold vote_ok in Hok. rewrite Hk in Hok.
  destruct (commit_prefix g i j Hg Hi Hj) as [?|(tc & Htc)]; [fold bi; rewrite <-Hr; apply Hok|done..|].
  exfalso. revert Htc. by eapply slow_commit_remembered, Hslow; [..|intros y; apply honest_record].
Qed.

(** C1: safety of the protocol as the code runs it: in every execution of a
    network in which Byzantine authorities weigh at most f and the certificates
    in messages rest on votes and timeouts that were really signed, with any
    delays, losses, reorderings, panics and equivocating leaders, if the last
    block that one honest node committed has a slow commit quorum, then its
    ledger is, block for block, a prefix of the ledger of every honest node
    whose last commit is of at least that round, however that one was
    committed. *)
Theorem slow_commit_safety g i j :
  execution g -> i ∉ B -> j ∉ B ->
  let bi := co_last_commit (g i).2 in
  certified c B (world g) VT_Commit (digest bi) (blk_round bi) ->
  blk_round bi <= blk_round (co_last_commit (g j).2) ->
  Forall2 same_block (ledger (g i).2) (take (length (ledger (g i).2)) (ledger (g j).2)).
Proof. apply slow_commit_prefix. Qed.


(** C4: every vote that an honest node signs, in any such execution, is
    justified: a normal vote is for a block whose parent has a certificate of a
    quorum from the round before, or is the one that a timeout certificate of the
    round before names; a commit vote is for a block with a prepare quorum of
    that round. *)
Theorem votes_are_justified g x v :
  execution g -> x ∉ B -> Ef_LogVote v ∈ effects (g x).2 -> vote_ok c B Blk Tcs (world g) v.
Proof. intros Hg Hx. by apply (ni_world _ (execution_inv g Hg) x). Qed.

(** ** Execution *)
Section replicas.
Context `{Txns : Transactions} `{DCodec : !DagCodec} `{Vm : !AptosVM}.
Context (info_enabled : bool).

(** C5: replication end to end: in every such execution, if the last commit of
    an honest node has a slow commit quorum and another honest node is at least
    as far, then what the first node's core sent to its committer is, header
    for header, a prefix of what the other's did, and two committers that start
    alike end with the same outcome, the same accounts and the same log of results
    when they have worked off that prefix, provided that for every certificate in
    it they find the same header in their stores, or both none: a header that only
    one of them has is executed by that one only. *)
Theorem slow_commits_execute_alike g i j (feed feed' : list (Store * list Certificate)) cm cm' :
  cc_consensus_only (config i) = false -> cc_consensus_only (config j) = false ->
  execution g -> i ∉ B -> j ∉ B ->
  let bi := co_last_commit (g i).2 in
  certified c B (world g) VT_Commit (digest bi) (blk_round bi) ->
  blk_round bi <= blk_round (co_last_commit (g j).2) ->
  map snd feed = deliveries (g i).2 ->
  map snd feed' = take (length feed) (deliveries (g j).2) ->
  (forall m p p' cert cert', feed !! m = Some p -> feed' !! m = Some p' ->
     cert ∈ p.2 -> cert' ∈ p'.2 -> cert_id cert = cert_id cert' ->
     load_header p.1 cert = load_header p'.1 cert') ->
  same_execution cm cm' ->
  map (map cert_id) (map snd feed) = map (map cert_id) (map snd feed') /\
  same_run (run_commits info_enabled feed cm) (run_commits info_enabled feed' cm').
Proof.
  intros Honly Honly' Hg Hi Hj bi Hslow Hle Hfeed Hfeed' Hloads Hcm.
  pose proof (slow_commit_prefix g i j Hg Hi Hj Hslow Hle) as Hall%same_blocks_payload.
  pose proof (reachable_deliveries _ _ _ Honly (execution_reachable g i Hg Hi)) as Hd.
  pose proof (reachable_deliveries _ _ _ Honly' (execution_reachable g j Hg Hj)) as Hd'.
  assert (Hlen : length feed = length (ledger (g i).2)).
  { rewrite <-(length_map snd feed), Hfeed, Hd. apply length_map. }
  assert (Heq : map (map cert_id) (map snd feed) = map (map cert_id) (map snd feed')).
  { by rewrite Hfeed, Hfeed', Hd, Hd', Hlen, Hall, firstn_map. }
  split; [done|]. apply run_commits_agree; [|done]. by apply feeds_agree.
Qed.
End replicas.

End invariant.
End global.
