(* ===== verification/Instances.v ===== *)
(** * Concrete instances and a small network

    Implementations of the parameters of the development (cryptography, hash map
    order, database, block codec) that satisfy their laws, a committee of four
    authorities with one fault, and runs of one of its nodes.  They show that
    the hypotheses of the theorems can be met. *)
From S2P Require Import Prelude Crypto Keys Config BitVec DagMessages Messages Signers Leader Store Proposer Synchronizer Mempool Aggregator AggregatorProps DagCore WorkerTasks Executor Accounts AptosDb Scenario Core CoreSteps.

(** ** Cryptography on integers *)
Definition toy_hash (x : list Z) : Z := foldl (fun acc b => acc * 3 + b + 1) 1 x.

#[export] Instance toy_prim : Primitives := {
  sha512 := fun x => toy_hash x :: replicate 63 0;
  ed_sign := fun secret d => Some (take 64 (secret ++ d ++ replicate 64 0));
  ed_verify := fun sig d pk => bool_decide (sig = take 64 (pk ++ d ++ replicate 64 0));
  G1 := Z;
  g1_default := 0;
  g1_add := Z.add;
  G2 := Z;
  G2_eq_dec := Z.eq_dec;
  g2_default := 0;
  g2_add := Z.add;
  g2_sub := Z.sub;
  g2_cmp := Z.compare;
  PkG1 := Z;
  BlsSecret := Z;
  bls_sign := fun d secret => secret * toy_hash d;
  bls_verify := fun d pk sig => sig =? pk * toy_hash d;
}.

#[export] Instance toy_g2_laws : G2Laws.
Proof.
  split; simpl; try (intros; lia).
  - intros a b. apply Z.compare_eq_iff.
  - intros a b. apply Z.compare_antisym.
  - intros a b c. rewrite !Z.compare_lt_iff. lia.
Qed.
#[export] Instance toy_bls_laws : BlsLaws.
Proof. split. simpl. intros d a b s t. rewrite !Z.eqb_eq. lia. Qed.

(** A key pair: the secret is the public key. *)
Lemma toy_keypair pk : length pk = 32%nat -> ed_keypair (mkSecretKey pk) (mkPublicKey pk).
Proof.
  intros Hlen d. eexists. split; [reflexivity|]. split; [|by apply bool_decide_eq_true].
  rewrite length_take, !length_app, length_replicate. lia.
Qed.

#[export] Instance toy_order : HashIter := { hash_iter := fun K _ _ V m => map_to_list m }.
#[export] Instance toy_order_laws : HashIterLaws.
Proof. split. intros. reflexivity. Qed.

#[export] Instance toy_rocks : RocksDB := {
  Db := gmap (list Z) (list Z);
  StoreError := unit;
  db_get := fun db k => inr (db !! k);
  db_put := fun db k v => (<[k := v]> db, None);
}.
#[export] Instance toy_rocks_laws : RocksDBLaws.
Proof.
  split; simpl.
  - intros d d' k v [= <-]. by rewrite lookup_insert_eq.
  - intros d d' e k k' v [= <- _] Hne. by rewrite lookup_insert_ne.
  - done.
Qed.

(** Blocks as tuples, and those as positive numbers. *)
Definition cert_tuple (c : Certificate) : Digest * Z * PublicKey * Z * Z :=
  (cert_id c, cert_round c, cert_origin c, (cert_votes c).1, (cert_votes c).2).
Definition tuple_cert (x : Digest * Z * PublicKey * Z * Z) : Certificate :=
  let '(id, r, o, bits, sig) := x in mkCertificate id r o (bits, sig).
Definition block_tuple (b : Block)
    : PublicKey * Digest * list (Digest * Z * PublicKey * Z * Z) * Z * list Z * list Z :=
  (blk_author b, blk_parent b, map cert_tuple (blk_payload b), blk_round b,
   part1 (blk_signature b), part2 (blk_signature b)).
Definition tuple_block
    (x : PublicKey * Digest * list (Digest * Z * PublicKey * Z * Z) * Z * list Z * list Z) : Block :=
  let '(a, p, certs, r, s1, s2) := x in mkBlock a p (map tuple_cert certs) r (mkSignature s1 s2).

#[export] Instance toy_codec : BlockCodec := {
  block_encode := fun b => [Z.pos (encode (block_tuple b))];
  block_decode := fun l => match l with [Z.pos p] => tuple_block <$> decode p | _ => None end;
}.
#[export] Instance toy_codec_laws : BlockCodecLaws.
Proof.
  split. intros b. cbn [block_decode block_encode toy_codec]. rewrite decode_encode. simpl. f_equal.
  destruct b as [a p certs r [s1 s2]]. unfold tuple_block, block_tuple. simpl. f_equal.
  rewrite map_map. rewrite <-(map_id certs) at 2. apply map_ext. by intros [? ? ? []].
Qed.

(** Transactions as numbers, headers and certificates as tuples. *)
#[export] Instance toy_transactions : Transactions := {
  Transaction := Z;
  bcs_to_bytes := fun tx => Some [tx];
  bcs_from_bytes := fun bytes => match bytes with [tx] => Some tx | _ => None end;
}.
#[export] Instance toy_transactions_laws : TransactionsLaws.
Proof. split. simpl. intros [|x [|y bytes]] tx; by intros [= ->]. Qed.

Definition header_tuple (h : Header) : PublicKey * Z * list Z * Digest * list Z * list Z :=
  (hdr_author h, hdr_round h, hdr_payload h, hdr_id h, part1 (hdr_signature h), part2 (hdr_signature h)).
Definition tuple_header (x : PublicKey * Z * list Z * Digest * list Z * list Z) : Header :=
  let '(a, r, txs, id, s1, s2) := x in mkHeader a r txs id (mkSignature s1 s2).

#[export] Instance toy_dag_codec : DagCodec := {
  header_encode := fun h => [0; Z.pos (encode (header_tuple h))];
  header_decode := fun l => match l with [0; Z.pos p] => tuple_header <$> decode p | _ => None end;
  certificate_encode := fun c => [1; Z.pos (encode (cert_tuple c))];
  certificate_decode := fun l => match l with [1; Z.pos p] => tuple_cert <$> decode p | _ => None end;
}.

#[export] Instance toy_worker_codec : WorkerCodec := {
  worker_encode := fun m =>
    match m with
    | WM_Batch txs => Some (0 :: txs)
    | WM_BatchRequest missing origin => Some [1; Z.pos (encode (missing, origin))]
    end;
  worker_decode := fun l =>
    match l with
    | 0 :: txs => Some (WM_Batch txs)
    | [1; Z.pos p] =>
        (fun x : list Digest * PublicKey => WM_BatchRequest x.1 x.2) <$> decode p
    | _ => None
    end;
  worker_primary_encode := fun _ => Some [];
}.
#[export] Instance toy_worker_codec_laws : WorkerCodecLaws.
Proof.
  split. intros [txs|missing origin] bytes; cbn [worker_encode toy_worker_codec].
  - by intros [= <-].
  - intros [= <-]. cbn [worker_decode toy_worker_codec]. by rewrite decode_encode.
Qed.

(** Bytes as characters in place of base64. *)
#[export] Instance toy_base64 : Base64 := {
  base64_encode := fun bytes =>
    foldr (fun b s => String (Ascii.ascii_of_N (Z.to_N b)) s) EmptyString bytes;
  base64_decode := fun s =>
    Some (map (fun a => Z.of_N (Ascii.N_of_ascii a)) (String.list_ascii_of_string s));
}.
#[export] Instance toy_base64_laws : Base64Laws.
Proof.
  split. intros bytes Hb. simpl. f_equal. induction Hb as [|b bytes Hb _ IH]; [done|]. simpl.
  rewrite IH, Ascii.N_ascii_embedding by lia. f_equal. lia.
Qed.

(** A virtual machine in which a transaction sets one cell.  A key is an address
    and a tag, of a resource or of a group. *)
#[export] Instance toy_vm : AptosVM := {
  StateKey := bool * (Z * Z);
  StateValue := list Z;
  WriteOp := list Z;
  VMStatus := unit;
  VMOutput := Z;
  is_delete := fun _ => false;
  as_state_value := fun op => Some op;
  execute_user_transaction := fun _ _ tx => (tt, tx);
  write_ops := fun output => Some [((false, (0, 0)), [output])];
}.

(** Values as numbers. *)
Definition toy_bcs (A : Type) `{Countable A} : Bcs A := {|
  to_bytes := fun a => Some [Z.pos (encode a)];
  from_bytes := fun l => match l with [Z.pos p] => decode p | _ => None end;
|}.
Lemma toy_bcs_laws (A : Type) `{Countable A} : @BcsLaws A (toy_bcs A).
Proof. split; simpl; [by eexists|]. intros a bytes [= <-]. apply decode_encode. Qed.

(** A transaction is its raw transaction: sender, sequence number and chain. *)
Definition toy_signed (r : Z * Z * Z) : Z := Z.pos (encode r).
Definition toy_raw (t : Z) : Z * Z * Z := default (0, 0, 0) (decode (Z.to_pos t)).
Lemma toy_raw_signed r : toy_raw (toy_signed r) = r.
Proof. unfold toy_raw, toy_signed. simpl. by rewrite decode_encode. Qed.

#[export] Instance toy_aptos : AptosTypes := {
  AccountAddress := Z;
  ADDRESS_ONE := 1;
  ADDRESS_TEN := 10;
  AptosPrivateKey := Z;
  AptosPublicKey := Z;
  AuthenticationKey := Z;
  sha3_256_of := fun bytes => bytes;
  private_key_try_from := head;
  public_key := fun k => k;
  auth_ed25519 := fun p => 100 + p;
  auth_to_vec := fun a => [a];
  auth_account_address := fun a => a;
  Identifier := string;
  Identifier_new := Some;
  StructTag := Z;
  TypeTag := Z;
  StructTag_new := fun a _ _ _ => 50 + a;
  TypeTag_Struct := fun t => t;
  ModuleId := Z * string;
  ModuleId_new := pair;
  ChainId := Z;
  EntryFunction := string;
  EntryFunction_new := fun _ f _ _ => f;
  TransactionPayload := string;
  Payload_EntryFunction := fun f => f;
  code_publish_package_txn := fun _ _ => "code"%string;
  RawTransaction := Z * Z * Z;
  RawTransaction_new := fun a n _ _ _ _ c => (a, n, c);
  raw_sender := fun r => r.1.1;
  raw_sequence_number := fun r => r.1.2;
  raw_chain_id := fun r => r.2;
  raw_sign := fun r _ _ => Some (toy_signed r);
  RawTransactionWithData := Z * Z * Z;
  new_multi_agent := fun r _ => r;
  AptosSignature := Z;
  message_sign := fun k _ => Some k;
  AccountAuthenticator := Z;
  authenticator_ed25519 := fun _ s => s;
  signed_new_multi_agent := fun r _ _ _ => toy_signed r;
  into_raw_transaction := toy_raw;
  bcs_u64 := toy_bcs Z;
  bcs_bool := toy_bcs bool;
  bcs_address := toy_bcs Z;
}.
#[export] Instance toy_aptos_laws : AptosLaws.
Proof.
  split; try done; simpl.
  - intros r _ _ t [= <-]. apply toy_raw_signed.
  - intros r _ _ _. apply toy_raw_signed.
Qed.
#[export] Instance toy_aptos_total : AptosTotal.
Proof. split; simpl; intros; by eexists. Qed.

#[export] Instance toy_resources : AptosResources := {
  primary_apt_store := fun a => 1000 + a;
  address_debug := fun _ => "0x"%string;
  key_resource := fun a t => Some (false, (a, t));
  key_resource_group := fun a t => (true, (a, t));
  new_legacy := fun bytes => bytes;
  value_bytes := fun v => v;
  AccountResource_tag := 1;
  CoinStore_tag := 2;
  ObjectGroup_tag := 3;
  ObjectCore_tag := 4;
  FungibleStore_tag := 5;
  MigrationFlag_tag := 6;
  ConcurrentBalance_tag := 7;
  ConcurrentSupply_tag := 8;
  EventKey := Z * Z;
  EventKey_new := pair;
  EventHandle := Z * Z * Z;
  EventHandle_new := pair;
  AccountResource := Z;
  AccountResource_new := fun n _ _ _ => n;
  CoinStoreResource := Z;
  CoinStore_new := fun b _ _ _ => b;
  coin := fun x => x;
  ObjectCoreResource := Z;
  ObjectCore_new := fun a _ _ => a;
  FungibleStoreResource := Z;
  FungibleStore_new := fun _ b _ => b;
  fungible_store_balance := fun x => x;
  MigrationFlag := unit;
  MigrationFlag_default := tt;
  ConcurrentFungibleBalanceResource := Z;
  concurrent_balance := fun x => x;
  ConcurrentSupplyResource := Z;
  ConcurrentSupply_new := fun v _ => v;
  ObjectGroupResource := gmap Z (list Z);
  group_default := ∅;
  group_insert := fun t bytes g => <[t := bytes]> g;
  group_map := fun g => g;
  bcs_account := toy_bcs Z;
  bcs_coin := toy_bcs Z;
  bcs_object_core := toy_bcs Z;
  bcs_fungible := toy_bcs Z;
  bcs_flag := toy_bcs unit;
  bcs_concurrent := toy_bcs Z;
  bcs_concurrent_supply := toy_bcs Z;
  bcs_group := toy_bcs (gmap Z (list Z));
  bcs_group_map := toy_bcs (gmap Z (list Z));
  bcs_supply := {|
    to_bytes := fun x => Some [Z.pos (encode (sup_current x, sup_maximum x))];
    from_bytes := fun l =>
      match l with [Z.pos p] => (fun x : Z * option Z => mkSupply x.1 x.2) <$> decode p | _ => None end |};
  genesis_writes := [((false, (10, 1)), [7])];
}.
#[export] Instance toy_resources_laws : AptosResourcesLaws.
Proof.
  split; try done; try (by apply toy_bcs_laws); simpl.
  split. all: try done. all: try apply toy_bcs_laws. all: simpl.
  - by injection H.
  - by injection H.
  - by intros a t a' t' [= -> ->].
  - split; [done|]. apply (bool_decide_unpack _). by vm_compute.
  - split; simpl; [by eexists|]. intros [c m] bytes [= <-]. by rewrite decode_encode.
Qed.

(** A directory with one module. *)
#[export] Instance toy_files : FileSystem := {
  Path := string;
  Path_from := fun p => p;
  path_join := fun p q => (p +:+ "/" +:+ q)%string;
  path_display := fun p => p;
  path_extension := fun p => if decide (p = "market.mv") then Some "mv"%string else None;
  path_le := fun p q => is_true (String.leb p q);
  path_le_dec := fun p q => bool_dec _ _;
  exists_path := fun _ => true;
  fs_read := fun _ => Some [0];
  read_dir := fun _ => Some [Some "notes.txt"; Some "market.mv"]%string;
}.

(** ** A committee of four *)
Module Net.

Definition key (i : Z) : PublicKey := mkPublicKey (i :: replicate 31 0).
Definition secret (i : Z) : SecretKey := mkSecretKey (i :: replicate 31 0).
Definition addr (i : Z) : SocketAddr := mkSocketAddr 127 i.
Definition authority (i : Z) : PublicKey * Authority :=
  (key i, mkAuthority i i (10 + i) (negb (i =? 3)) 1 (mkConsensusAddresses (addr i))
            (mkPrimaryAddresses (addr (10 + i)) (addr (20 + i)))
            {[0 := mkWorkerAddresses (addr (30 + i)) (addr (40 + i)) (addr (50 + i))]}).

(** n = 4, f = 1, c = k = 0. *)
Definition authorities4 : list (PublicKey * Authority) := map authority [0; 1; 2; 3].
Definition committee : Committee :=
  match Committee_new authorities4 4 1 0 0 with
  | Some c => c
  | None => mkCommittee [] [] 0 0 0 0 0 0 0 0 0 0
  end.
Definition elector : LeaderElector :=
  match LeaderElector_new (E := unit) Simple committee with
  | Ok e => e
  | _ => LE_Failure []
  end.

(** Node [i], without a mempool, with a timeout of 100 ms. *)
Definition config (i : Z) : CoreConfig :=
  mkCoreConfig (key i) committee true elector 100 (secret i) (10 + i).

(** Block of round [r] by its leader on [parent], the votes for it, and QCs. *)
Definition block (r : Z) (parent : Digest) : Block :=
  default Block_genesis (Block_new (key (r `mod` 4)) parent [] r (secret (r `mod` 4))).
Definition vote (i : Z) (kind : VoteType) (b : Block) : Vote :=
  Vote_new (key i) (digest b) kind (blk_round b) (10 + i).
Definition votes (kind : VoteType) (b : Block) (signers : list Z) : list CoreEvent :=
  map (fun i => Ev_Message (CM_Vote (vote i kind b))) signers.
Definition qc (kind : VoteType) (b : Block) (signers : list nat) : QC :=
  mkQC (digest b) kind (blk_round b)
    (default [] (clear_signers (full_bits 4) signers),
     foldr (fun i acc => vote_signature (vote (Z.of_nat i) kind b) + acc) 0 signers) false.
Definition proposal (b : Block) (q : QC) : CoreEvent :=
  Ev_Message (CM_Propose (PM_N (mkNormalProposal b q))).

(** ** Running a node *)
Section run.
Context (cfg : CoreConfig).

(** Handle events at given times; [None] if the node crashed, the timer was not
    due or time went back. *)
Fixpoint run (inputs : list (Z * CoreEvent)) (s : Core) : option Core :=
  match inputs with
  | [] => Some s
  | (now, ev) :: inputs' =>
      let s1 := set_now now s in
      if (co_now s <=? now) && (match ev with Ev_Timer => co_timer s1 <=? now | _ => true end) then
        match handle_event cfg ev s1 with
        | (s2, Ok _) | (s2, Err _) => run inputs' s2
        | _ => None
        end
      else None
  end.

Lemma run_reachable inputs s s' :
  reachable cfg true s -> run inputs s = Some s' -> reachable cfg true s'.
Proof.
  revert s. induction inputs as [|[now ev] inputs IH]; intros s Hs; [by intros [= <-]|].
  cbn [run]. destruct (co_now s <=? now) eqn:Hle; [|done]. apply Z.leb_le in Hle.
  destruct (match ev with Ev_Timer => co_timer (set_now now s) <=? now | _ => true end) eqn:Hev; [|done].
  assert (Hen : enabled ev (set_now now s)) by (destruct ev; try done; by apply Z.leb_le).
  pose proof (reach_event cfg ev _ (reach_time cfg _ _ Hs Hle) Hen) as Hr. simpl.
  destruct (handle_event cfg ev (set_now now s)) as [s2 [u|e|msg|]]; simpl in Hr |- *; try done;
    by apply IH.
Qed.

Definition start : Core := (boot cfg (Core_spawn cfg (Store_new ∅) 0)).1.
Definition after (inputs : list (Z * CoreEvent)) : Core := default start (run inputs start).

Lemma after_reachable inputs :
  alive (boot cfg (Core_spawn cfg (Store_new ∅) 0)).2 = true ->
  is_Some (run inputs start) -> reachable cfg true (after inputs).
Proof.
  intros Ha [s' Hs']. unfold after. rewrite Hs'. apply run_reachable with (inputs := inputs) (s := start); [|done].
  unfold start. rewrite <-Ha. apply reach_boot.
Qed.
End run.

Definition b1 : Block := block 1 (digest Block_genesis).
Definition b2 : Block := block 2 (digest b1).
Definition b3 : Block := block 3 (digest b2).
Definition qc1 : QC := qc VT_Normal b1 [0; 1; 2]%nat.
Definition qc2 : QC := qc VT_Normal b2 [0; 1; 2]%nat.

End Net.
