(* ===== verification/Witnesses.v ===== *)
(** * Witnesses: the theorems at concrete inputs

    Each lemma instantiates one theorem on the network of [Instances.Net], or on
    a small concrete input, with all its hypotheses discharged by evaluation. *)
From S2P Require Import Prelude Crypto Config BitVec DagMessages Messages Signers Leader Store Proposer Synchronizer Mempool Aggregator AggregatorProps Agreement Core CoreSteps CoreProps CoreTermination CoreLiveness Instances.
Import Net.

(** Decide a closed proposition by evaluation. *)
Ltac vdecide := apply (bool_decide_eq_true_1 _); vm_compute; reflexivity.

(** ** The committee *)
Lemma net_wf : committee_wf committee.
Proof.
  split.
  - vdecide.
  - unfold keys_sorted. change (sorted_keys committee) with [10; 11; 12; 13].
    repeat constructor.
  - apply eq_Permutation. vm_compute. reflexivity.
  - vm_compute. reflexivity.
Qed.

Lemma net_stake name : 0 <= stake committee name.
Proof.
  unfold stake. destruct (btree_get (authorities committee) name) as [x|] eqn:Hx; [|lia].
  apply btree_get_elem in Hx. change (authorities committee) with authorities4 in Hx.
  unfold authorities4 in Hx. simpl in Hx. rewrite !elem_of_cons in Hx.
  destruct Hx as [[= _ ->]|[[= _ ->]|[[= _ ->]|[[= _ ->]|Hx]]]]; simpl; try lia.
  by apply not_elem_of_nil in Hx.
Qed.

Lemma net_resilient : Quorums.resilient 4 1 0 0.
Proof. split; lia. Qed.
Lemma net_configured : Quorums.configured committee 4 1 0 0.
Proof. split; try (vm_compute; reflexivity); [apply net_stake|]. vm_compute. discriminate. Qed.
Lemma net_total : set_weight (stake committee) (list_to_set (get_public_keys committee)) < 2 ^ 32.
Proof. vm_compute. reflexivity. Qed.

Definition three (a b c : Z) : gset PublicKey := {[key a; key b; key c]}.

Lemma Committee_new_wf_witness :
  exists comm, Committee_new authorities4 4 1 0 0 = Some comm /\ committee_wf comm /\
    authorities comm = authorities4.
Proof. apply Committee_new_wf; [discriminate|vdecide|vdecide]. Defined.

Lemma quorums_intersect_witness :
  1 + 1 <= Quorums.weight committee (three 0 1 2 ∩ three 1 2 3) /\
  1 + 1 <= Quorums.weight committee (three 0 1 2 ∩ three 1 2 3) /\
  1 + comm_p committee + 1 <=
    Quorums.weight committee (({[key 3]} ∪ three 0 1 2) ∩ three 1 2 3 ∖ {[key 3]}).
Proof.
  pose proof (Quorums.quorums_intersect committee 4 1 0 0 net_resilient net_configured
    (three 0 1 2) (three 1 2 3) {[key 3]} ltac:(vdecide) ltac:(vdecide)
    ltac:(vm_compute; discriminate)) as (Hquorum & Hslow & _).
  pose proof (Quorums.quorums_intersect committee 4 1 0 0 net_resilient net_configured
    ({[key 3]} ∪ three 0 1 2) (three 1 2 3) {[key 3]} ltac:(vdecide) ltac:(vdecide)
    ltac:(vm_compute; discriminate)) as (_ & _ & Hfast).
  split_and!; [apply Hquorum|apply Hslow|apply Hfast]; vm_compute; discriminate.
Defined.

Lemma thresholds_ordered_witness :
  quorum_threshold committee <= view_change_threshold committee.
Proof. apply (Quorums.thresholds_ordered committee 4 1 0 0 net_resilient net_configured). Defined.

(** ** Messages *)
Lemma QC_is_well_formed_reference_witness :
  exists pk, combine_key_from_ids [0; 1; 2]%nat (sorted_keys committee) = Some pk /\
    (QC_is_well_formed committee qc1 = Ok tt <->
     bls_verify (digest_bytes (digest qc1)) pk (qc_votes qc1).2 = true).
Proof.
  apply (QC_is_well_formed_reference committee net_wf 4);
    [vm_compute; reflexivity|vm_compute; lia|vdecide|discriminate| |discriminate].
  intros i. rewrite !elem_of_cons. intros [->|[->|[->|[]%not_elem_of_nil]]]; vm_compute; lia.
Defined.

Lemma QC_well_formed_without_quorum_witness :
  QC_is_well_formed committee (qc VT_Commit b1 [0%nat]) = Ok tt.
Proof.
  apply (QC_well_formed_without_quorum committee net_wf 0 10); vm_compute; reflexivity.
Defined.

(** Three timeouts for round 1 and the TC of their entries. *)
Definition timeout (i r : Z) : Timeout :=
  default (mkTimeout (vote 0 VT_Normal b1) QC_genesis WQC_genesis 0 (key 0) Signature_default)
    (Timeout_new (vote i VT_Normal b1) QC_genesis WQC_genesis r (key i) (secret i)).
Definition tc1 : TC :=
  mkTC QC_genesis WQC_genesis 1 (map (fun i => (key i, to_signature (timeout i 1), 0)) [0; 1; 2]).

Lemma TC_is_well_formed_iff_witness :
  TC_is_well_formed committee tc1 = Ok tt <->
  NoDup (tc_names (tc_votes tc1)) /\ Forall (tc_vote_ok committee tc1) (tc_votes tc1) /\
  quorum_threshold committee <= set_weight (stake committee) (list_to_set (tc_names (tc_votes tc1))).
Proof. apply TC_is_well_formed_iff; [apply net_stake|apply net_total]. Defined.

Definition b1_resigned : Block :=
  mkBlock (blk_author b1) (blk_parent b1) (blk_payload b1) (blk_round b1) Signature_default.

Definition wqc1 : WQC := mkWQC (digest b1) 1 ([], 0).

Lemma WQC_digest_not_vote_digest_witness :
  exists x y, digest wqc1 = hash32 x /\
    digest (vote 0 VT_Normal b1) = hash32 y /\ x <> y.
Proof. apply WQC_digest_not_vote_digest; vm_compute; reflexivity. Defined.

(** ** Aggregation *)
Definition v0 : Vote := vote 0 VT_Normal b1.
Definition v1 : Vote := vote 1 VT_Normal b1.
Definition v2 : Vote := vote 2 VT_Normal b1.
Definition v3 : Vote := vote 3 VT_Normal b1.

Lemma net_size : (committee_size committee <= 4)%nat.
Proof. vm_compute. lia. Qed.

Lemma net_maker : qm_inv committee 4 (append_all committee true [v0; v1] (QCMaker_new 4)).1 [v0; v1].
Proof.
  apply (append_all_collect committee net_wf 4 net_size net_stake net_total VT_Normal);
    [vm_compute; discriminate|split; vdecide|vm_compute; reflexivity].
Qed.

(** The certificate that appending to a maker yields. *)
Definition made_qc {S} (x : S * Outcome ConsensusError (option QC)) : QC :=
  match x.2 with Ok (Some q) => q | _ => QC_genesis end.
Definition makes_qc {S} (x : S * Outcome ConsensusError (option QC)) : bool :=
  match x.2 with Ok (Some _) => true | _ => false end.
Lemma makes_qc_eq {S} (x : S * Outcome ConsensusError (option QC)) :
  makes_qc x = true -> x = (x.1, Ok (Some (made_qc x))).
Proof. destruct x as [a [[q|]| | |]]; try discriminate. reflexivity. Qed.

Definition collected0 :=
  QCMaker_append v2 committee true (append_all committee true [v0; v1] (QCMaker_new 4)).1.
Lemma collected0_eq :
  QCMaker_append v2 committee true (append_all committee true [v0; v1] (QCMaker_new 4)).1 =
  (collected0.1, Ok (Some (made_qc collected0))).
Proof. unfold collected0. apply makes_qc_eq. vm_compute. reflexivity. Qed.

Lemma QCMaker_append_sound_witness : QC_is_well_formed committee (made_qc collected0) = Ok tt.
Proof.
  apply (QCMaker_append_sound committee net_wf 4 net_size net_stake net_total _ [v0; v1] v2 true
           _ _ net_maker collected0_eq).
Defined.

Lemma valid_votes_make_qc_witness :
  exists q, (append_all committee true ([v0; v1] ++ [v2]) (QCMaker_new 4)).2 = Ok (Some q) /\
    qc_blk_hash q = vote_blk_hash v2 /\ qc_round q = vote_round v2 /\
    qc_kind q = VT_Normal /\ qc_fast_quorum q = false.
Proof.
  apply (valid_votes_make_qc committee net_wf 4 net_size net_stake net_total VT_Normal);
    [split; vdecide| |vm_compute; discriminate|vm_compute; reflexivity].
  repeat constructor; [exists 10|exists 11|exists 12]; vm_compute; by split.
Defined.

Lemma net_tc_maker :
  tm_inv committee 1 (TCMaker_append (timeout 1 1) committee
    (TCMaker_append (timeout 0 1) committee TCMaker_new).1).1.
Proof.
  do 2 (apply TCMaker_append_inv; [apply net_stake|apply net_total| |vm_compute; reflexivity]).
  apply TCMaker_new_inv.
Qed.

Definition made_tc (x : TCMaker * Outcome ConsensusError (Stake * option TC)) : Stake * TC :=
  match x.2 with Ok (w, Some tc) => (w, tc) | _ => (0, tc1) end.
Definition assembled_run :=
  TCMaker_append (timeout 2 1) committee
    (TCMaker_append (timeout 1 1) committee (TCMaker_append (timeout 0 1) committee TCMaker_new).1).1.
Lemma assembled_eq :
  TCMaker_append (timeout 2 1) committee
    (TCMaker_append (timeout 1 1) committee (TCMaker_append (timeout 0 1) committee TCMaker_new).1).1 =
  (assembled_run.1, Ok ((made_tc assembled_run).1, Some (made_tc assembled_run).2)).
Proof.
  assert (Hmade : forall x, match x.2 with Ok (_, Some _) => true | _ => false end = true ->
                    x = (x.1, Ok ((made_tc x).1, Some (made_tc x).2))).
  { intros [a [[w [q|]]| | |]]; try discriminate. reflexivity. }
  unfold assembled_run. apply Hmade. vm_compute. reflexivity.
Qed.

Lemma assembled_tc_is_well_formed_witness :
  tc_round (made_tc assembled_run).2 = 1 /\ TC_is_well_formed committee (made_tc assembled_run).2 = Ok tt.
Proof.
  apply (assembled_tc_is_well_formed committee 1 net_stake net_total (timeout 2 1) _ _ _ _
           ltac:(vm_compute; discriminate) net_tc_maker ltac:(vm_compute; reflexivity) assembled_eq).
Defined.

Definition collected1 := add_normal_vote v2 (agg_run committee [Op_normal v0; Op_normal v1]).
Definition collected2 :=
  add_normal_vote v2 (agg_run committee [Op_normal v3; Op_cleanup_timeouts 0; Op_normal v0]).

Lemma collected1_eq :
  add_normal_vote v2 (agg_run committee [Op_normal v0; Op_normal v1]) =
  (collected1.1, Ok (Some (made_qc collected1))).
Proof. unfold collected1. apply makes_qc_eq. vm_compute. reflexivity. Qed.
Lemma collected2_eq :
  add_normal_vote v2 (agg_run committee [Op_normal v3; Op_cleanup_timeouts 0; Op_normal v0]) =
  (collected2.1, Ok (Some (made_qc collected2))).
Proof. unfold collected2. apply makes_qc_eq. vm_compute. reflexivity. Qed.

Lemma qcs_agree_witness : qc_blk_hash (made_qc collected1) = qc_blk_hash (made_qc collected2).
Proof.
  apply (qcs_agree committee net_wf net_size net_stake net_total 4 1 0 0
    [Op_normal v0; Op_normal v1] [Op_normal v3; Op_cleanup_timeouts 0; Op_normal v0]
    v2 v2 collected1.1 collected2.1 _ _ {[key 3]} net_resilient net_configured
    collected1_eq collected2_eq);
    [reflexivity|reflexivity|reflexivity|vm_compute; discriminate|].
  intros x y Hx Hy _ _ _ _. transitivity (digest b1).
  - apply (Forall_forall (fun v => vote_blk_hash v = digest b1) [v0; v1; v2]); [|exact Hx].
    repeat constructor.
  - symmetry. apply (Forall_forall (fun v => vote_blk_hash v = digest b1) [v3; v0; v2]); [|exact Hy].
    repeat constructor.
Defined.

(** ** Leader election *)
Lemma net_dense : ids_dense committee.
Proof. apply eq_Permutation. vm_compute. reflexivity. Qed.

Lemma electors_round_robin_witness :
  exists e, LeaderElector_new (E := unit) FailureWorstCase committee = Ok e /\
    forall r, 0 <= r -> leaders e r (committee_size committee) ≡ₚ map Some (get_public_keys committee).
Proof.
  apply (electors_round_robin committee FailureWorstCase);
    [vm_compute; lia|exact net_dense|vdecide|right; right; right; left|discriminate|
     intros _; vm_compute; lia].
Defined.

Lemma fair_succession_witness :
  exists e, LeaderElector_new (E := unit) FairSuccession committee = Ok e /\
    (forall r name, 0 <= r -> name ∈ get_public_keys committee ->
       length (filter (fun o => o = Some name) (leaders e r 12)) = 3%nat) /\
    (forall a b, a ∈ get_public_keys committee -> b ∈ get_public_keys committee -> a <> b ->
       exists! p, (p < 12)%nat /\
         forall r, 0 <= r -> r `mod` 12 = Z.of_nat p ->
           get_leader e r = Some a /\ get_leader e (r + 1) = Some b).
Proof. apply (fair_succession committee); [vm_compute; lia|vdecide]. Defined.

Definition alone : Committee :=
  mkCommittee [authority 0] [] 0 0 0 0 0 0 0 0 0 0.

(** ** The store, the proposer and the synchronizer *)
Definition read_first : Store := (store_handle (SC_NotifyRead [1] 7) (Store_new ∅)).1.

Lemma notify_read_answered_witness :
  let s2 := (store_run [SC_Write [2] [5]; SC_NotifyRead [1] 9] read_first).1 in
  let s3 := store_handle (SC_Write [1] [6]) s2 in
  waiting [1] s3.1 = [] /\
  exists later, s3.2 = map (fun x => SR_Notify x (inr [6])) ([] ++ [7%nat] ++ later).
Proof.
  apply (notify_read_answered [1] 7 [6] [SC_Write [2] [5]; SC_NotifyRead [1] 9] (Store_new ∅));
    [reflexivity|]. repeat constructor; intros [value Heq]; discriminate.
Defined.

Definition proposer : ProposerConfig := mkProposerConfig (key 1) false committee 50 2 (secret 1).
Definition buffered : PrState :=
  pr_set_buffer [Certificate_default; Certificate_default; Certificate_default]
    (Proposer_spawn proposer 0).

Lemma propose_is_well_formed_witness :
  exists s' p, propose proposer (PT_QC QC_genesis) buffered = (s', Ok tt) /\
    proposal_is_well_formed proposer p = Ok tt /\
    blk_author (proposal_block p) = key 1 /\ blk_round (proposal_block p) = 1 /\
    pr_trace s' = PE_Broadcast (proposal_addresses proposer) (CM_Propose p) :: PE_ToCore p :: pr_trace buffered /\
    pr_in_progress s' = <[1 := proposal_addresses proposer]> (pr_in_progress buffered) /\
    (length (blk_payload (proposal_block p)) <= 2)%nat /\
    (false = false -> blk_payload (proposal_block p) ++ pr_buffer s' = pr_buffer buffered).
Proof.
  apply (propose_is_well_formed proposer (toy_keypair (key_bytes (key 1)) eq_refl) eq_refl (PT_QC QC_genesis)).
  split; [vm_compute; discriminate|reflexivity].
Defined.

Lemma sync_nothing_forgotten_witness :
  sync_inv (foldl (fun s e => (sync_step (key 0) committee 10 e.1 e.2 s).1) SyncTask_new
    [(0, SyEv_Request (mkSyncRequest (digest b1) (key 1) (Some b2)));
     (5, SyEv_Request (mkSyncRequest (digest b1) (key 1) (Some b3)));
     (20, SyEv_Timer); (21, SyEv_Waiter 0 true)]).
Proof. apply sync_nothing_forgotten. repeat constructor; intros i; discriminate. Defined.

Definition requested : SyncTask :=
  (sync_step (key 0) committee 10 0 (SyEv_Request (mkSyncRequest (digest b1) (key 1) (Some b2)))
     SyncTask_new).1.

Lemma sync_yields_highest_witness :
  let s1 := (sync_step (key 0) committee 10 5
               (SyEv_Request (mkSyncRequest (digest b1) (key 1) (Some b3))) requested).1 in
  let s2 := (sync_step (key 0) committee 10 5 (SyEv_Waiter 0 true) s1).1 in
  exists b, (b = b2 \/ b = b3) /\ Z.max (blk_round b2) (blk_round b3) = blk_round b /\
    sy_trace s2 = SE_Loopback b :: sy_trace requested /\
    sy_loopbacks s2 !! digest b1 = None /\ sy_requests s2 !! digest b1 = None.
Proof.
  assert (H1 : sy_requests requested !! digest b1 = Some 0) by (vm_compute; reflexivity).
  assert (H2 : sy_loopbacks requested !! digest b1 = Some b2) by (vm_compute; reflexivity).
  assert (H3 : sy_waiting requested !! 0%nat = Some (digest b1)) by (vm_compute; reflexivity).
  exact (sync_yields_highest (key 0) committee 10 5 (key 1) (digest b1) b3 b2 requested 0
           (mk_is_Some _ _ H1) H2 H3).
Defined.

(** ** Runs of a node *)

(** The run starts without a panic and handles all its inputs. *)
Definition runs_ok (cfg : CoreConfig) (inputs : list (Z * CoreEvent)) : bool :=
  alive (boot cfg (Core_spawn cfg (Store_new ∅) 0)).2 &&
  match run cfg inputs (start cfg) with Some _ => true | None => false end.
Lemma runs_reachable cfg inputs : runs_ok cfg inputs = true -> reachable cfg true (after cfg inputs).
Proof.
  intros [Ha Hr]%andb_prop. apply after_reachable; [exact Ha|].
  destruct (run cfg inputs (start cfg)); [by eexists|discriminate].
Qed.

(** An equivocating leader in round 1, votes, QCs and a commit, then a vote in
    round 2. *)
Definition b1x : Block :=
  default Block_genesis
    (Block_new (key 1) (digest Block_genesis) [Certificate_default] 1 (secret 1)).
Definition committed : list (Z * CoreEvent) :=
  (0, proposal b1 QC_genesis) :: (0, proposal b1x QC_genesis) :: map (pair 1) (votes VT_Normal b1 [1; 2]) ++
  map (pair 1) (votes VT_Commit b1 [1; 2]) ++ [(2, proposal b2 qc1)].
(** A timeout in round 1, the QC of that round, a vote in round 2, and timeouts
    of authority 3 for round 1 at times 103, 104 and 203. *)
Definition late : list (Z * CoreEvent) :=
  [(0, proposal b1 QC_genesis); (100, Ev_Timer); (101, Ev_Message (CM_QC qc1)); (102, proposal b2 qc1)] ++
  map (fun at_ => (at_, Ev_Message (CM_Timeout (timeout 3 1)))) [103; 104; 203].

Definition node : CoreConfig := config 0.
Lemma committed_reachable : reachable node true (after node committed).
Proof. apply runs_reachable. vm_compute. reflexivity. Qed.
Lemma late_reachable : reachable node true (after node late).
Proof. apply runs_reachable. vm_compute. reflexivity. Qed.

(** [tac] finds an effect of a run by its position. *)
Ltac effect_at i := apply (list_elem_of_lookup_2 _ i); vm_compute; reflexivity.
Definition peers : list SocketAddr := others_consensus_sockets committee (key 0).

Definition voted : Vote := vote 0 VT_Normal b1.
Definition voted_commit : Vote := vote 0 VT_Commit b1.
Definition timed_out : Timeout :=
  default (timeout 0 1) (Timeout_new voted QC_genesis WQC_genesis 1 (key 0) (secret 0)).

Lemma no_equivocation_witness :
  vote_blk_hash voted = vote_blk_hash voted.
Proof.
  apply (no_equivocation node true (after node committed)); try reflexivity;
    [exact committed_reachable|exists peers; effect_at 8%nat..].
Defined.

Lemma one_commit_vote_per_round_witness : voted_commit = voted_commit.
Proof.
  apply (one_commit_vote_per_round node true (after node committed)); try reflexivity;
    [exact committed_reachable|exists peers; effect_at 6%nat..].
Defined.

Lemma no_vote_after_timeout_witness :
  to_round timed_out < vote_round (vote 0 VT_Normal b2).
Proof.
  apply (no_vote_after_timeout node true (after node late)
           (take 3 (effects (after node late))) _ (drop 4 (effects (after node late))));
    [exact late_reachable|vm_compute; reflexivity|effect_at 4%nat].
Defined.

Lemma timeout_reports_votes_witness : vote_round voted <= vote_round (to_high_vote timed_out).
Proof.
  apply (timeout_reports_votes node true (after node late) timed_out voted);
    [exact late_reachable|exists peers; effect_at 7%nat|exists peers; effect_at 9%nat|].
  vm_compute. discriminate.
Defined.

Lemma commit_vote_locks_witness : 1 <= qc_round (co_locked (after node committed)).
Proof.
  apply (commit_vote_locks node true (after node committed) voted_commit);
    [exact committed_reachable|exists peers; effect_at 6%nat|reflexivity].
Defined.

Lemma ledger_append_only_witness :
  chain (digest Block_genesis) (ledger (after node committed)) /\
  tip (digest Block_genesis) (ledger (after node committed)) = digest (co_last_commit (after node committed)) /\
  exists bs, ledger (handle_event node (proposal b3 qc2) (after node committed)).1 =
               ledger (after node committed) ++ bs /\
    chain (digest (co_last_commit (after node committed))) bs /\
    Forall (fun b => blk_round (co_last_commit (after node committed)) < blk_round b) bs.
Proof. apply (ledger_append_only node), committed_reachable. Defined.

Lemma handle_event_progress_witness :
  progress (after node committed) (handle_event node (proposal b3 qc2) (after node committed)).1.
Proof. apply (handle_event_progress node), committed_reachable. Defined.

Lemma handle_event_refines_witness :
  rtc (step node LAll) (after node committed)
    (handle_event node (proposal b3 qc2) (after node committed)).1.
Proof. apply (handle_event_refines node), committed_reachable. Defined.

(** Authority 1 leads round 1 and proposes as it starts. *)
Lemma proposes_only_as_leader_witness : get_leader elector 1 = Some (key 1).
Proof.
  apply (proposes_only_as_leader (config 1) true (after (config 1) []) (PT_QC QC_genesis));
    [apply runs_reachable; vm_compute; reflexivity|effect_at 0%nat].
Defined.

Lemma tc_is_never_sent_witness :
  ~ broadcasts (CM_TC tc1) (after node late) /\
  (forall address, Ef_Send address (CM_TC tc1) ∉ effects (after node late)) /\
  (forall peer address, Ef_SyncPeer peer address (CM_TC tc1) ∉ effects (after node late)).
Proof. apply (tc_is_never_sent node true), late_reachable. Defined.

(** Of the three timeouts the second one is too early. *)
Lemma sync_peer_rate_limited_witness : 100 <= 203 - 103.
Proof.
  apply (sync_peer_rate_limited node true (after node late)
    [] (tail (co_trace (after node late))) 103 203 (key 3) (addr 3) (addr 3) (CM_QC qc1) (CM_QC qc1));
    [exact late_reachable|vm_compute; reflexivity|effect_at 0%nat].
Defined.

Lemma votes_for_valid_proposal_witness :
  Ef_LogVote voted ∈ effects (handle_event node (proposal b1 QC_genesis) (after node [])).1.
Proof.
  apply (votes_for_valid_proposal node true (after node []) (mkNormalProposal b1 QC_genesis));
    [apply runs_reachable; vm_compute; reflexivity|left; vm_compute; discriminate|
     vm_compute; reflexivity|].
  split; try (vm_compute; reflexivity); [vdecide|left; reflexivity].
Defined.

Lemma forged_tc_gets_vote_witness :
  TC_is_well_formed committee (forged_tc (digest Block_genesis) 0) = Err CE_TCRequiresQuorum /\
  Ef_LogVote voted ∈ effects (handle_event node (Ev_Message (CM_Propose (PM_F
    (mkFallbackRecoveryProposal b1 (forged_tc (digest Block_genesis) 0))))) (after node [])).1.
Proof.
  apply (forged_tc_gets_vote node true (after node []) b1);
    [apply runs_reachable; vm_compute; reflexivity| |vm_compute; reflexivity|vm_compute; reflexivity].
  split; try (vm_compute; reflexivity); [vdecide|left; reflexivity].
Defined.

(** A node that holds two uncommitted blocks gets the commit certificate of the
    second. *)
Definition informed : Core := after node [(1, proposal b1 QC_genesis); (2, proposal b2 qc1)].
Lemma informed_tip : tip_held informed.
Proof. exists Block_genesis. split; [vm_compute; reflexivity|left; vm_compute; reflexivity]. Qed.
Lemma informed_held : held informed ([b1] ++ [b2]).
Proof.
  split.
  - split; [vm_compute; reflexivity|split; [reflexivity|exact I]].
  - repeat constructor; vm_compute; reflexivity.
  - repeat (apply Forall_cons; split; [vm_compute; reflexivity|]). apply Forall_nil_2.
Qed.
Lemma commit_qc_commits_witness :
  exists s', handle_event node (Ev_Message (CM_QC (qc VT_Commit b2 [0; 1; 2]%nat))) informed = (s', Ok tt) /\
    ledger s' = ledger informed ++ [b1] ++ [b2] /\ co_last_commit s' = b2 /\
    effects s' = reverse (concat (map (commit_effects node) ([b1] ++ [b2]))) ++ effects informed.
Proof.
  apply (commit_qc_commits node true informed (qc VT_Commit b2 [0; 1; 2]%nat) [b1] b2).
  - apply runs_reachable. vm_compute. reflexivity.
  - exact informed_tip.
  - exact informed_held.
  - left. reflexivity.
  - reflexivity.
  - vm_compute. reflexivity.
  - vm_compute. reflexivity.
  - vm_compute. reflexivity.
Defined.

Lemma commit_votes_commit_witness :
  ledger (receive_votes node ([vote 3 VT_Commit b2; vote 1 VT_Commit b2] ++ [vote 2 VT_Commit b2]) informed) =
    ledger informed ++ [b1] ++ [b2] /\
  co_last_commit (receive_votes node ([vote 3 VT_Commit b2; vote 1 VT_Commit b2] ++ [vote 2 VT_Commit b2]) informed) = b2.
Proof.
  apply (commit_votes_commit node net_wf net_size net_stake net_total true).
  - apply runs_reachable. vm_compute. reflexivity.
  - exact informed_tip.
  - exact informed_held.
  - vm_compute. reflexivity.
  - vm_compute. reflexivity.
  - vm_compute. reflexivity.
  - split; [split; vdecide|]. repeat (apply Forall_cons; split; [by split|]). apply Forall_nil_2.
  - repeat constructor; [exists 13|exists 11|exists 12]; vm_compute; by split.
  - vm_compute. reflexivity.
Defined.

(** The same node, restarted on its storage, gets the certificate of the first. *)
Definition restarted : Core := (boot node (Core_spawn node (co_store informed) 3)).1.
Lemma stored_block_stops_node_witness :
  exists msg, (handle_event node (Ev_Message (CM_QC qc1)) restarted).2 = Panicked msg.
Proof.
  apply (stored_block_stops_node node restarted qc1 b1); vm_compute; reflexivity.
Defined.

(** The node holds the genesis block, and [b1] once it was proposed. *)
Lemma stored_cases db d b :
  stored (mkStore db ∅) d = Some b ->
  b = Block_genesis \/ exists bytes, db_get db (digest_bytes d) = inr (Some bytes) /\ block_decode bytes = Some b.
Proof.
  unfold stored, sync_get_block, store_read. case_decide; [intros [= <-]; by left|].
  cbn [st_db]. destruct (db_get db (digest_bytes d)) as [e|[bytes|]]; [done| |done].
  destruct (block_decode bytes) eqn:Hd; [|done]. intros [= <-]. right. by exists bytes.
Qed.

Lemma toy_get (db : gmap (list Z) (list Z)) k v :
  db_get (db : Db) k = inr (Some v) -> db !! k = Some v.
Proof. by intros [= ?]. Qed.

Definition spawned : Core := Core_spawn node (Store_new ∅) 0.
Lemma spawned_frame : frame spawned (after node []).
Proof.
  apply (steps_frame node LVote); [discriminate|].
  assert (Hk : keeps (Steps node LVote) (boot node)).
  { unfold boot. apply keeps_bind; [apply Steps_preorder|apply timer_reset_keeps|intros _].
    apply propose_normal_keeps. }
  apply (Hk spawned), core_inv_spawn.
Qed.

(** The first block comes after the genesis block. *)
Definition height (b : Block) : Z := Z.min (blk_round b) 1.
Lemma height_bound b : height b < 2 ^ 256.
Proof. unfold height. lia. Qed.

Lemma links_genesis_b1 s :
  (forall b, known s b -> b = Block_genesis \/ b = b1) ->
  (forall p, co_uncommitted_blocks s !! digest Block_genesis = Some p -> p = Block_genesis) ->
  co_last_commit s = Block_genesis -> links_ok height s.
Proof.
  intros Hk Hp Hc b p Hb. rewrite Hc. destruct (Hk b Hb) as [->| ->]; [intros Hlt; by vm_compute in Hlt|].
  intros _. change (height b1) with 1.
  assert (Hg : 0 <= height Block_genesis < 1) by (vm_compute; split; congruence).
  assert (blk_parent b1 = digest Block_genesis) as Hpar by (vm_compute; reflexivity).
  unfold parent_of. rewrite Hpar. intros [->%Hp|Hst]; [exact Hg|].
  unfold stored, sync_get_block in Hst. rewrite decide_True in Hst by reflexivity.
  injection Hst as <-. exact Hg.
Qed.

Lemma spawned_blocks d b : co_uncommitted_blocks spawned !! d = Some b -> b = Block_genesis.
Proof.
  change (co_uncommitted_blocks spawned) with ({[ digest Block_genesis := Block_genesis ]} : gmap Digest Block).
  by intros [_ <-]%lookup_singleton_Some.
Qed.

Lemma spawned_known b : known spawned b -> b = Block_genesis.
Proof.
  intros [[d Hd]|[d Hd]].
  - by apply spawned_blocks in Hd.
  - apply stored_cases in Hd as [->|(bytes & Hb & _)]; [done|].
    apply (toy_get ∅) in Hb. by rewrite lookup_empty in Hb.
Qed.

Lemma links_spawned : links_ok height spawned.
Proof.
  apply links_genesis_b1; [|intros p Hp|reflexivity].
  - intros b Hb. left. by apply spawned_known.
  - by apply spawned_blocks in Hp.
Qed.

Lemma added_blocks d b :
  co_uncommitted_blocks (add_block b1 spawned) !! d = Some b ->
  (digest b1 = d /\ b = b1) \/ b = Block_genesis.
Proof.
  change (co_uncommitted_blocks (add_block b1 spawned))
    with (<[digest b1 := b1]> (co_uncommitted_blocks spawned)).
  intros [[<- <-]|[_ Hd]]%lookup_insert_Some; [by left|right]. by apply spawned_blocks in Hd.
Qed.

Lemma genesis_not_b1 : digest b1 <> digest Block_genesis.
Proof. vdecide. Qed.

Lemma links_b1 : links_ok height (add_block b1 spawned).
Proof.
  apply links_genesis_b1; [|intros p Hp|reflexivity].
  - intros b [[d Hd]|[d Hd]].
    + apply added_blocks in Hd as [[_ ->]| ->]; [by right|by left].
    + change (stored (mkStore (<[digest_bytes (digest b1) := block_encode b1]>
                (∅ : gmap (list Z) (list Z))) ∅) d = Some b) in Hd.
      apply stored_cases in Hd as [->|(bytes & Hb & Hdec)]; [by left|right].
      apply toy_get, lookup_insert_Some in Hb as [[_ <-]|[_ Hb]]; [|by rewrite lookup_empty in Hb].
      pose proof (block_decode_encode b1) as He. rewrite He in Hdec. by injection Hdec.
  - apply added_blocks in Hp as [[Heq _]| ->]; [by destruct (genesis_not_b1 Heq)|done].
Qed.

Lemma handle_event_terminates_witness :
  (handle_event node (proposal b1 QC_genesis) (after node [])).2 <> OutOfFuel.
Proof.
  apply (handle_event_terminates node height height_bound); [apply runs_reachable; vm_compute; reflexivity|..].
  - apply (links_frame height spawned); [exact spawned_frame|exact links_spawned].
  - apply (links_add_frame height b1 spawned); [exact spawned_frame|exact links_b1].
Defined.
