(* ===== verification/Scripts.v ===== *)
(** * Scripts: executions of a network of four that evaluation verifies

    Authorities 0, 1 and 2 are honest, 3 is Byzantine.  A script is a list of
    deliveries to nodes and of moments; [play] runs it on the cores and checks that
    every delivery is allowed, so that what it returns was reached by an
    [execution] of [GlobalSafety]. *)
From S2P Require Import Prelude Crypto Config BitVec DagMessages Messages Signers Leader Store Proposer Synchronizer Mempool Aggregator AggregatorProps DagCore Executor Core CoreSteps CoreProps CoreTermination ConsensusTasks Replication Safety AggregatorVetted CoreVetted GlobalSafety Instances Witnesses.
Import Net.

Definition byzantine : gset PublicKey := {[key 3]}.
Definition node_config (x : PublicKey) : CoreConfig :=
  mkCoreConfig x committee false elector 100 (mkSecretKey (key_bytes x)) (10 + default 0 (head (key_bytes x))).
Definition network_start : Net := fun x => booted node_config x (Store_new ∅) 0.

#[export] Instance toy_g1_eq_dec : EqDecision (@G1 toy_prim) := Z.eq_dec.
#[export] Instance Certificate_eq_dec : EqDecision Certificate.
Proof. solve_decision. Defined.
#[export] Instance Block_eq_dec : EqDecision Block.
Proof. solve_decision. Defined.
#[export] Instance Vote_eq_dec : EqDecision Vote.
Proof. solve_decision. Defined.

#[export] Instance QC_eq_dec : EqDecision QC.
Proof. solve_decision. Defined.
#[export] Instance WQC_eq_dec : EqDecision WQC.
Proof. solve_decision. Defined.
#[export] Instance TC_eq_dec : EqDecision TC.
Proof. solve_decision. Defined.

(** The blocks and the TCs of fallback proposals; commit votes are cast for one
    block of a round. *)
Section blocks.
Context (blocks : list Block) (tcs : list TC).

Definition occurs (b : Block) : Prop := b ∈ blocks.
Definition carried (tc : TC) : Prop := tc ∈ tcs.
Definition cast (v : Vote) : Prop :=
  vote_kind v = VT_Commit -> (vote_round v, vote_blk_hash v) ∈ map (fun b => (blk_round b, digest b)) blocks.
#[export] Instance cast_dec v : Decision (cast v).
Proof. unfold cast. apply _. Defined.

Definition distinct_blocks : Prop := NoDup (map digest blocks) /\ NoDup (map blk_round blocks).

Lemma mapped_inj {A} `{EqDecision A} (f : Block -> A) b b' :
  NoDup (map f blocks) -> b ∈ blocks -> b' ∈ blocks -> f b = f b' -> b = b'.
Proof.
  intros Hnd (i & Hi)%list_elem_of_lookup (j & Hj)%list_elem_of_lookup Heq.
  assert (i = j) as <-; [|congruence].
  apply (NoDup_lookup _ i j (f b) Hnd); rewrite list_lookup_fmap; [by rewrite Hi|].
  by rewrite Hj, Heq.
Qed.
Lemma same_block_refl b : same_block b b.
Proof. repeat split; reflexivity. Qed.
Lemma occurs_digest b b' : distinct_blocks -> occurs b -> occurs b' -> digest b = digest b' -> same_block b b'.
Proof. intros [Hd _] Hb Hb' Heq. rewrite (mapped_inj _ _ _ Hd Hb Hb' Heq). apply same_block_refl. Qed.
Lemma cast_unforged : distinct_blocks -> unforged committee byzantine cast.
Proof.
  intros [_ Hr] vs v Hs _ Hk _ x Hx _. rewrite Forall_forall in Hs, Hk.
  assert (Hv : v ∈ vs ++ [v]) by set_solver.
  destruct (Hk x Hx) as [Hkx Hrx], (Hk v Hv) as [Hkv _].
  destruct (proj1 (list_elem_of_fmap _ _ _) (Hs x Hx Hkx)) as (b & [= Hbr Hbd] & Hb).
  destruct (proj1 (list_elem_of_fmap _ _ _) (Hs v Hv Hkv)) as (b' & [= Hbr' Hbd'] & Hb').
  rewrite Hbd, Hbd'. f_equal. apply (mapped_inj _ _ _ Hr Hb Hb'). congruence.
Qed.
Lemma empty_store_ok : occurs Block_genesis -> store_ok occurs (Store_new ∅).
Proof.
  intros Hgen d b Hb. destruct (stored_cases ∅ d b Hb) as [->|(bytes & Hbytes & _)]; [|done].
  split; [done|]. unfold stored, sync_get_block in Hb. by case_decide.
Qed.

(** ** Deciding what may be delivered *)
Section checker.
Context (w : World).

Definition signed (v : Vote) : bool :=
  existsb (fun e => match e with Ef_LogVote v' => bool_decide (v = v') | _ => false end) (w (vote_author v)).
Definition has_voted (kd : VoteType) (d : Digest) (r : Round) (i : Z) : bool :=
  existsb (fun e => match e with
    | Ef_LogVote v => bool_decide (vote_kind v = kd) && bool_decide (vote_blk_hash v = d) && (vote_round v =? r)
    | _ => false end) (w (key i)).
Definition has_timed_out (tc : TC) (i : Z) : bool :=
  existsb (fun e => match e with
    | Ef_LogTimeout t => (to_round t =? tc_round tc) && (qc_round (to_high_qc t) <=? qc_round (tc_high_qc tc))
    | _ => false end) (w (key i)).
(** Two honest nodes and the Byzantine one are a quorum of any kind. *)
Definition two_honest (p : Z -> bool) : bool :=
  existsb (fun ij => p ij.1 && p ij.2) [(0, 1); (0, 2); (1, 2)].
Definition is_certified (kd : VoteType) (d : Digest) (r : Round) : bool := two_honest (has_voted kd d r).
Definition is_genuine (q : QC) : bool :=
  if qc_round q =? 0 then bool_decide (qc_blk_hash q = digest Block_genesis)
  else (0 <? qc_round q) && is_certified (qc_kind q) (qc_blk_hash q) (qc_round q).
Definition is_genuine_wqc (q : WQC) : bool :=
  (wqc_round q =? 0) && bool_decide (wqc_blk_hash q = digest Block_genesis).
Definition is_genuine_tc (tc : TC) : bool :=
  is_genuine (tc_high_qc tc) && is_genuine_wqc (tc_high_wqc tc) &&
  (qc_round (tc_high_qc tc) <=? tc_round tc) && (wqc_round (tc_high_wqc tc) <=? tc_round tc) &&
  two_honest (has_timed_out tc).
Definition may_deliver (ev : CoreEvent) : bool :=
  match ev with
  | Ev_Message (CM_Propose (PM_N p)) | Ev_Proposer (PM_N p) =>
      bool_decide (np_block p ∈ blocks) && is_genuine (np_qc p)
  | Ev_Message (CM_Propose (PM_F p)) | Ev_Proposer (PM_F p) =>
      bool_decide (fp_block p ∈ blocks) && bool_decide (fp_tc p ∈ tcs) && is_genuine_tc (fp_tc p)
  | Ev_Message (CM_QC q) => is_genuine q
  | Ev_Message (CM_Vote v) => (bool_decide (vote_author v = key 3) || signed v) && bool_decide (cast v)
  | Ev_Message (CM_Timeout t) => is_genuine (to_high_qc t)
  | Ev_Message (CM_TC tc) => is_genuine (tc_high_qc tc)
  | Ev_Message (CM_SyncResponse b) | Ev_Synchronizer b => bool_decide (b ∈ blocks)
  | Ev_Timer => true
  | _ => false
  end.

Lemma signed_sound v : signed v = true -> Ef_LogVote v ∈ w (vote_author v).
Proof.
  intros (e & He & Hv)%existsb_exists. destruct e; try done. apply bool_decide_eq_true in Hv as <-.
  by apply list_elem_of_In.
Qed.
Lemma has_voted_sound kd d r i : has_voted kd d r i = true -> Safety.voted w (key i) kd d r.
Proof.
  intros (e & He & Hv)%existsb_exists. destruct e as [v| | | | | | | | | |]; try done.
  apply andb_true_iff in Hv as [[Hk%bool_decide_eq_true Hd%bool_decide_eq_true]%andb_true_iff Hr%Z.eqb_eq].
  exists v. split_and!; [by apply list_elem_of_In|done..].
Qed.
Definition timed_out (tc : TC) (x : PublicKey) : Prop :=
  exists t, Ef_LogTimeout t ∈ w x /\ to_round t = tc_round tc /\ qc_round (to_high_qc t) <= qc_round (tc_high_qc tc).
Lemma has_timed_out_sound tc i : has_timed_out tc i = true -> timed_out tc (key i).
Proof.
  intros (e & He & Hv)%existsb_exists. destruct e as [|t| | | | | | | | |]; try done.
  apply andb_true_iff in Hv as [Hr%Z.eqb_eq Hq%Z.leb_le]. exists t. split_and!; [by apply list_elem_of_In|done..].
Qed.
Lemma two_honest_sound (p : Z -> bool) (P : PublicKey -> Prop) :
  (forall i, p i = true -> P (key i)) -> two_honest p = true ->
  exists X : gset PublicKey, X ⊆ Quorums.members committee /\ 3 <= Quorums.weight committee X /\
    forall x, x ∈ X -> x ∉ byzantine -> P x.
Proof.
  intros Hp ([i j] & Hij & [Hi%Hp Hj%Hp]%andb_true_iff)%existsb_exists. exists (three i j 3). split_and!.
  1,2: destruct Hij as [[= <- <-]|[[= <- <-]|[[= <- <-]|[]]]]; vdecide.
  intros x Hx HB. unfold three, byzantine in *. rewrite !elem_of_union, !elem_of_singleton in Hx.
  rewrite elem_of_singleton in HB. by destruct Hx as [[->| ->]| ->].
Qed.
Lemma is_certified_sound kd d r : is_certified kd d r = true -> certified committee byzantine w kd d r.
Proof.
  intros (X & Hm & Hw & HX)%(two_honest_sound _ (fun x => Safety.voted w x kd d r)); [|by apply has_voted_sound].
  exists X. split_and!; [done| |done]. by destruct kd.
Qed.
Lemma is_genuine_sound q : is_genuine q = true -> genuine committee byzantine w q.
Proof.
  unfold is_genuine. destruct (Z.eqb_spec (qc_round q) 0) as [Hr|_].
  - intros Hd%bool_decide_eq_true. by left.
  - intros [H0%Z.ltb_lt Hc%is_certified_sound]%andb_true_iff. by right.
Qed.
Lemma is_genuine_tc_sound tc : is_genuine_tc tc = true -> genuine_tc committee byzantine w tc.
Proof.
  intros [[[[Hq%is_genuine_sound Hw]%andb_true_iff Hr%Z.leb_le]%andb_true_iff Hr'%Z.leb_le]%andb_true_iff
    (X & Hm & Hx & HX)%(two_honest_sound _ (timed_out tc) (has_timed_out_sound tc))]%andb_true_iff.
  apply andb_true_iff in Hw as [Hw0%Z.eqb_eq Hwd%bool_decide_eq_true].
  split; [done|by left|done|]. by exists X.
Qed.
Lemma may_deliver_sound cfg ev :
  cc_committee cfg = committee -> may_deliver ev = true -> authentic cfg byzantine occurs carried cast w ev.
Proof.
  intros Hc.
  assert (Hn : forall p, bool_decide (np_block p ∈ blocks) && is_genuine (np_qc p) = true ->
            proposal_in cfg byzantine occurs carried w (PM_N p)).
  { intros p [Hb%bool_decide_eq_true Hq%is_genuine_sound]%andb_true_iff. unfold proposal_in. by rewrite Hc. }
  assert (Hf : forall p, bool_decide (fp_block p ∈ blocks) && bool_decide (fp_tc p ∈ tcs) && is_genuine_tc (fp_tc p) = true ->
            proposal_in cfg byzantine occurs carried w (PM_F p)).
  { intros p [[Hb%bool_decide_eq_true Ht%bool_decide_eq_true]%andb_true_iff Hq%is_genuine_tc_sound]%andb_true_iff. unfold proposal_in. by rewrite Hc. }
  destruct ev as [[p|v|v|t|q|tc|d o|b]|p|b|]; try done; cbn [may_deliver authentic]; rewrite ?Hc.
  - destruct p; auto.
  - intros [Hv Hs%bool_decide_eq_true]%andb_true_iff. split; [|done]. intros HB.
    apply orb_true_iff in Hv as [Hk%bool_decide_eq_true|Hv%signed_sound]; [|done].
    exfalso. apply HB. unfold byzantine. rewrite Hk. by apply elem_of_singleton.
  - apply is_genuine_sound.
  - apply is_genuine_sound.
  - apply is_genuine_sound.
  - by intros ?%bool_decide_eq_true.
  - destruct p; auto.
  - by intros ?%bool_decide_eq_true.
Qed.
End checker.

(** ** Playing a script *)
Inductive Turn :=
| Deliver (i : Z) (ev : CoreEvent)
| Wait (i now : Z).

Definition votes_cast (s : Core) : bool :=
  forallb (fun e => match e with Ef_LogVote v => bool_decide (cast v) | _ => true end) (effects s).
Lemma votes_cast_sound s : votes_cast s = true -> within cast s.
Proof.
  unfold votes_cast. intros Hall v Hv%list_elem_of_In. rewrite forallb_forall in Hall.
  specialize (Hall _ Hv). by apply bool_decide_eq_true in Hall.
Qed.
Definition is_enabled (ev : CoreEvent) (s : Core) : bool :=
  match ev with Ev_Timer => co_timer s <=? co_now s | _ => true end.
Lemma is_enabled_sound ev s : is_enabled ev s = true -> enabled ev s.
Proof. destruct ev; try done. intros ?%Z.leb_le. done. Qed.

(** The next state of the network, if the turn is allowed. *)
Definition take_turn (t : Turn) (g : Net) : option Net :=
  match t with
  | Deliver i ev =>
      let node := g (key i) in
      let node' := handled node_config (key i) ev node.2 in
      if bool_decide (key i <> key 3) && node.1 && is_enabled ev node.2 && may_deliver (world g) ev &&
         votes_cast node'.2
      then Some (update (key i) node' g) else None
  | Wait i now =>
      let node := g (key i) in
      if bool_decide (key i <> key 3) && node.1 && (co_now node.2 <=? now)
      then Some (update (key i) (true, set_now now node.2) g) else None
  end.
Fixpoint play (script : list Turn) (g : Net) : option Net :=
  match script with
  | [] => Some g
  | t :: script' => match take_turn t g with Some g' => play script' g' | None => None end
  end.

Lemma take_turn_execution t g g' :
  execution byzantine node_config occurs carried cast g -> take_turn t g = Some g' ->
  execution byzantine node_config occurs carried cast g'.
Proof.
  intros Hg. assert (Hhonest : forall i, key i <> key 3 -> key i ∉ byzantine).
  { intros i. unfold byzantine. by rewrite elem_of_singleton. }
  destruct t as [i ev|i now]; cbn [take_turn]; destruct (_ && _) eqn:Hok; try done; intros [= <-].
  - apply andb_true_iff in Hok as [[[[Hi%bool_decide_eq_true Ha]%andb_true_iff
      He%is_enabled_sound]%andb_true_iff Hev]%andb_true_iff Hc%votes_cast_sound].
    apply ex_event; auto. by apply may_deliver_sound.
  - apply andb_true_iff in Hok as [[Hi%bool_decide_eq_true Ha]%andb_true_iff Hle%Z.leb_le].
    apply ex_time; auto.
Qed.
Lemma play_execution script g g' :
  execution byzantine node_config occurs carried cast g -> play script g = Some g' ->
  execution byzantine node_config occurs carried cast g'.
Proof.
  revert g. induction script as [|t script IH]; intros g Hg; [by intros [= <-]|]. cbn [play].
  destruct (take_turn t g) as [g1|] eqn:Ht; [|done]. apply IH. by eapply take_turn_execution.
Qed.
Definition succeeds {A} (o : option A) : bool := match o with Some _ => true | None => false end.
Definition played (script : list Turn) : Net := default network_start (play script network_start).
Lemma played_execution script :
  occurs Block_genesis -> succeeds (play script network_start) = true ->
  execution byzantine node_config occurs carried cast (played script).
Proof.
  intros Hgen. unfold played. destruct (play script network_start) as [g|] eqn:Hp; [|done]. intros _.
  eapply play_execution; [|exact Hp]. apply (ex_boot _ _ _ _ _ (fun _ => Store_new ∅) (fun _ => 0)).
  intros _. by apply empty_store_ok.
Qed.
End blocks.

Definition deliver_votes (to : Z) (kd : VoteType) (b : Block) (signers : list Z) : list Turn :=
  map (Deliver to) (votes kd b signers).
Definition propose_to (to : list Z) (b : Block) (q : QC) : list Turn :=
  map (fun i => Deliver i (proposal b q)) to.
Definition deliver_qc (to : list Z) (q : QC) : list Turn :=
  map (fun i => Deliver i (Ev_Message (CM_QC q))) to.
