(* ===== verification/FastFork.v ===== *)
(** * FastFork: why [GlobalSafety] is about slow commits

    Two executions with one Byzantine authority of four in which honest nodes
    commit conflicting blocks, the first of them by a fast quorum.  In one the weak
    certificate that must carry a fast commit through a timeout is lost because one
    timeout of the round reports a vote for another block: [TCMaker::check_wqc]
    groups the reported votes by their round only.  In the other all votes of a
    round are for one block, but nodes commit on a certificate of a fast quorum
    that a peer sent, which they neither lock nor can lock any more. *)
From S2P Require Import Prelude Crypto Config BitVec DagMessages Messages Signers Leader Store Proposer Synchronizer Mempool Aggregator AggregatorProps DagCore Executor Core CoreSteps CoreProps CoreTermination ConsensusTasks Replication Safety AggregatorVetted CoreVetted GlobalSafety Instances Witnesses Scripts.
Import Net.

(** Everything that [slow_commit_safety] assumes. *)
Definition meets_assumptions (blocks : list Block) (tcs : list TC) (g : GlobalSafety.Net) : Prop :=
  execution byzantine node_config (occurs blocks) (carried tcs) (cast blocks) g /\
  Quorums.resilient 4 1 0 0 /\ Quorums.configured committee 4 1 0 0 /\
  Quorums.weight committee byzantine <= 1 /\
  (forall b b', occurs blocks b -> occurs blocks b' -> digest b = digest b' -> same_block b b') /\
  unforged committee byzantine (cast blocks).
Lemma played_meets_assumptions blocks tcs script :
  occurs blocks Block_genesis -> distinct_blocks blocks ->
  succeeds (play blocks tcs script network_start) = true ->
  meets_assumptions blocks tcs (played blocks tcs script).
Proof.
  intros Hgen Hd Hp. split; [by apply played_execution|]. split; [apply net_resilient|].
  split; [apply net_configured|]. split; [vm_compute; discriminate|].
  split; [intros b b'; by apply occurs_digest|by apply cast_unforged].
Qed.

(** The block of round 2 beside [b1]. *)
Definition rival : Block := block 2 (digest Block_genesis).
Definition fork_blocks : list Block := [Block_genesis; b1; rival].

(** A vote of the Byzantine node for the rival in round 1, and a timeout that
    reports it. *)
Definition stray_vote : Vote := Vote_new (key 3) (digest rival) VT_Normal 1 13.
Definition stray_timeout : option Timeout := Timeout_new stray_vote QC_genesis WQC_genesis 1 (key 3) (secret 3).
Definition deliver_timeout (to : Z) (t : option Timeout) : list Turn :=
  match t with Some t => [Deliver to (Ev_Message (CM_Timeout t))] | None => [] end.

(** Round 1: everyone votes for [b1], and node 0 gets all the votes; nodes 1 and 2
    time out. *)
Definition round_one : list Turn :=
  propose_to [0; 1; 2] b1 QC_genesis ++ deliver_votes 0 VT_Normal b1 [1; 2; 3] ++
  [Wait 1 101; Wait 2 101; Deliver 1 Ev_Timer; Deliver 2 Ev_Timer].
Definition logged_timeout (es : list Effect) : option Timeout :=
  head (omap (fun e => match e with Ef_LogTimeout t => Some t | _ => None end) es).
Definition timeout1 : option Timeout := logged_timeout (world (played fork_blocks [] round_one) (key 1)).

(** Node 2, the next leader, makes a TC of the three timeouts and wants a
    proposal on it. *)
Definition timeouts : list Turn := deliver_timeout 2 timeout1 ++ deliver_timeout 2 stray_timeout.
Definition tc_to_propose (es : list Effect) : option TC :=
  head (omap (fun e => match e with Ef_Proposer (PM_Propose (PT_TC tc)) => Some tc | _ => None end) es).
Definition tc1 : option TC := tc_to_propose (world (played fork_blocks [] (round_one ++ timeouts)) (key 2)).
Definition fork_tcs : list TC := option_list tc1.
Definition recovery : list Turn :=
  match tc1 with
  | Some tc => map (fun i => Deliver i (Ev_Message (CM_Propose (PM_F (mkFallbackRecoveryProposal rival tc))))) [2; 1]
  | None => []
  end.

(** Round 2: the rival gets a prepare quorum and a slow commit quorum. *)
Definition round_two : list Turn :=
  deliver_votes 1 VT_Normal rival [2; 3] ++ deliver_qc [2] (qc VT_Normal rival [1; 2; 3]%nat) ++
  deliver_votes 1 VT_Commit rival [2; 3].
Definition fork : list Turn := round_one ++ timeouts ++ recovery ++ round_two.

(** C9: a fast commit is not safe as the code stands: in a network of four with
    one Byzantine authority, which sends a vote and a timeout, and under all the
    assumptions of the safety of slow commits, an honest node commits a block by a
    fast quorum and another one commits a conflicting block of the next round.
    The next leader is honest, and its TC made of the timeouts it received has
    lost the fast commit. *)
Theorem fast_commit_forks :
  let g := played fork_blocks fork_tcs fork in
  meets_assumptions fork_blocks fork_tcs g /\
  ledger (g (key 0)).2 = [b1] /\ ledger (g (key 1)).2 = [rival] /\
  blk_parent b1 = blk_parent rival /\ digest b1 <> digest rival.
Proof.
  split; [apply played_meets_assumptions; [left|split; vdecide|vm_compute; reflexivity]|].
  split; [vm_compute; reflexivity|]. split; [vm_compute; reflexivity|]. split; [reflexivity|]. vdecide.
Qed.

(** ** The same without a stray vote

    A certificate of a fast quorum that arrives as a message makes a node commit,
    but neither lock nor move on ([Core::handle_commit_qc]), and since certificates
    not above the last commit are ignored the node never locks the block it has
    committed.  When the other votes that it reports are scattered over rounds, a
    view change forgets the block. *)

(** The blocks: node 2 leads round 2 and extends [b1], the Byzantine node leads
    round 3 and extends [b1] too, and node 0, which has committed [b1], leads round 4. *)
Definition third : Block := block 3 (digest b1).
Definition late : Block := block 4 (digest Block_genesis).
Definition chain_blocks : list Block := [Block_genesis; b1; b2; third; late].
Definition fast1 : QC :=
  let q := qc VT_Normal b1 [0; 1; 2; 3]%nat in mkQC (qc_blk_hash q) VT_Normal 1 (qc_votes q) true.
Definition node_after (tcs : list TC) (script : list Turn) (i : Z) : Core :=
  (played chain_blocks tcs script (key i)).2.
Definition timeout_after (tcs : list TC) (script : list Turn) (i : Z) : option Timeout :=
  logged_timeout (effects (node_after tcs script i)).
(** A timeout of the Byzantine node that reports nothing. *)
Definition empty_timeout (r : Round) : option Timeout :=
  Timeout_new (co_last_vote (network_start (key 3)).2) QC_genesis WQC_genesis r (key 3) (secret 3).
Definition expire (i now : Z) : list Turn := [Wait i now; Deliver i Ev_Timer].
(** The TC that an aggregator makes of some timeouts. *)
Definition tc_of_timeouts (ts : list (option Timeout)) : option TC :=
  (foldl (fun x t => match t with
     | Some t => let r := add_timeout t x.1 in (r.1, match r.2 with Ok (_, Some tc) => Some tc | _ => x.2 end)
     | None => x end) (Aggregator_new committee, None) ts).2.
Definition fall_back (to : list Z) (b : Block) (tc : option TC) : list Turn :=
  match tc with
  | Some tc => map (fun i => Deliver i (Ev_Message (CM_Propose (PM_F (mkFallbackRecoveryProposal b tc))))) to
  | None => []
  end.

(** Round 1: all vote for [b1]; node 2 gets a prepare quorum and moves on, nodes 0
    and 1 get the certificate of the fast quorum and commit. *)
Definition first_round : list Turn :=
  propose_to [0; 1; 2] b1 QC_genesis ++ deliver_votes 2 VT_Normal b1 [0; 1] ++ deliver_qc [0; 1] fast1.
(** Round 2: node 2 votes for its own block and times out; with the timeout of the
    Byzantine node this moves nodes 0 and 1. *)
Definition script2 : list Turn :=
  first_round ++ [Deliver 2 (Ev_Proposer (PM_N (mkNormalProposal b2 (qc VT_Normal b1 [0; 1; 2]%nat))))] ++ expire 2 101.
Definition script2' : list Turn :=
  script2 ++ flat_map (fun i => deliver_timeout i (timeout_after [] script2 2) ++ deliver_timeout i (empty_timeout 2)) [0; 1].
(** Round 3: node 0 gets a proposal and votes, node 1 does not; both time out. *)
Definition tc2 : option TC :=
  tc_of_timeouts [timeout_after [] script2 2; empty_timeout 2; timeout_after [] script2' 0].
Definition script3 : list Turn := script2' ++ fall_back [0] third tc2 ++ expire 0 101 ++ expire 1 101.
Definition script3' : list Turn :=
  script3 ++ deliver_timeout 0 (timeout_after (option_list tc2) script3 1) ++ deliver_timeout 0 (empty_timeout 3).
(** Round 4: node 0 proposes on what it has collected, and everyone votes. *)
Definition tc3 : option TC := tc_to_propose (effects (node_after (option_list tc2) script3' 0)).
Definition chain_tcs : list TC := option_list tc2 ++ option_list tc3.
Definition script4 : list Turn :=
  script3' ++ fall_back [0; 1; 2] late tc3 ++
  deliver_votes 2 VT_Normal late [0; 1] ++ deliver_qc [0; 1] (qc VT_Normal late [0; 1; 2]%nat) ++
  deliver_votes 2 VT_Commit late [0; 1].

(** The votes that the honest nodes have signed. *)
Definition signed_by (g : GlobalSafety.Net) (i : Z) : list Vote :=
  omap (fun e => match e with Ef_LogVote v => Some v | _ => None end) (world g (key i)).
Definition one_block_per_round (vs : list Vote) : Prop :=
  Forall (fun v => Forall (fun v' => vote_round v = vote_round v' -> vote_blk_hash v = vote_blk_hash v') vs) vs.
#[local] Instance one_block_per_round_dec vs : Decision (one_block_per_round vs).
Proof. unfold one_block_per_round. apply _. Defined.

(** C10: a fast commit is not safe even when no two votes of a round are for
    different blocks and every honest node has voted for the committed block: in
    a network of four with one Byzantine authority, which delivers a valid
    certificate of a fast quorum, times out without reporting a vote and leads
    one round, and under all the assumptions of the safety of slow commits, two
    honest nodes commit a block on that certificate and the third commits a
    conflicting block, which one of the two has proposed. *)
Theorem unlocked_commit_forks :
  let g := played chain_blocks chain_tcs script4 in
  meets_assumptions chain_blocks chain_tcs g /\
  QC_is_well_formed committee fast1 = Ok tt /\
  (forall i, i ∈ [0; 1; 2] -> Safety.voted (world g) (key i) VT_Normal (digest b1) 1) /\
  one_block_per_round (flat_map (signed_by g) [0; 1; 2]) /\
  ledger (g (key 0)).2 = [b1] /\ ledger (g (key 1)).2 = [b1] /\ ledger (g (key 2)).2 = [late] /\
  blk_author late = key 0 /\ blk_parent b1 = blk_parent late /\ digest b1 <> digest late.
Proof.
  split; [apply played_meets_assumptions; [left|split; vdecide|vm_compute; reflexivity]|].
  split; [vm_compute; reflexivity|]. split.
  { intros i Hi. apply has_voted_sound. revert i Hi. apply Forall_forall. vdecide. }
  split; [vdecide|]. do 3 (split; [vm_compute; reflexivity|]).
  split; [reflexivity|]. split; [reflexivity|]. vdecide.
Qed.
