(* ===== verification/DagWitnesses.v ===== *)
(** * DagWitnesses: the theorems about the primary, the network, replication and the executor
    at concrete inputs *)
From S2P Require Import Prelude Crypto Keys Config BitVec DagMessages Messages Signers Store Synchronizer DagAggregator DagCore DagCertify PrimaryTasks Batching Network NetworkProps WorkerTasks WorkerSync Executor Accounts AptosDb Scenario Core ConsensusTasks CoreSteps Replication Instances Witnesses.
Import Net.

(** ** The primary *)
Definition header1 : Header :=
  default (mkHeader (key 0) 1 [] Digest_default Signature_default) (Header_new (key 0) 1 [7] (secret 0)).
Definition dag_vote (i : Z) : DagVote := DagVote_new header1 (key i) (10 + i).

Lemma header_votes_make_certificate_witness :
  exists a cert, va_append_all committee header1 [dag_vote 0; dag_vote 1] VotesAggregator_new
      = (a, Ok (Some cert)) /\
    cert_id cert = hdr_id header1 /\ cert_round cert = 1 /\ cert_origin cert = key 0 /\
    Certificate_verify committee cert = Ok tt /\
    forall later cert', (va_append_all committee header1 later a).2 <> Ok (Some cert').
Proof.
  apply (header_votes_make_certificate committee net_wf net_stake net_total
           ltac:(vm_compute; lia) header1 (hdr_id header1) [dag_vote 0] (dag_vote 1)).
  - vm_compute. reflexivity.
  - vdecide.
  - vdecide.
  - constructor; [|constructor; [|constructor]].
    + exists 10. split; vm_compute; reflexivity.
    + exists 11. split; vm_compute; reflexivity.
  - vm_compute. reflexivity.
  - vm_compute. discriminate.
Defined.

Definition dag_config (i : Z) : DagConfig := mkDagConfig (key i) committee 50 (10 + i).
Definition dag_start : DagCore := DagCore_spawn (Store_new ∅) 0.

(** A certificate that nobody signed. *)
Definition forged : Certificate := mkCertificate Digest_default 1 (key 0) (1, 0).

Definition header2 : Header :=
  default (mkHeader (key 1) 1 [] Digest_default Signature_default) (Header_new (key 1) 1 [7; 8; 7] (secret 1)).
(** A forged certificate, a header of authority 1, a vote for it that went
    astray, a repeated vote, one for a wrong round, and the vote that counts. *)
Definition arrivals : list DagEvent :=
  map DEv_Primaries
    [PMsg_Certificate forged; PMsg_Header header2; PMsg_Vote (DagVote_new header2 (key 2) 12);
     PMsg_Vote (dag_vote 0); PMsg_Vote (mkDagVote (hdr_id header1) 9 (key 0) (key 3) 0);
     PMsg_Vote (dag_vote 1); PMsg_Vote (dag_vote 2)].


Lemma unverified_certificate_delivered_witness :
  dag_handle (dag_config 0) (DEv_Primaries (PMsg_Certificate forged)) dag_start =
    (dc_emitted (DE_Loopback (PMsg_VerifiedCertificate forged)) dag_start, Ok tt) /\
  primary_dispatch (Some (PMsg_VerifiedCertificate forged)) =
    ([PO_Ack; PO_Core (PMsg_VerifiedCertificate forged)], Ok tt) /\
  forall s1, exists s2,
    dag_handle (dag_config 0) (DEv_Primaries (PMsg_VerifiedCertificate forged)) s1 = (s2, Ok tt) /\
    dc_trace s2 = DE_Consensus forged :: dc_trace s1.
Proof.
  apply (unverified_certificate_delivered (dag_config 0) net_wf forged 0 dag_start).
  - vm_compute. lia.
  - vm_compute. reflexivity.
  - vm_compute. discriminate.
Defined.

Lemma replayed_own_header_panics_witness :
  exists s1 s2, dag_step (dag_config 0) (DEv_Proposer header1) dag_start = (s1, Ok tt) /\
    dag_step (dag_config 0) (DEv_Primaries (PMsg_Header header1)) s1 =
      (s2, Panicked "Failed to process our own vote").
Proof.
  apply (replayed_own_header_panics (dag_config 0) net_wf net_stake net_total header1 dag_start).
  - vm_compute. reflexivity.
  - vm_compute. reflexivity.
  - vm_compute. reflexivity.
  - reflexivity.
  - reflexivity.
  - vm_compute. discriminate.
  - vm_compute. discriminate.
Defined.

(** ** The pipeline *)
Definition batching : BatchingConfig := mkBatchingConfig (key 0) (secret 0) 2 100 2 200.
Definition client_messages : list (Z * PipelineEvent) :=
  [(1, PE_Network [5]); (2, PE_Network [6; 6]); (3, PE_MakerTransaction); (4, PE_Network [7])].
Definition idle : Pipeline := mkPipeline [] (BatchMaker_spawn 100 0) (HeaderProposer_spawn batching 0).

Lemma transactions_preserved_witness :
  exists p, (_ ← pl_start batching 0; pl_run batching client_messages) idle = (p, Ok tt) /\
    pl_all p = [5; 7] /\
    Forall (fun header => Header_verify committee header = Ok tt) (hp_tx_core (pl_proposer p)) /\
    (total_size [5; 7] < 2 ^ 64 ->
     exists p', drains batching p p' /\ hp_sent (pl_proposer p') = [5; 7]).
Proof.
  change [5; 7] with (submitted client_messages).
  apply (transactions_preserved batching committee); [by apply toy_keypair| |reflexivity].
  vm_compute. reflexivity.
Defined.

(** ** Consensus *)
Lemma verified_vote_kills_core_witness :
  reachable (config 0) false (boot (config 0) (Core_spawn (config 0) (Store_new ∅) 0)).1.
Proof.
  eapply (verified_vote_kills_core (config 0) _ (vote 0 VT_Normal b1)).
  assert (Ha : alive (boot (config 0) (Core_spawn (config 0) (Store_new ∅) 0)).2 = true)
    by (vm_compute; reflexivity).
  rewrite <-Ha at 1. apply reach_boot.
Defined.

Definition stored (h : Header) (st : Store) : Store :=
  store_write (digest_bytes (hdr_id h)) (header_encode h) st.
Definition certificate_of (h : Header) : Certificate :=
  mkCertificate (hdr_id h) (hdr_round h) (hdr_author h) (3, 0).
Definition committer : Committer :=
  mkCommitter (stored header2 (stored header1 (Store_new ∅))) (mkTestDbReader ∅ 1) [].

Lemma commit_executes_once_witness :
  exists txns results s',
    committer_step true [certificate_of header1; forged; certificate_of header2] committer = (s', Ok tt) /\
    txns `sublist_of` committed_transactions (cm_store committer)
      [certificate_of header1; forged; certificate_of header2] /\
    NoDup (omap bcs_to_bytes txns) /\
    (forall tx, tx ∈ committed_transactions (cm_store committer)
        [certificate_of header1; forged; certificate_of header2] ->
       exists tx', tx' ∈ txns /\ bcs_to_bytes tx' = bcs_to_bytes tx) /\
    execute_block (E := ConsensusError) txns (cm_executor committer) = (cm_executor s', Ok results) /\
    length results = length txns /\
    cm_store s' = cm_store committer /\
    cm_log s' = (match txns with [] => [] | _ => [(txns, results)] end) ++ cm_log committer.
Proof.
  apply commit_executes_once; [intros output; by eexists|]. apply Forall_forall. intros tx _. by eexists.
Defined.

(** What it executes there. *)
Example committed_once :
  deduplicate_transactions (committed_transactions (cm_store committer)
    [certificate_of header1; forged; certificate_of header2]) = [7; 8].
Proof. vm_compute. reflexivity. Qed.

(** ** The network *)

(** The receiver of a worker: what it writes back for a message. *)
Definition worker_replies (m : Bytes) : list Bytes * bool :=
  (omap (fun o => match o with WO_Ack => Some [65; 99; 107] | _ => None end) (worker_dispatch m), true).

Lemma worker_acks m : worker_replies m = ([[65; 99; 107]], true).
Proof. unfold worker_replies, worker_dispatch. by destruct (worker_decode m) as [[]|]. Qed.
Lemma worker_acks_once m : True -> exists ack ok, worker_replies m = ([ack], ok).
Proof. intros _. eexists _, _. apply worker_acks. Qed.

(** Three messages; the connection breaks when the first is acknowledged and the
    third was cancelled. *)
Definition link_events : list LinkEvent :=
  [LE_Submit [1]; LE_Submit [2]; LE_Submit [3]; LE_Cancel 2; LE_Sender (CE_Connect false);
   LE_Sender CE_Recv; LE_Sender CE_Timer; LE_Sender (CE_Connect true); LE_Sender (CE_Send true);
   LE_Sender CE_Recv; LE_Sender (CE_Send true); LE_Runner;
   LE_Sender (CE_Response (Some [65; 99; 107])); LE_Sender (CE_Response None)].
Definition link_after : Link := default Link_start (link_run worker_replies link_events Link_start).

Lemma link_after_run : link_run worker_replies link_events Link_start = Some link_after.
Proof. vm_compute. reflexivity. Qed.


Lemma reliable_sender_delivers_witness :
  exists s', goes worker_replies link_after s' /\ outstanding (ln_sender s') = [] /\
    ln_submitted s' = ln_submitted link_after /\
    wanted (ln_closed link_after) (ln_submitted link_after) `sublist_of` ln_replied s' /\
    Forall (fun m => im_data m ∈ ln_dispatched s') (ln_replied s').
Proof.
  apply (reliable_sender_delivers worker_replies (fun m => fits m = true) (fun m _ => worker_acks_once m I))
    with link_events; [done| |apply link_after_run|].
  - intros m ack ok _. rewrite worker_acks. by intros [= <- <-].
  - apply (bool_decide_eq_true_1 (Forall (fun m => fits (im_data m) = true) (ln_submitted link_after))).
    vm_compute. reflexivity.
Defined.

(** ** The worker *)
Lemma batch_sync_roundtrip_witness :
  (addr 41, [0; 5; 6]) ∈
    worker_helper committee 0 (processor 0 true [0; 5; 6] (Store_new ∅)).1 [hash32 [0; 5; 6]] (key 1) /\
  worker_dispatch [0; 5; 6] = [WO_Ack; WO_Processor [0; 5; 6]] /\
  store_read (digest_bytes (hash32 [0; 5; 6])) (processor 0 false [0; 5; 6] (Store_new ∅)).1
    = inr (Some [0; 5; 6]).
Proof.
  eapply (batch_sync_roundtrip committee 0 0 _ [0; 5; 6] (Store_new ∅) (Store_new ∅) true
           [hash32 [0; 5; 6]] (key 1) (mkWorkerAddresses (addr 31) (addr 41) (addr 51)));
    try reflexivity. left.
Defined.

Definition quorum_message : QuorumWaiterMessage :=
  mkQuorumWaiterMessage [0; 5] [(key 1, 0%nat); (key 2, 1%nat); (key 3, 2%nat)].

Lemma quorum_waiter_delivers_witness :
  quorum_waiter committee (stake committee (key 0)) quorum_message [2; 0]%nat = QW_Delivered.
Proof.
  apply (quorum_waiter_delivers committee net_stake (key 0) quorum_message [2; 0]%nat).
  - vdecide.
  - vdecide.
  - vdecide.
  - vm_compute. reflexivity.
  - vdecide.
  - vdecide.
  - split; [discriminate|]. vm_compute. discriminate.
Defined.

Definition worker_config : WorkerSyncConfig := mkWorkerSyncConfig (key 0) 0 50 5000 2.
Definition batch_digest : Digest := hash32 [0; 5].
Definition worker_sync : WorkerSync :=
  (ws_synchronize worker_config committee (Store_new ∅) 7 [batch_digest] (key 1) (WorkerSync_start 0)).1.
Definition worker_store : Store := (processor 0 false [0; 5] (Store_new ∅)).1.

Lemma worker_sync_reachable : ws_reachable worker_config committee (fun l => l) worker_sync.
Proof.
  eapply (wr_step worker_config committee (fun l => l)
            (WE_Message (Store_new ∅) 7 (PWM_Synchronize [batch_digest] (key 1)))).
  - apply (wr_start _ _ _ 0).
  - exact I.
  - reflexivity.
Qed.

Lemma worker_sync_pending_is_served_witness :
  exists i s', ws_waiting worker_sync !! i = Some (batch_digest, 0%nat) /\
    ws_step worker_config committee (fun l => l) (WE_Finished worker_store i false) worker_sync = Some (s', []) /\
    ws_pending s' = delete batch_digest (ws_pending worker_sync).
Proof.
  apply (worker_sync_pending_is_served worker_config committee (fun l => l) worker_sync batch_digest 0 0 7
           worker_store [0; 5] worker_sync_reachable).
  - reflexivity.
  - reflexivity.
Defined.

(** ** Keys *)
Lemma key_base64_roundtrip_witness :
  PublicKey_decode_base64 (PublicKey_encode_base64 (key 7)) = Ok (key 7).
Proof.
  apply key_base64_roundtrip. split; [reflexivity|]. vdecide.
Defined.

(** ** Two replicas *)

(** Nodes with a mempool, a block with the certificate of [header1], and a block
    on it that only the second node commits. *)
Definition replica (i : Z) : CoreConfig :=
  mkCoreConfig (key i) committee false elector 100 (secret i) (10 + i).
Definition cert1 : Certificate :=
  match (va_append_all committee header1 [dag_vote 0; dag_vote 1] VotesAggregator_new).2 with
  | Ok (Some certificate) => certificate
  | _ => forged
  end.
Definition full1 : Block :=
  default Block_genesis (Block_new (key 1) (digest Block_genesis) [cert1] 1 (secret 1)).
Definition full2 : Block := block 2 (digest full1).
Definition agreed (b : Block) (q : QC) (now : Z) : list (Z * CoreEvent) :=
  (now, proposal b q) :: map (pair now) (votes VT_Normal b [0; 1; 2; 3]) ++
  map (pair now) (votes VT_Commit b [0; 1; 2; 3]).
Definition replica0 : Core := after (replica 0) (agreed full1 QC_genesis 1).
Definition replica2 : Core :=
  after (replica 2) (agreed full1 QC_genesis 2 ++ agreed full2 (qc VT_Normal full1 [0; 1; 2]%nat) 3).
Definition feed (st : Store) : list (Store * list Certificate) := [(st, [cert1])].
Definition idle_committer : Committer := mkCommitter (Store_new ∅) (mkTestDbReader ∅ 1) [].
Lemma toy_sized_block b :
  Forall (fun n : nat => n = 32%nat)
    (length (key_bytes (blk_author b)) :: length (digest_bytes (blk_parent b)) ::
     map (fun d => length (digest_bytes d)) (map cert_id (blk_payload b))) ->
  u64 (blk_round b) -> sized_block b.
Proof.
  intros [Ha [Hp Hs]%Forall_cons]%Forall_cons Hr. split; [done..|]. by apply Forall_fmap in Hs.
Qed.

(** The first block of the second node's two is all that the first committed. *)
Lemma replicas_execute_alike_witness :
  (map (map cert_id) (deliveries replica0) = map (map cert_id) (take 1 (deliveries replica2)) /\
   same_run (run_commits true (feed (stored header1 (Store_new ∅))) idle_committer)
            (run_commits true (feed (stored header2 (stored header1 (Store_new ∅)))) idle_committer)) \/
  sha512_collision.
Proof.
  apply (replicas_execute_alike true (replica 0) (replica 2) true true replica0 replica2 1%nat).
  - reflexivity.
  - reflexivity.
  - apply runs_reachable. vm_compute. reflexivity.
  - apply runs_reachable. vm_compute. reflexivity.
  - replace (ledger replica0) with [full1] by (vm_compute; reflexivity).
    constructor; [|constructor]. apply toy_sized_block; [vdecide|vm_compute; split; [discriminate|reflexivity]].
  - replace (ledger replica2) with [full1; full2] by (vm_compute; reflexivity).
    constructor; [|constructor; [|constructor]];
      (apply toy_sized_block; [vdecide|vm_compute; split; [discriminate|reflexivity]]).
  - vm_compute. reflexivity.
  - vm_compute. reflexivity.
  - vm_compute. reflexivity.
  - intros [|i] x x' cert cert' Hx Hx'; [|discriminate].
    injection Hx as <-. injection Hx' as <-.
    intros ->%list_elem_of_singleton ->%list_elem_of_singleton _. vm_compute. reflexivity.
  - by split.
Defined.

(** ** The executor *)
Lemma committer_starts_funded_witness :
  exists c, Committer_spawn (Store_new ∅) = Ok c /\ cm_store c = Store_new ∅ /\ cm_log c = [] /\
    forall seed acct, seed ∈ PRE_FUNDED_ACCOUNT_SEEDS -> generate seed = Ok acct ->
      account_balance (la_address acct) (cm_executor c) = Ok 1001000000000.
Proof.
  apply committer_starts_funded; [exact I|].
  intros seed seed' acct acct' Hin Hin' Hne Hg Hg'. injection Hg as <-. injection Hg' as <-.
  unfold PRE_FUNDED_ACCOUNT_SEEDS in *. rewrite !elem_of_cons in Hin, Hin'.
  repeat destruct Hin as [->|Hin]; repeat destruct Hin' as [->|Hin'];
    try done; by apply not_elem_of_nil in Hin || apply not_elem_of_nil in Hin'.
Defined.

Definition trader (seed : Z) : LocalAccount := mkLocalAccount (100 + seed) seed seed 0.
Definition package : @Path toy_files := "pkg"%string.
Definition chain4 : @ChainId _ toy_aptos := 4.
Lemma scenario_numbered_witness :
  exists txns, build_three_trader_transactions (fun i => Some (Z.of_nat i)) package chain4 = Ok txns /\
    length txns = EXPECTED_SCENARIO_TXNS /\
    Forall (fun x => raw_chain_id (into_raw_transaction (sc_txn x)) = chain4 /\
      raw_sender (into_raw_transaction (sc_txn x)) ∈
        [la_address (trader 1); la_address (trader 3); la_address (trader 4)]) txns /\
    numbers (la_address (trader 1)) txns = seqZ 0 9 /\
    numbers (la_address (trader 3)) txns = seqZ 0 4 /\
    numbers (la_address (trader 4)) txns = seqZ 0 2.
Proof.
  apply (scenario_numbered (fun i => Some (Z.of_nat i)) package chain4
           (trader 1) (trader 2) (trader 3) (trader 4) ([0], [[0]])); try (vm_compute; reflexivity).
  apply (bool_decide_unpack _). vm_compute. exact I.
Defined.
