(* ===== verification/SafetyWitnesses.v ===== *)
(** * SafetyWitnesses: the theorems about networks, at a concrete execution

    The first block is committed by nodes 0 and 2 on commit votes, the second by
    node 2 alone. *)
From S2P Require Import Prelude Crypto Config BitVec DagMessages Messages Signers Leader Store Proposer Synchronizer Mempool Aggregator AggregatorProps DagCore Executor Core CoreSteps CoreProps CoreTermination ConsensusTasks Replication Safety AggregatorVetted CoreVetted GlobalSafety Instances Witnesses Scripts FastFork DagWitnesses.
Import Net.

Definition blocks : list Block := [Block_genesis; full1; full2].
Definition quorum1 : QC := qc VT_Normal full1 [0; 1; 2]%nat.
Definition quorum2 : QC := qc VT_Normal full2 [0; 1; 2]%nat.
Definition script : list Turn :=
  propose_to [0; 1; 2] full1 QC_genesis ++
  deliver_votes 0 VT_Normal b2 [3] ++ deliver_votes 0 VT_Normal full1 [1; 2] ++
  deliver_qc [1; 2] quorum1 ++
  deliver_votes 0 VT_Commit full1 [1; 2] ++ deliver_votes 2 VT_Commit full1 [0; 1] ++
  propose_to [0; 1; 2] full2 quorum1 ++
  deliver_votes 2 VT_Normal full2 [0; 1] ++
  deliver_qc [0; 1] quorum2 ++
  deliver_votes 2 VT_Commit full2 [0; 1].
Definition network : Net := played blocks [] script.

Lemma network_execution : execution byzantine node_config (occurs blocks) (carried []) (cast blocks) network.
Proof. apply played_execution; [left|]. vm_compute. reflexivity. Qed.
Lemma full1_certified :
  certified committee byzantine (world network) VT_Commit (digest (co_last_commit (network (key 0)).2))
    (blk_round (co_last_commit (network (key 0)).2)).
Proof. apply is_certified_sound. vm_compute. reflexivity. Qed.

(** *** What the theorems assume of the network *)
Lemma network_small : (committee_size committee <= Z.to_nat (comm_n committee))%nat.
Proof. vm_compute. lia. Qed.
Lemma byzantine_weight : Quorums.weight committee byzantine <= 1.
Proof. vm_compute. discriminate. Qed.
Lemma node_configured x : cc_name (node_config x) = x /\ cc_committee (node_config x) = committee.
Proof. done. Qed.
Lemma genesis_occurs : occurs blocks Block_genesis.
Proof. left. Qed.
Lemma blocks_distinct : distinct_blocks blocks.
Proof. split; vdecide. Qed.
Lemma block_rounds b : occurs blocks b -> u64 (blk_round b).
Proof.
  revert b. apply Forall_forall. repeat (apply Forall_cons; split; [vm_compute; split; congruence|]).
  by apply Forall_nil.
Qed.
Lemma honest i : bool_decide (key i = key 3) = false -> key i ∉ byzantine.
Proof. intros Hi%bool_decide_eq_false Hin%elem_of_singleton. done. Qed.

Lemma slow_commit_safety_witness :
  Forall2 same_block (ledger (network (key 0)).2)
    (take (length (ledger (network (key 0)).2)) (ledger (network (key 2)).2)).
Proof.
  apply (slow_commit_safety committee byzantine node_config (occurs blocks) (carried []) (cast blocks) net_wf network_small 4 1 0 0
    net_resilient net_configured byzantine_weight node_configured genesis_occurs
    (fun b b' => occurs_digest blocks b b' blocks_distinct) block_rounds (cast_unforged blocks blocks_distinct) network (key 0) (key 2) network_execution).
  - apply honest. vm_compute. reflexivity.
  - apply honest. vm_compute. reflexivity.
  - exact full1_certified.
  - vm_compute. discriminate.
Defined.

Lemma votes_are_justified_witness :
  vote_ok committee byzantine (occurs blocks) (carried []) (world network) (vote 1 VT_Commit full1).
Proof.
  apply (votes_are_justified committee byzantine node_config (occurs blocks) (carried []) (cast blocks) net_wf network_small 4 1 0 0
    net_resilient net_configured byzantine_weight node_configured genesis_occurs
    (fun b b' => occurs_digest blocks b b' blocks_distinct) block_rounds (cast_unforged blocks blocks_distinct) network (key 1) _ network_execution).
  - apply honest. vm_compute. reflexivity.
  - apply (signed_sound (world network) (vote 1 VT_Commit full1)). vm_compute. reflexivity.
Defined.

(** The first block is all that node 0 has committed, the second node has one more. *)
Lemma slow_commits_execute_alike_witness :
  map (map cert_id) (map snd (feed (stored header1 (Store_new ∅)))) =
  map (map cert_id) (map snd (feed (stored header2 (stored header1 (Store_new ∅))))) /\
  same_run (run_commits true (feed (stored header1 (Store_new ∅))) idle_committer)
           (run_commits true (feed (stored header2 (stored header1 (Store_new ∅)))) idle_committer).
Proof.
  apply (slow_commits_execute_alike committee byzantine node_config (occurs blocks) (carried []) (cast blocks) net_wf network_small 4 1 0 0
    net_resilient net_configured byzantine_weight node_configured genesis_occurs
    (fun b b' => occurs_digest blocks b b' blocks_distinct) block_rounds (cast_unforged blocks blocks_distinct) true network (key 0) (key 2)).
  - reflexivity.
  - reflexivity.
  - exact network_execution.
  - apply honest. vm_compute. reflexivity.
  - apply honest. vm_compute. reflexivity.
  - exact full1_certified.
  - vm_compute. discriminate.
  - vm_compute. reflexivity.
  - vm_compute. reflexivity.
  - intros [|i] x x' cert cert' Hx Hx'; [|discriminate].
    injection Hx as <-. injection Hx' as <-.
    intros ->%list_elem_of_singleton ->%list_elem_of_singleton _. vm_compute. reflexivity.
  - by split.
Defined.

