(* ===== verification/ConfigWitnesses.v ===== *)
(** * ConfigWitnesses: a small JSON codec, and a file written over a longer one *)
From S2P Require Import Prelude Crypto KeyServices Config ConfigFiles.

(** [true] and [false] as the digits 1 and 0. *)
#[export] Instance toy_json : Json bool := {
  to_string_pretty b := [if b then 49 else 48];
  from_slice bytes :=
    match bytes with
    | c :: rest =>
        if forallb whitespace rest
        then if c =? 49 then inl true else if c =? 48 then inl false else inr "expected value"%string
        else inr "trailing characters"%string
    | [] => inr "EOF while parsing a value"%string
    end;
}.
#[export] Instance toy_json_laws : JsonLaws bool.
Proof.
  split.
  - intros [] rest Hrest; simpl; by rewrite Hrest.
  - intros x rest Hrest. simpl. rewrite Hrest. by eexists.
Qed.

Definition disk : FileSystem :=
  mkFileSystem {["old.json"%string := [48; 10; 10; 49; 49]]} (fun _ => None) (fun _ => None) true.

Lemma export_import_roundtrip_witness :
  import "new.json" (export true "new.json" disk).1 = inr true /\
  exists msg, import (A := bool) "old.json" (export true "old.json" disk).1 = inl (ImportError "old.json" msg).
Proof.
  pose proof (export_import_roundtrip true "new.json" disk eq_refl eq_refl) as Hnew.
  pose proof (export_import_roundtrip true "old.json" disk eq_refl eq_refl) as Hold.
  vm_compute in Hnew, Hold. split; vm_compute; [exact (proj2 Hnew)|exact (proj2 Hold)].
Defined.
