(* ===== verification/RoundWitnesses.v ===== *)
(** * RoundWitnesses: three of four nodes in a round that commits and in one that does not

    Node 3 is silent, node 2 leads the second round.  First the others have seen
    the certificate of the first round; then they have voted in the first round
    but get no certificate before their timers expire. *)
From S2P Require Import Prelude Crypto Config BitVec DagMessages Messages Signers Leader Store Proposer Synchronizer Mempool Aggregator AggregatorProps Core CoreSteps CoreProps CoreTermination CoreLiveness GoodRound ViewChange Instances Witnesses Scripts.
Import Net.

Definition live : gset PublicKey := {[key 0; key 1; key 2]}.
Definition second_round (x : PublicKey) : Core :=
  after (node_config x) [(1, proposal b1 QC_genesis); (2, Ev_Message (CM_QC qc1))].
Definition second_proposal : NormalProposal := mkNormalProposal b2 qc1.
Definition arrival (x : PublicKey) : CoreEvent :=
  if decide (x = key 2) then Ev_Proposer (PM_N second_proposal) else Ev_Message (CM_Propose (PM_N second_proposal)).
Definition others (x : PublicKey) : list PublicKey := filter (fun y => y <> x) [key 2; key 0; key 1].

(** A property of the three nodes. *)
Lemma for_live (P : PublicKey -> Prop) : P (key 0) -> P (key 1) -> P (key 2) -> forall x, x ∈ live -> P x.
Proof. intros H0 H1 H2 x [[->%elem_of_singleton| ->%elem_of_singleton]%elem_of_union| ->%elem_of_singleton]%elem_of_union; done. Qed.

Lemma live_correct x : x ∈ live -> correct committee node_config x.
Proof.
  revert x. apply for_live; (split; [reflexivity|reflexivity|vm_compute; reflexivity|]).
  - exists 10. split; [vm_compute; reflexivity|intros d; apply Z.eqb_refl].
  - exists 11. split; [vm_compute; reflexivity|intros d; apply Z.eqb_refl].
  - exists 12. split; [vm_compute; reflexivity|intros d; apply Z.eqb_refl].
Qed.

(** What is to be checked of the state of a node before the round; one run of the
    node decides it. *)
#[export] Instance QCMaker_eq_dec : EqDecision QCMaker.
Proof. solve_decision. Defined.
Definition ready_facts (b : Block) (s : Core) : Prop :=
  (is_Some (co_uncommitted_qcs s !! qc_round qc1) /\ blk_round b = co_round s /\
   blk_round (co_last_commit s) < blk_round b /\ co_pending_proposals s !! blk_round b = None /\
   co_uncommitted_qcs s !! blk_round b = None /\ co_committable_blocks s !! digest b = None /\
   digest b ∉ co_sync_requests s /\ co_last_timeout s < blk_round b) /\
  (co_uncommitted_blocks s !! digest b = None /\ digest b <> digest (co_last_commit s) /\
   co_pending_proposals s !! (blk_round b + 1) = None /\ qc_round (co_locked s) < blk_round b /\
   maker VT_Normal b (co_aggregator s) = QCMaker_new 4 /\ maker VT_Commit b (co_aggregator s) = QCMaker_new 4) /\
  (co_last_commit s = Block_genesis /\ co_uncommitted_blocks s !! digest Block_genesis = Some Block_genesis /\
   co_uncommitted_blocks s !! digest b1 = Some b1).
#[local] Instance ready_facts_dec b s : Decision (ready_facts b s).
Proof. unfold ready_facts. apply _. Defined.

Lemma ready_node x :
  cc_committee (node_config x) = committee -> runs_ok (node_config x) [(1, proposal b1 QC_genesis); (2, Ev_Message (CM_QC qc1))] = true ->
  (fun s => bool_decide (ready_facts b2 s)) (second_round x) = true ->
  ag_committee (co_aggregator (second_round x)) = committee ->
  before_round node_config x (second_round x) second_proposal [b1].
Proof.
  intros Hcomm Hrun Hfacts%bool_decide_eq_true_1 Hca. assert (Hr : blk_round b2 = 2) by reflexivity.
  destruct Hfacts as ((Hq & Hround & Hlc & Hp & Hcq & Hcm & Hsy & Hto) & (Hb & Htip & Hnext & Hlock & Hm1 & Hm2) & Hgen & Hg & Hb1).
  split.
  - by apply runs_reachable.
  - right. by split_and!.
  - split; try done.
    + split; try done. right. vm_compute. reflexivity.
    + intros []; assumption.
  - split.
    + exists Block_genesis. rewrite Hgen. split; [reflexivity|by left].
    + rewrite Hgen. split; [vm_compute; reflexivity|split; [reflexivity|exact I]].
    + rewrite Hgen. repeat constructor; vm_compute; reflexivity.
    + by apply Forall_cons.
Qed.

Lemma live_before x : x ∈ live -> before_round node_config x (second_round x) second_proposal [b1].
Proof. revert x. apply for_live; apply ready_node; vm_compute; reflexivity. Qed.

Lemma live_heard kd x : x ∈ live -> heard committee live kd x (others x).
Proof.
  revert x. apply for_live; (split; [|vdecide|vdecide|destruct kd; vm_compute; reflexivity]);
    intros y [_ Hy]%list_elem_of_filter; revert Hy; unfold live;
    rewrite !elem_of_cons, !elem_of_union, !elem_of_singleton; intros [->|[->|[->|[]%not_elem_of_nil]]]; auto.
Qed.

Lemma honest_round_commits_witness :
  let S1 x := (handle_event (node_config x) (arrival x) (second_round x)).1 in
  let S2 x := receive_votes (node_config x) (map (vote_by node_config VT_Normal b2) (others x)) (S1 x) in
  let S3 x := receive_votes (node_config x) (map (vote_by node_config VT_Commit b2) (others x)) (S2 x) in
  (forall y, y ∈ others (key 1) -> sent committee node_config VT_Normal b2 y (S1 y)) /\
  (forall y, y ∈ others (key 1) -> sent committee node_config VT_Commit b2 y (S2 y)) /\
  ledger (S3 (key 1)) = ledger (second_round (key 1)) ++ [b1] ++ [b2].
Proof.
  apply (honest_round_commits committee net_wf net_size net_stake net_total ltac:(vm_compute; discriminate) live
           node_config second_proposal second_round (fun _ => [b1]) arrival (fun _ => others)).
  - exact live_correct.
  - vm_compute. reflexivity.
  - exact live_before.
  - intros x _. unfold arrival, arrives. case_decide; [by right|by left].
  - exact live_heard.
  - unfold live. set_solver.
Defined.

(** ** The same round with all four nodes *)
Definition everyone : gset PublicKey := {[key 0; key 1; key 2; key 3]}.
Definition all_others (x : PublicKey) : list PublicKey := filter (fun y => y <> x) [key 3; key 2; key 0; key 1].

Lemma for_everyone (P : PublicKey -> Prop) : (forall x, x ∈ live -> P x) -> P (key 3) -> forall x, x ∈ everyone -> P x.
Proof. intros Hlive H3 x [Hx| ->%elem_of_singleton]%elem_of_union; [by apply Hlive|done]. Qed.

Lemma everyone_correct x : x ∈ everyone -> correct committee node_config x.
Proof.
  revert x. apply for_everyone; [exact live_correct|]. split; [reflexivity|reflexivity|vm_compute; reflexivity|].
  exists 13. split; [vm_compute; reflexivity|intros d; apply Z.eqb_refl].
Qed.
Lemma everyone_before x : x ∈ everyone -> before_round node_config x (second_round x) second_proposal [b1].
Proof. revert x. apply for_everyone; [exact live_before|apply ready_node; vm_compute; reflexivity]. Qed.
Lemma everyone_heard x : x ∈ everyone -> heard_fast committee everyone x (all_others x).
Proof.
  assert (Hin : forall x' y, y ∈ all_others x' -> y ∈ everyone).
  { intros x' y [_ Hy]%list_elem_of_filter. revert Hy. unfold everyone.
    rewrite !elem_of_cons, !elem_of_union, !elem_of_singleton. intros [->|[->|[->|[->|[]%not_elem_of_nil]]]]; auto. }
  revert x. apply for_everyone; [apply for_live|]; (split; [apply Hin|vdecide|vm_compute; reflexivity]).
Qed.

Lemma fast_round_commits_witness :
  let S1 x := (handle_event (node_config x) (arrival x) (second_round x)).1 in
  let S2 x := receive_votes (node_config x) (map (vote_by node_config VT_Normal b2) (all_others x)) (S1 x) in
  (forall y, y ∈ all_others (key 3) -> sent committee node_config VT_Normal b2 y (S1 y)) /\
  ledger (S2 (key 3)) = ledger (second_round (key 3)) ++ [b1] ++ [b2].
Proof.
  apply (fast_round_commits committee net_wf net_size net_stake net_total ltac:(vm_compute; discriminate) everyone
           node_config second_proposal second_round (fun _ => [b1]) arrival all_others).
  - split; vm_compute; reflexivity.
  - vm_compute. reflexivity.
  - exact everyone_correct.
  - vm_compute. reflexivity.
  - exact everyone_before.
  - intros x _. unfold arrival, arrives. case_decide; [by right|by left].
  - exact everyone_heard.
  - unfold everyone. set_solver.
Defined.

(** ** A view change *)
Definition timed_out (x : PublicKey) : Core := set_now 200 (after (node_config x) [(1, proposal b1 QC_genesis)]).

Lemma live_sound x : x ∈ live -> sound committee node_config 1 (key 2) x.
Proof.
  revert x. apply for_live; (split; [reflexivity|reflexivity|vm_compute; reflexivity|by apply toy_keypair|vm_compute; reflexivity|]);
    right; eexists; vm_compute; reflexivity.
Qed.

Lemma live_expired x : x ∈ live -> expired node_config 1 x (timed_out x).
Proof.
  revert x. apply for_live;
    (split; [apply reach_time; [apply runs_reachable; vm_compute; reflexivity|vm_compute; discriminate]
            |vm_compute; discriminate|split; try (vm_compute; reflexivity); [left; vm_compute; reflexivity|left; vm_compute; discriminate]]).
Qed.

Lemma live_told x : x ∈ live -> told committee live x (others x).
Proof. intros Hx. destruct (live_heard VT_Normal x Hx). by split. Qed.

